(* ===== verification/_CoqProject ===== *)
-Q . S2P
Prelude.v
Respects.v
Num.v
Arithmetic.v
SymFunctions.v
Nuclides.v
NuclideTheory.v
Recorder.v
AgentSpec.v
CompMath.v
NuclideProperties.v
LMatrix.v
Decayer.v
MatrixTheory.v
DecayTheory.v
DecayProperties.v
Resource.v
Material.v
Query.v
MaterialTheory.v
MaterialProperties.v
ResBuf.v
ResourceLaws.v
MatQueries.v
QueryProperties.v
ResBufTheory.v
ResBufProperties.v
ExchangeGraph.v
Portfolio.v
Translator.v
TranslatorTheory.v
ExchangeManager.v
Traders.v
TraderTheory.v
TraderProperties.v
Sim.v
SimRun.v
Schema.v
SimInit.v
RecipeContext.v
AgentTree.v
AgentTheory.v
RestartTheory.v
Family.v
Evolution.v
SimTheory.v
SimLemmas.v
RestartDb.v
Preconditioner.v
GraphProperties.v
GreedySolver.v
ProgTranslator.v
GreedyTheory.v
ProgTheory.v
ProgFlow.v
Producers.v
BuildProperties.v
GreedyProperties.v
ProgProperties.v
ExchangeProperties.v
SimProperties.v
SchemaProperties.v
RestartProperties.v
