(* ===== verification/Prelude.v ===== *)
(** * Cyclus: a verification development of the simulation kernel

    Cyclus simulates nuclear fuel cycles.  Agents (regions, institutions, facilities)
    own resources (materials with a composition of nuclides, products with a quality);
    in every time step they trade through a dynamic resource exchange; everything that
    happens is recorded in a database, from which a simulation can be restarted.  This
    library models the kernel, [src/src/], its toolkit, [src/src/toolkit/], and the
    source and sink of [src/agents/], and proves what makes them correct.

    ** The parts and how they interact

    A run ([SimRun]) goes through build, tick, exchange, tock, decommission.  Agents live
    in the simulation context ([Sim]).  An exchange collects requests and bids
    ([Portfolio]), becomes a graph ([Translator], [ExchangeGraph]), which is conditioned
    ([Preconditioner]) and solved ([GreedySolver] or [ProgTranslator]); the matches become
    trades, which are carried out ([ExchangeManager]) by traders ([Traders]) that move
    resources ([Material]) between buffers ([ResBuf]).  Rows go to the [Recorder]; a
    snapshot of them is read back through [Query] by [SimInit].

    ** How code becomes definitions

    - Effects.  A method on mutable objects is a computation [M S A := S → outcome A * S]
      over an explicit state [S], with the result or the exception and in both cases the
      state that is left.  Pure code that throws is [outcome A].  The exceptions are those
      of [src/src/error.h]; [AssertFailure] is a failed assertion, [Undefined] an access or
      a conversion that C++ leaves undefined.
    - Objects that are shared live in stores, finite maps keyed by address ([ptr]).  New
      objects get increasing addresses: where the program iterates over a set or a map of
      pointers, the order of the model is the order of allocation.
    - Doubles are a type with the operations of the class [Num] ([Num]).  The definitions
      run at [b64], IEEE 754 binary64, and at [xq], exact extended rationals.  Theorems
      on control flow hold for all instances; theorems with arithmetic are about [xq],
      that is, up to rounding.  [long double] is treated in the same way.
    - [int] is [Z] with its range where a result can leave it ([Nuclides], [SimRun],
      [Traders]); a result out of range is undefined.
    - Code outside of the repository, and generated data, are parameters: the virtual
      functions of archetypes ([Archetypes], [TraderOps], [Loader]), backends
      ([QueryableBackend], with the contract [answers]), COIN-OR ([coin_solve]), PyNE's
      data ([Pyne], [DecayData], the table of masses), [exp], [log], distances of floats.

    ** The files

    - Foundations: [Prelude] (the monads and their Hoare-style rule [runs], maps in key
      order, lists); [Respects] (computations that keep a relation, whatever they
      return); [Num]; [Arithmetic] ([cyc_limits.h], [cyc_arithmetic.cc]).
    - Nuclides and decay: [Nuclides], [NuclideTheory], [NuclideProperties] ([pyne.cc],
      namespace [nucname] and [atomic_mass]); [CompMath] ([comp_math.cc]); [LMatrix],
      [Decayer], [MatrixTheory], [DecayTheory], [DecayProperties] ([l_matrix.cc],
      [uniform_taylor.cc], [decayer.cc]).
    - Resources: [Resource], [Material] ([composition.cc], [resource.cc], [res_tracker.cc],
      [material.cc], [product.cc], [res_manip.cc]), [MaterialTheory],
      [MaterialProperties]; [MatQueries], [QueryProperties] ([mat_query.cc],
      [enrichment.cc]); [ResBuf] ([res_buf.h], [resource_buff.cc], [res_map.h]),
      [ResourceLaws] (the class [ResLaws], what buffers rely on), [ResBufTheory],
      [ResBufProperties].
    - Exchange: [ExchangeGraph], [Preconditioner], [GraphProperties]; [Portfolio],
      [Translator], [TranslatorTheory], [ExchangeManager], [ExchangeProperties];
      [GreedySolver], [GreedyTheory], [GreedyProperties]; [ProgTranslator], [ProgTheory],
      [ProgFlow], [ProgProperties] ([prog_translator.cc], [prog_solver.cc]).
    - Traders: [Traders], [TraderTheory], [TraderProperties] ([matl_buy_policy.cc],
      [matl_sell_policy.cc], [source.cc], [sink.cc]); [SymFunctions] and [Producers],
      [BuildProperties] (symbolic functions, producers, supply and demand, building
      manager); [RecipeContext] ([commodity_recipe_context.cc]).
    - Simulation: [AgentSpec], [Sim], [SimRun] ([agent.cc], [facility.cc],
      [institution.cc], [region.cc], [context.cc], [timer.cc], [timeseries.cc]),
      [AgentTree], [AgentTheory], [Family], [Evolution], [SimTheory], [SimLemmas],
      [SimProperties]; [Schema], [SchemaProperties] (the tables that are recorded).
    - Database: [Recorder] ([datum.cc], [recorder.cc]); [Query] ([query_backend.h]);
      [SimInit], [RestartTheory], [RestartDb], [RestartProperties] ([sim_init.cc]).

    Files named [...Theory], [...Lemmas], [...Flow], [...Laws], [...Tree], and [Family],
    [Evolution] and [RestartDb] hold lemmas; the theorems that state what a part
    guarantees are in [...Properties], [Recorder] and [RecipeContext].  A theorem with
    hypotheses is followed by its application to a concrete input.

    ** What the theorems show

    - Solvers.  The greedy solver returns on every well-formed graph; its matches are
      feasible and maximal, its objective is the cost of the matches and of the unmet
      demand.  The points of the program that the other solver builds are exactly the flows
      of the graph, so what a correct library returns is translated back to feasible
      matches.
    - Exchange.  Translation keeps exactly the requests, bids, preferences and capacities;
      matches come back as the trades they stand for; every trade is delivered once.  The
      graph's indices agree whatever is added; conditioning only reorders, by weight.
    - Resources.  [Absorb] and [ExtractComp] conserve the mass of each nuclide.  Buffers
      keep their invariant, and [Pop] returns exactly what is asked for, oldest first.  The
      amount of a composition in a material is the largest that can be taken from it.
    - Decay.  The solver of the matrix exponential returns the terms of the series that
      its tolerance asks for, and decay loses at most a thousandth of the atoms.
    - Names.  What [nucname] writes is read back, with the exceptions the theorem states;
      the keys a composition accepts are nuclides.
    - Traders.  What a selling policy, a buying policy and a source ask for, offer and
      deliver, and when they throw; building decisions meet the demand.
    - Simulation.  A run ends within its duration; scheduled builds happen; the agents
      remain a forest; the queue of decommissions is a map from agents to times; rows of
      the kernel's tables have the types of their columns.
    - Restart.  Parameters, ids, compositions and the state of agents are read back as
      they were recorded; the hierarchy of agents is rebuilt if the parents are there.
    - Where the code does not do what it means to, the theorem says what it does:
      [mutual_order_not_met], [set_dump_count_stale_index], [untracked_product_extract],
      [push_vector_duplicates], [print_children_diverges], [counts_balance],
      [restart_loses_builds], [stale_decayer_throws], [product_terms],
      [sell_below_quantum_throws] and parts of others.

    ** Bounds on recursion

    [OutOfFuel] never comes from the code: it marks an exhausted bound.  Where the bound is
    in the definition, it is shown to be enough: popping from a buffer takes one round for
    each resource and one more; climbing and descending through agents at most one for
    each agent, since they form a forest; the main loop one for each time step left;
    reading a nuclide from a string its length, [atomic_mass] three levels, and the loop
    for excited states of MCNP 2200 rounds, before which an [int] is below zero and the
    loop ends.  Where the number of rounds depends on data ([Decayer],
    [LoadInitialAgents]), or the code need not terminate ([PrintChildren]), the bound is an
    argument, and the theorems say which bounds are enough, or that none is.

    ** Not modelled

    - The formats behind the interfaces: SQLite and HDF5 backends, XML input and its
      validation, loading of shared libraries, environment and file system, the Python
      package and bindings.  They are calls into libraries; the kernel relies on them
      through the interfaces that are parameters here.
    - COIN-OR and its copies under [src/src/OsiCbc*], and the generated nuclear data and
      decay branches of PyNE.
    - Output that does not influence a simulation: logging, warnings, [str()] and [Print()],
      MPS files, version numbers.
    - Tools: the command line, the preprocessor [cycpp.py], templates, test archetypes and
      the test harness. *)

From stdpp Require Import base gmap sets list strings sorting fin_maps.
From Stdlib Require Import ZArith Lia.

(** ** Exceptions

    The exception classes of [src/src/error.h], together with the two ways in
    which the C++ code can leave its defined behaviour: a failed [assert] and an
    access the language leaves undefined (an empty [front()], a vector index out
    of range).  [OutOfRange] is the [std::out_of_range] that [map::at] throws,
    [LengthError] the [std::length_error] of a container of negative size,
    [NotANuclide] and [IndeterminateNuclideForm] are those of [src/src/pyne.h].
    [OutOfFuel] never comes from the code: it marks an exhausted recursion
    bound. *)
Inductive exn :=
  | BaseError | ValueError | KeyError | StateError | IOError | CastError
  | ValidationError | DepricationError
  | NotANuclide | IndeterminateNuclideForm
  | BadCast | OutOfRange | LengthError | AssertFailure | Undefined | OutOfFuel.

#[export] Instance exn_eq_dec : EqDecision exn.
Proof. solve_decision. Defined.

(** ** Machine integers

    An [int] has 32 bits; signed overflow is undefined, conversion wraps. *)
Definition int_max : Z := 2147483647.
Definition int_min : Z := -2147483648.
Definition in_int (z : Z) : bool := (int_min <=? z)%Z && (z <=? int_max)%Z.
Definition to_int (z : Z) : Z := ((z + 2 ^ 31) mod 2 ^ 32 - 2 ^ 31)%Z.

Lemma in_int_spec z : in_int z = true ↔ (int_min ≤ z ≤ int_max)%Z.
Proof. unfold in_int. rewrite andb_true_iff. lia. Qed.
Lemma to_int_small z : (int_min ≤ z ≤ int_max)%Z → to_int z = z.
Proof. unfold to_int, int_min, int_max. intros. rewrite Z.mod_small; lia. Qed.
Lemma to_int_range z : (int_min ≤ to_int z ≤ int_max)%Z.
Proof. unfold to_int, int_min, int_max. pose proof (Z.mod_pos_bound (z + 2 ^ 31) (2 ^ 32)). lia. Qed.

(** ** The stateful exception monad

    A C++ member function is a computation over the state of the objects it can
    reach.  A [throw] keeps every mutation made before it, so the state is
    returned on both exits. *)
Inductive outcome (A : Type) :=
  | Ret (a : A)
  | Throw (e : exn).
Arguments Ret {A} a.
Arguments Throw {A} e.

(** A function without state. *)
#[export] Instance outcome_ret : MRet outcome := @Ret.
#[export] Instance outcome_bind : MBind outcome := λ A B k c,
  match c with Ret a => k a | Throw e => Throw e end.

Lemma bind_Ret {A B} (a : A) (k : A → outcome B) : Ret a ≫= k = k a.
Proof. done. Qed.

Definition M (S A : Type) : Type := S → outcome A * S.

Definition m_ret {S A} (a : A) : M S A := λ s, (Ret a, s).
Definition m_bind {S A B} (k : A → M S B) (c : M S A) : M S B := λ s,
  match c s with
  | (Ret a, s') => k a s'
  | (Throw e, s') => (Throw e, s')
  end.

#[export] Instance M_ret S : MRet (M S) := @m_ret S.
#[export] Instance M_bind S : MBind (M S) := λ A B k c, m_bind k c.
#[export] Instance M_fmap S : FMap (M S) := λ A B f c, m_bind (λ a, m_ret (f a)) c.

Definition throw {S A} (e : exn) : M S A := λ s, (Throw e, s).
Definition get {S} : M S S := λ s, (Ret s, s).
Definition put {S} (s : S) : M S unit := λ _, (Ret tt, s).
Definition gets {S A} (f : S → A) : M S A := λ s, (Ret (f s), s).
Definition modify {S} (f : S → S) : M S unit := λ s, (Ret tt, f s).

(** [require b e]: [if (!b) throw e;] *)
Definition require {S} (b : bool) (e : exn) : M S unit :=
  if b then m_ret tt else throw e.

(** A call of a function without state. *)
Definition pure {S A} (c : outcome A) : M S A := λ s, (c, s).

(** [container.at(k)]: the value, or [std::out_of_range]. *)
Definition from_option_or {S A} (e : exn) (o : option A) : M S A :=
  match o with Some a => m_ret a | None => throw e end.

(** [for (it = l.begin(); it != l.end(); ++it) f( *it );] *)
Fixpoint for_each {S A} (f : A → M S unit) (l : list A) : M S unit :=
  match l with
  | [] => m_ret tt
  | x :: l => m_bind (λ _, for_each f l) (f x)
  end.

(** A loop that collects what its body pushes back. *)
Fixpoint for_collect {S A B} (f : A → M S B) (l : list A) : M S (list B) :=
  match l with
  | [] => m_ret []
  | x :: l => m_bind (λ y, m_bind (λ ys, m_ret (y :: ys)) (for_collect f l)) (f x)
  end.

(** [lift_l] and [lift_r] run a computation on one half of a product state: a
    call to a method of one of two objects. *)
Definition lift_l {S T A} (c : M S A) : M (S * T) A := λ st,
  let '(o, s') := c st.1 in (o, (s', st.2)).
Definition lift_r {S T A} (c : M T A) : M (S * T) A := λ st,
  let '(o, t') := c st.2 in (o, (st.1, t')).

(** ** Reasoning about runs *)
Section monad.
Context {S : Type}.

Lemma bind_ret {A B} (c : M S A) (k : A → M S B) s a s' :
  c s = (Ret a, s') → (c ≫= k) s = k a s'.
Proof. intros Hc. unfold mbind, M_bind, m_bind. by rewrite Hc. Qed.

Lemma bind_throw {A B} (c : M S A) (k : A → M S B) s e s' :
  c s = (Throw e, s') → (c ≫= k) s = (Throw e, s').
Proof. intros Hc. unfold mbind, M_bind, m_bind. by rewrite Hc. Qed.

Lemma bind_assoc {A B C} (c : M S A) (k : A → M S B) (k' : B → M S C) s :
  ((c ≫= k) ≫= k') s = (c ≫= λ a, k a ≫= k') s.
Proof. unfold mbind, M_bind, m_bind. by destruct (c s) as [[a|e] s1]. Qed.
Lemma bind_inv {A B} (c : M S A) (k : A → M S B) s b s' :
  (c ≫= k) s = (Ret b, s') →
  ∃ a s1, c s = (Ret a, s1) ∧ k a s1 = (Ret b, s').
Proof.
  unfold mbind, M_bind, m_bind.
  destruct (c s) as [[a|e] s1]; [by eauto|done].
Qed.

Lemma pure_inv {A} (c : outcome A) s a s' : pure (S:=S) c s = (Ret a, s') → c = Ret a ∧ s' = s.
Proof. unfold pure. naive_solver. Qed.
Lemma require_inv b e s u s' :
  require (S:=S) b e s = (Ret u, s') → b = true ∧ s' = s.
Proof. destruct b; unfold require, m_ret, throw; naive_solver. Qed.

Lemma from_option_or_inv {A} e (o : option A) s a s' :
  from_option_or (S:=S) e o s = (Ret a, s') → o = Some a ∧ s' = s.
Proof. destruct o; unfold from_option_or, m_ret, throw; naive_solver. Qed.

(** The loop rule: an invariant indexed by the elements already visited. *)
Lemma for_each_inv {A} (I : list A → S → Prop) (f : A → M S unit) l s s' :
  I [] s →
  (∀ pre x post s1 s2, l = pre ++ x :: post → I pre s1 →
     f x s1 = (Ret tt, s2) → I (pre ++ [x]) s2) →
  for_each f l s = (Ret tt, s') → I l s'.
Proof.
  intros H0 Hstep.
  cut (∀ pre post s1, l = pre ++ post → I pre s1 →
    for_each f post s1 = (Ret tt, s') → I l s').
  { intros Hgen. by apply (Hgen [] l). }
  intros pre post. revert pre.
  induction post as [|x post IH]; intros pre s1 -> HI; simpl.
  - unfold m_ret. intros [=->]. by rewrite app_nil_r.
  - intros Hrun. apply (bind_inv (f x) (λ _, for_each f post)) in Hrun as ([] & s2 & Hx & Hrun).
    apply (IH (pre ++ [x]) s2); [by rewrite <-app_assoc|by eauto|done].
Qed.

(** A loop whose body cannot throw from states satisfying an invariant runs
    to its end. *)
Lemma for_each_total {A} (I : list A → S → Prop) (f : A → M S unit) l s :
  I [] s →
  (∀ pre x post s1, l = pre ++ x :: post → I pre s1 →
     ∃ s2, f x s1 = (Ret tt, s2) ∧ I (pre ++ [x]) s2) →
  ∃ s', for_each f l s = (Ret tt, s') ∧ I l s'.
Proof.
  intros H0 Hstep.
  cut (∀ pre post s1, l = pre ++ post → I pre s1 →
    ∃ s', for_each f post s1 = (Ret tt, s') ∧ I l s').
  { intros Hgen. by apply (Hgen [] l). }
  intros pre post. revert pre.
  induction post as [|x post IH]; intros pre s1 -> HI; simpl.
  - exists s1. by rewrite app_nil_r.
  - destruct (Hstep pre x post s1 eq_refl HI) as (s2 & Hx & HI2).
    destruct (IH (pre ++ [x]) s2) as (s3 & Hr & HI3); [by rewrite <-app_assoc|done|].
    exists s3. split; [|done]. unfold m_bind. by rewrite Hx.
Qed.

Lemma for_each_app {A} (f : A → M S unit) l1 l2 s :
  for_each f (l1 ++ l2) s = (for_each f l1 ≫= λ _, for_each f l2) s.
Proof.
  revert s. induction l1 as [|x l1 IH]; intros s; [done|].
  simpl. unfold mbind, M_bind, m_bind in *.
  destruct (f x s) as [[[]|e] s1]; [apply IH|done].
Qed.

Lemma for_each_cons {A} (f : A → M S unit) x l s s1 :
  f x s = (Ret tt, s1) → for_each f (x :: l) s = for_each f l s1.
Proof. intros Hx. cbn. unfold m_bind. by rewrite Hx. Qed.
Lemma for_each_throw {A} (f : A → M S unit) x l s e s1 :
  f x s = (Throw e, s1) → for_each f (x :: l) s = (Throw e, s1).
Proof. intros Hx. cbn. unfold m_bind. by rewrite Hx. Qed.
Lemma for_collect_cons {A B} (f : A → M S B) x l s y s1 ys s2 :
  f x s = (Ret y, s1) → for_collect f l s1 = (Ret ys, s2) →
  for_collect f (x :: l) s = (Ret (y :: ys), s2).
Proof. intros Hx Hl. cbn. unfold m_bind. by rewrite Hx, Hl. Qed.

(** [runs c s Q]: run in [s], [c] returns, with a value and state in [Q].  A
    specification in this style is a total one. *)
Definition runs {A} (c : M S A) (s : S) (Q : A → S → Prop) : Prop :=
  ∃ a s', c s = (Ret a, s') ∧ Q a s'.

Lemma runs_bind {A B} (c : M S A) (k : A → M S B) s Q :
  runs c s (λ a s', runs (k a) s' Q) → runs (c ≫= k) s Q.
Proof. intros (a & s1 & Hc & b & s2 & Hk & HQ). exists b, s2. by rewrite (bind_ret _ _ _ _ _ Hc). Qed.

Lemma runs_fmap {A B} (f : A → B) (c : M S A) s Q :
  runs c s (λ a s', Q (f a) s') → runs (f <$> c) s Q.
Proof.
  intros (a & s1 & Hc & HQ). exists (f a), s1. split; [|done].
  change ((c ≫= λ a, m_ret (f a)) s = (Ret (f a), s1)). by rewrite (bind_ret _ _ _ _ _ Hc).
Qed.

Lemma runs_ret {A} (a : A) s (Q : A → S → Prop) : Q a s → runs (mret a) s Q.
Proof. by exists a, s. Qed.
Lemma runs_get s (Q : S → S → Prop) : Q s s → runs get s Q.
Proof. by exists s, s. Qed.
Lemma runs_modify f s (Q : unit → S → Prop) : Q tt (f s) → runs (modify f) s Q.
Proof. by exists tt, (f s). Qed.
Lemma runs_require b e s (Q : unit → S → Prop) : b = true → Q tt s → runs (require b e) s Q.
Proof. intros ->. by exists tt, s. Qed.
Lemma runs_option {A} e (o : option A) a s (Q : A → S → Prop) :
  o = Some a → Q a s → runs (from_option_or e o) s Q.
Proof. intros ->. by exists a, s. Qed.

Lemma runs_mono {A} (c : M S A) s (Q Q' : A → S → Prop) :
  runs c s Q → (∀ a s', Q a s' → Q' a s') → runs c s Q'.
Proof. intros (a & s' & ? & ?) HQ. exists a, s'. auto. Qed.

(** [throws c s e]: run in [s], [c] throws [e]. *)
Definition throws {A} (c : M S A) (s : S) (e : exn) : Prop := ∃ s', c s = (Throw e, s').

Lemma throws_bind {A B} (c : M S A) (k : A → M S B) s e :
  runs c s (λ a s', throws (k a) s' e) → throws (c ≫= k) s e.
Proof. intros (a & s1 & Hc & s2 & Hk). exists s2. by rewrite (bind_ret _ _ _ _ _ Hc). Qed.
Lemma throws_bind_l {A B} (c : M S A) (k : A → M S B) s e : throws c s e → throws (c ≫= k) s e.
Proof. intros (s1 & Hc). exists s1. by apply bind_throw. Qed.
Lemma throws_require b e s : b = false → throws (require b e) s e.
Proof. intros ->. by exists s. Qed.

Lemma runs_for_each {A} (I : S → Prop) (f : A → M S unit) l s :
  I s → (∀ x s', x ∈ l → I s' → runs (f x) s' (λ _, I)) → runs (for_each f l) s (λ _, I).
Proof.
  revert s. induction l as [|x l IH]; intros s Hs Hf; [by exists tt, s|].
  change (for_each f (x :: l)) with (f x ≫= λ _, for_each f l). apply runs_bind.
  eapply runs_mono; [apply Hf; [by left|done]|]. intros [] s' Hs'. apply IH; [done|].
  intros y s2 Hy. apply Hf. by right.
Qed.

(** The same with an invariant indexed by the elements already visited. *)
Lemma runs_for_each_visited {A} (I : list A → S → Prop) (f : A → M S unit) l s :
  I [] s →
  (∀ pre x post s1, l = pre ++ x :: post → I pre s1 → runs (f x) s1 (λ _, I (pre ++ [x]))) →
  runs (for_each f l) s (λ _, I l).
Proof.
  intros Hs Hf. destruct (for_each_total I f l s Hs) as (s' & Hrun & HI); [|by exists tt, s'].
  intros pre x post s1 Hl HI. destruct (Hf pre x post s1 Hl HI) as ([] & s2 & ? & ?). by exists s2.
Qed.

Lemma runs_for_collect {A B} (I : list A → S → Prop) (f : A → M S B) l s :
  I [] s →
  (∀ pre x post s1, l = pre ++ x :: post → I pre s1 → runs (f x) s1 (λ _, I (pre ++ [x]))) →
  runs (for_collect f l) s (λ _, I l).
Proof.
  intros Hs Hf.
  cut (∀ post pre s1, l = pre ++ post → I pre s1 → runs (for_collect f post) s1 (λ _, I l)).
  { intros Hgen. by apply (Hgen l []). }
  induction post as [|x post IH]; intros pre s1 Hl HI.
  - rewrite app_nil_r in Hl. subst pre. by exists [], s1.
  - destruct (Hf pre x post s1 Hl HI) as (y & s2 & Hx & HI2).
    destruct (IH (pre ++ [x]) s2) as (ys & s3 & Hys & HI3); [by rewrite <-app_assoc|done|].
    exists (y :: ys), s3. split; [by eapply for_collect_cons|done].
Qed.
End monad.

Lemma runs_lift_l {S T A} (c : M S A) (s : S) (t : T) Q :
  runs c s (λ a s', Q a (s', t)) → runs (lift_l c) (s, t) Q.
Proof. intros (a & s' & Hc & HQ). exists a, (s', t). unfold lift_l. cbn. by rewrite Hc. Qed.
Lemma runs_lift_r {S T A} (c : M T A) (s : S) (t : T) Q :
  runs c t (λ a t', Q a (s, t')) → runs (lift_r c) (s, t) Q.
Proof. intros (a & t' & Hc & HQ). exists a, (s, t'). unfold lift_r. cbn. by rewrite Hc. Qed.
Lemma runs_gets {S A} (f : S → A) s (Q : A → S → Prop) : Q (f s) s → runs (gets f) s Q.
Proof. by exists (f s), s. Qed.

(** Peel the binds of a successful run in hypothesis [H]. *)
Ltac run_inv H :=
  match type of H with
  | (?c ≫= ?k) ?s = (Ret _, _) =>
      let a := fresh "r" in let s1 := fresh "s" in
      let H1 := fresh "Hrun" in
      apply (bind_inv c k) in H as (a & s1 & H1 & H); run_inv H1; run_inv H
  | require _ _ _ = (Ret _, _) =>
      let Hb := fresh "Hreq" in apply require_inv in H as [Hb ->]
  | pure _ _ = (Ret _, _) =>
      let Hb := fresh "Hpure" in apply pure_inv in H as [Hb ->]
  | from_option_or _ _ _ = (Ret _, _) =>
      let Hb := fresh "Hopt" in apply from_option_or_inv in H as [Hb ->]
  | get _ = (Ret _, _) => injection H as <- <-
  | gets _ _ = (Ret _, _) => injection H as <- <-
  | put _ _ = (Ret _, _) => injection H as <- <-
  | modify _ _ = (Ret _, _) => injection H as <- <-
  | m_ret _ _ = (Ret _, _) => injection H as <- <-
  | mret _ _ = (Ret _, _) => injection H as <- <-
  | _ => idtac
  end.

(** Case split on the conditions of the [if]s and [match]es of a run. *)
Ltac split_ifs :=
  repeat match goal with
  | |- context [if ?b then _ else _] => destruct b eqn:?
  | H : context [if ?b then _ else _] |- _ => destruct b eqn:?
  end.

(** ** Stable sorting

    [std::stable_sort(first, last, comp)]: the sorted permutation in which
    elements neither of which comes before the other keep their order. *)
Section stable_sort.
Context {A : Type} (comp : A → A → bool).

Fixpoint sort_insert (x : A) (l : list A) : list A :=
  match l with
  | [] => [x]
  | y :: l => if comp y x then y :: sort_insert x l else x :: y :: l
  end.

Fixpoint stable_sort (l : list A) : list A :=
  match l with
  | [] => []
  | x :: l => sort_insert x (stable_sort l)
  end.

Lemma sort_insert_perm x l : sort_insert x l ≡ₚ x :: l.
Proof.
  induction l as [|y l IH]; simpl; [done|].
  destruct (comp y x); [|done]. rewrite IH. apply Permutation_swap.
Qed.

Lemma stable_sort_perm l : stable_sort l ≡ₚ l.
Proof.
  induction l as [|x l IH]; simpl; [done|]. by rewrite sort_insert_perm, IH.
Qed.

Lemma elem_of_stable_sort x l : x ∈ stable_sort l ↔ x ∈ l.
Proof. by rewrite stable_sort_perm. Qed.

Lemma length_stable_sort l : length (stable_sort l) = length l.
Proof. apply Permutation_length, stable_sort_perm. Qed.

(** No element of the result comes, by the comparator, before one that
    precedes it. *)
Definition in_sort_order : list A → Prop :=
  StronglySorted (λ x y, comp y x = false).

(** The comparators of the code order by values that can be NaN, so the order
    laws are asked for the elements of the list only. *)
Definition comp_ok (P : A → Prop) : Prop :=
  (∀ x y, P x → P y → comp x y = true → comp y x = false) ∧
  (∀ x y z, P x → P y → P z → comp y x = false → comp z y = false → comp z x = false).

Lemma sort_insert_sorted (P : A → Prop) x l :
  comp_ok P → P x → Forall P l → in_sort_order l → in_sort_order (sort_insert x l).
Proof.
  intros [Hasym Htrans] Hx. unfold in_sort_order.
  induction l as [|y l IH]; intros HP Hs; simpl; [by repeat constructor|].
  apply StronglySorted_cons in Hs as [Hy Hs]. inversion HP as [|? ? HPy HPl]; subst.
  destruct (comp y x) eqn:Hc.
  - apply StronglySorted_cons. split; [|by apply IH].
    rewrite Forall_forall in Hy |- *. intros z Hz.
    rewrite sort_insert_perm in Hz. apply elem_of_cons in Hz as [->|Hz]; [by apply Hasym|auto].
  - apply StronglySorted_cons. split; [|by apply StronglySorted_cons].
    constructor; [done|]. rewrite Forall_forall in Hy, HPl |- *. eauto.
Qed.

Lemma stable_sort_sorted (P : A → Prop) l :
  comp_ok P → Forall P l → in_sort_order (stable_sort l).
Proof.
  intros Hc. induction 1 as [|x l Hx HP IH]; simpl; [by constructor|].
  apply (sort_insert_sorted P); [done..| |done].
  by rewrite stable_sort_perm.
Qed.

(** Stability: the elements a property selects keep their relative order when
    no two of them are ordered by the comparator. *)
Lemma sort_insert_filter (sel : A → bool) x l :
  (∀ y, y ∈ l → sel x = true → sel y = true → comp y x = false) →
  List.filter sel (sort_insert x l) = List.filter sel (x :: l).
Proof.
  induction l as [|y l IH]; intros Hsel; simpl; [done|].
  destruct (comp y x) eqn:Hc; [|done]. simpl.
  destruct (sel x) eqn:Hx, (sel y) eqn:Hy.
  - rewrite (Hsel y) in Hc; [done|by left|done|done].
  - rewrite IH by (intros; apply Hsel; [by right|done..]). simpl. by rewrite Hx.
  - rewrite IH by (intros; apply Hsel; [by right|done..]). simpl. by rewrite Hx.
  - rewrite IH by (intros; apply Hsel; [by right|done..]). simpl. by rewrite Hx.
Qed.

Lemma stable_sort_filter (sel : A → bool) l :
  (∀ x y, x ∈ l → y ∈ l → sel x = true → sel y = true → comp y x = false) →
  List.filter sel (stable_sort l) = List.filter sel l.
Proof.
  induction l as [|x l IH]; intros Hsel; [done|]. cbn [stable_sort].
  rewrite sort_insert_filter.
  - simpl. rewrite IH; [done|]. intros ????. apply Hsel; by right.
  - intros y Hy. rewrite stable_sort_perm in Hy. apply Hsel; [by left|by right].
Qed.
End stable_sort.

Lemma StronglySorted_impl_in {A} (R R' : relation A) l :
  (∀ x y, x ∈ l → y ∈ l → R x y → R' x y) → StronglySorted R l → StronglySorted R' l.
Proof.
  induction l as [|x l IH]; intros Himp Hs; [constructor|].
  apply StronglySorted_cons in Hs as [Hx Hs]. apply StronglySorted_cons. split.
  - rewrite Forall_forall in Hx |- *. intros y Hy. apply Himp; [by left|by right|auto].
  - apply IH; [|done]. intros ????. apply Himp; by right.
Qed.

(** Sorting only asks the comparator about elements of the list. *)
Lemma stable_sort_ext {A} (comp comp' : A → A → bool) l :
  (∀ x y, x ∈ l → y ∈ l → comp x y = comp' x y) → stable_sort comp l = stable_sort comp' l.
Proof.
  induction l as [|x l IH]; intros Hext; [done|]. cbn [stable_sort].
  rewrite IH by (intros; apply Hext; by right).
  assert (∀ y, y ∈ stable_sort comp' l → comp y x = comp' y x) as Hx.
  { intros y. rewrite stable_sort_perm. intros Hy. apply Hext; [by right|by left]. }
  revert Hx. generalize (stable_sort comp' l). clear.
  intros l'. induction l' as [|y l' IH']; intros Hx; [done|]. cbn [sort_insert].
  rewrite (Hx y) by (by left). destruct (comp' y x); [|done].
  f_equal. apply IH'. intros z Hz. apply Hx. by right.
Qed.

(** ** Ordered iteration

    [std::map] and [std::set] are iterated in key order.  The maps of the model
    are [gmap]s; where the code iterates, it does so over [in_order m].  Pointers
    are integers: the addresses the allocator hands out, in no particular order. *)
Abbreviation ptr := Z.

Class KeyOrder (K : Type) := {
  kle : relation K;
  kle_dec : RelDecision kle;
  kle_trans : Transitive kle;
  kle_total : Total kle
}.
#[export] Existing Instance kle_dec.
#[export] Existing Instance kle_trans.
#[export] Existing Instance kle_total.

#[export] Instance Z_key : KeyOrder Z.
Proof. by refine {| kle := Z.le |}. Defined.

(** [operator<] on pairs, and on the arcs of the exchange graph. *)
Definition pair_le (x y : Z * Z) : Prop :=
  (x.1 < y.1 ∨ (x.1 = y.1 ∧ x.2 ≤ y.2))%Z.
#[export] Instance pair_le_dec : RelDecision pair_le.
Proof. intros x y. unfold pair_le. apply _. Defined.
#[export] Instance pair_key : KeyOrder (Z * Z).
Proof.
  refine {| kle := pair_le |}.
  - intros [??] [??] [??]. unfold pair_le. simpl. lia.
  - intros [x1 x2] [y1 y2]. unfold pair_le. simpl.
    destruct (Z.lt_total x1 y1) as [|[|]], (Z.le_ge_cases x2 y2); auto with lia.
Defined.

#[export] Instance string_key : KeyOrder string.
Proof. by refine {| kle := String.le |}. Defined.

Section ordered.
Context {K : Type} `{Countable K} `{KeyOrder K} {A : Type}.

Definition key_le (x y : K * A) : Prop := kle x.1 y.1.
#[export] Instance key_le_dec (x y : K * A) : Decision (key_le x y).
Proof. unfold key_le. apply kle_dec. Defined.

Definition in_order (m : gmap K A) : list (K * A) := merge_sort key_le (map_to_list m).
Definition set_in_order (X : gset K) : list K := merge_sort kle (elements X).

Implicit Types m : gmap K A.

Lemma in_order_perm m : in_order m ≡ₚ map_to_list m.
Proof. apply merge_sort_Permutation. Qed.

Lemma elem_of_in_order m k x : (k, x) ∈ in_order m ↔ m !! k = Some x.
Proof. rewrite in_order_perm. apply elem_of_map_to_list. Qed.

Lemma NoDup_fst_in_order m : NoDup (in_order m).*1.
Proof. rewrite in_order_perm. apply NoDup_fst_map_to_list. Qed.

Lemma set_in_order_empty : set_in_order ∅ = [].
Proof. apply Permutation_nil_r. unfold set_in_order. by rewrite merge_sort_Permutation, elements_empty. Qed.
Lemma in_order_empty : in_order ∅ = [].
Proof. apply Permutation_nil_r. by rewrite in_order_perm, map_to_list_empty. Qed.

Lemma in_order_insert m k x :
  m !! k = None → in_order (<[k:=x]> m) ≡ₚ (k, x) :: in_order m.
Proof. intros Hk. rewrite !in_order_perm. by apply map_to_list_insert. Qed.

Lemma in_order_delete m k x :
  m !! k = Some x → in_order m ≡ₚ (k, x) :: in_order (delete k m).
Proof. intros Hk. rewrite !in_order_perm. by rewrite map_to_list_delete. Qed.

#[local] Instance key_le_trans : Transitive key_le.
Proof. intros x y z. unfold key_le. apply kle_trans. Qed.
#[local] Instance key_le_total : Total key_le.
Proof. intros x y. unfold key_le. apply kle_total. Qed.

Lemma in_order_sorted m : StronglySorted key_le (in_order m).
Proof. unfold in_order. by apply (StronglySorted_merge_sort _). Qed.

Lemma length_in_order m : length (in_order m) = size m.
Proof. rewrite (Permutation_length (in_order_perm m)). apply length_map_to_list. Qed.

Lemma set_in_order_perm (X : gset K) : set_in_order X ≡ₚ elements X.
Proof. apply merge_sort_Permutation. Qed.

Lemma elem_of_set_in_order (X : gset K) x : x ∈ set_in_order X ↔ x ∈ X.
Proof. rewrite set_in_order_perm. apply elem_of_elements. Qed.

Lemma NoDup_set_in_order (X : gset K) : NoDup (set_in_order X).
Proof. rewrite set_in_order_perm. apply NoDup_elements. Qed.

(** [m[k]] on a [std::map]: reading a missing key gives the default value.  (The
    insertion of the default that comes with it is written where the code can
    observe it.) *)
Definition at_default (d : A) (m : gmap K A) (k : K) : A := default d (m !! k).
End ordered.

(** ** List lemmas shared by the components *)
Lemma elem_of_filter_bool {A} (f : A → bool) (l : list A) x :
  x ∈ List.filter f l ↔ x ∈ l ∧ f x = true.
Proof. rewrite !list_elem_of_In. apply filter_In. Qed.

Lemma Forall_filter_bool {A} (P : A → Prop) (f : A → bool) l :
  Forall P l → Forall P (List.filter f l).
Proof.
  rewrite !Forall_forall. intros HP x. rewrite elem_of_filter_bool. naive_solver.
Qed.

Lemma Forall2_impl_in {A B} (P Q : A → B → Prop) l k :
  Forall2 P l k → (∀ x y, x ∈ l → P x y → Q x y) → Forall2 Q l k.
Proof.
  induction 1 as [|x y l k Hxy _ IH]; intros Himp; constructor.
  - apply Himp; [by left|done].
  - apply IH. intros x' y' Hin. apply Himp. by right.
Qed.

Lemma foldl_ext_in {A B} (f h : A → B → A) (a : A) (l : list B) :
  (∀ x b, b ∈ l → f x b = h x b) → foldl f a l = foldl h a l.
Proof.
  revert a. induction l as [|b l IH]; intros a Hext; [done|]. cbn [foldl].
  rewrite Hext by (by left). apply IH. intros x b' Hb. apply Hext. by right.
Qed.

Lemma foldl_snoc {A B} (f : A → B → A) (a : A) (l : list B) (b : B) :
  foldl f a (l ++ [b]) = f (foldl f a l) b.
Proof. by rewrite foldl_app. Qed.

(** The hint database of the development: lemmas that close the common side
    conditions (a number is finite, a list is a permutation of another). *)
Create HintDb cyclus.
#[export] Hint Resolve stable_sort_perm in_order_perm : cyclus.
