(* ===== verification/Respects.v ===== *)
(** * Computations that respect a relation

    [respects R E c]: whatever the state, and whether [c] returns or throws, [c] takes
    a state to an [R]-related one and throws only exceptions of [E].  The lemmas go
    through a computation statement by statement, the tactic [respect] applies them;
    what is shown of an operation goes into the hint database of the same name. *)

From stdpp Require Import base list gmap.
From Stdlib Require Import ZArith Lia.
From S2P Require Import Prelude.

Definition respects {S A} (R : relation S) (E : exn → Prop) (c : M S A) : Prop :=
  ∀ s, R s (c s).2 ∧ ∀ e, (c s).1 = Throw e → E e.

(** Everything but an exhausted recursion bound. *)
Definition no_fuel_out (e : exn) : Prop := e ≠ OutOfFuel.

(** No claim on exceptions. *)
Definition any_exn (e : exn) : Prop := True.

Section respects.
Context {S : Type} (R : relation S) (E : exn → Prop) `{!PreOrder R}.

Lemma respects_ret {A} (a : A) : respects R E (mret a).
Proof. intros s. split; [reflexivity|done]. Qed.
Lemma respects_throw {A} e : E e → respects R E (throw e : M S A).
Proof. intros He s. split; [reflexivity|]. intros e' [= <-]. done. Qed.
Lemma respects_get : respects R E get.
Proof. intros s. split; [reflexivity|done]. Qed.
Lemma respects_gets {A} (f : S → A) : respects R E (gets f).
Proof. intros s. split; [reflexivity|done]. Qed.
Lemma respects_modify f : (∀ s, R s (f s)) → respects R E (modify f).
Proof. intros Hf s. split; [apply Hf|done]. Qed.
Lemma respects_require b e : E e → respects R E (require b e).
Proof. intros He. destruct b; [apply respects_ret|by apply respects_throw]. Qed.
Lemma respects_option {A} e (o : option A) : E e → respects R E (from_option_or e o).
Proof. intros He. destruct o; [apply respects_ret|by apply respects_throw]. Qed.

Lemma respects_bind {A B} (c : M S A) (k : A → M S B) :
  respects R E c → (∀ a, respects R E (k a)) → respects R E (c ≫= k).
Proof.
  intros Hc Hk s. unfold mbind, M_bind, m_bind. destruct (Hc s) as [HR HE].
  destruct (c s) as [[a|e] s']; cbn in *.
  - destruct (Hk a s') as [HR' HE']. split; [by etrans|done].
  - split; [done|]. intros e' [= <-]. by apply HE.
Qed.
Lemma respects_fmap {A B} (f : A → B) (c : M S A) : respects R E c → respects R E (f <$> c).
Proof. intros Hc. apply (respects_bind c (λ a, m_ret (f a))); [done|]. intros a. apply respects_ret. Qed.
Lemma respects_for_each {A} (f : A → M S unit) l :
  (∀ x, respects R E (f x)) → respects R E (for_each f l).
Proof.
  intros Hf. induction l as [|x l IH]; [apply respects_ret|].
  by apply (respects_bind (f x) (λ _, for_each f l)).
Qed.
Lemma respects_for_collect {A B} (f : A → M S B) l :
  (∀ x, respects R E (f x)) → respects R E (for_collect f l).
Proof.
  intros Hf. induction l as [|x l IH]; [apply respects_ret|].
  apply (respects_bind (f x) (λ y, m_bind (λ ys, m_ret (y :: ys)) (for_collect f l))); [done|]. intros y.
  apply (respects_bind (for_collect f l) (λ ys, m_ret (y :: ys))); [done|]. intros ys. apply respects_ret.
Qed.
End respects.

(** A computation on a part of the state. *)
Lemma respects_ret_bind {S A B} (R : relation S) E (a : A) (k : A → M S B) :
  respects R E (k a) → respects R E (mret a ≫= k).
Proof. intros Hk s. apply (Hk s). Qed.
Lemma respects_throw_bind {S A B} (R : relation S) `{!PreOrder R} (E : exn → Prop) e (k : A → M S B) :
  E e → respects R E (throw e ≫= k).
Proof. intros He s. rewrite (bind_throw (throw e) k s e s eq_refl). split; [reflexivity|]. by intros ? [= <-]. Qed.

Lemma respects_zoom {S T A} (R : relation S) (R' : relation T) E (get_t : S → T) (set_t : T → S → S) (c : M T A) :
  (∀ s t, R' (get_t s) t → R s (set_t t s)) → respects R' E c →
  respects R E (λ s, let '(o, t) := c (get_t s) in (o, set_t t s)).
Proof.
  intros HR Hc s. destruct (Hc (get_t s)) as [HR' HE]. destruct (c (get_t s)) as [o t]. split; [by apply HR|done].
Qed.

Lemma zoom_any {S T A} (R : relation S) (get_t : S → T) (set_t : T → S → S) (c : M T A) :
  (∀ s t, R s (set_t t s)) → respects R any_exn (λ s, let '(o, t) := c (get_t s) in (o, set_t t s)).
Proof. intros HR s. destruct (c (get_t s)). split; [apply HR|done]. Qed.

Lemma respects_mono {S A} (R R' : relation S) (E E' : exn → Prop) (c : M S A) :
  (∀ s s', R s s' → R' s s') → (∀ e, E e → E' e) → respects R E c → respects R' E' c.
Proof. intros HR HE Hc s. destruct (Hc s) as [? ?]. split; [by apply HR|eauto]. Qed.

Create HintDb respects.
#[export] Hint Resolve respects_ret respects_get respects_gets : respects.
#[export] Hint Extern 0 (PreOrder _) => apply _ : respects.
#[export] Hint Extern 0 (any_exn _) => exact I : respects.
#[export] Hint Extern 0 (no_fuel_out _) => (unfold no_fuel_out; discriminate) : respects.

Ltac respect :=
  repeat first
    [ progress eauto with respects
    | apply respects_bind; [apply _| |intros]
    | apply respects_fmap; [apply _|]
    | apply respects_require; [apply _|solve [eauto with respects]]
    | apply respects_option; [apply _|solve [eauto with respects]]
    | apply respects_throw; [apply _|solve [eauto with respects]]
    | apply respects_for_each; [apply _|intros]
    | apply respects_for_collect; [apply _|intros]
    | apply respects_modify; intros; solve [reflexivity | eauto with respects]
    | match goal with
      | |- respects _ _ (if ?b then _ else _) => destruct b
      | |- respects _ _ (match ?x with _ => _ end) => destruct x
      end ].
