(* ===== verification/Num.v ===== *)
(** * Doubles

    The kernel computes with [double]s throughout.  Its definitions are
    translated once, over the operations of the class [Num], and evaluated at
    two instances:

    - [b64], IEEE 754 binary64 with round to nearest even, over the executable
      [SpecFloat] of the Standard Library: what the compiled program computes;
    - [xq], the extended rationals: exact arithmetic on the finite values with
      infinities and NaN as in IEEE 754 (one zero).

    Theorems that only depend on the control flow hold for every [Num].  Those
    that need arithmetic are stated at [xq], that is, up to rounding.  The
    relation [x ≃ q] says that the double [x] is finite with value [q]; its
    lemmas carry finiteness through the arithmetic.

    The second part models the numeric utilities of the kernel:
    [src/src/cyc_limits.h] and [src/src/cyc_arithmetic.cc]. *)

From Stdlib Require Import QArith Qminmax Qabs Qround Lqa ZArith Lia.
From Stdlib Require Import SpecFloat.
From stdpp Require Import base list.
From S2P Require Import Prelude.

(** ** The operations of a double *)
Class Num (F : Type) := {
  nZ : Z → F;                       (* an integer converted to double *)
  nlit : Q → F;                     (* a decimal literal *)
  nadd : F → F → F;
  nsub : F → F → F;
  nmul : F → F → F;
  ndiv : F → F → F;
  nneg : F → F;
  nabs : F → F;                     (* std::abs, fabs *)
  nltb : F → F → bool;
  nleb : F → F → bool;
  neqb : F → F → bool;
  nfloor : F → F;                   (* std::floor *)
  ntrunc : F → option Z;            (* static_cast to an integer type *)
  ninf : F;                         (* INFINITY *)
  nnan : F;                         (* quiet_NaN() *)
  nisnan : F → bool;
  ndblmax : F;                      (* numeric_limits<double>::max() *)
  ndblmin : F                       (* numeric_limits<double>::min() *)
}.

(** The exponential function and the logarithm of the mathematics library are parameters of
    the functions that use them. *)
Class Exponential (F : Type) := std_exp : F → F.
Class Logarithm (F : Type) := std_log : F → F.

Declare Scope dbl_scope.
Delimit Scope dbl_scope with D.
Infix "+" := nadd : dbl_scope.
Infix "-" := nsub : dbl_scope.
Infix "*" := nmul : dbl_scope.
Infix "/" := ndiv : dbl_scope.
Infix "<?" := nltb : dbl_scope.
Infix "<=?" := nleb : dbl_scope.
Infix "=?" := neqb : dbl_scope.
Notation "x >? y" := (nltb y x) (only parsing) : dbl_scope.
Notation "x >=? y" := (nleb y x) (only parsing) : dbl_scope.
Notation "x !=? y" := (negb (neqb x y)) (at level 70, only parsing) : dbl_scope.

Section std.
Context {F : Type} `{Num F}.

(** [std::min(a, b)] and [std::max(a, b)]: the first argument on a tie, and when
    the comparison fails because of a NaN. *)
Definition dmin (a b : F) : F := if nltb b a then b else a.
Definition dmax (a b : F) : F := if nltb a b then b else a.

(** [*std::min_element(v.begin(), v.end())] of a non-empty vector [x :: l]. *)
Definition min_elem (x : F) (l : list F) : F := foldl dmin x l.
Definition max_elem (x : F) (l : list F) : F := foldl dmax x l.
End std.

(** ** The exact instance: extended rationals *)
Inductive xq := Fin (q : Q) | PInf | NInf | NaN.

Definition Qltb (a b : Q) : bool := negb (Qle_bool b a).

(** An infinity with the sign of a comparison to zero. *)
Definition inf_sign (c : comparison) : xq :=
  match c with Gt => PInf | Lt => NInf | Eq => NaN end.

Definition xneg (x : xq) : xq :=
  match x with Fin q => Fin (- q) | PInf => NInf | NInf => PInf | NaN => NaN end.

Definition xabs (x : xq) : xq :=
  match x with Fin q => Fin (Qabs q) | NaN => NaN | _ => PInf end.

Definition xadd (x y : xq) : xq :=
  match x, y with
  | Fin a, Fin b => Fin (a + b)
  | NaN, _ | _, NaN => NaN
  | PInf, NInf | NInf, PInf => NaN
  | PInf, _ | _, PInf => PInf
  | NInf, _ | _, NInf => NInf
  end.

Definition xmul (x y : xq) : xq :=
  match x, y with
  | Fin a, Fin b => Fin (a * b)
  | NaN, _ | _, NaN => NaN
  | PInf, Fin b => inf_sign (Qcompare b 0)
  | Fin a, PInf => inf_sign (Qcompare a 0)
  | NInf, Fin b => inf_sign (Qcompare 0 b)
  | Fin a, NInf => inf_sign (Qcompare 0 a)
  | PInf, PInf | NInf, NInf => PInf
  | PInf, NInf | NInf, PInf => NInf
  end.

Definition xdiv (x y : xq) : xq :=
  match x, y with
  | Fin a, Fin b => if Qeq_bool b 0 then inf_sign (Qcompare a 0) else Fin (a / b)
  | NaN, _ | _, NaN => NaN
  | Fin _, _ => Fin 0
  | PInf, Fin b => if Qltb b 0 then NInf else PInf
  | NInf, Fin b => if Qltb b 0 then PInf else NInf
  | _, _ => NaN
  end.

Definition xleb (x y : xq) : bool :=
  match x, y with
  | Fin a, Fin b => Qle_bool a b
  | NaN, _ | _, NaN => false
  | NInf, _ | _, PInf => true
  | _, _ => false
  end.

Definition xeqb (x y : xq) : bool :=
  match x, y with
  | Fin a, Fin b => Qeq_bool a b
  | PInf, PInf | NInf, NInf => true
  | _, _ => false
  end.

Definition xltb (x y : xq) : bool :=
  match x, y with
  | NaN, _ | _, NaN => false
  | _, _ => negb (xleb y x)
  end.

Definition xtrunc (x : xq) : option Z :=
  match x with
  | Fin q => Some (Z.quot (Qnum q) (Zpos (Qden q)))
  | _ => None
  end.

(** The largest and the smallest normal positive binary64 number. *)
Definition dbl_max_q : Q := inject_Z ((2 ^ 53 - 1) * 2 ^ 971).
Definition dbl_min_q : Q := 1 # (2 ^ 1022).

#[export] Instance xq_num : Num xq := {
  nZ z := Fin (inject_Z z);
  nlit q := Fin q;
  nadd := xadd;
  nsub x y := xadd x (xneg y);
  nmul := xmul;
  ndiv := xdiv;
  nneg := xneg;
  nabs := xabs;
  nltb := xltb;
  nleb := xleb;
  neqb := xeqb;
  nfloor x := match x with Fin q => Fin (inject_Z (Qfloor q)) | _ => x end;
  ntrunc := xtrunc;
  ninf := PInf;
  nnan := NaN;
  nisnan x := match x with NaN => true | _ => false end;
  ndblmax := Fin dbl_max_q;
  ndblmin := Fin dbl_min_q
}.

(** ** The binary64 instance *)
Abbreviation b64 := spec_float.

Definition b64_of_Z (z : Z) : b64 := binary_normalize 53 1024 z 0 false.

Definition b64_trunc (x : b64) : option Z :=
  match x with
  | S754_zero _ => Some 0%Z
  | S754_finite s m e =>
      let v := if Z.leb 0 e then Z.shiftl (Zpos m) e else Z.shiftr (Zpos m) (- e) in
      Some (if s then (- v)%Z else v)
  | _ => None
  end.

(** Rounding towards minus infinity: exact on binary64 values. *)
Definition b64_floor (x : b64) : b64 :=
  match x with
  | S754_finite s m e =>
      if Z.leb 0 e then x
      else b64_of_Z (Z.shiftr (if s then Zneg m else Zpos m) (- e))
  | _ => x
  end.

#[export] Instance b64_num : Num b64 := {
  nZ := b64_of_Z;
  nlit q := SFdiv 53 1024 (b64_of_Z (Qnum q)) (b64_of_Z (Zpos (Qden q)));
  nadd := SFadd 53 1024;
  nsub := SFsub 53 1024;
  nmul := SFmul 53 1024;
  ndiv := SFdiv 53 1024;
  nneg := SFopp;
  nabs := SFabs;
  nltb := SFltb;
  nleb := SFleb;
  neqb := SFeqb;
  nfloor := b64_floor;
  ntrunc := b64_trunc;
  ninf := S754_infinity false;
  nnan := S754_nan;
  nisnan x := match x with S754_nan => true | _ => false end;
  ndblmax := S754_finite false (2 ^ 53 - 1) 971;
  ndblmin := S754_finite false (2 ^ 52) (-1074)
}.

(** ** Finite values *)
Definition is_fin (x : xq) (q : Q) : Prop :=
  match x with Fin a => a == q | _ => False end.
Infix "≃" := is_fin (at level 70, no associativity).

(** The value of a finite double ([0] for the others). *)
Definition val (x : xq) : Q := match x with Fin q => q | _ => 0 end.
Definition finite (x : xq) : Prop := x ≃ val x.

#[export] Instance Qle_preorder : PreOrder Qle.
Proof. split; [intros x; apply Qle_refl|intros x y z; apply Qle_trans]. Qed.

#[export] Instance Qle_decision (a b : Q) : Decision (a <= b)%Q.
Proof. destruct (Qlt_le_dec b a) as [Hlt|Hle]; [right; by apply Qlt_not_le|by left]. Defined.
#[export] Instance Qlt_decision (a b : Q) : Decision (a < b)%Q.
Proof. destruct (Qlt_le_dec a b) as [Hlt|Hle]; [by left|right; by apply Qle_not_lt]. Defined.

Lemma Qle_div_elim a b u : (0 < u → a <= b / u → a * u <= b)%Q.
Proof.
  intros Hu Hle. assert (b == b / u * u)%Q as -> by (field; lra).
  apply Qmult_le_compat_r; lra.
Qed.

(** Case analysis on the minima and maxima of a goal. *)
Ltac q_minmax :=
  try lra;
  lazymatch goal with
  | H : context [Qmin ?a ?b] |- _ =>
      let E := fresh in destruct (Q.min_spec a b) as [[? E]|[? E]]; rewrite ?E in *; clear E; q_minmax
  | H : context [Qmax ?a ?b] |- _ =>
      let E := fresh in destruct (Q.max_spec a b) as [[? E]|[? E]]; rewrite ?E in *; clear E; q_minmax
  | |- context [Qmin ?a ?b] =>
      let E := fresh in destruct (Q.min_spec a b) as [[? E]|[? E]]; rewrite ?E in *; clear E; q_minmax
  | |- context [Qmax ?a ?b] =>
      let E := fresh in destruct (Q.max_spec a b) as [[? E]|[? E]]; rewrite ?E in *; clear E; q_minmax
  | |- _ => idtac
  end.

#[export] Instance is_fin_proper x : Proper (Qeq ==> iff) (is_fin x).
Proof. intros a b Hab. destruct x; simpl; by rewrite ?Hab. Qed.

Lemma is_fin_weaken x a b : x ≃ a → a == b → x ≃ b.
Proof. intros Hx Hab. by rewrite <-Hab. Qed.

Lemma is_fin_finite x a : x ≃ a → finite x.
Proof. by destruct x. Qed.

Lemma is_fin_val x a : x ≃ a → val x == a.
Proof. by destruct x. Qed.

Lemma is_fin_inj x a b : x ≃ a → x ≃ b → a == b.
Proof. destruct x; simpl; [|done..]. intros <-. by intros <-. Qed.

Lemma Qltb_lt a b : Qltb a b = true ↔ (a < b)%Q.
Proof.
  unfold Qltb. rewrite negb_true_iff. split; intros Hab.
  - destruct (Qlt_le_dec a b) as [?|Hba]; [done|].
    apply Qle_bool_iff in Hba. congruence.
  - destruct (Qle_bool b a) eqn:Hba; [|done].
    apply Qle_bool_iff in Hba. exfalso. lra.
Qed.

Lemma Qltb_ge a b : Qltb a b = false ↔ (b <= a)%Q.
Proof.
  unfold Qltb. rewrite negb_false_iff. apply Qle_bool_iff.
Qed.

Section finite.
Context {x y : xq} {a b : Q}.

Lemma fin_add : x ≃ a → y ≃ b → (x + y)%D ≃ (a + b)%Q.
Proof. destruct x, y; simpl; try done. intros -> ->. done. Qed.
Lemma fin_sub : x ≃ a → y ≃ b → (x - y)%D ≃ (a - b)%Q.
Proof. destruct x, y; simpl; try done. intros -> ->. done. Qed.
Lemma fin_mul : x ≃ a → y ≃ b → (x * y)%D ≃ (a * b)%Q.
Proof. destruct x, y; simpl; try done. intros -> ->. done. Qed.
Lemma fin_div : x ≃ a → y ≃ b → ¬ b == 0 → (x / y)%D ≃ (a / b)%Q.
Proof.
  destruct x, y; simpl; try done. intros Ha Hb Hnz.
  destruct (Qeq_bool _ 0) eqn:E; simpl.
  - apply Qeq_bool_iff in E. exfalso. lra.
  - by rewrite Ha, Hb.
Qed.
Lemma fin_neg : x ≃ a → nneg x ≃ (- a)%Q.
Proof. destruct x; simpl; try done. by intros ->. Qed.
Lemma fin_abs : x ≃ a → nabs x ≃ Qabs a.
Proof. destruct x; simpl; try done. by intros ->. Qed.

Lemma ltb_fin : x ≃ a → y ≃ b → (x <? y)%D = Qltb a b.
Proof.
  destruct x, y; simpl; try done. intros Ha Hb. unfold Qltb. f_equal.
  apply eq_bool_prop_intro. rewrite !Is_true_true, !Qle_bool_iff. by rewrite Ha, Hb.
Qed.
Lemma leb_fin : x ≃ a → y ≃ b → (x <=? y)%D = Qle_bool a b.
Proof.
  destruct x, y; simpl; try done. intros Ha Hb.
  apply eq_bool_prop_intro. rewrite !Is_true_true, !Qle_bool_iff. by rewrite Ha, Hb.
Qed.
Lemma eqb_fin : x ≃ a → y ≃ b → (x =? y)%D = Qeq_bool a b.
Proof.
  destruct x, y; simpl; try done. intros Ha Hb.
  apply eq_bool_prop_intro. rewrite !Is_true_true, !Qeq_bool_iff. by rewrite Ha, Hb.
Qed.

Lemma fin_ltb_true : x ≃ a → y ≃ b → (x <? y)%D = true → (a < b)%Q.
Proof. intros Hx Hy. rewrite (ltb_fin Hx Hy). apply Qltb_lt. Qed.
Lemma fin_ltb_false : x ≃ a → y ≃ b → (x <? y)%D = false → (b <= a)%Q.
Proof. intros Hx Hy. rewrite (ltb_fin Hx Hy). apply Qltb_ge. Qed.
Lemma fin_leb_true : x ≃ a → y ≃ b → (x <=? y)%D = true → (a <= b)%Q.
Proof. intros Hx Hy. rewrite (leb_fin Hx Hy). apply Qle_bool_iff. Qed.
Lemma fin_leb_false : x ≃ a → y ≃ b → (x <=? y)%D = false → (b < a)%Q.
Proof.
  intros Hx Hy. rewrite (leb_fin Hx Hy). intros Hle. apply Qltb_lt.
  unfold Qltb. by rewrite Hle.
Qed.
Lemma fin_eqb_true : x ≃ a → y ≃ b → (x =? y)%D = true → a == b.
Proof. intros Hx Hy. rewrite (eqb_fin Hx Hy). apply Qeq_bool_iff. Qed.
Lemma fin_eqb_false : x ≃ a → y ≃ b → (x =? y)%D = false → ¬ a == b.
Proof. intros Hx Hy. rewrite (eqb_fin Hx Hy). apply Qeq_bool_neq. Qed.

End finite.

Lemma fin_min {x y : xq} {a b : Q} : x ≃ a → y ≃ b → dmin x y ≃ Qmin a b.
Proof.
  intros Hx Hy. unfold dmin. destruct (y <? x)%D eqn:E.
  - rewrite (ltb_fin Hy Hx) in E. apply Qltb_lt in E. by rewrite Q.min_r by lra.
  - rewrite (ltb_fin Hy Hx) in E. apply Qltb_ge in E. by rewrite Q.min_l by lra.
Qed.
Lemma fin_max {x y : xq} {a b : Q} : x ≃ a → y ≃ b → dmax x y ≃ Qmax a b.
Proof.
  intros Hx Hy. unfold dmax. destruct (x <? y)%D eqn:E.
  - rewrite (ltb_fin Hx Hy) in E. apply Qltb_lt in E. by rewrite Q.max_r by lra.
  - rewrite (ltb_fin Hx Hy) in E. apply Qltb_ge in E. by rewrite Q.max_l by lra.
Qed.

Lemma fin_Z z : (nZ z : xq) ≃ inject_Z z.
Proof. done. Qed.
Lemma fin_lit q : (nlit q : xq) ≃ q.
Proof. done. Qed.
Lemma fin_Fin q : Fin q ≃ q.
Proof. simpl. reflexivity. Qed.
Lemma fin_dblmax : (ndblmax : xq) ≃ dbl_max_q.
Proof. done. Qed.

#[export] Hint Resolve fin_add fin_sub fin_mul fin_neg fin_abs fin_min fin_max
  fin_Z fin_lit fin_Fin fin_dblmax is_fin_finite : cyclus.

(** Decide a comparison of finite doubles in a hypothesis, leaving the
    inequality between their values. *)
Ltac fin_cmp H :=
  first
    [ eapply fin_ltb_true in H; [|by eauto with cyclus..]
    | eapply fin_ltb_false in H; [|by eauto with cyclus..]
    | eapply fin_leb_true in H; [|by eauto with cyclus..]
    | eapply fin_leb_false in H; [|by eauto with cyclus..]
    | eapply fin_eqb_true in H; [|by eauto with cyclus..]
    | eapply fin_eqb_false in H; [|by eauto with cyclus..] ].
