(* ===== verification/Arithmetic.v ===== *)
(** * Numeric utilities of the kernel

    [src/src/cyc_limits.h]: the global tolerances and the comparisons that use
    them.  [src/src/cyc_arithmetic.cc]: the compensated summation every total
    quantity of the kernel goes through. *)

From Stdlib Require Import QArith Qminmax Qabs Lqa ZArith Lia.
From stdpp Require Import base list gmap sorting.
From S2P Require Import Prelude Num.

(** ** Tolerances

    [cy_eps] and [cy_eps_rsrc] are global variables; a computation of the model
    runs with fixed values for them. *)
Class Limits (F : Type) := {
  cy_eps : F;
  cy_eps_rsrc : F
}.

Section limits.
Context {F : Type} `{Num F}.

(** Their initial values, both [1e-6]. *)
Definition default_limits : Limits F :=
  {| cy_eps := nlit (1 # 1000000); cy_eps_rsrc := nlit (1 # 1000000) |}.

Context `{Limits F}.

Definition eps : F := cy_eps.
Definition eps_rsrc : F := cy_eps_rsrc.

Definition IsNegative (d : F) : bool := (d <? nZ (-1) * eps)%D.

Definition AlmostEq (d1 d2 : F) : bool := (nabs (d1 - d2) <? eps)%D.

(** Distance in ULP within which doubles are considered equal. *)
Definition float_ulp_eq : F := nZ 2.
End limits.

(** The tolerances are non-negative finite numbers. *)
Class GoodLimits `{Limits xq} (e er : Q) : Prop := {
  eps_fin : eps ≃ e;
  eps_nonneg : (0 <= e)%Q;
  eps_rsrc_fin : eps_rsrc ≃ er;
  eps_rsrc_nonneg : (0 <= er)%Q
}.
#[export] Hint Resolve eps_fin eps_rsrc_fin eps_nonneg eps_rsrc_nonneg : cyclus.

#[export] Instance default_good : @GoodLimits default_limits (1 # 1000000) (1 # 1000000).
Proof. by split. Qed.

Lemma IsNegative_fin `{GoodLimits e er} d q :
  d ≃ q → IsNegative d = Qltb q (- e).
Proof.
  intros Hd. unfold IsNegative.
  rewrite (ltb_fin Hd (fin_mul (fin_Z (-1)) eps_fin)).
  done.
Qed.

(** ** Compensated summation *)
Section kahan.
Context {F : Type} `{Num F}.

(** [std::sort] on doubles: equal elements are indistinguishable. *)
Definition sort_inplace_ascending (to_sort : list F) : list F := stable_sort nltb to_sort.

Definition sort_ascending (to_sort : list F) : list F := stable_sort nltb to_sort.

Definition sort_ascending_map (to_sort : gmap Z F) : list F :=
  sort_ascending (in_order to_sort).*2.

(** One turn of the loop of [KahanSum]: [y], [t], [c] and [sum]. *)
Definition kahan_step (st : F * F) (input_i : F) : F * F :=
  let '(sum, c) := st in
  let y := (input_i - c)%D in
  let t := (sum + y)%D in
  (t, ((t - sum) - y)%D).

Definition KahanSum (input : list F) : F :=
  (foldl kahan_step (nZ 0, nZ 0) (sort_inplace_ascending input)).1.
End kahan.

(** ** Sums of rationals *)
Local Open Scope Q_scope.

Definition sumQ (l : list Q) : Q := foldr Qplus 0 l.

Lemma sumQ_cons x l : sumQ (x :: l) = x + sumQ l.
Proof. done. Qed.

Lemma sumQ_app l1 l2 : sumQ (l1 ++ l2) == sumQ l1 + sumQ l2.
Proof. induction l1 as [|x l1 IH]; simpl; [ring|]. rewrite IH. ring. Qed.

Lemma sumQ_snoc l x : sumQ (l ++ [x]) == sumQ l + x.
Proof. rewrite sumQ_app, sumQ_cons. change (sumQ []) with 0. lra. Qed.
Lemma sumQ_perm l1 l2 : l1 ≡ₚ l2 → sumQ l1 == sumQ l2.
Proof.
  induction 1 as [|x l1 l2 _ IH|x y l|l1 l2 l3 _ IH1 _ IH2]; simpl; [done| | |].
  - by rewrite IH.
  - ring.
  - by rewrite IH1.
Qed.

Lemma sumQ_nonneg l : Forall (λ q, 0 <= q)%Q l → (0 <= sumQ l)%Q.
Proof. induction 1; simpl; lra. Qed.

Lemma sumQ_map_ext {A} (f g : A → Q) (l : list A) :
  (∀ x, x ∈ l → f x == g x) → sumQ (map f l) == sumQ (map g l).
Proof.
  induction l as [|x l IH]; intros Hfg; simpl; [done|].
  rewrite Hfg by left. rewrite IH; [done|]. intros. apply Hfg. by right.
Qed.

Lemma sumQ_map_le {A} (f g : A → Q) (l : list A) :
  (∀ x, x ∈ l → f x <= g x)%Q → (sumQ (map f l) <= sumQ (map g l))%Q.
Proof.
  induction l as [|x l IH]; intros Hfg; simpl; [lra|].
  assert (f x <= g x)%Q by (apply Hfg; left).
  assert (sumQ (map f l) <= sumQ (map g l))%Q by (apply IH; intros; apply Hfg; by right).
  lra.
Qed.

Lemma sumQ_map_mult {A} (c : Q) (f : A → Q) (l : list A) :
  sumQ (map (λ x, f x * c)%Q l) == sumQ (map f l) * c.
Proof. induction l as [|x l IH]; simpl; [ring|]. rewrite IH. ring. Qed.

Lemma sumQ_map_plus {A} (f g : A → Q) (l : list A) :
  sumQ (map (λ x, f x + g x)%Q l) == sumQ (map f l) + sumQ (map g l).
Proof. induction l as [|x l IH]; simpl; [ring|]. rewrite IH. ring. Qed.

Lemma sumQ_map_filter {X : Type} (P : X → Prop) `{∀ x, Decision (P x)} (h : X → Q) l :
  sumQ (map h (filter P l)) == sumQ (map (λ x, if decide (P x) then h x else 0) l).
Proof.
  induction l as [|x l IH]; [done|]. rewrite filter_cons. cbn [map]. rewrite sumQ_cons.
  destruct (decide (P x)); [cbn [map]; rewrite sumQ_cons, IH; done|rewrite IH; ring].
Qed.
(** The sum of a list with one entry changed. *)
Lemma sumQ_elem_le l x : Forall (λ q, 0 <= q)%Q l → x ∈ l → (x <= sumQ l)%Q.
Proof.
  induction 1 as [|y l Hy Hl IH]; intros Hx; [by apply elem_of_nil in Hx|].
  simpl. apply elem_of_cons in Hx as [->|Hx].
  - pose proof (sumQ_nonneg l Hl). lra.
  - specialize (IH Hx). lra.
Qed.

(** ** The compensated sum is the sum *)
Definition vals (l : list xq) : list Q := map val l.

(** Left folds over finite numbers. *)
Lemma foldl_nsub_fin xs qs a t : a ≃ t → Forall2 is_fin xs qs → foldl nsub a xs ≃ (t - sumQ qs)%Q.
Proof.
  intros Ha Hxs. revert a t Ha. induction Hxs as [|x q xs qs Hx _ IH]; intros a t Ha; cbn [foldl].
  - eapply is_fin_weaken; [exact Ha|]. change (sumQ []) with 0%Q. lra.
  - eapply is_fin_weaken; [apply (IH (a - x)%D (t - q)%Q); by apply fin_sub|]. rewrite sumQ_cons. lra.
Qed.

Lemma foldl_nadd_fin xs qs a t : a ≃ t → Forall2 is_fin xs qs → foldl nadd a xs ≃ (t + sumQ qs)%Q.
Proof.
  intros Ha Hxs. revert a t Ha. induction Hxs as [|x q xs qs Hx _ IH]; intros a t Ha; cbn [foldl].
  - eapply is_fin_weaken; [exact Ha|]. change (sumQ []) with 0%Q. lra.
  - eapply is_fin_weaken; [apply (IH (a + x)%D (t + q)%Q); by apply fin_add|]. rewrite sumQ_cons. lra.
Qed.

Lemma vals_perm l1 l2 : l1 ≡ₚ l2 → sumQ (vals l1) == sumQ (vals l2).
Proof. intros Hp. apply sumQ_perm. unfold vals. by rewrite Hp. Qed.

Lemma kahan_exact (l : list xq) sum c s :
  Forall finite l → sum ≃ s → c ≃ 0 →
  (foldl kahan_step (sum, c) l).1 ≃ (s + sumQ (vals l))%Q.
Proof.
  intros Hl. revert sum c s. induction Hl as [|x l Hx Hl IH]; intros sum c s Hs Hc; simpl.
  - apply (is_fin_weaken _ _ _ Hs). simpl. ring.
  - assert (Hy : (x - c)%D ≃ (val x - 0)%Q) by eauto with cyclus.
    assert (Ht : (sum + (x - c))%D ≃ (s + (val x - 0))%Q) by eauto with cyclus.
    eapply is_fin_weaken; [apply (IH _ _ _ Ht)|simpl; ring].
    eapply is_fin_weaken; [eauto with cyclus|]. ring.
Qed.

(** With exact arithmetic the compensation is zero and [KahanSum] returns the sum
    of its input, whatever the order of the input. *)
Lemma KahanSum_fin (l : list xq) : Forall finite l → KahanSum l ≃ sumQ (vals l).
Proof.
  intros Hl. unfold KahanSum, sort_inplace_ascending.
  eapply is_fin_weaken.
  - apply (kahan_exact (stable_sort nltb l) (nZ 0) (nZ 0) 0); [|done|done].
    by rewrite stable_sort_perm.
  - rewrite (vals_perm _ l) by apply stable_sort_perm. ring.
Qed.
#[export] Hint Resolve KahanSum_fin : cyclus.

(** The sorted input is ascending when no element is a NaN. *)
Lemma nltb_comp_ok : comp_ok (nltb : xq → xq → bool) (λ x, x ≠ NaN).
Proof.
  split.
  - intros [a| | |] [b| | |] ??; simpl; try done. rewrite !negb_true_iff, negb_false_iff.
    intros Hba. apply Qle_bool_iff.
    destruct (Qlt_le_dec a b) as [?|Hle]; [lra|]. apply Qle_bool_iff in Hle. congruence.
  - intros [a| | |] [b| | |] [c| | |] ???; simpl; try done.
    rewrite !negb_false_iff, !Qle_bool_iff. intros. lra.
Qed.

Lemma sort_ascending_sorted (l : list xq) :
  Forall (λ x, x ≠ NaN) l →
  StronglySorted (λ x y, (y <? x)%D = false) (sort_ascending l).
Proof. intros Hl. by apply (stable_sort_sorted nltb (λ x, x ≠ NaN)); [apply nltb_comp_ok|]. Qed.
