(* ===== verification/SymFunctions.v ===== *)
(** * Symbolic functions

    [src/src/toolkit/symbolic_functions.h], [.cc], [symbolic_function_factories.h] and
    [.cc]: linear, exponential and piecewise functions, and the factories that make them.
    A piecewise function is the list of its pieces; the functions that are its pieces are
    values.  Reading a number from a stream is a parameter; text output is left out. *)

From Stdlib Require Import QArith Lqa ZArith Lia.
From stdpp Require Import base list gmap strings.
From S2P Require Import Prelude Num.

Inductive SymFunction {F : Type} :=
  | LinearFunction (slope_ intercept_ : F)
  | ExponentialFunction (constant_ exponent_ intercept_ : F)
  | PiecewiseFunction (functions_ : list PiecewiseFunctionInfo)
with PiecewiseFunctionInfo {F : Type} := mkPiece (function : SymFunction) (xoffset yoffset : F).
Arguments SymFunction F : clear implicits.
Arguments PiecewiseFunctionInfo F : clear implicits.

Section functions.
Context {F : Type} `{Num F} `{Exponential F}.

Definition xoffset (i : PiecewiseFunctionInfo F) : F := let '(mkPiece _ x _) := i in x.

(** [value(x)].  The search for the piece goes on while [x] is not before a piece, and back
    by one; before the first piece the value is zero, and going back from there is undefined
    (it happens for a NaN). *)
Fixpoint value (f : SymFunction F) (x : F) : outcome F :=
  match f with
  | LinearFunction slope_ intercept_ => Ret (slope_ * x + intercept_)%D
  | ExponentialFunction constant_ exponent_ intercept_ => Ret (constant_ * std_exp (exponent_ * x) + intercept_)%D
  | PiecewiseFunction functions_ =>
      let search := fix search (l : list (PiecewiseFunctionInfo F)) (prev : outcome F) : outcome F :=
        match l with
        | [] => prev
        | mkPiece f xoff yoff :: l =>
            if (x >=? xoff)%D then search l (y ← value f (x - xoff)%D; Ret (y + yoff)%D) else prev
        end in
      match functions_ with
      | [] => Ret (nZ 0)
      | first :: _ => if (x <? xoffset first)%D then Ret (nZ 0) else search functions_ (Throw Undefined)
      end
  end.

(** [AddFunction(function, starting_coord, continuous)], on the pieces so far *)
Definition AddFunction (function : SymFunction F) (starting_coord : F) (continuous : bool)
    : M (list (PiecewiseFunctionInfo F)) unit :=
  functions_ ← get;
  (match last functions_ with
   | Some last => require (negb (starting_coord <=? xoffset last)%D) BaseError
   | None => mret tt
   end);;
  yoffset ← (if continuous then
    y1 ← pure (value (PiecewiseFunction functions_) starting_coord);
    y0 ← pure (value function (nZ 0));
    mret (y1 - y0)%D
  else mret (nZ 0));
  modify (λ l, l ++ [mkPiece function starting_coord yoffset]).

(** [PiecewiseFunctionFactory::GetFunctionPtr(params)] *)
Definition GetPiecewise (params : string) : M (list (PiecewiseFunctionInfo F)) (SymFunction F) :=
  require (bool_decide (params = EmptyString)) BaseError;;
  l ← get; mret (PiecewiseFunction l).

(** ** Functions from their parameters

    [ss >> x]: the number and the rest of the stream.  A failed extraction stores zero, and
    those that follow it leave their variable as it is, uninitialised here. *)
Context (extract : string → option (F * string)).
Fixpoint extract_all (n : nat) (ss : string) : outcome (list F) :=
  match n with
  | O => Ret []
  | S n =>
      match extract ss with
      | Some (x, ss) => l ← extract_all n ss; Ret (x :: l)
      | None => match n with O => Ret [nZ 0] | S _ => Throw Undefined end
      end
  end.
Definition LinFunctionFactory (params : string) : outcome (SymFunction F) :=
  l ← extract_all 2 params;
  match l with [slope; intercept] => Ret (LinearFunction slope intercept) | _ => Throw Undefined end.
Definition ExpFunctionFactory (params : string) : outcome (SymFunction F) :=
  l ← extract_all 3 params;
  match l with
  | [constant; exponent; intercept] => Ret (ExponentialFunction constant exponent intercept)
  | _ => Throw Undefined
  end.

Inductive FunctionType := LIN | EXP.
Definition enum_names_ (type : string) : option FunctionType :=
  if bool_decide (type = "lin"%string ∨ type = "linear"%string) then Some LIN
  else if bool_decide (type = "exp"%string ∨ type = "exponential"%string) then Some EXP
  else None.
Definition BasicFunctionFactory (type params : string) : outcome (SymFunction F) :=
  match enum_names_ type with
  | None => Throw BaseError
  | Some LIN => LinFunctionFactory params
  | Some EXP => ExpFunctionFactory params
  end.
End functions.

(** ** Piecewise functions of rationals *)
Section piecewise.
Context `{Exponential xq}.
Local Open Scope Q_scope.

(** A function whose values on numbers are given by [h]. *)
Definition defines (f : SymFunction xq) (h : Q → Q) : Prop := ∀ x q, x ≃ q → ∃ y, value f x = Ret y ∧ y ≃ h q.

(** The pieces of a factory begin at increasing numbers. *)
Definition starts (l : list (PiecewiseFunctionInfo xq)) : list Q := (λ i, val (xoffset i)) <$> l.
Record pieces_ok (l : list (PiecewiseFunctionInfo xq)) : Prop := {
  po_finite : Forall (λ i, finite (xoffset i)) l;
  po_sorted : ∀ i j a b, starts l !! i = Some a → starts l !! j = Some b → (i < j)%nat → a < b
}.

Definition piece_value (i : PiecewiseFunctionInfo xq) (x : xq) : outcome xq :=
  let '(mkPiece f xoff yoff) := i in y ← value f (x - xoff)%D; Ret (y + yoff)%D.
Fixpoint search (x : xq) (l : list (PiecewiseFunctionInfo xq)) (prev : outcome xq) : outcome xq :=
  match l with
  | [] => prev
  | i :: l => if (x >=? xoffset i)%D then search x l (piece_value i x) else prev
  end.
Lemma value_piecewise l x : value (PiecewiseFunction l) x =
  match l with
  | [] => Ret (nZ 0)
  | first :: _ => if (x <? xoffset first)%D then Ret (nZ 0) else search x l (Throw Undefined)
  end.
Proof.
  destruct l as [|[f xo yo] l]; [done|]. cbn [value xoffset search piece_value]. destruct (x <? xo)%D; [done|].
  destruct (x >=? xo)%D; [|done]. generalize (y ← value f (x - xo)%D; Ret (y + yo)%D) as prev. clear f xo yo.
  induction l as [|[f xo yo] l IH]; intros prev; [done|]. cbn [search xoffset piece_value]. destruct (x >=? xo)%D; [apply IH|done].
Qed.

(** A new last piece matters from where it starts. *)
Lemma search_snoc_before x l i prev : (x >=? xoffset i)%D = false → search x (l ++ [i]) prev = search x l prev.
Proof.
  intros Hi. revert prev. induction l as [|k l IH]; intros prev; cbn [search app]; [by rewrite Hi|].
  destruct (x >=? xoffset k)%D; [apply IH|done].
Qed.
Lemma search_snoc_from x l i prev : Forall (λ k, (x >=? xoffset k)%D = true) (l ++ [i]) →
  search x (l ++ [i]) prev = piece_value i x.
Proof.
  revert prev. induction l as [|k l IH]; intros prev Hall; cbn [search app] in *; apply Forall_cons in Hall as [Hk Hall]; rewrite Hk; [done|].
  by apply IH.
Qed.

Lemma starts_below l c : pieces_ok l → (∀ a, last (starts l) = Some a → a < c) → ∀ i, i ∈ l → val (xoffset i) < c.
Proof.
  intros Hl Hlast i [n Hn]%list_elem_of_lookup. rewrite last_lookup in Hlast.
  assert (starts l !! n = Some (val (xoffset i))) as Hs by (unfold starts; by rewrite list_lookup_fmap, Hn).
  apply lookup_lt_Some in Hs as Hlt. destruct (decide (n = pred (length (starts l)))) as [->|Hne]; [by apply Hlast|].
  destruct (lookup_lt_is_Some_2 (starts l) (pred (length (starts l)))) as [a Ha]; [lia|].
  eapply Qlt_trans; [eapply (po_sorted l Hl n _ _ _ Hs Ha); lia|by apply Hlast].
Qed.

Lemma pieces_snoc l f x c y : pieces_ok l → x ≃ c → (∀ a, last (starts l) = Some a → a < c) → pieces_ok (l ++ [mkPiece f x y]).
Proof.
  intros Hl Hx Hlast. split.
  - apply Forall_app. split; [apply Hl|]. apply Forall_singleton. by eapply is_fin_finite.
  - intros i j a b. unfold starts. rewrite fmap_app. intros Hi Hj Hij. apply lookup_app_Some in Hj as [Hj|[Hge Hj]].
    + apply lookup_lt_Some in Hj as Hlt. rewrite lookup_app_l in Hi by lia. by apply (po_sorted l Hl i j).
    + apply list_lookup_singleton_Some in Hj as [Hj <-]. rewrite lookup_app_l in Hi by lia. cbn. rewrite (is_fin_val _ _ Hx).
      apply list_lookup_fmap_Some in Hi as (k & -> & Hk). apply (starts_below l c Hl Hlast). by eapply list_elem_of_lookup_2.
Qed.

Lemma value_snoc_before l f x c y z q : x ≃ c → z ≃ q → q < c →
  value (PiecewiseFunction (l ++ [mkPiece f x y])) z = value (PiecewiseFunction l) z.
Proof.
  intros Hx Hz Hlt. rewrite !value_piecewise. destruct l as [|i l].
  - cbn [app xoffset]. by rewrite (ltb_fin Hz Hx), (proj2 (Qltb_lt q c) Hlt).
  - cbn [app]. destruct (z <? xoffset i)%D; [done|]. apply (search_snoc_before z (i :: l)). cbn [xoffset].
    rewrite (leb_fin Hx Hz). apply not_true_iff_false. rewrite Qle_bool_iff. lra.
Qed.
Lemma value_snoc_from l f x c y z q : pieces_ok l → (∀ a, last (starts l) = Some a → a < c) → x ≃ c → z ≃ q → c <= q →
  value (PiecewiseFunction (l ++ [mkPiece f x y])) z = piece_value (mkPiece f x y) z.
Proof.
  intros Hl Hlast Hx Hz Hle.
  assert (Forall (λ k, (z >=? xoffset k)%D = true) (l ++ [mkPiece f x y])) as Hall.
  { apply Forall_app. split.
    - apply Forall_forall. intros k Hk. pose proof (starts_below l c Hl Hlast k Hk) as Hlt.
      pose proof (proj1 (Forall_forall _ _) (po_finite l Hl) k Hk) as Hfin. cbn in Hfin. rewrite (leb_fin Hfin Hz). apply Qle_bool_iff. lra.
    - apply Forall_singleton. cbn [xoffset]. rewrite (leb_fin Hx Hz). by apply Qle_bool_iff. }
  rewrite value_piecewise. destruct (l ++ [mkPiece f x y]) as [|i l'] eqn:Hsnoc; [by destruct l|].
  pose proof (proj1 (Forall_cons _ _ _) Hall) as [Hi _]. assert ((z <? xoffset i)%D = false) as ->.
  { destruct (xoffset i), z; try done. cbn in *. by rewrite Hi. }
  rewrite <-Hsnoc in Hall |- *. by apply search_snoc_from.
Qed.

(** The check of the coordinate. *)
Definition after_last (l : list (PiecewiseFunctionInfo xq)) (x : xq) : M (list (PiecewiseFunctionInfo xq)) unit :=
  match last l with Some i => require (negb (x <=? xoffset i)%D) BaseError | None => mret tt end.
Lemma after_last_spec l x c : pieces_ok l → x ≃ c →
  ((∀ a, last (starts l) = Some a → a < c) → after_last l x l = (Ret tt, l)) ∧
  ((∃ a, last (starts l) = Some a ∧ c <= a) → after_last l x l = (Throw BaseError, l)).
Proof.
  intros Hl Hx. unfold after_last, starts. rewrite fmap_last. destruct (last l) as [i|] eqn:Hi; cbn; [|naive_solver].
  apply last_Some_elem_of in Hi. pose proof (proj1 (Forall_forall _ _) (po_finite l Hl) i Hi) as Hfin. cbn in Hfin.
  change (xleb x (xoffset i)) with (x <=? xoffset i)%D. rewrite (leb_fin Hx Hfin). split.
  - intros Hlt. specialize (Hlt _ eq_refl). assert (Qle_bool c (val (xoffset i)) = false) as ->; [|done].
    apply not_true_iff_false. rewrite Qle_bool_iff. lra.
  - intros (a & [= <-] & Hle). by rewrite (proj2 (Qle_bool_iff _ _) Hle).
Qed.

(** Adding a function to a piecewise function, at a coordinate after the last piece,
    leaves it as it is before the coordinate; from there on it is the added function, moved
    to start there and, if it is to be continuous, so that it meets the value that the
    function had at the coordinate (zero if there was no piece).  A coordinate that is not
    after the last piece is refused, and nothing is added. *)
Theorem piecewise_extended l f (h k : Q → Q) x c continuous :
  pieces_ok l → defines (PiecewiseFunction l) h → defines f k → x ≃ c →
  ((∀ a, last (starts l) = Some a → a < c) →
    ∃ l', AddFunction f x continuous l = (Ret tt, l') ∧ pieces_ok l' ∧
      defines (PiecewiseFunction l') (λ q, if Qlt_le_dec q c then h q else
        k (q - c) + if continuous then h c - k 0 else 0)) ∧
  ((∃ a, last (starts l) = Some a ∧ c <= a) → AddFunction f x continuous l = (Throw BaseError, l)).
Proof.
  intros Hl Hh Hk Hx. unfold AddFunction. rewrite (bind_ret get _ l l l eq_refl). split.
  - intros Hlast. destruct (Hh x c Hx) as (y1 & Hy1 & Hf1), (Hk (nZ 0) 0 (fin_Z 0)) as (y0 & Hy0 & Hf0).
    set (y := if continuous then (y1 - y0)%D else nZ 0).
    assert (y ≃ if continuous then h c - k 0 else 0) as Hy by (unfold y; destruct continuous; [by apply fin_sub|apply (fin_Z 0)]).
    exists (l ++ [mkPiece f x y]). split_and!; [|by eapply pieces_snoc|].
    + rewrite (bind_ret _ _ l tt l) by by apply (after_last_spec l x c).
      rewrite (bind_ret _ _ l y l); [done|]. unfold y. destruct continuous; [|done].
      rewrite (bind_ret _ _ l y1 l) by (unfold pure; by rewrite Hy1). by rewrite (bind_ret _ _ l y0 l) by (unfold pure; by rewrite Hy0).
    + intros z q Hz. destruct (Qlt_le_dec q c) as [Hlt|Hge].
      * rewrite (value_snoc_before l f x c y z q Hx Hz Hlt). by apply Hh.
      * rewrite (value_snoc_from l f x c y z q Hl Hlast Hx Hz Hge). cbn [piece_value].
        destruct (Hk (z - x)%D (q - c) (fin_sub Hz Hx)) as (w & -> & Hw). rewrite bind_Ret. eexists. split; [done|]. by apply fin_add.
  - intros (a & Ha & Hle). by rewrite (bind_throw _ _ l BaseError l) by (apply (after_last_spec l x c); eauto).
Qed.

(** A ramp from three, [y = 2 (x - 3)]. *)
Lemma empty_pieces : pieces_ok [].
Proof. split; [by apply Forall_nil|]. by intros i j a b ?. Qed.
Lemma empty_defines : defines (PiecewiseFunction []) (λ _, 0).
Proof. intros x q _. exists (nZ 0). split; [done|apply (fin_Z 0)]. Qed.
Lemma linear_defines m b : defines (LinearFunction (Fin m) (Fin b)) (λ q, m * q + b).
Proof. intros x q Hx. eexists. split; [done|]. exact (fin_add (fin_mul (fin_Fin m) Hx) (fin_Fin b)). Qed.
End piecewise.

#[local] Instance no_exp : Exponential xq := λ x, x.
Lemma piecewise_extended_witness :
  ((∀ a, last (starts []) = Some a → (a < 3)%Q) →
    ∃ l', AddFunction (LinearFunction (Fin 2) (Fin 1)) (nZ 3) true [] = (Ret tt, l') ∧ pieces_ok l' ∧
      defines (PiecewiseFunction l') (λ q, if Qlt_le_dec q 3 then 0 else 2 * (q - 3) + 1 + (0 - (2 * 0 + 1)))%Q) ∧
  ((∃ a, last (starts []) = Some a ∧ (3 <= a)%Q) →
    AddFunction (LinearFunction (Fin 2) (Fin 1)) (nZ 3) true [] = (Throw BaseError, [])).
Proof.
  apply (piecewise_extended [] _ (λ _, 0%Q) (λ q, 2 * q + 1)%Q (nZ 3) 3 true).
  - exact empty_pieces.
  - exact empty_defines.
  - exact (linear_defines 2 1).
  - exact (fin_Z 3).
Defined.
