(* ===== verification/Nuclides.v ===== *)
(** * Nuclide names

    [src/src/pyne.cc] carries the part of PyNE that the kernel uses: the keys of a
    composition are nuclide identifiers, recipes are read with names, and
    [pyne::nucname] converts between the forms.  An identifier has the decimal digits
    ZZZAAASSSS: the number of protons, of nucleons, and the excited state.

    [Module utils] has the string helpers, [Module nucname] the tables and the
    conversions.  An [int] is a [Z]; an arithmetic result outside its range is
    undefined behaviour, [Throw Undefined].  [size_t] positions are [nat]s; a position
    past the end of a string is [OutOfRange].  Warnings, which go to the standard
    output, are left out, as are the overloads for [const char *], which build a
    [std::string], and those that call another overload with [id(nuc)]. *)

From stdpp Require Import base list gmap strings pretty.
From Stdlib Require Import ZArith Lia Ascii.
From S2P Require Import Prelude Num.
Local Open Scope Z_scope.
Local Infix "rem" := Z.rem (at level 40, left associativity) : Z_scope.

(** An [int] result. *)
Definition int_val (z : Z) : outcome Z := if in_int z then Ret z else Throw Undefined.

Module utils.
Definition digits : string := "0123456789".
Definition alphabet : string := "ABCDEFGHIJKLMNOPQRSTUVWXYZ".

(** [toupper] and [tolower] of the C locale. *)
Definition toupper (c : ascii) : ascii :=
  let n := N_of_ascii c in if ((97 <=? n) && (n <=? 122))%N then ascii_of_N (n - 32) else c.
Definition tolower (c : ascii) : ascii :=
  let n := N_of_ascii c in if ((65 <=? n) && (n <=? 90))%N then ascii_of_N (n + 32) else c.

Fixpoint map_chars (f : ascii → ascii) (s : string) : string :=
  match s with
  | "" => ""
  | String c s => String (f c) (map_chars f s)
  end.

Definition to_upper (s : string) : string := map_chars toupper s.
Definition to_lower (s : string) : string := map_chars tolower s.
Definition capitalize (s : string) : string :=
  match s with
  | "" => ""
  | String c s => String (toupper c) (map_chars tolower s)
  end.

Definition to_str (t : Z) : string := pretty t.

(** [atoi]: white space, a sign, and the digits up to the first other character; a
    value outside [int] is undefined. *)
Fixpoint skip_space (s : string) : string :=
  match s with
  | String c s' => if Ascii.is_space c then skip_space s' else s
  | "" => ""
  end.
Fixpoint digits_value (acc : Z) (s : string) : Z :=
  match s with
  | "" => acc
  | String c s => match Ascii.is_nat c with Some d => digits_value (10 * acc + Z.of_nat d) s | None => acc end
  end.
Definition to_int (s : string) : outcome Z :=
  int_val
    match skip_space s with
    | String "-" s => - digits_value 0 s
    | String "+" s => digits_value 0 s
    | s => digits_value 0 s
    end.

(** [s.erase(pos, len)] of a position inside [s]. *)
Definition erase (pos len : nat) (s : string) : string :=
  String.substring 0 pos s +:+ String.substring (pos + len) (String.length s) s.

(** [s.substr(pos, len)]. *)
Definition substr (s : string) (pos len : nat) : outcome string :=
  if (String.length s <? pos)%nat then Throw OutOfRange else Ret (String.substring pos len s).

(** The loop erases at least one character in a round ([substr] is nowhere empty). *)
Fixpoint remove_substring_loop (fuel : nat) (s sub : string) : string :=
  match fuel, String.index 0 sub s with
  | S fuel, Some n => remove_substring_loop fuel (erase n (String.length sub) s) sub
  | _, _ => s
  end.
Definition remove_substring (s sub : string) : string := remove_substring_loop (String.length s) s sub.

Fixpoint remove_characters (s chars : string) : string :=
  match chars with
  | "" => s
  | String c chars => remove_characters (remove_substring s (String c "")) chars
  end.

Definition last_char (s : string) : outcome string :=
  match s with "" => Throw OutOfRange | _ => substr s (String.length s - 1) 1 end.

Definition contains_substring (s sub : string) : bool :=
  match String.index 0 sub s with Some n => (n <? String.length s)%nat | None => false end.
End utils.
Import utils.

Module nucname.
(** ** Tables *)
Definition from_table {K} `{Countable K} {A} (l : list (K * A)) : gmap K A :=
  foldl (λ m kv, <[kv.1 := kv.2]> m) ∅ l.

Definition get_name_zz : gmap string Z := from_table [
    ("Be", 4); ("Ba", 56); ("Bh", 107); ("Bi", 83); ("Bk", 97); ("Br", 35); ("Ru", 44);
    ("Re", 75); ("Rf", 104); ("Rg", 111); ("Ra", 88); ("Rb", 37); ("Rn", 86); ("Rh", 45);
    ("Tm", 69); ("H", 1); ("P", 15); ("Ge", 32); ("Gd", 64); ("Ga", 31); ("Os", 76);
    ("Hs", 108); ("Zn", 30); ("Ho", 67); ("Hf", 72); ("Hg", 80); ("He", 2); ("Pr", 59);
    ("Pt", 78); ("Pu", 94); ("Pb", 82); ("Pa", 91); ("Pd", 46); ("Po", 84); ("Pm", 61);
    ("C", 6); ("K", 19); ("O", 8); ("S", 16); ("W", 74); ("Eu", 63); ("Es", 99); ("Er", 68);
    ("Md", 101); ("Mg", 12); ("Mo", 42); ("Mn", 25); ("Mt", 109); ("U", 92); ("Fr", 87);
    ("Fe", 26); ("Fm", 100); ("Ni", 28); ("No", 102); ("Na", 11); ("Nb", 41); ("Nd", 60);
    ("Ne", 10); ("Zr", 40); ("Np", 93); ("B", 5); ("Co", 27); ("Cm", 96); ("F", 9); ("Ca", 20);
    ("Cf", 98); ("Ce", 58); ("Cd", 48); ("V", 23); ("Cs", 55); ("Cr", 24); ("Cu", 29);
    ("Sr", 38); ("Kr", 36); ("Si", 14); ("Sn", 50); ("Sm", 62); ("Sc", 21); ("Sb", 51);
    ("Sg", 106); ("Se", 34); ("Yb", 70); ("Db", 105); ("Dy", 66); ("Ds", 110); ("La", 57);
    ("Cl", 17); ("Li", 3); ("Tl", 81); ("Lu", 71); ("Lr", 103); ("Th", 90); ("Ti", 22);
    ("Te", 52); ("Tb", 65); ("Tc", 43); ("Ta", 73); ("Ac", 89); ("Ag", 47); ("I", 53);
    ("Ir", 77); ("Am", 95); ("Al", 13); ("As", 33); ("Ar", 18); ("Au", 79); ("At", 85);
    ("In", 49); ("Y", 39); ("N", 7); ("Xe", 54); ("Cn", 112); ("Fl", 114); ("Lv", 116) ].
Definition name_zz : gmap string Z := get_name_zz.

(** The inverse table, filled in the order of the names. *)
Definition get_zz_name : gmap Z string := from_table ((λ kv, (kv.2, kv.1)) <$> in_order name_zz).
Definition zz_name : gmap Z string := get_zz_name.

(** [030000000], the number of lithium in the source, is an octal literal. *)
Definition get_fluka_zz : gmap string Z := from_table [
    ("BERYLLIU", 40000000); ("BARIUM", 560000000); ("BOHRIUM", 1070000000);
    ("BISMUTH", 830000000); ("BERKELIU", 970000000); ("BROMINE", 350000000);
    ("RUTHENIU", 440000000); ("RHENIUM", 750000000); ("RUTHERFO", 1040000000);
    ("ROENTGEN", 1110000000); ("RADIUM", 880000000); ("RUBIDIUM", 370000000);
    ("RADON", 860000000); ("RHODIUM", 450000000); ("THULIUM", 690000000);
    ("HYDROGEN", 10000000); ("PHOSPHO", 150000000); ("GERMANIU", 320000000);
    ("GADOLINI", 640000000); ("GALLIUM", 310000000); ("OSMIUM", 760000000);
    ("HASSIUM", 1080000000); ("ZINC", 300000000); ("HOLMIUM", 670000000);
    ("HAFNIUM", 720000000); ("MERCURY", 800000000); ("HELIUM", 20000000);
    ("PRASEODY", 590000000); ("PLATINUM", 780000000); ("239-PU", 940000000);
    ("LEAD", 820000000); ("PROTACTI", 910000000); ("PALLADIU", 460000000);
    ("POLONIUM", 840000000); ("PROMETHI", 610000000); ("CARBON", 60000000);
    ("POTASSIU", 190000000); ("OXYGEN", 80000000); ("SULFUR", 160000000);
    ("TUNGSTEN", 740000000); ("EUROPIUM", 630000000); ("EINSTEIN", 990000000);
    ("ERBIUM", 680000000); ("MENDELEV", 1010000000); ("MAGNESIU", 120000000);
    ("MOLYBDEN", 420000000); ("MANGANES", 250000000); ("MEITNERI", 1090000000);
    ("URANIUM", 920000000); ("FRANCIUM", 870000000); ("IRON", 260000000);
    ("FERMIUM", 1000000000); ("NICKEL", 280000000); ("NITROGEN", 70000000);
    ("NOBELIUM", 1020000000); ("SODIUM", 110000000); ("NIOBIUM", 410000000);
    ("NEODYMIU", 600000000); ("NEON", 100000000); ("ZIRCONIU", 400000000);
    ("NEPTUNIU", 930000000); ("BORON", 50000000); ("COBALT", 270000000); ("CURIUM", 960000000);
    ("FLUORINE", 90000000); ("CALCIUM", 200000000); ("CALIFORN", 980000000);
    ("CERIUM", 580000000); ("CADMIUM", 480000000); ("VANADIUM", 230000000);
    ("CESIUM", 550000000); ("CHROMIUM", 240000000); ("COPPER", 290000000);
    ("STRONTIU", 380000000); ("KRYPTON", 360000000); ("SILICON", 140000000); ("TIN", 500000000);
    ("SAMARIUM", 620000000); ("SCANDIUM", 210000000); ("ANTIMONY", 510000000);
    ("SEABORGI", 1060000000); ("SELENIUM", 340000000); ("YTTERBIU", 700000000);
    ("DUBNIUM", 1050000000); ("DYSPROSI", 660000000); ("DARMSTAD", 1100000000);
    ("LANTHANU", 570000000); ("CHLORINE", 170000000); ("LITHIUM", 6291456);
    ("THALLIUM", 810000000); ("LUTETIUM", 710000000); ("LAWRENCI", 1030000000);
    ("THORIUM", 900000000); ("TITANIUM", 220000000); ("TELLURIU", 520000000);
    ("TERBIUM", 650000000); ("99-TC", 430000000); ("TANTALUM", 730000000);
    ("ACTINIUM", 890000000); ("SILVER", 470000000); ("IODINE", 530000000);
    ("IRIDIUM", 770000000); ("241-AM", 950000000); ("ALUMINUM", 130000000);
    ("ARSENIC", 330000000); ("ARGON", 180000000); ("GOLD", 790000000); ("ASTATINE", 850000000);
    ("INDIUM", 490000000); ("YTTRIUM", 390000000); ("XENON", 540000000);
    ("COPERNIC", 1120000000); ("UNUNQUAD", 1140000000); ("UNUNHEXI", 1160000000);
    ("HYDROG-1", 10010000); ("DEUTERIU", 10020000); ("TRITIUM", 10040000);
    ("HELIUM-3", 20030000); ("HELIUM-4", 20040000); ("LITHIU-6", 30060000);
    ("LITHIU-7", 30070000); ("BORON-10", 50100000); ("BORON-11", 50110000);
    ("90-SR", 380900000); ("129-I", 531290000); ("124-XE", 541240000); ("126-XE", 541260000);
    ("128-XE", 541280000); ("130-XE", 541300000); ("131-XE", 541310000); ("132-XE", 541320000);
    ("134-XE", 541340000); ("135-XE", 541350000); ("136-XE", 541360000); ("135-CS", 551350000);
    ("137-CS", 551370000); ("230-TH", 902300000); ("232-TH", 902320000); ("233-U", 922330000);
    ("234-U", 922340000); ("235-U", 922350000); ("238-U", 922380000) ].
Definition fluka_zz : gmap string Z := get_fluka_zz.
Definition get_zz_fluka : gmap Z string := from_table ((λ kv, (kv.2, kv.1)) <$> in_order fluka_zz).
Definition zz_fluka : gmap Z string := get_zz_fluka.

(** [0 < table.count(k)] *)
Definition known {K} `{Countable K} {A} (m : gmap K A) (k : K) : bool := bool_decide (is_Some (m !! k)).

(** ** The identifier of a number

    [3.0 < float(a) / float(z)], the condition of the loop that decodes an excited
    state of MCNP.  Both are below 2^24 and exact; a quotient above 3 is at least 3 +
    1/z, which stays above 3 when it is rounded to 24 bits, and one of at most 3 is
    not rounded up past 3.  A division by zero gives an infinity or NaN. *)
Definition ratio_above_3 (a z : Z) : bool :=
  match z with
  | 0 => 0 <? a
  | Z.pos _ => 3 * z <? a
  | Z.neg _ => a <? 3 * z
  end.

Fixpoint mcnp_state_loop (fuel : nat) (nuc : Z) : outcome Z :=
  if ratio_above_3 ((nuc ÷ 10000) rem 1000) (nuc ÷ 10000000) then
    match fuel with O => Throw OutOfFuel | S fuel => mcnp_state_loop fuel (nuc - 999999) end
  else Ret nuc.

(** An [int] goes below zero after fewer than 2200 rounds of the loop. *)
Definition mcnp_number (nuc : Z) : outcome Z :=
  if nuc rem 1000 - 400 <? 0 then
    if nuc =? 95242 then int_val (nuc * 10000 + 1) else int_val (nuc * 10000)
  else if nuc =? 95642 then Ret ((95642 - 400) * 10000)
  else n ← int_val ((nuc - 400) * 10000 + 1); mcnp_state_loop 2200 n.

Definition id (nuc : Z) : outcome Z :=
  if nuc <? 0 then Throw NotANuclide else
  let zzz := nuc ÷ 10000000 in
  let aaassss := nuc rem 10000000 in
  let aaa := aaassss ÷ 10000 in
  if (0 <? zzz) && (zzz <=? aaa) && (aaa <=? zzz * 7) then Ret nuc
  else if (aaassss =? 0) && known zz_name zzz then Ret nuc
  else if (nuc <? 1000) && known zz_name nuc then int_val (nuc * 10000000)
  else
  let zzz := nuc ÷ 10000 in
  let aaassss := nuc rem 10000 in
  let aaa := aaassss ÷ 10 in
  if (zzz <=? aaa) && (aaa <=? zzz * 7) then int_val (zzz * 10000000 + aaa * 10000 + nuc rem 10)
  else if (aaa <=? zzz) && (zzz <=? aaa * 7) && known zz_name aaa then
    int_val (aaa * 10000000 + zzz * 10000 + nuc rem 10)
  else if (aaassss =? 0) && known zz_name zzz then int_val (zzz * 10000000)
  else if 1000000 <=? nuc then Throw IndeterminateNuclideForm
  else
  let zzz := nuc ÷ 1000 in
  let aaa := nuc rem 1000 in
  if zzz <=? aaa then mcnp_number nuc
  else if (aaa =? 0) && known zz_name zzz then int_val (zzz * 10000000)
  else if known zz_name nuc then int_val (nuc * 10000000)
  else Throw IndeterminateNuclideForm.

(** ** The identifier of a string *)
Definition last_digit_or_letter (s : string) : outcome string :=
  match String.length s with O => Throw OutOfRange | S n => substr s n (S n) end.

(** The number of the element of a name is added to the rest of the identifier. *)
Definition with_element (elem_name : string) (nucid : Z) : outcome Z :=
  match name_zz !! elem_name with
  | Some z => int_val (10000000 * z + nucid)
  | None => Throw NotANuclide
  end.

(** A name: letters, the nucleons, and possibly an [M] for an excited state. *)
Definition named_id (nucstr : string) (anum : Z) : outcome Z :=
  end_char ← last_char nucstr;
  nucid ←
    (if decide (end_char = "M"%string) then int_val (10000 * anum + 1)
     else if contains_substring digits end_char then int_val (10000 * anum)
     else Throw NotANuclide);
  with_element (capitalize (remove_characters (String.substring 0 (String.length nucstr - 1) nucstr) digits)) nucid.

(** A name without nucleons is the natural element. *)
Definition natural_id (elem_name : string) : option Z := (λ z, 10000000 * z) <$> name_zz !! elem_name.

Definition zzllaaam_to_id (nuc : string) : outcome Z :=
  if decide (nuc = ""%string) then Throw NotANuclide else
  let nucstr := erase 0 2 (to_upper nuc) in
  let nucstr := remove_substring nucstr "-" in
  let nucstr := remove_substring nucstr "-" in
  let anum_str := remove_characters nucstr alphabet in
  let natural :=
    if bool_decide (anum_str = ""%string) || contains_substring nucstr "NAT"
    then natural_id (capitalize (remove_substring nucstr "NAT")) else None in
  match natural with
  | Some n => Ret n
  | None => anum ← to_int anum_str; named_id nucstr anum
  end.

(** The forms other than ZZLLAAAM, once [-] is removed. *)
Definition id_plain (nuc : string) : outcome Z :=
  let nucstr := remove_substring (to_upper nuc) "-" in
  let first := String.substring 0 1 nucstr in
  let anum_str := remove_characters nucstr alphabet in
  if contains_substring digits first then
    last ← last_digit_or_letter nucstr;
    if contains_substring digits last then n ← to_int nucstr; id n
    else
      anum ← to_int anum_str;
      newnuc ← int_val (anum * 10000);
      with_element (capitalize (remove_characters nucstr digits)) newnuc
  else if contains_substring alphabet first then
    let natural := if decide (anum_str = ""%string) then natural_id (capitalize nucstr) else None in
    match natural with
    | Some n => Ret n
    | None =>
        anum ← to_int anum_str;
        if anum <? 0 then Throw NotANuclide else named_id nucstr anum
    end
  else Throw NotANuclide.

(** [znum(ll)] calls [id] again, on a string without the first [-]. *)
Fixpoint id_str_loop (fuel : nat) (nuc : string) : outcome Z :=
  match fuel with
  | O => Throw OutOfFuel
  | S fuel =>
      if decide (nuc = ""%string) then Throw NotANuclide else
      let dash1 := String.index 0 "-" nuc in
      let dash2 := match dash1 with Some d => String.index (d + 1) "-" nuc | None => None end in
      match dash1, dash2 with
      | Some d1, Some d2 =>
          if (5 <=? String.length nuc)%nat then
            zz_int ← to_int (String.substring 0 d1 nuc);
            ll ← id_str_loop fuel (String.substring (d1 + 1) d2 nuc);
            if ll ÷ 10000000 =? zz_int then zzllaaam_to_id nuc else Throw NotANuclide
          else id_plain nuc
      | _, _ => id_plain nuc
      end
  end.
Definition id_str (nuc : string) : outcome Z := id_str_loop (S (String.length nuc)) nuc.

(** ** Nuclides and elements

    [catch] of the two exceptions of the library. *)
Definition isnuclide (nuc : Z) : outcome bool :=
  match id nuc with
  | Throw NotANuclide | Throw IndeterminateNuclideForm => Ret false
  | Throw e => Throw e
  | Ret n =>
      if n <=? 10000000 then Ret false else
      let zzz := n ÷ 10000000 in
      let aaa := n rem 10000000 ÷ 10000 in
      if aaa =? 0 then Ret false else if aaa <? zzz then Ret false else Ret true
  end.

Definition isnuclide_str (nuc : string) : outcome bool :=
  match id_str nuc with
  | Throw NotANuclide | Throw IndeterminateNuclideForm => Ret false
  | Throw e => Throw e
  | Ret n => isnuclide n
  end.

Definition znum (nuc : Z) : outcome Z := n ← id nuc; mret (n ÷ 10000000).
Definition anum (nuc : Z) : outcome Z := n ← id nuc; mret (n ÷ 10000 rem 1000).
Definition snum (nuc : Z) : outcome Z := n ← id nuc; mret (n rem 10000).

(** Only [NotANuclide] is caught. *)
Definition iselement (nuc : Z) : outcome bool :=
  match id nuc with
  | Throw NotANuclide => Ret false
  | Throw e => Throw e
  | Ret n =>
      if n <? 10000000 then Ret false else
      zzz ← znum n;
      aaa ← anum n;
      mret ((0 <? zzz) && (aaa =? 0))
  end.

(** ** Names *)
Definition element_of (nucid : Z) : outcome string :=
  match zz_name !! (nucid ÷ 10000000) with Some ll => Ret ll | None => Throw NotANuclide end.

(** [if (b) newnuc += s;] *)
Definition when (b : bool) (s : string) : string := if b then s else "".

Definition name (nuc : Z) : outcome string :=
  nucid ← id nuc;
  let ssss := nucid rem 10000 in
  let aaa := nucid rem 10000000 ÷ 10000 in
  ll ← element_of nucid;
  mret (ll +:+ when (0 <? aaa) (to_str aaa) +:+ when (0 <? ssss) "M").

Definition zzllaaam (nuc : Z) : outcome string :=
  nucid ← id nuc;
  let ssss := nucid rem 10000 in
  let aaassss := nucid rem 10000000 in
  let zzz := nucid ÷ 10000000 in
  let aaa := aaassss ÷ 10000 in
  ll ← element_of nucid;
  mret (to_str zzz +:+ "-" +:+ ll +:+ "-" +:+ when (0 <? aaassss) (to_str aaa) +:+ when (0 <? ssss) "m").

(** An element as [to_upper] of its first and [to_lower] of its other letters. *)
Definition element_case (ll : string) : string :=
  match to_upper ll, to_lower ll with String c _, String _ l => String c l | _, _ => "" end.

Definition serpent (nuc : Z) : outcome string :=
  nucid ← id nuc;
  let ssss := nucid rem 10000 in
  let aaassss := nucid rem 10000000 in
  let aaa := aaassss ÷ 10000 in
  ll ← element_of nucid;
  mret (element_case ll +:+ "-" +:+ (if 0 <? aaassss then to_str aaa else when (0 =? aaassss) "nat")
        +:+ when (0 <? ssss) "m").

Definition serpent_to_id (nuc : string) : outcome Z :=
  if decide (nuc = ""%string) then Throw NotANuclide else
  let nucstr := remove_substring (to_upper nuc) "-" in
  let anum_str := remove_characters nucstr alphabet in
  let natural :=
    if bool_decide (anum_str = ""%string) || contains_substring nucstr "NAT"
    then natural_id (capitalize (remove_substring nucstr "NAT")) else None in
  match natural with
  | Some n => Ret n
  | None => anum ← to_int anum_str; named_id nucstr anum
  end.

Definition nist (nuc : Z) : outcome string :=
  nucid ← id nuc;
  let aaassss := nucid rem 10000000 in
  let aaa := aaassss ÷ 10000 in
  ll ← element_of nucid;
  mret (when (0 <? aaassss) (to_str aaa) +:+ element_case ll).

(** What [nist_to_id] and [alara_to_id] do with the upper-case string. *)
Definition unflagged_id (nuc : string) : outcome Z :=
  let anum_str := remove_characters nuc alphabet in
  let natural := if decide (anum_str = ""%string) then natural_id (capitalize nuc) else None in
  match natural with
  | Some n => Ret n
  | None =>
      anum ← to_int anum_str;
      nucid ← int_val (anum * 10000);
      with_element (capitalize (remove_characters nuc digits)) nucid
  end.

Definition nist_to_id (nuc : string) : outcome Z :=
  if decide (nuc = ""%string) then Throw NotANuclide else unflagged_id (to_upper nuc).

Definition alara (nuc : Z) : outcome string :=
  nucid ← id nuc;
  let aaassss := nucid rem 10000000 in
  let aaa := aaassss ÷ 10000 in
  ll ← element_of nucid;
  mret (to_lower ll +:+ when (0 <? aaassss) (":" +:+ to_str aaa)).

Definition alara_to_id (nuc : string) : outcome Z :=
  if decide (nuc = ""%string) then Throw NotANuclide
  else unflagged_id (to_upper (remove_characters nuc ":")).

Definition fluka (nuc : Z) : outcome string :=
  x ← id nuc;
  match zz_fluka !! x with Some s => Ret s | None => Throw NotANuclide end.
Definition fluka_to_id (name : string) : outcome Z :=
  match fluka_zz !! name with Some z => Ret z | None => Throw NotANuclide end.

(** ** Numeric forms *)
Definition zzaaam (nuc : Z) : outcome Z :=
  nucid ← id nuc;
  let zzzaaa := nucid ÷ 10000 in
  let ssss := nucid rem 10000 in
  let ssss := if 10 <=? ssss then 9 else ssss in
  int_val (zzzaaa * 10 + ssss).
Definition zzaaam_to_id (nuc : Z) : outcome Z := int_val (nuc ÷ 10 * 10000 + nuc rem 10).

Definition zzzaaa (nuc : Z) : outcome Z := nucid ← id nuc; mret (nucid ÷ 10000).
Definition zzzaaa_to_id (nuc : Z) : outcome Z := int_val (nuc * 10000).

Definition mcnp (nuc : Z) : outcome Z :=
  nuc ← id nuc;
  let ssss := nuc rem 10000 in
  let newnuc := nuc ÷ 10000 in
  let ssss := if (newnuc =? 95242) && (ssss <? 2) then (ssss + 1) rem 2 else ssss in
  mret (if negb (0 =? ssss) && (ssss <? 10) then newnuc + (300 + ssss * 100) else newnuc).

Definition mcnp_to_id (nuc : Z) : outcome Z :=
  let zzz := nuc ÷ 1000 in
  let aaa := nuc rem 1000 in
  if zzz =? 0 then Throw NotANuclide
  else if zzz <=? aaa then mcnp_number nuc
  else if aaa =? 0 then int_val (zzz * 10000000)
  else Throw IndeterminateNuclideForm.

Definition cinder (nuc : Z) : outcome Z :=
  nucid ← id nuc;
  let zzz := nucid ÷ 10000000 in
  let ssss := nucid rem 10000 in
  let aaa := nucid rem 10000000 ÷ 10000 in
  let ssss := if 10 <=? ssss then 9 else ssss in
  int_val (aaa * 10000 + zzz * 10 + ssss).
Definition cinder_to_id (nuc : Z) : outcome Z :=
  let ssss := nuc rem 10 in
  let aaazzz := nuc ÷ 10 in
  let zzz := aaazzz rem 1000 in
  let aaa := aaazzz ÷ 1000 in
  int_val (zzz * 10000000 + aaa * 10000 + ssss).

Definition sza (nuc : Z) : outcome Z :=
  nucid ← id nuc;
  let zzzaaa := nucid ÷ 10000 in
  let sss := nucid rem 10000 in
  int_val (sss * 1000000 + zzzaaa).
Definition sza_to_id (nuc : Z) : outcome Z :=
  let sss := nuc ÷ 1000000 in
  let zzzaaa := nuc rem 1000000 in
  int_val (zzzaaa * 10000 + sss).

Definition ensdf_to_id (nuc : string) : outcome Z :=
  if (String.length nuc <? 4)%nat then id_str nuc
  else
  match String.get 3 nuc with
  | Some c =>
      match Ascii.is_nat c with
      | Some _ =>
          aaa ← to_int (String.substring 0 3 nuc);
          xx ← to_int (String.substring 3 2 nuc);
          int_val (10000 * aaa + 10000000 * (xx + 100))
      | None => id_str nuc
      end
  | None => id_str nuc
  end.
End nucname.

(** ** Atomic masses

    [pyne::atomic_mass] keeps a map, filled from the nuclear data when it is first asked
    (the file [NUC_DATA_PATH] names, or the table of the sources): [data] is that table. *)
Section atomic_mass.
Context {F : Type} `{Num F} (data : gmap Z F).

Definition _load_atomic_mass_map : M (gmap Z F) unit := modify (λ m, m ∪ data).

(** [if (map.count(nuc) != 1) map.insert(...)] *)
Definition remember_mass (nuc : Z) (aw : F) : M (gmap Z F) unit :=
  modify (λ m, match m !! nuc with Some _ => m | None => <[nuc := aw]> m end).

(** The function calls itself after loading the table, and for the ground state: three
    levels. *)
Fixpoint atomic_mass_loop (fuel : nat) (nuc : Z) : M (gmap Z F) F :=
  match fuel with
  | O => throw OutOfFuel
  | S fuel =>
      m ← get;
      match m !! nuc with
      | Some w => mret w
      | None =>
          if decide (m = ∅) then _load_atomic_mass_map;; atomic_mass_loop fuel nuc
          else
            nucid ← pure (nucname.id nuc);
            if 0 <? nucid rem 10000 then
              aw ← atomic_mass_loop fuel (nucid ÷ 10000 * 10000);
              remember_mass nuc aw;;
              mret aw
            else
              let aw := nZ (nucid ÷ 10000 rem 1000) in
              remember_mass nuc aw;;
              mret aw
      end
  end.
Definition atomic_mass (nuc : Z) : M (gmap Z F) F := atomic_mass_loop 4 nuc.
End atomic_mass.
