(* ===== verification/NuclideTheory.v ===== *)
(** * Lemmas on nuclide names

    The string functions in terms of filters, decimal digits, the tables checked entry
    by entry, and the two shapes a name has once it is in upper case and without [-]. *)

From stdpp Require Import base list gmap strings pretty.
From Stdlib Require Import ZArith Lia Ascii.
From S2P Require Import Prelude Nuclides.
Import utils nucname.
Local Open Scope Z_scope.
Local Infix "rem" := Z.rem (at level 40, left associativity) : Z_scope.
Local Arguments String.append !_ _ / : simpl nomatch.

(** ** Strings *)
Fixpoint sfilter (p : ascii → bool) (s : string) : string :=
  match s with
  | "" => ""
  | String c s => if p c then String c (sfilter p s) else sfilter p s
  end.
Fixpoint sall (p : ascii → bool) (s : string) : bool :=
  match s with "" => true | String c s => p c && sall p s end.

(** The character [c] is one of [chars]. *)
Definition one_of (chars : string) (c : ascii) : bool :=
  negb (sall (λ d, negb (Ascii.eqb c d)) chars).
Definition is_digit : ascii → bool := one_of digits.
Definition is_alpha : ascii → bool := one_of alphabet.

Lemma string_app_nil_r s : s +:+ "" = s.
Proof. induction s; cbn; by f_equal. Qed.
Lemma string_app_assoc s1 s2 s3 : (s1 +:+ s2) +:+ s3 = s1 +:+ s2 +:+ s3.
Proof. induction s1; cbn; by f_equal. Qed.
Lemma string_app_cons c s1 s2 : String c s1 +:+ s2 = String c (s1 +:+ s2).
Proof. done. Qed.
Lemma string_length_app s1 s2 : String.length (s1 +:+ s2) = (String.length s1 + String.length s2)%nat.
Proof. induction s1; cbn; by f_equal. Qed.

Lemma sfilter_app p s1 s2 : sfilter p (s1 +:+ s2) = sfilter p s1 +:+ sfilter p s2.
Proof. induction s1; cbn; [done|]. rewrite IHs1. by destruct (p a). Qed.
Lemma sall_app p s1 s2 : sall p (s1 +:+ s2) = sall p s1 && sall p s2.
Proof. induction s1; cbn; [done|]. by rewrite IHs1, andb_assoc. Qed.
Lemma sall_impl (p q : ascii → bool) s : (∀ c, p c = true → q c = true) → sall p s = true → sall q s = true.
Proof.
  intros Hpq. induction s; cbn; [done|]. rewrite !andb_true_iff. intros [? ?]. auto.
Qed.
Lemma sfilter_all p s : sall p s = true → sfilter p s = s.
Proof. induction s; cbn; [done|]. rewrite andb_true_iff. intros [-> ?]. f_equal. auto. Qed.
Lemma sfilter_none p s : sall (λ c, negb (p c)) s = true → sfilter p s = "".
Proof. induction s; cbn; [done|]. rewrite andb_true_iff, negb_true_iff. intros [-> ?]. auto. Qed.
Lemma sfilter_sfilter p q s : sfilter p (sfilter q s) = sfilter (λ c, q c && p c) s.
Proof. induction s; cbn; [done|]. destruct (q a); cbn; by rewrite IHs. Qed.
Lemma sfilter_ext p q s : (∀ c, p c = q c) → sfilter p s = sfilter q s.
Proof. intros Hpq. induction s; cbn; [done|]. by rewrite Hpq, IHs. Qed.

Lemma substring_0_app s1 s2 : String.substring 0 (String.length s1) (s1 +:+ s2) = s1.
Proof. induction s1; cbn; [by destruct s2|]. by f_equal. Qed.
Lemma substring_skip_app s1 s2 n : String.substring (String.length s1) n (s1 +:+ s2) = String.substring 0 n s2.
Proof. by induction s1. Qed.
Lemma substring_all s n : (String.length s ≤ n)%nat → String.substring 0 n s = s.
Proof.
  revert n. induction s; intros [|n] Hn; cbn in *; [done..|lia|]. f_equal. apply IHs. lia.
Qed.
Lemma substring_skip1_app s1 c s2 n :
  String.substring (String.length s1 + 1) n (s1 +:+ String c s2) = String.substring 0 n s2.
Proof. by induction s1. Qed.

(** ** Removing characters *)
Lemma index_char c s :
  match String.index 0 (String c "") s with
  | Some n => ∃ s1 s2, s = s1 +:+ String c s2 ∧ n = String.length s1 ∧ sall (λ d, negb (Ascii.eqb c d)) s1 = true
  | None => sall (λ d, negb (Ascii.eqb c d)) s = true
  end.
Proof.
  induction s as [|b s IH]; [done|]. cbn [String.index]. destruct (String.prefix _ _) eqn:Hp.
  - exists "", s. cbn in Hp. destruct (Ascii.ascii_dec c b) as [->|]; [done|done].
  - cbn in Hp. destruct (Ascii.ascii_dec c b) as [->|Hcb]; [by destruct s|].
    destruct (String.index 0 (String c "") s) as [n|] eqn:Hi.
    + destruct IH as (s1 & s2 & -> & -> & Hall). exists (String b s1), s2. cbn.
      split_and!; [done..|]. by apply Ascii.eqb_neq in Hcb as ->.
    + cbn. by apply Ascii.eqb_neq in Hcb as ->.
Qed.

Lemma erase_char s1 c s2 : erase (String.length s1) 1 (s1 +:+ String c s2) = s1 +:+ s2.
Proof.
  unfold erase. rewrite substring_0_app, substring_skip1_app. f_equal. apply substring_all.
  rewrite string_length_app. cbn. lia.
Qed.

Lemma remove_substring_char s c : remove_substring s (String c "") = sfilter (λ d, negb (Ascii.eqb c d)) s.
Proof.
  unfold remove_substring. remember (String.length s) as fuel eqn:Hf.
  assert (String.length s ≤ fuel)%nat as Hle by lia. clear Hf.
  revert s Hle. induction fuel as [|fuel IH]; intros s Hle.
  - destruct s; [done|cbn in Hle; lia].
  - cbn [remove_substring_loop]. pose proof (index_char c s) as Hi.
    destruct (String.index 0 (String c "") s) as [n|]; [|by rewrite sfilter_all].
    destruct Hi as (s1 & s2 & -> & -> & Hall). cbn [String.length]. rewrite erase_char, IH.
    + rewrite !sfilter_app. cbn. by rewrite Ascii.eqb_refl.
    + rewrite string_length_app in *. cbn in Hle. lia.
Qed.

Lemma remove_characters_spec s chars : remove_characters s chars = sfilter (λ c, negb (one_of chars c)) s.
Proof.
  revert s. induction chars as [|c chars IH]; intros s; cbn [remove_characters].
  - rewrite sfilter_all; [done|]. induction s; [done|done].
  - rewrite remove_substring_char, IH, sfilter_sfilter. apply sfilter_ext. intros d. unfold one_of. cbn.
    rewrite !negb_involutive, (Ascii.eqb_sym d c). done.
Qed.

Lemma contains_char s c : contains_substring s (String c "") = one_of s c.
Proof.
  unfold contains_substring, one_of. pose proof (index_char c s) as Hi.
  destruct (String.index 0 (String c "") s) as [n|]; [|by rewrite Hi].
  destruct Hi as (s1 & s2 & -> & -> & Hall). rewrite sall_app. cbn. rewrite Ascii.eqb_refl, andb_false_r.
  apply Nat.ltb_lt. rewrite string_length_app. cbn. lia.
Qed.

Lemma last_char_app s c : last_char (s +:+ String c "") = Ret (String c "").
Proof.
  unfold last_char. destruct (s +:+ String c "") as [|d t] eqn:Heq; [by destruct s|]. rewrite <-Heq. clear Heq d t.
  unfold substr. rewrite string_length_app. cbn [String.length].
  replace (String.length s + 1 - 1)%nat with (String.length s) by lia.
  destruct (_ <? _)%nat eqn:Hlt; [apply Nat.ltb_lt in Hlt; lia|]. by rewrite substring_skip_app.
Qed.
Lemma drop_last_app s c : String.substring 0 (String.length (s +:+ String c "") - 1) (s +:+ String c "") = s.
Proof.
  rewrite string_length_app. cbn [String.length].
  replace (String.length s + 1 - 1)%nat with (String.length s) by lia. apply substring_0_app.
Qed.
Lemma map_chars_app f s1 s2 : map_chars f (s1 +:+ s2) = map_chars f s1 +:+ map_chars f s2.
Proof. induction s1; cbn; by f_equal. Qed.
Lemma map_chars_id f s p : sall p s = true → (∀ c, p c = true → f c = c) → map_chars f s = s.
Proof.
  intros Hs Hp. induction s; cbn in *; [done|]. apply andb_true_iff in Hs as [? ?]. f_equal; auto.
Qed.

(** A fact about every character, checked character by character. *)
Lemma all_ascii (p : ascii → bool) :
  forallb (λ n, p (ascii_of_nat n)) (seq 0 256) = true → ∀ c, p c = true.
Proof.
  rewrite forallb_forall. intros Hall c. rewrite <-(ascii_nat_embedding c). apply Hall.
  apply in_seq. pose proof (nat_ascii_bounded c). lia.
Qed.

Definition is_natb (c : ascii) : bool := match Ascii.is_nat c with Some _ => true | None => false end.

Lemma digit_not_alpha c : is_digit c = true → is_alpha c = false.
Proof.
  intros Hc. apply not_true_iff_false. intros Ha.
  pose proof (all_ascii (λ c, negb (is_digit c && is_alpha c)) ltac:(vm_compute; reflexivity) c) as Hx.
  cbv beta in Hx. by rewrite Hc, Ha in Hx.
Qed.
Lemma digit_upper c : is_digit c = true → toupper c = c.
Proof.
  intros Hc. pose proof (all_ascii (λ c, negb (is_digit c) || Ascii.eqb (toupper c) c) ltac:(vm_compute; reflexivity) c) as Hx.
  cbv beta in Hx. rewrite Hc in Hx. by apply Ascii.eqb_eq.
Qed.
Lemma digit_nat c : is_digit c = true → is_Some (Ascii.is_nat c) ∧ Ascii.is_space c = false ∧ c ≠ "-"%char ∧ c ≠ "+"%char.
Proof.
  intros Hc.
  pose proof (all_ascii (λ c, negb (is_digit c) ||
    (is_natb c && negb (Ascii.is_space c) && negb (Ascii.eqb c "-") && negb (Ascii.eqb c "+")))
    ltac:(vm_compute; reflexivity) c) as Hx.
  cbv beta in Hx. rewrite Hc in Hx. simpl orb in Hx. rewrite !andb_true_iff, !negb_true_iff, !Ascii.eqb_neq in Hx.
  destruct Hx as [[[Hn ?] ?] ?]. unfold is_natb in Hn. destruct (Ascii.is_nat c); naive_solver.
Qed.
Lemma is_nat_digit c d : Ascii.is_nat c = Some d → is_digit c = true.
Proof.
  intros Hc. pose proof (all_ascii (λ c, negb (is_natb c) || is_digit c) ltac:(vm_compute; reflexivity) c) as Hx.
  cbv beta in Hx. unfold is_natb in Hx. by rewrite Hc in Hx.
Qed.

(** ** Decimal digits *)
Lemma pretty_N_char_digit d :
  (d < 10)%N → Ascii.is_nat (pretty_N_char d) = Some (N.to_nat d) ∧ is_digit (pretty_N_char d) = true.
Proof.
  intros Hd. assert (d ∈ [0; 1; 2; 3; 4; 5; 6; 7; 8; 9]%N) as Hin.
  { rewrite !elem_of_cons. lia. }
  repeat (apply elem_of_cons in Hin as [->|Hin]; [by vm_compute|]). by apply elem_of_nil in Hin.
Qed.
Lemma pretty_N_go_value x s : digits_value 0 (pretty_N_go x s) = digits_value (Z.of_N x) s.
Proof.
  revert s. induction (N.lt_wf_0 x) as [x _ IH]. intros s.
  destruct (decide (x = 0%N)) as [->|Hx]; [by rewrite pretty_N_go_0|].
  rewrite pretty_N_go_step by lia. rewrite IH by (apply N.div_lt; lia). cbn [digits_value].
  destruct (pretty_N_char_digit (x `mod` 10)) as [-> _]; [apply N.mod_lt; lia|].
  f_equal. rewrite N_nat_Z. pose proof (N.div_mod x 10). lia.
Qed.
Lemma pretty_N_go_digits x s : sall is_digit s = true → sall is_digit (pretty_N_go x s) = true.
Proof.
  revert s. induction (N.lt_wf_0 x) as [x _ IH]. intros s Hs.
  destruct (decide (x = 0%N)) as [->|Hx]; [by rewrite pretty_N_go_0|].
  rewrite pretty_N_go_step by lia. apply IH; [apply N.div_lt; lia|]. cbn [sall]. rewrite Hs, andb_true_r.
  apply pretty_N_char_digit, N.mod_lt. lia.
Qed.

(** A non-empty string of digits, with its last digit and its value. *)
Definition decimal (s : string) (v : Z) : Prop :=
  sall is_digit s = true ∧ digits_value 0 s = v ∧ ∃ t c, s = t +:+ String c "" ∧ is_digit c = true.

Lemma string_snoc s : s = "" ∨ ∃ t c, s = t +:+ String c "".
Proof.
  induction s as [|b s IH]; [by left|right]. destruct IH as [->|(t & c & ->)].
  - by exists "", b.
  - by exists (String b t), c.
Qed.
Lemma decimal_intro s v : sall is_digit s = true → digits_value 0 s = v → s ≠ "" → decimal s v.
Proof.
  intros Hs Hv Hne. split_and!; [done..|]. destruct (string_snoc s) as [?|(t & c & ->)]; [done|].
  exists t, c. split; [done|]. rewrite sall_app in Hs. cbn in Hs. by rewrite !andb_true_iff in Hs; destruct Hs as [_ [? _]].
Qed.
Lemma to_str_decimal v : 0 < v → decimal (to_str v) v.
Proof.
  intros Hv. destruct v as [|p|]; [lia| |lia]. change (to_str (Z.pos p)) with (pretty_N_go (N.pos p) "").
  apply decimal_intro; [by apply pretty_N_go_digits|by rewrite pretty_N_go_value|].
  intros Heq. pose proof (pretty_N_go_value (N.pos p) "") as Hval. rewrite Heq in Hval. done.
Qed.

Lemma to_int_digits s v : sall is_digit s = true → digits_value 0 s = v → in_int v = true → to_int s = Ret v.
Proof.
  intros Hs Hv Hin. unfold to_int, int_val. destruct s as [|c s]; [by cbn in *; subst v|].
  cbn in Hs. apply andb_true_iff in Hs as [Hc _]. destruct (digit_nat c Hc) as (_ & Hsp & Hm & Hp).
  cbn [skip_space]. rewrite Hsp.
  destruct c as [[][][][][][][][]]; try (by destruct Hm); try (by destruct Hp); rewrite Hv, Hin; done.
Qed.

(** ** The tables *)
Lemma zz_name_all (p : Z → string → bool) :
  forallb (λ kv, p kv.1 kv.2) (map_to_list zz_name) = true → ∀ z ll, zz_name !! z = Some ll → p z ll = true.
Proof.
  rewrite forallb_forall. intros Hall z ll Hz. apply (Hall (z, ll)), list_elem_of_In.
  by apply elem_of_map_to_list.
Qed.

(** What the conversions need of the symbol of an element. *)
Record symbol (z : Z) (ll : string) : Prop := {
  sym_range : 0 < z ≤ 116;
  sym_name : name_zz !! ll = Some z;
  sym_upper : to_upper (to_lower ll) = to_upper ll;
  sym_case : element_case ll = ll;
  sym_cap : capitalize (to_upper ll) = ll;
  sym_alpha : sall is_alpha (to_upper ll) = true;
  sym_short : ∃ c l, to_upper ll = String c l ∧ (String.length l ≤ 1)%nat;
  sym_no_dash : sall (λ c, negb (Ascii.eqb "-" c)) ll = true;
  sym_no_colon : sall (λ c, negb (Ascii.eqb ":" c)) (to_lower ll) = true;
  sym_z : if z <? 10 then ∃ c, to_str z = String c ""
          else ∃ c1 c2, to_str z = String c1 (String c2 (when (100 <=? z) (to_str (z rem 10))))
}.

Definition symbol_check (z : Z) (ll : string) : bool :=
  (0 <? z) && (z <=? 116) && bool_decide (name_zz !! ll = Some z) &&
  String.eqb (to_upper (to_lower ll)) (to_upper ll) && String.eqb (element_case ll) ll &&
  String.eqb (capitalize (to_upper ll)) ll && sall is_alpha (to_upper ll) &&
  match to_upper ll with String c l => (String.length l <=? 1)%nat | "" => false end &&
  sall (λ c, negb (Ascii.eqb "-" c)) ll && sall (λ c, negb (Ascii.eqb ":" c)) (to_lower ll) &&
  match to_str z with
  | String c1 "" => z <? 10
  | String c1 (String c2 p) => negb (z <? 10) && String.eqb p (when (100 <=? z) (to_str (z rem 10)))
  | "" => false
  end.

Lemma symbol_checked z ll : symbol_check z ll = true → symbol z ll.
Proof.
  unfold symbol_check. rewrite !andb_true_iff, bool_decide_eq_true, !String.eqb_eq.
  intros [[[[[[[[[[? ?] ?] ?] ?] ?] ?] Hs] ?] ?] Hz]. constructor; [lia|done..| |done|done|].
  - destruct (to_upper ll) as [|c l]; [done|]. exists c, l. split; [done|]. by apply Nat.leb_le.
  - destruct (to_str z) as [|c1 [|c2 p]]; [done|..].
    + rewrite Hz. by exists c1.
    + apply andb_true_iff in Hz as [->%negb_true_iff ->%String.eqb_eq]. by exists c1, c2.
Qed.
Lemma zz_name_symbol z ll : zz_name !! z = Some ll → symbol z ll.
Proof.
  intros Hz. apply symbol_checked. revert z ll Hz. apply zz_name_all. vm_compute. reflexivity.
Qed.

#[global] Opaque name_zz zz_name fluka_zz zz_fluka.

(** ** Identifiers *)
Ltac quot_rem := Z.to_euclidean_division_equations; lia.

Definition nuclide (z a s : Z) : Z := z * 10000000 + a * 10000 + s.

(** The range of an identifier that [id] leaves alone. *)
Definition in_form (z a s : Z) : Prop := 0 < z ≤ 116 ∧ z ≤ a ≤ 7 * z ∧ a < 1000 ∧ 0 ≤ s < 10000.

Section form.
Context (z a s : Z) (Hform : in_form z a s).
Lemma nuclide_z : nuclide z a s ÷ 10000000 = z.
Proof. unfold nuclide, in_form in *. quot_rem. Qed.
Lemma nuclide_s : nuclide z a s rem 10000 = s.
Proof. unfold nuclide, in_form in *. quot_rem. Qed.
Lemma nuclide_as : nuclide z a s rem 10000000 = a * 10000 + s.
Proof. unfold nuclide, in_form in *. quot_rem. Qed.
Lemma nuclide_a : nuclide z a s rem 10000000 ÷ 10000 = a.
Proof. unfold nuclide, in_form in *. quot_rem. Qed.
Lemma nuclide_za : nuclide z a s ÷ 10000 = z * 1000 + a.
Proof. unfold nuclide, in_form in *. quot_rem. Qed.
Lemma nuclide_int : in_int (nuclide z a s) = true.
Proof. apply in_int_spec. unfold nuclide, in_form, int_min, int_max in *. lia. Qed.
Lemma id_nuclide : id (nuclide z a s) = Ret (nuclide z a s).
Proof.
  unfold id. rewrite nuclide_z, nuclide_a. destruct Hform as (? & ? & ? & ?).
  destruct (_ <? 0) eqn:Hneg; [unfold nuclide in Hneg; lia|].
  replace ((0 <? z) && (z <=? a) && (a <=? z * 7)) with true by lia. done.
Qed.
End form.
#[export] Hint Resolve nuclide_int id_nuclide : cyclus.

(** ** The shapes of a name

    In upper case and without [-], a name is a symbol, the digits of the nucleons, and
    a flag; the form ZZLLAAAM can leave a digit in front. *)
Definition flag (s : Z) : string := when (0 <? s) "M".

Lemma alpha_not_digit c : is_alpha c = true → is_digit c = false.
Proof.
  intros Hc. destruct (is_digit c) eqn:Hd; [|done]. apply digit_not_alpha in Hd. congruence.
Qed.
Lemma sall_not (p q : ascii → bool) s :
  (∀ c, p c = true → q c = false) → sall p s = true → sall (λ c, negb (q c)) s = true.
Proof. intros Hpq. apply sall_impl. intros c Hc. by rewrite (Hpq c Hc). Qed.
Lemma flag_alpha s : sall is_alpha (flag s) = true.
Proof. unfold flag, when. by destruct (0 <? s). Qed.

Section shape.
Context (P L D : string) (a s : Z).
Hypothesis (HP : sall is_digit P = true) (HL : sall is_alpha L = true) (HD : decimal D a).

Lemma shape_nucleons : remove_characters (P +:+ L +:+ D +:+ flag s) alphabet = P +:+ D.
Proof.
  rewrite remove_characters_spec, !sfilter_app. destruct HD as (HDd & _ & _).
  rewrite (sfilter_all _ P), (sfilter_none _ L), (sfilter_all _ D), (sfilter_none _ (flag s)).
  - by rewrite string_app_nil_r.
  - eapply sall_impl; [|apply flag_alpha]. cbv beta. intros c Hc. by rewrite negb_involutive.
  - by apply (sall_not is_digit is_alpha); [apply digit_not_alpha|].
  - eapply sall_impl; [|exact HL]. cbv beta. intros c Hc. by rewrite negb_involutive.
  - by apply (sall_not is_digit is_alpha); [apply digit_not_alpha|].
Qed.

(** Without its last character: the symbol is what is not a digit. *)
Lemma shape_symbol t : sall is_digit t = true → remove_characters (P +:+ L +:+ t) digits = L.
Proof.
  intros Ht. rewrite remove_characters_spec, !sfilter_app.
  rewrite (sfilter_none _ P), (sfilter_all _ L), (sfilter_none _ t); [apply string_app_nil_r|..].
  - eapply sall_impl; [|exact Ht]. cbv beta. intros c Hc. by rewrite negb_involutive.
  - by apply (sall_not is_alpha is_digit); [apply alpha_not_digit|].
  - eapply sall_impl; [|exact HP]. cbv beta. intros c Hc. by rewrite negb_involutive.
Qed.

Lemma shape_named z b : s = 0 ∨ s = 1 →
  name_zz !! capitalize L = Some z → in_int (10000 * b + s) = true →
  named_id (P +:+ L +:+ D +:+ flag s) b = int_val (10000000 * z + (10000 * b + s)).
Proof.
  intros Hs Hz Hin. destruct HD as (HDd & _ & t & c & Ht & Hc). unfold named_id.
  destruct Hs as [->| ->]; cbn [flag when Z.ltb Z.compare].
  - rewrite string_app_nil_r, Ht, <-!string_app_assoc, last_char_app, drop_last_app, bind_Ret.
    assert (String c "" ≠ "M") as HM by (intros [= ->]; done).
    rewrite decide_False by done. rewrite contains_char.
    change (one_of digits c) with (is_digit c). rewrite Hc, !string_app_assoc.
    unfold int_val at 1. rewrite Z.add_0_r in *. rewrite Hin, bind_Ret. rewrite shape_symbol.
    + unfold with_element. by rewrite Hz.
    + rewrite Ht, sall_app in HDd. by apply andb_true_iff in HDd as [? _].
  - rewrite <-!string_app_assoc, last_char_app, drop_last_app, bind_Ret, decide_True by done.
    unfold int_val at 1. rewrite Hin, bind_Ret.
    rewrite !string_app_assoc, shape_symbol by done. unfold with_element. by rewrite Hz.
Qed.
End shape.

(** ** Reading the shapes *)
Lemma sfilter_other c (p : ascii → bool) s :
  sall p s = true → p c = false → sfilter (λ d, negb (Ascii.eqb c d)) s = s.
Proof.
  intros Hs Hc. apply sfilter_all. eapply sall_impl; [|exact Hs]. cbv beta. intros d Hd.
  destruct (Ascii.eqb_spec c d) as [->|]; [congruence|done].
Qed.
Lemma digits_upper D : sall is_digit D = true → to_upper D = D.
Proof. intros HD. apply (map_chars_id _ _ is_digit HD), digit_upper. Qed.
Lemma to_upper_app s1 s2 : to_upper (s1 +:+ s2) = to_upper s1 +:+ to_upper s2.
Proof. apply map_chars_app. Qed.
Lemma flag_upper s : to_upper (flag s) = flag s.
Proof. unfold flag, when. by destruct (0 <? s). Qed.
Lemma flag_lower s : to_upper (when (0 <? s) "m") = flag s.
Proof. unfold flag, when. by destruct (0 <? s). Qed.

Lemma no_dash P L D a s : sall is_digit P = true → sall is_alpha L = true → decimal D a →
  remove_substring (P +:+ L +:+ D +:+ flag s) "-" = P +:+ L +:+ D +:+ flag s.
Proof.
  intros HP HL (HD & _ & _). rewrite remove_substring_char, !sfilter_app.
  rewrite (sfilter_other _ _ P HP), (sfilter_other _ _ L HL), (sfilter_other _ _ D HD) by done.
  by rewrite (sfilter_other _ _ _ (flag_alpha s)).
Qed.

(** [NAT] does not occur: three letters in a row do not. *)
Lemma index_none_head c r s : sall (λ d, negb (Ascii.eqb c d)) s = true → String.index 0 (String c r) s = None.
Proof.
  induction s as [|b s IH]; [done|]. cbn [sall String.index]. rewrite andb_true_iff, negb_true_iff, Ascii.eqb_neq.
  intros [Hc Hs]. cbn [String.prefix]. destruct (Ascii.ascii_dec c b); [done|]. by rewrite IH.
Qed.
Lemma index_skip c r b s :
  c ≠ b ∨ String.prefix r s = false → String.index 0 (String c r) s = None →
  String.index 0 (String c r) (String b s) = None.
Proof.
  intros Hp Hs. cbn [String.index String.prefix]. destruct (Ascii.ascii_dec c b) as [->|]; [|by rewrite Hs].
  destruct Hp as [?| ->]; [done|]. by rewrite Hs.
Qed.
Lemma prefix_digit c r d s : is_alpha c = true → is_digit d = true → String.prefix (String c r) (String d s) = false.
Proof.
  intros Hc Hd. cbn. destruct (Ascii.ascii_dec c d) as [->|]; [|done]. apply digit_not_alpha in Hd. congruence.
Qed.

Lemma no_NAT P L D a s : sall is_digit P = true → (∃ c l, L = String c l ∧ (String.length l ≤ 1)%nat) → decimal D a →
  contains_substring (P +:+ L +:+ D +:+ flag s) "NAT" = false.
Proof.
  intros HP (c & l & -> & Hl) (HD & _ & HDne). unfold contains_substring.
  enough (String.index 0 "NAT" (P +:+ String c l +:+ D +:+ flag s) = None) as ->; [done|].
  induction P as [|p P IH].
  - assert (String.index 0 "NAT" (D +:+ flag s) = None) as HDs.
    { apply index_none_head. rewrite sall_app. apply andb_true_iff.
      split; [|unfold flag, when; by destruct (0 <? s)].
      eapply sall_impl; [|exact HD]. cbv beta. intros d Hd. destruct (Ascii.eqb_spec "N" d) as [<-|]; done. }
    destruct D as [|d D']; [by destruct HDne as ([|? ?] & ? & ? & _)|].
    cbn [sall] in HD. apply andb_true_iff in HD as [Hd _]. rewrite string_app_cons in HDs.
    destruct l as [|c2 [|]]; [| |cbn in Hl; lia]; cbn [String.append].
    + apply index_skip; [right|done]. by apply prefix_digit.
    + apply index_skip; [right|apply index_skip; [right; by apply prefix_digit|done]].
      cbn [String.prefix]. destruct (Ascii.ascii_dec "A" c2); [|done]. by apply prefix_digit.
  - cbn [sall] in HP. apply andb_true_iff in HP as [Hp HP]. rewrite string_app_cons.
    apply index_skip; [left; by intros <-|auto].
Qed.

Section reading.
Context (z a s : Z) (ll : string).
Hypothesis (Hll : zz_name !! z = Some ll) (Hform : in_form z a s) (Hs : s = 0 ∨ s = 1).
Local Abbreviation L := (to_upper ll).
Local Abbreviation D := (to_str a).

Lemma reading_sym : symbol z ll.
Proof. by apply zz_name_symbol. Qed.
Lemma reading_decimal : decimal D a.
Proof. apply to_str_decimal. unfold in_form in Hform. lia. Qed.
Lemma reading_to_int : to_int D = Ret a.
Proof.
  destruct reading_decimal as (? & ? & _). apply to_int_digits; [done..|]. apply in_int_spec.
  unfold in_form, int_min, int_max in *. lia.
Qed.
Lemma reading_nonempty : D ≠ "".
Proof. destruct reading_decimal as (_ & _ & [|? ?] & ? & -> & _); done. Qed.

(** A symbol, digits and a flag, after a digit of the value [p] or nothing. *)
Lemma named_shape P b : sall is_digit P = true → 0 ≤ b < 200000 →
  in_int (10000000 * z + (10000 * b + s)) = true →
  named_id (P +:+ L +:+ D +:+ flag s) b = Ret (10000000 * z + (10000 * b + s)).
Proof.
  intros HP Hb Hin. destruct reading_sym as [? Hname ? ? Hcap ? ?].
  rewrite (shape_named P L D a s HP) with (z := z); [|done|apply reading_decimal|done|by rewrite Hcap|].
  - unfold int_val. by rewrite Hin.
  - apply in_int_spec. unfold int_min, int_max. lia.
Qed.
Lemma nuclide_swap : 10000000 * z + (10000 * a + s) = nuclide z a s.
Proof. unfold nuclide. lia. Qed.

Lemma named_ground : named_id ("" +:+ L +:+ D +:+ flag s) a = Ret (nuclide z a s).
Proof.
  unfold in_form in Hform. rewrite named_shape, nuclide_swap; [done..|lia|]. rewrite nuclide_swap. by apply nuclide_int.
Qed.

Lemma read_plain nuc : remove_substring (to_upper nuc) "-" = L +:+ D +:+ flag s → id_plain nuc = Ret (nuclide z a s).
Proof.
  intros Hup. destruct reading_sym as [? Hname ? ? Hcap Halpha (c & l & Hc & ?)]. unfold id_plain.
  rewrite Hup. cbv zeta. rewrite (shape_nucleons "" L D a s eq_refl Halpha reading_decimal : remove_characters (L +:+ _) _ = D).
  assert (String.substring 0 1 (L +:+ D +:+ flag s) = String c "") as ->.
  { rewrite Hc, string_app_cons. cbn. by destruct (l +:+ D +:+ flag s). }
  assert (is_alpha c = true) as Hca.
  { rewrite Hc in Halpha. cbn [sall] in Halpha. by apply andb_true_iff in Halpha as [? _]. }
  rewrite !contains_char. change (one_of digits c) with (is_digit c). change (one_of alphabet c) with (is_alpha c).
  rewrite Hca, (alpha_not_digit c Hca), decide_False by apply reading_nonempty.
  rewrite reading_to_int, bind_Ret. unfold in_form in Hform. destruct (a <? 0) eqn:?; [lia|].
  change (named_id ("" +:+ L +:+ D +:+ flag s) a = Ret (nuclide z a s)). apply named_ground.
Qed.

(** A name without [-] is read by [id_plain]; so is one with a single [-]. *)
Lemma read_serpent : serpent_to_id (ll +:+ "-" +:+ D +:+ when (0 <? s) "m") = Ret (nuclide z a s).
Proof.
  destruct reading_sym as [? Hname ? ? Hcap Halpha Hshort]. destruct reading_decimal as (HD & _).
  unfold serpent_to_id. rewrite decide_False by (by destruct ll).
  assert (remove_substring (to_upper (ll +:+ "-" +:+ D +:+ when (0 <? s) "m")) "-" = "" +:+ L +:+ D +:+ flag s) as ->.
  { rewrite !to_upper_app, flag_lower, (digits_upper D HD), remove_substring_char, !sfilter_app.
    rewrite (sfilter_other _ _ _ Halpha), (sfilter_other _ _ _ HD), (sfilter_other _ _ _ (flag_alpha s)); done. }
  cbv zeta. rewrite (shape_nucleons "" L D a s eq_refl Halpha reading_decimal).
  rewrite (no_NAT "" L D a s eq_refl Hshort reading_decimal).
  rewrite bool_decide_eq_false_2 by apply reading_nonempty. cbn [orb].
  rewrite (reading_to_int : to_int ("" +:+ D) = _), bind_Ret. apply named_ground.
Qed.

Lemma read_name : id_str (ll +:+ D +:+ flag s) = Ret (nuclide z a s).
Proof.
  destruct reading_sym as [? Hname ? ? Hcap Halpha Hshort Hdash]. destruct reading_decimal as (HD & _).
  unfold id_str. cbn [id_str_loop]. destruct (decide (_ = "")) as [He|_].
  { apply (f_equal String.length) in He. rewrite !string_length_app in He.
    destruct reading_decimal as (_ & _ & t & c & Ht & _). rewrite Ht, string_length_app in He. cbn in He. lia. }
  rewrite index_none_head.
  - apply read_plain. rewrite !to_upper_app, flag_upper, (digits_upper D HD).
    apply (no_dash "" L D a s eq_refl Halpha reading_decimal).
  - rewrite !sall_app, Hdash. cbn [andb]. apply andb_true_iff. split; [|unfold flag, when; by destruct (0 <? s)].
    eapply sall_impl; [|exact HD]. cbv beta. intros c Hc. destruct (Ascii.eqb_spec "-" c) as [<-|]; done.
Qed.

(** NIST and ALARA names: the letters and the digits are taken apart. *)
Lemma read_unflagged X : remove_characters X alphabet = D → remove_characters X digits = L →
  unflagged_id X = Ret (nuclide z a 0).
Proof.
  intros HXD HXL. destruct reading_sym as [? Hname ? ? Hcap Halpha ?]. unfold unflagged_id. cbv zeta.
  rewrite HXD, decide_False by apply reading_nonempty. rewrite reading_to_int, bind_Ret, HXL, Hcap.
  unfold with_element, int_val, in_form in *. rewrite Hname.
  replace (in_int (a * 10000)) with true by (symmetry; apply in_int_spec; unfold int_min, int_max; lia).
  rewrite bind_Ret. replace (10000000 * z + a * 10000) with (nuclide z a 0) by (unfold nuclide; lia).
  rewrite nuclide_int; [done|]. unfold in_form. lia.
Qed.
Lemma letters_digits : remove_characters (L +:+ D) alphabet = D ∧ remove_characters (L +:+ D) digits = L ∧
  remove_characters (D +:+ L) alphabet = D ∧ remove_characters (D +:+ L) digits = L.
Proof.
  destruct reading_sym as [? ? ? ? ? Halpha ?]. destruct reading_decimal as (HD & _).
  pose proof (sall_not is_alpha (one_of digits) L alpha_not_digit Halpha) as HLn.
  pose proof (sall_not is_digit (one_of alphabet) D digit_not_alpha HD) as HDn.
  assert (∀ p q s, (∀ c, q c = p c) → sall p s = true → sall (λ c, negb (negb (q c))) s = true) as Hnn.
  { intros p q t Hpq. apply sall_impl. intros c. by rewrite negb_involutive, Hpq. }
  rewrite !remove_characters_spec, !sfilter_app.
  rewrite (sfilter_all _ L HLn), (sfilter_all _ D HDn).
  rewrite (sfilter_none _ L), (sfilter_none _ D), !string_app_nil_r by (by eapply Hnn).
  split_and!; reflexivity.
Qed.

(** ZZLLAAAM: the first two characters go, the third digit of the element stays. *)
Lemma erase_two c1 c2 t : erase 0 2 (String c1 (String c2 t)) = t.
Proof.
  unfold erase. cbn [String.substring String.append Nat.add]. apply substring_all. cbn. lia.
Qed.
Lemma heavy_digits p b : 0 ≤ p < 10 → 100 ≤ b < 1000 → digits_value 0 (to_str p +:+ to_str b) = 1000 * p + b.
Proof.
  assert (forallb (λ p, forallb (λ b, digits_value 0 (to_str p +:+ to_str b) =? 1000 * p + b)
    (seqZ 100 900)) (seqZ 0 10) = true) as Hall by (vm_compute; reflexivity).
  intros Hp Hb. rewrite forallb_forall in Hall. specialize (Hall p). rewrite <-list_elem_of_In, elem_of_seqZ in Hall.
  specialize (Hall ltac:(lia)). rewrite forallb_forall in Hall. specialize (Hall b).
  rewrite <-list_elem_of_In, elem_of_seqZ in Hall. apply Z.eqb_eq, Hall. lia.
Qed.
Definition third_digit : string := when (100 <=? z) (to_str (z rem 10)).
Lemma third_digit_digits : sall is_digit third_digit = true.
Proof.
  pose proof (sym_range _ _ reading_sym). unfold third_digit, when. destruct (100 <=? z); [|done].
  destruct (decide (z rem 10 = 0)) as [->|]; [done|]. apply to_str_decimal. quot_rem.
Qed.
Lemma third_digit_value : to_int (third_digit +:+ D) = Ret (if z <? 100 then a else 1000 * (z rem 10) + a).
Proof.
  pose proof third_digit_digits as Hp. destruct reading_decimal as (HD & Hv & _).
  apply to_int_digits; [by rewrite sall_app, Hp, HD|..].
  - unfold third_digit, when in *. unfold in_form in Hform. destruct (100 <=? z) eqn:Hz; [|by replace (z <? 100) with true by lia].
    replace (z <? 100) with false by lia. clear Hp.
    apply heavy_digits; [quot_rem|lia].
  - unfold in_form in Hform. apply in_int_spec. unfold int_min, int_max. destruct (z <? 100); quot_rem.
Qed.

Lemma zzll_upper : remove_substring (remove_substring
    (erase 0 2 (to_upper (to_str z +:+ "-" +:+ ll +:+ "-" +:+ D +:+ when (0 <? s) "m"))) "-") "-" =
  third_digit +:+ L +:+ D +:+ flag s.
Proof.
  destruct reading_sym as [? Hname ? ? Hcap Halpha ? _ _ Hz]. pose proof reading_decimal as HDa. pose proof HDa as (HD & _).
  rewrite <-(no_dash third_digit L D a s third_digit_digits Halpha HDa). f_equal.
  assert (sall is_digit (to_str z) = true) as HZ by (apply to_str_decimal; lia).
  rewrite !to_upper_app, flag_lower, (digits_upper D HD), (digits_upper _ HZ), remove_substring_char.
  assert (∀ t, sfilter (λ d, negb (Ascii.eqb "-" d)) (t +:+ "-" +:+ L +:+ "-" +:+ D +:+ flag s) =
    sfilter (λ d, negb (Ascii.eqb "-" d)) t +:+ L +:+ D +:+ flag s) as Hrest.
  { intros t. rewrite !sfilter_app, (sfilter_other _ _ _ Halpha), (sfilter_other _ _ _ HD),
      (sfilter_other _ _ _ (flag_alpha s)); reflexivity. }
  destruct (z <? 10) eqn:Hz10.
  - destruct Hz as (c & ->). unfold third_digit, when. replace (100 <=? z) with false by lia.
    rewrite string_app_cons. change ("" +:+ to_upper "-" +:+ ?t) with (String "-" t). rewrite erase_two.
    apply (Hrest "").
  - destruct Hz as (c1 & c2 & ->). rewrite !string_app_cons, erase_two. fold third_digit.
    change (to_upper "-") with "-". rewrite Hrest. f_equal. by apply (sfilter_other _ _ _ third_digit_digits).
Qed.

Lemma read_zzllaaam :
  zzllaaam_to_id (to_str z +:+ "-" +:+ ll +:+ "-" +:+ D +:+ when (0 <? s) "m") =
  Ret (nuclide (if z <? 100 then z else z + z rem 10) a s).
Proof.
  destruct reading_sym as [? Hname ? ? Hcap Halpha Hshort]. unfold zzllaaam_to_id.
  destruct (decide (_ = "")) as [He|_].
  { apply (f_equal String.length) in He. rewrite !string_length_app in He. cbn in He. lia. }
  rewrite zzll_upper. cbv zeta. rewrite (shape_nucleons _ L D a s third_digit_digits Halpha reading_decimal).
  rewrite (no_NAT _ L D a s third_digit_digits Hshort reading_decimal), bool_decide_eq_false_2.
  - cbn [orb]. rewrite third_digit_value, bind_Ret. unfold in_form in Hform.
    rewrite named_shape; [|apply third_digit_digits|destruct (z <? 100); quot_rem|].
    + f_equal. unfold nuclide. destruct (z <? 100); lia.
    + apply in_int_spec. unfold int_min, int_max. destruct (z <? 100); quot_rem.
  - intros He. apply (f_equal String.length) in He. rewrite string_length_app in He.
    destruct reading_decimal as (_ & _ & t & c & Ht & _). rewrite Ht, string_length_app in He. cbn in He. lia.
Qed.
End reading.

(** ** The MCNP form *)
(** The loop ends at the latest when the number is below zero. *)
Lemma mcnp_state_loop_ends fuel nuc : -999999 ≤ nuc < 999999 * Z.of_nat fuel → mcnp_state_loop fuel nuc ≠ Throw OutOfFuel.
Proof.
  assert (∀ n, -999999 ≤ n < 0 → ratio_above_3 ((n ÷ 10000) rem 1000) (n ÷ 10000000) = false) as Hneg.
  { intros n Hn. replace (n ÷ 10000000) with 0 by (symmetry; apply Z.quot_small_iff; lia). apply Z.ltb_ge.
    rewrite <-(Z.opp_involutive n), Z.quot_opp_l, Z.rem_opp_l by lia.
    pose proof (Z.rem_nonneg ((- n) ÷ 10000) 1000 ltac:(lia) (Z.quot_pos (- n) 10000 ltac:(lia) ltac:(lia))). lia. }
  revert nuc. induction fuel as [|fuel IH]; intros nuc Hn; cbn [mcnp_state_loop].
  - by rewrite Hneg by lia.
  - destruct (decide (nuc < 0)); [by rewrite Hneg by lia|]. destruct (ratio_above_3 _ _); [apply IH; lia|done].
Qed.
Lemma int_val_bounded n : int_val n ≠ Throw OutOfFuel.
Proof. unfold int_val. by case_match. Qed.
Lemma mcnp_number_bounded nuc : mcnp_number nuc ≠ Throw OutOfFuel.
Proof.
  unfold mcnp_number. destruct (Z.ltb_spec (nuc rem 1000 - 400) 0) as [_|Hn]; [destruct (_ =? _); apply int_val_bounded|].
  destruct (_ =? _); [discriminate|]. assert (0 ≤ nuc) as Hnuc.
  { destruct (Z.le_gt_cases 0 nuc); [done|]. pose proof (Z.rem_nonpos nuc 1000 ltac:(lia) ltac:(lia)). lia. }
  assert (400 ≤ nuc) as Hmin by (pose proof (Z.rem_le nuc 1000 Hnuc ltac:(lia)); lia). clear Hn.
  destruct (int_val _) as [n|x] eqn:Hn; [|intros [= ->]; by apply (int_val_bounded ((nuc - 400) * 10000 + 1))].
  rewrite bind_Ret. unfold int_val in Hn. destruct (in_int _) eqn:Hr; [|discriminate]. injection Hn as <-.
  apply in_int_spec in Hr. unfold int_min, int_max in Hr. apply mcnp_state_loop_ends. lia.
Qed.
Lemma id_bounded nuc : id nuc ≠ Throw OutOfFuel.
Proof.
  unfold id. repeat match goal with |- context [if ?b then _ else _] => generalize b; intros [] end;
  first [discriminate | apply int_val_bounded | apply mcnp_number_bounded].
Qed.

(** Reading a string calls itself on a shorter one, and never runs out of its bound. *)
Lemma bind_bounded {A B} (o : outcome A) (k : A → outcome B) :
  o ≠ Throw OutOfFuel → (∀ a, k a ≠ Throw OutOfFuel) → (o ≫= k) ≠ Throw OutOfFuel.
Proof. intros Ho Hk. destruct o as [a|x]; [apply Hk|]. intros Hx. apply Ho. change (Throw (A:=B) x = Throw OutOfFuel) in Hx. congruence. Qed.
Lemma with_element_bounded e n : with_element e n ≠ Throw OutOfFuel.
Proof. unfold with_element. generalize (name_zz !! e). intros [z|]; [apply int_val_bounded|discriminate]. Qed.
Lemma last_char_bounded s : last_char s ≠ Throw OutOfFuel.
Proof. unfold last_char, substr. destruct s; [discriminate|]. by destruct (_ <? _)%nat. Qed.
Lemma named_id_bounded s a : named_id s a ≠ Throw OutOfFuel.
Proof.
  unfold named_id. apply bind_bounded; [apply last_char_bounded|]. intros c. apply bind_bounded; [|intros; apply with_element_bounded].
  destruct (decide _); [apply int_val_bounded|]. destruct (contains_substring _ _); [apply int_val_bounded|discriminate].
Qed.
Lemma zzllaaam_to_id_bounded s : zzllaaam_to_id s ≠ Throw OutOfFuel.
Proof.
  unfold zzllaaam_to_id. destruct (decide _); [discriminate|]. cbv zeta. destruct (if _ || _ then _ else _); [discriminate|].
  apply bind_bounded; [apply int_val_bounded|intros; apply named_id_bounded].
Qed.
Lemma id_plain_bounded s : id_plain s ≠ Throw OutOfFuel.
Proof.
  unfold id_plain. cbv zeta. destruct (contains_substring digits _).
  - apply bind_bounded. { unfold last_digit_or_letter, substr. destruct (String.length _); [discriminate|]. by destruct (_ <? _)%nat. }
    intros l. destruct (contains_substring _ _).
    + apply bind_bounded; [apply int_val_bounded|intros; apply id_bounded].
    + apply bind_bounded; [apply int_val_bounded|]. intros a. apply bind_bounded; [apply int_val_bounded|intros; apply with_element_bounded].
  - destruct (contains_substring _ _); [|discriminate]. destruct (if decide _ then _ else _); [discriminate|].
    apply bind_bounded; [apply int_val_bounded|]. intros a. destruct (a <? 0); [discriminate|apply named_id_bounded].
Qed.
Lemma substring_length n m s : (String.length (String.substring n m s) ≤ String.length s - n)%nat.
Proof.
  revert n m. induction s as [|c s IH]; intros [|n] [|m]; cbn; try lia.
  - specialize (IH 0%nat m). lia.
  - apply IH.
  - apply IH.
Qed.
Lemma id_str_bounded s : id_str s ≠ Throw OutOfFuel.
Proof.
  unfold id_str. cut (∀ fuel t, (String.length t < fuel)%nat → id_str_loop fuel t ≠ Throw OutOfFuel); [intros Hl; apply Hl; lia|].
  intros fuel. induction fuel as [|fuel IH]; intros t Ht; [lia|]. cbn [id_str_loop]. destruct (decide _) as [|Hne]; [discriminate|].
  destruct (String.index 0 "-" t) as [d1|]; [|apply id_plain_bounded].
  destruct (String.index (d1 + 1) "-" t) as [d2|]; [|apply id_plain_bounded]. destruct (_ <=? _)%nat; [|apply id_plain_bounded].
  apply bind_bounded; [apply int_val_bounded|]. intros zz. apply bind_bounded; [|intros ll; destruct (_ =? _); [apply zzllaaam_to_id_bounded|discriminate]].
  apply IH. pose proof (substring_length (d1 + 1) d2 t). destruct t; [done|]. cbn [String.length] in *. lia.
Qed.

Lemma mcnp_state_loop_step fuel z a s : 0 < z ≤ 116 → 0 ≤ a < 1000 → 0 ≤ s < 10000 →
  mcnp_state_loop fuel (nuclide z a s) =
  if 3 * z <? a then
    match fuel with O => Throw OutOfFuel | S fuel => mcnp_state_loop fuel (nuclide z a s - 999999) end
  else Ret (nuclide z a s).
Proof.
  intros Hz Ha Hs.
  assert (nuclide z a s ÷ 10000 rem 1000 = a) as Ea by (unfold nuclide; quot_rem).
  assert (nuclide z a s ÷ 10000000 = z) as Ez by (unfold nuclide; quot_rem).
  assert (ratio_above_3 a z = (3 * z <? a)) as Er by (unfold ratio_above_3; destruct z; done || lia).
  destruct fuel; cbn [mcnp_state_loop]; by rewrite Ea, Ez, Er.
Qed.

(** [k] rounds of the loop take a nucleus with [100 k] nucleons too many to the right
    one, in the state that is [k] higher. *)
Lemma mcnp_state_loop_spec k fuel z a s :
  (k ≤ fuel)%nat → 0 < z ≤ 116 → 0 ≤ a → a + 100 * Z.of_nat k < 1000 → 0 ≤ s → s + Z.of_nat k < 10000 →
  a ≤ 3 * z → k = 0%nat ∨ 3 * z < a + 100 →
  mcnp_state_loop fuel (nuclide z (a + 100 * Z.of_nat k) s) = Ret (nuclide z a (s + Z.of_nat k)).
Proof.
  revert fuel s. induction k as [|k IH]; intros fuel s Hf Hz Ha Hk Hs Hsk Ha3 Hover.
  - replace (a + 100 * Z.of_nat 0) with a by lia. rewrite Z.add_0_r.
    rewrite mcnp_state_loop_step by lia. by replace (3 * z <? a) with false by lia.
  - destruct fuel as [|fuel]; [lia|]. destruct Hover as [?|Hover]; [done|].
    rewrite mcnp_state_loop_step by lia. assert ((3 * z <? a + 100 * Z.of_nat (S k)) = true) as -> by (apply Z.ltb_lt; lia).
    replace (nuclide z (a + 100 * Z.of_nat (S k)) s - 999999) with (nuclide z (a + 100 * Z.of_nat k) (s + 1))
      by (unfold nuclide; lia).
    rewrite IH by (lia || auto). f_equal. f_equal. lia.
Qed.

(** Where the MCNP form of an excited state can be read: the shifted number keeps its
    three digits, and a hundred nucleons more are too many for the element. *)
Definition mcnp_readable (z a s : Z) : Prop :=
  if s =? 0 then a < 400
  else a + 300 + 100 * s < 1000 ∧ a ≤ 3 * z ∧ (s = 1 ∨ 3 * z < a + 100).

Lemma mcnp_number_spec z a s : in_form z a s → mcnp_readable z a s → ¬ (nuclide z a 0 = 952420000 ∧ s < 2) →
  mcnp_number (z * 1000 + a + (if s =? 0 then 0 else 300 + s * 100)) = Ret (nuclide z a s).
Proof.
  intros (Hz & Ha & Ha' & Hs) Hr Ham. unfold mcnp_number, mcnp_readable, nuclide in *.
  destruct (s =? 0) eqn:Hs0.
  - replace (_ rem 1000 - 400 <? 0) with true by quot_rem. replace (_ =? 95242) with false by lia.
    unfold int_val. rewrite (proj2 (in_int_spec _)) by (unfold int_min, int_max; lia). f_equal. lia.
  - destruct Hr as (Hfit & Ha3 & Hover). replace (_ rem 1000 - 400 <? 0) with false by quot_rem.
    replace (_ =? 95642) with false by lia.
    unfold int_val. rewrite (proj2 (in_int_spec _)) by (unfold int_min, int_max; lia). rewrite bind_Ret.
    pose proof (mcnp_state_loop_spec (Z.to_nat (s - 1)) 2200 z a 1) as Hloop. unfold nuclide in Hloop.
    rewrite Z2Nat.id in Hloop by lia.
    replace (_ * 10000 + 1) with (z * 10000000 + (a + 100 * (s - 1)) * 10000 + 1) by lia.
    rewrite Hloop by lia. f_equal. lia.
Qed.
