(* ===== verification/Recorder.v ===== *)
(** * Output: data and the recorder

    [src/src/datum.h], [src/src/datum.cc], [src/src/recorder.h] and
    [src/src/recorder.cc].  The recorder owns a pool of datum objects it reuses:
    [NewDatum] hands out the next one, and the pool is delivered to the backends
    when it is full, or on a flush.  A datum pointer is its position in the pool.
    Backends are not part of the model: each has a log of the calls it gets. *)

From Stdlib Require Import ZArith Lia.
From stdpp Require Import base list gmap strings.
From S2P Require Import Prelude.

Section recorder.
(** Values of any type ([boost::spirit::hold_any]). *)
Context {V : Type}.

Record Datum := mkDatum {
  title_ : string;
  vals_ : list (string * V);
  shapes_ : list (list Z);
  fields_ : list string
}.

Definition new_datum (title : string) : Datum := mkDatum title [] [] [].

(** [Datum::AddValBase] *)
Definition AddValBase (field : string) (val : V) (shape : option (list Z)) (d : Datum) : Datum :=
  mkDatum (title_ d) (vals_ d ++ [(field, val)]) (shapes_ d ++ [default [] shape]) (fields_ d).

(** [Datum::AddVal] *)
Definition AddVal (field : string) (val : V) (shape : option (list Z)) (d : Datum) : Datum :=
  AddValBase field val shape (mkDatum (title_ d) (vals_ d) (shapes_ d) (fields_ d ++ [field])).

(** What a backend sees. *)
Inductive backend_call := Notify (ds : list Datum) | BackendFlush.

Record Recorder := mkRecorder {
  data_ : list Datum;
  index_ : nat;
  backs_ : list ptr;
  dump_count_ : nat;
  uuid_ : V;
  inject_sim_id_ : bool;
  calls : gmap ptr (list backend_call)
}.

Definition kDefaultDumpCount : nat := Z.to_nat 10000.

Definition set_data (ds : list Datum) (r : Recorder) : Recorder :=
  mkRecorder ds (index_ r) (backs_ r) (dump_count_ r) (uuid_ r) (inject_sim_id_ r) (calls r).
Definition set_index (i : nat) (r : Recorder) : Recorder :=
  mkRecorder (data_ r) i (backs_ r) (dump_count_ r) (uuid_ r) (inject_sim_id_ r) (calls r).

(** A fresh datum of the pool. *)
Definition blank_datum (inject : bool) (uuid : V) : Datum :=
  let d := new_datum EmptyString in
  if inject then AddVal "SimId" uuid None d else d.

(** [set_dump_count(count)]: the pool is replaced; [index_] is not touched. *)
Definition set_dump_count (count : nat) (r : Recorder) : Recorder :=
  mkRecorder (replicate count (blank_datum (inject_sim_id_ r) (uuid_ r))) (index_ r) (backs_ r)
    count (uuid_ r) (inject_sim_id_ r) (calls r).

(** The constructors; the random simulation id is an argument. *)
Definition new_recorder_inject (inject_sim_id : bool) (uuid : V) : Recorder :=
  set_dump_count kDefaultDumpCount (mkRecorder [] 0 [] 0 uuid inject_sim_id ∅).
Definition new_recorder_count (dump_count : nat) (uuid : V) : Recorder :=
  set_dump_count dump_count (mkRecorder [] 0 [] 0 uuid true ∅).
Definition new_recorder (uuid : V) : Recorder := new_recorder_inject true uuid.

(** The part of a reused datum that [NewDatum] keeps. *)
Definition recycle (inject : bool) (title : string) (d : Datum) : Datum :=
  let n := if inject then 1 else 0 in
  mkDatum title (take n (vals_ d)) (take n (shapes_ d)) (take n (fields_ d)).

(** [NewDatum(title)]: past the end of the pool, the access is undefined. *)
Definition NewDatum (title : string) : M Recorder nat :=
  r ← get;
  d ← from_option_or Undefined (data_ r !! index_ r);
  modify (set_data (<[index_ r := recycle (inject_sim_id_ r) title d]> (data_ r)));;
  modify (set_index (S (index_ r)));;
  mret (index_ r).

(** [d->AddVal(field, val)] *)
Definition DatumAddVal (p : nat) (field : string) (val : V) : M Recorder unit :=
  modify (λ r, set_data (alter (AddVal field val None) p (data_ r)) r).

(** Delivers data to every registered backend, in order of registration. *)
Definition call_back (c : list backend_call) (cs : gmap ptr (list backend_call)) (b : ptr) :
    gmap ptr (list backend_call) := <[b := default [] (cs !! b) ++ c]> cs.
Definition call_backs (c : list backend_call) (r : Recorder) : Recorder :=
  mkRecorder (data_ r) (index_ r) (backs_ r) (dump_count_ r) (uuid_ r) (inject_sim_id_ r)
    (foldl (call_back c) (calls r) (backs_ r)).

Definition NotifyBackends (r : Recorder) : Recorder :=
  call_backs [Notify (data_ r)] (set_index 0 r).

(** [AddDatum(d)], which [d->Record()] calls. *)
Definition AddDatum (p : nat) (r : Recorder) : Recorder :=
  if Nat.leb (length (data_ r)) (index_ r) then NotifyBackends r else r.
Definition DatumRecord (p : nat) : M Recorder unit := modify (AddDatum p).

Definition Flush (r : Recorder) : Recorder :=
  if Nat.eqb (index_ r) 0 then r
  else call_backs [Notify (take (index_ r) (data_ r)); BackendFlush] (set_index 0 r).

Definition RegisterBackend (b : ptr) (r : Recorder) : Recorder :=
  mkRecorder (data_ r) (index_ r) (backs_ r ++ [b]) (dump_count_ r) (uuid_ r) (inject_sim_id_ r) (calls r).

Definition Close (r : Recorder) : Recorder :=
  let r := Flush r in
  mkRecorder (data_ r) (index_ r) [] (dump_count_ r) (uuid_ r) (inject_sim_id_ r) (calls r).

(** [inject_sim_id(x)] *)
Definition set_inject_sim_id (x : bool) (r : Recorder) : Recorder :=
  if Bool.eqb x (inject_sim_id_ r) then r
  else
    let r := Flush r in
    set_dump_count (dump_count_ r)
      (mkRecorder (data_ r) (index_ r) (backs_ r) (dump_count_ r) (uuid_ r) x (calls r)).

(** The idiom all clients use: a new datum, its values, [Record()]. *)
Definition emit (title : string) (vals : list (string * V)) : M Recorder unit :=
  p ← NewDatum title;
  for_each (λ fv, DatumAddVal p fv.1 fv.2) vals;;
  DatumRecord p.

(** ** What the backends receive *)

(** The datum a client means to record. *)
Definition intended (inject : bool) (uuid : V) (e : string * list (string * V)) : Datum :=
  foldl (λ d fv, AddVal fv.1 fv.2 None d)
    (recycle inject e.1 (blank_datum inject uuid)) e.2.

(** The data delivered to a backend, in order. *)
Definition received (cs : list backend_call) : list Datum :=
  cs ≫= λ c, match c with Notify ds => ds | BackendFlush => [] end.
Definition received_by (b : ptr) (r : Recorder) : list Datum := received (default [] (calls r !! b)).

(** Every datum of the pool still starts with the injected simulation id. *)
Definition based (inject : bool) (uuid : V) (d : Datum) : Prop :=
  let d0 := blank_datum inject uuid in
  vals_ d0 `prefix_of` vals_ d ∧ shapes_ d0 `prefix_of` shapes_ d ∧ fields_ d0 `prefix_of` fields_ d.

Lemma based_AddVal inject uuid f v d : based inject uuid d → based inject uuid (AddVal f v None d).
Proof. intros (?&?&?). split_and!; cbn; by apply prefix_app_r. Qed.

Lemma recycle_based inject uuid t d :
  based inject uuid d → recycle inject t d = recycle inject t (blank_datum inject uuid).
Proof. destruct inject; intros ([? Hv] & [? Hs] & [? Hf]); cbn in *; unfold recycle; by rewrite Hv, Hs, Hf. Qed.

Lemma recycle_is_based inject uuid t : based inject uuid (recycle inject t (blank_datum inject uuid)).
Proof. by destruct inject. Qed.

Lemma intended_based inject uuid e : based inject uuid (intended inject uuid e).
Proof.
  unfold intended. generalize (recycle_is_based inject uuid e.1).
  generalize (recycle inject e.1 (blank_datum inject uuid)). induction e.2 as [|[f v] vs IH]; intros d Hd;
    [done|]. cbn [foldl]. by apply IH, based_AddVal.
Qed.

(** The state of a recorder to which the data [es] have been recorded: each
    backend has been sent a part of them, the rest is in the pool. *)
Record holds (es : list Datum) (r : Recorder) : Prop := {
  ho_pool : Forall (based (inject_sim_id_ r) (uuid_ r)) (data_ r);
  ho_room : index_ r < length (data_ r);
  ho_backs : NoDup (backs_ r);
  ho_data : ∀ b, b ∈ backs_ r → received_by b r ++ take (index_ r) (data_ r) = es
}.

Lemma call_backs_calls c bs cs b :
  NoDup bs → b ∈ bs → foldl (call_back c) cs bs !! b = Some (default [] (cs !! b) ++ c).
Proof.
  revert cs. induction bs as [|b' bs IH]; intros cs Hnd Hb; [by apply elem_of_nil in Hb|].
  apply NoDup_cons in Hnd as [Hb' Hnd]. cbn [foldl].
  destruct (decide (b ∈ bs)) as [Hin|Hn].
  - rewrite IH by done. unfold call_back. rewrite lookup_insert_ne; [done|congruence].
  - apply elem_of_cons in Hb as [->|]; [|done]. clear IH Hb'.
    assert (∀ cs : gmap ptr (list backend_call),
      foldl (call_back c) cs bs !! b' = cs !! b') as ->.
    { intros cs'. revert cs'. induction bs as [|b2 bs IH]; intros cs'; [done|]. cbn [foldl].
      rewrite IH; [|by apply NoDup_cons in Hnd as []|set_solver].
      unfold call_back. rewrite lookup_insert_ne; [done|set_solver]. }
    unfold call_back. by rewrite lookup_insert_eq.
Qed.

Lemma received_by_call_backs c r b :
  NoDup (backs_ r) → b ∈ backs_ r →
  received_by b (call_backs c r) = received_by b r ++ received c.
Proof.
  intros Hnd Hb. unfold received_by. cbn. rewrite call_backs_calls by done.
  simpl. unfold received. by rewrite bind_app.
Qed.

(** Filling in the values of a datum of the pool. *)
Lemma add_vals_run p vs r :
  for_each (λ fv, DatumAddVal p fv.1 fv.2) vs r =
  (Ret tt, set_data (alter (λ d, foldl (λ d fv, AddVal fv.1 fv.2 None d) d vs) p (data_ r)) r).
Proof.
  revert r. induction vs as [|[f v] vs IH]; intros r; cbn [for_each].
  - rewrite list_alter_id by done. by destruct r.
  - unfold m_bind. cbn. rewrite IH. cbn. by rewrite list_alter_alter_eq.
Qed.

Lemma NewDatum_run t r d :
  data_ r !! index_ r = Some d →
  NewDatum t r = (Ret (index_ r), set_data (<[index_ r := recycle (inject_sim_id_ r) t d]> (data_ r))
    (set_index (S (index_ r)) r)).
Proof. intros Hd. unfold NewDatum. rewrite (bind_ret get _ r r r eq_refl), Hd. done. Qed.

Lemma list_alter_insert {A : Type} (f : A → A) i x (l : list A) :
  alter f i (<[i := x]> l) = <[i := f x]> l.
Proof. revert i. induction l as [|y l IH]; intros [|i]; cbn; [done..|]. f_equal. apply IH. Qed.

Lemma emit_holds es e r :
  holds es r → ∃ r', emit e.1 e.2 r = (Ret tt, r') ∧
    holds (es ++ [intended (inject_sim_id_ r) (uuid_ r) e]) r' ∧
    inject_sim_id_ r' = inject_sim_id_ r ∧ uuid_ r' = uuid_ r ∧ backs_ r' = backs_ r.
Proof.
  intros [Hpool Hroom Hnd Hdata]. destruct (lookup_lt_is_Some_2 _ _ Hroom) as [d Hd].
  pose proof (Forall_lookup_1 _ _ _ _ Hpool Hd) as Hbased.
  set (new := intended (inject_sim_id_ r) (uuid_ r) e).
  set (ds := <[index_ r := new]> (data_ r)).
  set (r1 := set_data ds (set_index (S (index_ r)) r)).
  assert (emit e.1 e.2 r = (Ret tt, AddDatum (index_ r) r1)) as Hrun.
  { unfold emit. rewrite (bind_ret _ _ _ _ _ (NewDatum_run e.1 r d Hd)).
    rewrite (bind_ret _ _ _ _ _ (add_vals_run _ _ _)). unfold DatumRecord, modify.
    unfold r1, ds, set_data. cbn [data_ set_index]. rewrite list_alter_insert. unfold new, intended. by rewrite <-(recycle_based _ _ _ _ Hbased). }
  assert (Forall (based (inject_sim_id_ r) (uuid_ r)) ds) as Hpool1.
  { apply Forall_insert; [done|apply intended_based]. }
  assert (length ds = length (data_ r)) as Hlen by apply length_insert.
  assert (take (S (index_ r)) ds = take (index_ r) (data_ r) ++ [new]) as Htake.
  { erewrite take_S_r by (apply list_lookup_insert_eq; lia). f_equal.
    unfold ds. by rewrite take_insert_ge. }
  eexists. split; [exact Hrun|]. unfold AddDatum. cbn. fold ds. rewrite Hlen.
  destruct (Nat.leb_spec (length (data_ r)) (S (index_ r))) as [Hfull|Hfree].
  - split_and!; try done. split; cbn; try done; [lia|].
    intros b Hb. rewrite app_nil_r. unfold NotifyBackends.
    rewrite received_by_call_backs by done. cbn. rewrite app_nil_r.
    rewrite <-(Hdata b Hb), <-app_assoc, <-Htake. f_equal.
    rewrite firstn_all2; [done|]. fold ds. lia.
  - split_and!; try done. split; cbn; try done; [by rewrite Hlen|].
    intros b Hb. fold ds. rewrite Htake, app_assoc. f_equal. by apply Hdata.
Qed.

Lemma Flush_received es r b :
  holds es r → b ∈ backs_ r → received_by b (Flush r) = es.
Proof.
  intros [_ _ Hnd Hdata] Hb. rewrite <-(Hdata b Hb). unfold Flush.
  destruct (Nat.eqb_spec (index_ r) 0) as [->|_]; [by rewrite app_nil_r|].
  rewrite received_by_call_backs by done. cbn. by rewrite app_nil_r.
Qed.

Lemma register_holds n uuid bs :
  0 < n → NoDup bs →
  let r := foldl (λ r b, RegisterBackend b r) (new_recorder_count n uuid) bs in
  holds [] r ∧ backs_ r = bs ∧ inject_sim_id_ r = true ∧ uuid_ r = uuid ∧ length (data_ r) = n.
Proof.
  intros Hn Hnd. set (r0 := new_recorder_count n uuid).
  assert (∀ bs r, let r' := foldl (λ r b, RegisterBackend b r) r bs in
    data_ r' = data_ r ∧ index_ r' = index_ r ∧ backs_ r' = backs_ r ++ bs ∧ uuid_ r' = uuid_ r ∧
    inject_sim_id_ r' = inject_sim_id_ r ∧ calls r' = calls r) as Hreg.
  { clear. intros bs. induction bs as [|b bs IH]; intros r; cbn [foldl]; [by rewrite app_nil_r|].
    destruct (IH (RegisterBackend b r)) as (?&?&Hb&?&?&?). split_and!; try done.
    rewrite Hb. cbn. by rewrite <-app_assoc. }
  destruct (Hreg bs r0) as (Hd & Hi & Hb & Hu & Hinj & Hc). cbn zeta. split_and!; try done.
  - split; rewrite ?Hd, ?Hi, ?Hb, ?Hu, ?Hinj; cbn.
    + apply Forall_replicate. split_and!; reflexivity.
    + by rewrite length_replicate.
    + done.
    + intros b _. unfold received_by. by rewrite Hc.
  - rewrite Hd. apply length_replicate.
Qed.

Lemma emit_all_holds es es0 r :
  holds es0 r → ∃ r', for_each (λ e, emit e.1 e.2) es r = (Ret tt, r') ∧
    holds (es0 ++ map (intended (inject_sim_id_ r) (uuid_ r)) es) r' ∧ backs_ r' = backs_ r.
Proof.
  revert es0 r. induction es as [|e es IH]; intros es0 r Hr; cbn [for_each map].
  { exists r. by rewrite app_nil_r. }
  destruct (emit_holds es0 e r Hr) as (r1 & He & Hh & Hi & Hu & Hb).
  destruct (IH _ _ Hh) as (r2 & Hes & Hh2 & Hb2). exists r2. split_and!; [| |congruence].
  - unfold m_bind. by rewrite He.
  - rewrite Hi, Hu in Hh2. by rewrite <-app_assoc in Hh2.
Qed.

(** C17.  Whatever the (positive) buffer size, every registered backend receives
    every recorded datum, with its title, simulation id and values, exactly once
    and in the order of recording: after any number of recordings it has received
    a prefix of them that misses fewer data than the buffer holds, and after a
    flush all of them. *)
Theorem recorder_delivers n uuid bs es :
  0 < n → NoDup bs →
  ∃ r, for_each (λ e, emit e.1 e.2) es
         (foldl (λ r b, RegisterBackend b r) (new_recorder_count n uuid) bs) = (Ret tt, r) ∧
    ∀ b, b ∈ bs →
      (∃ rest, received_by b r ++ rest = map (intended true uuid) es ∧
               length rest < length (data_ r)) ∧
      received_by b (Flush r) = map (intended true uuid) es.
Proof.
  intros Hn Hnd. destruct (register_holds n uuid bs Hn Hnd) as (Hh & Hb & Hi & Hu & _).
  destruct (emit_all_holds es _ _ Hh) as (r & Hr & Hh' & Hb'). exists r. split; [done|].
  rewrite Hb in Hb'. rewrite Hi, Hu in Hh'. simpl in Hh'. intros b Hin.
  assert (b ∈ backs_ r) as Hin' by (by rewrite Hb'). split; [|by apply Flush_received].
  exists (take (index_ r) (data_ r)). split; [by apply Hh'|].
  rewrite length_take. pose proof (ho_room _ _ Hh'). lia.
Qed.

(** Changing the buffer size replaces the pool but keeps the position in it:
    afterwards [NewDatum] is out of bounds unless the new size is larger than the
    number of data that were buffered (never, for size zero), and a flush delivers
    one blank datum for each of the data that were dropped. *)
Theorem set_dump_count_stale_index m (r : Recorder) :
  (m ≤ index_ r → ∀ t, NewDatum t (set_dump_count m r) = (Throw Undefined, set_dump_count m r)) ∧
  (0 < index_ r ≤ m → ∀ b, NoDup (backs_ r) → b ∈ backs_ r →
     received_by b (Flush (set_dump_count m r)) =
     received_by b r ++ replicate (index_ r) (blank_datum (inject_sim_id_ r) (uuid_ r))).
Proof.
  split.
  - intros Hm t. unfold NewDatum. rewrite (bind_ret get _ _ _ _ eq_refl).
    assert (data_ (set_dump_count m r) !! index_ r = None) as Hnone.
    { apply lookup_ge_None_2. cbn. rewrite length_replicate. lia. }
    change (index_ (set_dump_count m r)) with (index_ r). by rewrite Hnone.
  - intros Hm b Hnd Hb. unfold Flush. change (index_ (set_dump_count m r)) with (index_ r).
    rewrite (proj2 (Nat.eqb_neq _ 0)) by lia. rewrite received_by_call_backs by done.
    cbn. rewrite app_nil_r, take_replicate. by rewrite Nat.min_l by lia.
Qed.
End recorder.
Arguments Datum V : clear implicits.
Arguments Recorder V : clear implicits.
Arguments backend_call V : clear implicits.

(** ** Witnesses *)
Lemma recorder_delivers_witness :
  ∃ r, for_each (λ e, emit e.1 e.2) [("A", [("x", 1%Z)]); ("B", []); ("C", [("y", 2%Z)])]
         (foldl (λ r b, RegisterBackend b r) (new_recorder_count 2 7%Z) [10%Z]) = (Ret tt, r) ∧
    ∀ b, b ∈ [10%Z] →
      (∃ rest, received_by b r ++ rest =
         map (intended true 7%Z) [("A", [("x", 1%Z)]); ("B", []); ("C", [("y", 2%Z)])] ∧
         length rest < length (data_ r)) ∧
      received_by b (Flush r) =
         map (intended true 7%Z) [("A", [("x", 1%Z)]); ("B", []); ("C", [("y", 2%Z)])].
Proof. apply recorder_delivers; [lia|apply NoDup_singleton]. Defined.

Lemma set_dump_count_stale_index_witness :
  let r := RegisterBackend 10%Z (set_index 1 (new_recorder_count 2 7%Z)) in
  NewDatum "A" (set_dump_count 1 r) = (Throw Undefined, set_dump_count 1 r) ∧
  received_by 10%Z (Flush (set_dump_count 3 r)) = [blank_datum true 7%Z].
Proof.
  split.
  - apply (proj1 (set_dump_count_stale_index 1 _)). simpl. lia.
  - refine (proj2 (set_dump_count_stale_index 3 _) _ 10%Z _ _); [simpl; lia|apply NoDup_singleton|].
    by apply list_elem_of_singleton.
Defined.
