(* ===== verification/AgentSpec.v ===== *)
(** * Agent specifications

    [AgentSpec] of [src/src/dynamic_module.h] and [.cc]: the path, library and name
    of an archetype, written as one string [path:lib:agent]. *)

From Stdlib Require Import ZArith Lia String Ascii.
From stdpp Require Import base list strings.
From S2P Require Import Prelude.
Local Open Scope string_scope.

(** ** Strings *)

(** [boost::split(strs, s, boost::is_any_of(c))] *)
Fixpoint split_on (c : ascii) (s : string) : list string :=
  match s with
  | EmptyString => [""]
  | String a s' =>
      if decide (a = c) then "" :: split_on c s'
      else match split_on c s' with
           | [] => [String a ""]
           | w :: ws => String a w :: ws
           end
  end.

(** [boost::replace_all(s, c, d)] of one character by another *)
Fixpoint replace_all (c d : ascii) (s : string) : string :=
  match s with
  | EmptyString => ""
  | String a s' => String (if decide (a = c) then d else a) (replace_all c d s')
  end.

Fixpoint has_char (c : ascii) (s : string) : bool :=
  match s with
  | EmptyString => false
  | String a s' => bool_decide (a = c) || has_char c s'
  end.

(** ** Specifications *)
Record AgentSpec := mkSpec {
  path_ : string;
  lib_ : string;
  agent_ : string;
  alias_ : string
}.

(** [AgentSpec(path, lib, agent, alias)]: an empty library is the agent; an empty
    alias stays empty, the assignment is to the parameter. *)
Definition spec_of_parts (path lib agent alias : string) : AgentSpec :=
  mkSpec path (if decide (lib = "") then agent else lib) agent alias.

(** [AgentSpec(str_spec)] *)
Definition spec_of_string (str_spec : string) : outcome AgentSpec :=
  match split_on ":" str_spec with
  | [p; l; a] => Ret (mkSpec p l a a)
  | _ => Throw ValueError
  end.

Definition spec_str (a : AgentSpec) : string := path_ a ++ ":" ++ lib_ a ++ ":" ++ agent_ a.

Definition Sanitize (a : AgentSpec) : string :=
  replace_all "." "_" (replace_all ":" "_" (replace_all "-" "_" (replace_all "/" "_" (spec_str a)))).

(** ** Laws *)
Lemma split_on_app c (s1 s2 : string) :
  has_char c s1 = false → split_on c (s1 ++ String c s2) = s1 :: split_on c s2.
Proof.
  induction s1 as [|a s1 IH].
  - intros _. change ("" ++ String c s2) with (String c s2). cbn [split_on]. by rewrite decide_True.
  - change (String a s1 ++ String c s2) with (String a (s1 ++ String c s2)). cbn [split_on has_char].
    intros [Ha Hs]%orb_false_iff. rewrite decide_False by (by apply bool_decide_eq_false in Ha).
    by rewrite IH.
Qed.

Lemma split_on_none c (s : string) : has_char c s = false → split_on c s = [s].
Proof.
  induction s as [|a s IH]; cbn [split_on has_char]; [done|].
  intros [Ha Hs]%orb_false_iff. rewrite decide_False by (by apply bool_decide_eq_false in Ha).
  by rewrite IH.
Qed.

Lemma replace_all_char c d e s :
  has_char e (replace_all c d s) = true → e ≠ c ∨ e = d.
Proof.
  induction s as [|a s IH]; cbn [replace_all has_char]; [done|]. intros [Ha|Hs]%orb_true_iff; [|by apply IH].
  apply bool_decide_eq_true in Ha as <-. destruct (decide (a = c)); [by right|by left].
Qed.

(** Joining the pieces again. *)
Fixpoint join_with (c : ascii) (l : list string) : string :=
  match l with
  | [] => ""
  | [w] => w
  | w :: ws => w ++ String c (join_with c ws)
  end.
Lemma split_on_cons c s : ∃ w ws, split_on c s = w :: ws.
Proof.
  destruct s as [|a s]; cbn [split_on]; [by eexists _, _|].
  destruct (decide (a = c)); [by eexists _, _|]. destruct (split_on c s); by eexists _, _.
Qed.
Lemma join_split c s : join_with c (split_on c s) = s.
Proof.
  induction s as [|a s IH]; cbn [split_on]; [done|]. destruct (split_on_cons c s) as (w & ws & Hs). rewrite Hs in *.
  destruct (decide (a = c)) as [->|Hne].
  - change (join_with c ("" :: w :: ws)) with (String c (join_with c (w :: ws))). by rewrite IH.
  - rewrite <-IH. by destruct ws.
Qed.

Lemma replace_all_clean c d s : c ≠ d → has_char c (replace_all c d s) = false.
Proof.
  intros Hne. destruct (has_char c (replace_all c d s)) eqn:Hh; [|done]. by apply replace_all_char in Hh as [|].
Qed.
Lemma replace_all_keeps c d e s : e ≠ d → has_char e s = false → has_char e (replace_all c d s) = false.
Proof.
  intros Hne. induction s as [|a s IH]; cbn [replace_all has_char]; [done|]. intros [Ha Hs]%orb_false_iff.
  rewrite IH by done. apply bool_decide_eq_false in Ha. destruct (decide (a = c)); by rewrite bool_decide_eq_false_2.
Qed.
