(* ===== verification/CompMath.v ===== *)
(** * Arithmetic on nuclide vectors

    [src/src/comp_math.h] and [.cc]: addition, normalisation, thresholds and
    comparison of maps from nuclides to quantities. *)

From Stdlib Require Import QArith Qabs Lqa ZArith Lia.
From stdpp Require Import base list gmap strings.
From S2P Require Import Prelude Num Arithmetic.

(** [Nuc] and [CompMap] *)
Abbreviation CompMap F := (gmap Z F).

(** [pyne::nucname::isnuclide], what the compositions ask of the names of nuclides
    ([NuclideProperties] has the instance of the sources). *)
Class NucName := isnuclide : Z → bool.

Module compmath.
Section compmath.
Context {F : Type} `{Num F}.
Implicit Types (v : CompMap F).

Definition Add v1 v2 : CompMap F :=
  foldl (λ out kv, <[kv.1 := (at_default (nZ 0) out kv.1 + kv.2)%D]> out) v1 (in_order v2).

Definition Sub v1 v2 : CompMap F :=
  foldl (λ out kv, <[kv.1 := (at_default (nZ 0) out kv.1 - kv.2)%D]> out) v1 (in_order v2).

Definition Sum v : F := KahanSum (in_order v).*2.

(** [ApplyThreshold(v, threshold)]: drops the nuclides of which there is no more
    than the threshold. *)
Definition keeps (threshold : F) (kv : Z * F) : Prop := (nabs kv.2 <=? threshold)%D = false.
#[global] Instance keeps_dec t kv : Decision (keeps t kv).
Proof. unfold keeps. apply _. Defined.

Definition ApplyThreshold v (threshold : F) : outcome (CompMap F) :=
  if (threshold <? nZ 0)%D then Throw ValueError
  else Ret (filter (keeps threshold) v).

Definition Normalize v (val : F) : CompMap F :=
  let sum := Sum v in
  if ((sum !=? val) && (sum !=? nZ 0))%D then
    let mult := (val / sum)%D in (λ x, (x * mult)%D) <$> v
  else v.

Definition ValidNucs `{NucName} v : bool := forallb (λ kv, isnuclide kv.1) (in_order v).
Definition AllPositive v : bool := forallb (λ kv, negb (kv.2 <? nZ 0)%D) (in_order v).

(** [AlmostEq(v1, v2, threshold)] *)
Definition nuc_almost_eq (minuend subtrahend threshold : F) : bool :=
  let diff := (minuend - subtrahend)%D in
  if ((nabs minuend =? nZ 0) || (nabs subtrahend =? nZ 0))%D then
    negb (nabs diff >? nabs diff * threshold)%D
  else
    negb ((nabs diff >? nabs minuend * threshold) || (nabs diff >? nabs subtrahend * threshold))%D.

Definition CompAlmostEq v1 v2 (threshold : F) : outcome bool :=
  if (threshold <? nZ 0)%D then Throw ValueError
  else if negb (Nat.eqb (size v1) (size v2)) then Ret false
  else if Nat.eqb (size v1) 0 && Nat.eqb (size v2) 0 then Ret true
  else Ret (forallb (λ kv,
    match v2 !! kv.1 with
    | None => false
    | Some minuend => nuc_almost_eq minuend kv.2 threshold
    end) (in_order v1)).
End compmath.
End compmath.
Import compmath.

(** ** Exact arithmetic *)
Section exact.
Local Open Scope Q_scope.
Implicit Types (v : CompMap xq).

(** The quantity of a nuclide, and the total. *)
Definition nuc_val v (n : Z) : Q := val (at_default (nZ 0) v n).
Definition total v : Q := sumQ (map (λ kv, val kv.2) (map_to_list v)).
Definition all_finite v : Prop := map_Forall (λ _ x, finite x) v.

Lemma all_finite_at v n : all_finite v → finite (at_default (nZ 0) v n).
Proof. intros Hv. unfold at_default. destruct (v !! n) eqn:E; [by apply (Hv n)|done]. Qed.

Lemma total_insert_fresh v n x : v !! n = None → total (<[n := x]> v) == val x + total v.
Proof.
  intros Hn. unfold total.
  rewrite (sumQ_perm _ _ (Permutation_map _ (map_to_list_insert v n x Hn))). reflexivity.
Qed.

Lemma total_insert v n x : total (<[n := x]> v) == total v - nuc_val v n + val x.
Proof.
  unfold nuc_val, at_default. destruct (v !! n) as [y|] eqn:E.
  - rewrite <-(insert_delete_eq v n x), total_insert_fresh by apply lookup_delete_eq.
    assert (total v == val y + total (delete n v)) as ->; [|simpl; lra].
    rewrite <-(insert_id v n y E) at 1. rewrite <-(insert_delete_eq v n y).
    apply total_insert_fresh, lookup_delete_eq.
  - rewrite total_insert_fresh by done. change (val (default (nZ 0) None)) with 0. lra.
Qed.

Lemma nuc_val_insert v n x n' :
  nuc_val (<[n := x]> v) n' = if decide (n = n') then val x else nuc_val v n'.
Proof. unfold nuc_val, at_default. rewrite lookup_insert. by destruct (decide _). Qed.

(** The sum of the values a list of nuclides gives to one of them. *)
Definition list_val (l : list (Z * xq)) (n : Z) : Q :=
  sumQ (map (λ kv : Z * xq, if decide (kv.1 = n) then val kv.2 else 0) l).

Lemma list_val_cons kv l n :
  list_val (kv :: l) n = (if decide (kv.1 = n) then val kv.2 else 0) + list_val l n.
Proof. done. Qed.

Lemma list_val_in_order v n : list_val (in_order v) n == nuc_val v n.
Proof.
  unfold list_val. rewrite (sumQ_perm _ _ (Permutation_map _ (in_order_perm v))).
  induction v as [|k x v Hk IH] using map_ind.
  { unfold nuc_val, at_default. by rewrite map_to_list_empty, lookup_empty. }
  rewrite (sumQ_perm _ _ (Permutation_map _ (map_to_list_insert v k x Hk))). cbn [map fst snd].
  cbn [sumQ foldr]. rewrite nuc_val_insert.
  destruct (decide (k = n)) as [<-|]; [|rewrite IH; lra].
  rewrite IH. unfold nuc_val, at_default. rewrite Hk. change (val (default (nZ 0) None)) with 0. lra.
Qed.

Lemma total_in_order v : sumQ (map (λ kv : Z * xq, val kv.2) (in_order v)) == total v.
Proof. apply sumQ_perm, Permutation_map, in_order_perm. Qed.

Lemma in_order_finite v : all_finite v ↔ Forall (λ kv, finite kv.2) (in_order v).
Proof.
  unfold all_finite. rewrite map_Forall_to_list, <-in_order_perm.
  by rewrite !Forall_forall; split; intros Hv [k x] Hin; apply (Hv (k, x) Hin).
Qed.

Lemma Sum_fin v : all_finite v → Sum v ≃ total v.
Proof.
  intros Hv. eapply is_fin_weaken; [apply KahanSum_fin|].
  - apply Forall_fmap. apply in_order_finite in Hv. eapply Forall_impl; [exact Hv|]. done.
  - rewrite <-total_in_order. unfold vals. by rewrite map_map.
Qed.

(** Folding the entries of a list into a map, as [Add] and [Sub] do. *)
Section fold.
Context (op : xq → xq → xq) (sgn : Q).
Hypothesis op_fin : ∀ x y, finite x → finite y → op x y ≃ val x + sgn * val y.
Let step (out : CompMap xq) (kv : Z * xq) : CompMap xq :=
  <[kv.1 := op (at_default (nZ 0) out kv.1) kv.2]> out.

Lemma fold_entries l v :
  all_finite v → Forall (λ kv, finite kv.2) l →
  all_finite (foldl step v l) ∧
  (∀ n, nuc_val (foldl step v l) n == nuc_val v n + sgn * list_val l n) ∧
  total (foldl step v l) == total v + sgn * sumQ (map (λ kv : Z * xq, val kv.2) l).
Proof.
  revert v. induction l as [|[k x] l IH]; intros v Hv Hl; cbn [foldl].
  { split_and!; [done| |]; intros; unfold list_val; cbn [map sumQ foldr]; lra. }
  inversion Hl as [|? ? Hx Hl']; subst. cbn [snd] in Hx.
  pose proof (op_fin _ x (all_finite_at v k Hv) Hx) as Hop.
  assert (all_finite (step v (k, x))) as Hs.
  { apply map_Forall_insert_2; [|done]. by eapply is_fin_finite. }
  destruct (IH _ Hs Hl') as (Hf & Hn & Ht). split_and!; [done| |].
  - intros n. rewrite Hn. unfold step at 1. cbn [fst snd]. rewrite nuc_val_insert.
    rewrite list_val_cons. cbn [fst snd].
    destruct (decide (k = n)) as [<-|]; [rewrite (is_fin_val _ _ Hop); unfold nuc_val; lra|lra].
  - rewrite Ht. unfold step at 1. cbn [fst snd]. rewrite total_insert, (is_fin_val _ _ Hop).
    cbn [map]. rewrite sumQ_cons. cbn [snd]. unfold nuc_val. lra.
Qed.
End fold.

Lemma Add_exact v1 v2 :
  all_finite v1 → all_finite v2 →
  all_finite (Add v1 v2) ∧ (∀ n, nuc_val (Add v1 v2) n == nuc_val v1 n + nuc_val v2 n) ∧
  total (Add v1 v2) == total v1 + total v2.
Proof.
  intros H1 H2. apply in_order_finite in H2.
  assert (∀ x y : xq, finite x → finite y → (x + y)%D ≃ val x + 1 * val y) as Hop.
  { intros x y Hx Hy. eapply is_fin_weaken; [exact (fin_add Hx Hy)|]. lra. }
  destruct (fold_entries nadd 1 Hop (in_order v2) v1 H1 H2) as (Hf & Hn & Ht). split_and!; [done| |].
  - intros n. unfold Add. rewrite (Hn n), list_val_in_order. lra.
  - unfold Add. rewrite Ht, total_in_order. lra.
Qed.

Lemma Sub_exact v1 v2 :
  all_finite v1 → all_finite v2 →
  all_finite (Sub v1 v2) ∧ (∀ n, nuc_val (Sub v1 v2) n == nuc_val v1 n - nuc_val v2 n) ∧
  total (Sub v1 v2) == total v1 - total v2.
Proof.
  intros H1 H2. apply in_order_finite in H2.
  assert (∀ x y : xq, finite x → finite y → (x - y)%D ≃ val x + (-1) * val y) as Hop.
  { intros x y Hx Hy. eapply is_fin_weaken; [exact (fin_sub Hx Hy)|]. lra. }
  destruct (fold_entries nsub (-1) Hop (in_order v2) v1 H1 H2) as (Hf & Hn & Ht). split_and!; [done| |].
  - intros n. unfold Sub. rewrite (Hn n), list_val_in_order. lra.
  - unfold Sub. rewrite Ht, total_in_order. lra.
Qed.

(** Scaling a vector. *)
Lemma scale_exact v (m : xq) (k : Q) :
  all_finite v → m ≃ k → let v' := (λ x, (x * m)%D) <$> v in
  all_finite v' ∧ (∀ n, nuc_val v' n == nuc_val v n * k) ∧ total v' == total v * k.
Proof.
  intros Hv Hm v'. split_and!.
  - intros n x. unfold v'. rewrite lookup_fmap_Some. intros (y & <- & Hy).
    by eapply is_fin_finite, fin_mul; [apply (Hv n y Hy)|].
  - intros n. unfold nuc_val, at_default, v'. rewrite lookup_fmap.
    destruct (v !! n) as [x|] eqn:E; cbn [option_fmap option_map fmap default].
    + exact (is_fin_val _ _ (fin_mul (Hv n x E) Hm)).
    + change (0 == 0 * k). lra.
  - unfold total, v'. rewrite map_to_list_fmap, map_map, <-sumQ_map_mult.
    apply sumQ_map_ext. intros [n x] Hin. apply elem_of_map_to_list in Hin.
    exact (is_fin_val _ _ (fin_mul (Hv n x Hin) Hm)).
Qed.

Lemma Normalize_exact v x q :
  all_finite v → x ≃ q → ¬ total v == 0 →
  all_finite (Normalize v x) ∧
  (∀ n, nuc_val (Normalize v x) n == nuc_val v n * (q / total v)) ∧
  total (Normalize v x) == q.
Proof.
  intros Hv Hx Ht. pose proof (Sum_fin v Hv) as Hs. unfold Normalize.
  rewrite (eqb_fin Hs Hx), (eqb_fin Hs (fin_Z 0)). change (inject_Z 0) with 0.
  destruct (Qeq_bool (total v) 0) eqn:E0; [by apply Qeq_bool_iff in E0|].
  destruct (Qeq_bool (total v) q) eqn:E; cbn [negb andb].
  - apply Qeq_bool_iff in E. split_and!; [done| |done].
    intros n. rewrite E. assert (q / q == 1) as -> by (field; rewrite <-E; done). lra.
  - destruct (scale_exact v _ _ Hv (fin_div Hx Hs Ht)) as (Hf & Hn & Htot).
    split_and!; [done|done|]. rewrite Htot. field. done.
Qed.

(** A vector whose sum is zero is left alone. *)
Lemma Normalize_zero v x : all_finite v → total v == 0 → Normalize v x = v.
Proof.
  intros Hv Ht. unfold Normalize. rewrite (eqb_fin (Sum_fin v Hv) (fin_Z 0)).
  apply Qeq_bool_iff in Ht. change (inject_Z 0) with 0. rewrite Ht. by rewrite andb_false_r.
Qed.

Lemma AllPositive_spec v :
  all_finite v → AllPositive v = true ↔ ∀ n, 0 <= nuc_val v n.
Proof.
  intros Hv. unfold AllPositive. rewrite forallb_forall. split.
  - intros Hp n. unfold nuc_val, at_default. destruct (v !! n) as [x|] eqn:E; [|done].
    specialize (Hp (n, x)). rewrite <-list_elem_of_In, elem_of_in_order in Hp.
    specialize (Hp E). apply negb_true_iff in Hp. exact (fin_ltb_false (Hv n x E) (fin_Z 0) Hp).
  - intros Hp [n x] Hin. rewrite <-list_elem_of_In, elem_of_in_order in Hin.
    apply negb_true_iff. cbn [snd]. rewrite (ltb_fin (Hv n x Hin) (fin_Z 0)). apply Qltb_ge.
    specialize (Hp n). unfold nuc_val, at_default in Hp. by rewrite Hin in Hp.
Qed.

Lemma ApplyThreshold_spec v x t :
  all_finite v → x ≃ t → 0 <= t →
  ∃ v', ApplyThreshold v x = Ret v' ∧ all_finite v' ∧
    ∀ n, nuc_val v' n == if Qle_bool (Qabs (nuc_val v n)) t then 0 else nuc_val v n.
Proof.
  intros Hv Hx Ht. unfold ApplyThreshold. rewrite (ltb_fin Hx (fin_Z 0)).
  rewrite (proj2 (Qltb_ge _ _)) by exact Ht. eexists. split_and!; [done| |].
  - intros n y [Hy _]%map_lookup_filter_Some. by apply (Hv n).
  - intros n. unfold nuc_val, at_default. destruct (v !! n) as [y|] eqn:E.
    + pose proof (leb_fin (fin_abs (Hv n y E)) Hx) as Hle. cbn [default from_option].
      change (id y) with y. destruct (Qle_bool (Qabs (val y)) t) eqn:Eq.
      * rewrite (proj2 (map_lookup_filter_None _ _ _)); [reflexivity|]. right.
        intros y' Hy' Hk. simplify_eq. unfold keeps in Hk. cbn [snd] in Hk. congruence.
      * by rewrite (proj2 (map_lookup_filter_Some _ _ _ y)).
    + rewrite (proj2 (map_lookup_filter_None _ _ _)) by (by left). cbn [default].
      destruct (Qle_bool _ _); reflexivity.
Qed.

(** Which nuclides occur. *)
Lemma ValidNucs_spec `{NucName} v :
  ValidNucs v = true ↔ ∀ n, is_Some (v !! n) → isnuclide n = true.
Proof.
  unfold ValidNucs. rewrite forallb_forall. split.
  - intros Hv n [x Hx]. apply (Hv (n, x)). by rewrite <-list_elem_of_In, elem_of_in_order.
  - intros Hv [n x] Hin. rewrite <-list_elem_of_In, elem_of_in_order in Hin. apply Hv. by exists x.
Qed.

Lemma fold_entries_dom (op : xq → xq → xq) l v n :
  is_Some (foldl (λ out kv, <[kv.1 := op (at_default (nZ 0) out kv.1) kv.2]> out) v l !! n) →
  is_Some (v !! n) ∨ n ∈ l.*1.
Proof.
  revert v. induction l as [|[k x] l IH]; intros v; cbn [foldl]; [by left|].
  intros [Hv|Hv]%IH; [|right; by right]. rewrite lookup_insert in Hv. cbn [fst snd] in *.
  destruct (decide (k = n)) as [->|]; [right; by left|by left].
Qed.

Lemma in_order_dom v n : n ∈ (in_order v).*1 → is_Some (v !! n).
Proof. intros ([k x] & -> & Hin)%list_elem_of_fmap. apply elem_of_in_order in Hin. by exists x. Qed.

Lemma Add_dom v1 v2 n : is_Some (Add v1 v2 !! n) → is_Some (v1 !! n) ∨ is_Some (v2 !! n).
Proof. intros [?|?%in_order_dom]%(fold_entries_dom nadd); auto. Qed.
Lemma Sub_dom v1 v2 n : is_Some (Sub v1 v2 !! n) → is_Some (v1 !! n) ∨ is_Some (v2 !! n).
Proof. intros [?|?%in_order_dom]%(fold_entries_dom nsub); auto. Qed.
Lemma Normalize_dom v x n : is_Some (Normalize v x !! n) ↔ is_Some (v !! n).
Proof. unfold Normalize. destruct (_ && _); [|done]. by rewrite lookup_fmap, fmap_is_Some. Qed.
Lemma ApplyThreshold_dom v v' x n :
  ApplyThreshold v x = Ret v' → is_Some (v' !! n) → is_Some (v !! n).
Proof.
  unfold ApplyThreshold. destruct (_ <? _)%D; [done|]. intros [= <-] [y Hy].
  apply map_lookup_filter_Some in Hy as [Hy _]. by exists y.
Qed.

(** The total only depends on the quantities of the nuclides. *)
Lemma total_delete v n : total v == nuc_val v n + total (delete n v).
Proof.
  destruct (v !! n) as [x|] eqn:E.
  - rewrite <-(insert_id v n x E) at 1. rewrite <-(insert_delete_eq v n x).
    rewrite total_insert_fresh by apply lookup_delete_eq. unfold nuc_val, at_default. rewrite E. done.
  - rewrite delete_id by done. unfold nuc_val, at_default. rewrite E.
    change (val (default (nZ 0) None)) with 0. lra.
Qed.

Lemma nuc_val_delete v n n' :
  nuc_val (delete n v) n' = if decide (n = n') then 0 else nuc_val v n'.
Proof. unfold nuc_val, at_default. rewrite lookup_delete. by destruct (decide _). Qed.

Lemma total_zero v : (∀ n, nuc_val v n == 0) → total v == 0.
Proof.
  induction v as [|n x v Hn IH] using map_ind; intros Hz; [reflexivity|].
  assert (total v == 0) as Hv.
  { apply IH. intros n'. specialize (Hz n'). rewrite nuc_val_insert in Hz.
    destruct (decide (n = n')) as [<-|]; [|done].
    unfold nuc_val, at_default. rewrite Hn. reflexivity. }
  rewrite total_insert_fresh by done. specialize (Hz n).
  rewrite nuc_val_insert, decide_True in Hz by done. lra.
Qed.

Lemma total_ext v v' : (∀ n, nuc_val v n == nuc_val v' n) → total v == total v'.
Proof.
  revert v'. induction v as [|n x v Hn IH] using map_ind; intros v' Hext.
  - symmetry. apply total_zero. intros n. rewrite <-Hext. reflexivity.
  - rewrite total_insert_fresh, (total_delete v' n), <-(Hext n), nuc_val_insert, decide_True by done.
    assert (total v == total (delete n v')) as Hv; [|lra]. apply IH. intros n'. rewrite nuc_val_delete.
    specialize (Hext n'). rewrite nuc_val_insert in Hext. destruct (decide (n = n')) as [<-|]; [|done].
    unfold nuc_val, at_default. rewrite Hn. reflexivity.
Qed.
End exact.
