(* ===== verification/NuclideProperties.v ===== *)
(** * Properties of nuclide names

    The forms that [pyne::nucname] writes are read back, with the exceptions the
    theorems name, and the keys that a composition accepts are nuclides.  Each theorem
    with hypotheses is applied to a concrete nuclide in the lemma that follows it. *)

From stdpp Require Import base list gmap strings pretty.
From Stdlib Require Import ZArith Lia Ascii.
From S2P Require Import Prelude Num Nuclides NuclideTheory CompMath.
Import utils nucname.
Local Open Scope Z_scope.
Local Infix "rem" := Z.rem (at level 40, left associativity) : Z_scope.

(** The form that [write] gives a nuclide is read by [read] as [n]. *)
Definition read_back {A} (write : Z → outcome A) (read : A → outcome Z) (nuc n : Z) : Prop :=
  ∃ form, write nuc = Ret form ∧ read form = Ret n.

Section written.
Context (z a s : Z) (ll : string).
Hypothesis (Hll : zz_name !! z = Some ll) (Hform : in_form z a s).

Lemma write_parts : id (nuclide z a s) = Ret (nuclide z a s) ∧ element_of (nuclide z a s) = Ret ll ∧
  (0 <? a) = true ∧ (0 <? a * 10000 + s) = true.
Proof.
  unfold element_of. rewrite (nuclide_z _ _ _ Hform), Hll. unfold in_form in Hform.
  split_and!; [by apply id_nuclide|done|lia..].
Qed.

Lemma name_written : name (nuclide z a s) = Ret (ll +:+ to_str a +:+ flag s).
Proof.
  destruct write_parts as (Hid & Hel & Ha & _). unfold name.
  rewrite Hid, bind_Ret, Hel, bind_Ret, (nuclide_a _ _ _ Hform), (nuclide_s _ _ _ Hform), Ha. done.
Qed.
Lemma zzllaaam_written :
  zzllaaam (nuclide z a s) = Ret (to_str z +:+ "-" +:+ ll +:+ "-" +:+ to_str a +:+ when (0 <? s) "m").
Proof.
  destruct write_parts as (Hid & Hel & _ & Ha). unfold zzllaaam. rewrite Hid, bind_Ret, Hel, bind_Ret.
  rewrite (nuclide_a _ _ _ Hform), (nuclide_s _ _ _ Hform), (nuclide_z _ _ _ Hform), (nuclide_as _ _ _ Hform), Ha. done.
Qed.
Lemma serpent_written : serpent (nuclide z a s) = Ret (ll +:+ "-" +:+ to_str a +:+ when (0 <? s) "m").
Proof.
  destruct write_parts as (Hid & Hel & _ & Ha). unfold serpent. rewrite Hid, bind_Ret, Hel, bind_Ret.
  rewrite (nuclide_a _ _ _ Hform), (nuclide_s _ _ _ Hform), (nuclide_as _ _ _ Hform), Ha.
  by rewrite (sym_case _ _ (zz_name_symbol _ _ Hll)).
Qed.
Lemma nist_written : nist (nuclide z a s) = Ret (to_str a +:+ ll).
Proof.
  destruct write_parts as (Hid & Hel & _ & Ha). unfold nist. rewrite Hid, bind_Ret, Hel, bind_Ret.
  rewrite (nuclide_a _ _ _ Hform), (nuclide_as _ _ _ Hform), Ha.
  by rewrite (sym_case _ _ (zz_name_symbol _ _ Hll)).
Qed.
Lemma alara_written : alara (nuclide z a s) = Ret (to_lower ll +:+ ":" +:+ to_str a).
Proof.
  destruct write_parts as (Hid & Hel & _ & Ha). unfold alara. rewrite Hid, bind_Ret, Hel, bind_Ret.
  by rewrite (nuclide_a _ _ _ Hform), (nuclide_as _ _ _ Hform), Ha.
Qed.
End written.

(** ** Strings of the NIST and ALARA forms *)
Lemma digits_app_nonempty D v t : decimal D v → D +:+ t ≠ "".
Proof.
  intros (_ & _ & u & c & -> & _) He. apply (f_equal String.length) in He. rewrite !string_length_app in He. cbn in He. lia.
Qed.
Lemma colon_removed l D : sall (λ c, negb (Ascii.eqb ":" c)) l = true → sall is_digit D = true →
  sfilter (λ c, negb (one_of ":" c)) (l +:+ ":" +:+ D) = l +:+ D.
Proof.
  intros Hl HD. rewrite !sfilter_app, (sfilter_all _ l), (sfilter_all _ D); [reflexivity|..].
  - eapply sall_impl; [|exact HD]. cbv beta. intros c Hc. destruct (Ascii.eqb_spec c ":") as [->|Hn]; [done|].
    unfold one_of. cbn. by apply Ascii.eqb_neq in Hn as ->.
  - eapply sall_impl; [|exact Hl]. cbv beta. intros c Hc. unfold one_of. cbn.
    rewrite Ascii.eqb_sym in Hc. by destruct (Ascii.eqb c ":").
Qed.

(** ** Numeric forms *)
Section numbers.
Context (z a s : Z) (Hform : in_form z a s).

Lemma int_val_ok n : int_min ≤ n ≤ int_max → int_val n = Ret n.
Proof. intros Hn. unfold int_val. by rewrite (proj2 (in_int_spec n) Hn). Qed.

Lemma zzaaam_written : zzaaam (nuclide z a s) = Ret ((z * 1000 + a) * 10 + if 10 <=? s then 9 else s).
Proof.
  unfold zzaaam. rewrite (id_nuclide _ _ _ Hform), bind_Ret, (nuclide_za _ _ _ Hform), (nuclide_s _ _ _ Hform).
  apply int_val_ok. unfold in_form, int_min, int_max in *. destruct (10 <=? s) eqn:?; lia.
Qed.
Lemma zzaaam_read : s < 10 → read_back zzaaam zzaaam_to_id (nuclide z a s) (nuclide z a s).
Proof.
  intros Hs. exists ((z * 1000 + a) * 10 + s). rewrite zzaaam_written. replace (10 <=? s) with false by lia.
  split; [done|]. unfold zzaaam_to_id, nuclide, in_form in *. rewrite int_val_ok; [f_equal|unfold int_min, int_max]; quot_rem.
Qed.
Lemma zzaaam_saturates : 10 ≤ s → read_back zzaaam zzaaam_to_id (nuclide z a s) (nuclide z a 9).
Proof.
  intros Hs. exists ((z * 1000 + a) * 10 + 9). rewrite zzaaam_written. replace (10 <=? s) with true by lia.
  split; [done|]. unfold zzaaam_to_id, nuclide, in_form in *. rewrite int_val_ok; [f_equal|unfold int_min, int_max]; quot_rem.
Qed.

(** A number below 10000000 is not taken for an identifier. *)
Lemma id_small n : 1000 ≤ n < 10000000 →
  id n =
  let zzz := n ÷ 10000 in let aaa := n rem 10000 ÷ 10 in
  if (zzz <=? aaa) && (aaa <=? zzz * 7) then int_val (zzz * 10000000 + aaa * 10000 + n rem 10)
  else if (aaa <=? zzz) && (zzz <=? aaa * 7) && known zz_name aaa then
    int_val (aaa * 10000000 + zzz * 10000 + n rem 10)
  else id n.
Proof.
  intros Hn. cbv zeta. destruct (_ && _) eqn:H1; [|destruct (_ && _ && _) eqn:H2; [|done]]; unfold id;
    replace (n <? 0) with false by lia; replace (0 <? n ÷ 10000000) with false by quot_rem;
    replace (n <? 1000) with false by lia;
    replace (known zz_name (n ÷ 10000000)) with false by (replace (n ÷ 10000000) with 0 by quot_rem; by vm_compute);
    rewrite ?andb_false_r, ?H1, ?H2; reflexivity.
Qed.
Lemma zzaaam_id : s < 10 → read_back zzaaam id (nuclide z a s) (nuclide z a s).
Proof.
  intros Hs. exists ((z * 1000 + a) * 10 + s). rewrite zzaaam_written. replace (10 <=? s) with false by lia.
  split; [done|]. unfold in_form in Hform. rewrite id_small by lia. cbv zeta.
  replace (((z * 1000 + a) * 10 + s) ÷ 10000) with z by quot_rem.
  replace (((z * 1000 + a) * 10 + s) rem 10000 ÷ 10) with a by quot_rem.
  replace (((z * 1000 + a) * 10 + s) rem 10) with s by quot_rem.
  replace ((z <=? a) && (a <=? z * 7)) with true by lia. apply int_val_ok. unfold nuclide, int_min, int_max. lia.
Qed.

Lemma cinder_written : s < 10 → cinder (nuclide z a s) = Ret (a * 10000 + z * 10 + s).
Proof.
  intros Hs. unfold cinder. rewrite (id_nuclide _ _ _ Hform), bind_Ret.
  rewrite (nuclide_z _ _ _ Hform), (nuclide_s _ _ _ Hform), (nuclide_a _ _ _ Hform).
  replace (10 <=? s) with false by lia. apply int_val_ok. unfold in_form, int_min, int_max in *. lia.
Qed.
Lemma cinder_read : s < 10 → read_back cinder cinder_to_id (nuclide z a s) (nuclide z a s).
Proof.
  intros Hs. eexists. split; [by apply cinder_written|]. unfold cinder_to_id, nuclide, in_form in *.
  rewrite int_val_ok; [f_equal|unfold int_min, int_max]; quot_rem.
Qed.
Lemma cinder_id ll : zz_name !! z = Some ll → s < 10 → read_back cinder id (nuclide z a s) (nuclide z a s).
Proof.
  intros Hll Hs. eexists. split; [by apply cinder_written|]. unfold in_form in Hform. rewrite id_small by lia. cbv zeta.
  replace ((a * 10000 + z * 10 + s) ÷ 10000) with a by quot_rem.
  replace ((a * 10000 + z * 10 + s) rem 10000 ÷ 10) with z by quot_rem.
  replace ((a * 10000 + z * 10 + s) rem 10) with s by quot_rem.
  assert (known zz_name z = true) as Hz by (unfold known; by rewrite Hll).
  destruct ((a <=? z) && _) eqn:Haz.
  - assert (a = z) as -> by lia. apply int_val_ok. unfold nuclide, int_min, int_max. lia.
  - rewrite Hz. replace ((z <=? a) && (a <=? z * 7) && true) with true by lia.
    apply int_val_ok. unfold nuclide, int_min, int_max. lia.
Qed.

Lemma sza_read : s < 2147 → read_back sza sza_to_id (nuclide z a s) (nuclide z a s).
Proof.
  intros Hs. exists (s * 1000000 + (z * 1000 + a)). unfold sza, sza_to_id.
  rewrite (id_nuclide _ _ _ Hform), bind_Ret, (nuclide_za _ _ _ Hform), (nuclide_s _ _ _ Hform).
  unfold in_form, nuclide in *. rewrite int_val_ok by (unfold int_min, int_max; lia). split; [done|].
  rewrite int_val_ok; [f_equal|unfold int_min, int_max]; quot_rem.
Qed.
Lemma sza_overflows : 2147 < s → sza (nuclide z a s) = Throw Undefined.
Proof.
  intros Hs. unfold sza, int_val.
  rewrite (id_nuclide _ _ _ Hform), bind_Ret, (nuclide_za _ _ _ Hform), (nuclide_s _ _ _ Hform).
  destruct (in_int _) eqn:Hin; [|done]. apply in_int_spec in Hin. unfold in_form, int_max in *. lia.
Qed.
Lemma zzzaaa_read : read_back zzzaaa zzzaaa_to_id (nuclide z a s) (nuclide z a 0).
Proof.
  exists (z * 1000 + a). unfold zzzaaa, zzzaaa_to_id.
  rewrite (id_nuclide _ _ _ Hform), bind_Ret, (nuclide_za _ _ _ Hform). split; [done|].
  unfold in_form, nuclide in *. rewrite int_val_ok; [f_equal|unfold int_min, int_max]; lia.
Qed.

(** [mcnp_to_id] of a number with an element and at least as many nucleons. *)
Lemma mcnp_to_id_number n : 0 < n ÷ 1000 ≤ n rem 1000 → mcnp_to_id n = mcnp_number n.
Proof.
  intros Hn. unfold mcnp_to_id. replace (n ÷ 1000 =? 0) with false by lia.
  by replace (n ÷ 1000 <=? n rem 1000) with true by lia.
Qed.
Lemma mcnp_read : mcnp_readable z a s → read_back mcnp mcnp_to_id (nuclide z a s) (nuclide z a s).
Proof.
  intros Hr. unfold read_back, mcnp. rewrite (id_nuclide _ _ _ Hform), bind_Ret.
  rewrite (nuclide_za _ _ _ Hform), (nuclide_s _ _ _ Hform). eexists. split; [reflexivity|].
  destruct (decide (nuclide z a 0 = 952420000 ∧ s < 2)) as [[Ham Hs]|Hn].
  - assert (z = 95 ∧ a = 242) as [-> ->] by (unfold nuclide, in_form in *; lia).
    assert (s = 0 ∨ s = 1) as [-> | ->] by (unfold in_form in *; lia); by vm_compute.
  - assert ((z * 1000 + a =? 95242) && (s <? 2) = false) as ->.
    { unfold nuclide, in_form in *. destruct (Z.eqb_spec (z * 1000 + a) 95242); [|done]. lia. }
    assert ((if negb (0 =? s) && (s <? 10) then z * 1000 + a + (300 + s * 100) else z * 1000 + a) =
      z * 1000 + a + (if s =? 0 then 0 else 300 + s * 100)) as ->.
    { unfold mcnp_readable, in_form in *. rewrite (Z.eqb_sym 0 s). destruct (s =? 0) eqn:?; [cbn; lia|].
      cbn [negb andb]. by replace (s <? 10) with true by lia. }
    rewrite mcnp_to_id_number; [by apply mcnp_number_spec|].
    unfold mcnp_readable, in_form in *. destruct (s =? 0) eqn:?; quot_rem.
Qed.
End numbers.

(** C22.  Names are read back.  For a known element with a possible number of nucleons,
    in the ground or first excited state: the name is read back by [id], the Serpent
    name by [serpent_to_id]; NIST and ALARA names, which have no state, are read back
    as the ground state.  The form ZZLLAAAM is read back for elements up to 100; from
    element 101 on the third digit of the element, which is not removed, counts as
    thousands of nucleons, so that another element is read. *)
Theorem names_round_trip z a s ll :
  zz_name !! z = Some ll → in_form z a s → s = 0 ∨ s = 1 →
  read_back name id_str (nuclide z a s) (nuclide z a s) ∧
  read_back serpent serpent_to_id (nuclide z a s) (nuclide z a s) ∧
  read_back nist nist_to_id (nuclide z a s) (nuclide z a 0) ∧
  read_back alara alara_to_id (nuclide z a s) (nuclide z a 0) ∧
  read_back zzllaaam zzllaaam_to_id (nuclide z a s)
    (nuclide (if z <? 100 then z else z + z rem 10) a s).
Proof.
  intros Hll Hform Hs. destruct (zz_name_symbol _ _ Hll) as [_ _ Hupper _ _ Halpha (c & l & Hc & _) _ Hcolon _].
  destruct (reading_decimal z a s Hform) as (HD & _).
  destruct (letters_digits z a s ll Hll Hform) as (? & ? & ? & ?). split_and!.
  - eexists. split; [by apply (name_written z a s ll)|by apply read_name].
  - eexists. split; [by apply (serpent_written z a s ll)|by apply read_serpent].
  - eexists. split; [by apply (nist_written z a s ll)|]. unfold nist_to_id.
    rewrite decide_False by (apply (digits_app_nonempty _ a), (reading_decimal z a s Hform)).
    rewrite to_upper_app, (digits_upper _ HD). by apply (read_unflagged z a s ll).
  - eexists. split; [by apply (alara_written z a s ll)|]. unfold alara_to_id.
    rewrite decide_False by (by destruct (to_lower ll)). rewrite remove_characters_spec.
    rewrite (colon_removed _ _ Hcolon HD), to_upper_app, Hupper, (digits_upper _ HD). by apply (read_unflagged z a s ll).
  - eexists. split; [by apply (zzllaaam_written z a s ll)|by apply read_zzllaaam].
Qed.

(** Uranium 235, the first excited state of americium 242, and mendelevium 258, whose
    form ZZLLAAAM is read as nobelium. *)
Lemma names_round_trip_witness :
  read_back name id_str 922350000 922350000 ∧ read_back name id_str 952420001 952420001 ∧
  read_back zzllaaam zzllaaam_to_id 1012580000 1022580000.
Proof.
  split_and!.
  - apply (names_round_trip 92 235 0 "U"); [by vm_compute|unfold in_form; lia|by left].
  - apply (names_round_trip 95 242 1 "Am"); [by vm_compute|unfold in_form; lia|by right].
  - apply (names_round_trip 101 258 0 "Md"); [by vm_compute|unfold in_form; lia|by left].
Defined.

(** Numbers are read back.  The forms ZZAAAM and AAAZZZM have one digit for the
    state, SZA has four as long as the number is an [int], ZZZAAA has none; [id] itself
    recognises the first two.  The MCNP form, which adds nucleons for an excited state
    and exchanges the two states of americium 242, is read back where
    [mcnp_readable]. *)
Theorem numbers_round_trip z a s ll :
  zz_name !! z = Some ll → in_form z a s →
  (s < 10 → read_back zzaaam zzaaam_to_id (nuclide z a s) (nuclide z a s) ∧
            read_back zzaaam id (nuclide z a s) (nuclide z a s) ∧
            read_back cinder cinder_to_id (nuclide z a s) (nuclide z a s) ∧
            read_back cinder id (nuclide z a s) (nuclide z a s)) ∧
  (10 ≤ s → read_back zzaaam zzaaam_to_id (nuclide z a s) (nuclide z a 9)) ∧
  (s < 2147 → read_back sza sza_to_id (nuclide z a s) (nuclide z a s)) ∧
  (2147 < s → sza (nuclide z a s) = Throw Undefined) ∧
  read_back zzzaaa zzzaaa_to_id (nuclide z a s) (nuclide z a 0) ∧
  (mcnp_readable z a s → read_back mcnp mcnp_to_id (nuclide z a s) (nuclide z a s)).
Proof.
  intros Hll Hform. split_and!.
  - intros Hs. split_and!; [by apply zzaaam_read|by eapply zzaaam_id|by apply cinder_read|by eapply cinder_id].
  - intros Hs. by apply zzaaam_saturates.
  - intros Hs. by apply sza_read.
  - intros Hs. by apply sza_overflows.
  - by apply zzzaaa_read.
  - intros Hr. by apply mcnp_read.
Qed.

Lemma numbers_round_trip_witness :
  read_back zzaaam zzaaam_to_id 922350001 922350001 ∧
  read_back mcnp mcnp_to_id 952420001 952420001 ∧ mcnp 952420001 = Ret 95242 ∧
  read_back mcnp mcnp_to_id 922350002 922350002 ∧ mcnp 922350002 = Ret 92735.
Proof.
  split_and!; [..|by vm_compute| |by vm_compute].
  - apply (numbers_round_trip 92 235 1 "U"); [by vm_compute|unfold in_form; lia|lia].
  - apply (numbers_round_trip 95 242 1 "Am"); [by vm_compute|unfold in_form; lia|unfold mcnp_readable; cbn; lia].
  - apply (numbers_round_trip 92 235 2 "U"); [by vm_compute|unfold in_form; lia|unfold mcnp_readable; cbn; lia].
Defined.

(** ** The keys of a composition *)
Definition in_form_b (n : Z) : bool :=
  let z := n ÷ 10000000 in let a := n rem 10000000 ÷ 10000 in (z <=? a) && (a <=? z * 7).

Lemma zz_name_known k : known zz_name k = true → 0 < k ≤ 116.
Proof.
  unfold known. rewrite bool_decide_eq_true. intros [ll Hll]. apply (sym_range _ _ (zz_name_symbol _ _ Hll)).
Qed.

Lemma id_large n : 10000000 ≤ n ≤ int_max →
  id n = if in_form_b n then Ret n
         else if (n rem 10000000 =? 0) && known zz_name (n ÷ 10000000) then Ret n
         else Throw IndeterminateNuclideForm.
Proof.
  intros Hn. unfold id, in_form_b, int_max in *. replace (n <? 0) with false by lia.
  replace (0 <? n ÷ 10000000) with true by quot_rem. cbn [andb].
  destruct (_ && _) eqn:?; [done|].
  destruct ((n rem 10000000 =? 0) && known zz_name (n ÷ 10000000)) eqn:?; [done|].
  replace (n <? 1000) with false by lia. cbn [andb].
  replace (n ÷ 10000 <=? n rem 10000 ÷ 10) with false by quot_rem. cbn [andb].
  destruct ((_ <=? _) && _ && known _ _) eqn:Hc.
  { apply andb_true_iff in Hc as [Hc Hk%zz_name_known]. exfalso. clear -Hn Hc Hk. quot_rem. }
  destruct ((n rem 10000 =? 0) && known zz_name (n ÷ 10000)) eqn:Hk; [|by replace (1000000 <=? n) with true by lia].
  apply andb_true_iff in Hk as [_ Hk%zz_name_known]. exfalso. clear -Hn Hk. quot_rem.
Qed.

Lemma isnuclide_large n : 10000000 ≤ n ≤ int_max → isnuclide n = Ret (in_form_b n).
Proof.
  intros Hn. unfold isnuclide. rewrite id_large by done. destruct (in_form_b n) eqn:Hf.
  - unfold in_form_b in Hf. replace (n <=? 10000000) with false by quot_rem.
    cbv zeta. replace (n rem 10000000 ÷ 10000 =? 0) with false by quot_rem.
    by replace (n rem 10000000 ÷ 10000 <? n ÷ 10000000) with false by quot_rem.
  - destruct (_ && _) eqn:Hel; [|done]. apply andb_true_iff in Hel as [Hel _].
    destruct (n <=? 10000000); [done|]. by replace (n rem 10000000 ÷ 10000 =? 0) with true by quot_rem.
Qed.

(** The instance of [isnuclide] that the sources have: what is not defined is not a
    nuclide. *)
Definition nucname_keys : NucName := λ n, match isnuclide n with Ret b => b | Throw _ => false end.

(** The keys of a composition.  From 10000000 on, [isnuclide] accepts exactly the
    identifiers with at least as many nucleons as protons and at most seven times as
    many, and so does [ValidNucs] for compositions with such keys; negative numbers are
    refused.  A smaller number is accepted if it is another form of a nuclide, but
    forms are confused: the MCNP form of tin 112 is taken for an excited boron 11.  On
    some numbers the search overflows [int]. *)
Theorem composition_keys :
  (∀ n, 10000000 ≤ n ≤ int_max → isnuclide n = Ret (in_form_b n)) ∧
  (∀ n, n < 0 → isnuclide n = Ret false) ∧
  (∀ (v : CompMap xq), map_Forall (λ n _, 10000000 ≤ n ≤ int_max) v →
     @compmath.ValidNucs xq nucname_keys v = true ↔ map_Forall (λ n _, in_form_b n = true) v) ∧
  (∀ z a s, in_form z a s → s < 10 → isnuclide ((z * 1000 + a) * 10 + s) = Ret true) ∧
  (mcnp 501120000 = Ret 50112 ∧ id 50112 = Ret 50110002) ∧
  (id 9999990 = Throw Undefined ∧ isnuclide 9999990 = Throw Undefined).
Proof.
  split_and!; [by apply isnuclide_large|..|by vm_compute|by vm_compute|by vm_compute|by vm_compute].
  - intros n Hn. unfold isnuclide, id. by replace (n <? 0) with true by lia.
  - intros v Hv. rewrite ValidNucs_spec. split.
    + intros Hall n x Hx. specialize (Hall n (mk_is_Some _ _ Hx)). specialize (Hv n x Hx).
      unfold CompMath.isnuclide, nucname_keys in Hall. by rewrite isnuclide_large in Hall.
    + intros Hall n [x Hx]. unfold CompMath.isnuclide, nucname_keys. rewrite isnuclide_large by (by eapply Hv).
      by eapply Hall.
  - intros z a s Hform Hs. destruct (zzaaam_id z a s Hform Hs) as (m & Hw & Hid).
    rewrite zzaaam_written in Hw by done. replace (10 <=? s) with false in Hw by lia. injection Hw as <-.
    unfold isnuclide. rewrite Hid. unfold in_form in Hform. replace (_ <=? 10000000) with false by (unfold nuclide; lia).
    rewrite nuclide_z, nuclide_a by done. replace (a =? 0) with false by lia. by replace (a <? z) with false by lia.
Qed.

(** ** Atomic masses *)
Section masses.
Context (data : gmap Z xq) (Hdata : data ≠ ∅).

(** The mass of a nuclide: its own in the table, else that of its ground state, else
    the number of nucleons. *)
Definition mass_of (z a s : Z) : xq :=
  match data !! nuclide z a s, data !! nuclide z a 0 with
  | Some w, _ => w
  | None, Some w => w
  | None, None => nZ a
  end.

(** The map has the table, and otherwise masses of nuclides. *)
Definition masses_loaded (m : gmap Z xq) : Prop :=
  data ⊆ m ∧
  ∀ k w, m !! k = Some w → data !! k = None → ∃ z a s, in_form z a s ∧ k = nuclide z a s ∧ w = mass_of z a s.
Definition masses_ok (m : gmap Z xq) : Prop := m = ∅ ∨ masses_loaded m.

Lemma nuclide_inj z a s z' a' s' :
  in_form z a s → in_form z' a' s' → nuclide z a s = nuclide z' a' s' → z = z' ∧ a = a' ∧ s = s'.
Proof. unfold nuclide, in_form. lia. Qed.

Lemma masses_hit m z a s w :
  masses_loaded m → in_form z a s → m !! nuclide z a s = Some w → w = mass_of z a s.
Proof.
  intros [Hsub Hrest] Hform Hw. destruct (data !! nuclide z a s) as [w'|] eqn:Hd.
  - pose proof (lookup_weaken _ _ _ _ Hd Hsub). unfold mass_of. rewrite Hd. congruence.
  - destruct (Hrest _ _ Hw Hd) as (z' & a' & s' & Hform' & Heq & ->).
    by destruct (nuclide_inj _ _ _ _ _ _ Hform Hform' Heq) as (-> & -> & ->).
Qed.
Lemma masses_miss m k : masses_loaded m → m !! k = None → data !! k = None ∧ m ≠ ∅.
Proof.
  intros [Hsub _] Hk. split; [by eapply lookup_weaken_None|]. intros ->. apply Hdata.
  apply (anti_symm (⊆)); [done|apply map_empty_subseteq].
Qed.
Lemma remember_mass_loaded m z a s :
  masses_loaded m → in_form z a s →
  runs (remember_mass (nuclide z a s) (mass_of z a s)) m (λ _, masses_loaded).
Proof.
  intros Hm Hform. apply runs_modify. destruct (m !! nuclide z a s) eqn:Hk; [done|].
  destruct (masses_miss m _ Hm Hk) as [Hd _]. destruct Hm as [Hsub Hrest]. split; [by apply insert_subseteq_r|].
  intros k w. rewrite lookup_insert_Some. intros [[<- <-]|[_ Hw]] Hdk; [by exists z, a, s|by eapply Hrest].
Qed.

Lemma in_form_ground z a s : in_form z a s → in_form z a 0.
Proof. unfold in_form. lia. Qed.

(** A call on the loaded map; an excited state that is not there takes one more level. *)
Lemma mass_call fuel (z a s : Z) m :
  ((if (s =? 0)%Z then 1 else 2) ≤ fuel)%nat → masses_loaded m → in_form z a s →
  runs (atomic_mass_loop data fuel (nuclide z a s)) m (λ w m', w = mass_of z a s ∧ masses_loaded m').
Proof.
  revert z a s m. induction fuel as [|fuel IH]; intros z a s m Hf Hm Hform; [destruct (s =? 0); lia|].
  cbn [atomic_mass_loop]. apply runs_bind, runs_get. destruct (m !! nuclide z a s) as [w|] eqn:Hw.
  { apply runs_ret. by split; [eapply masses_hit|]. }
  destruct (masses_miss m _ Hm Hw) as [Hd Hne]. rewrite decide_False by done. apply runs_bind.
  exists (nuclide z a s), m. split; [unfold pure; by rewrite id_nuclide|].
  rewrite nuclide_s by done. destruct (0 <? s) eqn:Hs.
  - replace (nuclide z a s ÷ 10000 * 10000) with (nuclide z a 0) by (unfold nuclide, in_form in *; quot_rem).
    apply runs_bind. eapply runs_mono; [apply IH; [|done|by eapply in_form_ground]|].
    + cbn. replace (s =? 0) with false in Hf by lia. lia.
    + intros w m' [-> Hm']. assert (mass_of z a 0 = mass_of z a s) as ->.
      { unfold mass_of. rewrite Hd. by destruct (data !! nuclide z a 0). }
      apply runs_bind. eapply runs_mono; [by apply remember_mass_loaded|]. intros [] m2 Hm2. by apply runs_ret.
  - assert (s = 0) as -> by (unfold in_form in Hform; lia).
    replace (nuclide z a 0 ÷ 10000 rem 1000) with a by (unfold nuclide, in_form in *; quot_rem).
    assert (nZ a = mass_of z a 0) as -> by (unfold mass_of; by rewrite Hd).
    apply runs_bind. eapply runs_mono; [by apply remember_mass_loaded|]. intros [] m2 Hm2. by apply runs_ret.
Qed.

(** Any number of calls, one after the other. *)
Definition ask_all (l : list (Z * Z * Z)) : M (gmap Z xq) (list xq) :=
  for_collect (λ '(z, a, s), atomic_mass data (nuclide z a s)) l.
End masses.

(** The memory of [atomic_mass] cannot be observed: whatever nuclides it is asked
    for, and in whatever order, starting from the empty map each call returns the mass
    that depends on the table only (the ground state stands in for an excited state that
    is not in the table, the number of nucleons for one that is not known at all). *)
Theorem atomic_mass_pure (data : gmap Z xq) (asked : list (Z * Z * Z)) :
  data ≠ ∅ → Forall (λ '(z, a, s), in_form z a s) asked →
  runs (ask_all data asked) ∅ (λ ws _, ws = (λ '(z, a, s), mass_of data z a s) <$> asked).
Proof.
  intros Hdata Hall. cut (∀ m, masses_ok data m →
    runs (ask_all data asked) m (λ ws _, ws = (λ '(z, a, s), mass_of data z a s) <$> asked)); [intros Hgen; apply Hgen; by left|].
  induction Hall as [|[[z a] s] l Hform _ IH]; intros m Hm; [by exists [], m|].
  assert (runs (atomic_mass data (nuclide z a s)) m (λ w m', w = mass_of data z a s ∧ masses_loaded data m'))
    as (w & m1 & Hw & -> & Hm1).
  { destruct Hm as [->|Hm]; [|by apply mass_call; [done|destruct (s =? 0); lia|..]].
    unfold atomic_mass. cbn [atomic_mass_loop]. apply runs_bind, runs_get. rewrite lookup_empty, decide_True by done.
    apply runs_bind, runs_modify. rewrite map_empty_union.
    apply (mass_call data Hdata 3); [destruct (s =? 0); lia| |done]. split; [done|]. intros k w Hk Hnone. congruence. }
  destruct (IH m1) as (ws & m2 & Hws & ->); [by right|]. exists (mass_of data z a s :: ((λ '(z, a, s), mass_of data z a s) <$> l)), m2.
  split; [|done]. by eapply for_collect_cons.
Qed.

(** The first excited state of americium 242 and a nuclide that is not in the table. *)
Lemma atomic_mass_pure_witness :
  runs (ask_all {[ 952420000 := nZ 242 ]} [(95, 242, 1); (92, 235, 0)]) ∅ (λ ws _, ws = [nZ 242; nZ 235]).
Proof.
  destruct (atomic_mass_pure {[ 952420000 := nZ 242 ]} [(95, 242, 1); (92, 235, 0)]) as (ws & m & Hrun & Hws).
  - apply insert_non_empty.
  - repeat constructor; unfold in_form; lia.
  - exists ws, m. split; [exact Hrun|]. rewrite Hws. by vm_compute.
Defined.
