(* ===== verification/LMatrix.v ===== *)
(** * Matrices

    [src/src/l_matrix.h] and [.cc]: a matrix is a vector of rows with its dimensions.  The
    two constructors keep the dimensions and the vectors in agreement; indices of the
    public operators start from 1.  Elements are [long double]s, values of the type that
    stands for doubles. *)

From Stdlib Require Import ZArith Lia.
From stdpp Require Import base list.
From S2P Require Import Prelude Num.

Record LMatrix {F : Type} := mkLMatrix { M_ : list (list F); rows_ : Z; cols_ : Z }.
Arguments LMatrix F : clear implicits.

Section matrix.
Context {F : Type} `{Num F}.
Implicit Types (A lhs rhs : LMatrix F).

(** [LMatrix()]: one row of one zero. *)
Definition LMatrix_1x1 : LMatrix F := mkLMatrix F [[nZ 0]] 1 1.

(** [LMatrix(n, m)] *)
Definition new_LMatrix (n m : Z) : outcome (LMatrix F) :=
  if (m <? 0)%Z || (n <? 0)%Z then Throw LengthError
  else Ret (mkLMatrix F (replicate (Z.to_nat n) (replicate (Z.to_nat m) (nZ 0))) n m).

Definition NumRows A : Z := rows_ A.
Definition NumCols A : Z := cols_ A.

(** [M_[i][j]] *)
Definition elem (l : list (list F)) (i j : Z) : outcome F :=
  if (i <? 0)%Z || (j <? 0)%Z then Throw Undefined
  else match l !! Z.to_nat i ≫= λ row, row !! Z.to_nat j with Some x => Ret x | None => Throw Undefined end.

(** [A(i, j)] *)
Definition read A (i j : Z) : outcome F := elem (M_ A) (i - 1) (j - 1).

(** [SetElement(i, j, aij)], and [A(i, j) = aij] *)
Definition SetElement (i j : Z) (aij : F) A : outcome (LMatrix F) :=
  _ ← elem (M_ A) (i - 1) (j - 1);
  Ret (mkLMatrix F (alter (λ row, <[Z.to_nat (j - 1) := aij]> row) (Z.to_nat (i - 1)) (M_ A)) (rows_ A) (cols_ A)).

Definition AddRow (row : list F) A : LMatrix F :=
  if (Z.of_nat (length row) =? cols_ A)%Z then mkLMatrix F (M_ A ++ [row]) (rows_ A + 1) (cols_ A) else A.

(** Two nested loops over rows and columns that compute one element each. *)
Definition range (n : Z) : list Z := seqZ 0 n.
Definition elements (n m : Z) (f : Z → Z → outcome F) : outcome (list (list F)) :=
  mapM (λ i, mapM (f i) (range m)) (range n).

(** [A = rhs], for two matrices *)
Definition assign rhs : outcome (LMatrix F) :=
  l ← elements (rows_ rhs) (cols_ rhs) (elem (M_ rhs));
  Ret (mkLMatrix F l (rows_ rhs) (cols_ rhs)).

(** [A += rhs] and [A -= rhs]: unchanged if the dimensions do not match.  An element is
    read before it is written, and no other is read. *)
Definition combine_with (op : F → F → F) A rhs : outcome (LMatrix F) :=
  if (rows_ A =? rows_ rhs)%Z && (cols_ A =? cols_ rhs)%Z then
    l ← elements (rows_ A) (cols_ A) (λ i j, a ← elem (M_ A) i j; b ← elem (M_ rhs) i j; Ret (op a b));
    Ret (mkLMatrix F l (rows_ A) (cols_ A))
  else Ret A.
Definition add_assign A rhs : outcome (LMatrix F) := combine_with nadd A rhs.
Definition sub_assign A rhs : outcome (LMatrix F) := combine_with nsub A rhs.

(** The inner loop of the product: [k] runs to the number of rows of [A]. *)
Fixpoint inner_product A rhs (i j : Z) (ks : list Z) (aij : F) : outcome F :=
  match ks with
  | [] => Ret aij
  | k :: ks => a ← elem (M_ A) i k; b ← elem (M_ rhs) k j; inner_product A rhs i j ks (aij + a * b)%D
  end.

(** [A *= rhs] *)
Definition mul_assign A rhs : outcome (LMatrix F) :=
  temp ← new_LMatrix (rows_ A) (cols_ rhs);
  if (cols_ A =? rows_ rhs)%Z then
    l ← elements (rows_ A) (cols_ rhs) (λ i j, inner_product A rhs i j (range (rows_ A)) (nZ 0));
    assign (mkLMatrix F l (rows_ temp) (cols_ temp))
  else Ret A.

(** [lhs + rhs], [lhs - rhs] and [lhs * rhs]: the operator on a copy. *)
Definition plus lhs rhs : outcome (LMatrix F) := add_assign lhs rhs.
Definition minus lhs rhs : outcome (LMatrix F) := sub_assign lhs rhs.
Definition times lhs rhs : outcome (LMatrix F) := mul_assign lhs rhs.

(** [k * A] and [A * k] *)
Definition scale (k : F) A : outcome (LMatrix F) :=
  l ← elements (rows_ A) (cols_ A) (λ i j, a ← read A (i + 1) (j + 1); Ret (a * k)%D);
  Ret (mkLMatrix F l (rows_ A) (cols_ A)).

(** [A ^ k] *)
Fixpoint power_loop A (n : nat) ans : outcome (LMatrix F) :=
  match n with O => Ret ans | S n => ans' ← mul_assign ans A; power_loop A n ans' end.
Definition power A (k : Z) : outcome (LMatrix F) :=
  if (cols_ A =? rows_ A)%Z then power_loop A (Z.to_nat (k - 1)) A else Ret A.

(** [identity(n)] *)
Fixpoint set_diagonal (l : list Z) A : outcome (LMatrix F) :=
  match l with
  | [] => Ret A
  | i :: l => A' ← SetElement (i + 1) (i + 1) (nZ 1) A; set_diagonal l A'
  end.
Definition identity (n : Z) : outcome (LMatrix F) := I ← new_LMatrix n n; set_diagonal (range n) I.
End matrix.
