(* ===== verification/Decayer.v ===== *)
(** * The decay of nuclides

    [src/src/uniform_taylor.h], [.cc], [src/src/decayer.h] and [.cc]: the exponential of a
    matrix by a Taylor series with uniformization, and the matrix of decay constants and
    branching ratios of all nuclides that any [Decayer] has seen.  The parents, daughters,
    matrix and list of nuclides are static members: the state of the model.  The decay data
    of PyNE are a parameter. *)

From Stdlib Require Import QArith ZArith Lia.
From stdpp Require Import base list gmap sorting.
From S2P Require Import Prelude Num CompMath LMatrix.

(** [pyne::decay_const], [pyne::decay_children] and [pyne::branch_ratio] *)
Class DecayData (F : Type) := {
  decay_const : Z → F;
  decay_children : Z → gset Z;
  branch_ratio : Z → Z → F
}.

(** ** The matrix exponential *)
Module UniformTaylor.
Section solver.
Context {F : Type} `{Num F} `{Exponential F}.

Fixpoint max_abs_loop (A : LMatrix F) (l : list Z) (max_a_ii : F) : outcome F :=
  match l with
  | [] => Ret max_a_ii
  | i :: l =>
      a ← read A i i;
      let a_ii := nabs a in
      max_abs_loop A l (if (a_ii >? max_a_ii)%D then a_ii else max_a_ii)
  end.
Definition MaxAbsDiag (A : LMatrix F) : outcome F :=
  let n := NumRows A in
  a ← read A 1 1;
  max_abs_loop A (seqZ 2 (n - 1)) (nabs a).

(** The loop of [MaxNumTerms], with a bound on its iterations. *)
Fixpoint terms_loop (fuel : nat) (alpha_t lowerBound sumTerms prevTerm : F) (p : Z) : outcome Z :=
  match fuel with
  | O => Throw OutOfFuel
  | S fuel =>
      if (sumTerms >=? lowerBound)%D then Ret p
      else
        let nextTerm := (alpha_t / nZ p * prevTerm)%D in
        terms_loop fuel alpha_t lowerBound (sumTerms + nextTerm)%D nextTerm (p + 1)
  end.
Definition MaxNumTerms (fuel : nat) (alpha_t epsilon : F) : outcome Z :=
  let lowerBound := std_exp alpha_t in
  if (lowerBound =? ninf)%D then Throw ValueError
  else terms_loop fuel alpha_t (lowerBound * (nZ 1 - epsilon))%D (nZ 1) (nZ 1) 1.

(** The sum of the terms, [C_prev] being the last one added. *)
Fixpoint sum_loop (B : LMatrix F) (t : F) (ks : list Z) (C_prev Ck_sum : LMatrix F) : outcome (LMatrix F) :=
  match ks with
  | [] => Ret Ck_sum
  | k :: ks =>
      scaled ← scale (t / nZ k)%D B;
      C_next ← assign scaled;
      C_next ← mul_assign C_next C_prev;
      Ck_sum ← add_assign Ck_sum C_next;
      C_prev ← assign C_next;
      sum_loop B t ks C_prev Ck_sum
  end.
Definition GetSolutionVector (fuel : nat) (B x_o : LMatrix F) (alpha t tol : F) : outcome (LMatrix F) :=
  let alpha_t := (alpha * t)%D in
  let expat := std_exp (nneg alpha_t) in
  if (expat =? nZ 0)%D then Throw ValueError
  else
    C_next ← scale expat x_o;
    maxTerms ← MaxNumTerms fuel alpha_t tol;
    sum_loop B t (seqZ 1 (maxTerms - 1)) C_next C_next.

Definition MatrixExpSolver (fuel : nat) (A x_o : LMatrix F) (t : F) : outcome (LMatrix F) :=
  let n := NumRows A in
  if negb (NumRows x_o =? n)%Z then Throw ValueError
  else
    alpha ← MaxAbsDiag A;
    B ← identity n;
    B ← scale alpha B;
    B ← assign B;
    B ← add_assign B A;
    x ← GetSolutionVector fuel B x_o alpha t (nlit (1 # 1000));
    assign x.
End solver.
End UniformTaylor.

(** ** The decayer *)
Record DecayerStatic {F : Type} := mkDecayerStatic {
  parent_ : gmap Z (Z * F);
  daughters_ : gmap Z (list (Z * F));
  decay_matrix_ : LMatrix F;
  nuclides_tracked_ : list Z
}.
Arguments DecayerStatic F : clear implicits.
Record Decayer {F : Type} := mkDecayer { pre_vect_ : LMatrix F; post_vect_ : LMatrix F }.
Arguments Decayer F : clear implicits.

Section decayer.
Context {F : Type} `{Num F} `{Exponential F} `{DecayData F}.
Local Abbreviation DM := (M (DecayerStatic F)).

Definition no_decayer : DecayerStatic F := mkDecayerStatic F ∅ ∅ LMatrix_1x1 [].

Definition set_parent (m : gmap Z (Z * F)) (s : DecayerStatic F) : DecayerStatic F :=
  mkDecayerStatic F m (daughters_ s) (decay_matrix_ s) (nuclides_tracked_ s).
Definition set_daughters (m : gmap Z (list (Z * F))) (s : DecayerStatic F) : DecayerStatic F :=
  mkDecayerStatic F (parent_ s) m (decay_matrix_ s) (nuclides_tracked_ s).
Definition set_decay_matrix (A : LMatrix F) (s : DecayerStatic F) : DecayerStatic F :=
  mkDecayerStatic F (parent_ s) (daughters_ s) A (nuclides_tracked_ s).
Definition set_tracked (l : list Z) (s : DecayerStatic F) : DecayerStatic F :=
  mkDecayerStatic F (parent_ s) (daughters_ s) (decay_matrix_ s) l.

Definition IsNucTracked (nuc : Z) (s : DecayerStatic F) : bool := bool_decide (nuc ∈ nuclides_tracked_ s).

Definition AddNucToList (nuc : Z) (s : DecayerStatic F) : DecayerStatic F :=
  if IsNucTracked nuc s then s else set_tracked (nuclides_tracked_ s ++ [nuc]) s.

(** [AddNucToMaps(nuc)], with a bound on the depth of the recursion. *)
Fixpoint AddNucToMaps (fuel : nat) (nuc : Z) : DM unit :=
  match fuel with
  | O => throw OutOfFuel
  | S fuel =>
      s ← get;
      if IsNucTracked nuc s then mret tt
      else
        let col := (Z.of_nat (size (parent_ s)) + 1)%Z in
        modify (set_parent (<[nuc := (col, decay_const nuc)]> (parent_ s)));;
        modify (AddNucToList nuc);;
        dvec ← for_collect (λ daughter, AddNucToMaps fuel daughter;; mret (daughter, branch_ratio nuc daughter))
          (set_in_order (decay_children nuc));
        modify (λ s, set_daughters (<[col := dvec]> (daughters_ s)) s)
  end.

(** [decay_matrix_(i, j) = x] *)
Definition write_matrix (i j : Z) (x : F) : DM unit :=
  s ← get; A ← pure (SetElement i j x (decay_matrix_ s)); modify (set_decay_matrix A).

(** [parent_.find(nuc)->second.first] *)
Definition column_of (nuc : Z) : DM Z :=
  s ← get; p ← from_option_or Undefined (parent_ s !! nuc); mret p.1.

(** The constant of a nuclide as the matrix has it. *)
Definition matrix_const (decay_const : F) : F :=
  if (std_exp (nZ (-2903040000) * decay_const) =? nZ 0)%D then nZ 0 else decay_const.

Definition build_column (kv : Z * (Z * F)) : DM unit :=
  let '(_, (jcol, c)) := kv in
  let decay_const := matrix_const c in
  write_matrix jcol jcol (nZ (-1) * decay_const)%D;;
  s ← get;
  ds ← from_option_or Undefined (daughters_ s !! jcol);
  for_each (λ d, irow ← column_of d.1; write_matrix irow jcol (d.2 * decay_const)%D) ds.

Definition BuildDecayMatrix : DM unit :=
  s ← get;
  let n := Z.of_nat (size (parent_ s)) in
  A ← pure (new_LMatrix n n ≫= assign);
  modify (set_decay_matrix A);;
  for_each build_column (in_order (parent_ s)).

(** The constructor: the first loop. *)
Fixpoint track_all (fuel : nat) (nucs : list Z) (needs_build : bool) : DM bool :=
  match nucs with
  | [] => mret needs_build
  | nuc :: nucs =>
      s ← get;
      if IsNucTracked nuc s then track_all fuel nucs needs_build
      else AddNucToMaps fuel nuc;; track_all fuel nucs true
  end.

(** The second loop; [parent_[nuc]] makes an entry for an unknown nuclide. *)
Fixpoint fill_vector (comp : list (Z * F)) (v : LMatrix F) : DM (LMatrix F) :=
  match comp with
  | [] => mret v
  | (nuc, atom_count) :: comp =>
      s ← get;
      let p := at_default (0%Z, nZ 0) (parent_ s) nuc in
      modify (set_parent (<[nuc := p]> (parent_ s)));;
      v ← pure (SetElement p.1 1 atom_count v);
      fill_vector comp v
  end.
Definition new_Decayer (fuel : nat) (comp : CompMap F) : DM (Decayer F) :=
  needs_build ← track_all fuel (in_order comp).*1 false;
  (if needs_build : bool then BuildDecayMatrix else mret tt);;
  s ← get;
  v ← pure (new_LMatrix (Z.of_nat (size (parent_ s))) 1 ≫= assign);
  v ← fill_vector (in_order comp) v;
  mret (mkDecayer F v LMatrix_1x1).

(** [Decay(secs)] *)
Definition Decay (fuel : nat) (secs : F) (d : Decayer F) : DM (Decayer F) :=
  s ← get;
  x ← pure (UniformTaylor.MatrixExpSolver fuel (decay_matrix_ s) (pre_vect_ d) secs ≫= assign);
  mret (mkDecayer F (pre_vect_ d) x).

(** [GetResult(comp)] *)
Fixpoint result_loop (d : Decayer F) (parents : list (Z * (Z * F))) (comp : CompMap F) : outcome (CompMap F) :=
  match parents with
  | [] => Ret comp
  | (nuc, (col, _)) :: parents =>
      if (col <=? NumRows (post_vect_ d))%Z then
        atom_count ← read (post_vect_ d) col 1;
        result_loop d parents (if (atom_count >? nZ 0)%D then <[nuc := atom_count]> comp else comp)
      else result_loop d parents comp
  end.
Definition GetResult (d : Decayer F) (comp : CompMap F) : DM (CompMap F) :=
  s ← get; pure (result_loop d (in_order (parent_ s)) comp).

Definition n_tracked_nuclides (s : DecayerStatic F) : Z := Z.of_nat (length (nuclides_tracked_ s)).
Definition TrackedNuclide (i : Z) (s : DecayerStatic F) : outcome Z :=
  match (if (i <? 0)%Z then None else nuclides_tracked_ s !! Z.to_nat i) with
  | Some nuc => Ret nuc
  | None => Throw OutOfRange
  end.
End decayer.
