(* ===== verification/MatrixTheory.v ===== *)
(** * Matrices of rationals

    What the operations of [LMatrix] compute on matrices of finite numbers: sums, multiples,
    identities and products of matrices, and the exponential of a matrix as a uniformized
    Taylor series. *)

From Stdlib Require Import QArith Qminmax Qabs Lqa ZArith Lia.
From stdpp Require Import base list gmap sorting.
From S2P Require Import Prelude Num Arithmetic LMatrix CompMath Decayer.

Local Open Scope Q_scope.

(** [mat A n m e]: the matrix [A] has [n] rows and [m] columns, with the elements [e]. *)
Record mat (A : LMatrix xq) (n m : nat) (e : nat → nat → Q) : Prop := {
  mat_rows : rows_ A = Z.of_nat n;
  mat_cols : cols_ A = Z.of_nat m;
  mat_len : length (M_ A) = n;
  mat_row : ∀ i row, M_ A !! i = Some row → length row = m;
  mat_elem : ∀ i j row x, M_ A !! i = Some row → row !! j = Some x → x ≃ e i j
}.

Lemma mat_ext A n m e e' : (∀ i j, (i < n)%nat → (j < m)%nat → e i j == e' i j) → mat A n m e → mat A n m e'.
Proof.
  intros He [Hr Hc Hl Hw Hx]. split; try done. intros i j row x Hi Hj. eapply is_fin_weaken; [by eapply Hx|].
  apply He; [rewrite <-Hl; by eapply lookup_lt_Some|]. rewrite <-(Hw i row Hi). by eapply lookup_lt_Some.
Qed.

Lemma mat_read A n m e i j : mat A n m e → (i < n)%nat → (j < m)%nat →
  ∃ x, elem (M_ A) (Z.of_nat i) (Z.of_nat j) = Ret x ∧ x ≃ e i j.
Proof.
  intros [Hr Hc Hl Hw Hx] Hi Hj. destruct (lookup_lt_is_Some_2 (M_ A) i) as [row Hrow]; [lia|].
  destruct (lookup_lt_is_Some_2 row j) as [x Hxj]; [rewrite (Hw i row Hrow); lia|].
  exists x. split; [|by eapply Hx]. unfold elem. rewrite !Nat2Z.id.
  replace ((Z.of_nat i <? 0)%Z || (Z.of_nat j <? 0)%Z) with false by lia. rewrite Hrow. cbn. by rewrite Hxj.
Qed.
Lemma mat_read1 A n m e i j : mat A n m e → (i < n)%nat → (j < m)%nat →
  ∃ x, read A (Z.of_nat i + 1) (Z.of_nat j + 1) = Ret x ∧ x ≃ e i j.
Proof.
  intros HA Hi Hj. unfold read. rewrite !Z.add_simpl_r. by apply (mat_read A n m).
Qed.

Lemma nat_nonneg2 n m : ((Z.of_nat n <? 0)%Z || (Z.of_nat m <? 0)%Z) = false.
Proof. destruct (Z.ltb_spec (Z.of_nat n) 0), (Z.ltb_spec (Z.of_nat m) 0); [lia..|done]. Qed.

(** ** Loops *)
Lemma mapM_runs {X Y : Type} (f : X → outcome Y) (P : nat → Y → Prop) l :
  (∀ i x, l !! i = Some x → ∃ y, f x = Ret y ∧ P i y) →
  ∃ ys, mapM f l = Ret ys ∧ length ys = length l ∧ ∀ i y, ys !! i = Some y → P i y.
Proof.
  revert P. induction l as [|x l IH]; intros P Hf; [by exists []|].
  destruct (Hf 0%nat x eq_refl) as (y & Hy & HP). destruct (IH (λ i, P (S i))) as (ys & Hys & Hlen & Hall).
  { intros i z Hz. by apply (Hf (S i)). }
  exists (y :: ys). cbn. rewrite Hy. cbn. unfold mbind in Hys. rewrite Hys. cbn. split_and!; [done|by f_equal|].
  intros [|i] z; cbn; [by intros [= <-]|by apply Hall].
Qed.

Lemma lookup_range n i z : range (Z.of_nat n) !! i = Some z ↔ z = Z.of_nat i ∧ (i < n)%nat.
Proof. unfold range. rewrite lookup_seqZ. lia. Qed.
Lemma length_range n : length (range (Z.of_nat n)) = n.
Proof. unfold range. rewrite length_seqZ. lia. Qed.

Lemma elements_mat n m (f : Z → Z → outcome xq) e :
  (∀ i j, (i < n)%nat → (j < m)%nat → ∃ x, f (Z.of_nat i) (Z.of_nat j) = Ret x ∧ x ≃ e i j) →
  ∃ l, elements (Z.of_nat n) (Z.of_nat m) f = Ret l ∧ mat (mkLMatrix xq l (Z.of_nat n) (Z.of_nat m)) n m e.
Proof.
  intros Hf. unfold elements.
  destruct (mapM_runs (λ i, mapM (f i) (range (Z.of_nat m)))
    (λ i row, length row = m ∧ ∀ j x, row !! j = Some x → x ≃ e i j) (range (Z.of_nat n))) as (l & Hl & Hlen & Hall).
  { intros i z [-> Hi]%lookup_range.
    destruct (mapM_runs (f (Z.of_nat i)) (λ j x, x ≃ e i j) (range (Z.of_nat m))) as (row & Hrow & Hr1 & Hr2).
    { intros j z [-> Hj]%lookup_range. by apply Hf. }
    exists row. rewrite length_range in Hr1. done. }
  exists l. split; [done|]. rewrite length_range in Hlen. split; cbn; [done|done|done| |].
  - intros i row Hi. by apply (Hall i row Hi).
  - intros i j row x Hi Hj. by apply (proj2 (Hall i row Hi)).
Qed.

(** ** Operations *)
Lemma new_LMatrix_mat n m : ∃ A, new_LMatrix (F := xq) (Z.of_nat n) (Z.of_nat m) = Ret A ∧ mat A n m (λ _ _, 0).
Proof.
  unfold new_LMatrix. rewrite nat_nonneg2, !Nat2Z.id.
  eexists. split; [done|]. split; cbn; [done|done|by rewrite length_replicate| |].
  - intros i row [-> _]%lookup_replicate. by rewrite length_replicate.
  - intros i j row x [-> _]%lookup_replicate [-> _]%lookup_replicate. apply (fin_Z 0).
Qed.

Lemma assign_mat A n m e : mat A n m e → ∃ A', assign A = Ret A' ∧ mat A' n m e.
Proof.
  intros HA. unfold assign. rewrite (mat_rows _ _ _ _ HA), (mat_cols _ _ _ _ HA).
  destruct (elements_mat n m (elem (M_ A)) e) as (l & Hl & Hm); [intros; by eapply mat_read|].
  rewrite Hl. by eexists.
Qed.

Lemma add_mat A B n m a b : mat A n m a → mat B n m b →
  ∃ C, add_assign A B = Ret C ∧ mat C n m (λ i j, a i j + b i j).
Proof.
  intros HA HB. unfold add_assign, combine_with.
  rewrite (mat_rows _ _ _ _ HA), (mat_cols _ _ _ _ HA), (mat_rows _ _ _ _ HB), (mat_cols _ _ _ _ HB), !Z.eqb_refl. cbn [andb].
  edestruct (elements_mat n m) as (l & Hl & Hm); [|erewrite Hl; by eexists]. intros i j Hi Hj.
  destruct (mat_read A n m a i j HA Hi Hj) as (x & -> & Hx), (mat_read B n m b i j HB Hi Hj) as (y & -> & Hy).
  eexists. split; [done|]. by apply fin_add.
Qed.

Lemma scale_mat k q A n m a : k ≃ q → mat A n m a → ∃ C, scale k A = Ret C ∧ mat C n m (λ i j, a i j * q).
Proof.
  intros Hk HA. unfold scale. rewrite (mat_rows _ _ _ _ HA), (mat_cols _ _ _ _ HA).
  edestruct (elements_mat n m) as (l & Hl & Hm); [|erewrite Hl; by eexists]. intros i j Hi Hj.
  destruct (mat_read1 A n m a i j HA Hi Hj) as (x & -> & Hx). eexists. split; [done|]. by apply fin_mul.
Qed.

(** Sums over indices. *)
Definition sumN (n : nat) (f : nat → Q) : Q := sumQ (map f (seq 0 n)).
Lemma sumN_S n f : sumN (S n) f == sumN n f + f n.
Proof. unfold sumN. rewrite seq_S, map_app, sumQ_app. cbn. ring. Qed.
Lemma sumN_ext n f h : (∀ i, (i < n)%nat → f i == h i) → sumN n f == sumN n h.
Proof. intros Hf. apply sumQ_map_ext. intros i [_ Hi]%elem_of_seq. by apply Hf. Qed.
Lemma sumN_plus n f h : sumN n (λ i, f i + h i) == sumN n f + sumN n h.
Proof. apply sumQ_map_plus. Qed.
Lemma sumN_mult n f c : sumN n (λ i, f i * c) == sumN n f * c.
Proof. apply sumQ_map_mult. Qed.
Lemma sumN_nonneg n f : (∀ i, (i < n)%nat → 0 <= f i) → 0 <= sumN n f.
Proof.
  intros Hf. apply sumQ_nonneg, Forall_forall. intros q (i & <- & [_ Hi]%list_elem_of_In%elem_of_seq)%list_elem_of_In%in_map_iff.
  by apply Hf.
Qed.
Lemma sumN_swap n m f : sumN n (λ i, sumN m (f i)) == sumN m (λ j, sumN n (λ i, f i j)).
Proof.
  induction n as [|n IH].
  - unfold sumN at 1. cbn. symmetry. rewrite (sumN_ext m _ (λ _, 0 * 0)) by done. rewrite sumN_mult. ring.
  - rewrite sumN_S, IH, <-sumN_plus. apply sumN_ext. intros j _. by rewrite sumN_S.
Qed.
Lemma sumN_zero n f : (∀ i, (i < n)%nat → f i == 0) → sumN n f == 0.
Proof. intros Hf. rewrite (sumN_ext n f (λ _, 0 * 0)) by (intros; by rewrite Hf). rewrite sumN_mult. ring. Qed.
Lemma sumN_one n f k : (k < n)%nat → (∀ i, (i < n)%nat → i ≠ k → f i == 0) → sumN n f == f k.
Proof.
  induction n as [|n IH]; intros Hk Hf; [lia|]. rewrite sumN_S. destruct (decide (k = n)) as [->|Hne].
  - rewrite sumN_zero; [ring|]. intros i Hi. apply Hf; lia.
  - rewrite IH; [|lia|intros; apply Hf; lia]. rewrite (Hf n) by lia. ring.
Qed.

Lemma inner_product_fin A B n m q a b i j (ks : list nat) acc s :
  mat A n m a → mat B m q b → (i < n)%nat → (j < q)%nat → Forall (λ k, (k < m)%nat) ks → acc ≃ s →
  ∃ x, inner_product A B (Z.of_nat i) (Z.of_nat j) (Z.of_nat <$> ks) acc = Ret x ∧
    x ≃ s + sumQ (map (λ k, a i k * b k j) ks).
Proof.
  intros HA HB Hi Hj. revert acc s. induction ks as [|k ks IH]; intros acc s Hks Hacc.
  { exists acc. split; [done|]. eapply is_fin_weaken; [done|]. cbn. ring. }
  apply Forall_cons in Hks as [Hk Hks]. cbn.
  destruct (mat_read A n m a i k HA Hi Hk) as (x & Hx & Hxf), (mat_read B m q b k j HB Hk Hj) as (y & Hy & Hyf).
  rewrite Hx. cbn. rewrite Hy. cbn. destruct (IH _ _ Hks (fin_add Hacc (fin_mul Hxf Hyf))) as (z & Hz & Hzf).
  exists z. split; [done|]. eapply is_fin_weaken; [done|]. cbn. unfold sumQ. ring.
Qed.

(** The product takes as many terms as [A] has rows. *)
Lemma mul_mat A B n m q a b : mat A n m a → mat B m q b → (n ≤ m)%nat →
  ∃ C, mul_assign A B = Ret C ∧ mat C n q (λ i j, sumN n (λ k, a i k * b k j)).
Proof.
  intros HA HB Hnm. unfold mul_assign.
  rewrite (mat_rows _ _ _ _ HA), (mat_cols _ _ _ _ HA), (mat_rows _ _ _ _ HB), (mat_cols _ _ _ _ HB), Z.eqb_refl.
  unfold new_LMatrix. rewrite nat_nonneg2, bind_Ret.
  destruct (elements_mat n q (λ i j, inner_product A B i j (range (Z.of_nat n)) (nZ 0)) (λ i j, sumN n (λ k, a i k * b k j)))
    as (l & Hl & Hm); [|rewrite Hl, bind_Ret; cbn [rows_ cols_]; by apply assign_mat].
  intros i j Hi Hj. replace (range (Z.of_nat n)) with (Z.of_nat <$> seq 0 n).
  - destruct (inner_product_fin A B n m q a b i j (seq 0 n) (nZ 0) 0 HA HB Hi Hj) as (x & Hx & Hxf).
    + apply Forall_seq. lia.
    + apply (fin_Z 0).
    + exists x. split; [done|]. eapply is_fin_weaken; [done|]. unfold sumN. ring.
  - apply list_eq. intros k. rewrite list_lookup_fmap. destruct (range (Z.of_nat n) !! k) as [z|] eqn:Hz.
    + apply lookup_range in Hz as [-> Hk]. rewrite lookup_seq_lt by done. done.
    + apply lookup_ge_None in Hz. rewrite length_range in Hz. rewrite lookup_seq_ge by done. done.
Qed.

Lemma SetElement_mat A n m a i j x q : mat A n m a → (i < n)%nat → (j < m)%nat → x ≃ q →
  ∃ A', SetElement (Z.of_nat i + 1) (Z.of_nat j + 1) x A = Ret A' ∧
    mat A' n m (λ i' j', if decide (i' = i ∧ j' = j) then q else a i' j').
Proof.
  intros HA Hi Hj Hx. unfold SetElement. rewrite !Z.add_simpl_r, !Nat2Z.id.
  destruct (mat_read A n m a i j HA Hi Hj) as (y & -> & _). rewrite bind_Ret. eexists. split; [done|].
  destruct HA as [Hr Hc Hl Hw He]. split; cbn; [done|done|by rewrite length_alter| |].
  - intros i' row. rewrite list_lookup_alter. intros Hrow. destruct (decide (i = i')) as [<-|]; [|by eapply Hw].
    destruct (M_ A !! i) as [row0|] eqn:Hrow0; [|done]. injection Hrow as <-. rewrite length_insert. by eapply Hw.
  - intros i' j' row z. rewrite list_lookup_alter. intros Hrow Hz. destruct (decide (i = i')) as [<-|Hne].
    + destruct (M_ A !! i) as [row0|] eqn:Hrow0; [|done]. injection Hrow as <-.
      apply list_lookup_insert_Some in Hz as [(<- & <- & _)|[Hne Hz]].
      * by rewrite decide_True.
      * rewrite decide_False by naive_solver. by eapply He.
    + rewrite decide_False by naive_solver. by eapply He.
Qed.

Lemma identity_mat n : ∃ I, identity (F := xq) (Z.of_nat n) = Ret I ∧
  mat I n n (λ i j, if decide (i = j) then 1 else 0).
Proof.
  unfold identity. destruct (new_LMatrix_mat n n) as (A & -> & HA). rewrite bind_Ret.
  cut (∀ k B, (k ≤ n)%nat → mat B n n (λ i j, if decide (i = j ∧ i < n - k)%nat then 1 else 0) →
    ∃ I, set_diagonal (seqZ (Z.of_nat (n - k)) (Z.of_nat k)) B = Ret I ∧ mat I n n (λ i j, if decide (i = j) then 1 else 0)).
  { intros Hgen. destruct (Hgen n A) as (I & HI & Hm); [lia| |].
    - eapply mat_ext; [|exact HA]. intros i j Hi Hj. cbn. rewrite decide_False by lia. done.
    - exists I. rewrite Nat.sub_diag in HI. done. }
  induction k as [|k IH]; intros B Hk HB.
  - exists B. split; [done|]. eapply mat_ext; [|exact HB]. intros i j Hi Hj. cbn.
    destruct (decide (i = j)); [rewrite decide_True by lia|rewrite decide_False by lia]; done.
  - rewrite seqZ_cons by lia. cbn [set_diagonal].
    destruct (SetElement_mat B n n _ (n - S k) (n - S k) (nZ 1) 1 HB) as (C & HC & Hm); [lia|lia|apply (fin_Z 1)|].
    rewrite HC, bind_Ret. replace (Z.succ (Z.of_nat (n - S k))) with (Z.of_nat (n - k)) by lia.
    replace (Z.pred (Z.of_nat (S k))) with (Z.of_nat k) by lia. apply IH; [lia|].
    eapply mat_ext; [|exact Hm]. intros i j Hi Hj. cbn.
    repeat case_decide; try done; lia.
Qed.

(** ** The exponential of a matrix

    Powers, the terms and the partial sums of the exponential series, and the powers of a
    matrix applied to a vector. *)
Fixpoint qpow (x : Q) (k : nat) : Q := match k with O => 1 | S k => x * qpow x k end.
Definition term (x : Q) (k : nat) : Q := qpow x k / inject_Z (Z.of_nat (fact k)).
Definition taylor (x : Q) (n : nat) : Q := sumN n (term x).
Definition times_vector (n : nat) (b : nat → nat → Q) (v : nat → Q) (i : nat) : Q := sumN n (λ j, b i j * v j).
Fixpoint power_vector (n : nat) (b : nat → nat → Q) (k : nat) (v : nat → Q) : nat → Q :=
  match k with O => v | S k => times_vector n b (power_vector n b k v) end.

Lemma fact_nonzero k : ¬ inject_Z (Z.of_nat (fact k)) == 0.
Proof. pose proof (lt_O_fact k). unfold Qeq. cbn. lia. Qed.
Lemma term_S x k : term x (S k) == x / inject_Z (Z.of_nat (S k)) * term x k.
Proof.
  unfold term. change (fact (S k)) with (S k * fact k)%nat. cbn [qpow]. rewrite Nat2Z.inj_mul, inject_Z_mult.
  field. split; [apply fact_nonzero|]. unfold Qeq. cbn. lia.
Qed.
Lemma term_nonneg x k : 0 <= x → 0 <= term x k.
Proof.
  intros Hx. unfold term. apply Qle_shift_div_l.
  - pose proof (lt_O_fact k). unfold Qlt. cbn. lia.
  - rewrite Qmult_0_l. induction k as [|k IH]; cbn [qpow]; [lra|]. by apply Qmult_le_0_compat.
Qed.
Lemma qpow_mult x y k : qpow (x * y) k == qpow x k * qpow y k.
Proof. induction k as [|k IH]; cbn [qpow]; [ring|]. rewrite IH. ring. Qed.
#[export] Instance qpow_proper : Proper (Qeq ==> eq ==> Qeq) qpow.
Proof. intros x y Hxy k ? <-. induction k as [|k IH]; [done|]. cbn [qpow]. by rewrite IH, Hxy. Qed.
#[export] Instance term_proper : Proper (Qeq ==> eq ==> Qeq) term.
Proof. intros x y Hxy k ? <-. unfold term. by rewrite Hxy. Qed.
#[export] Instance taylor_proper : Proper (Qeq ==> eq ==> Qeq) taylor.
Proof. intros x y Hxy k ? <-. unfold taylor. apply sumN_ext. intros i _. by rewrite Hxy. Qed.

(** The absolute value of the largest element of the diagonal. *)
Definition max_diag (a : nat → nat → Q) (n : nat) : Q := foldr Qmax 0 (map (λ i, Qabs (a i i)) (seq 0 n)).

Section taylor_series.
Context `{Exponential xq}.
Import UniformTaylor.

Lemma max_abs_loop_fin A n a (l : list nat) m q : mat A n n a → Forall (λ i, (i < n)%nat) l → m ≃ q →
  ∃ x, max_abs_loop A ((λ i, Z.of_nat i + 1)%Z <$> l) m = Ret x ∧ x ≃ foldl Qmax q (map (λ i, Qabs (a i i)) l).
Proof.
  intros HA. revert m q. induction l as [|i l IH]; intros m q Hl Hm; [by exists m|].
  apply Forall_cons in Hl as [Hi Hl]. cbn. destruct (mat_read1 A n n a i i HA Hi Hi) as (x & -> & Hx). cbn.
  apply IH; [done|]. change (dmax m (nabs x) ≃ Qmax q (Qabs (a i i))). by apply fin_max, fin_abs.
Qed.

Lemma foldl_Qmax l q : foldl Qmax q l == Qmax q (foldr Qmax 0 l) ∨ q < 0.
Proof.
  destruct (Qlt_le_dec q 0) as [|Hq]; [by right|left]. revert q Hq. induction l as [|x l IH]; intros q Hq.
  - cbn. by rewrite Q.max_l.
  - cbn. rewrite IH; [|eapply Qle_trans; [exact Hq|apply Q.le_max_l]]. by rewrite Q.max_assoc.
Qed.

Lemma MaxAbsDiag_fin A n a : mat A (S n) (S n) a → ∃ x, MaxAbsDiag A = Ret x ∧ x ≃ max_diag a (S n).
Proof.
  intros HA. unfold MaxAbsDiag, NumRows. rewrite (mat_rows _ _ _ _ HA).
  destruct (mat_read1 A (S n) (S n) a 0 0 HA) as (x & Hx & Hxf); [lia..|]. change (Z.of_nat 0 + 1)%Z with 1%Z in Hx.
  rewrite Hx, bind_Ret. replace (seqZ 2 (Z.of_nat (S n) - 1)) with ((λ i, Z.of_nat i + 1)%Z <$> seq 1 n).
  - destruct (max_abs_loop_fin A (S n) a (seq 1 n) (nabs x) (Qabs (a 0%nat 0%nat)) HA) as (y & Hy & Hyf).
    + apply Forall_seq. lia.
    + by apply fin_abs.
    + exists y. split; [done|]. eapply is_fin_weaken; [done|]. unfold max_diag. cbn.
      destruct (foldl_Qmax (map (λ i, Qabs (a i i)) (seq 1 n)) (Qabs (a 0%nat 0%nat))) as [->|Hneg]; [done|].
      pose proof (Qabs_nonneg (a 0%nat 0%nat)). lra.
  - apply list_eq. intros i. rewrite list_lookup_fmap. destruct (decide (i < n)%nat) as [Hi|Hi].
    + rewrite lookup_seq_lt by done. symmetry. apply lookup_seqZ. lia.
    + rewrite lookup_seq_ge by lia. symmetry. apply lookup_ge_None. rewrite length_seqZ. lia.
Qed.

(** The number of terms: the least one, from 1, with which the series reaches the bound. *)
Record enough_terms (x bound : Q) (p : nat) : Prop := {
  et_pos : (0 < p)%nat;
  et_reached : bound <= taylor x p;
  et_least : ∀ k, (0 < k < p)%nat → taylor x k < bound
}.

Lemma terms_loop_fin x q bnd b sum prev p fuel N :
  x ≃ q → bnd ≃ b → sum ≃ taylor q (S p) → prev ≃ term q p → b <= taylor q N → (p < N)%nat → (N ≤ p + fuel)%nat →
  (∀ k, (0 < k < S p)%nat → taylor q k < b) →
  ∃ r, terms_loop fuel x bnd sum prev (Z.of_nat (S p)) = Ret (Z.of_nat r) ∧ enough_terms q b r.
Proof.
  intros Hx Hb. revert sum prev p. induction fuel as [|fuel IH]; intros sum prev p Hsum Hprev HN Hp Hfuel Hleast; [lia|].
  cbn [terms_loop]. rewrite (leb_fin Hb Hsum). destruct (Qle_bool b (taylor q (S p))) eqn:Hle.
  { apply Qle_bool_iff in Hle. exists (S p). split; [done|]. split; [lia|done|done]. }
  assert (taylor q (S p) < b) as Hlt.
  { apply Qnot_le_lt. rewrite <-Qle_bool_iff. congruence. }
  assert (S p < N)%nat as HpN.
  { destruct (decide (N = S p)) as [->|]; [|lia]. lra. }
  assert ((x / nZ (Z.of_nat (S p)) * prev)%D ≃ term q (S p)) as Hnext.
  { assert (¬ inject_Z (Z.of_nat (S p)) == 0) as Hnz by (unfold Qeq; cbn; lia).
    eapply is_fin_weaken; [exact (fin_mul (fin_div Hx (fin_Z (Z.of_nat (S p))) Hnz) Hprev)|by rewrite term_S]. }
  replace (Z.of_nat (S p) + 1)%Z with (Z.of_nat (S (S p))) by lia.
  apply IH; [|done|done|lia|lia|].
  - eapply is_fin_weaken; [exact (fin_add Hsum Hnext)|]. unfold taylor at 2. by rewrite sumN_S.
  - intros k Hk. destruct (decide (k = S p)) as [->|]; [done|]. apply Hleast. lia.
Qed.

(** What the code relies on of the exponential function at [x]: the exponential of [x] and
    of [-x], inverse to each other, and a bound on the number of terms with which the series
    comes within a thousandth of the former, which it never exceeds. *)
Record exp_at (fuel : nat) (x E : Q) : Prop := {
  ea_pos : 0 < E;
  ea_exp : ∀ y, y ≃ x → std_exp y ≃ E;
  ea_neg : ∀ y, y ≃ - x → std_exp y ≃ 1 / E;
  ea_reach : ∃ N, (0 < N ≤ fuel)%nat ∧ E * (1 - (1 # 1000)) <= taylor x N;
  ea_below : ∀ N, taylor x N <= E
}.

Lemma MaxNumTerms_fin fuel x q E : x ≃ q → exp_at fuel q E →
  ∃ p, MaxNumTerms fuel x (nlit (1 # 1000)) = Ret (Z.of_nat p) ∧ enough_terms q (E * (1 - (1 # 1000))) p.
Proof.
  intros Hx HE. destruct (ea_reach _ _ _ HE) as (N & HN & Hreach). pose proof (ea_exp _ _ _ HE x Hx) as Hexp.
  unfold MaxNumTerms. assert ((std_exp x =? ninf)%D = false) as ->.
  { destruct (std_exp x); try done. }
  apply (terms_loop_fin x q _ _ _ _ 0 fuel N); [done| | | |done|lia|lia|lia].
  - apply fin_mul; [done|]. exact (fin_sub (fin_Z 1) (fin_lit (1 # 1000))).
  - eapply is_fin_weaken; [apply (fin_Z 1)|]. unfold taylor, sumN, term. cbn. reflexivity.
  - eapply is_fin_weaken; [apply (fin_Z 1)|]. reflexivity.
Qed.

(** The terms of the series of a matrix. *)
Lemma power_vector_ext n b k v w : (∀ i, (i < n)%nat → v i == w i) →
  ∀ i, (i < n)%nat → power_vector n b k v i == power_vector n b k w i.
Proof.
  intros Hvw. induction k as [|k IH]; [done|]. intros i Hi. cbn. unfold times_vector. apply sumN_ext. intros j Hj. by rewrite IH.
Qed.

(** The sum of terms [1] to [k - 1] after the initial one. *)
Definition series (n : nat) (b : nat → nat → Q) (t c : Q) (x : nat → Q) (p : nat) (i : nat) : Q :=
  sumN p (λ k, c * term t k * power_vector n b k x i).

Lemma sum_loop_fin B n b t q c x k cnt C_prev Ck_sum :
  mat B n n b → t ≃ q →
  mat C_prev n 1 (λ i _, c * term q k * power_vector n b k x i) →
  mat Ck_sum n 1 (λ i _, series n b q c x (S k) i) →
  ∃ y, sum_loop B t (seqZ (Z.of_nat (S k)) (Z.of_nat cnt)) C_prev Ck_sum = Ret y ∧
    mat y n 1 (λ i _, series n b q c x (S k + cnt) i).
Proof.
  intros HB Ht. revert k C_prev Ck_sum. induction cnt as [|cnt IH]; intros k C_prev Ck_sum HC HS.
  { exists Ck_sum. rewrite Nat.add_0_r. done. }
  rewrite seqZ_cons by lia. cbn [sum_loop].
  assert (¬ inject_Z (Z.of_nat (S k)) == 0) as Hnz by (unfold Qeq; cbn; lia).
  destruct (scale_mat _ _ B n n b (fin_div Ht (fin_Z (Z.of_nat (S k))) Hnz) HB) as (D & -> & HD). rewrite bind_Ret.
  destruct (assign_mat _ _ _ _ HD) as (D1 & -> & HD1). rewrite bind_Ret.
  destruct (mul_mat _ _ _ _ _ _ _ HD1 HC (le_n n)) as (C & -> & HCn). rewrite bind_Ret.
  assert (mat C n 1 (λ i _, c * term q (S k) * power_vector n b (S k) x i)) as HC'.
  { eapply mat_ext; [|exact HCn]. intros i j Hi Hj. cbn [power_vector]. unfold times_vector.
    rewrite term_S, (Qmult_comm _ (sumN _ _)), <-sumN_mult. apply sumN_ext. intros l Hl. field. done. }
  destruct (add_mat _ _ _ _ _ _ HS HC') as (S1 & -> & HS1). rewrite bind_Ret.
  destruct (assign_mat _ _ _ _ HC') as (C1 & -> & HC1). rewrite bind_Ret.
  replace (Z.succ (Z.of_nat (S k))) with (Z.of_nat (S (S k))) by lia.
  replace (Z.pred (Z.of_nat (S cnt))) with (Z.of_nat cnt) by lia.
  replace (S k + S cnt)%nat with (S (S k) + cnt)%nat by lia. apply IH; [done|].
  eapply mat_ext; [|exact HS1]. intros i j Hi Hj. unfold series at 2. by rewrite sumN_S.
Qed.

Lemma GetSolutionVector_fin fuel B n b x0 x alpha a t q E :
  mat B n n b → mat x0 n 1 (λ i _, x i) → alpha ≃ a → t ≃ q → exp_at fuel (a * q) E →
  ∃ y p, GetSolutionVector fuel B x0 alpha t (nlit (1 # 1000)) = Ret y ∧
    enough_terms (a * q) (E * (1 - (1 # 1000))) p ∧ mat y n 1 (λ i _, series n b q (1 / E) x p i).
Proof.
  intros HB Hx0 Ha Ht HE. pose proof (fin_mul Ha Ht) as Hat. pose proof (ea_pos _ _ _ HE) as Hpos.
  unfold GetSolutionVector. pose proof (ea_neg _ _ _ HE _ (fin_neg Hat)) as Hneg.
  assert ((std_exp (nneg (alpha * t)) =? nZ 0)%D = false) as ->.
  { destruct (_ =? _)%D eqn:Heq; [|done]. apply (fin_eqb_true Hneg (fin_Z 0)) in Heq.
    assert (0 < 1 / E) as Hp by (apply Qlt_shift_div_l; lra). change (inject_Z 0) with 0 in Heq. lra. }
  destruct (scale_mat _ _ _ _ _ _ Hneg Hx0) as (C & -> & HC). rewrite bind_Ret.
  destruct (MaxNumTerms_fin fuel _ _ E Hat HE) as (p & -> & Hp). rewrite bind_Ret.
  destruct p as [|p]; [pose proof (et_pos _ _ _ Hp); lia|].
  replace (Z.of_nat (S p) - 1)%Z with (Z.of_nat p) by lia.
  assert (mat C n 1 (λ i _, 1 / E * term q 0 * power_vector n b 0 x i)) as HC'.
  { eapply mat_ext; [|exact HC]. intros i j Hi Hj. cbn. unfold term. cbn. field. lra. }
  destruct (sum_loop_fin B n b t q (1 / E) x 0 p C C HB Ht HC') as (y & Hy & HY).
  - eapply mat_ext; [|exact HC']. intros i j Hi Hj. unfold series, sumN. cbn. ring.
  - exists y, (S p). done.
Qed.

(** The matrix that the series is taken of. *)
Definition uniformized (a : nat → nat → Q) (n : nat) (i j : nat) : Q :=
  (if decide (i = j) then 1 else 0) * max_diag a n + a i j.

Lemma MatrixExpSolver_fin fuel A n a x0 x t q E :
  mat A (S n) (S n) a → mat x0 (S n) 1 (λ i _, x i) → t ≃ q → exp_at fuel (max_diag a (S n) * q) E →
  ∃ y p, MatrixExpSolver fuel A x0 t = Ret y ∧ enough_terms (max_diag a (S n) * q) (E * (1 - (1 # 1000))) p ∧
    mat y (S n) 1 (λ i _, series (S n) (uniformized a (S n)) q (1 / E) x p i).
Proof.
  intros HA Hx0 Ht HE. unfold MatrixExpSolver, NumRows. rewrite (mat_rows _ _ _ _ HA), (mat_rows _ _ _ _ Hx0), Z.eqb_refl.
  cbn [negb]. destruct (MaxAbsDiag_fin A n a HA) as (alpha & -> & Halpha). rewrite bind_Ret.
  destruct (identity_mat (S n)) as (I & -> & HI). rewrite bind_Ret.
  destruct (scale_mat _ _ _ _ _ _ Halpha HI) as (B1 & -> & HB1). rewrite bind_Ret.
  destruct (assign_mat _ _ _ _ HB1) as (B2 & -> & HB2). rewrite bind_Ret.
  destruct (add_mat _ _ _ _ _ _ HB2 HA) as (B & -> & HB). rewrite bind_Ret.
  destruct (GetSolutionVector_fin fuel B (S n) _ x0 x alpha _ t q E HB Hx0 Halpha Ht HE) as (y & p & -> & Hp & Hy).
  rewrite bind_Ret. destruct (assign_mat _ _ _ _ Hy) as (y1 & -> & Hy1). exists y1, p. done.
Qed.

(** ** Conservation

    If every column of a matrix adds up to the same number, so does its series. *)
Lemma power_vector_total n b c k v : (∀ j, (j < n)%nat → sumN n (λ i, b i j) == c) →
  sumN n (power_vector n b k v) == qpow c k * sumN n v.
Proof.
  intros Hb. induction k as [|k IH]; cbn [power_vector qpow]; [ring|].
  unfold times_vector. rewrite (sumN_swap n n (λ i j, b i j * power_vector n b k v j)).
  rewrite (sumN_ext n _ (λ j, power_vector n b k v j * c)).
  - rewrite sumN_mult, IH. ring.
  - intros j Hj. rewrite sumN_mult, Hb by done. ring.
Qed.
Lemma series_total n b t c a x p : (∀ j, (j < n)%nat → sumN n (λ i, b i j) == a) →
  sumN n (series n b t c x p) == c * taylor (a * t) p * sumN n x.
Proof.
  intros Hb. unfold series. rewrite (sumN_swap n p (λ i k, c * term t k * power_vector n b k x i)). unfold taylor.
  rewrite (sumN_ext p _ (λ k, term (a * t) k * (c * sumN n x))).
  - rewrite sumN_mult. ring.
  - intros k _. rewrite (sumN_ext n _ (λ i, power_vector n b k x i * (c * term t k))) by (intros; ring).
    rewrite sumN_mult, (power_vector_total n b a k x Hb). unfold term. rewrite qpow_mult. field. apply fact_nonzero.
Qed.
Lemma power_vector_nonneg n b k v : (∀ i j, (i < n)%nat → (j < n)%nat → 0 <= b i j) → (∀ i, (i < n)%nat → 0 <= v i) →
  ∀ i, (i < n)%nat → 0 <= power_vector n b k v i.
Proof.
  intros Hb Hv. induction k as [|k IH]; [done|]. intros i Hi. cbn. apply sumN_nonneg. intros j Hj.
  apply Qmult_le_0_compat; [by apply Hb|by apply IH].
Qed.
Lemma series_nonneg n b t c x p : 0 <= t → 0 <= c → (∀ i j, (i < n)%nat → (j < n)%nat → 0 <= b i j) →
  (∀ i, (i < n)%nat → 0 <= x i) → ∀ i, (i < n)%nat → 0 <= series n b t c x p i.
Proof.
  intros Ht Hc Hb Hx i Hi. apply sumN_nonneg. intros k _. apply Qmult_le_0_compat.
  - apply Qmult_le_0_compat; [done|by apply term_nonneg].
  - by apply power_vector_nonneg.
Qed.
Lemma max_diag_ge a n i : (i < n)%nat → Qabs (a i i) <= max_diag a n.
Proof.
  intros Hi. unfold max_diag. assert (i ∈ seq 0 n) as Hin by (apply elem_of_seq; lia). revert Hin.
  generalize (seq 0 n). induction l as [|j l IH]; [by intros ?%elem_of_nil|]. cbn. intros [->|Hin]%elem_of_cons; [apply Q.le_max_l|].
  eapply Qle_trans; [by apply IH|apply Q.le_max_r].
Qed.
Lemma max_diag_some a n : max_diag a n == 0 ∨ ∃ i, (i < n)%nat ∧ max_diag a n == Qabs (a i i).
Proof.
  unfold max_diag. assert (∀ i, i ∈ seq 0 n → (i < n)%nat) as Hin by (intros i [_ ?]%elem_of_seq; done). revert Hin.
  generalize (seq 0 n). induction l as [|j l IH]; intros Hin; [by left|]. cbn.
  destruct (Q.max_spec (Qabs (a j j)) (foldr Qmax 0 (map (λ i, Qabs (a i i)) l))) as [[_ Hm]|[_ Hm]].
  - destruct IH as [H0|(i & Hi & He)]; [intros i Hi; apply Hin; by right|left; by rewrite Hm|]. right. exists i. by rewrite Hm.
  - right. exists j. rewrite Hm. split; [|done]. apply Hin. by left.
Qed.
End taylor_series.
