(* ===== verification/DecayTheory.v ===== *)
(** * The decay matrix

    The static members of [Decayer] always number the nuclides that were seen, with all
    their descendants, and hold the matrix of their decay. *)

From Stdlib Require Import QArith Qminmax Qabs Lqa ZArith Lia.
From stdpp Require Import base list gmap sorting.
From S2P Require Import Prelude Num Arithmetic LMatrix CompMath Decayer MatrixTheory.

Local Open Scope Q_scope.

(** A loop that collects values, with an invariant indexed by the elements visited. *)
Lemma runs_collect_map {S A B : Type} (h : A → B) (I : list A → S → Prop) (f : A → M S B) l s :
  I [] s →
  (∀ pre x post s1, l = pre ++ x :: post → I pre s1 → runs (f x) s1 (λ y s2, y = h x ∧ I (pre ++ [x]) s2)) →
  runs (for_collect f l) s (λ ys s', ys = h <$> l ∧ I l s').
Proof.
  intros Hs Hf.
  cut (∀ post pre s1, l = pre ++ post → I pre s1 → runs (for_collect f post) s1 (λ ys s', ys = h <$> post ∧ I l s')).
  { intros Hgen. by apply (Hgen l []). }
  induction post as [|x post IH]; intros pre s1 Hl HI.
  - rewrite app_nil_r in Hl. subst pre. by exists [], s1.
  - destruct (Hf pre x post s1 Hl HI) as (y & s2 & Hx & -> & HI2).
    destruct (IH (pre ++ [x]) s2) as (ys & s3 & Hys & -> & HI3); [by rewrite <-app_assoc|done|].
    exists (h x :: (h <$> post)), s3. split; [by eapply for_collect_cons|done].
Qed.

Section decay.
Context `{Exponential xq} `{DecayData xq} (U : gset Z).

(** What the code relies on of the decay data of the nuclides in [U]: children are in [U],
    decay constants and branching ratios are not negative, and the branching ratios of a
    nuclide that decays add up to one. *)
Record data_ok : Prop := {
  do_closed : ∀ nuc, nuc ∈ U → decay_children nuc ⊆ U;
  do_self : ∀ nuc, nuc ∈ U → nuc ∉ decay_children nuc;
  do_const : ∀ nuc, nuc ∈ U → finite (decay_const nuc) ∧ 0 <= val (decay_const nuc);
  do_branch : ∀ nuc d, nuc ∈ U → d ∈ decay_children nuc → finite (branch_ratio nuc d) ∧ 0 <= val (branch_ratio nuc d);
  do_total : ∀ nuc, nuc ∈ U → 0 < val (decay_const nuc) →
    sumQ (map (λ d, val (branch_ratio nuc d)) (set_in_order (decay_children nuc))) == 1
}.
Context (Hdata : data_ok).

(** ** Tracked nuclides

    Every nuclide that is tracked has its place in the list as its column; all but those
    that are still being added have their daughters, which are tracked as well. *)
Definition daughters_of (nuc : Z) : list (Z * xq) := (λ d, (d, branch_ratio nuc d)) <$> set_in_order (decay_children nuc).
Record tracked_inv (P : gset Z) (s : DecayerStatic xq) : Prop := {
  ti_nodup : NoDup (nuclides_tracked_ s);
  ti_known : ∀ nuc, nuc ∈ nuclides_tracked_ s → nuc ∈ U;
  ti_parent : ∀ nuc p, parent_ s !! nuc = Some p ↔
    ∃ i, nuclides_tracked_ s !! i = Some nuc ∧ p = (Z.of_nat i + 1, decay_const nuc)%Z;
  ti_daughters : ∀ i nuc, nuclides_tracked_ s !! i = Some nuc → nuc ∉ P →
    daughters_ s !! (Z.of_nat i + 1)%Z = Some (daughters_of nuc) ∧ ∀ d, d ∈ decay_children nuc → d ∈ nuclides_tracked_ s
}.

Lemma tracked_size P s : tracked_inv P s → size (parent_ s) = length (nuclides_tracked_ s).
Proof.
  intros Hs. rewrite <-(size_dom (D := gset Z)). rewrite <-(size_list_to_set (C := gset Z) _ (ti_nodup _ _ Hs)). f_equal.
  apply set_eq. intros nuc. rewrite elem_of_dom, elem_of_list_to_set. split.
  - intros [p (i & Hi & _)%(ti_parent _ _ Hs)]. by eapply list_elem_of_lookup_2.
  - intros [i Hi]%list_elem_of_lookup. eexists. apply (ti_parent _ _ Hs). eauto.
Qed.

(** The state while the daughters of a new nuclide are added. *)
Lemma tracked_new P s nuc : tracked_inv P s → nuc ∈ U → nuc ∉ nuclides_tracked_ s →
  let col := (Z.of_nat (size (parent_ s)) + 1)%Z in
  tracked_inv ({[nuc]} ∪ P) (AddNucToList nuc (set_parent (<[nuc := (col, decay_const nuc)]> (parent_ s)) s)).
Proof.
  intros Hs HU Hn. unfold AddNucToList, IsNucTracked. cbn [nuclides_tracked_ set_parent]. rewrite bool_decide_false by done.
  rewrite (tracked_size P s Hs). destruct Hs as [Hnd Hk Hp Hd]. split; cbn.
  - apply NoDup_app. split_and!; [done|set_solver|apply NoDup_singleton].
  - set_solver.
  - intros x p. rewrite lookup_insert. destruct (decide (nuc = x)) as [<-|Hne].
    + split.
      * intros [= <-]. exists (length (nuclides_tracked_ s)). by rewrite list_lookup_middle.
      * intros (i & Hi & ->). apply lookup_app_Some in Hi as [Hi|[Hge Hi]]; [by apply list_elem_of_lookup_2 in Hi|].
        apply list_lookup_singleton_Some in Hi as [Hi _]. by replace i with (length (nuclides_tracked_ s)) by lia.
    + rewrite Hp. split.
      * intros (i & Hi & ->). exists i. by rewrite lookup_app_l by by eapply lookup_lt_Some.
      * intros (i & Hi & ->). exists i. split; [|done]. apply lookup_app_Some in Hi as [Hi|[_ Hi]]; [done|].
        apply list_lookup_singleton_Some in Hi as [_ Hi]. congruence.
  - intros i x Hi Hx. apply lookup_app_Some in Hi as [Hi|[_ Hi]].
    + destruct (Hd i x Hi ltac:(set_solver)) as [? Hch]. split; [done|]. intros d Hdd. apply elem_of_app. left. by apply Hch.
    + apply list_lookup_singleton_Some in Hi as [_ <-]. set_solver.
Qed.

(** How a nuclide and its descendants are added. *)
Definition grown (s s' : DecayerStatic xq) : Prop :=
  nuclides_tracked_ s `prefix_of` nuclides_tracked_ s' ∧ decay_matrix_ s' = decay_matrix_ s.
Lemma grown_in s s' nuc : grown s s' → nuc ∈ nuclides_tracked_ s → nuc ∈ nuclides_tracked_ s'.
Proof. intros [[k ->] _]. set_solver. Qed.
Lemma grown_at s s' i nuc : grown s s' → nuclides_tracked_ s !! i = Some nuc → nuclides_tracked_ s' !! i = Some nuc.
Proof. intros [Hp _] Hi. by eapply prefix_lookup_Some. Qed.
#[export] Instance grown_preorder : PreOrder grown.
Proof. split; [by intros s|]. intros s1 s2 s3 [? ?] [? ?]. split; [by etrans|congruence]. Qed.

Definition untracked (s : DecayerStatic xq) : nat := size (U ∖ list_to_set (nuclides_tracked_ s)).
Lemma untracked_grown s s' : grown s s' → (untracked s' ≤ untracked s)%nat.
Proof. intros [[k Hk] _]. unfold untracked. apply subseteq_size. rewrite Hk. set_solver. Qed.

Lemma AddNucToMaps_runs fuel : ∀ P s nuc, tracked_inv P s → nuc ∈ U → (untracked s < fuel)%nat →
  runs (AddNucToMaps fuel nuc) s (λ _ s', tracked_inv P s' ∧ grown s s' ∧ nuc ∈ nuclides_tracked_ s').
Proof.
  induction fuel as [|fuel IH]; intros P s nuc Hs HU Hfuel; [lia|]. cbn [AddNucToMaps].
  apply runs_bind, runs_get. unfold IsNucTracked. case_bool_decide as Ht; [by apply runs_ret|].
  pose proof (tracked_new P s nuc Hs HU Ht) as Hs1. rewrite (tracked_size P s Hs) in Hs1 |- *. cbn zeta in Hs1.
  apply runs_bind, runs_modify, runs_bind, runs_modify. set (s1 := AddNucToList _ _) in *.
  assert (nuclides_tracked_ s1 = nuclides_tracked_ s ++ [nuc]) as Htr.
  { unfold s1, AddNucToList, IsNucTracked. cbn. by rewrite bool_decide_false. }
  assert (grown s s1) as Hg1.
  { split; [rewrite Htr; by apply prefix_app_r|]. unfold s1, AddNucToList. by destruct (IsNucTracked _ _). }
  assert (untracked s1 < untracked s)%nat as Hu1.
  { unfold untracked. apply subset_size. rewrite Htr. set_solver. }
  clearbody s1. apply runs_bind. eapply runs_mono.
  { apply (runs_collect_map (λ d, (d, branch_ratio nuc d))
      (λ pre s2, tracked_inv ({[nuc]} ∪ P) s2 ∧ grown s1 s2 ∧ ∀ d, d ∈ pre → d ∈ nuclides_tracked_ s2)).
    - split_and!; [done|done|]. by intros d ?%elem_of_nil.
    - intros pre d post s2 Hl (H2 & Hg2 & Hpre).
      assert (d ∈ decay_children nuc) as Hd by (apply elem_of_set_in_order; rewrite Hl; set_solver).
      apply runs_bind. eapply runs_mono.
      { apply (IH _ s2 d H2); [by apply (do_closed Hdata nuc HU)|]. pose proof (untracked_grown s1 s2 Hg2). lia. }
      intros _ s3 (H3 & Hg3 & Hd3). apply runs_ret. split_and!; [done|done|by etrans|].
      intros x [Hx|Hx%list_elem_of_singleton]%elem_of_app; [|by subst x]. eapply grown_in; [done|by apply Hpre]. }
  intros dvec s2 (-> & H2 & Hg2 & Hch). apply runs_modify. split_and!.
  - destruct H2 as [Hnd Hk Hp Hd]. split; cbn; [done|done|done|]. intros i x Hi Hx.
    assert (nuclides_tracked_ s2 !! length (nuclides_tracked_ s) = Some nuc) as Hnuc.
    { eapply grown_at; [exact Hg2|]. by rewrite Htr, list_lookup_middle. }
    destruct (decide (x = nuc)) as [->|Hne].
    + replace i with (length (nuclides_tracked_ s)) by by eapply NoDup_lookup. rewrite lookup_insert_eq. split; [done|].
      intros d Hdd. apply Hch. by apply elem_of_set_in_order.
    + rewrite lookup_insert_ne; [apply Hd; [done|set_solver]|]. intros Heq.
      assert (i = length (nuclides_tracked_ s)) as -> by lia. congruence.
  - etrans; [exact Hg1|]. exact Hg2.
  - cbn. eapply grown_in; [exact Hg2|]. rewrite Htr. set_solver.
Qed.

Lemma track_all_runs fuel nucs b s : tracked_inv ∅ s → (untracked s < fuel)%nat → Forall (.∈ U) nucs →
  runs (track_all fuel nucs b) s (λ b' s', tracked_inv ∅ s' ∧ grown s s' ∧ (∀ nuc, nuc ∈ nucs → nuc ∈ nuclides_tracked_ s') ∧
    (b' = true ∨ b' = b ∧ s' = s)).
Proof.
  revert b s. induction nucs as [|nuc nucs IH]; intros b s Hs Hfuel HU.
  { apply runs_ret. split_and!; [done|done| |by right]. by intros nuc ?%elem_of_nil. }
  apply Forall_cons in HU as [Hn HU]. cbn [track_all]. apply runs_bind, runs_get.
  unfold IsNucTracked. case_bool_decide as Ht.
  - eapply runs_mono; [by apply IH|]. intros b' s' (H1 & H2 & H3 & H4). split_and!; [done|done| |done].
    intros x [->|Hx]%elem_of_cons; [by eapply grown_in|by apply H3].
  - apply runs_bind. eapply runs_mono; [by apply (AddNucToMaps_runs fuel ∅)|]. intros _ s1 (Hs1 & Hg1 & Hn1).
    eapply runs_mono; [apply IH; [done| |done]|].
    + pose proof (untracked_grown s s1 Hg1). lia.
    + intros b' s' (H1 & H2 & H3 & H4). split_and!; [done|by etrans| |naive_solver].
      intros x [->|Hx]%elem_of_cons; [by eapply grown_in|by apply H3].
Qed.

(** ** The matrix *)
Definition rate (nuc : Z) : Q := val (matrix_const (decay_const nuc)).
Lemma rate_fin nuc : nuc ∈ U → matrix_const (decay_const nuc) ≃ rate nuc.
Proof. intros HU. unfold rate, matrix_const. destruct (_ =? _)%D; [apply (fin_Z 0)|apply (do_const Hdata nuc HU)]. Qed.
Lemma rate_cases nuc : rate nuc = 0 ∨ rate nuc = val (decay_const nuc).
Proof. unfold rate, matrix_const. destruct (_ =? _)%D; [by left|by right]. Qed.
Lemma rate_nonneg nuc : nuc ∈ U → 0 <= rate nuc.
Proof. intros HU. destruct (rate_cases nuc) as [-> | ->]; [lra|apply (do_const Hdata nuc HU)]. Qed.

(** The column of a nuclide, when the daughters in [ds] have been written. *)
Definition column_entry (tr : list Z) (nuc : Z) (ds : list Z) (i j : nat) : Q :=
  if decide (i = j) then - rate nuc
  else match tr !! i with
       | Some d => if decide (d ∈ ds) then val (branch_ratio nuc d) * rate nuc else 0
       | None => 0
       end.
Definition decay_entry (tr : list Z) (i j : nat) : Q :=
  match tr !! j with Some nuc => column_entry tr nuc (set_in_order (decay_children nuc)) i j | None => 0 end.

(** What building the matrix leaves alone. *)
Definition same_maps (s s' : DecayerStatic xq) : Prop :=
  parent_ s' = parent_ s ∧ daughters_ s' = daughters_ s ∧ nuclides_tracked_ s' = nuclides_tracked_ s.
#[export] Instance same_maps_preorder : PreOrder same_maps.
Proof. split; [by intros s|]. unfold same_maps. intros s1 s2 s3 (-> & -> & ->). done. Qed.
Lemma same_maps_inv P s s' : same_maps s s' → tracked_inv P s → tracked_inv P s'.
Proof. intros (Hp & Hd & Ht) []. split; rewrite ?Hp, ?Hd, ?Ht; done. Qed.

Lemma write_matrix_runs s n e i j x q : mat (decay_matrix_ s) n n e → (i < n)%nat → (j < n)%nat → x ≃ q →
  runs (write_matrix (Z.of_nat i + 1) (Z.of_nat j + 1) x) s (λ _ s', same_maps s s' ∧
    mat (decay_matrix_ s') n n (λ i' j', if decide (i' = i ∧ j' = j) then q else e i' j')).
Proof.
  intros Hm Hi Hj Hx. unfold write_matrix. apply runs_bind, runs_get, runs_bind.
  destruct (SetElement_mat _ _ _ _ i j x q Hm Hi Hj Hx) as (A & HA & HmA). exists A, s. split; [unfold pure; by rewrite HA|].
  by apply runs_modify.
Qed.

(** Columns are written one by one, and every one from the top of its daughters. *)
Section column.
Context (s0 : DecayerStatic xq) (Hs0 : tracked_inv ∅ s0).
Local Abbreviation tr := (nuclides_tracked_ s0).
Local Abbreviation n := (length (nuclides_tracked_ s0)).
Context (e : nat → nat → Q) (nuc : Z) (j : nat) (Hj : tr !! j = Some nuc).

Definition with_column (ds : list Z) (i' j' : nat) : Q := if decide (j' = j) then column_entry tr nuc ds i' j else e i' j'.

Lemma column_nuc : nuc ∈ U.
Proof. by eapply (ti_known _ _ Hs0), list_elem_of_lookup_2. Qed.
Lemma column_lt : (j < n)%nat.
Proof. by eapply lookup_lt_Some. Qed.

Lemma write_daughter_runs s ds x : same_maps s0 s → mat (decay_matrix_ s) n n (with_column ds) → x ∈ decay_children nuc →
  runs (irow ← column_of x; write_matrix irow (Z.of_nat j + 1) (branch_ratio nuc x * matrix_const (decay_const nuc))%D) s
    (λ _ s', same_maps s0 s' ∧ mat (decay_matrix_ s') n n (with_column (ds ++ [x]))).
Proof.
  intros Hs Hm Hx. pose proof column_nuc as HU.
  destruct (ti_daughters _ _ Hs0 j nuc Hj ltac:(set_solver)) as [_ Hch].
  destruct (proj1 (list_elem_of_lookup _ _) (Hch x Hx)) as [i Hi].
  assert (i < n)%nat as Hin by by eapply lookup_lt_Some.
  assert (i ≠ j) as Hij.
  { intros ->. assert (x = nuc) as -> by congruence. by apply (do_self Hdata nuc HU). }
  unfold column_of. apply runs_bind, runs_bind, runs_get, runs_bind.
  eapply runs_option; [destruct Hs as (-> & _); apply (ti_parent _ _ Hs0); eauto|]. apply runs_ret. cbn [fst].
  eapply runs_mono; [exact (write_matrix_runs s n _ i j _ _ Hm Hin column_lt
    (fin_mul (proj1 (do_branch Hdata nuc x HU Hx)) (rate_fin nuc HU)))|].
  intros [] s3 [Hs3 Hm3]. split; [by etrans|]. eapply mat_ext; [|exact Hm3]. intros i' j' Hi' Hj'. cbn. unfold with_column.
  destruct (decide (j' = j)) as [->|Hne]; [|by rewrite decide_False by naive_solver].
  unfold column_entry. destruct (decide (i' = i)) as [->|Hne].
  - rewrite decide_True, decide_False, Hi by done. by rewrite decide_True by set_solver.
  - rewrite decide_False by naive_solver. destruct (decide (i' = j)); [done|]. destruct (tr !! i') as [y|] eqn:Hy; [|done].
    assert (y ≠ x) as Hyx.
    { intros ->. apply Hne. by eapply (NoDup_lookup tr); [apply (ti_nodup _ _ Hs0)|..]. }
    by rewrite (decide_ext (y ∈ ds ++ [x]) (y ∈ ds)) by set_solver.
Qed.

Lemma build_column_runs s : same_maps s0 s → mat (decay_matrix_ s) n n e → (∀ i, (i < n)%nat → e i j == 0) →
  runs (build_column (nuc, (Z.of_nat j + 1, decay_const nuc)%Z)) s (λ _ s', same_maps s0 s' ∧
    mat (decay_matrix_ s') n n (λ i' j', if decide (j' = j) then decay_entry tr i' j else e i' j')).
Proof.
  intros Hsame Hm Hz. destruct (ti_daughters _ _ Hs0 j nuc Hj ltac:(set_solver)) as [Hdau _].
  unfold build_column. apply runs_bind. eapply runs_mono.
  { apply (write_matrix_runs s n e j j _ _ Hm column_lt column_lt (fin_mul (fin_Z (-1)) (rate_fin nuc column_nuc))). }
  intros [] s1 [Hs1 Hm1]. assert (same_maps s0 s1) as Hs01 by by etrans.
  apply runs_bind, runs_get, runs_bind. eapply runs_option; [destruct Hs01 as (_ & -> & _); exact Hdau|].
  eapply runs_mono.
  { apply (runs_for_each_visited (λ pre s2, same_maps s0 s2 ∧ mat (decay_matrix_ s2) n n (with_column pre.*1))).
    - split; [done|]. eapply mat_ext; [|exact Hm1]. intros i' j' Hi' Hj'. cbn. unfold with_column.
      destruct (decide (j' = j)) as [->|Hne]; [|by rewrite decide_False by naive_solver].
      unfold column_entry. destruct (decide (i' = j)) as [->|Hne].
      + rewrite decide_True by done. ring.
      + rewrite decide_False by naive_solver. rewrite Hz by done. by destruct (tr !! i').
    - intros pre d post s2 Hl [Hs2 Hm2]. assert (d ∈ daughters_of nuc) as Hin by (rewrite Hl; set_solver).
      unfold daughters_of in Hin. apply list_elem_of_fmap in Hin as (x & -> & Hx%elem_of_set_in_order). rewrite fmap_app.
      by apply write_daughter_runs. }
  intros [] s2 [Hs2 Hm2]. split; [done|]. eapply mat_ext; [|exact Hm2]. intros i' j' Hi' Hj'. unfold with_column.
  destruct (decide (j' = j)) as [->|]; [|done]. unfold decay_entry. rewrite Hj. unfold daughters_of.
  rewrite <-list_fmap_compose. by rewrite list_fmap_id.
Qed.
End column.

Lemma BuildDecayMatrix_runs s : tracked_inv ∅ s →
  runs BuildDecayMatrix s (λ _ s', same_maps s s' ∧
    mat (decay_matrix_ s') (length (nuclides_tracked_ s)) (length (nuclides_tracked_ s)) (decay_entry (nuclides_tracked_ s))).
Proof.
  intros Hs. set (tr := nuclides_tracked_ s). set (n := length tr).
  unfold BuildDecayMatrix. apply runs_bind, runs_get, runs_bind. rewrite (tracked_size ∅ s Hs).
  destruct (new_LMatrix_mat n n) as (A0 & HA0 & Hm0). destruct (assign_mat _ _ _ _ Hm0) as (A & HA & HmA).
  exists A, s. split; [unfold pure; fold tr n; by rewrite HA0, bind_Ret, HA|]. apply runs_bind, runs_modify.
  set (s1 := set_decay_matrix A s).
  set (done_with (pre : list (Z * (Z * xq))) i j := match tr !! j with
    | Some nuc => if decide (nuc ∈ pre.*1) then decay_entry tr i j else 0 | None => 0 end).
  eapply runs_mono.
  { apply (runs_for_each_visited (λ pre s2, same_maps s s2 ∧ mat (decay_matrix_ s2) n n (done_with pre))).
    - split; [done|]. eapply mat_ext; [|exact HmA]. intros i j Hi Hj. unfold done_with. by destruct (tr !! j).
    - intros pre [nuc p] post s2 Hl [Hs2 Hm2].
      assert ((nuc, p) ∈ in_order (parent_ s)) as Hin by (rewrite Hl; set_solver).
      apply elem_of_in_order, (ti_parent _ _ Hs) in Hin as (j & Hj & ->).
      assert (nuc ∉ pre.*1) as Hnew.
      { pose proof (NoDup_fst_in_order (parent_ s)) as Hnd. rewrite Hl, fmap_app in Hnd. apply NoDup_app in Hnd as (_ & Hnd & _).
        intros Hx. apply (Hnd nuc Hx). cbn. set_solver. }
      eapply runs_mono; [apply (build_column_runs s Hs _ nuc j Hj s2 Hs2 Hm2)|].
      + intros i Hi. unfold done_with. unfold tr. rewrite Hj. by rewrite decide_False.
      + intros [] s3 [Hs3 Hm3]. split; [done|]. eapply mat_ext; [|exact Hm3]. intros i' j' Hi' Hj'. cbn. unfold done_with.
        destruct (decide (j' = j)) as [->|Hne].
        * unfold tr. rewrite Hj, decide_True; [done|]. rewrite fmap_app. apply elem_of_app. right. by left.
        * destruct (tr !! j') as [x|] eqn:Hx; [|done]. assert (x ≠ nuc).
          { intros ->. apply Hne. by eapply (NoDup_lookup tr); [apply (ti_nodup _ _ Hs)|..]. }
          rewrite fmap_app. by rewrite (decide_ext (x ∈ pre.*1 ++ [(nuc, (Z.of_nat j + 1, decay_const nuc)%Z)].*1) (x ∈ pre.*1)) by set_solver. }
  intros [] s2 [Hs2 Hm2]. split; [done|]. eapply mat_ext; [|exact Hm2]. intros i j Hi Hj. unfold done_with.
  destruct (lookup_lt_is_Some_2 tr j Hj) as [nuc Hnuc]. rewrite Hnuc. rewrite decide_True; [done|].
  apply list_elem_of_fmap. eexists (nuc, _). split; [done|]. apply elem_of_in_order, (ti_parent _ _ Hs). eauto.
Qed.

(** Sums over the nuclides. *)
Lemma sumN_list {X : Type} (f : X → Q) (l : list X) :
  sumN (length l) (λ i, match l !! i with Some x => f x | None => 0 end) == sumQ (map f l).
Proof.
  induction l as [|x l IH] using rev_ind; [done|]. rewrite length_app, Nat.add_1_r, sumN_S, map_app, sumQ_app.
  rewrite list_lookup_middle by done. apply Qplus_comp; [|cbn; ring]. rewrite <-IH. apply sumN_ext. intros i Hi.
  by rewrite lookup_app_l.
Qed.
Lemma sum_children tr nuc (f : Z → Q) : NoDup tr → (∀ d, d ∈ decay_children nuc → d ∈ tr) →
  sumQ (map (λ d, if decide (d ∈ set_in_order (decay_children nuc)) then f d else 0) tr) ==
  sumQ (map f (set_in_order (decay_children nuc))).
Proof.
  intros Hnd Hch. rewrite <-(sumQ_map_filter (.∈ set_in_order (decay_children nuc))). apply sumQ_perm, Permutation_map.
  apply NoDup_Permutation; [by apply NoDup_filter|apply NoDup_set_in_order|]. intros d. rewrite list_elem_of_filter, elem_of_set_in_order.
  naive_solver.
Qed.

(** Nothing is lost: what leaves a nuclide arrives at its daughters. *)
Section entries.
Context (s : DecayerStatic xq) (Hs : tracked_inv ∅ s).
Local Abbreviation tr := (nuclides_tracked_ s).
Local Abbreviation n := (length (nuclides_tracked_ s)).

Lemma decay_column_total j : (j < n)%nat → sumN n (λ i, decay_entry tr i j) == 0.
Proof.
  intros Hj. destruct (lookup_lt_is_Some_2 tr j Hj) as [nuc Hnuc].
  assert (nuc ∈ U) as HU by by eapply (ti_known _ _ Hs), list_elem_of_lookup_2.
  destruct (ti_daughters _ _ Hs j nuc Hnuc ltac:(set_solver)) as [_ Hch].
  set (C := set_in_order (decay_children nuc)).
  assert (nuc ∉ C) as Hself by (unfold C; rewrite elem_of_set_in_order; by apply (do_self Hdata)).
  rewrite (sumN_ext n _ (λ i, (if decide (i = j) then - rate nuc else 0) +
    match tr !! i with Some d => if decide (d ∈ C) then val (branch_ratio nuc d) * rate nuc else 0 | None => 0 end)).
  - rewrite sumN_plus, (sumN_one n _ j Hj), decide_True by (try done; intros; by rewrite decide_False).
    rewrite (sumN_list (λ d, if decide (d ∈ C) then val (branch_ratio nuc d) * rate nuc else 0) tr).
    unfold C. rewrite (sum_children tr nuc _ (ti_nodup _ _ Hs) Hch), sumQ_map_mult.
    destruct (rate_cases nuc) as [-> | ->]; [ring|].
    destruct (Qeq_dec (val (decay_const nuc)) 0) as [Hz|Hz]; [rewrite Hz; ring|].
    rewrite (do_total Hdata nuc HU); [ring|]. destruct (do_const Hdata nuc HU) as [_ Hpos]. lra.
  - intros i Hi. unfold decay_entry, column_entry. rewrite Hnuc. destruct (decide (i = j)) as [->|]; [|by rewrite Qplus_0_l].
    rewrite Hnuc, decide_False by done. ring.
Qed.

Lemma decay_entry_diag j nuc : tr !! j = Some nuc → decay_entry tr j j = - rate nuc.
Proof. intros Hj. unfold decay_entry, column_entry. by rewrite Hj, decide_True. Qed.
Lemma decay_entry_off i j : (j < n)%nat → i ≠ j → 0 <= decay_entry tr i j.
Proof.
  intros Hj Hne. destruct (lookup_lt_is_Some_2 tr j Hj) as [nuc Hnuc].
  assert (nuc ∈ U) as HU by by eapply (ti_known _ _ Hs), list_elem_of_lookup_2.
  unfold decay_entry, column_entry. rewrite Hnuc, decide_False by done. destruct (tr !! i) as [d|]; [|lra].
  destruct (decide _) as [Hd|]; [|lra]. apply elem_of_set_in_order in Hd.
  apply Qmult_le_0_compat; [apply (do_branch Hdata nuc d HU Hd)|by apply rate_nonneg].
Qed.

(** The largest rate is that of a nuclide, or none decays. *)
Lemma decay_max : max_diag (decay_entry tr) n == 0 ∨ ∃ nuc, nuc ∈ tr ∧ max_diag (decay_entry tr) n == rate nuc.
Proof.
  destruct (max_diag_some (decay_entry tr) n) as [|(i & Hi & Hmax)]; [by left|right].
  destruct (lookup_lt_is_Some_2 tr i Hi) as [nuc Hnuc]. exists nuc. apply list_elem_of_lookup_2 in Hnuc as Hin. split; [done|].
  rewrite Hmax, (decay_entry_diag i nuc Hnuc), Qabs_opp. apply Qabs_pos, rate_nonneg. by apply (ti_known _ _ Hs).
Qed.
Lemma uniformized_total j : (j < n)%nat →
  sumN n (λ i, uniformized (decay_entry tr) n i j) == max_diag (decay_entry tr) n.
Proof.
  intros Hj. unfold uniformized. rewrite sumN_plus, decay_column_total by done.
  rewrite (sumN_one n _ j Hj), decide_True; [ring|done|]. intros i Hi Hne. rewrite decide_False by done. ring.
Qed.
Lemma uniformized_nonneg i j : (i < n)%nat → (j < n)%nat → 0 <= uniformized (decay_entry tr) n i j.
Proof.
  intros Hi Hj. unfold uniformized. destruct (decide (i = j)) as [->|Hne].
  - pose proof (max_diag_ge (decay_entry tr) n j Hj) as Hge.
    pose proof (Qle_Qabs (- decay_entry tr j j)) as Ha. rewrite Qabs_opp in Ha. lra.
  - pose proof (decay_entry_off i j Hj Hne). lra.
Qed.
End entries.
End decay.
