(* ===== verification/DecayProperties.v ===== *)
(** * What decay preserves

    Running a [Decayer] on a composition, and the properties of [src/src/decayer.cc],
    [src/src/uniform_taylor.cc] and [src/src/l_matrix.cc] as theorems. *)

From Stdlib Require Import QArith Qminmax Qabs Lqa ZArith Lia.
From stdpp Require Import base list gmap sorting.
From S2P Require Import Prelude Num Arithmetic LMatrix CompMath Decayer MatrixTheory DecayTheory.

Local Open Scope Q_scope.

(** The number of atoms of a nuclide in a composition, and of all. *)
Definition count (comp : CompMap xq) (nuc : Z) : Q := match comp !! nuc with Some x => val x | None => 0 end.


Section decay.
Context `{Exponential xq} `{DecayData xq} (U : gset Z) (Hdata : data_ok U).

(** ** The static members *)
Record static_ok (s : DecayerStatic xq) : Prop := {
  so_tracked : tracked_inv U ∅ s;
  so_matrix : nuclides_tracked_ s = [] ∨
    mat (decay_matrix_ s) (length (nuclides_tracked_ s)) (length (nuclides_tracked_ s)) (decay_entry (nuclides_tracked_ s))
}.

Lemma no_decayer_ok : static_ok no_decayer.
Proof.
  split; [|by left]. split; cbn; [apply NoDup_nil_2|by intros nuc ?%elem_of_nil| |done].
  intros nuc p. rewrite lookup_empty. naive_solver.
Qed.

(** The vector of a composition. *)
Definition vector_of (tr : list Z) (comp : CompMap xq) (i : nat) : Q :=
  match tr !! i with Some nuc => count comp nuc | None => 0 end.

Lemma fill_vector_runs s comp v : static_ok s → (∀ nuc x, comp !! nuc = Some x → finite x ∧ nuc ∈ nuclides_tracked_ s) →
  mat v (length (nuclides_tracked_ s)) 1 (λ _ _, 0) →
  runs (fill_vector (in_order comp) v) s (λ v' s', s' = s ∧
    mat v' (length (nuclides_tracked_ s)) 1 (λ i _, vector_of (nuclides_tracked_ s) comp i)).
Proof.
  intros [Hs _] Hcomp Hv. set (tr := nuclides_tracked_ s).
  set (partial (pre : list (Z * xq)) i := match tr !! i with
    | Some nuc => if decide (nuc ∈ pre.*1) then count comp nuc else 0 | None => 0 end).
  cut (∀ post pre v, in_order comp = pre ++ post → mat v (length tr) 1 (λ i _, partial pre i) →
    runs (fill_vector post v) s (λ v' s', s' = s ∧ mat v' (length tr) 1 (λ i _, partial (in_order comp) i))).
  { intros Hgen. eapply runs_mono; [apply (Hgen (in_order comp) [] v eq_refl)|].
    - eapply mat_ext; [|exact Hv]. intros i j Hi Hj. unfold partial. by destruct (tr !! i).
    - intros v' s' [-> Hm]. split; [done|]. eapply mat_ext; [|exact Hm]. intros i j Hi Hj. unfold partial, vector_of, count.
      destruct (tr !! i) as [nuc|]; [|done]. destruct (decide _) as [|Hno]; [done|].
      destruct (comp !! nuc) as [x|] eqn:Hx; [|done]. exfalso. apply Hno, list_elem_of_fmap. exists (nuc, x).
      split; [done|]. by apply elem_of_in_order. }
  induction post as [|[nuc x] post IH]; intros pre v1 Hl Hm.
  { rewrite app_nil_r in Hl. rewrite <-Hl in Hm. by apply runs_ret. }
  assert (comp !! nuc = Some x) as Hx by (apply elem_of_in_order; rewrite Hl; set_solver).
  destruct (Hcomp nuc x Hx) as [Hfin Hin]. apply list_elem_of_lookup in Hin as [i Hi].
  assert (parent_ s !! nuc = Some (Z.of_nat i + 1, decay_const nuc)%Z) as Hp by (apply (ti_parent _ _ _ Hs); eauto).
  cbn [fill_vector]. apply runs_bind, runs_get. unfold at_default. rewrite Hp. cbn [default fst].
  apply runs_bind, runs_modify. rewrite insert_id by done.
  replace (set_parent (parent_ s) s) with s by by destruct s. apply runs_bind.
  destruct (SetElement_mat v1 (length tr) 1 _ i 0 x (val x) Hm) as (v2 & Hv2 & Hm2); [by eapply lookup_lt_Some|lia|done|].
  change (Z.of_nat 0 + 1)%Z with 1%Z in Hv2. exists v2, s. split; [exact (f_equal (λ o, (o, s)) Hv2)|]. apply (IH (pre ++ [(nuc, x)])); [by rewrite <-app_assoc|].
  eapply mat_ext; [|exact Hm2]. intros i' j' Hi' Hj'. cbn. unfold partial. destruct (decide (i' = i)) as [->|Hne].
  - rewrite decide_True by lia. unfold tr. rewrite Hi, decide_True by (rewrite fmap_app; apply elem_of_app; right; by left).
    unfold count. by rewrite Hx.
  - rewrite decide_False by naive_solver. destruct (tr !! i') as [y|] eqn:Hy; [|done].
    assert (y ≠ nuc). { intros ->. apply Hne. by eapply (NoDup_lookup tr); [apply (ti_nodup _ _ _ Hs)|..]. }
    rewrite fmap_app. by rewrite (decide_ext (y ∈ pre.*1 ++ [(nuc, x)].*1) (y ∈ pre.*1)) by set_solver.
Qed.

Definition comp_ok (comp : CompMap xq) : Prop := ∀ nuc x, comp !! nuc = Some x → nuc ∈ U ∧ finite x ∧ 0 <= val x.

Lemma new_Decayer_runs fuel s comp : static_ok s → comp_ok comp → (untracked U s < fuel)%nat →
  runs (new_Decayer fuel comp) s (λ d s', static_ok s' ∧ nuclides_tracked_ s `prefix_of` nuclides_tracked_ s' ∧
    (∀ nuc, is_Some (comp !! nuc) → nuc ∈ nuclides_tracked_ s') ∧
    mat (pre_vect_ d) (length (nuclides_tracked_ s')) 1 (λ i _, vector_of (nuclides_tracked_ s') comp i)).
Proof.
  intros [Hs Hmat] Hcomp Hfuel. unfold new_Decayer. apply runs_bind. eapply runs_mono.
  { apply (track_all_runs U Hdata fuel _ false s Hs Hfuel). apply Forall_forall.
    intros nuc ([k x] & -> & Hk%elem_of_in_order)%list_elem_of_fmap. by apply (Hcomp k x). }
  intros b s1 (Hs1 & [Hpre Hm1] & Hall & Hb).
  assert (∀ nuc, is_Some (comp !! nuc) → nuc ∈ nuclides_tracked_ s1) as Hin.
  { intros nuc [x Hx]. apply Hall, list_elem_of_fmap. exists (nuc, x). split; [done|]. by apply elem_of_in_order. }
  apply runs_bind. eapply (runs_mono _ _ (λ _ s2, static_ok s2 ∧ nuclides_tracked_ s2 = nuclides_tracked_ s1)).
  { destruct b.
    - eapply runs_mono; [by apply (BuildDecayMatrix_runs U Hdata)|]. intros [] s2 [Hsame Hm2].
      destruct Hsame as (Hp & Hd & Ht). split; [|done]. split; [by apply (same_maps_inv U ∅ s1)|]. right. by rewrite Ht.
    - destruct Hb as [|[_ ->]]; [done|]. apply runs_ret. by split. }
  intros [] s2 [Hs2 Ht2]. apply runs_bind, runs_get, runs_bind. rewrite (tracked_size U ∅ s2 (so_tracked _ Hs2)).
  destruct (new_LMatrix_mat (length (nuclides_tracked_ s2)) 1) as (A0 & HA0 & Hm0). destruct (assign_mat _ _ _ _ Hm0) as (A & HA & HmA).
  exists A, s2. split; [unfold pure; change 1%Z with (Z.of_nat 1); by rewrite HA0, bind_Ret, HA|]. apply runs_bind.
  eapply runs_mono.
  { apply (fill_vector_runs s2 comp A Hs2); [|done]. intros nuc x Hx. split; [by apply (Hcomp nuc x)|].
    rewrite Ht2. apply Hin. by eexists. }
  intros v s3 [-> Hv]. apply runs_ret. rewrite Ht2. split_and!; [done|done|done|]. by rewrite Ht2 in Hv.
Qed.



(** Reading the result, from some of the nuclides. *)
Section result.
Context (s : DecayerStatic xq) (d : Decayer xq) (y : nat → Q) (Hs : tracked_inv U ∅ s).
Context (Hy : mat (post_vect_ d) (length (nuclides_tracked_ s)) 1 (λ i _, y i)).



End result.


(** ** Properties *)

(** The static members are shared by all decayers: if one is created for a composition
    with a nuclide that no decayer has seen, every decayer that was created before, whose
    vector has the old number of nuclides, can not decay any more and throws. *)
Theorem stale_decayer_throws fuel s comp1 comp2 t nuc :
  static_ok s → comp_ok comp1 → comp_ok comp2 → (untracked U s < fuel)%nat →
  ∃ d1 s1, new_Decayer fuel comp1 s = (Ret d1, s1) ∧
    (is_Some (comp2 !! nuc) → nuc ∉ nuclides_tracked_ s1 →
     ∃ d2 s2, new_Decayer fuel comp2 s1 = (Ret d2, s2) ∧ Decay fuel t d1 s2 = (Throw ValueError, s2)).
Proof.
  intros Hs Hc1 Hc2 Hfuel. destruct (new_Decayer_runs fuel s comp1 Hs Hc1 Hfuel) as (d1 & s1 & Hd1 & Hs1 & Hpre1 & _ & Hv1).
  exists d1, s1. split; [done|]. intros Hnuc Hnew.
  assert (untracked U s1 ≤ untracked U s)%nat as Hle.
  { destruct Hpre1 as [k Hk]. apply subseteq_size. rewrite Hk. set_solver. }
  destruct (new_Decayer_runs fuel s1 comp2 Hs1 Hc2) as (d2 & s2 & Hd2 & Hs2 & [k Hk] & Hin & _); [lia|].
  exists d2, s2. split; [done|]. specialize (Hin nuc Hnuc). rewrite Hk in Hin.
  assert (k ≠ []) as Hk0 by (intros ->; by rewrite app_nil_r in Hin).
  destruct (so_matrix _ Hs2) as [Hnil|Hm]; [rewrite Hk in Hnil; by apply app_nil in Hnil as [_ ?]|].
  unfold Decay. rewrite (bind_ret get _ s2 s2 s2 eq_refl). apply bind_throw. unfold pure, UniformTaylor.MatrixExpSolver, NumRows.
  rewrite (mat_rows _ _ _ _ Hv1), (mat_rows _ _ _ _ Hm), Hk, length_app.
  destruct (Z.eqb_spec (Z.of_nat (length (nuclides_tracked_ s1))) (Z.of_nat (length (nuclides_tracked_ s1) + length k))) as [Heq|]; [|done].
  destruct k; [done|]. cbn in Heq. lia.
Qed.

(** C24.  The solver of the matrix exponential returns the sum of the first [p] terms of the
    series of [e^(tA) x = e^(-at) sum (t^k / k!) (A + aI)^k x], where [a] is the largest
    absolute value on the diagonal of [A] and [p] is the least number of terms with which
    the series of [e^(at)] comes within a thousandth. *)
Theorem matrix_exponential fuel A n a x0 x t q E :
  mat A (S n) (S n) a → mat x0 (S n) 1 (λ i _, x i) → t ≃ q → exp_at fuel (max_diag a (S n) * q) E →
  ∃ y p, UniformTaylor.MatrixExpSolver fuel A x0 t = Ret y ∧
    enough_terms (max_diag a (S n) * q) (E * (1 - (1 # 1000))) p ∧
    mat y (S n) 1 (λ i _, sumN p (λ k, 1 / E * term q k *
      power_vector (S n) (λ i j, (if decide (i = j) then 1 else 0) * max_diag a (S n) + a i j) k x i)).
Proof. intros HA Hx Ht HE. exact (MatrixExpSolver_fin fuel A n a x0 x t q E HA Hx Ht HE). Qed.
End decay.

Lemma inner_product_over (A B : LMatrix xq) n m q a b i j c k acc :
  mat A n m a → mat B m q b → (i < n)%nat → (j < q)%nat → (k ≤ m)%nat → (m < k + c)%nat →
  inner_product A B (Z.of_nat i) (Z.of_nat j) (seqZ (Z.of_nat k) (Z.of_nat c)) acc = Throw Undefined.
Proof.
  intros HA HB Hi Hj. revert k acc. induction c as [|c IH]; intros k acc Hk Hc; [lia|]. rewrite seqZ_cons by lia. cbn [inner_product].
  destruct (decide (k = m)) as [->|Hne].
  - destruct (lookup_lt_is_Some_2 (M_ A) i) as [row Hrow]; [by rewrite (mat_len _ _ _ _ HA)|].
    assert (elem (M_ A) (Z.of_nat i) (Z.of_nat m) = Throw Undefined) as ->; [|done].
    unfold elem. rewrite nat_nonneg2, !Nat2Z.id, Hrow. cbn.
    rewrite (proj2 (lookup_ge_None row m)); [done|]. by rewrite (mat_row _ _ _ _ HA i row Hrow).
  - destruct (mat_read A n m a i k HA Hi) as (x & -> & _); [lia|]. destruct (mat_read B m q b k j HB) as (y & -> & _); [lia|done|].
    rewrite !bind_Ret. replace (Z.succ (Z.of_nat k)) with (Z.of_nat (S k)) by lia.
    replace (Z.pred (Z.of_nat (S c))) with (Z.of_nat c) by lia. apply IH; lia.
Qed.
Lemma mapM_throw {X Y : Type} (f : X → outcome Y) e x l : f x = Throw e → mapM f (x :: l) = Throw e.
Proof. intros Hf. cbn. by rewrite Hf. Qed.

(** The product of an [n] by [m] and an [m] by [q] matrix sums [n] terms for every
    element: it is the product of the matrices if they are square, it leaves out terms if
    [n] is less than [m], and it reads past the end of a row if [n] is greater. *)
Theorem product_terms (A B : LMatrix xq) n m q a b : mat A n m a → mat B m q b →
  ((n ≤ m)%nat → ∃ C, mul_assign A B = Ret C ∧ mat C n q (λ i j, sumN n (λ k, a i k * b k j))) ∧
  ((m < n)%nat → (0 < q)%nat → mul_assign A B = Throw Undefined).
Proof.
  intros HA HB. split; [by apply mul_mat|]. intros Hmn Hq. unfold mul_assign.
  rewrite (mat_rows _ _ _ _ HA), (mat_cols _ _ _ _ HA), (mat_rows _ _ _ _ HB), (mat_cols _ _ _ _ HB), Z.eqb_refl.
  unfold new_LMatrix. rewrite nat_nonneg2, bind_Ret. unfold elements, range.
  destruct n as [|n]; [lia|]. destruct q as [|q]; [lia|]. rewrite (seqZ_cons 0 (Z.of_nat (S n))), (seqZ_cons 0 (Z.of_nat (S q))) by lia.
  rewrite mapM_throw with (e := Undefined); [done|]. apply mapM_throw.
  rewrite <-(seqZ_cons 0 (Z.of_nat (S n))) by lia. apply (inner_product_over A B (S n) m (S q) a b 0 0 (S n) 0); [done|done|lia..].
Qed.

(** ** Witnesses

    A nuclide that decays into a stable one, over one mean lifetime; 2.72 is a good enough
    approximation of the exponential of one. *)
Module Example.
Definition ex_exp : Exponential xq := λ x,
  match x with
  | Fin q => if Qeq_bool q 1 then Fin (272 # 100) else if Qeq_bool q (- (1)) then Fin (100 # 272) else Fin 1
  | _ => NaN
  end.
Definition ex_data : DecayData xq := {|
  decay_const nuc := if decide (nuc = 1%Z) then nZ 1 else nZ 0;
  decay_children nuc := if decide (nuc = 1%Z) then {[2%Z]} else ∅;
  branch_ratio _ _ := nZ 1
|}.
#[local] Existing Instances ex_exp ex_data.
Definition ex_nuclides : gset Z := {[1%Z; 2%Z]}.

Lemma ex_data_ok : data_ok ex_nuclides.
Proof.
  assert (∀ nuc, nuc ∈ ex_nuclides → nuc = 1 ∨ nuc = 2)%Z as HU by (unfold ex_nuclides; set_solver).
  split; intros nuc; [intros [-> | ->]%HU..|intros d [-> | ->]%HU|intros [-> | ->]%HU]; cbn; try (vm_compute; done); set_solver.
Qed.

Lemma ex_exp_value y x v : y ≃ x → (∀ q, q == x → ex_exp (Fin q) = Fin v) → ex_exp y ≃ v.
Proof. intros Hy Hv. destruct y as [q| | |]; try done. cbn in Hy. rewrite (Hv q Hy). apply fin_Fin. Qed.

(** The series of the exponential of one stays below 2.72. *)
Lemma taylor_one_step N : (1 ≤ N)%nat → taylor 1 (S N) + 2 * term 1 (S N) <= taylor 1 N + 2 * term 1 N.
Proof.
  intros HN. unfold taylor. rewrite sumN_S, term_S. pose proof (term_nonneg 1 N ltac:(lra)) as Hpos.
  assert (1 / inject_Z (Z.of_nat (S N)) * 2 <= 1) as Hle.
  { assert (1 / inject_Z (Z.of_nat (S N)) * 2 == 2 / inject_Z (Z.of_nat (S N))) as -> by (field; unfold Qeq; cbn; lia).
    apply Qle_shift_div_r; [unfold Qlt; cbn; lia|]. unfold Qle. cbn. lia. }
  pose proof (Qmult_le_compat_r _ _ (term 1 N) Hle Hpos). lra.
Qed.
Lemma taylor_one N : taylor 1 N <= 272 # 100.
Proof.
  destruct (decide (N < 6)%nat) as [HN|HN].
  - do 6 (destruct N as [|N]; [by vm_compute|]). lia.
  - assert (taylor 1 N + 2 * term 1 N <= 272 # 100) as Hu.
    { replace N with (6 + (N - 6))%nat by lia. generalize (N - 6)%nat as k. induction k as [|k IH]; [by vm_compute|].
      rewrite Nat.add_succ_r. eapply Qle_trans; [apply taylor_one_step; lia|exact IH]. }
    pose proof (term_nonneg 1 N ltac:(lra)). lra.
Qed.

Lemma ex_exp_one x : x == 1 → exp_at 10 x (272 # 100).
Proof.
  intros Hx. split.
  - done.
  - intros y Hy. eapply ex_exp_value; [exact Hy|]. intros q Hq. cbn. by rewrite (proj2 (Qeq_bool_iff q 1)) by by rewrite Hq.
  - intros y Hy. eapply is_fin_weaken; [eapply (ex_exp_value _ _ (100 # 272)); [exact Hy|]|done]. intros q Hq. cbn.
    assert (Qeq_bool q 1 = false) as ->.
    { apply not_true_iff_false. rewrite Qeq_bool_iff, Hq, Hx. done. }
    by rewrite (proj2 (Qeq_bool_iff q (- (1)))) by by rewrite Hq, Hx.
  - exists 7%nat. split; [lia|]. rewrite Hx. by vm_compute.
  - intros N. rewrite Hx. apply taylor_one.
Qed.


Definition ex_comp (nuc n : Z) : CompMap xq := {[nuc := nZ n]}.
Lemma ex_comp_ok nuc n : nuc ∈ ex_nuclides → (0 ≤ n)%Z → comp_ok ex_nuclides (ex_comp nuc n).
Proof.
  intros Hnuc Hn k x Hx. unfold ex_comp in Hx. apply lookup_singleton_Some in Hx as [<- <-]. split_and!; [done|apply fin_Z|]. change (val (nZ n)) with (inject_Z n).
  change 0 with (inject_Z 0). by rewrite <-Zle_Qle.
Qed.

Definition ex_matrix : LMatrix xq := mkLMatrix xq [[nZ (-1)]] 1 1.
Definition ex_vector : LMatrix xq := mkLMatrix xq [[nZ 5]] 1 1.
Lemma single_mat z : mat (mkLMatrix xq [[nZ z]] 1 1) 1 1 (λ _ _, inject_Z z).
Proof.
  split; cbn; [done|done|done| |].
  - by intros [|i] row; [intros [= <-]|].
  - intros [|i] [|j] row x; try done; intros [= <-]; [intros [= <-]; apply fin_Z|done].
Qed.
Definition ex_tall : LMatrix xq := mkLMatrix xq [[nZ 1]; [nZ 2]] 2 1.
Lemma tall_mat : mat ex_tall 2 1 (λ i _, match i with O => 1 | _ => 2 end).
Proof.
  split; cbn; [done|done|done| |].
  - by intros [|[|i]] row; [intros [= <-]|intros [= <-]|].
  - intros [|[|i]] [|j] row x; try done; intros [= <-]; try done; intros [= <-]; apply fin_Z.
Qed.
End Example.


Lemma stale_decayer_throws_witness :
  ∃ d1 s1, @new_Decayer xq _ Example.ex_exp Example.ex_data 10 (Example.ex_comp 2 1) no_decayer = (Ret d1, s1) ∧
    (is_Some (Example.ex_comp 1 1 !! 1%Z) → 1%Z ∉ nuclides_tracked_ s1 →
     ∃ d2 s2, @new_Decayer xq _ Example.ex_exp Example.ex_data 10 (Example.ex_comp 1 1) s1 = (Ret d2, s2) ∧
       @Decay xq _ Example.ex_exp 10 (nZ 1) d1 s2 = (Throw ValueError, s2)).
Proof.
  apply (@stale_decayer_throws Example.ex_exp Example.ex_data Example.ex_nuclides Example.ex_data_ok).
  - apply no_decayer_ok.
  - apply Example.ex_comp_ok; [by apply (bool_decide_unpack _)|lia].
  - apply Example.ex_comp_ok; [by apply (bool_decide_unpack _)|lia].
  - by vm_compute; lia.
Defined.

Lemma matrix_exponential_witness :
  ∃ y p, @UniformTaylor.MatrixExpSolver xq _ Example.ex_exp 10 Example.ex_matrix Example.ex_vector (nZ 1) = Ret y ∧
    enough_terms (max_diag (λ _ _, -1) 1 * 1) ((272 # 100) * (1 - (1 # 1000))) p ∧
    mat y 1 1 (λ i _, sumN p (λ k, 1 / (272 # 100) * term 1 k *
      power_vector 1 (λ i j, (if decide (i = j) then 1 else 0) * max_diag (λ _ _, -1) 1 + -1) k (λ _, 5) i)).
Proof.
  apply (@matrix_exponential Example.ex_exp 10 Example.ex_matrix 0 (λ _ _, -1) Example.ex_vector (λ _, 5) (nZ 1) 1).
  - exact (Example.single_mat (-1)).
  - exact (Example.single_mat 5).
  - apply (fin_Z 1).
  - apply Example.ex_exp_one. reflexivity.
Defined.

Lemma product_terms_witness :
  ((2 ≤ 1)%nat → ∃ C, mul_assign Example.ex_tall (mkLMatrix xq [[nZ 3]] 1 1) = Ret C ∧
     mat C 2 1 (λ i j, sumN 2 (λ k, (λ i _ : nat, match i with O => 1 | _ => 2 end) i k * inject_Z 3))) ∧
  ((1 < 2)%nat → (0 < 1)%nat → mul_assign Example.ex_tall (mkLMatrix xq [[nZ 3]] 1 1) = Throw Undefined).
Proof.
  apply (product_terms Example.ex_tall (mkLMatrix xq [[nZ 3]] 1 1) 2 1 1 _ (λ _ _, inject_Z 3)).
  - exact Example.tall_mat.
  - exact (Example.single_mat 3).
Defined.
