(* ===== verification/Resource.v ===== *)
(** * Compositions and resources

    [src/src/composition.*], [src/src/resource.*], [src/src/res_tracker.*],
    [src/src/material.*], [src/src/product.*] and
    [src/src/toolkit/res_manip.*].

    Compositions, decay chains and resources are shared objects: they live in
    stores keyed by address.  [Material] and [Product] have the same members (ids,
    context, quantity, tracker) besides the ones of their kind, so one record
    stands for both, with the class in [kind_].  The parts of the simulation a
    resource reads from its context (time, decay mode, time step) and the static
    counters are in the state as well; recorded data are kept in order. *)

From Stdlib Require Import QArith Qabs Lqa ZArith Lia.
From stdpp Require Import base list gmap strings.
From S2P Require Import Prelude Num Arithmetic CompMath.

(** The functions of pyne that the resources call, and [std::exp]. *)
Class Pyne (F : Type) := {
  pyne_isnuclide : NucName;
  atomic_mass : Z → F;
  decay_const : Z → F;
  decayers_decay : CompMap F → F → CompMap F;
  std_exp : F → F
}.
#[export] Existing Instance pyne_isnuclide.

(** Recorded values. *)
Inductive dval {F : Type} := DInt (z : Z) | DDbl (x : F) | DStr (s : string) | DMap (m : CompMap F).
Arguments dval F : clear implicits.

Record Composition {F : Type} := mkComp {
  comp_id : Z;
  comp_recorded_ : bool;
  atom_ : CompMap F;
  mass_ : CompMap F;
  prev_decay_ : Z;
  decay_line_ : ptr
}.
Arguments Composition F : clear implicits.

(** [ResTracker]; [tr_ctx] tells whether its context pointer is not null. *)
Record ResTracker := mkTracker {
  parent1_ : Z;
  parent2_ : Z;
  tracked_ : bool;
  tr_res : ptr;
  tr_ctx : bool
}.

Inductive ResKind :=
  | KMaterial (comp_ : ptr) (prev_decay_time_ : Z)
  | KProduct (quality_ : string).

Record Resource {F : Type} := mkRes {
  state_id_ : Z;
  obj_id_ : Z;
  res_ctx : bool;
  res_qty : F;
  tracker_ : ResTracker;
  kind_ : ResKind
}.
Arguments Resource F : clear implicits.

Inductive DecayMode := DecayNever | DecayManual | DecayLazy.

Record World {F : Type} := mkWorld {
  comps : gmap ptr (Composition F);
  chains : gmap ptr (gmap Z ptr);
  ress : gmap ptr (Resource F);
  next_ptr : ptr;
  next_comp_id_ : Z;
  nextstate_id_ : Z;
  nextobj_id_ : Z;
  qualids_ : gmap string Z;
  next_qualid_ : Z;
  ctx_time : Z;
  ctx_decay : DecayMode;
  ctx_dt : Z;
  recorded : list (string * list (string * dval F))
}.
Arguments World F : clear implicits.

Section resources.
Context {F : Type} `{Num F} `{Limits F} `{Pyne F}.
Local Abbreviation W := (M (World F)).

(** ** State access *)
Definition set_comps (x : gmap ptr (Composition F)) (w : World F) : World F :=
  mkWorld F x (chains w) (ress w) (next_ptr w) (next_comp_id_ w) (nextstate_id_ w) (nextobj_id_ w)
    (qualids_ w) (next_qualid_ w) (ctx_time w) (ctx_decay w) (ctx_dt w) (recorded w).
Definition set_chains (x : gmap ptr (gmap Z ptr)) (w : World F) : World F :=
  mkWorld F (comps w) x (ress w) (next_ptr w) (next_comp_id_ w) (nextstate_id_ w) (nextobj_id_ w)
    (qualids_ w) (next_qualid_ w) (ctx_time w) (ctx_decay w) (ctx_dt w) (recorded w).
Definition set_ress (x : gmap ptr (Resource F)) (w : World F) : World F :=
  mkWorld F (comps w) (chains w) x (next_ptr w) (next_comp_id_ w) (nextstate_id_ w) (nextobj_id_ w)
    (qualids_ w) (next_qualid_ w) (ctx_time w) (ctx_decay w) (ctx_dt w) (recorded w).
Definition set_next_ptr (x : ptr) (w : World F) : World F :=
  mkWorld F (comps w) (chains w) (ress w) x (next_comp_id_ w) (nextstate_id_ w) (nextobj_id_ w)
    (qualids_ w) (next_qualid_ w) (ctx_time w) (ctx_decay w) (ctx_dt w) (recorded w).
Definition set_next_comp_id (x : Z) (w : World F) : World F :=
  mkWorld F (comps w) (chains w) (ress w) (next_ptr w) x (nextstate_id_ w) (nextobj_id_ w)
    (qualids_ w) (next_qualid_ w) (ctx_time w) (ctx_decay w) (ctx_dt w) (recorded w).
Definition set_nextstate_id (x : Z) (w : World F) : World F :=
  mkWorld F (comps w) (chains w) (ress w) (next_ptr w) (next_comp_id_ w) x (nextobj_id_ w)
    (qualids_ w) (next_qualid_ w) (ctx_time w) (ctx_decay w) (ctx_dt w) (recorded w).
Definition set_nextobj_id (x : Z) (w : World F) : World F :=
  mkWorld F (comps w) (chains w) (ress w) (next_ptr w) (next_comp_id_ w) (nextstate_id_ w) x
    (qualids_ w) (next_qualid_ w) (ctx_time w) (ctx_decay w) (ctx_dt w) (recorded w).
Definition set_qualids (x : gmap string Z) (n : Z) (w : World F) : World F :=
  mkWorld F (comps w) (chains w) (ress w) (next_ptr w) (next_comp_id_ w) (nextstate_id_ w) (nextobj_id_ w)
    x n (ctx_time w) (ctx_decay w) (ctx_dt w) (recorded w).
Definition set_recorded (x : list (string * list (string * dval F))) (w : World F) : World F :=
  mkWorld F (comps w) (chains w) (ress w) (next_ptr w) (next_comp_id_ w) (nextstate_id_ w) (nextobj_id_ w)
    (qualids_ w) (next_qualid_ w) (ctx_time w) (ctx_decay w) (ctx_dt w) x.

(** [ctx->NewDatum(title)->AddVal(..)->Record()] *)
Definition record_datum (title : string) (vals : list (string * dval F)) : W unit :=
  modify (λ w, set_recorded (recorded w ++ [(title, vals)]) w).

(** Objects are read through their pointers. *)
Definition get_comp (c : ptr) : W (Composition F) :=
  w ← get; from_option_or Undefined (comps w !! c).
Definition put_comp (c : ptr) (x : Composition F) : W unit :=
  modify (λ w, set_comps (<[c := x]> (comps w)) w).
Definition get_res (p : ptr) : W (Resource F) :=
  w ← get; from_option_or Undefined (ress w !! p).
Definition put_res (p : ptr) (x : Resource F) : W unit :=
  modify (λ w, set_ress (<[p := x]> (ress w)) w).

(** [new T(...)]: a fresh address. *)
Definition fresh : W ptr :=
  w ← get; modify (set_next_ptr (next_ptr w + 1)%Z);; mret (next_ptr w).

(** ** Compositions *)

Definition set_atom (v : CompMap F) (c : Composition F) : Composition F :=
  mkComp F (comp_id c) (comp_recorded_ c) v (mass_ c) (prev_decay_ c) (decay_line_ c).
Definition set_mass (v : CompMap F) (c : Composition F) : Composition F :=
  mkComp F (comp_id c) (comp_recorded_ c) (atom_ c) v (prev_decay_ c) (decay_line_ c).

(** [Composition::Composition()] and [Composition(prev_decay, decay_line)] *)
Definition new_composition_in (prev_decay : Z) (decay_line : ptr) : W ptr :=
  p ← fresh;
  w ← get;
  modify (set_next_comp_id (next_comp_id_ w + 1)%Z);;
  put_comp p (mkComp F (next_comp_id_ w) false ∅ ∅ prev_decay decay_line);;
  mret p.
Definition new_composition : W ptr :=
  line ← fresh;
  modify (λ w, set_chains (<[line := ∅]> (chains w)) w);;
  new_composition_in 0 line.

Definition valid_comp (v : CompMap F) : W unit :=
  require (compmath.ValidNucs v) ValueError;;
  require (compmath.AllPositive v) ValueError.

Definition CreateFromAtom (v : CompMap F) : W ptr :=
  valid_comp v;;
  p ← new_composition;
  c ← get_comp p;
  put_comp p (set_atom v c);;
  mret p.

Definition CreateFromMass (v : CompMap F) : W ptr :=
  valid_comp v;;
  p ← new_composition;
  c ← get_comp p;
  put_comp p (set_mass v c);;
  mret p.

(** [atom()] and [mass()] compute the other view once. *)
Definition atom (p : ptr) : W (CompMap F) :=
  c ← get_comp p;
  if Nat.eqb (size (atom_ c)) 0 then
    let v := map_imap (λ nuc x, Some (x / atomic_mass nuc)%D) (mass_ c) in
    put_comp p (set_atom v c);; mret v
  else mret (atom_ c).

Definition mass (p : ptr) : W (CompMap F) :=
  c ← get_comp p;
  if Nat.eqb (size (mass_ c)) 0 then
    let v := map_imap (λ nuc x, Some (x * atomic_mass nuc)%D) (atom_ c) in
    put_comp p (set_mass v c);; mret v
  else mret (mass_ c).

(** [NewDecay(delta, secs_per_timestep)] *)
Definition NewDecay (p : ptr) (delta secs_per_timestep : Z) : W ptr :=
  c ← get_comp p;
  let tot_decay := (prev_decay_ c + delta)%Z in
  v ← atom p;
  d ← new_composition_in tot_decay (decay_line_ c);
  if Nat.eqb (size v) 0 then mret d
  else
    x ← get_comp d;
    put_comp d (set_atom (decayers_decay v (nZ secs_per_timestep * nZ delta)%D) x);;
    mret d.

(** [Decay(delta, secs_per_timestep)]: decayed compositions are cached in the
    chain that all compositions of one origin share. *)
Definition DecayComp (p : ptr) (delta secs_per_timestep : Z) : W ptr :=
  c ← get_comp p;
  let tot_decay := (prev_decay_ c + delta)%Z in
  w ← get;
  match default ∅ (chains w !! decay_line_ c) !! tot_decay with
  | Some d => mret d
  | None =>
      d ← NewDecay p delta secs_per_timestep;
      modify (λ w, set_chains (<[decay_line_ c :=
        <[tot_decay := d]> (default ∅ (chains w !! decay_line_ c))]> (chains w)) w);;
      mret d
  end.

Definition kDefaultTimeStepDur : Z := 2629846.
Definition DecayCompDefault (p : ptr) (delta : Z) : W ptr := DecayComp p delta kDefaultTimeStepDur.

(** [Composition::Record(ctx)] *)
Definition RecordComp (p : ptr) : W unit :=
  c ← get_comp p;
  if comp_recorded_ c then mret tt
  else
    put_comp p (mkComp F (comp_id c) true (atom_ c) (mass_ c) (prev_decay_ c) (decay_line_ c));;
    v ← mass p;
    for_each (λ kv, record_datum "Compositions"
        [("QualId", DInt (comp_id c)); ("NucId", DInt kv.1); ("MassFrac", DDbl kv.2)])
      (in_order (compmath.Normalize v (nZ 1))).
End resources.
