(* ===== verification/Material.v ===== *)
(** * Trackers, materials and products

    [src/src/res_tracker.cc], [src/src/material.cc], [src/src/product.cc] and
    [src/src/toolkit/res_manip.cc], over the state of [Resource]. *)

From Stdlib Require Import QArith Qabs Lqa ZArith Lia.
From stdpp Require Import base list gmap strings.
From S2P Require Import Prelude Num Arithmetic CompMath Resource.

Section material.
Context {F : Type} `{Num F} `{Limits F} `{Pyne F}.
Local Abbreviation W := (M (World F)).

(** ** Setters *)
Definition set_state_id (i : Z) (r : Resource F) : Resource F :=
  mkRes F i (obj_id_ r) (res_ctx r) (res_qty r) (tracker_ r) (kind_ r).
Definition set_qty (q : F) (r : Resource F) : Resource F :=
  mkRes F (state_id_ r) (obj_id_ r) (res_ctx r) q (tracker_ r) (kind_ r).
Definition set_tracker (t : ResTracker) (r : Resource F) : Resource F :=
  mkRes F (state_id_ r) (obj_id_ r) (res_ctx r) (res_qty r) t (kind_ r).
Definition set_kind (k : ResKind) (r : Resource F) : Resource F :=
  mkRes F (state_id_ r) (obj_id_ r) (res_ctx r) (res_qty r) (tracker_ r) k.
Definition modify_res (p : ptr) (f : Resource F → Resource F) : W unit :=
  r ← get_res p; put_res p (f r).

(** ** Resource *)

(** [Resource::BumpStateId] *)
Definition BumpStateId (p : ptr) : W unit :=
  w ← get;
  modify_res p (set_state_id (nextstate_id_ w));;
  modify (set_nextstate_id (nextstate_id_ w + 1)%Z).

(** [type()], [units()] and [qual_id()] *)
Definition res_type (r : Resource F) : string :=
  match kind_ r with KMaterial _ _ => "Material" | KProduct _ => "Product" end.
Definition res_units (r : Resource F) : string :=
  match kind_ r with KMaterial _ _ => "kg" | KProduct _ => "NONE" end.
Definition qual_id (r : Resource F) : W Z :=
  match kind_ r with
  | KMaterial c _ => comp_id <$> get_comp c
  | KProduct q =>                       (* qualids_[quality_] inserts *)
      w ← get;
      match qualids_ w !! q with
      | Some i => mret i
      | None => modify (set_qualids (<[q := 0%Z]> (qualids_ w)) (next_qualid_ w));; mret 0%Z
      end
  end.

(** [Material::Record(ctx)]: the datum goes through the material's own context;
    [Product::Record] does nothing. *)
Definition RecordRes (p : ptr) : W unit :=
  r ← get_res p;
  match kind_ r with
  | KMaterial c t =>
      require (res_ctx r) Undefined;;
      record_datum "MaterialInfo" [("ResourceId", DInt (state_id_ r)); ("PrevDecayTime", DInt t)];;
      RecordComp c
  | KProduct _ => mret tt
  end.

(** ** Trackers

    The tracker of the resource at [p]; [res_] is the resource it follows. *)
Definition new_tracker (ctx : bool) (p : ptr) : ResTracker := mkTracker 0 0 true p ctx.
Definition set_parents (a b : Z) (t : ResTracker) : ResTracker :=
  mkTracker a b (tracked_ t) (tr_res t) (tr_ctx t).
Definition set_tracked (b : bool) (t : ResTracker) : ResTracker :=
  mkTracker (parent1_ t) (parent2_ t) b (tr_res t) (tr_ctx t).

Definition DontTrack (r : Resource F) : Resource F := set_tracker (set_tracked false (tracker_ r)) r.
Definition put_parents (p : ptr) (a b : Z) : W unit :=
  modify_res p (λ r, set_tracker (set_parents a b (tracker_ r)) r).

(** [ResTracker::Record()] *)
Definition TrackerRecord (p : ptr) : W unit :=
  t ← tracker_ <$> get_res p;
  BumpStateId (tr_res t);;
  require (tr_ctx t) Undefined;;
  r ← get_res (tr_res t);
  q ← qual_id r;
  w ← get;
  record_datum "Resources"
    [("ResourceId", DInt (state_id_ r)); ("ObjId", DInt (obj_id_ r)); ("Type", DStr (res_type r));
     ("TimeCreated", DInt (ctx_time w)); ("Quantity", DDbl (res_qty r));
     ("Units", DStr (res_units r)); ("QualId", DInt q);
     ("Parent1", DInt (parent1_ t)); ("Parent2", DInt (parent2_ t))];;
  RecordRes (tr_res t).

(** [ResTracker::Create(creator)] *)
Definition TrackerCreate (p : ptr) (creator_id : Z) : W unit :=
  t ← tracker_ <$> get_res p;
  if tracked_ t then
    put_parents p 0 0;;
    TrackerRecord p;;
    r ← get_res (tr_res t);
    require (tr_ctx t) Undefined;;
    record_datum "ResCreators" [("ResourceId", DInt (state_id_ r)); ("AgentId", DInt creator_id)]
  else mret tt.

(** [ResTracker::Modify()] *)
Definition TrackerModify (p : ptr) : W unit :=
  t ← tracker_ <$> get_res p;
  if tracked_ t then
    r ← get_res (tr_res t);
    put_parents p (state_id_ r) 0;;
    TrackerRecord p
  else mret tt.

(** [ResTracker::Extract(removed)] *)
Definition TrackerExtract (p removed : ptr) : W unit :=
  t ← tracker_ <$> get_res p;
  if tracked_ t then
    r ← get_res (tr_res t);
    put_parents p (state_id_ r) 0;;
    put_parents removed (state_id_ r) 0;;
    modify_res removed (λ x, set_tracker (set_tracked true (tracker_ x)) x);;
    TrackerRecord p;;
    TrackerRecord removed
  else mret tt.

(** [ResTracker::Absorb(absorbed)] *)
Definition TrackerAbsorb (p absorbed : ptr) : W unit :=
  t ← tracker_ <$> get_res p;
  if tracked_ t then
    r ← get_res (tr_res t);
    ta ← tracker_ <$> get_res absorbed;
    a ← get_res (tr_res ta);
    put_parents p (state_id_ r) (state_id_ a);;
    TrackerRecord p
  else mret tt.

(** ** Materials *)

(** The constructor of [Resource] takes the next ids. *)
Definition new_resource (ctx : bool) (qty : F) (k : ResKind) : W ptr :=
  p ← fresh;
  w ← get;
  modify (set_nextstate_id (nextstate_id_ w + 1)%Z);;
  modify (set_nextobj_id (nextobj_id_ w + 1)%Z);;
  put_res p (mkRes F (nextstate_id_ w) (nextobj_id_ w) ctx qty (new_tracker ctx p) k);;
  mret p.

(** [Material::Material(ctx, quantity, c)]: without a context it is not tracked. *)
Definition new_material (ctx : bool) (qty : F) (c : ptr) : W ptr :=
  w ← get;
  p ← new_resource ctx qty (KMaterial c (if ctx then ctx_time w else 0%Z));
  if ctx then mret p else modify_res p DontTrack;; mret p.

Definition CreateMaterial (creator_id : Z) (qty : F) (c : ptr) : W ptr :=
  p ← new_material true qty c;
  TrackerCreate p creator_id;;
  mret p.

Definition CreateUntrackedMaterial (qty : F) (c : ptr) : W ptr := new_material false qty c.

Definition NewBlankMaterial (qty : F) : W ptr :=
  c ← CreateFromMass ∅; CreateUntrackedMaterial qty c.

(** The composition pointer and last decay time of a material. *)
Definition mat_parts (r : Resource F) : W (ptr * Z) :=
  match kind_ r with KMaterial c t => mret (c, t) | KProduct _ => throw Undefined end.

(** [Clone()]: the copy has the ids and the tracker of the original. *)
Definition Clone (p : ptr) : W ptr :=
  r ← get_res p;
  c ← fresh;
  put_res c (DontTrack r);;
  mret c.

(** [Transmute(c)] *)
Definition Transmute (p c : ptr) : W unit :=
  r ← get_res p;
  ct ← mat_parts r;
  put_res p (set_kind (KMaterial c ct.2) r);;
  TrackerModify p;;
  r ← get_res p;
  ct ← mat_parts r;
  w ← get;
  if res_ctx r && (ct.2 <? ctx_time w)%Z
  then put_res p (set_kind (KMaterial ct.1 (ctx_time w)) r)
  else mret tt.

(** Whether some nuclide changes by at least the fraction 1e-3; large
    compositions are always decayed. *)
Definition significant (v : CompMap F) (secs_per_timestep dt : Z) : bool :=
  Nat.ltb 100 (size v) ||
  existsb (λ kv, let lambda_timesteps := (decay_const kv.1 * nZ secs_per_timestep)%D in
      (nZ 1 - std_exp (nneg lambda_timesteps * nZ dt) >=? nlit (1 # 1000))%D)
    (rev (in_order v)).

(** [Decay(curr_time)] *)
Definition DecayMat (p : ptr) (curr_time : Z) : W unit :=
  r ← get_res p;
  w ← get;
  ct ← mat_parts r;
  if res_ctx r && match ctx_decay w with DecayNever => true | _ => false end then mret tt
  else if (curr_time <? 0)%Z && negb (res_ctx r) then throw ValueError
  else
    let now := if (curr_time <? 0)%Z then ctx_time w else curr_time in
    let dt := (now - ct.2)%Z in
    if (dt =? 0)%Z then mret tt
    else
      v ← atom ct.1;
      let secs_per_timestep := if res_ctx r then ctx_dt w else kDefaultTimeStepDur in
      if significant v secs_per_timestep dt then
        put_res p (set_kind (KMaterial ct.1 now) r);;
        d ← DecayComp ct.1 dt secs_per_timestep;
        Transmute p d
      else mret tt.

(** [comp()]: forces the decay in lazy mode. *)
Definition comp (p : ptr) : W ptr :=
  r ← get_res p;
  w ← get;
  (if res_ctx r && match ctx_decay w with DecayLazy => true | _ => false end
   then DecayMat p (-1) else mret tt);;
  r ← get_res p;
  fst <$> mat_parts r.

(** [ExtractComp(qty, c, threshold)]: the composition of what remains is computed
    when another composition than the material's own is extracted. *)
Definition subtract_comp (p : ptr) (qty : F) (c : ptr) (threshold : F) : W unit :=
  r ← get_res p;
  ct ← mat_parts r;
  if (ct.1 =? c)%Z then mret tt
  else
    v ← mass ct.1;
    otherv ← mass c;
    let newv := compmath.Sub (compmath.Normalize v (res_qty r)) (compmath.Normalize otherv qty) in
    match compmath.ApplyThreshold newv threshold with
    | Throw e => throw e
    | Ret cut =>
        c' ← CreateFromMass cut;
        modify_res p (set_kind (KMaterial c' ct.2))
    end.

Definition ExtractComp (p : ptr) (qty : F) (c : ptr) (threshold : F) : W ptr :=
  r ← get_res p;
  ct ← mat_parts r;
  require (negb (res_qty r <? qty)%D) ValueError;;
  subtract_comp p qty c threshold;;
  modify_res p (λ r, set_qty (res_qty r - qty)%D r);;
  other ← new_material (res_ctx r) qty c;
  modify_res other (set_kind (KMaterial c ct.2));;
  TrackerExtract p other;;
  mret other.

Definition ExtractQty (p : ptr) (qty : F) : W ptr :=
  r ← get_res p;
  ct ← mat_parts r;
  ExtractComp p qty ct.1 eps_rsrc.

(** [Absorb(mat)]: first the compositions are merged, weighted by the
    quantities, then the quantity is moved. *)
Definition merge_comps (p mat : ptr) : W unit :=
  c0 ← comp p;
  c1 ← comp mat;
  if (c0 =? c1)%Z then mret tt
  else
    r ← get_res p;
    v ← mass c0;
    m ← get_res mat;
    otherv ← mass c1;
    c' ← CreateFromMass (compmath.Add (compmath.Normalize v (res_qty r))
                                      (compmath.Normalize otherv (res_qty m)));
    ct ← mat_parts r;
    modify_res p (set_kind (KMaterial c' ct.2)).

Definition move_qty (p mat : ptr) : W unit :=
  r ← get_res p;
  m ← get_res mat;
  ct ← mat_parts r;
  mt ← mat_parts m;
  (if (res_qty r <? res_qty m)%D then modify_res p (set_kind (KMaterial ct.1 mt.2)) else mret tt);;
  modify_res p (λ r, set_qty (res_qty r + res_qty m)%D r);;
  modify_res mat (set_qty (nZ 0));;
  TrackerAbsorb p mat.

Definition AbsorbMat (p mat : ptr) : W unit := merge_comps p mat;; move_qty p mat.

(** ** Products *)

Definition quality (r : Resource F) : W string :=
  match kind_ r with KProduct q => mret q | KMaterial _ _ => throw Undefined end.

(** [Product::Product(ctx, quantity, quality)]: tracked even without a context. *)
Definition new_product (ctx : bool) (qty : F) (q : string) : W ptr := new_resource ctx qty (KProduct q).

(** [Product::Create(creator, quantity, quality)]: a new quality gets the next
    quality id. *)
Definition CreateProduct (creator_id : Z) (qty : F) (q : string) : W ptr :=
  w ← get;
  (match qualids_ w !! q with
   | Some _ => mret tt
   | None =>
       modify (set_qualids (<[q := next_qualid_ w]> (qualids_ w)) (next_qualid_ w + 1)%Z);;
       record_datum "Products" [("QualId", DInt (next_qualid_ w)); ("Quality", DStr q)]
   end);;
  p ← new_product true qty q;
  TrackerCreate p creator_id;;
  mret p.

Definition CreateUntrackedProduct (qty : F) (q : string) : W ptr :=
  p ← new_product false qty q;
  modify_res p DontTrack;;
  mret p.

(** [Product::Absorb(other)] *)
Definition AbsorbProd (p other : ptr) : W unit :=
  o ← get_res other;
  qo ← quality o;
  r ← get_res p;
  qr ← quality r;
  require (bool_decide (qo = qr)) ValueError;;
  modify_res p (λ r, set_qty (res_qty r + res_qty o)%D r);;
  modify_res other (set_qty (nZ 0));;
  TrackerAbsorb p other.

(** [Product::Extract(quantity)] *)
Definition ExtractProd (p : ptr) (qty : F) : W ptr :=
  r ← get_res p;
  q ← quality r;
  require (negb (qty >? res_qty r)%D) ValueError;;
  modify_res p (λ r, set_qty (res_qty r - qty)%D r);;
  other ← new_product (res_ctx r) qty q;
  TrackerExtract p other;;
  mret other.

(** [ExtractRes(qty)]: the virtual function of [Resource]. *)
Definition ExtractRes (p : ptr) (qty : F) : W ptr :=
  r ← get_res p;
  match kind_ r with
  | KMaterial _ _ => ExtractQty p qty
  | KProduct _ => ExtractProd p qty
  end.

(** ** [toolkit::Squash] *)
Definition SquashMat (ms : list ptr) : W ptr :=
  match ms with
  | [] => throw BaseError
  | m :: ms => for_each (AbsorbMat m) ms;; mret m
  end.
Definition SquashProd (ps : list ptr) : W ptr :=
  match ps with
  | [] => throw BaseError
  | p :: ps => for_each (AbsorbProd p) ps;; mret p
  end.

(** [Squash(std::vector<Resource::Ptr>)]: the class of the first resource decides;
    the casts of the others are null pointers where they differ. *)
Definition Squash (rs : list ptr) : W ptr :=
  match rs with
  | [] => throw BaseError
  | p :: _ =>
      r ← get_res p;
      match kind_ r with
      | KMaterial _ _ => SquashMat rs
      | KProduct _ => SquashProd rs
      end
  end.
End material.
