(* ===== verification/Query.v ===== *)
(** * Queries

    The conditions, results, wrappers and digests of [src/src/query_backend.h].  A backend is a
    record of functions; what the code relies on is [answers], the documented contract
    of [Query]. *)

From Stdlib Require Import ZArith Lia String.
From stdpp Require Import base list gmap strings.
From S2P Require Import Prelude Num CompMath Resource.

(** ** Conditions and results *)
Inductive CmpOpCode := LT | GT | LE | GE | EQ | NE.

Record Cond {F : Type} := mkCond {
  c_field : string;
  c_op : string;
  opcode : CmpOpCode;
  c_val : dval F
}.
Arguments Cond F : clear implicits.
Arguments mkCond {F} _ _ _ _.

Record QueryResult {F : Type} := mkResult {
  qfields : list string;
  qrows : list (list (dval F))
}.
Arguments QueryResult F : clear implicits.
Arguments mkResult {F} _ _.

Section query.
Context {F : Type} `{Num F}.

(** [Cond(field, op, val)] *)
Definition new_cond (field op : string) (val : dval F) : outcome (Cond F) :=
  if decide (op = "<") then Ret (mkCond field op LT val)
  else if decide (op = ">") then Ret (mkCond field op GT val)
  else if decide (op = "<=") then Ret (mkCond field op LE val)
  else if decide (op = ">=") then Ret (mkCond field op GE val)
  else if decide (op = "==") then Ret (mkCond field op EQ val)
  else if decide (op = "!=") then Ret (mkCond field op NE val)
  else Throw ValueError.

(** [hold_any::cast<T>()] *)
Definition as_int (v : dval F) : outcome Z := match v with DInt z => Ret z | _ => Throw BadCast end.
Definition as_bool (v : dval F) : outcome bool := match v with DInt z => Ret (negb (z =? 0)%Z) | _ => Throw BadCast end.
Definition as_dbl (v : dval F) : outcome F := match v with DDbl x => Ret x | _ => Throw BadCast end.
Definition as_str (v : dval F) : outcome string := match v with DStr x => Ret x | _ => Throw BadCast end.

(** [GetVal<T>(field, row)]; a row shorter than the fields is read past its end. *)
Fixpoint field_idx (field : string) (fs : list string) : option nat :=
  match fs with
  | [] => None
  | f :: fs' => if decide (f = field) then Some 0 else S <$> field_idx field fs'
  end.
Definition GetVal {T} (cast : dval F → outcome T) (qr : QueryResult F) (field : string) (row : nat) : outcome T :=
  match qrows qr with
  | [] => Throw StateError
  | _ =>
      match qrows qr !! row with
      | None => Throw KeyError
      | Some r =>
          match field_idx field (qfields qr) with
          | None => Throw KeyError
          | Some i => match r !! i with Some v => cast v | None => Throw Undefined end
          end
      end
  end.

(** ** Backends *)
Record QueryableBackend := mkBackend {
  Query : string → option (list (Cond F)) → outcome (QueryResult F);
  ColumnTypes : string → list (string * Z);
  Tables : gset string
}.

Definition CondInjector (b : QueryableBackend) (to_inject : list (Cond F)) : QueryableBackend :=
  mkBackend
    (λ table conds, match conds with
                    | None => Query b table (Some to_inject)
                    | Some c => Query b table (Some (c ++ to_inject))
                    end)
    (ColumnTypes b) (Tables b).

Definition PrefixInjector (b : QueryableBackend) (prefix : string) : QueryableBackend :=
  mkBackend (λ table conds, Query b (prefix +:+ table) conds) (ColumnTypes b) (Tables b).

(** ** Checking conditions *)
Record CmpOps {T : Type} := mkCmp { c_lt : T → T → bool; c_le : T → T → bool; c_eq : T → T → bool }.
Arguments CmpOps T : clear implicits.
Definition int_cmp : CmpOps Z := mkCmp _ Z.ltb Z.leb Z.eqb.
Definition dbl_cmp : CmpOps F := mkCmp _ nltb nleb neqb.
Definition str_cmp : CmpOps string := mkCmp _ String.ltb String.leb String.eqb.

Definition CmpCond {T} (o : CmpOps T) (cast : dval F → outcome T) (x : T) (c : Cond F) : outcome bool :=
  match cast (c_val c) with
  | Throw e => Throw e
  | Ret v => Ret match opcode c with
      | LT => c_lt o x v
      | GT => c_lt o v x
      | LE => c_le o x v
      | GE => c_le o v x
      | EQ => c_eq o x v
      | NE => negb (c_eq o x v)
      end
  end.
Fixpoint CmpConds {T} (o : CmpOps T) (cast : dval F → outcome T) (x : T) (conds : list (Cond F)) : outcome bool :=
  match conds with
  | [] => Ret true
  | c :: conds' =>
      match CmpCond o cast x c with
      | Ret true => CmpConds o cast x conds'
      | Ret false => Ret false
      | Throw e => Throw e
      end
  end.
End query.
Arguments QueryableBackend F : clear implicits.

(** ** Digests *)
Definition CYCLUS_SHA1_NINT : nat := 5.
Record Digest := mkDigest { dig_val : list Z }.
Definition dig_ok (d : Digest) : Prop := length (dig_val d) = CYCLUS_SHA1_NINT.

(** The loops of [operator<] and [operator==] over the words of two digests. *)
Fixpoint words_lt (a b : list Z) : bool :=
  match a, b with
  | x :: a', y :: b' => if (x <? y)%Z then true else if (y <? x)%Z then false else words_lt a' b'
  | _, _ => false
  end.
Fixpoint words_eq (a b : list Z) : bool :=
  match a, b with
  | x :: a', y :: b' => if (x =? y)%Z then words_eq a' b' else false
  | _, _ => true
  end.
Definition dig_lt (a b : Digest) : bool := words_lt (dig_val a) (dig_val b).
Definition dig_eq (a b : Digest) : bool := words_eq (dig_val a) (dig_val b).
Definition dig_gt (a b : Digest) : bool := negb (dig_lt a b) && negb (dig_eq a b).
Definition dig_le (a b : Digest) : bool := negb (dig_gt a b).
Definition dig_ge (a b : Digest) : bool := negb (dig_lt a b).
Definition dig_ne (a b : Digest) : bool := negb (dig_eq a b).
Definition dig_cast (conv : Z → Z) (d : Digest) : list Z := conv <$> dig_val d.

(** ** The contract of a backend

    A database is a list of rows, each with its table.  [Query] returns the rows of the
    table that match all conditions, in order, and throws for a table that is not there. *)
Section contract.
Context {F : Type} `{Num F}.
Local Abbreviation row := (list (string * dval F)).
Local Abbreviation db := (list (string * row)).
Implicit Types (d : db) (r : row) (b : QueryableBackend F).

Fixpoint field_of (f : string) r : option (dval F) :=
  match r with
  | [] => None
  | (g, v) :: r' => if decide (g = f) then Some v else field_of f r'
  end.
Definition is_true (o : outcome bool) : bool := match o with Ret true => true | _ => false end.
Definition cond_holds r (c : Cond F) : bool :=
  match field_of (c_field c) r with
  | Some (DInt x) => is_true (CmpCond int_cmp as_int x c)
  | Some (DDbl x) => is_true (CmpCond dbl_cmp as_dbl x c)
  | Some (DStr x) => is_true (CmpCond str_cmp as_str x c)
  | _ => false
  end.
Definition table_rows d (t : string) : list row := (filter (λ tr, tr.1 = t) d).*2.
Definition matching d (t : string) (conds : list (Cond F)) : list row :=
  filter (λ r, forallb (cond_holds r) conds = true) (table_rows d t).
Definition rows_of (qr : QueryResult F) : list row := zip (qfields qr) <$> qrows qr.

(** What [catch (std::exception)] catches. *)
Definition caught (e : exn) : bool := match e with AssertFailure | Undefined | OutOfFuel => false | _ => true end.

Record answers b d : Prop := {
  an_rows : ∀ t conds, table_rows d t ≠ [] →
    ∃ qr, Query b t conds = Ret qr ∧ rows_of qr = matching d t (default [] conds);
  an_none : ∀ t conds, table_rows d t = [] → ∃ e, Query b t conds = Throw e ∧ caught e = true
}.

(** A backend that keeps the contract, for tables with the same fields in every row. *)
Definition rows_backend d : QueryableBackend F :=
  mkBackend
    (λ t conds, match table_rows d t with
                | [] => Throw IOError
                | r :: _ => Ret (mkResult r.*1 ((λ r : row, r.*2) <$> matching d t (default [] conds)))
                end)
    (λ t, []) (list_to_set d.*1).
Definition uniform d : Prop := ∀ t r r', (t, r) ∈ d → (t, r') ∈ d → r.*1 = r'.*1.

Lemma elem_of_table_rows d t r : r ∈ table_rows d t ↔ (t, r) ∈ d.
Proof.
  unfold table_rows. rewrite list_elem_of_fmap. split.
  - intros ([t' r'] & -> & [Ht Hin]%list_elem_of_filter). cbn in *. by subst.
  - intros Hin. exists (t, r). split; [done|]. by apply list_elem_of_filter.
Qed.
Lemma table_rows_app d1 d2 t : table_rows (d1 ++ d2) t = table_rows d1 t ++ table_rows d2 t.
Proof. unfold table_rows. by rewrite filter_app, fmap_app. Qed.
Lemma matching_nil d t : matching d t [] = table_rows d t.
Proof. unfold matching. induction (table_rows d t) as [|r l IH]; [done|]. rewrite filter_cons_True by done. by rewrite IH. Qed.
Lemma rows_backend_answers d : uniform d → answers (rows_backend d) d.
Proof.
  intros Hu. split.
  - intros t conds Hne. cbn. destruct (table_rows d t) as [|r0 rs] eqn:Ht; [done|].
    eexists. split; [reflexivity|]. unfold rows_of. cbn [qfields qrows]. rewrite <-list_fmap_compose.
    etrans; [|apply list_fmap_id]. apply list_fmap_ext. intros i r Hi. cbn.
    assert (r ∈ table_rows d t) as Hr.
    { apply list_elem_of_lookup_2 in Hi. unfold matching in Hi. by apply list_elem_of_filter in Hi as [_ Hi]. }
    assert (r0 ∈ table_rows d t) as Hr0 by (rewrite Ht; left).
    rewrite elem_of_table_rows in Hr, Hr0. rewrite (Hu t r0 r Hr0 Hr).
    rewrite <-(zip_fst_snd r) at 3. done.
  - intros t conds Ht. cbn. rewrite Ht. by exists IOError.
Qed.

(** Values by name. *)
Lemma field_of_zip f fs (vs : list (dval F)) v :
  field_of f (zip fs vs) = Some v → ∃ i, field_idx f fs = Some i ∧ vs !! i = Some v.
Proof.
  revert vs. induction fs as [|g fs IH]; intros [|w vs]; cbn; try done.
  destruct (decide (g = f)); [intros [= ->]; by exists 0|]. intros (i & -> & Hv)%IH. exists (S i). done.
Qed.
Lemma GetVal_field {T} (cast : dval F → outcome T) qr f i r v :
  rows_of qr !! i = Some r → field_of f r = Some v → GetVal cast qr f i = cast v.
Proof.
  intros Hr Hf. unfold rows_of in Hr. rewrite list_lookup_fmap in Hr. destruct (qrows qr !! i) as [vs|] eqn:Hi; [|done].
  injection Hr as <-. apply field_of_zip in Hf as (k & Hk & Hv). unfold GetVal. rewrite Hk, Hi, Hv.
  by destruct (qrows qr).
Qed.
Lemma rows_of_length qr : length (rows_of qr) = length (qrows qr).
Proof. apply length_fmap. Qed.

(** The wrappers, on a backend that keeps the contract. *)
Lemma CondInjector_rows b d cs t conds :
  answers b d → table_rows d t ≠ [] →
  ∃ qr, Query (CondInjector b cs) t conds = Ret qr ∧ rows_of qr = matching d t (default [] conds ++ cs).
Proof. intros Ha Ht. destruct conds as [c|]; cbn; by apply (an_rows b d Ha). Qed.
End contract.
