(* ===== verification/MaterialTheory.v ===== *)
(** * Correctness of materials

    The operations of [Material] keep the store of resources well formed, never
    record the same state id twice, and conserve mass, in total and per nuclide,
    over exact arithmetic. *)

From Stdlib Require Import QArith Qabs Lqa ZArith Lia.
From stdpp Require Import base list gmap strings sorting.
From S2P Require Import Prelude Num Arithmetic CompMath Resource Material.

Section theory.
Context `{Limits xq} {e er : Q} `{!GoodLimits e er} `{Pyne xq}.
Implicit Types (w : World xq) (x : Composition xq) (r : Resource xq).

(** The mass view of a composition, whether or not it is computed yet. *)
Definition mass_of x : CompMap xq :=
  if Nat.eqb (size (mass_ x)) 0 then map_imap (λ nuc y, Some (y * atomic_mass nuc)%D) (atom_ x)
  else mass_ x.

Definition vec_ok (v : CompMap xq) : Prop :=
  all_finite v ∧ (∀ n, 0 <= nuc_val v n)%Q ∧ compmath.ValidNucs v = true.

(** The ids of the recorded resource states. *)
Definition state_ids (l : list (string * list (string * dval xq))) : list Z :=
  l ≫= λ d, if decide (d.1 = "Resources")
            then match d.2 with (_, DInt i) :: _ => [i] | _ => [] end else [].

Record wf w : Prop := {
  wf_fresh_res : ∀ p r, ress w !! p = Some r → (p < next_ptr w)%Z;
  wf_fresh_comp : ∀ c x, comps w !! c = Some x → (c < next_ptr w)%Z;
  wf_mat : ∀ p r c t, ress w !! p = Some r → kind_ r = KMaterial c t → is_Some (comps w !! c);
  wf_track : ∀ p r, ress w !! p = Some r → tracked_ (tracker_ r) = true →
    tr_res (tracker_ r) = p ∧ tr_ctx (tracker_ r) = true ∧ res_ctx r = true;
  wf_tr_res : ∀ p r, ress w !! p = Some r → is_Some (ress w !! tr_res (tracker_ r));
  wf_comp : ∀ c x, comps w !! c = Some x → vec_ok (mass_of x);
  wf_ids : StronglySorted Z.lt (state_ids (recorded w)) ∧
           Forall (λ i, (i < nextstate_id_ w)%Z) (state_ids (recorded w))
}.

(** What recording and caching may change: state ids, trackers, cached views,
    counters and the recorded data, but no quantity and no composition. *)
Record keeps_content w w' : Prop := {
  kc_res : ∀ p r, ress w !! p = Some r → ∃ r', ress w' !! p = Some r' ∧
    res_qty r' = res_qty r ∧ kind_ r' = kind_ r ∧ res_ctx r' = res_ctx r ∧
    obj_id_ r' = obj_id_ r ∧ tracked_ (tracker_ r') = tracked_ (tracker_ r);
  kc_comp : ∀ c x, comps w !! c = Some x →
    ∃ x', comps w' !! c = Some x' ∧ mass_of x' = mass_of x;
  kc_ptr : (next_ptr w <= next_ptr w')%Z;
  kc_time : ctx_time w' = ctx_time w;
  kc_decay : ctx_decay w' = ctx_decay w
}.

#[export] Instance keeps_content_preorder : PreOrder keeps_content.
Proof.
  split.
  - intros w. split; try done; [intros p r Hp; by exists r|intros c x Hc; by exists x].
  - intros w1 w2 w3 [] []. split; try congruence; [| |lia].
    + intros p r Hp. destruct (kc_res0 p r Hp) as (r2 & Hr2 & ?&?&?&?&?).
      destruct (kc_res1 p r2 Hr2) as (r3 & Hr3 & ?&?&?&?&?). exists r3. split_and!; congruence.
    + intros c x Hc. destruct (kc_comp0 c x Hc) as (x2 & Hx2 & ?).
      destruct (kc_comp1 c x2 Hx2) as (x3 & Hx3 & ?). exists x3. split; congruence.
Qed.

(** A step that keeps the state well formed and its content. *)
Definition neutral {A} (c : M (World xq) A) (w : World xq) : Prop :=
  runs c w (λ _ w', wf w' ∧ keeps_content w w').

Lemma neutral_bind {A B} (c : M (World xq) A) (k : A → M (World xq) B) w :
  runs c w (λ a w', wf w' ∧ keeps_content w w' ∧ neutral (k a) w') → neutral (c ≫= k) w.
Proof.
  intros Hc. apply runs_bind. eapply runs_mono; [exact Hc|]. intros a w1 (Hw1 & Hk1 & Hn).
  eapply runs_mono; [exact Hn|]. intros b w2 (? & Hk2). split; [done|]. by etrans.
Qed.

(** ** Neutral steps *)
Lemma put_comp_neutral w c x x' :
  wf w → comps w !! c = Some x → mass_of x' = mass_of x → neutral (put_comp c x') w.
Proof.
  intros Hwf Hc Hm. apply runs_modify. destruct Hwf as [Hr Hfc Hmat Ht Htr Hk Hi]. split.
  - split; cbn; try done.
    + intros c' y. rewrite lookup_insert. case_decide; [intros; simplify_eq; by eapply Hfc|apply Hfc].
    + intros p r c' t Hp Hkind. rewrite lookup_insert. case_decide; [done|by eapply Hmat].
    + intros c' y. rewrite lookup_insert. case_decide; [|apply Hk].
      intros [= <-]. rewrite Hm. by apply (Hk c).
  - split; cbn; try done; [intros p r Hp; by exists r|].
    intros c' y Hy. rewrite lookup_insert. case_decide; [|by exists y]. simplify_eq. by exists x'.
Qed.

Lemma state_ids_app l l' : state_ids (l ++ l') = state_ids l ++ state_ids l'.
Proof. apply bind_app. Qed.

Lemma record_datum_neutral w t vs :
  wf w → t ≠ "Resources" → neutral (record_datum t vs) w.
Proof.
  intros [] Ht. apply runs_modify.
  assert (state_ids (recorded w ++ [(t, vs)]) = state_ids (recorded w)) as Hid.
  { rewrite state_ids_app. assert (state_ids [(t, vs)] = []) as ->; [|apply app_nil_r].
    unfold state_ids. cbn. by rewrite decide_False. }
  split; [split; try done; cbn [recorded set_recorded nextstate_id_]; by rewrite Hid|].
  split; try done; [intros p r Hp; by exists r|intros c x Hc; by exists x].
Qed.

Lemma mass_runs w c x :
  wf w → comps w !! c = Some x →
  runs (mass c) w (λ v w', v = mass_of x ∧ wf w' ∧ keeps_content w w' ∧ ress w' = ress w).
Proof.
  intros Hwf Hc. unfold mass, get_comp. apply runs_bind, runs_bind, runs_get.
  eapply runs_option; [exact Hc|]. unfold mass_of.
  destruct (Nat.eqb (size (mass_ x)) 0) eqn:E; [|by apply runs_ret].
  set (v := map_imap _ _).
  destruct (put_comp_neutral w c x (set_mass v x) Hwf Hc) as (a & w' & Hrun & Hw' & Hk').
  { unfold mass_of. cbn. rewrite E. by destruct (Nat.eqb (size v) 0). }
  exists v, w'. rewrite (bind_ret _ _ _ _ _ Hrun). split_and!; try done.
  unfold put_comp, modify in Hrun. by simplify_eq.
Qed.

Lemma RecordComp_neutral w c : wf w → is_Some (comps w !! c) → neutral (RecordComp c) w.
Proof.
  intros Hwf [x Hc]. unfold RecordComp, get_comp. apply runs_bind, runs_bind, runs_get.
  eapply runs_option; [exact Hc|]. destruct (comp_recorded_ x); [by apply runs_ret|].
  apply neutral_bind. eapply runs_mono; [by apply (put_comp_neutral w c x)|].
  intros ? w1 [Hwf1 Hk1]. split_and!; [done|done|]. apply neutral_bind.
  destruct (kc_comp _ _ Hk1 c x Hc) as (x1 & Hc1 & _).
  eapply runs_mono; [by apply (mass_runs w1 c x1)|]. intros v w2 (_ & Hwf2 & Hk2 & _).
  split_and!; [done|done|]. apply (runs_for_each (λ w', wf w' ∧ keeps_content w2 w')); [done|].
  intros kv w3 _ [Hwf3 Hk3]. eapply runs_mono; [by apply record_datum_neutral|].
  intros ? w4 [Hwf4 Hk4]. split; [done|]. by etrans.
Qed.

(** Changing the state id or tracker of a resource. *)
Definition same_res r r' : Prop :=
  res_qty r' = res_qty r ∧ kind_ r' = kind_ r ∧ res_ctx r' = res_ctx r ∧ obj_id_ r' = obj_id_ r ∧
  tracked_ (tracker_ r') = tracked_ (tracker_ r) ∧
  tr_res (tracker_ r') = tr_res (tracker_ r) ∧ tr_ctx (tracker_ r') = tr_ctx (tracker_ r).

Lemma put_res_neutral w p r r' :
  wf w → ress w !! p = Some r → same_res r r' → neutral (put_res p r') w.
Proof.
  intros [Hr Hfc Hmat Ht Htres Hk Hi] Hp (Hq & Hki & Hctx & Ho & Htr & Htp & Htc). apply runs_modify. split.
  - split; cbn; try done.
    + intros p' y. rewrite lookup_insert. case_decide; [intros; simplify_eq; by eapply Hr|apply Hr].
    + intros p' y c t. rewrite lookup_insert. case_decide; [|by eapply Hmat].
      intros [= <-]. rewrite Hki. by eapply Hmat.
    + intros p' y. rewrite lookup_insert. case_decide; [|apply Ht].
      intros [= <-]. rewrite Htr, Htp, Htc, Hctx. subst p'. by apply Ht.
    + intros p' y. rewrite lookup_insert. intros Hy.
      assert (is_Some (ress w !! tr_res (tracker_ y))) as Hs.
      { case_decide; [|by eapply Htres]. injection Hy as <-. rewrite Htp. by eapply Htres. }
      rewrite lookup_insert. destruct (decide (p = tr_res (tracker_ y))); [by eexists|done].
  - split; cbn; try done; [|intros c x Hc; by exists x].
    intros p' y Hy. rewrite lookup_insert. case_decide; [|by exists y].
    simplify_eq. exists r'. by split_and!.
Qed.

Lemma modify_res_neutral w p r (f : Resource xq → Resource xq) :
  wf w → ress w !! p = Some r → same_res r (f r) →
  runs (modify_res p f) w (λ _ w', wf w' ∧ keeps_content w w' ∧ ress w' !! p = Some (f r) ∧
    nextstate_id_ w' = nextstate_id_ w ∧ recorded w' = recorded w).
Proof.
  intros Hwf Hp Hs. unfold modify_res, get_res. apply runs_bind, runs_bind, runs_get.
  eapply runs_option; [exact Hp|]. destruct (put_res_neutral w p r (f r) Hwf Hp Hs) as (a & w' & Hrun & Hw).
  exists a, w'. split; [exact Hrun|]. unfold put_res, modify in Hrun. simplify_eq.
  split_and!; try apply Hw; try done. apply lookup_insert_eq.
Qed.

Lemma put_parents_neutral w p r a b :
  wf w → ress w !! p = Some r →
  runs (put_parents p a b) w (λ _ w', wf w' ∧ keeps_content w w' ∧
    ress w' !! p = Some (set_tracker (set_parents a b (tracker_ r)) r)).
Proof.
  intros Hwf Hp. eapply runs_mono; [by apply (modify_res_neutral w p r)|]. naive_solver.
Qed.

Lemma qual_id_runs w r :
  wf w → (∀ c t, kind_ r = KMaterial c t → is_Some (comps w !! c)) →
  runs (qual_id r) w (λ _ w', wf w' ∧ keeps_content w w' ∧ ress w' = ress w ∧
    nextstate_id_ w' = nextstate_id_ w ∧ recorded w' = recorded w).
Proof.
  intros Hwf Hmat. unfold qual_id. destruct (kind_ r) as [c t|q].
  - destruct (Hmat c t eq_refl) as [x Hx]. apply runs_fmap. unfold get_comp.
    apply runs_bind, runs_get. by eapply runs_option; [exact Hx|].
  - apply runs_bind, runs_get. destruct (qualids_ w !! q); [by apply runs_ret|].
    apply runs_bind, runs_modify, runs_ret. destruct Hwf. split_and!; try done.
    split; try done; [intros p y Hp; by exists y|intros c x Hc; by exists x].
Qed.

Lemma BumpStateId_runs w p r :
  wf w → ress w !! p = Some r →
  runs (BumpStateId p) w (λ _ w', wf w' ∧ keeps_content w w' ∧
    ress w' !! p = Some (set_state_id (nextstate_id_ w) r) ∧
    nextstate_id_ w' = (nextstate_id_ w + 1)%Z ∧ recorded w' = recorded w).
Proof.
  intros Hwf Hp. unfold BumpStateId. apply runs_bind, runs_get, runs_bind.
  eapply runs_mono; [by apply (modify_res_neutral w p r)|].
  intros ? w1 (Hwf1 & Hk1 & Hp1 & Hn1 & Hr1). apply runs_modify.
  destruct Hwf1 as [? ? ? ? ? ? [Hs Hi]]. split_and!; try done.
  - split; try done. split; [done|]. eapply Forall_impl; [exact Hi|]. cbn. intros. lia.
  - destruct Hk1. by split.
Qed.

(** Recording a state with the id that was just taken. *)
Lemma record_state_neutral w i vs :
  wf w → nextstate_id_ w = (i + 1)%Z → Forall (λ j, (j < i)%Z) (state_ids (recorded w)) →
  neutral (record_datum "Resources" (("ResourceId", DInt i) :: vs)) w.
Proof.
  intros [? ? ? ? ? ? [Hs Hi]] Hn Hlt. apply runs_modify.
  assert (state_ids (recorded w ++ [("Resources", ("ResourceId", DInt i) :: vs)]) =
          state_ids (recorded w) ++ [i]) as Hid by (rewrite state_ids_app; done).
  split.
  - split; try done. cbn [recorded set_recorded nextstate_id_]. rewrite Hid. split.
    + clear -Hs Hlt. induction Hs as [|j l Hl IH Hj]; [by repeat constructor|].
      inversion Hlt; subst. cbn. constructor; [auto|]. apply Forall_app. split; [done|by constructor].
    + apply Forall_app. split; [done|]. constructor; [lia|constructor].
  - split; try done; [intros p y Hp; by exists y|intros c x Hc; by exists x].
Qed.

Lemma RecordRes_neutral w p r :
  wf w → ress w !! p = Some r → res_ctx r = true → neutral (RecordRes p) w.
Proof.
  intros Hwf Hp Hctx. unfold RecordRes, get_res. apply runs_bind, runs_bind, runs_get.
  eapply runs_option; [exact Hp|]. destruct (kind_ r) as [c t|q] eqn:Hk; [|by apply runs_ret].
  apply runs_bind, runs_require; [done|]. apply neutral_bind.
  eapply runs_mono; [by apply record_datum_neutral|]. intros ? w1 [Hwf1 Hk1]. split_and!; [done|done|].
  apply RecordComp_neutral; [done|]. destruct (wf_mat _ Hwf p r c t Hp Hk) as [x Hx].
  destruct (kc_comp _ _ Hk1 c x Hx) as (x' & ? & _). by exists x'.
Qed.

Lemma TrackerRecord_neutral w p r :
  wf w → ress w !! p = Some r → tracked_ (tracker_ r) = true → neutral (TrackerRecord p) w.
Proof.
  intros Hwf Hp Htr. destruct (wf_track _ Hwf p r Hp Htr) as (Hself & Htc & Hctx).
  unfold TrackerRecord. apply runs_bind, runs_fmap. unfold get_res at 1. apply runs_bind, runs_get.
  eapply runs_option; [exact Hp|]. rewrite Hself, Htc.
  apply neutral_bind. eapply runs_mono; [by apply (BumpStateId_runs w p r)|].
  intros ? w1 (Hwf1 & Hk1 & Hp1 & Hn1 & Hr1). split_and!; [done|done|].
  apply runs_bind, runs_require; [done|]. apply runs_bind. unfold get_res. apply runs_bind, runs_get.
  eapply runs_option; [exact Hp1|]. apply neutral_bind.
  eapply runs_mono; [apply (qual_id_runs w1); [done|]|].
  { intros c t Hkind. by apply (wf_mat _ Hwf1 p _ c t Hp1). }
  intros q w2 (Hwf2 & Hk2 & Hres2 & Hn2 & Hr2). split_and!; [done|done|].
  apply runs_bind, runs_get. apply neutral_bind.
  eapply runs_mono; [apply record_state_neutral; [done| |]|].
  - cbn. lia.
  - rewrite Hr2, Hr1. apply (wf_ids _ Hwf).
  - intros ? w3 [Hwf3 Hk3]. split_and!; [done|done|]. rewrite <-Hres2 in Hp1.
    destruct (kc_res _ _ Hk3 p _ Hp1) as (r3 & Hp3 & _ & _ & Hctx3 & _).
    apply (RecordRes_neutral w3 p r3); [done|done|]. rewrite Hctx3. done.
Qed.

(** ** Trackers never fail on well-formed stores *)
Lemma get_res_runs w p r (Q : Resource xq → World xq → Prop) :
  ress w !! p = Some r → Q r w → runs (get_res p) w Q.
Proof. intros Hp HQ. unfold get_res. apply runs_bind, runs_get. by eapply runs_option. Qed.

Lemma TrackerModify_neutral w p r : wf w → ress w !! p = Some r → neutral (TrackerModify p) w.
Proof.
  intros Hwf Hp. unfold TrackerModify. apply runs_bind, runs_fmap. eapply get_res_runs; [exact Hp|].
  destruct (tracked_ (tracker_ r)) eqn:Htr; [|by apply runs_ret].
  destruct (wf_track _ Hwf p r Hp Htr) as (Hself & _). rewrite Hself.
  apply runs_bind. eapply get_res_runs; [exact Hp|]. apply neutral_bind.
  eapply runs_mono; [by apply (put_parents_neutral w p r)|]. intros ? w1 (Hwf1 & Hk1 & Hp1).
  split_and!; [done|done|]. by eapply TrackerRecord_neutral.
Qed.

Lemma TrackerCreate_neutral w p r i : wf w → ress w !! p = Some r → neutral (TrackerCreate p i) w.
Proof.
  intros Hwf Hp. unfold TrackerCreate. apply runs_bind, runs_fmap. eapply get_res_runs; [exact Hp|].
  destruct (tracked_ (tracker_ r)) eqn:Htr; [|by apply runs_ret].
  destruct (wf_track _ Hwf p r Hp Htr) as (Hself & Htc & _). rewrite Hself, Htc.
  apply neutral_bind. eapply runs_mono; [by apply (put_parents_neutral w p r)|].
  intros ? w1 (Hwf1 & Hk1 & Hp1). split_and!; [done|done|]. apply neutral_bind.
  eapply runs_mono; [by eapply TrackerRecord_neutral|]. intros ? w2 [Hwf2 Hk2]. split_and!; [done|done|].
  destruct (kc_res _ _ Hk2 p _ Hp1) as (r2 & Hp2 & _).
  apply runs_bind. eapply get_res_runs; [exact Hp2|]. apply runs_bind, runs_require; [done|].
  by apply record_datum_neutral.
Qed.

Lemma TrackerAbsorb_neutral w p m r rm :
  wf w → ress w !! p = Some r → ress w !! m = Some rm →
  neutral (TrackerAbsorb p m) w.
Proof.
  intros Hwf Hp Hm. unfold TrackerAbsorb. apply runs_bind, runs_fmap. eapply get_res_runs; [exact Hp|].
  destruct (tracked_ (tracker_ r)) eqn:Htr; [|by apply runs_ret].
  destruct (wf_track _ Hwf p r Hp Htr) as (Hself & _). rewrite Hself. destruct (wf_tr_res _ Hwf m rm Hm) as [ra Ha].
  apply runs_bind. eapply get_res_runs; [exact Hp|]. apply runs_bind, runs_fmap.
  eapply get_res_runs; [exact Hm|]. apply runs_bind. eapply get_res_runs; [exact Ha|].
  apply neutral_bind. eapply runs_mono; [by apply (put_parents_neutral w p r)|].
  intros ? w1 (Hwf1 & Hk1 & Hp1). split_and!; [done|done|]. by eapply TrackerRecord_neutral.
Qed.

Lemma TrackerExtract_neutral w p m r rm :
  wf w → p ≠ m → ress w !! p = Some r → ress w !! m = Some rm →
  (tracked_ (tracker_ r) = true → tracked_ (tracker_ rm) = true) →
  neutral (TrackerExtract p m) w.
Proof.
  intros Hwf Hne Hp Hm Hres. unfold TrackerExtract. apply runs_bind, runs_fmap.
  eapply get_res_runs; [exact Hp|].
  destruct (tracked_ (tracker_ r)) eqn:Htr; [|by apply runs_ret]. specialize (Hres eq_refl).
  destruct (wf_track _ Hwf p r Hp Htr) as (Hself & _). rewrite Hself.
  apply runs_bind. eapply get_res_runs; [exact Hp|].
  apply neutral_bind. eapply runs_mono; [by apply (put_parents_neutral w p r)|].
  intros ? w1 (Hwf1 & Hk1 & Hp1). split_and!; [done|done|].
  destruct (kc_res _ _ Hk1 m rm Hm) as (rm1 & Hm1 & _ & _ & _ & _ & Htm).
  apply neutral_bind. eapply runs_mono; [by apply (put_parents_neutral w1 m rm1)|].
  intros ? w2 (Hwf2 & Hk2 & Hm2). split_and!; [done|done|].
  apply neutral_bind. eapply runs_mono; [apply (modify_res_neutral w2 m _ _ Hwf2 Hm2)|].
  { split_and!; try done. cbn. congruence. }
  intros ? w3 (Hwf3 & Hk3 & Hm3 & _). split_and!; [done|done|].
  destruct (kc_res _ _ Hk2 p _ Hp1) as (r2 & Hp2 & _ & _ & _ & _ & Ht2).
  destruct (kc_res _ _ Hk3 p _ Hp2) as (r3 & Hp3 & _ & _ & _ & _ & Ht3).
  apply neutral_bind. eapply runs_mono; [apply (TrackerRecord_neutral w3 p r3); try done; cbn in *; congruence|].
  intros ? w4 [Hwf4 Hk4]. split_and!; [done|done|].
  destruct (kc_res _ _ Hk4 m _ Hm3) as (rm4 & Hm4 & _ & _ & _ & _ & Ht4).
  eapply TrackerRecord_neutral; [done|done|]. by rewrite Ht4.
Qed.

(** ** Creating objects *)
Lemma keeps_content_same w w' :
  ress w' = ress w → comps w' = comps w → (next_ptr w <= next_ptr w')%Z →
  ctx_time w' = ctx_time w → ctx_decay w' = ctx_decay w → keeps_content w w'.
Proof.
  intros Hr Hc ? ? ?. split; try done; rewrite ?Hr, ?Hc;
    [intros p r Hp; by exists r|intros c x Hx; by exists x].
Qed.

Lemma fresh_runs w (Q : ptr → World xq → Prop) :
  Q (next_ptr w) (set_next_ptr (next_ptr w + 1)%Z w) → runs fresh w Q.
Proof. intros HQ. unfold fresh. by apply runs_bind, runs_get, runs_bind, runs_modify, runs_ret. Qed.

Lemma wf_set_next_ptr w n : wf w → (next_ptr w <= n)%Z → wf (set_next_ptr n w).
Proof.
  intros [Hr Hc ? ? ? ? ?] Hn. split; try done; cbn.
  - intros p r Hp. specialize (Hr p r Hp). lia.
  - intros c x Hx. specialize (Hc c x Hx). lia.
Qed.

(** A new entry in the store of compositions. *)
Lemma insert_comp_wf w c x :
  wf w → comps w !! c = None → (c < next_ptr w)%Z → vec_ok (mass_of x) →
  wf (set_comps (<[c := x]> (comps w)) w) ∧ keeps_content w (set_comps (<[c := x]> (comps w)) w).
Proof.
  intros [Hr Hfc Hmat Ht Htres Hk Hi] Hc Hlt Hx. split.
  - split; cbn; try done.
    + intros c' y. rewrite lookup_insert. case_decide; [intros; by subst|apply Hfc].
    + intros p r c' t Hp Hkind. rewrite lookup_insert. case_decide; [by eexists|by eapply Hmat].
    + intros c' y. rewrite lookup_insert. case_decide; [by intros [= <-]|apply Hk].
  - split; cbn; try done; [intros p r Hp; by exists r|]. intros c' y Hy.
    rewrite lookup_insert_ne; [by exists y|congruence].
Qed.

Lemma mass_of_set v (x : Composition xq) : atom_ x = ∅ → mass_of (set_mass v x) = v.
Proof.
  intros Ha. unfold mass_of. cbn. rewrite Ha. destruct (Nat.eqb_spec (size v) 0) as [E|]; [|done].
  apply map_size_empty_inv in E. rewrite E. apply map_imap_empty.
Qed.

Lemma CreateFromMass_runs w v :
  wf w → vec_ok v →
  runs (CreateFromMass v) w (λ c w', wf w' ∧ keeps_content w w' ∧ comps w !! c = None ∧
    ress w' = ress w ∧ ∃ x, comps w' !! c = Some x ∧ mass_of x = v).
Proof.
  intros Hwf (Hf & Hpos & Hval). unfold CreateFromMass, valid_comp.
  apply runs_bind, runs_bind, runs_require; [done|]. apply runs_require; [by apply AllPositive_spec|].
  apply runs_bind. unfold new_composition, new_composition_in.
  apply runs_bind, fresh_runs. apply runs_bind, runs_modify. apply runs_bind, fresh_runs. cbn.
  apply runs_bind, runs_get, runs_bind, runs_modify, runs_bind, runs_modify, runs_ret.
  apply runs_bind. unfold get_comp. apply runs_bind, runs_get. cbn.
  eapply runs_option; [apply lookup_insert_eq|]. apply runs_bind, runs_modify, runs_ret.
  set (c := (next_ptr w + 1)%Z). set (line := next_ptr w).
  set (x := mkComp xq (next_comp_id_ w) false ∅ ∅ 0 line).
  set (w1 := set_next_comp_id (next_comp_id_ w + 1)%Z (set_next_ptr (c + 1)%Z
      (set_chains (<[line := ∅]> (chains w)) w))).
  assert (wf w1) as Hwf1.
  { assert (wf (set_next_ptr (c + 1)%Z w)) as [] by (apply wf_set_next_ptr; [done|lia]). by split. }
  assert (comps w !! c = None) as Hc.
  { destruct (comps w !! c) eqn:E; [|done]. apply (wf_fresh_comp _ Hwf) in E. lia. }
  destruct (insert_comp_wf w1 c (set_mass v x) Hwf1 Hc) as [Hw Hk]; [cbn; lia|by rewrite mass_of_set|].
  cbn. rewrite insert_insert_eq. split_and!; [exact Hw| |done|done|].
  - etrans; [|exact Hk]. apply keeps_content_same; try done. cbn. lia.
  - exists (set_mass v x). split; [apply lookup_insert_eq|by apply mass_of_set].
Qed.

Lemma new_material_runs w ctx q c :
  wf w → is_Some (comps w !! c) →
  runs (new_material ctx q c) w (λ p w', wf w' ∧ keeps_content w w' ∧ ress w !! p = None ∧
    comps w' = comps w ∧ ∃ r t, ress w' !! p = Some r ∧ res_qty r = q ∧ res_ctx r = ctx ∧
      kind_ r = KMaterial c t ∧ tracked_ (tracker_ r) = ctx).
Proof.
  intros Hwf Hc. set (p := next_ptr w).
  assert (ress w !! p = None) as Hp.
  { destruct (ress w !! p) eqn:E; [|done]. apply (wf_fresh_res _ Hwf) in E. lia. }
  unfold new_material, new_resource. apply runs_bind, runs_get. apply runs_bind, runs_bind, fresh_runs.
  apply runs_bind, runs_get. do 3 apply runs_bind, runs_modify. apply runs_ret.
  set (r0 := mkRes xq _ _ _ _ _ _). set (w1 := set_ress _ _).
  assert (∀ r, res_ctx r = ctx → tracked_ (tracker_ r) = ctx → kind_ r = kind_ r0 →
     tracker_ r = set_tracked ctx (new_tracker ctx p) →
     wf (set_ress (<[p := r]> (ress w1)) w1) ∧ keeps_content w (set_ress (<[p := r]> (ress w1)) w1)) as Hgen.
  { intros r Hrc Hrt Hrk Htr. cbn. rewrite insert_insert_eq. destruct Hwf as [Hr Hfc Hmat Ht Htres Hk [Hs Hi]].
    split.
    - split; cbn; try done.
      + intros p' y. rewrite lookup_insert. case_decide; [intros; subst; unfold p; lia|].
        intros Hy. specialize (Hr _ _ Hy). lia.
      + intros c' y Hy. specialize (Hfc _ _ Hy). lia.
      + intros p' y c' t. rewrite lookup_insert. case_decide; [|by eapply Hmat].
        intros [= <-]. rewrite Hrk. by intros [= <- <-].
      + intros p' y. rewrite lookup_insert. case_decide; [|apply Ht].
        intros [= <-]. subst p'. rewrite Htr. cbn. intros ->. done.
      + intros p' y. rewrite lookup_insert. intros Hy. rewrite lookup_insert.
        case_decide as Hpp; [injection Hy as <-; rewrite Htr; cbn; by rewrite decide_True|].
        case_decide; [by eexists|by eapply Htres].
      + split; [done|]. eapply Forall_impl; [exact Hi|]. cbn. intros. lia.
    - split; cbn; try done; [|intros c' y Hy; by exists y|lia].
      intros p' y Hy. rewrite lookup_insert_ne; [by exists y|].
      intros <-. change (ress w !! p = Some y) in Hy. congruence. }
  destruct ctx.
  - apply runs_ret. destruct (Hgen r0) as [Hw Hk]; try done. 
    assert (set_ress (<[p := r0]> (ress w1)) w1 = w1) as Heq by (unfold w1, set_ress; cbn; by rewrite insert_insert_eq).
    rewrite Heq in Hw, Hk. split_and!; try done. eexists r0, _. split_and!; try done. apply lookup_insert_eq.
  - apply runs_bind. unfold modify_res. apply runs_bind. eapply get_res_runs; [apply lookup_insert_eq|].
    apply runs_modify, runs_ret. destruct (Hgen (DontTrack r0)) as [Hw Hk]; try done.
    split_and!; try done. eexists (DontTrack r0), _. split_and!; try done. apply lookup_insert_eq.
Qed.

(** ** Quantities and compositions *)

(** The material at [p] has the quantity [q] and the mass vector [v]. *)
Definition holds_mat w (p : ptr) (q : Q) (v : CompMap xq) : Prop :=
  ∃ r c t x, ress w !! p = Some r ∧ res_qty r ≃ q ∧ kind_ r = KMaterial c t ∧
             comps w !! c = Some x ∧ mass_of x = v.

(** The mass of a nuclide in a quantity of material. *)
Definition nuc_mass (q : Q) (v : CompMap xq) (n : Z) : Q := (nuc_val v n * (q / total v))%Q.

Lemma keeps_holds w w' p q v : keeps_content w w' → holds_mat w p q v → holds_mat w' p q v.
Proof.
  intros Hk (r & c & t & x & Hp & Hq & Hki & Hc & Hm).
  destruct (kc_res _ _ Hk p r Hp) as (r' & Hp' & Hq' & Hk' & _).
  destruct (kc_comp _ _ Hk c x Hc) as (x' & Hc' & Hm').
  exists r', c, t, x'. split_and!; congruence.
Qed.

Lemma holds_ok w p q v : wf w → holds_mat w p q v → vec_ok v.
Proof. intros Hwf (r & c & t & x & _ & _ & _ & Hc & <-). by eapply wf_comp. Qed.

Lemma put_content_wf w p r r' :
  wf w → ress w !! p = Some r → tracker_ r' = tracker_ r → res_ctx r' = res_ctx r →
  (∀ c t, kind_ r' = KMaterial c t → is_Some (comps w !! c)) →
  wf (set_ress (<[p := r']> (ress w)) w).
Proof.
  intros [Hr Hfc Hmat Ht Htres Hk Hi] Hp Htr Hctx Hc. split; cbn; try done.
  - intros p' y. rewrite lookup_insert. case_decide; [intros; simplify_eq; by eapply Hr|apply Hr].
  - intros p' y c t. rewrite lookup_insert. case_decide; [|by eapply Hmat].
    intros [= <-]. apply Hc.
  - intros p' y. rewrite lookup_insert. case_decide; [|apply Ht].
    intros [= <-]. rewrite Htr, Hctx. subst p'. by apply Ht.
  - intros p' y. rewrite lookup_insert. intros Hy. rewrite lookup_insert.
    destruct (decide (p = tr_res (tracker_ y))); [by eexists|].
    case_decide; [|by eapply Htres]. injection Hy as <-. rewrite Htr. by eapply Htres.
Qed.

Lemma modify_res_runs w p r f (Q : unit → World xq → Prop) :
  ress w !! p = Some r → Q tt (set_ress (<[p := f r]> (ress w)) w) → runs (modify_res p f) w Q.
Proof.
  intros Hp HQ. unfold modify_res. apply runs_bind. eapply get_res_runs; [exact Hp|]. by apply runs_modify.
Qed.

Lemma mat_parts_runs w r c t (Q : ptr * Z → World xq → Prop) :
  kind_ r = KMaterial c t → Q (c, t) w → runs (mat_parts r) w Q.
Proof. intros Hk HQ. unfold mat_parts. rewrite Hk. by apply runs_ret. Qed.

(** Without lazy decay, [comp()] only reads. *)
Lemma comp_runs w p r c t (Q : ptr → World xq → Prop) :
  ctx_decay w ≠ DecayLazy → ress w !! p = Some r → kind_ r = KMaterial c t → Q c w →
  runs (comp p) w Q.
Proof.
  intros Hd Hp Hk HQ. unfold comp. apply runs_bind. eapply get_res_runs; [exact Hp|].
  apply runs_bind, runs_get.
  replace (res_ctx r && match ctx_decay w with DecayLazy => true | _ => false end) with false
    by (destruct (ctx_decay w); by rewrite ?andb_false_r).
  apply runs_bind, runs_ret, runs_bind. eapply get_res_runs; [exact Hp|].
  apply runs_fmap. by eapply mat_parts_runs.
Qed.

(** Quantities and compositions of materials other than [p]. *)
Definition others_kept (p : ptr) w w' : Prop :=
  ∀ p' q v, p' ≠ p → holds_mat w p' q v → holds_mat w' p' q v.

Lemma others_kept_put p r w : others_kept p w (set_ress (<[p := r]> (ress w)) w).
Proof.
  intros p' q v Hne (r' & c & t & x & Hp' & ?). exists r', c, t, x. cbn.
  by rewrite lookup_insert_ne.
Qed.

Lemma total_nonneg v : (∀ n, 0 <= nuc_val v n)%Q → (0 <= total v)%Q.
Proof.
  intros Hv. apply sumQ_nonneg, Forall_map, Forall_forall. intros [n x] Hin.
  apply elem_of_map_to_list in Hin. specialize (Hv n). unfold nuc_val, at_default in Hv.
  by rewrite Hin in Hv.
Qed.

Lemma Normalize_ok v y q :
  vec_ok v → y ≃ q → (0 <= q)%Q → ¬ (total v == 0)%Q → vec_ok (compmath.Normalize v y).
Proof.
  intros (Hf & Hpos & Hval) Hy Hq Ht. destruct (Normalize_exact v y q Hf Hy Ht) as (Hf' & Hn & _).
  split_and!; [done| |].
  - intros n. rewrite Hn. apply Qmult_le_0_compat; [done|]. pose proof (total_nonneg v Hpos).
    apply Qle_shift_div_l; lra.
  - apply ValidNucs_spec. intros n. rewrite Normalize_dom. by apply ValidNucs_spec.
Qed.

Lemma Add_ok v1 v2 : vec_ok v1 → vec_ok v2 → vec_ok (compmath.Add v1 v2).
Proof.
  intros (Hf1 & Hp1 & Hv1) (Hf2 & Hp2 & Hv2). destruct (Add_exact v1 v2 Hf1 Hf2) as (Hf & Hn & _).
  split_and!; [done| |].
  - intros n. rewrite Hn. specialize (Hp1 n). specialize (Hp2 n). lra.
  - apply ValidNucs_spec. intros n [?|?]%Add_dom; [by eapply ValidNucs_spec in Hv1|by eapply ValidNucs_spec in Hv2].
Qed.

(** Merging compositions weighted by quantity adds up nuclide by nuclide. *)
Lemma merged_mass v0 v1 y0 y1 q0 q1 n :
  vec_ok v0 → vec_ok v1 → y0 ≃ q0 → y1 ≃ q1 → (0 <= q0 → 0 <= q1 →
  ¬ total v0 == 0 → ¬ total v1 == 0 →
  nuc_mass (q0 + q1) (compmath.Add (compmath.Normalize v0 y0) (compmath.Normalize v1 y1)) n ==
  nuc_mass q0 v0 n + nuc_mass q1 v1 n)%Q.
Proof.
  intros (Hf0 & _) (Hf1 & _) Hy0 Hy1 Hq0 Hq1 Ht0 Ht1.
  destruct (Normalize_exact v0 y0 q0 Hf0 Hy0 Ht0) as (Hf0' & Hn0 & Htot0).
  destruct (Normalize_exact v1 y1 q1 Hf1 Hy1 Ht1) as (Hf1' & Hn1 & Htot1).
  destruct (Add_exact _ _ Hf0' Hf1') as (_ & Hn & Htot).
  unfold nuc_mass. rewrite Hn, Htot, Hn0, Hn1, Htot0, Htot1.
  destruct (Qeq_dec (q0 + q1) 0) as [Hz|Hz].
  - assert (q0 == 0 ∧ q1 == 0)%Q as [-> ->] by (split; lra). unfold Qdiv. lra.
  - assert ((q0 + q1) / (q0 + q1) == 1)%Q as -> by (field; done). lra.
Qed.

Lemma merge_comps_runs w p m q0 q1 v0 v1 :
  wf w → ctx_decay w ≠ DecayLazy → p ≠ m → holds_mat w p q0 v0 → holds_mat w m q1 v1 →
  (0 <= q0)%Q → (0 <= q1)%Q → ¬ (total v0 == 0)%Q → ¬ (total v1 == 0)%Q →
  runs (merge_comps p m) w (λ _ w', wf w' ∧ others_kept p w w' ∧
    ∃ v, holds_mat w' p q0 v ∧
      ∀ n, (nuc_mass (q0 + q1) v n == nuc_mass q0 v0 n + nuc_mass q1 v1 n)%Q).
Proof.
  intros Hwf Hd Hne Hp0 Hm0 Hq0 Hq1 Ht0 Ht1.
  pose proof (holds_ok _ _ _ _ Hwf Hp0) as Hok0. pose proof (holds_ok _ _ _ _ Hwf Hm0) as Hok1.
  destruct Hp0 as (r & c0 & t & x0 & Hp & Hqr & Hkr & Hc0 & Hv0).
  destruct Hm0 as (m0 & c1 & tm & x1 & Hm & Hqm & Hkm & Hc1 & Hv1).
  unfold merge_comps. apply runs_bind. eapply comp_runs; [done|done|done|].
  apply runs_bind. eapply comp_runs; [done|done|done|].
  destruct (Z.eqb_spec c0 c1) as [->|Hcc].
  { apply runs_ret. split_and!; [done|by intros ?|]. exists v0. split; [by exists r, c1, t, x0|].
    intros n. assert (v1 = v0) as -> by congruence. unfold nuc_mass. field. done. }
  apply runs_bind. eapply get_res_runs; [exact Hp|]. apply runs_bind.
  eapply runs_mono; [by apply (mass_runs w c0 x0)|]. intros va w1 (Hva & Hwf1 & Hk1 & Hr1).
  apply runs_bind. eapply get_res_runs; [by rewrite Hr1|]. apply runs_bind.
  destruct (kc_comp _ _ Hk1 c1 x1 Hc1) as (x1' & Hc1' & Hx1').
  eapply runs_mono; [by apply (mass_runs w1 c1 x1')|]. intros vb w2 (Hvb & Hwf2 & Hk2 & Hr2).
  rewrite Hx1', Hv1 in Hvb. rewrite Hv0 in Hva. subst va vb. apply runs_bind.
  eapply runs_mono; [apply CreateFromMass_runs; [done|]|].
  { apply Add_ok; by eapply Normalize_ok. }
  intros c' w3 (Hwf3 & Hk3 & _ & Hr3 & x' & Hc' & Hx'). apply runs_bind.
  eapply mat_parts_runs; [exact Hkr|].
  assert (ress w3 !! p = Some r) as Hp3 by congruence.
  eapply modify_res_runs; [exact Hp3|]. split_and!.
  - eapply put_content_wf; [done|exact Hp3|done|done|]. cbn. intros ? ? [= <- <-]. by exists x'.
  - intros p' q v Hpp Hh. apply others_kept_put; [done|].
    eapply keeps_holds; [exact Hk3|]. eapply keeps_holds; [exact Hk2|]. by eapply keeps_holds.
  - eexists. split; [exists (set_kind (KMaterial c' t) r), c', t, x'; cbn; rewrite lookup_insert_eq; by split_and!|].
    intros n. by apply merged_mass.
Qed.

Lemma move_qty_runs w p m q0 q1 v v1 :
  wf w → p ≠ m → holds_mat w p q0 v → holds_mat w m q1 v1 →
  runs (move_qty p m) w (λ _ w', wf w' ∧ holds_mat w' p (q0 + q1) v ∧ holds_mat w' m 0 v1 ∧
    ∀ p' q' v', p' ≠ p → p' ≠ m → holds_mat w p' q' v' → holds_mat w' p' q' v').
Proof.
  intros Hwf Hne (r & c & t & x & Hp & Hqr & Hkr & Hc & Hv) (mr & c1 & tm & x1 & Hm & Hqm & Hkm & Hc1 & Hv1).
  unfold move_qty. apply runs_bind. eapply get_res_runs; [exact Hp|].
  apply runs_bind. eapply get_res_runs; [exact Hm|].
  apply runs_bind. eapply mat_parts_runs; [exact Hkr|].
  apply runs_bind. eapply mat_parts_runs; [exact Hkm|].
  set (t' := if (res_qty r <? res_qty mr)%D then tm else t).
  set (r1 := set_kind (KMaterial c t') r). set (w1 := set_ress (<[p := r1]> (ress w)) w).
  assert (runs (if (res_qty r <? res_qty mr)%D then modify_res p (set_kind (KMaterial c tm)) else mret tt)
    w (λ _ w', w' = w ∧ r = r1 ∨ w' = w1)) as Htime.
  { unfold w1, r1, t'. destruct (res_qty r <? res_qty mr)%D.
    - eapply modify_res_runs; [exact Hp|]. by right.
    - apply runs_ret. left. split; [done|]. destruct r. cbn in *. by rewrite Hkr. }
  apply runs_bind. eapply runs_mono; [exact Htime|]. clear Htime. intros ? w2 Hw2.
  assert (wf w2 ∧ ress w2 !! p = Some r1 ∧ ress w2 !! m = Some mr ∧ comps w2 = comps w ∧
          others_kept p w w2) as (Hwf2 & Hp2 & Hm2 & Hcs2 & Hot2).
  { destruct Hw2 as [[-> Hr1]| ->]; [rewrite <-Hr1; by split_and!; try intros ?|].
    split_and!; [| | |done|apply others_kept_put].
    - eapply put_content_wf; [done|exact Hp|done|done|]. cbn. intros ? ? [= <- <-]. by exists x.
    - apply lookup_insert_eq.
    - unfold w1. cbn. by rewrite lookup_insert_ne. }
  apply runs_bind. eapply modify_res_runs; [exact Hp2|].
  set (r3 := set_qty _ r1). set (w3 := set_ress (<[p := r3]> (ress w2)) w2).
  assert (wf w3) as Hwf3.
  { eapply put_content_wf; [done|exact Hp2|done|done|]. cbn. rewrite Hcs2. intros ? ? [= <- <-]. by exists x. }
  assert (ress w3 !! m = Some mr) as Hm3 by (unfold w3; cbn; by rewrite lookup_insert_ne).
  apply runs_bind. eapply modify_res_runs; [exact Hm3|].
  set (w4 := set_ress (<[m := set_qty (nZ 0) mr]> (ress w3)) w3).
  assert (wf w4) as Hwf4.
  { eapply put_content_wf; [done|exact Hm3|done|done|]. cbn. rewrite Hcs2.
    intros ? ? Hk. rewrite Hkm in Hk. injection Hk as <- <-. by exists x1. }
  assert (ress w4 !! p = Some r3) as Hp4
    by (unfold w4, w3; cbn; rewrite lookup_insert_ne by done; apply lookup_insert_eq).
  assert (ress w4 !! m = Some (set_qty (nZ 0) mr)) as Hm4 by apply lookup_insert_eq.
  eapply runs_mono; [by eapply TrackerAbsorb_neutral|]. intros ? w5 [Hwf5 Hk5]. split_and!; [done| | |].
  - eapply keeps_holds; [exact Hk5|]. exists r3, c, t', x. split_and!; try done.
    + cbn. by apply fin_add.
    + cbn. by rewrite Hcs2.
  - eapply keeps_holds; [exact Hk5|]. exists (set_qty (nZ 0) mr), c1, tm, x1. split_and!; try done.
    cbn. by rewrite Hcs2.
  - intros p' q' v' Hp' Hm' Hh. eapply keeps_holds; [exact Hk5|].
    apply others_kept_put; [done|]. apply others_kept_put; [done|]. by apply Hot2.
Qed.

Lemma AbsorbMat_runs w p m q0 q1 v0 v1 :
  wf w → ctx_decay w ≠ DecayLazy → p ≠ m → holds_mat w p q0 v0 → holds_mat w m q1 v1 →
  (0 <= q0)%Q → (0 <= q1)%Q → ¬ (total v0 == 0)%Q → ¬ (total v1 == 0)%Q →
  runs (AbsorbMat p m) w (λ _ w', wf w' ∧ holds_mat w' m 0 v1 ∧
    (∃ v, holds_mat w' p (q0 + q1) v ∧
       ∀ n, (nuc_mass (q0 + q1) v n == nuc_mass q0 v0 n + nuc_mass q1 v1 n)%Q) ∧
    ∀ p' q' v', p' ≠ p → p' ≠ m → holds_mat w p' q' v' → holds_mat w' p' q' v').
Proof.
  intros Hwf Hd Hne Hp Hm Hq0 Hq1 Ht0 Ht1. unfold AbsorbMat. apply runs_bind.
  eapply runs_mono; [by apply (merge_comps_runs w p m q0 q1 v0 v1)|].
  intros ? w1 (Hwf1 & Hot1 & v & Hp1 & Hn). eapply runs_mono.
  { apply (move_qty_runs w1 p m q0 q1 v v1); [done|done|done|]. by apply Hot1. }
  intros ? w2 (Hwf2 & Hp2 & Hm2 & Hot2). split_and!; [done|done|by exists v|].
  intros. apply Hot2; [done..|]. by apply Hot1.
Qed.

(** ** Extraction *)

(** What is left of a nuclide when [k] of composition [vc] is taken from [q] of
    composition [v], and what the threshold makes of it. *)
Definition left_over (q k : Q) (v vc : CompMap xq) (n : Z) : Q :=
  (nuc_mass q v n - nuc_mass k vc n)%Q.
Definition cut (tau d : Q) : Q := if Qle_bool (Qabs d) tau then 0%Q else d.

#[export] Instance cut_proper tau : Proper (Qeq ==> Qeq) (cut tau).
Proof. intros d d' Hd. unfold cut. rewrite Hd. by destruct (Qle_bool _ _). Qed.

Lemma cut_nonneg tau d : (0 <= tau -> - tau <= d -> 0 <= cut tau d)%Q.
Proof.
  intros Ht Hd. unfold cut. destruct (Qle_bool (Qabs d) tau) eqn:E; [lra|].
  destruct (Qlt_le_dec d 0) as [Hneg|]; [|done]. exfalso.
  apply not_true_iff_false in E. apply E, Qle_bool_iff, Qabs_Qle_condition. lra.
Qed.

Lemma subtracted_ok v vc y yk th q k tau :
  vec_ok v → vec_ok vc → y ≃ q → yk ≃ k → th ≃ tau → (0 <= tau)%Q →
  ¬ (total v == 0)%Q → ¬ (total vc == 0)%Q → (∀ n, - tau <= left_over q k v vc n)%Q →
  ∃ v', compmath.ApplyThreshold (compmath.Sub (compmath.Normalize v y) (compmath.Normalize vc yk)) th =
    Ret v' ∧ vec_ok v' ∧ ∀ n, (nuc_val v' n == cut tau (left_over q k v vc n))%Q.
Proof.
  intros (Hf & _ & Hval) (Hfc & _ & Hvalc) Hy Hyk Hth Htau Ht Htc Hleft.
  destruct (Normalize_exact v y q Hf Hy Ht) as (Hf1 & Hn1 & _).
  destruct (Normalize_exact vc yk k Hfc Hyk Htc) as (Hf2 & Hn2 & _).
  destruct (Sub_exact _ _ Hf1 Hf2) as (Hf3 & Hn3 & _).
  destruct (ApplyThreshold_spec _ th tau Hf3 Hth Htau) as (v' & Hv' & Hfv' & Hnv').
  assert (∀ n, nuc_val v' n == cut tau (left_over q k v vc n))%Q as Hcut.
  { intros n. rewrite Hnv'. unfold cut, left_over, nuc_mass.
    assert (nuc_val (compmath.Sub (compmath.Normalize v y) (compmath.Normalize vc yk)) n ==
      nuc_val v n * (q / total v) - nuc_val vc n * (k / total vc))%Q as Hd by (by rewrite Hn3, Hn1, Hn2).
    rewrite Hd. destruct (Qle_bool _ tau); [reflexivity|exact Hd]. }
  exists v'. split_and!; [done|split_and!; [done| |]|done].
  - intros n. rewrite Hcut. by apply cut_nonneg.
  - apply ValidNucs_spec. intros n Hs. eapply ApplyThreshold_dom in Hs; [|exact Hv'].
    apply Sub_dom in Hs as [Hs|Hs]; apply Normalize_dom in Hs;
      [by eapply ValidNucs_spec in Hval|by eapply ValidNucs_spec in Hvalc].
Qed.

Lemma subtract_comp_runs w p r cp t x q c xc yk k th tau :
  wf w → ress w !! p = Some r → kind_ r = KMaterial cp t → comps w !! cp = Some x → res_qty r ≃ q →
  comps w !! c = Some xc → yk ≃ k → th ≃ tau → (0 <= tau)%Q →
  (cp ≠ c → ¬ (total (mass_of x) == 0)%Q ∧ ¬ (total (mass_of xc) == 0)%Q ∧
            ∀ n, (- tau <= left_over q k (mass_of x) (mass_of xc) n)%Q) →
  runs (subtract_comp p yk c th) w (λ _ w', wf w' ∧ others_kept p w w' ∧
    (∀ p', ress w' !! p' = None → ress w !! p' = None) ∧
    (∃ xc', comps w' !! c = Some xc' ∧ mass_of xc' = mass_of xc) ∧
    ∃ r' cp' x', ress w' !! p = Some r' ∧ res_qty r' = res_qty r ∧ tracker_ r' = tracker_ r ∧
      res_ctx r' = res_ctx r ∧ kind_ r' = KMaterial cp' t ∧ comps w' !! cp' = Some x' ∧
      if decide (cp = c) then mass_of x' = mass_of x
      else ∀ n, (nuc_val (mass_of x') n == cut tau (left_over q k (mass_of x) (mass_of xc) n))%Q).
Proof.
  intros Hwf Hp Hkr Hx Hq Hc Hyk Hth Htau Hcond. unfold subtract_comp.
  apply runs_bind. eapply get_res_runs; [exact Hp|]. apply runs_bind. eapply mat_parts_runs; [exact Hkr|].
  cbn [fst snd]. destruct (Z.eqb_spec cp c) as [Heq|Hne].
  { apply runs_ret. split_and!; [done|by intros ?|done|by exists xc|]. exists r, cp, x.
    rewrite decide_True by done. by split_and!. }
  destruct (Hcond Hne) as (Ht & Htc & Hleft). apply runs_bind.
  eapply runs_mono; [by apply (mass_runs w cp x)|]. intros va w1 (Hva & Hwf1 & Hk1 & Hr1).
  destruct (kc_comp _ _ Hk1 c xc Hc) as (xc1 & Hc1 & Hxc1). apply runs_bind.
  eapply runs_mono; [by apply (mass_runs w1 c xc1)|]. intros vb w2 (Hvb & Hwf2 & Hk2 & Hr2).
  rewrite Hxc1 in Hvb. subst va vb.
  destruct (subtracted_ok (mass_of x) (mass_of xc) (res_qty r) yk th q k tau) as (v' & Hv' & Hok & Hn);
    try done; [exact (wf_comp _ Hwf _ _ Hx)|exact (wf_comp _ Hwf _ _ Hc)|]. rewrite Hv'. apply runs_bind.
  eapply runs_mono; [by apply CreateFromMass_runs|]. intros c' w3 (Hwf3 & Hk3 & _ & Hr3 & x' & Hc' & Hx').
  assert (ress w3 !! p = Some r) as Hp3 by congruence.
  eapply modify_res_runs; [exact Hp3|]. split_and!.
  - eapply put_content_wf; [done|exact Hp3|done|done|]. cbn. intros ? ? [= <- <-]. by exists x'.
  - intros p' q' v0 Hpp Hh. apply others_kept_put; [done|].
    eapply keeps_holds; [exact Hk3|]. eapply keeps_holds; [exact Hk2|]. by eapply keeps_holds.
  - intros p'. cbn. rewrite lookup_insert. case_decide; [done|]. congruence.
  - destruct (kc_comp _ _ Hk2 c xc1 Hc1) as (xc2 & Hc2 & Hxc2).
    destruct (kc_comp _ _ Hk3 c xc2 Hc2) as (xc3 & Hc3 & Hxc3). exists xc3. split; [done|congruence].
  - exists (set_kind (KMaterial c' t) r), c', x'. rewrite decide_False by done.
    split_and!; try done; [apply lookup_insert_eq|]. by rewrite Hx'.
Qed.

Lemma ExtractComp_runs w p r cp t x q c xc yk k th tau :
  wf w → ress w !! p = Some r → kind_ r = KMaterial cp t → comps w !! cp = Some x → res_qty r ≃ q →
  comps w !! c = Some xc → yk ≃ k → (k <= q)%Q → th ≃ tau → (0 <= tau)%Q →
  (cp ≠ c → ¬ (total (mass_of x) == 0)%Q ∧ ¬ (total (mass_of xc) == 0)%Q ∧
            ∀ n, (- tau <= left_over q k (mass_of x) (mass_of xc) n)%Q) →
  runs (ExtractComp p yk c th) w (λ p2 w', wf w' ∧ ress w !! p2 = None ∧
    holds_mat w' p2 k (mass_of xc) ∧
    (∃ v', holds_mat w' p (q - k) v' ∧
      if decide (cp = c) then v' = mass_of x
      else ∀ n, (nuc_val v' n == cut tau (left_over q k (mass_of x) (mass_of xc) n))%Q) ∧
    others_kept p w w').
Proof.
  intros Hwf Hp Hkr Hx Hq Hc Hyk Hkq Hth Htau Hcond. unfold ExtractComp.
  apply runs_bind. eapply get_res_runs; [exact Hp|]. apply runs_bind. eapply mat_parts_runs; [exact Hkr|].
  apply runs_bind, runs_require.
  { rewrite (ltb_fin Hq Hyk), (proj2 (Qltb_ge _ _)) by done. done. }
  apply runs_bind. eapply runs_mono; [by eapply subtract_comp_runs|].
  intros ? w1 (Hwf1 & Hot1 & Hdom1 & (xc1 & Hc1 & Hxc1) & r1 & cp1 & x1 & Hp1 & Hq1 & Htr1 & Hctx1 & Hk1 & Hx1 & Hv1).
  apply runs_bind. eapply modify_res_runs; [exact Hp1|].
  set (r2 := set_qty _ r1). set (w2 := set_ress (<[p := r2]> (ress w1)) w1).
  assert (wf w2) as Hwf2.
  { eapply put_content_wf; [done|exact Hp1|done|done|]. cbn. rewrite Hk1. intros ? ? [= <- <-]. by exists x1. }
  assert (ress w2 !! p = Some r2) as Hp2 by apply lookup_insert_eq.
  apply runs_bind. eapply runs_mono; [apply (new_material_runs w2 (res_ctx r) yk c); [done|by exists xc1]|].
  intros p2 w3 (Hwf3 & Hk3 & Hfresh & Hcs3 & r3 & t3 & Hp3 & Hq3 & Hctx3 & Hkind3 & Htr3).
  assert (p ≠ p2) as Hne by (intros <-; congruence).
  assert (ress w !! p2 = None) as Hnew.
  { apply Hdom1. unfold w2 in Hfresh. cbn in Hfresh. by rewrite lookup_insert_ne in Hfresh. }
  destruct (kc_res _ _ Hk3 p r2 Hp2) as (rp & Hpp & Hqp & Hkp & _ & _ & Htp).
  apply runs_bind. eapply modify_res_runs; [exact Hp3|].
  set (w4 := set_ress _ w3). assert (wf w4) as Hwf4.
  { eapply put_content_wf; [done|exact Hp3|done|done|]. cbn. intros ? ? [= <- <-].
    rewrite Hcs3. by exists xc1. }
  assert (ress w4 !! p = Some rp) as Hp4 by (unfold w4; cbn; by rewrite lookup_insert_ne).
  apply runs_bind. eapply runs_mono; [eapply (TrackerExtract_neutral w4 p p2); [done|done|exact Hp4|apply lookup_insert_eq|]|].
  { cbn. rewrite Htp. cbn. rewrite Htr1, Htr3. by intros (_ & _ & ->)%(wf_track _ Hwf p r Hp). }
  intros ? w5 [Hwf5 Hk5]. apply runs_ret. split_and!; [done|done| | |].
  - eapply keeps_holds; [exact Hk5|]. eexists _, c, _, xc1. cbn. rewrite lookup_insert_eq, Hcs3.
    split_and!; try done. cbn. by rewrite Hq3.
  - exists (mass_of x1). split; [|by destruct (decide (cp = c))].
    eapply keeps_holds; [exact Hk5|]. exists rp, cp1, t, x1. rewrite Hp4. cbn. rewrite Hcs3.
    split_and!; try done; [|by rewrite Hkp]. rewrite Hqp. cbn. rewrite Hq1. by apply fin_sub.
  - intros p' q' v' Hpp' Hh. eapply keeps_holds; [exact Hk5|].
    assert (holds_mat w3 p' q' v') as Hh3.
    { eapply keeps_holds; [exact Hk3|]. apply others_kept_put; [done|]. by apply Hot1. }
    destruct (decide (p' = p2)) as [->|]; [|by apply others_kept_put].
    destruct Hh as (y & ? & ? & ? & Hy & _). congruence.
Qed.
End theory.
