(* ===== verification/MaterialProperties.v ===== *)
(** * Properties of materials and products

    Conservation of mass by [Absorb] and [ExtractComp], what they refuse, and the tracking
    of a product that is extracted from an untracked one. *)

From Stdlib Require Import QArith Qabs Lqa ZArith Lia.
From stdpp Require Import base list gmap strings sorting.
From S2P Require Import Prelude Num Arithmetic CompMath Resource Material MaterialTheory.

Section properties.
Context `{Limits xq} {e er : Q} `{!GoodLimits e er} `{Pyne xq}.
Implicit Types (w : World xq) (v : CompMap xq).

(** C13.  Absorbing a material conserves mass: the absorbing material has the sum
    of the two quantities, and of every nuclide the sum of the two masses; the
    absorbed one is left with quantity zero, and no other material changes.
    The store stays well formed: in particular every recorded resource state has
    an id of its own, in increasing order. *)
Theorem absorb_conserves_mass w p m q0 q1 v0 v1 :
  wf w → ctx_decay w ≠ DecayLazy → p ≠ m → holds_mat w p q0 v0 → holds_mat w m q1 v1 →
  (0 <= q0)%Q → (0 <= q1)%Q → ¬ (total v0 == 0)%Q → ¬ (total v1 == 0)%Q →
  ∃ w', AbsorbMat p m w = (Ret tt, w') ∧ wf w' ∧ holds_mat w' m 0 v1 ∧
    (∃ v, holds_mat w' p (q0 + q1) v ∧
       ∀ n, (nuc_mass (q0 + q1) v n == nuc_mass q0 v0 n + nuc_mass q1 v1 n)%Q) ∧
    ∀ p' q' v', p' ≠ p → p' ≠ m → holds_mat w p' q' v' → holds_mat w' p' q' v'.
Proof.
  intros Hwf Hd Hne Hp Hm Hq0 Hq1 Ht0 Ht1.
  destruct (AbsorbMat_runs w p m q0 q1 v0 v1) as ([] & w' & Hrun & HQ); try done. by exists w'.
Qed.

Lemma nuc_le_total v n : all_finite v → (∀ n, 0 <= nuc_val v n)%Q → (nuc_val v n <= total v)%Q.
Proof.
  intros Hf Hpos. rewrite (total_delete v n).
  assert (0 <= total (delete n v))%Q; [|lra]. apply total_nonneg. intros n'.
  rewrite nuc_val_delete. destruct (decide _); [lra|done].
Qed.

(** Nothing is lost to the threshold. *)
Definition nothing_cut (tau q k : Q) (v vc : CompMap xq) : Prop :=
  ∀ n, (cut tau (left_over q k v vc n) == left_over q k v vc n)%Q.

Lemma left_over_mass tau q k v vc v' n :
  vec_ok v → vec_ok vc → vec_ok v' → ¬ (total v == 0)%Q → ¬ (total vc == 0)%Q →
  nothing_cut tau q k v vc →
  (∀ n, nuc_val v' n == cut tau (left_over q k v vc n))%Q →
  (nuc_mass (q - k) v' n + nuc_mass k vc n == nuc_mass q v n)%Q.
Proof.
  intros (Hf & _) (Hfc & _) (Hf' & Hpos' & _) Ht Htc Hcut Hn.
  assert (∀ n, nuc_val v' n == left_over q k v vc n)%Q as Hval by (intros; rewrite Hn; apply Hcut).
  destruct (Normalize_exact v (Fin q) q Hf (fin_Fin q) Ht) as (Hf1 & Hn1 & Ht1).
  destruct (Normalize_exact vc (Fin k) k Hfc (fin_Fin k) Htc) as (Hf2 & Hn2 & Ht2).
  destruct (Sub_exact _ _ Hf1 Hf2) as (_ & Hn3 & Ht3).
  assert (total v' == q - k)%Q as Htot.
  { rewrite <-Ht1, <-Ht2, <-Ht3. apply total_ext. intros n'. rewrite Hval, Hn3, Hn1, Hn2. reflexivity. }
  unfold nuc_mass at 1. rewrite Htot. destruct (Qeq_dec (q - k) 0) as [Hz|Hz].
  - pose proof (nuc_le_total v' n Hf' Hpos') as Hle. specialize (Hpos' n).
    rewrite Htot, Hz in Hle. assert (nuc_val v' n == 0)%Q as Hv0 by lra.
    rewrite Hval in Hv0. unfold left_over in Hv0. rewrite Hz, Hval. unfold Qdiv. rewrite Qmult_0_l. lra.
  - assert ((q - k) / (q - k) == 1)%Q as -> by (field; done). rewrite Hval. unfold left_over. lra.
Qed.

(** C8.  Extracting a quantity of some composition from a material conserves
    mass: the new material has exactly the quantity and composition asked for, the
    old one the rest, and of every nuclide the two masses add up to what there
    was, when no nuclide of the rest falls below the threshold.  No other material
    changes. *)
Theorem extract_conserves_mass w p r cp t x q c xc yk k th tau :
  wf w → ress w !! p = Some r → kind_ r = KMaterial cp t → comps w !! cp = Some x → res_qty r ≃ q →
  comps w !! c = Some xc → yk ≃ k → (k <= q)%Q → th ≃ tau → (0 <= tau)%Q →
  ¬ (total (mass_of x) == 0)%Q → ¬ (total (mass_of xc) == 0)%Q →
  (∀ n, 0 <= left_over q k (mass_of x) (mass_of xc) n)%Q →
  nothing_cut tau q k (mass_of x) (mass_of xc) →
  ∃ p2 w' v', ExtractComp p yk c th w = (Ret p2, w') ∧ wf w' ∧ ress w !! p2 = None ∧
    holds_mat w' p2 k (mass_of xc) ∧ holds_mat w' p (q - k) v' ∧
    (∀ n, nuc_mass (q - k) v' n + nuc_mass k (mass_of xc) n == nuc_mass q (mass_of x) n)%Q ∧
    others_kept p w w'.
Proof.
  intros Hwf Hp Hkr Hx Hq Hc Hyk Hkq Hth Htau Ht Htc Hleft Hcut.
  destruct (ExtractComp_runs w p r cp t x q c xc yk k th tau) as
    (p2 & w' & Hrun & Hwf' & Hnew & Hp2 & (v' & Hv' & Hval) & Hot); try done.
  { intros _. split_and!; [done|done|]. intros n. specialize (Hleft n). lra. }
  exists p2, w', v'. split_and!; try done. intros n.
  pose proof (holds_ok _ _ _ _ Hwf' Hv') as Hok'.
  destruct (decide (cp = c)) as [->|Hne].
  - assert (xc = x) as -> by congruence. subst v'. unfold nuc_mass. field. done.
  - by apply (left_over_mass tau); try done;
      [exact (wf_comp _ Hwf _ _ Hx)|exact (wf_comp _ Hwf _ _ Hc)].
Qed.

(** Extracting more than there is fails with a [ValueError] and changes
    nothing, for materials and products. *)
Theorem extract_too_much w p r yk c th :
  ress w !! p = Some r → (res_qty r <? yk)%D = true →
  match kind_ r with
  | KMaterial _ _ => ExtractComp p yk c th w = (Throw ValueError, w)
  | KProduct _ => ExtractProd p yk w = (Throw ValueError, w)
  end.
Proof.
  intros Hp Hlt.
  assert (get_res p w = (Ret r, w)) as Hget by (unfold get_res; rewrite (bind_ret get _ w w w eq_refl), Hp; done).
  destruct (kind_ r) as [cp t|ql] eqn:Hk.
  - unfold ExtractComp. rewrite (bind_ret _ _ _ _ _ Hget). unfold mat_parts. rewrite Hk.
    rewrite (bind_ret (mret (cp, t)) _ w (cp, t) w eq_refl), Hlt. done.
  - unfold ExtractProd. rewrite (bind_ret _ _ _ _ _ Hget). unfold quality. rewrite Hk.
    rewrite (bind_ret (mret ql) _ w ql w eq_refl), Hlt. done.
Qed.

(** A resource with a tracker that is on but has no context. *)
Definition null_tracked w (p : ptr) (ql : string) (q : xq) : Prop :=
  (p < next_ptr w)%Z ∧ ∃ r, ress w !! p = Some r ∧ kind_ r = KProduct ql ∧ res_qty r = q ∧
    res_ctx r = false ∧ tracked_ (tracker_ r) = true ∧ tr_res (tracker_ r) = p ∧
    tr_ctx (tracker_ r) = false.

Lemma TrackerRecord_null w p r :
  ress w !! p = Some r → tr_res (tracker_ r) = p → tr_ctx (tracker_ r) = false →
  throws (TrackerRecord p) w Undefined.
Proof.
  intros Hp Hself Hctx. unfold TrackerRecord. apply throws_bind, runs_fmap.
  eapply get_res_runs; [exact Hp|]. rewrite Hself, Hctx. apply throws_bind. unfold BumpStateId.
  apply runs_bind, runs_get, runs_bind. eapply modify_res_runs; [exact Hp|]. apply runs_modify.
  by apply throws_bind_l, throws_require.
Qed.

Lemma new_product_runs w ctx q ql :
  runs (new_product ctx q ql) w (λ p w', p = next_ptr w ∧ next_ptr w' = (p + 1)%Z ∧
    ress w' = <[p := mkRes xq (nextstate_id_ w) (nextobj_id_ w) ctx q (new_tracker ctx p) (KProduct ql)]>
                (ress w)).
Proof.
  unfold new_product, new_resource. apply runs_bind, fresh_runs. apply runs_bind, runs_get.
  do 3 apply runs_bind, runs_modify. by apply runs_ret.
Qed.

Lemma extract_null_throws w p ql q k :
  null_tracked w p ql q → (q <? k)%D = false → throws (ExtractProd p k) w Undefined.
Proof.
  intros (Hlt & r & Hp & Hk & Hq & Hctx & Htr & Hself & Htc) Hle. unfold ExtractProd.
  apply throws_bind. eapply get_res_runs; [exact Hp|]. apply throws_bind. unfold quality.
  rewrite Hk. apply runs_ret. apply throws_bind, runs_require; [by rewrite Hq, Hle|].
  apply throws_bind. eapply modify_res_runs; [exact Hp|]. apply throws_bind.
  eapply runs_mono; [apply new_product_runs|]. intros p3 w3 (Hp3 & _ & Hr3). cbn in Hp3, Hr3.
  assert (p ≠ p3) as Hne by lia. apply throws_bind_l. unfold TrackerExtract.
  set (r1 := set_qty (res_qty r - k)%D r) in *.
  assert (ress w3 !! p = Some r1) as Hp1 by (rewrite Hr3, lookup_insert_ne by done; apply lookup_insert_eq).
  apply throws_bind, runs_fmap. eapply get_res_runs; [exact Hp1|]. cbn [tracker_ set_qty r1].
  rewrite Htr, Hself. apply throws_bind. eapply get_res_runs; [exact Hp1|].
  apply throws_bind. eapply modify_res_runs; [exact Hp1|].
  apply throws_bind. eapply modify_res_runs; [cbn; rewrite lookup_insert_ne by done; by rewrite Hr3, lookup_insert_eq|].
  apply throws_bind. eapply modify_res_runs; [cbn; apply lookup_insert_eq|].
  apply throws_bind_l. eapply TrackerRecord_null.
  - cbn. rewrite !(lookup_insert_ne _ p3 p) by done. apply lookup_insert_eq.
  - done.
  - done.
Qed.

(** A product extracted from an untracked product has no context, but it is
    tracked: extracting from it in turn dereferences its null context. *)
Theorem untracked_product_extract w ql (q k k2 : xq) :
  (q <? k)%D = false → (k <? k2)%D = false →
  ∃ p w1 p2 w2 w3, CreateUntrackedProduct q ql w = (Ret p, w1) ∧
    ExtractProd p k w1 = (Ret p2, w2) ∧ ExtractProd p2 k2 w2 = (Throw Undefined, w3).
Proof.
  intros Hk Hk2.
  assert (runs (CreateUntrackedProduct q ql) w (λ p w1, runs (ExtractProd p k) w1 (λ p2 w2,
    null_tracked w2 p2 ql k))) as Hruns.
  { unfold CreateUntrackedProduct. apply runs_bind. eapply runs_mono; [apply new_product_runs|].
    intros p w1 (Hp & Hn & Hr). apply runs_bind. unfold modify_res. apply runs_bind.
    eapply get_res_runs; [rewrite Hr; apply lookup_insert_eq|]. apply runs_modify, runs_ret.
    unfold ExtractProd. apply runs_bind. eapply get_res_runs; [apply lookup_insert_eq|].
    apply runs_bind, runs_ret, runs_bind, runs_require; [change (negb (q <? k)%D = true); by rewrite Hk|].
    apply runs_bind. eapply modify_res_runs; [apply lookup_insert_eq|]. apply runs_bind.
    eapply runs_mono; [apply new_product_runs|]. intros p2 w2 (Hp2 & Hn2 & Hr2). cbn in Hp2, Hr2.
    assert (p ≠ p2) as Hne by lia. apply runs_bind. unfold TrackerExtract. apply runs_bind, runs_fmap.
    eapply get_res_runs; [rewrite Hr2, lookup_insert_ne by done; apply lookup_insert_eq|].
    cbn. apply runs_ret, runs_ret. split; [lia|].
    eexists. rewrite Hr2, lookup_insert_eq. by split_and!. }
  destruct Hruns as (p & w1 & H1 & p2 & w2 & H2 & Hnull).
  destruct (extract_null_throws w2 p2 ql k k2 Hnull Hk2) as (w3 & H3).
  by exists p, w1, p2, w2, w3.
Qed.
End properties.

(** ** Witnesses *)
Module ResExample.
(** Nuclear data for the example: every id is a nuclide of unit atomic mass that
    does not decay. *)
Definition pyne : Pyne xq :=
  {| pyne_isnuclide := λ _, true; atomic_mass := λ _, nZ 1; decay_const := λ _, nZ 0;
     decayers_decay := λ v _, v; std_exp := λ _, nZ 1 |}.
#[local] Existing Instance pyne.
#[local] Existing Instance default_limits.

Definition empty_world : World xq :=
  mkWorld xq ∅ ∅ ∅ 1 1 1 1 ∅ 1 5 DecayManual 2629846 [].
Definition nat_u : CompMap xq := list_to_map [(922350%Z, nZ 1); (922380%Z, nZ 3)].
Definition leu : CompMap xq := list_to_map [(922350%Z, nZ 1); (922380%Z, nZ 1)].

(** Two tracked materials: 8 kg of the first and 2 kg of the second composition. *)
Definition setup : M (World xq) (ptr * ptr) :=
  c1 ← CreateFromMass nat_u;
  c2 ← CreateFromMass leu;
  m1 ← new_material true (nZ 8) c1;
  m2 ← new_material true (nZ 2) c2;
  mret (m1, m2).
Definition world : World xq := (setup empty_world).2.

Lemma empty_wf : wf empty_world.
Proof. split; try done. split; constructor. Qed.

Lemma vec_ok_pos (v : CompMap xq) :
  map_Forall (λ _ x, finite x ∧ (0 <= val x)%Q) v → vec_ok v.
Proof.
  intros Hv. split_and!.
  - intros n x Hx. apply (Hv n x Hx).
  - intros n. unfold nuc_val, at_default. destruct (v !! n) as [x|] eqn:E; [apply (Hv n x E)|done].
  - by apply ValidNucs_spec.
Qed.

Lemma nat_u_ok : vec_ok nat_u.
Proof. apply vec_ok_pos. by repeat (apply map_Forall_insert_2; [by split|]). Qed.
Lemma leu_ok : vec_ok leu.
Proof. apply vec_ok_pos. by repeat (apply map_Forall_insert_2; [by split|]). Qed.

Lemma setup_runs :
  runs setup empty_world (λ ms w, wf w ∧ holds_mat w ms.1 8 nat_u ∧ holds_mat w ms.2 2 leu ∧
    ms.1 ≠ ms.2).
Proof.
  unfold setup. apply runs_bind. eapply runs_mono; [apply CreateFromMass_runs; [apply empty_wf|apply nat_u_ok]|].
  intros c1 w1 (Hwf1 & _ & _ & _ & x1 & Hc1 & Hx1). apply runs_bind.
  eapply runs_mono; [apply CreateFromMass_runs; [done|apply leu_ok]|].
  intros c2 w2 (Hwf2 & Hk2 & _ & _ & x2 & Hc2 & Hx2).
  destruct (kc_comp _ _ Hk2 c1 x1 Hc1) as (x1' & Hc1' & Hx1').
  apply runs_bind. eapply runs_mono; [apply (new_material_runs w2 true (nZ 8) c1); [done|by exists x1']|].
  intros m1 w3 (Hwf3 & Hk3 & _ & Hcs3 & r1 & t1 & Hm1 & Hq1 & _ & Hk1 & _).
  apply runs_bind. eapply runs_mono; [apply (new_material_runs w3 true (nZ 2) c2); [done|rewrite Hcs3; by exists x2]|].
  intros m2 w4 (Hwf4 & Hk4 & Hnew & Hcs4 & r2 & t2 & Hm2 & Hq2 & _ & Hkind2 & _).
  apply runs_ret. split_and!; [done| | |].
  - eapply keeps_holds; [exact Hk4|]. exists r1, c1, t1, x1'. rewrite Hcs3, Hq1. split_and!; try done. congruence.
  - exists r2, c2, t2, x2. rewrite Hcs4, Hcs3, Hq2. by split_and!.
  - cbn. intros <-. congruence.
Qed.

Lemma world_ok : wf world ∧ holds_mat world 5 8 nat_u ∧ holds_mat world 6 2 leu.
Proof.
  destruct setup_runs as ([m1 m2] & w & Hrun & Hwf & H1 & H2 & _).
  assert (w = world) as -> by (unfold world; by rewrite Hrun).
  assert ((setup empty_world).1 = Ret (5, 6)%Z) as Hms by (vm_compute; reflexivity).
  rewrite Hrun in Hms. injection Hms as -> ->. exact (conj Hwf (conj H1 H2)).
Qed.

(** The objects of the example, and the numbers of its nuclides. *)
Definition m5 : Resource xq := Eval vm_compute in
  default (mkRes xq 0 0 false (nZ 0) (new_tracker false 0) (KProduct "")) (ress world !! 5%Z).
Definition c2 : Composition xq := Eval vm_compute in
  default (mkComp xq 0 false ∅ ∅ 0 0) (comps world !! 2%Z).
Definition c4 : Composition xq := Eval vm_compute in
  default (mkComp xq 0 false ∅ ∅ 0 0) (comps world !! 4%Z).

Lemma nuc_val_two (a b : Z) n :
  nuc_val (list_to_map [(922350%Z, nZ a); (922380%Z, nZ b)] : CompMap xq) n =
  if decide (922350%Z = n) then inject_Z a else if decide (922380%Z = n) then inject_Z b else 0%Q.
Proof.
  cbn [list_to_map foldr uncurry]. rewrite !nuc_val_insert.
  repeat (destruct (decide _); [done|]). unfold nuc_val, at_default. by rewrite lookup_empty.
Qed.

Lemma total_two (a b : Z) :
  (total (list_to_map [(922350%Z, nZ a); (922380%Z, nZ b)] : CompMap xq) == inject_Z a + inject_Z b)%Q.
Proof.
  cbn [list_to_map foldr uncurry]. rewrite !total_insert, nuc_val_insert.
  assert (total (∅ : CompMap xq) == 0)%Q as -> by reflexivity.
  rewrite decide_False by done. unfold nuc_val, at_default. rewrite !lookup_empty.
  cbn [fst snd]. change (val (nZ a)) with (inject_Z a). change (val (nZ b)) with (inject_Z b).
  change (val (default (nZ 0) None)) with 0%Q. lra.
Qed.

Lemma left_over_example n :
  (left_over 8 2 nat_u leu n ==
   if decide (922350%Z = n) then 1 else if decide (922380%Z = n) then 5 else 0)%Q.
Proof.
  unfold left_over, nuc_mass, nat_u, leu. rewrite !nuc_val_two, !total_two.
  destruct (decide (922350%Z = n)); [reflexivity|]. destruct (decide (922380%Z = n)); reflexivity.
Qed.
End ResExample.

Lemma absorb_conserves_mass_witness :
  ∃ w', @AbsorbMat xq _ ResExample.pyne 5 6 ResExample.world = (Ret tt, w') ∧
    @wf ResExample.pyne w' ∧ @holds_mat ResExample.pyne w' 6 0 ResExample.leu ∧
    (∃ v, @holds_mat ResExample.pyne w' 5 (8 + 2) v ∧
       ∀ n, (nuc_mass (8 + 2) v n == nuc_mass 8 ResExample.nat_u n + nuc_mass 2 ResExample.leu n)%Q) ∧
    ∀ p' q' v', p' ≠ 5%Z → p' ≠ 6%Z → @holds_mat ResExample.pyne ResExample.world p' q' v' →
      @holds_mat ResExample.pyne w' p' q' v'.
Proof.
  apply (@absorb_conserves_mass ResExample.pyne ResExample.world 5 6 8 2 ResExample.nat_u ResExample.leu);
    [exact (proj1 ResExample.world_ok)|vm_compute; discriminate|discriminate
    |exact (proj1 (proj2 ResExample.world_ok))|exact (proj2 (proj2 ResExample.world_ok))
    |vm_compute; discriminate|vm_compute; discriminate|vm_compute; intros E; discriminate E
    |vm_compute; intros E; discriminate E].
Defined.

Lemma extract_conserves_mass_witness :
  ∃ p2 w' v', @ExtractComp xq _ ResExample.pyne 5 (nZ 2) 4 (nlit (1 # 1000000)) ResExample.world =
      (Ret p2, w') ∧ @wf ResExample.pyne w' ∧ ress ResExample.world !! p2 = None ∧
    @holds_mat ResExample.pyne w' p2 2 ResExample.leu ∧ @holds_mat ResExample.pyne w' 5 (8 - 2) v' ∧
    (∀ n, nuc_mass (8 - 2) v' n + nuc_mass 2 ResExample.leu n == nuc_mass 8 ResExample.nat_u n)%Q ∧
    @others_kept ResExample.pyne 5 ResExample.world w'.
Proof.
  assert (@mass_of ResExample.pyne ResExample.c4 = ResExample.leu) as H4 by (vm_compute; reflexivity).
  assert (@mass_of ResExample.pyne ResExample.c2 = ResExample.nat_u) as H2 by (vm_compute; reflexivity).
  rewrite <-H4, <-H2.
  eapply (@extract_conserves_mass ResExample.pyne ResExample.world 5 ResExample.m5 2 5 ResExample.c2 8 4
    ResExample.c4 (nZ 2) 2 (nlit (1 # 1000000)) (1 # 1000000)).
  - exact (proj1 ResExample.world_ok).
  - vm_compute. reflexivity.
  - reflexivity.
  - vm_compute. reflexivity.
  - vm_compute. reflexivity.
  - vm_compute. reflexivity.
  - reflexivity.
  - vm_compute. discriminate.
  - reflexivity.
  - vm_compute. discriminate.
  - rewrite H2. vm_compute. discriminate.
  - rewrite H4. vm_compute. discriminate.
  - intros n. rewrite H2, H4, ResExample.left_over_example.
    destruct (decide _); [|destruct (decide _)]; vm_compute; discriminate.
  - intros n. rewrite H2, H4, ResExample.left_over_example.
    destruct (decide _); [|destruct (decide _)]; reflexivity.
Defined.

Lemma extract_too_much_witness :
  @ExtractComp xq _ ResExample.pyne 5 (nZ 9) 4 (nZ 0) ResExample.world =
  (Throw ValueError, ResExample.world).
Proof.
  exact (@extract_too_much ResExample.pyne ResExample.world 5 ResExample.m5 (nZ 9) 4 (nZ 0)
    ltac:(vm_compute; reflexivity) ltac:(vm_compute; reflexivity)).
Defined.

Lemma untracked_product_extract_witness :
  ∃ p w1 p2 w2 w3,
    CreateUntrackedProduct (nZ 5 : xq) "water" ResExample.empty_world = (Ret p, w1) ∧
    @ExtractProd xq _ ResExample.pyne p (nZ 3) w1 = (Ret p2, w2) ∧
    @ExtractProd xq _ ResExample.pyne p2 (nZ 1) w2 = (Throw Undefined, w3).
Proof. apply untracked_product_extract; vm_compute; reflexivity. Defined.
