(* ===== verification/ResBuf.v ===== *)
(** * Resource containers

    [src/src/toolkit/res_buf.h], [src/src/toolkit/resource_buff.h],
    [src/src/toolkit/resource_buff.cc] and [src/src/toolkit/res_map.h].  A container
    is a value of its own next to the store of the resources; its members are
    pointers into the store. *)

From Stdlib Require Import QArith Qabs Lqa ZArith Lia.
From stdpp Require Import base list gmap strings.
From S2P Require Import Prelude Num Arithmetic CompMath Resource Material.

(** The class a container is instantiated with. *)
Inductive ResClass := TMaterial | TProduct | TResource.

(** [ResBuf] and [ResourceBuff] have the same data members. *)
Record ResBuf {F : Type} := mkBuf {
  qty_ : F;
  cap_ : F;
  rs_ : list ptr;
  rs_present_ : gset ptr
}.
Arguments ResBuf F : clear implicits.

Section buffers.
Context {F : Type} `{Num F} `{Limits F} `{Pyne F}.
Local Abbreviation B := (M (World F * ResBuf F)).

Definition set_buf_qty (q : F) (b : ResBuf F) : ResBuf F := mkBuf F q (cap_ b) (rs_ b) (rs_present_ b).
Definition set_cap (c : F) (b : ResBuf F) : ResBuf F := mkBuf F (qty_ b) c (rs_ b) (rs_present_ b).
Definition set_rs (l : list ptr) (b : ResBuf F) : ResBuf F := mkBuf F (qty_ b) (cap_ b) l (rs_present_ b).
Definition set_present (X : gset ptr) (b : ResBuf F) : ResBuf F := mkBuf F (qty_ b) (cap_ b) (rs_ b) X.

Definition buf : B (ResBuf F) := gets snd.
Definition modify_buf (f : ResBuf F → ResBuf F) : B unit := lift_r (modify f).
Definition quantity (p : ptr) : B F := res_qty <$> lift_l (get_res p).

(** The constructors *)
Definition new_ResBuf : ResBuf F := mkBuf F (nZ 0) ninf [] ∅.
Definition new_ResourceBuff : ResBuf F := mkBuf F (nZ 0) ndblmax [] ∅.

Definition space (b : ResBuf F) : F := dmax (nZ 0) (cap_ b - qty_ b)%D.

(** [capacity(cap)], [set_capacity(cap)] *)
Definition set_capacity (cap : F) : B unit :=
  b ← buf;
  require (negb (qty_ b - cap >? eps_rsrc)%D) ValueError;;
  modify_buf (set_cap cap).

(** [boost::dynamic_pointer_cast<T>(r)] is not null. *)
Definition casts_to (T : ResClass) (r : Resource F) : bool :=
  match T, kind_ r with
  | TMaterial, KMaterial _ _ | TProduct, KProduct _ | TResource, _ => true
  | _, _ => false
  end.
Definition SquashT (T : ResClass) : list ptr → M (World F) ptr :=
  match T with TMaterial => SquashMat | TProduct => SquashProd | TResource => Squash end.

(** Taking a pointer off the list, and out of the set. *)
Definition erase_present (p : ptr) (b : ResBuf F) : ResBuf F := set_present (rs_present_ b ∖ {[p]}) b.

(** ** ResBuf *)

(** [UpdateQty()] *)
Definition UpdateQty : B unit :=
  b ← buf;
  match rs_ b with
  | [] => modify_buf (set_buf_qty (nZ 0))
  | [p] => q ← quantity p; modify_buf (set_buf_qty q)
  | _ => mret tt
  end.

(** The loop of [Pop(qty)]; it runs at most once more than there are resources. *)
Fixpoint pop_loop (fuel : nat) (left : F) (rs : list ptr) : B (list ptr) :=
  match fuel with
  | O => throw OutOfFuel
  | S fuel =>
      b ← buf;
      match rs_ b with
      | [] => mret rs
      | r :: rest =>
          if (left >? nZ 0)%D then
            modify_buf (set_rs rest);;
            quan ← quantity r;
            out ← (if (quan >? left)%D then
                     tmp ← lift_l (ExtractRes r left);
                     modify_buf (λ b, set_rs (r :: rs_ b) b);;
                     mret tmp
                   else modify_buf (erase_present r);; mret r);
            q ← quantity out;
            modify_buf (λ b, set_buf_qty (qty_ b - q)%D b);;
            pop_loop fuel (left - quan)%D (rs ++ [out])
          else mret rs
      end
  end.

(** [Pop(qty)] *)
Definition PopQty (T : ResClass) (qty : F) : B ptr :=
  b ← buf;
  require (negb (qty >? qty_ b)%D) ValueError;;
  rs ← pop_loop (S (length (rs_ b))) qty [];
  UpdateQty;;
  lift_l (SquashT T rs).

(** [PopN(n)] *)
Fixpoint popn_loop (n : nat) (rs : list ptr) : B (list ptr) :=
  match n with
  | O => mret rs
  | S n =>
      b ← buf;
      match rs_ b with
      | [] => throw Undefined
      | r :: rest =>
          q ← quantity r;
          modify_buf (λ b, erase_present r (set_rs rest (set_buf_qty (qty_ b - q)%D b)));;
          popn_loop n (rs ++ [r])
      end
  end.
Definition PopN (n : Z) : B (list ptr) :=
  b ← buf;
  require (negb ((Z.of_nat (length (rs_ b)) <? n)%Z || (n <? 0)%Z)) ValueError;;
  rs ← popn_loop (Z.to_nat n) [];
  UpdateQty;;
  mret rs.

(** [Pop(qty, eps)] *)
Definition PopQtyEps (T : ResClass) (qty eps : F) : B ptr :=
  b ← buf;
  require (negb (qty >? qty_ b + eps)%D) ValueError;;
  if (qty >=? qty_ b)%D then
    rs ← PopN (Z.of_nat (length (rs_ b)));
    lift_l (SquashT T rs)
  else PopQty T qty.

Definition Peek : B ptr :=
  b ← buf; from_option_or ValueError (head (rs_ b)).

(** The end of [Pop()] and [PopBack()], with the list of the others. *)
Definition take_out (p : ptr) (others : list ptr) : B ptr :=
  modify_buf (λ b, erase_present p (set_rs others b));;
  q ← quantity p;
  modify_buf (λ b, set_buf_qty (qty_ b - q)%D b);;
  UpdateQty;;
  mret p.
Definition PopFront : B ptr :=
  b ← buf;
  match rs_ b with [] => throw ValueError | p :: rest => take_out p rest end.
Definition PopBack : B ptr :=
  b ← buf;
  match reverse (rs_ b) with [] => throw ValueError | p :: rest => take_out p (reverse rest) end.

(** [Push(r)] *)
Definition Push (T : ResClass) (p : ptr) : B unit :=
  r ← lift_l (get_res p);
  require (casts_to T r) CastError;;
  b ← buf;
  require (negb (res_qty r - space b >? eps_rsrc)%D) ValueError;;
  require (negb (bool_decide (p ∈ rs_present_ b))) KeyError;;
  modify_buf (λ b, mkBuf F (qty_ b + res_qty r)%D (cap_ b) (rs_ b ++ [p]) ({[p]} ∪ rs_present_ b));;
  UpdateQty.

(** [Push(std::vector<B>)] *)
Definition push_all (tot_qty : F) (ps : list ptr) (b : ResBuf F) : ResBuf F :=
  mkBuf F (qty_ b + tot_qty)%D (cap_ b) (rs_ b ++ ps) (list_to_set ps ∪ rs_present_ b).
Definition PushVec (T : ResClass) (ps : list ptr) : B unit :=
  for_each (λ p, r ← lift_l (get_res p); require (casts_to T r) CastError) ps;;
  qs ← for_collect quantity ps;
  let tot_qty := foldl nadd (nZ 0) qs in
  b ← buf;
  require (negb (tot_qty - space b >? eps_rsrc)%D) ValueError;;
  for_each (λ p, require (negb (bool_decide (p ∈ rs_present_ b))) KeyError) ps;;
  modify_buf (push_all tot_qty ps).

(** ** ResourceBuff *)

(** [UpdateQty()] sums up all of them. *)
Definition BuffUpdateQty : B unit :=
  b ← buf;
  qtys ← for_collect quantity (rs_ b);
  modify_buf (set_buf_qty (KahanSum qtys)).

Fixpoint buff_pop_loop (fuel : nat) (left : F) (manifest : list ptr) : B (list ptr) :=
  match fuel with
  | O => throw OutOfFuel
  | S fuel =>
      b ← buf;
      match rs_ b with
      | [] => mret manifest
      | r :: rest =>
          if (left >? nZ 0)%D then
            modify_buf (set_rs rest);;
            quan ← quantity r;
            out ← (if (quan >? left)%D then
                     tmp ← lift_l (ExtractRes r left);
                     modify_buf (λ b, set_rs (r :: rs_ b) b);;
                     mret tmp
                   else modify_buf (erase_present r);; mret r);
            buff_pop_loop fuel (left - quan)%D (manifest ++ [out])
          else mret manifest
      end
  end.

(** [PopQty(qty)] *)
Definition BuffPopQty (qty : F) : B (list ptr) :=
  b ← buf;
  require (negb (qty >? qty_ b)%D) ValueError;;
  manifest ← buff_pop_loop (S (length (rs_ b))) qty [];
  BuffUpdateQty;;
  mret manifest.

(** [PopN(num)] *)
Definition buff_take (n : nat) (b : ResBuf F) : ResBuf F :=
  mkBuf F (qty_ b) (cap_ b) (drop n (rs_ b)) (rs_present_ b ∖ list_to_set (take n (rs_ b))).
Definition BuffPopN (num : Z) : B (list ptr) :=
  b ← buf;
  require (negb ((Z.of_nat (length (rs_ b)) <? num)%Z || (num <? 0)%Z)) ValueError;;
  modify_buf (buff_take (Z.to_nat num));;
  BuffUpdateQty;;
  mret (take (Z.to_nat num) (rs_ b)).

(** [PopQty(qty, eps)] *)
Definition BuffPopQtyEps (qty eps : F) : B (list ptr) :=
  b ← buf;
  require (negb (qty >? qty_ b + eps)%D) ValueError;;
  if (qty >=? qty_ b)%D then BuffPopN (Z.of_nat (length (rs_ b))) else BuffPopQty qty.

(** [Pop(dir)] *)
Inductive AccessDir := FRONT | BACK.
Definition buff_remove (p : ptr) (others : list ptr) : B ptr :=
  modify_buf (λ b, erase_present p (set_rs others b));;
  BuffUpdateQty;;
  mret p.
Definition BuffPop (dir : AccessDir) : B ptr :=
  b ← buf;
  match dir with
  | FRONT => match rs_ b with [] => throw ValueError | p :: rest => buff_remove p rest end
  | BACK => match reverse (rs_ b) with
            | [] => throw ValueError | p :: rest => buff_remove p (reverse rest) end
  end.

(** [Push(r)] *)
Definition BuffPush (p : ptr) : B unit :=
  q ← quantity p;
  b ← buf;
  require (negb (q - space b >? eps_rsrc)%D) ValueError;;
  require (negb (bool_decide (p ∈ rs_present_ b))) KeyError;;
  modify_buf (λ b, mkBuf F (qty_ b) (cap_ b) (rs_ b ++ [p]) ({[p]} ∪ rs_present_ b));;
  BuffUpdateQty.

(** [PushAll(rs)] *)
Definition BuffPushAll (ps : list ptr) : B unit :=
  qs ← for_collect quantity ps;
  let tot_qty := foldl nadd (nZ 0) qs in
  b ← buf;
  require (negb (tot_qty - space b >? eps_rsrc)%D) ValueError;;
  for_each (λ p, require (negb (bool_decide (p ∈ rs_present_ b))) KeyError) ps;;
  modify_buf (push_all tot_qty ps).
End buffers.

(** ** ResMap *)
Record ResMap {K F : Type} `{Countable K} := mkResMap {
  dirty_quantity_ : bool;
  quantity_ : F;
  resources_ : gmap K ptr;
  obj_ids_ : gmap K Z
}.
Arguments ResMap K F {_ _}.
Arguments mkResMap {K F _ _}.

Section res_map.
Context {K : Type} `{Countable K} `{KeyOrder K}.
Context {F : Type} `{Num F} `{Limits F} `{Pyne F}.
Local Abbreviation R := (M (World F * ResMap K F)).
Implicit Types m : ResMap K F.

Definition rmap : R (ResMap K F) := gets snd.
Definition modify_map (f : ResMap K F → ResMap K F) : R unit := lift_r (modify f).
Definition map_quantity (p : ptr) : R F := res_qty <$> lift_l (get_res p).

Definition new_ResMap : ResMap K F := mkResMap true (nZ 0) ∅ ∅.
Definition set_dirty m : ResMap K F := mkResMap true (quantity_ m) (resources_ m) (obj_ids_ m).
Definition set_resources (r : gmap K ptr) m : ResMap K F :=
  mkResMap (dirty_quantity_ m) (quantity_ m) r (obj_ids_ m).
Definition set_obj_ids (o : gmap K Z) m : ResMap K F :=
  mkResMap (dirty_quantity_ m) (quantity_ m) (resources_ m) o.

(** [UpdateQuantity()] *)
Definition UpdateQuantity : R unit :=
  m ← rmap;
  qtys ← for_collect (λ kv, map_quantity kv.2) (in_order (resources_ m));
  let q := match qtys with [] => nZ 0 | _ => KahanSum qtys end in
  modify_map (λ m, mkResMap false q (resources_ m) (obj_ids_ m)).

(** [quantity()] *)
Definition ResMapQuantity : R F :=
  m ← rmap;
  (if dirty_quantity_ m then UpdateQuantity else mret tt);;
  quantity_ <$> rmap.

(** [obj_ids()] and [obj_ids(oi)] *)
Definition get_obj_ids : R (gmap K Z) :=
  m ← rmap;
  ids ← for_collect (λ kv, r ← lift_l (get_res kv.2); mret (kv.1, obj_id_ r)) (in_order (resources_ m));
  modify_map (set_obj_ids (list_to_map ids));;
  obj_ids_ <$> rmap.
Definition put_obj_ids (oi : gmap K Z) : R unit := modify_map (λ m, set_dirty (set_obj_ids oi m)).

(** [operator[](k)]: inserts a null pointer when there is none. *)
Definition nullptr : ptr := 0%Z.
Definition at_key (k : K) : R ptr :=
  modify_map (λ m, match resources_ m !! k with
                   | Some _ => set_dirty m
                   | None => set_dirty (set_resources (<[k := nullptr]> (resources_ m)) m)
                   end);;
  m ← rmap;
  mret (at_default nullptr (resources_ m) k).
Definition assign_key (k : K) (p : ptr) : R unit :=
  at_key k;; modify_map (λ m, set_resources (<[k := p]> (resources_ m)) m).

(** [erase(k)] and [clear()] *)
Definition map_erase (k : K) : R nat :=
  m ← rmap;
  modify_map (set_resources (delete k (resources_ m)));;
  UpdateQuantity;;
  mret (if bool_decide (is_Some (resources_ m !! k)) then 1 else 0).
Definition map_clear : R unit := modify_map (λ m, mkResMap true (quantity_ m) ∅ ∅).

(** [Values()] and [Values(vals)]; [K0] is the default value of the keys. *)
Definition Values : R (list ptr) :=
  m ← rmap; mret (in_order (resources_ m)).*2.
Definition set_Values (K0 : K) (vals : list ptr) : R unit :=
  m ← rmap;
  let lookup := foldl (λ l kv, <[kv.2 := kv.1]> l) (∅ : gmap Z K) (in_order (obj_ids_ m)) in
  for_each (λ p, r ← lift_l (get_res p);
                 modify_map (λ m, set_resources (<[at_default K0 lookup (obj_id_ r) := p]> (resources_ m)) m)) vals;;
  modify_map set_dirty.

(** [Pop(key)] *)
Definition ResMapPop (k : K) : R ptr :=
  m ← rmap;
  p ← from_option_or KeyError (resources_ m !! k);
  modify_map (λ m, set_dirty (set_resources (delete k (resources_ m)) m));;
  mret p.
End res_map.
