(* ===== verification/ResourceLaws.v ===== *)
(** * What containers rely on

    The class [ResLaws] states what a resource promises to the code that holds it:
    its quantity can be read, [ExtractRes] splits it and [Squash] adds it up.
    Materials and tracked products discharge it. *)

From Stdlib Require Import QArith Qabs Lqa ZArith Lia.
From stdpp Require Import base list gmap strings.
From S2P Require Import Prelude Num Arithmetic CompMath Resource Material MaterialTheory ResBuf.

(** ** The context's decay mode is never changed by a resource *)
Section preserves.
Context {S X : Type} (f : S → X).
Definition preserves {A} (c : M S A) : Prop := ∀ s, f (c s).2 = f s.

Lemma preserves_bind {A C} (c : M S A) (k : A → M S C) :
  preserves c → (∀ a, preserves (k a)) → preserves (c ≫= k).
Proof.
  intros Hc Hk s. unfold mbind, M_bind, m_bind. specialize (Hc s).
  destruct (c s) as [[a|e] s1]; [|done]. cbn in Hc. by rewrite (Hk a s1).
Qed.
Lemma preserves_fmap {A C} (g : A → C) (c : M S A) : preserves c → preserves (g <$> c).
Proof. intros Hc. by apply (preserves_bind c (λ a, m_ret (g a))). Qed.
Lemma preserves_ret {A} (a : A) : preserves (mret a).
Proof. done. Qed.
Lemma preserves_throw {A} e : preserves (throw e : M S A).
Proof. done. Qed.
Lemma preserves_get : preserves get.
Proof. done. Qed.
Lemma preserves_require b e : preserves (require b e).
Proof. by destruct b. Qed.
Lemma preserves_option {A} e (o : option A) : preserves (from_option_or e o).
Proof. by destruct o. Qed.
Lemma preserves_modify g : (∀ s, f (g s) = f s) → preserves (modify g).
Proof. intros Hg s. apply Hg. Qed.
Lemma preserves_for_each {A} (g : A → M S unit) l : (∀ a, preserves (g a)) → preserves (for_each g l).
Proof.
  intros Hg. induction l as [|x l IH]; [done|]. by apply (preserves_bind (g x) (λ _, for_each g l)).
Qed.
End preserves.

Create HintDb preserves.
#[export] Hint Resolve preserves_ret preserves_throw preserves_get preserves_require
  preserves_option : preserves.

(** Go through a computation statement by statement. *)
Ltac preserve :=
  repeat first
    [ progress eauto with preserves
    | apply preserves_bind; [|intros]
    | apply preserves_fmap
    | apply preserves_for_each; intros
    | apply preserves_modify; intros; reflexivity
    | match goal with
      | |- preserves _ (if ?b then _ else _) => destruct b
      | |- preserves _ (match ?x with _ => _ end) => destruct x
      end ].

Section decay_mode.
Context `{Limits xq} `{Pyne xq}.
Local Abbreviation keeps_mode := (preserves (ctx_decay : World xq → DecayMode)).

Lemma get_comp_mode c : keeps_mode (get_comp c).
Proof. unfold get_comp. preserve. Qed.
Lemma put_comp_mode c x : keeps_mode (put_comp c x).
Proof. unfold put_comp. preserve. Qed.
Lemma get_res_mode p : keeps_mode (get_res p).
Proof. unfold get_res. preserve. Qed.
Lemma put_res_mode p x : keeps_mode (put_res p x).
Proof. unfold put_res. preserve. Qed.
Lemma fresh_mode : keeps_mode fresh.
Proof. unfold fresh. preserve. Qed.
Lemma record_datum_mode t vs : keeps_mode (record_datum t vs).
Proof. unfold record_datum. preserve. Qed.
#[local] Hint Resolve get_comp_mode put_comp_mode get_res_mode put_res_mode fresh_mode
  record_datum_mode : preserves.

Lemma modify_res_mode p g : keeps_mode (modify_res p g).
Proof. unfold modify_res. preserve. Qed.
Lemma mass_mode c : keeps_mode (mass c).
Proof. unfold mass. preserve. Qed.
Lemma atom_mode c : keeps_mode (atom c).
Proof. unfold atom. preserve. Qed.
Lemma new_composition_in_mode z p : keeps_mode (new_composition_in z p).
Proof. unfold new_composition_in. preserve. Qed.
#[local] Hint Resolve modify_res_mode mass_mode atom_mode new_composition_in_mode : preserves.

Lemma CreateFromMass_mode v : keeps_mode (CreateFromMass v).
Proof. unfold CreateFromMass, valid_comp, new_composition. preserve. Qed.
Lemma RecordComp_mode c : keeps_mode (RecordComp c).
Proof. unfold RecordComp. preserve. Qed.
#[local] Hint Resolve CreateFromMass_mode RecordComp_mode : preserves.

Lemma TrackerRecord_mode p : keeps_mode (TrackerRecord p).
Proof. unfold TrackerRecord, BumpStateId, qual_id, RecordRes. preserve. Qed.
#[local] Hint Resolve TrackerRecord_mode : preserves.
Lemma DecayComp_mode c d s : keeps_mode (DecayComp c d s).
Proof. unfold DecayComp, NewDecay. preserve. Qed.
#[local] Hint Resolve DecayComp_mode : preserves.

Lemma new_resource_mode ctx q k : keeps_mode (new_resource ctx q k).
Proof. unfold new_resource. preserve. Qed.
#[local] Hint Resolve new_resource_mode : preserves.
Lemma comp_mode p : keeps_mode (comp p).
Proof. unfold comp, DecayMat, Transmute, TrackerModify, put_parents, mat_parts. preserve. Qed.
#[local] Hint Resolve comp_mode : preserves.

Lemma AbsorbMat_mode p m : keeps_mode (AbsorbMat p m).
Proof. unfold AbsorbMat, merge_comps, move_qty, TrackerAbsorb, put_parents, mat_parts. preserve. Qed.
Lemma AbsorbProd_mode p m : keeps_mode (AbsorbProd p m).
Proof. unfold AbsorbProd, TrackerAbsorb, put_parents, quality. preserve. Qed.
Lemma ExtractRes_mode p k : keeps_mode (ExtractRes p k).
Proof.
  unfold ExtractRes, ExtractQty, ExtractComp, ExtractProd, subtract_comp, new_material, new_product,
    TrackerExtract, put_parents, mat_parts, quality. preserve.
Qed.
End decay_mode.

(** A total specification, with what is preserved on top. *)
Lemma runs_preserves {S X A} (f : S → X) (c : M S A) s Q :
  preserves f c → runs c s Q → runs c s (λ a s', Q a s' ∧ f s' = f s).
Proof.
  intros Hp (a & s' & Hc & HQ). exists a, s'. split_and!; [done|done|].
  specialize (Hp s). by rewrite Hc in Hp.
Qed.

Section laws.
Context `{Limits xq} {e er : Q} `{!GoodLimits e er} `{Pyne xq}.
Implicit Types (w : World xq) (r : Resource xq).

(** A well-formed store, and no decay behind the caller's back. *)
Definition res_inv w : Prop := wf w ∧ ctx_decay w ≠ DecayLazy.

(** The others are as they were. *)
Definition others_good (good : World xq → ptr → Q → Prop) (ps : list ptr) w w' : Prop :=
  ∀ p' q', p' ∉ ps → good w p' q' → good w' p' q'.

(** ** The promise

    [good w p q]: in the store [w], [p] is a resource of the class [T] with the
    positive quantity [q]. *)
Class ResLaws (T : ResClass) (good : World xq → ptr → Q → Prop) : Prop := {
  good_read : ∀ w p q, good w p q →
    ∃ r, ress w !! p = Some r ∧ res_qty r ≃ q ∧ casts_to T r = true ∧ (0 < q)%Q;
  good_eq : ∀ w p q q', good w p q → (q == q')%Q → good w p q';
  good_extract : ∀ w p q y k, res_inv w → good w p q → y ≃ k → (0 < k)%Q → (k < q)%Q →
    runs (ExtractRes p y) w (λ p2 w', res_inv w' ∧ ress w !! p2 = None ∧ good w' p2 k ∧
      good w' p (q - k)%Q ∧ others_good good [p] w w');
  good_squash : ∀ w p ps q qs, res_inv w → NoDup (p :: ps) → good w p q → Forall2 (good w) ps qs →
    runs (SquashT T (p :: ps)) w (λ p' w', p' = p ∧ res_inv w' ∧ good w' p (q + sumQ qs)%Q ∧
      others_good good (p :: ps) w w')
}.

(** [Squash] from [Absorb]. *)
Lemma squash_by_absorb (good : World xq → ptr → Q → Prop) (absorb : ptr → ptr → M (World xq) unit) :
  (∀ w p q q', good w p q → (q == q')%Q → good w p q') →
  (∀ w p m q0 q1, res_inv w → p ≠ m → good w p q0 → good w m q1 →
    runs (absorb p m) w (λ _ w', res_inv w' ∧ good w' p (q0 + q1)%Q ∧ others_good good [p; m] w w')) →
  ∀ ps w p q qs, res_inv w → NoDup (p :: ps) → good w p q → Forall2 (good w) ps qs →
    runs (for_each (absorb p) ps) w (λ _ w', res_inv w' ∧ good w' p (q + sumQ qs)%Q ∧
      others_good good (p :: ps) w w').
Proof.
  intros Heq Habs ps. induction ps as [|m ps IH]; intros w p q qs Hinv Hnd Hp Hqs.
  - apply Forall2_nil_inv_l in Hqs as ->. apply runs_ret. split_and!; [done| |by intros ?].
    eapply Heq; [done|]. cbn. lra.
  - apply Forall2_cons_inv_l in Hqs as (q1 & qs' & Hm & Hqs & ->).
    apply NoDup_cons in Hnd as [Hpn Hnd]. apply NoDup_cons in Hnd as [Hmn Hnd].
    apply not_elem_of_cons in Hpn as [Hpm Hpn].
    change (for_each (absorb p) (m :: ps)) with (absorb p m ≫= λ _, for_each (absorb p) ps).
    apply runs_bind. eapply runs_mono; [by apply (Habs w p m q q1)|].
    intros ? w1 (Hinv1 & Hp1 & Hot1). eapply runs_mono.
    { apply (IH w1 p (q + q1)%Q qs' Hinv1); [by apply NoDup_cons|done|].
      eapply Forall2_impl_in; [exact Hqs|]. intros p' q' Hin Hg.
      apply Hot1; [|done]. set_solver. }
    intros ? w2 (Hinv2 & Hp2 & Hot2). split_and!; [done| |].
    + eapply Heq; [done|]. rewrite sumQ_cons. lra.
    + intros p' q' Hnin Hg. apply Hot2; [set_solver|]. apply Hot1; [set_solver|done].
Qed.

(** ** Materials *)
Definition good_mat w (p : ptr) (q : Q) : Prop :=
  (0 < q)%Q ∧ ∃ v, holds_mat w p q v ∧ ¬ (total v == 0)%Q.

Lemma good_mat_eq w p q q' : good_mat w p q → (q == q')%Q → good_mat w p q'.
Proof.
  intros (Hpos & v & (r & c & t & x & ? & Hq & Hrest) & Ht) Heq. split; [by rewrite <-Heq|].
  exists v. split; [|done]. exists r, c, t, x. split; [done|]. split; [by eapply is_fin_weaken|done].
Qed.

Lemma good_mat_read w p q :
  good_mat w p q → ∃ r, ress w !! p = Some r ∧ res_qty r ≃ q ∧ casts_to TMaterial r = true ∧ (0 < q)%Q.
Proof.
  intros (Hpos & v & (r & c & t & x & Hp & Hq & Hk & _) & _). exists r. split_and!; try done.
  unfold casts_to. by rewrite Hk.
Qed.

Lemma nuc_mass_nonneg q v n :
  (0 <= q)%Q → (∀ n, 0 <= nuc_val v n)%Q → (0 <= nuc_mass q v n)%Q.
Proof.
  intros Hq Hv. unfold nuc_mass. apply Qmult_le_0_compat; [done|].
  apply Qmult_le_0_compat; [done|]. by apply Qinv_le_0_compat, total_nonneg.
Qed.

(** A sum of two materials is not empty. *)
Lemma absorbed_total w p q0 q1 v v0 v1 :
  (0 < q0)%Q → (0 < q1)%Q → vec_ok v0 → vec_ok v1 → ¬ (total v0 == 0)%Q →
  (∀ n, nuc_mass (q0 + q1) v n == nuc_mass q0 v0 n + nuc_mass q1 v1 n)%Q →
  holds_mat w p (q0 + q1) v → ¬ (total v == 0)%Q.
Proof.
  intros Hq0 Hq1 (_ & Hn0 & _) (_ & Hn1 & _) Ht0 Hsum _ Hz. apply Ht0.
  rewrite (total_ext v0 ∅); [reflexivity|]. intros n. specialize (Hsum n).
  pose proof (nuc_mass_nonneg q0 v0 n (Qlt_le_weak _ _ Hq0) Hn0) as Hnn0.
  pose proof (nuc_mass_nonneg q1 v1 n (Qlt_le_weak _ _ Hq1) Hn1) as Hnn1.
  unfold nuc_mass in Hsum at 1. rewrite Hz in Hsum.
  assert (nuc_mass q0 v0 n == 0)%Q as Hm.
  { assert ((q0 + q1) / 0 == 0)%Q as Hd by (unfold Qdiv; cbn; lra). rewrite Hd in Hsum. lra. }
  assert (nuc_val (∅ : CompMap xq) n = 0%Q) as -> by (unfold nuc_val, at_default; by rewrite lookup_empty).
  unfold nuc_mass in Hm. apply Qmult_integral in Hm as [|Hm]; [done|]. exfalso.
  unfold Qdiv in Hm. apply Qmult_integral in Hm as [|Hm]; [lra|].
  apply Ht0. rewrite <-(Qinv_involutive (total v0)), Hm. reflexivity.
Qed.

Lemma good_mat_extract w p q y k :
  res_inv w → good_mat w p q → y ≃ k → (0 < k)%Q → (k < q)%Q →
  runs (ExtractRes p y) w (λ p2 w', res_inv w' ∧ ress w !! p2 = None ∧ good_mat w' p2 k ∧
    good_mat w' p (q - k)%Q ∧ others_good good_mat [p] w w').
Proof.
  intros [Hwf Hd] (Hpos & v & (r & c & t & x & Hp & Hq & Hk & Hx & Hv) & Ht) Hy Hk0 Hkq.
  eapply runs_mono; [apply (runs_preserves ctx_decay); [apply ExtractRes_mode|]|].
  { unfold ExtractRes. apply runs_bind. eapply get_res_runs; [exact Hp|]. rewrite Hk.
    unfold ExtractQty. apply runs_bind. eapply get_res_runs; [exact Hp|].
    apply runs_bind. eapply mat_parts_runs; [exact Hk|].
    apply (ExtractComp_runs w p r c t x q c x y k _ er); try done; [lra|exact eps_rsrc_fin|exact eps_rsrc_nonneg]. }
  intros p2 w' [(Hwf' & Hnew & Hp2 & (v' & Hv' & Heq) & Hot) Hdec]. rewrite decide_True in Heq by done.
  subst v v'. split_and!; [split; [done|congruence]|done| | |].
  - split; [done|]. by exists (mass_of x).
  - split; [lra|]. by exists (mass_of x).
  - intros p' q' Hnin (? & v' & Hh & ?). split; [done|]. exists v'. split; [|done].
    apply Hot; [set_solver|done].
Qed.

Lemma good_mat_absorb w p m q0 q1 :
  res_inv w → p ≠ m → good_mat w p q0 → good_mat w m q1 →
  runs (AbsorbMat p m) w (λ _ w', res_inv w' ∧ good_mat w' p (q0 + q1)%Q ∧
    others_good good_mat [p; m] w w').
Proof.
  intros [Hwf Hd] Hne (Hq0 & v0 & Hp & Ht0) (Hq1 & v1 & Hm & Ht1).
  eapply runs_mono; [apply (runs_preserves ctx_decay); [apply AbsorbMat_mode|]|].
  { apply (AbsorbMat_runs w p m q0 q1 v0 v1); try done; lra. }
  intros ? w' [(Hwf' & _ & (v & Hv & Hsum) & Hot) Hdec].
  split_and!; [split; [done|congruence]| |].
  - split; [lra|]. exists v. split; [done|].
    by eapply (absorbed_total w' p q0 q1 v v0 v1); eauto using holds_ok.
  - intros p' q' Hnin (? & v' & Hh & ?). split; [done|]. exists v'. split; [|done].
    apply Hot; [set_solver|set_solver|done].
Qed.

Lemma SquashMat_laws w p ps q qs :
  res_inv w → NoDup (p :: ps) → good_mat w p q → Forall2 (good_mat w) ps qs →
  runs (SquashMat (p :: ps)) w (λ p' w', p' = p ∧ res_inv w' ∧ good_mat w' p (q + sumQ qs)%Q ∧
    others_good good_mat (p :: ps) w w').
Proof.
  intros Hinv Hnd Hp Hps. unfold SquashMat. apply runs_bind.
  eapply runs_mono; [by apply (squash_by_absorb good_mat AbsorbMat good_mat_eq good_mat_absorb)|].
  intros ? w' Hw'. apply runs_ret. by split.
Qed.

#[export] Instance material_laws : ResLaws TMaterial good_mat.
Proof.
  split; [apply good_mat_read|apply good_mat_eq|apply good_mat_extract|apply SquashMat_laws].
Qed.

(** A container of resources of any class, filled with materials. *)
#[export] Instance resource_laws : ResLaws TResource good_mat.
Proof.
  split; [|apply good_mat_eq|apply good_mat_extract|].
  - intros w p q (r & ? & ? & ? & ?)%good_mat_read. by exists r.
  - intros w p ps q qs Hinv Hnd Hp Hps. cbn [SquashT]. unfold Squash. apply runs_bind.
    destruct Hp as (Hq & v & (r & c & t & x & Hr & Hqr & Hk & Hx) & Ht).
    eapply get_res_runs; [exact Hr|]. rewrite Hk. apply SquashMat_laws; try done.
    split; [done|]. exists v. split; [|done]. by exists r, c, t, x.
Qed.

(** ** Tracked products of one quality *)
Definition good_prod (ql : string) w (p : ptr) (q : Q) : Prop :=
  (0 < q)%Q ∧ ∃ r, ress w !! p = Some r ∧ res_qty r ≃ q ∧ kind_ r = KProduct ql ∧ res_ctx r = true.

Lemma good_prod_eq ql w p q q' : good_prod ql w p q → (q == q')%Q → good_prod ql w p q'.
Proof.
  intros (Hpos & r & ? & Hq & ?) Heq. split; [by rewrite <-Heq|].
  exists r. split; [done|]. split; [by eapply is_fin_weaken|done].
Qed.

Lemma keeps_good_prod ql w w' p q : keeps_content w w' → good_prod ql w p q → good_prod ql w' p q.
Proof.
  intros Hk (Hpos & r & Hp & Hq & Hkind & Hctx). split; [done|].
  destruct (kc_res _ _ Hk p r Hp) as (r' & Hp' & Hq' & Hk' & Hctx' & _).
  exists r'. split_and!; congruence.
Qed.

Lemma put_good_prod ql w p p' r q :
  p' ≠ p → good_prod ql w p' q → good_prod ql (set_ress (<[p := r]> (ress w)) w) p' q.
Proof.
  intros Hne (Hpos & r' & Hp' & Hr'). split; [done|]. exists r'. cbn. by rewrite lookup_insert_ne.
Qed.

Lemma good_prod_read ql w p q :
  good_prod ql w p q → ∃ r, ress w !! p = Some r ∧ res_qty r ≃ q ∧ casts_to TProduct r = true ∧ (0 < q)%Q.
Proof.
  intros (Hpos & r & Hp & Hq & Hk & _). exists r. split_and!; try done. unfold casts_to. by rewrite Hk.
Qed.

Lemma put_prod_wf w p r r' ql :
  wf w → ress w !! p = Some r → tracker_ r' = tracker_ r → res_ctx r' = res_ctx r →
  kind_ r' = KProduct ql → wf (set_ress (<[p := r']> (ress w)) w).
Proof. intros Hwf Hp Htr Hctx Hk. eapply put_content_wf; [done..|]. rewrite Hk. done. Qed.

Lemma quality_runs w r ql (Q : string → World xq → Prop) :
  kind_ r = KProduct ql → Q ql w → runs (quality r) w Q.
Proof. intros Hk HQ. unfold quality. rewrite Hk. by apply runs_ret. Qed.

Lemma good_prod_absorb ql w p m q0 q1 :
  res_inv w → p ≠ m → good_prod ql w p q0 → good_prod ql w m q1 →
  runs (AbsorbProd p m) w (λ _ w', res_inv w' ∧ good_prod ql w' p (q0 + q1)%Q ∧
    others_good (good_prod ql) [p; m] w w').
Proof.
  intros [Hwf Hd] Hne (Hq0 & r & Hp & Hqr & Hk & Hctx) (Hq1 & o & Hm & Hqo & Hko & Hctxo).
  eapply runs_mono; [apply (runs_preserves ctx_decay); [apply AbsorbProd_mode|]|].
  { unfold AbsorbProd. apply runs_bind. eapply get_res_runs; [exact Hm|].
    apply runs_bind. eapply quality_runs; [exact Hko|]. apply runs_bind. eapply get_res_runs; [exact Hp|].
    apply runs_bind. eapply quality_runs; [exact Hk|].
    apply runs_bind, runs_require; [by apply bool_decide_eq_true_2|].
    apply runs_bind. eapply modify_res_runs; [exact Hp|]. set (w1 := set_ress _ w).
    assert (ress w1 !! m = Some o) as Hm1 by (unfold w1; cbn; by rewrite lookup_insert_ne).
    apply runs_bind. eapply modify_res_runs; [exact Hm1|]. set (w2 := set_ress _ w1).
    eapply (TrackerAbsorb_neutral w2).
    - eapply (put_prod_wf w1 m o); [|done..]. by eapply (put_prod_wf w p r).
    - unfold w2, w1. cbn. rewrite lookup_insert_ne by done. apply lookup_insert_eq.
    - apply lookup_insert_eq. }
  intros ? w' [[Hwf' Hkc] Hdec]. split_and!; [split; [done|congruence]| |].
  - eapply keeps_good_prod; [exact Hkc|]. apply put_good_prod; [done|]. split; [lra|].
    eexists. cbn. split; [apply lookup_insert_eq|]. split_and!; try done. by apply fin_add.
  - intros p' q' Hnin Hg. eapply keeps_good_prod; [exact Hkc|]. do 2 (apply put_good_prod; [set_solver|]). done.
Qed.

(** A tracked product at a fresh address. *)
Lemma new_product_wf w q ql :
  wf w →
  runs (new_product true q ql) w (λ p w', wf w' ∧ keeps_content w w' ∧ ress w !! p = None ∧
    ∃ r, ress w' !! p = Some r ∧ res_qty r = q ∧ res_ctx r = true ∧ kind_ r = KProduct ql ∧
      tracked_ (tracker_ r) = true).
Proof.
  intros [Hr Hfc Hmat Ht Htres Hk [Hs Hi]]. set (p := next_ptr w).
  assert (ress w !! p = None) as Hp.
  { destruct (ress w !! p) eqn:E; [|done]. apply Hr in E. lia. }
  unfold new_product, new_resource. apply runs_bind, fresh_runs. apply runs_bind, runs_get.
  do 3 apply runs_bind, runs_modify. apply runs_ret. split_and!; [| |done|].
  - split; cbn; try done.
    + intros p' y. rewrite lookup_insert. case_decide; [intros; subst; lia|].
      intros Hy. specialize (Hr _ _ Hy). lia.
    + intros c' y Hy. specialize (Hfc _ _ Hy). lia.
    + intros p' y c' t. rewrite lookup_insert. case_decide; [by intros [= <-]|by eapply Hmat].
    + intros p' y. rewrite lookup_insert. case_decide; [|apply Ht]. intros [= <-]. by subst.
    + intros p' y. rewrite lookup_insert. intros Hy. rewrite lookup_insert.
      case_decide; [injection Hy as <-; cbn; by rewrite decide_True|].
      case_decide; [by eexists|by eapply Htres].
    + split; [done|]. eapply Forall_impl; [exact Hi|]. cbn. intros. lia.
  - split; cbn; try done; [|intros c' y Hy; by exists y|lia].
    intros p' y Hy. rewrite lookup_insert_ne; [by exists y|].
    intros <-. change (ress w !! p = Some y) in Hy. congruence.
  - eexists. split; [apply lookup_insert_eq|done].
Qed.

Lemma good_prod_extract ql w p q y k :
  res_inv w → good_prod ql w p q → y ≃ k → (0 < k)%Q → (k < q)%Q →
  runs (ExtractRes p y) w (λ p2 w', res_inv w' ∧ ress w !! p2 = None ∧ good_prod ql w' p2 k ∧
    good_prod ql w' p (q - k)%Q ∧ others_good (good_prod ql) [p] w w').
Proof.
  intros [Hwf Hd] (Hpos & r & Hp & Hq & Hk & Hctx) Hy Hk0 Hkq.
  eapply runs_mono; [apply (runs_preserves ctx_decay); [apply ExtractRes_mode|]|].
  { unfold ExtractRes. apply runs_bind. eapply get_res_runs; [exact Hp|]. rewrite Hk.
    unfold ExtractProd. apply runs_bind. eapply get_res_runs; [exact Hp|].
    apply runs_bind. eapply quality_runs; [exact Hk|]. apply runs_bind, runs_require.
    { rewrite (ltb_fin Hq Hy), (proj2 (Qltb_ge _ _)); [done|lra]. }
    apply runs_bind. eapply modify_res_runs; [exact Hp|]. set (w1 := set_ress _ w).
    assert (wf w1) as Hwf1 by (by eapply (put_prod_wf w p r)).
    rewrite Hctx. apply runs_bind. eapply runs_mono; [by apply new_product_wf|].
    intros p2 w2 (Hwf2 & Hkc2 & Hnew & r2 & Hp2 & Hq2 & Hctx2 & Hk2 & Htr2).
    assert (p ≠ p2) as Hne by (intros <-; unfold w1 in Hnew; cbn in Hnew; by rewrite lookup_insert_eq in Hnew).
    destruct (kc_res _ _ Hkc2 p _ (lookup_insert_eq _ _ _)) as (r1 & Hp1 & _).
    apply runs_bind. eapply runs_mono; [by eapply (TrackerExtract_neutral w2 p p2)|].
    intros ? w3 [Hwf3 Hkc3]. apply runs_ret.
    instantiate (1 := λ p2 w', wf w' ∧ ress w !! p2 = None ∧ good_prod ql w' p2 k ∧
      good_prod ql w' p (q - k)%Q ∧ others_good (good_prod ql) [p] w w'). cbv beta.
    split_and!; [done| | | |].
    - unfold w1 in Hnew. cbn in Hnew. by rewrite lookup_insert_ne in Hnew.
    - eapply keeps_good_prod; [exact Hkc3|]. split; [done|]. exists r2. split_and!; try done. by rewrite Hq2.
    - eapply keeps_good_prod; [exact Hkc3|]. eapply keeps_good_prod; [exact Hkc2|]. split; [lra|].
      eexists. cbn. split; [apply lookup_insert_eq|]. split_and!; try done. by apply fin_sub.
    - intros p' q' Hnin Hg. eapply keeps_good_prod; [exact Hkc3|]. eapply keeps_good_prod; [exact Hkc2|].
      apply put_good_prod; [set_solver|done]. }
  intros p2 w' [(Hwf' & Hnew & Hrest) Hdec]. split; [split; [done|congruence]|done].
Qed.

#[export] Instance product_laws ql : ResLaws TProduct (good_prod ql).
Proof.
  split; [apply good_prod_read|apply good_prod_eq|apply good_prod_extract|].
  intros w p ps q qs Hinv Hnd Hp Hps. cbn [SquashT]. unfold SquashProd. apply runs_bind.
  eapply runs_mono; [by apply (squash_by_absorb (good_prod ql) AbsorbProd (good_prod_eq ql) (good_prod_absorb ql))|].
  intros ? w' Hw'. apply runs_ret. by split.
Qed.
End laws.
