(* ===== verification/MatQueries.v ===== *)
(** * Questions about materials, and enrichment

    [src/src/toolkit/mat_query.h], [.cc], [enrichment.h] and [.cc].  A query object is the
    pointer to its material; the questions run on the store of the resources, as
    looking at a composition may decay it or compute one of its views. *)

From Stdlib Require Import QArith Qminmax Lqa ZArith Lia.
From stdpp Require Import base list gmap strings.
From S2P Require Import Prelude Num Arithmetic CompMath Nuclides Resource Material MaterialTheory MaterialProperties ResourceLaws.

Module MatQuery.
Section query.
Context {F : Type} `{Num F} `{Limits F} `{Pyne F}.
Local Abbreviation W := (M (World F)).
Implicit Types (m : ptr) (nuc : Z).

(** [units::g] *)
Definition units_g : F := (nZ 1 * nlit (1 # 1000))%D.
Definition qty m : W F := res_qty <$> get_res m.
(** [v[nuc]] of a copy *)
Definition mass_frac m nuc : W F :=
  c ← comp m; v ← Resource.mass c; mret (at_default (nZ 0) (compmath.Normalize v (nZ 1)) nuc).
Definition atom_frac m nuc : W F :=
  c ← comp m; v ← Resource.atom c; mret (at_default (nZ 0) (compmath.Normalize v (nZ 1)) nuc).
Definition mass m nuc : W F := f ← mass_frac m nuc; q ← qty m; mret (f * q)%D.
Definition moles m nuc : W F := x ← mass m nuc; mret (x / (atomic_mass nuc * units_g))%D.

Fixpoint mass_loop m (nucs : list Z) (m_tot : F) : W F :=
  match nucs with
  | [] => mret m_tot
  | nuc :: nucs => x ← mass m nuc; mass_loop m nucs (m_tot + x)%D
  end.
Definition mass_frac_set m (nucs : gset Z) : W F :=
  m_tot ← mass_loop m (set_in_order nucs) (nZ 0); q ← qty m; mret (m_tot / q)%D.
Definition atom_frac_set m (nucs : gset Z) : W F :=
  c ← comp m; v ← Resource.atom c;
  let v := compmath.Normalize v (nZ 1) in
  mret (foldl (λ tot nuc, match v !! nuc with Some x => (tot + x)%D | None => tot end) (nZ 0) (set_in_order nucs)).

(** The versions with the name of a nuclide. *)
Definition named {A} (f : Z → W A) (nuc : string) : W A := n ← pure (nucname.id_str nuc); f n.

Definition AlmostEq m (other : ptr) (threshold : F) : W bool :=
  c1 ← comp m; n1 ← Resource.mass c1;
  c2 ← comp other; n2 ← Resource.mass c2;
  pure (compmath.CompAlmostEq (compmath.Normalize n1 (nZ 1)) (compmath.Normalize n2 (nZ 1)) threshold).

(** The loop of [Amount(c)]: no result where the function returns 0 early. *)
Fixpoint ratio_loop (l : list (Z * F)) (v : CompMap F) (min_ratio : F) : option F :=
  match l with
  | [] => Some min_ratio
  | (nuc, qty_other) :: l =>
      if bool_decide (v !! nuc = None) && (qty_other >? nZ 0)%D then None
      else
        let qty := at_default (nZ 0) v nuc in
        let v := <[nuc := qty]> v in
        let ratio := (qty / qty_other)%D in
        ratio_loop l v (if (ratio <? min_ratio)%D then ratio else min_ratio)
  end.
Definition Amount m (c : ptr) : W F :=
  c0 ← comp m; v ← Resource.mass c0;
  u ← Resource.mass c;
  let v := compmath.Normalize v (nZ 1) in
  let u := compmath.Normalize u (nZ 1) in
  match ratio_loop (in_order u) v (nlit (10 ^ 300)) with
  | None => mret (nZ 0)
  | Some min_ratio =>
      q ← qty m;
      let mult := (min_ratio * q)%D in
      mret (foldl nadd (nZ 0) (in_order (compmath.Normalize u mult)).*2)
  end.
End query.
End MatQuery.

(** ** Enrichment *)
Section enrichment.
Context {F : Type} `{Num F} `{Limits F} `{Pyne F}.
Local Abbreviation W := (M (World F)).
Implicit Types (m : ptr).

Record Assays := mkAssays { Feed : F; Product : F; Tails : F }.

(** The fraction of U-235 in U-235 and U-238. *)
Definition assay_of (u235 u238 : F) : F := if (u235 + u238 >? nZ 0)%D then (u235 / (u235 + u238))%D else nZ 0.
Definition UraniumAssayAtom m : W F :=
  a ← MatQuery.atom_frac m 922350000; b ← MatQuery.atom_frac m 922380000; mret (assay_of a b).
Definition UraniumAssay m : W F := UraniumAssayAtom m.
Definition UraniumAssayMass m : W F :=
  a ← MatQuery.mass_frac m 922350000; b ← MatQuery.mass_frac m 922380000; mret (assay_of a b).
Definition UraniumQty m : W F :=
  a ← MatQuery.mass m 922350000; b ← MatQuery.mass m 922380000; mret (a + b)%D.

Definition FeedQty (product_qty : F) (assays : Assays) : F :=
  let factor := ((Product assays - Tails assays) / (Feed assays - Tails assays))%D in (product_qty * factor)%D.
Definition TailsQty (product_qty : F) (assays : Assays) : F :=
  let factor := ((Product assays - Feed assays) / (Feed assays - Tails assays))%D in (product_qty * factor)%D.

Context `{Logarithm F}.
Definition ValueFunc (frac : F) : outcome F :=
  if (frac <? nZ 0)%D then Throw ValueError
  else if (frac >=? nZ 1)%D then Throw ValueError
  else Ret ((nZ 1 - nZ 2 * frac) * std_log (nZ 1 / frac - nZ 1))%D.
Definition SwuRequired (product_qty : F) (assays : Assays) : outcome F :=
  let feed := FeedQty product_qty assays in
  let tails := TailsQty product_qty assays in
  vp ← ValueFunc (Product assays);
  vt ← ValueFunc (Tails assays);
  vf ← ValueFunc (Feed assays);
  Ret (product_qty * vp + tails * vt - feed * vf)%D.
End enrichment.
Arguments Assays F : clear implicits.
