(* ===== verification/QueryProperties.v ===== *)
(** * Questions about materials: properties

    The amount of a composition in a material is the largest that can be taken from it,
    and the feed of an enrichment balances its product and tails. *)

From Stdlib Require Import QArith Qminmax Lqa ZArith Lia.
From stdpp Require Import base list gmap strings.
From S2P Require Import Prelude Num Arithmetic CompMath Resource Material MaterialTheory MaterialProperties ResourceLaws MatQueries.

Local Open Scope Q_scope.
#[local] Arguments sumQ : simpl never.

(** ** Totals *)
Lemma total_le (u v : CompMap xq) : (∀ n, nuc_val u n <= nuc_val v n) → (∀ n, 0 <= nuc_val v n) → total u <= total v.
Proof.
  revert v. induction u as [|n x u Hn IH] using map_ind; intros v Hle Hpos; [by apply total_nonneg|].
  rewrite total_insert_fresh, (total_delete v n) by done. apply Qplus_le_compat.
  - specialize (Hle n). rewrite nuc_val_insert, decide_True in Hle by done. done.
  - apply IH; intros n'; rewrite nuc_val_delete; destruct (decide (n = n')) as [<-|Hne]; try done.
    + unfold nuc_val, at_default. rewrite Hn. apply Qle_refl.
    + specialize (Hle n'). by rewrite nuc_val_insert, decide_False in Hle.
Qed.

(** ** The smallest ratio *)
Section ratio.
Implicit Types (v : CompMap xq) (l : list (Z * xq)).

(** The smallest ratio of a nuclide in [v] to what the list has of it, and at most [m0]. *)
Definition smallest v l (m0 R : Q) : Prop :=
  R <= m0 ∧ (∀ n x, (n, x) ∈ l → 0 < val x → R <= nuc_val v n / val x) ∧
  (R == m0 ∨ ∃ n x, (n, x) ∈ l ∧ 0 < val x ∧ R == nuc_val v n / val x).

Lemma smallest_ext v v' l m0 R : (∀ n, nuc_val v' n = nuc_val v n) → smallest v' l m0 R → smallest v l m0 R.
Proof.
  intros Hv (H1 & H2 & H3). split_and!; [done|intros n x; rewrite <-Hv; apply H2|].
  destruct H3 as [?|(n & x & Hin & Hx & HR)]; [by left|]. right. exists n, x. by rewrite <-Hv.
Qed.

Lemma ratio_loop_spec l v m m0 : NoDup l.*1 → Forall (λ kv, finite kv.2 ∧ 0 <= val kv.2) l → all_finite v →
  (∀ n, 0 <= nuc_val v n) → m ≃ m0 →
  match MatQuery.ratio_loop l v m with
  | None => ∃ n x, (n, x) ∈ l ∧ 0 < val x ∧ v !! n = None
  | Some r => ∃ R, r ≃ R ∧ smallest v l m0 R
  end.
Proof.
  revert v m m0. induction l as [|[n x] l IH]; intros v m m0 Hnd Hl Hv Hpos Hm.
  { exists m0. split; [done|]. split_and!; [lra|by intros ? ? ?%elem_of_nil|by left; reflexivity]. }
  apply NoDup_cons in Hnd as [Hn Hnd]. apply Forall_cons in Hl as [[Hx Hx0] Hl]. change (n ∉ l.*1) in Hn. change (NoDup l.*1) in Hnd.
  cbn [fst snd] in Hx, Hx0. cbn [MatQuery.ratio_loop].
  rewrite (ltb_fin (fin_Z 0) Hx). change (inject_Z 0) with 0. destruct (bool_decide (v !! n = None) && Qltb 0 (val x)) eqn:Hmiss.
  { apply andb_true_iff in Hmiss as [Hnone%bool_decide_eq_true Hlt%Qltb_lt]. exists n, x. split_and!; [by left|done|done]. }
  set (q := at_default (nZ 0) v n). set (v1 := <[n := q]> v).
  assert (finite q) as Hq by by apply all_finite_at.
  assert (∀ n', nuc_val v1 n' = nuc_val v n') as Hsame.
  { intros n'. unfold v1. rewrite nuc_val_insert. destruct (decide (n = n')) as [<-|]; done. }
  assert (∃ m1 M1, (if (q / x <? m)%D then (q / x)%D else m) = m1 ∧ m1 ≃ M1 ∧ M1 <= m0 ∧ (0 < val x → M1 <= nuc_val v n / val x) ∧
    (M1 == m0 ∨ 0 < val x ∧ M1 == nuc_val v n / val x)) as (m1 & M1 & -> & Hm1 & Hle & Hrat & Heq).
  { destruct (Qlt_le_dec 0 (val x)) as [Hlt|Hge].
    - assert ((q / x)%D ≃ (nuc_val v n / val x)) as Hr by (apply fin_div; [exact Hq|exact Hx|lra]).
      rewrite (ltb_fin Hr Hm). destruct (Qltb (nuc_val v n / val x) m0) eqn:E; [apply Qltb_lt in E|apply Qltb_ge in E].
      + exists (q / x)%D, (nuc_val v n / val x). split_and!; [done|done|lra|lra|]. right. split; [done|reflexivity].
      + exists m, m0. split_and!; [done|done|lra|lra|]. left. reflexivity.
    - assert ((q / x <? m)%D = false) as ->.
      { assert (val x == 0) as Hz by lra. specialize (Hpos n). unfold nuc_val in Hpos. fold q in Hpos.
        destruct q as [q'| | |]; try done. destruct x as [x'| | |]; try done. destruct m as [m'| | |]; try done. cbn in Hz, Hpos |- *.
        unfold xdiv. assert (Qeq_bool x' 0 = true) as -> by by apply Qeq_bool_iff. unfold inf_sign.
        destruct (Qcompare q' 0) eqn:E; try done. apply Qlt_alt in E. lra. }
      exists m, m0. split_and!; [done|done|lra|lra|]. left. reflexivity. }
  assert (all_finite v1) as Hv1 by by apply map_Forall_insert_2.
  assert (∀ n', 0 <= nuc_val v1 n') as Hpos1 by (intros n'; rewrite Hsame; apply Hpos).
  specialize (IH v1 m1 M1 Hnd Hl Hv1 Hpos1 Hm1). destruct (MatQuery.ratio_loop l v1 m1) as [r|].
  - destruct IH as (R & Hr & (HR1 & HR2 & HR3)%(smallest_ext v _ _ _ _ Hsame)). exists R. split; [done|]. split_and!; [lra| |].
    + intros n' x' [[= -> ->]|Hin]%elem_of_cons Hx'; [|by apply HR2]. specialize (Hrat Hx'). lra.
    + destruct HR3 as [HR3|(n' & x' & Hin & Hx' & HR3)].
      * destruct Heq as [Heq|[Hx' Heq]]; [left; by rewrite HR3|]. right. exists n, x. split_and!; [by left|done|by rewrite HR3].
      * right. exists n', x'. split_and!; [by right|done|done].
  - destruct IH as (n' & x' & Hin & Hx' & Hnone). exists n', x'. split_and!; [by right|done|].
    unfold v1 in Hnone. rewrite lookup_insert_ne in Hnone; [done|]. intros <-. apply Hn, list_elem_of_fmap. by exists (n, x').
Qed.
End ratio.

Lemma nonneg_entries (v : CompMap xq) : all_finite v → (∀ n, 0 <= nuc_val v n) → Forall (λ kv, finite kv.2 ∧ 0 <= val kv.2) (in_order v).
Proof.
  intros Hv Hpos. apply Forall_forall. intros [n x] Hin%elem_of_in_order. split; [by apply (Hv n)|].
  specialize (Hpos n). unfold nuc_val, at_default in Hpos. by rewrite Hin in Hpos.
Qed.
Lemma entry_val (v : CompMap xq) n x : (n, x) ∈ in_order v → val x = nuc_val v n.
Proof. intros Hin%elem_of_in_order. unfold nuc_val, at_default. by rewrite Hin. Qed.

(** The smallest ratio of the fractions of two compositions is attained. *)
Lemma ratio_attained (u v : CompMap xq) (R m0 : Q) : total u == 1 → total v == 1 → (∀ n, 0 <= nuc_val u n) → (∀ n, 0 <= nuc_val v n) →
  all_finite u → 1 < m0 → smallest v (in_order u) m0 R →
  (∀ n, R * nuc_val u n <= nuc_val v n) ∧ ∃ n, 0 < nuc_val u n ∧ R * nuc_val u n == nuc_val v n.
Proof.
  intros Hu Hv Hpu Hpv Hfu Hm (HR1 & HR2 & HR3).
  assert (∀ n, R * nuc_val u n <= nuc_val v n) as Hall.
  { intros n. destruct (Qlt_le_dec 0 (nuc_val u n)) as [Hlt|Hle].
    - destruct (u !! n) as [x|] eqn:Hx; [|unfold nuc_val, at_default in Hlt; rewrite Hx in Hlt; by apply (Qlt_irrefl 0) in Hlt].
      assert ((n, x) ∈ in_order u) as Hin by by apply elem_of_in_order. pose proof (entry_val u n x Hin) as Heq. rewrite <-Heq in Hlt |- *.
      specialize (HR2 n x Hin Hlt). apply (Qmult_le_compat_r _ _ (val x)) in HR2; [|lra].
      assert (nuc_val v n / val x * val x == nuc_val v n) as Hq by (field; lra). rewrite Hq in HR2. done.
    - specialize (Hpu n). specialize (Hpv n). assert (nuc_val u n == 0) as -> by lra. lra. }
  split; [done|]. destruct HR3 as [HR3|(n & x & Hin & Hx & HR3)].
  - destruct (scale_exact u (Fin R) R Hfu (Qeq_refl _)) as (_ & Hsv & Hst).
    assert (total ((λ x, (x * Fin R)%D) <$> u) <= total v) as Hle.
    { apply total_le; [|done]. intros n. rewrite Hsv, Qmult_comm. apply Hall. }
    rewrite Hst, Hu, Hv, HR3 in Hle. lra.
  - exists n. rewrite <-(entry_val u n x Hin). split; [done|]. rewrite HR3. field. lra.
Qed.

Section properties.
Context `{Pyne xq}.
Implicit Types (w : World xq).

(** C31.  [Amount] is the largest quantity of a composition that a material contains: of no
    nuclide does it need more than the material has, and no larger quantity has this property.
    If the material lacks a nuclide of the composition it is 0. *)
Theorem amount_largest w m q v c x : wf w → ctx_decay w ≠ DecayLazy → holds_mat w m q v → 0 < q → 0 < total v →
  comps w !! c = Some x → 0 < total (mass_of x) →
  ∃ a A w', MatQuery.Amount m c w = (Ret a, w') ∧ a ≃ A ∧ keeps_content w w' ∧
    (∀ n, nuc_mass A (mass_of x) n <= nuc_mass q v n) ∧
    ∀ B, (∀ n, nuc_mass B (mass_of x) n <= nuc_mass q v n) → B <= A.
Proof.
  intros Hwf Hlazy Hm Hq Htv Hc Htu. pose proof (holds_ok _ _ _ _ Hwf Hm) as (Hfv & Hpv & _). pose proof (wf_comp _ Hwf c x Hc) as (Hfu & Hpu & _).
  destruct Hm as (r & c0 & lt & x0 & Hr & Hrq & Hk & Hc0 & Hv).
  cut (runs (MatQuery.Amount m c) w (λ a w', keeps_content w w' ∧ ∃ A, a ≃ A ∧ (∀ n, nuc_mass A (mass_of x) n <= nuc_mass q v n) ∧
    ∀ B, (∀ n, nuc_mass B (mass_of x) n <= nuc_mass q v n) → B <= A)).
  { intros (a & w' & Hrun & Hk' & A & ? & ? & ?). by exists a, A, w'. }
  unfold MatQuery.Amount. apply runs_bind. eapply comp_runs; [done|exact Hr|exact Hk|].
  apply runs_bind. eapply runs_mono; [by apply (mass_runs w c0 x0)|]. intros va w1 (-> & Hwf1 & Hk1 & Hr1).
  destruct (kc_comp _ _ Hk1 c x Hc) as (x' & Hc' & Hx'). apply runs_bind.
  eapply runs_mono; [by apply (mass_runs w1 c x')|]. intros vu w2 (-> & Hwf2 & Hk2 & Hr2). rewrite Hx', Hv.
  destruct (Normalize_exact v (nZ 1) 1 Hfv (fin_Z 1)) as (Hfv' & Hnv & Htv'); [lra|].
  destruct (Normalize_exact (mass_of x) (nZ 1) 1 Hfu (fin_Z 1)) as (Hfu' & Hnu & Htu'); [lra|].
  set (v' := compmath.Normalize v (nZ 1)) in *. set (u' := compmath.Normalize (mass_of x) (nZ 1)) in *.
  assert (∀ n, 0 <= nuc_val v' n) as Hpv' by (intros n; rewrite Hnv; apply Qmult_le_0_compat; [done|apply Qle_shift_div_l; lra]).
  assert (∀ n, 0 <= nuc_val u' n) as Hpu' by (intros n; rewrite Hnu; apply Qmult_le_0_compat; [done|apply Qle_shift_div_l; lra]).
  assert (∀ k n, nuc_mass k v n == k * nuc_val v' n) as Hmv by (intros k n; unfold nuc_mass; rewrite Hnv; field; lra).
  assert (∀ k n, nuc_mass k (mass_of x) n == k * nuc_val u' n) as Hmu by (intros k n; unfold nuc_mass; rewrite Hnu; field; lra).
  pose proof (ratio_loop_spec (in_order u') v' (nlit (10 ^ 300)) (10 ^ 300) (NoDup_fst_in_order u') (nonneg_entries u' Hfu' Hpu') Hfv' Hpv' (Qeq_refl _)) as HL.
  destruct (MatQuery.ratio_loop (in_order u') v' (nlit (10 ^ 300))) as [mr|].
  - destruct HL as (R & HR & Hsm). destruct (ratio_attained u' v' R (10 ^ 300) Htu' Htv' Hpu' Hpv' Hfu' ltac:(reflexivity) Hsm) as (Hall & n0 & Hn0 & Heq).
    unfold MatQuery.qty. apply runs_bind, runs_fmap. eapply get_res_runs; [by rewrite Hr2, Hr1|]. apply runs_ret. split; [by etrans|].
    exists (R * q). destruct (Normalize_exact u' _ _ Hfu' (fin_mul HR Hrq)) as (Hfin & _ & Htot); [rewrite Htu'; lra|].
    split_and!.
    + set (u2 := compmath.Normalize u' _) in *. eapply is_fin_weaken; [apply (foldl_nadd_fin _ (vals (in_order u2).*2) (nZ 0) 0); [apply (fin_Z 0)|]|].
      * unfold vals. change (map val) with (fmap val : list xq → list Q). apply Forall2_fmap_r, Forall_Forall2_diag. apply in_order_finite in Hfin. by apply Forall_fmap.
      * rewrite <-Htot, <-total_in_order. unfold vals. rewrite map_map. ring.
    + intros n. rewrite Hmv, Hmu. specialize (Hall n). nra.
    + intros B HB. specialize (HB n0). rewrite Hmv, Hmu, <-Heq in HB. apply Qmult_le_r with (nuc_val u' n0); [done|]. lra.
  - destruct HL as (n & y & Hin & Hy & Hnone). apply runs_ret. split; [by etrans|]. exists 0. split_and!; [apply (fin_Z 0)| |].
    + intros k. rewrite Hmv, Hmu. specialize (Hpv' k). nra.
    + intros B HB. specialize (HB n). rewrite Hmv, Hmu, <-(entry_val u' n y Hin) in HB.
      assert (nuc_val v' n = 0) as Hz by (unfold nuc_val, at_default; by rewrite Hnone). rewrite Hz in HB. nra.
Qed.
End properties.

(** ** Enrichment *)

(** Enrichment neither makes nor loses uranium, nor U-235: the feed is the product and
    the tails together, in mass and in U-235.  With an assay of the feed between those of the
    tails and the product no quantity is negative.  The separative work is refused exactly when
    one of the assays is not a fraction in [[0, 1)]. *)
Theorem enrichment_balance `{Logarithm xq} (assays : Assays xq) (P : xq) p f t k :
  Product assays ≃ p → Feed assays ≃ f → Tails assays ≃ t → P ≃ k → ¬ f == t →
  (∃ a b, FeedQty P assays ≃ a ∧ TailsQty P assays ≃ b ∧ a == k + b ∧ a * f == k * p + b * t ∧
    (t < f → f <= p → 0 <= k → k <= a ∧ 0 <= b)) ∧
  (SwuRequired P assays = Throw ValueError ↔ ¬ (0 <= p < 1 ∧ 0 <= t < 1 ∧ 0 <= f < 1)) ∧
  (0 <= p < 1 ∧ 0 <= t < 1 ∧ 0 <= f < 1 → ∃ swu, SwuRequired P assays = Ret swu).
Proof.
  intros Hp Hf Ht Hk Hne.
  assert (∀ x q, x ≃ q → (0 <= q < 1 → ∃ y, ValueFunc x = Ret y) ∧ (¬ (0 <= q < 1) → ValueFunc x = Throw ValueError)) as HV.
  { intros x q Hx. unfold ValueFunc. rewrite (ltb_fin Hx (fin_Z 0)), (leb_fin (fin_Z 1) Hx).
    change (inject_Z 0) with 0. change (inject_Z 1) with 1. destruct (Qltb q 0) eqn:E0; [apply Qltb_lt in E0|apply Qltb_ge in E0].
    { split; [lra|done]. }
    destruct (Qle_bool 1 q) eqn:E1; [apply Qle_bool_iff in E1|].
    - split; [lra|done].
    - assert (q < 1) as Hlt by (apply Qnot_le_lt; intros Hle%Qle_bool_iff; congruence). split; [by eexists|lra]. }
  destruct (HV _ _ Hp) as [Hp1 Hp2], (HV _ _ Ht) as [Ht1 Ht2], (HV _ _ Hf) as [Hf1 Hf2].
  assert (0 <= p < 1 ∧ 0 <= t < 1 ∧ 0 <= f < 1 → ∃ swu, SwuRequired P assays = Ret swu) as Hok.
  { intros (Hpr & Htr & Hfr). destruct (Hp1 Hpr) as [y1 E1], (Ht1 Htr) as [y2 E2], (Hf1 Hfr) as [y3 E3].
    unfold SwuRequired. rewrite E1, E2, E3, !bind_Ret. by eexists. }
  split_and!; [| |done].
  - exists (k * ((p - t) / (f - t))), (k * ((p - f) / (f - t))). split_and!.
    + apply fin_mul; [done|]. apply fin_div; [by apply fin_sub..|]. intros H0. apply Hne. lra.
    + apply fin_mul; [done|]. apply fin_div; [by apply fin_sub..|]. intros H0. apply Hne. lra.
    + field. intros H0. apply Hne. lra.
    + field. intros H0. apply Hne. lra.
    + intros Htf Hfp Hk0. assert (0 <= (p - f) / (f - t)) as Hb by (apply Qle_shift_div_l; lra). split; [|nra].
      assert (1 <= (p - t) / (f - t)) as Ha by (apply Qle_shift_div_l; lra). nra.
  - split.
    + intros Hthrow Hin. destruct (Hok Hin) as [swu Hswu]. congruence.
    + intros Hnot. unfold SwuRequired. destruct (Qlt_le_dec p 0); [rewrite Hp2 by lra; done|].
      destruct (Qlt_le_dec p 1); [|rewrite Hp2 by lra; done]. destruct Hp1 as [y1 ->]; [lra|]. rewrite bind_Ret.
      destruct (Qlt_le_dec t 0); [rewrite Ht2 by lra; done|]. destruct (Qlt_le_dec t 1); [|rewrite Ht2 by lra; done].
      destruct Ht1 as [y2 ->]; [lra|]. rewrite bind_Ret. rewrite Hf2; [done|]. intros Hfr. apply Hnot. lra.
Qed.

(** ** Witnesses *)
Lemma amount_largest_witness :
  ∃ c a A w', @MatQuery.Amount xq _ ResExample.pyne 5%Z c ResExample.world = (Ret a, w') ∧ a ≃ A ∧
    ∀ n, nuc_mass A ResExample.leu n <= nuc_mass 8 ResExample.nat_u n.
Proof.
  destruct ResExample.world_ok as (Hwf & H5 & (r & c & t & x & _ & _ & _ & Hc & Hx)).
  destruct (@amount_largest ResExample.pyne ResExample.world 5%Z 8 ResExample.nat_u c x)
    as (a & A & w' & Hrun & Ha & _ & Hle & _); [exact Hwf|vm_compute; discriminate|exact H5|reflexivity|reflexivity|exact Hc|rewrite Hx; reflexivity|].
  exists c, a, A, w'. rewrite <-Hx. split_and!; [exact Hrun|exact Ha|exact Hle].
Defined.

Lemma enrichment_balance_witness :
  ∃ a b, FeedQty (nZ 2 : xq) (mkAssays (nlit (1 # 10)) (nlit (4 # 10)) (nlit 0)) ≃ a ∧
    TailsQty (nZ 2 : xq) (mkAssays (nlit (1 # 10)) (nlit (4 # 10)) (nlit 0)) ≃ b ∧ a == 2 + b.
Proof.
  destruct (@enrichment_balance (λ x, x) (mkAssays (nlit (1 # 10)) (nlit (4 # 10)) (nlit 0)) (nZ 2) (4 # 10) (1 # 10) 0 2)
    as [(a & b & Ha & Hb & Hab & _) _]; [reflexivity..|discriminate|].
  by exists a, b.
Defined.
