(* ===== verification/ResBufTheory.v ===== *)
(** * The behaviour of resource buffers

    Proved for any resource that keeps the promises of [ResLaws]. *)

From Stdlib Require Import QArith Qabs Qminmax Lqa ZArith Lia.
From stdpp Require Import base list gmap strings.
From S2P Require Import Prelude Num Arithmetic CompMath Resource Material MaterialTheory ResBuf ResourceLaws.

#[local] Arguments sumQ : simpl never.

Section theory.
Context `{Limits xq} {e er : Q} `{!GoodLimits e er} `{Pyne xq}.
Context (T : ResClass) (good : World xq → ptr → Q → Prop) `{!ResLaws T good}.
Implicit Types (w : World xq) (b : ResBuf xq) (qs : list Q) (p : ptr).

(** A buffer with the quantities [qs]: the cached quantity is their sum, no
    resource is in it twice, and the set has the resources of the list. *)
Record buf_ok w b qs : Prop := {
  ok_qty : qty_ b ≃ sumQ qs;
  ok_res : Forall2 (good w) (rs_ b) qs;
  ok_nodup : NoDup (rs_ b);
  ok_present : rs_present_ b = list_to_set (rs_ b)
}.

Lemma buf_runs w b (Q : ResBuf xq → World xq * ResBuf xq → Prop) : Q b (w, b) → runs buf (w, b) Q.
Proof. intros HQ. by apply (runs_gets snd). Qed.

Lemma modify_buf_runs f w b (Q : unit → World xq * ResBuf xq → Prop) :
  Q tt (w, f b) → runs (modify_buf f) (w, b) Q.
Proof. intros HQ. by apply runs_lift_r, runs_modify. Qed.

Lemma quantity_runs w b p q (Q : xq → World xq * ResBuf xq → Prop) :
  good w p q → (∀ x, x ≃ q → Q x (w, b)) → runs (quantity p) (w, b) Q.
Proof.
  intros (r & Hp & Hq & _)%good_read HQ. apply runs_fmap, runs_lift_l. by eapply get_res_runs; eauto.
Qed.

Lemma good_pos w p q : good w p q → (0 < q)%Q.
Proof. by intros (r & ? & ? & ? & ?)%good_read. Qed.

Lemma good_dom w p q : good w p q → ress w !! p ≠ None.
Proof. intros (r & -> & _)%good_read. done. Qed.

Lemma good_list_dom w ps qs p : Forall2 (good w) ps qs → p ∈ ps → ress w !! p ≠ None.
Proof.
  intros Hps Hin. apply list_elem_of_lookup in Hin as [i Hi].
  destruct (Forall2_lookup_l _ _ _ _ _ Hps Hi) as (q & _ & Hg). by eapply good_dom.
Qed.

Lemma good_sum_pos w ps qs : Forall2 (good w) ps qs → (0 <= sumQ qs)%Q.
Proof.
  intros Hps. apply sumQ_nonneg. induction Hps as [|p q ps qs Hp _ IH]; constructor; [|done].
  apply good_pos in Hp. lra.
Qed.

Lemma others_good_list w w' ps ps' qs :
  others_good good ps w w' → (∀ p, p ∈ ps' → p ∉ ps) → Forall2 (good w) ps' qs →
  Forall2 (good w') ps' qs.
Proof.
  intros Hot Hdis Hps. eapply Forall2_impl_in; [exact Hps|]. intros p q Hin Hg.
  apply Hot; [by apply Hdis|done].
Qed.

Lemma UpdateQty_runs w b qs :
  buf_ok w b qs →
  runs UpdateQty (w, b) (λ _ wb, wb.1 = w ∧ buf_ok w wb.2 qs ∧ rs_ wb.2 = rs_ b ∧ cap_ wb.2 = cap_ b).
Proof.
  intros [Hq Hr Hnd Hpr]. unfold UpdateQty. apply runs_bind, buf_runs.
  destruct (rs_ b) as [|p [|p' ps]] eqn:Hrs.
  - apply Forall2_nil_inv_l in Hr as ->. apply modify_buf_runs. split_and!; try done.
    split; cbn; by rewrite ?Hrs.
  - apply Forall2_cons_inv_l in Hr as (q & ? & Hp & ->%Forall2_nil_inv_l & ->).
    apply runs_bind. eapply quantity_runs; [exact Hp|]. intros x Hx. apply modify_buf_runs.
    split_and!; try done. split; cbn; rewrite ?Hrs; try done.
    + eapply is_fin_weaken; [exact Hx|]. change (sumQ [q]) with (q + 0)%Q. lra.
    + by constructor.
  - apply runs_ret. split_and!; try done. split; cbn; by rewrite ?Hrs.
Qed.

(** ** Popping a quantity *)
Lemma pop_loop_stop fuel left l rs w b :
  left ≃ l → (l <= 0)%Q → pop_loop (S fuel) left rs (w, b) = (Ret rs, (w, b)).
Proof.
  intros Hl Hle. cbn [pop_loop]. rewrite (bind_ret buf _ _ _ _ eq_refl). cbn [snd].
  destruct (rs_ b); [done|]. rewrite (ltb_fin (fin_Z 0) Hl), (proj2 (Qltb_ge _ _)); done.
Qed.

(** What the loop has done when it took [l] from the buffer. *)
Definition popped l rs pqs w b qs (rs' : list ptr) (wb : World xq * ResBuf xq) : Prop :=
  res_inv wb.1 ∧ rs' ≠ [] ∧ suffix (rs_ wb.2) (rs_ b) ∧ cap_ wb.2 = cap_ b ∧
  others_good good (rs ++ rs_ b) w wb.1 ∧ (∀ p, p ∈ rs' → (p ∈ rs ++ rs_ b) ∨ ress w !! p = None) ∧
  ∃ qs' pqs', buf_ok wb.1 wb.2 qs' ∧ Forall2 (good wb.1) rs' pqs' ∧ NoDup (rs' ++ rs_ wb.2) ∧
    (sumQ pqs' == sumQ pqs + l)%Q ∧ (sumQ qs' == sumQ qs - l)%Q.

(** The first resource had more than was left to take. *)
Lemma split_popped r rest l rs pqs w b q qs tmp w1 y :
  rs_ b = r :: rest → buf_ok w b (q :: qs) → Forall2 (good w) rs pqs → NoDup (rs ++ r :: rest) →
  (l < q)%Q → res_inv w1 → ress w !! tmp = None → good w1 tmp l → good w1 r (q - l)%Q →
  others_good good [r] w w1 → y ≃ l →
  popped l rs pqs w b (q :: qs) (rs ++ [tmp])
    (w1, set_buf_qty (qty_ b - y)%D (set_rs (r :: rest) (set_rs rest b))).
Proof.
  intros Hrs [Hq Hr Hnd Hpr] Hpop Hnd2 Hlq Hinv1 Hnew Htmp Hr1 Hot1 Hx.
  rewrite Hrs in Hr. apply Forall2_cons_inv_l in Hr as (? & ? & Hp & Hr & [= <- <-]). rewrite Hrs in Hnd. rewrite sumQ_cons in Hq.
  pose proof Hnd as [Hrn Hnd']%NoDup_cons.
  assert (tmp ∉ rs ++ r :: rest) as Htn.
  { intros Hin. apply (good_list_dom w (rs ++ r :: rest) (pqs ++ q :: qs) tmp); [|done|done].
    apply Forall2_app; [done|by constructor]. }
  assert (r ∉ rs) as Hrrs by (apply NoDup_app in Hnd2 as (_ & Hd & _); intros Hin; apply (Hd r Hin); by left).
  unfold popped. cbn. rewrite Hrs. split_and!; [done|by destruct rs|done|done| | |].
  { intros p' q' Hnin. apply Hot1. set_solver. }
  { intros p' Hin. apply elem_of_app in Hin as [Hin| ->%list_elem_of_singleton]; [left; set_solver|by right]. }
  exists ((q - l)%Q :: qs), (pqs ++ [l]). split_and!.
  - split; cbn [qty_ cap_ rs_ rs_present_ set_buf_qty set_rs].
    + eapply is_fin_weaken; [exact (fin_sub Hq Hx)|]. rewrite sumQ_cons. lra.
    + constructor; [done|]. eapply others_good_list; [exact Hot1| |done]. set_solver.
    + done.
    + by rewrite Hpr, Hrs.
  - apply Forall2_app; [|by repeat constructor]. eapply others_good_list; [exact Hot1| |done]. set_solver.
  - rewrite <-(assoc_L (++)). cbn. rewrite <-(Permutation_middle rs (r :: rest) tmp). by apply NoDup_cons.
  - by rewrite sumQ_snoc.
  - rewrite !sumQ_cons. lra.
Qed.

Lemma pop_loop_runs ps : ∀ fuel left l rs pqs w b qs,
  rs_ b = ps → res_inv w → buf_ok w b qs → left ≃ l → (0 < l)%Q → (l <= sumQ qs)%Q →
  Forall2 (good w) rs pqs → NoDup (rs ++ ps) → (length ps < fuel)%nat →
  runs (pop_loop fuel left rs) (w, b) (popped l rs pqs w b qs).
Proof.
  induction ps as [|r rest IH]; intros fuel left l rs pqs w b qs Hrs Hinv Hok Hl Hpos Hle Hpop Hnd2 Hf;
    pose proof Hok as [Hq Hr Hnd Hpr].
  { rewrite Hrs in Hr. apply Forall2_nil_inv_l in Hr as ->. change (sumQ []) with 0%Q in Hle. lra. }
  rewrite Hrs in Hr. apply Forall2_cons_inv_l in Hr as (q & qs' & Hp & Hr & ->).
  rewrite Hrs in Hnd. apply NoDup_cons in Hnd as [Hrn Hnd]. rewrite sumQ_cons in Hq, Hle.
  destruct fuel as [|fuel]; [cbn in Hf; lia|]. cbn [pop_loop]. apply runs_bind, buf_runs.
  rewrite Hrs, (ltb_fin (fin_Z 0) Hl), (proj2 (Qltb_lt _ _)) by done.
  apply runs_bind, modify_buf_runs. apply runs_bind. eapply quantity_runs; [exact Hp|]. intros quan Hquan.
  rewrite (ltb_fin Hl Hquan). destruct (Qltb l q) eqn:Hcmp.
  - (* split *)
    apply Qltb_lt in Hcmp. apply runs_bind, runs_bind, runs_lift_l.
    eapply runs_mono; [by apply (good_extract (T:=T) w r q left l)|].
    intros tmp w1 (Hinv1 & Hnew & Htmp & Hr1 & Hot1). apply runs_bind, modify_buf_runs, runs_ret.
    apply runs_bind. eapply quantity_runs; [exact Htmp|]. intros x Hx.
    apply runs_bind, modify_buf_runs. cbn in Hf. destruct fuel as [|fuel]; [lia|].
    eexists _, _. split; [eapply (pop_loop_stop _ _ (l - q)); [by apply fin_sub|lra]|].
    exact (split_popped r rest l rs pqs w b q qs' tmp w1 x Hrs Hok Hpop Hnd2 Hcmp Hinv1 Hnew Htmp Hr1 Hot1 Hx).
  - (* take all of it *)
    apply Qltb_ge in Hcmp. apply runs_bind, runs_bind, modify_buf_runs, runs_ret.
    apply runs_bind. eapply quantity_runs; [exact Hp|]. intros x Hx. apply runs_bind, modify_buf_runs.
    set (b1 := set_buf_qty _ _).
    assert (buf_ok w b1 qs') as Hok1.
    { split; cbn [b1 qty_ cap_ rs_ rs_present_ set_buf_qty set_rs erase_present set_present].
      - eapply is_fin_weaken; [exact (fin_sub Hq Hx)|]. lra.
      - done.
      - done.
      - rewrite Hpr, Hrs. set_solver. }
    assert (Forall2 (good w) (rs ++ [r]) (pqs ++ [q])) as Hpop1 by (apply Forall2_app; [done|by repeat constructor]).
    assert (NoDup ((rs ++ [r]) ++ rest)) as Hnd1 by (by rewrite <-(assoc_L (++))).
    assert (sumQ (pqs ++ [q]) == sumQ pqs + q)%Q as Hsum by apply sumQ_snoc.
    assert ((left - quan)%D ≃ (l - q)%Q) as Hl1 by (by apply fin_sub). cbn in Hf.
    destruct (Qlt_le_dec 0 (l - q)) as [Hmore|Hdone].
    + eapply runs_mono; [apply (IH fuel _ (l - q)%Q (rs ++ [r]) (pqs ++ [q]) w b1 qs'); try done; [lra|lia]|].
      intros rs' [w' b'] (Hi & Hne & Hsuf & Hcap & Hot & Hin & qs2 & pqs2 & Hok2 & Hp2 & Hn2 & Hs1 & Hs2).
      unfold popped. cbn in *. split_and!; [done|done| |done| | |].
      * rewrite Hrs. by apply suffix_cons_r.
      * intros p' q' Hnin. apply Hot. rewrite Hrs in Hnin. set_solver.
      * rewrite Hrs. intros p' Hp'. specialize (Hin p' Hp'). set_solver.
      * exists qs2, pqs2. split_and!; try done; [rewrite Hs1, Hsum; lra|rewrite Hs2, sumQ_cons; lra].
    + destruct fuel as [|fuel]; [lia|]. eexists _, _. split; [by eapply pop_loop_stop|].
      unfold popped. cbn. rewrite Hrs. split_and!; [done|by destruct rs|by apply suffix_cons_r|done|by intros ???|set_solver|].
      exists qs', (pqs ++ [q]). split_and!; try done; [rewrite Hsum; lra|rewrite sumQ_cons; lra].
Qed.

(** [Pop(qty)] *)
Lemma PopQty_runs w b qs y k :
  res_inv w → buf_ok w b qs → y ≃ k → (0 < k)%Q → (k <= sumQ qs)%Q →
  runs (PopQty T y) (w, b) (λ p wb, ∃ qs' : list Q, res_inv wb.1 ∧ good wb.1 p k ∧ buf_ok wb.1 wb.2 qs' ∧
    (sumQ qs' == sumQ qs - k)%Q ∧ (p ∉ rs_ wb.2) ∧ suffix (rs_ wb.2) (rs_ b) ∧ cap_ wb.2 = cap_ b ∧
    ((p ∈ rs_ b) ∨ ress w !! p = None) ∧ others_good good (rs_ b) w wb.1).
Proof.
  intros Hinv Hok Hy Hpos Hle. pose proof Hok as [Hq _ Hnd _]. unfold PopQty. apply runs_bind, buf_runs.
  apply runs_bind, runs_require; [rewrite (ltb_fin Hq Hy), (proj2 (Qltb_ge _ _)); done|].
  apply runs_bind. eapply runs_mono; [apply (pop_loop_runs (rs_ b) _ y k [] []); try done; lia|].
  intros rs' [w' b'] (Hinv' & Hne & Hsuf & Hcap & Hot & Hin & qs' & pqs & Hok' & Hrs' & Hnd' & Hs1 & Hs2).
  cbn in *. apply runs_bind. eapply runs_mono; [by apply UpdateQty_runs|].
  intros ? [w1 b2] (Hw1 & Hok2 & Hrs2 & Hcap2). cbn in *. subst w1. destruct rs' as [|p ps]; [done|].
  apply Forall2_cons_inv_l in Hrs' as (q & pqs' & Hp & Hps & ->).
  apply NoDup_app in Hnd' as (Hndp & Hdis & Hndb).
  apply runs_lift_l. eapply runs_mono; [by apply (good_squash (T:=T) w' p ps q pqs')|].
  intros p' w2 (-> & Hinv2 & Hp2 & Hot2). cbn. exists qs'. split_and!; try done.
  - eapply good_eq; [done|]. rewrite sumQ_cons in Hs1. change (sumQ []) with 0%Q in Hs1. lra.
  - destruct Hok2 as [Hq2 Hr2 Hn2 Hp2']. split; try done.
    eapply others_good_list; [exact Hot2| |done]. rewrite Hrs2. intros p' Hpb Hpp. by apply (Hdis p').
  - rewrite Hrs2. apply Hdis. by left.
  - by rewrite Hrs2.
  - congruence.
  - apply Hin. by left.
  - intros p' q' Hnin Hg. destruct (decide (p' ∈ p :: ps)) as [Hin'|Hnin2].
    + apply Hin in Hin' as [|Hn]; [done|]. by destruct (good_dom _ _ _ Hg).
    + by apply Hot2, Hot.
Qed.

(** ** Capacity *)

(** The capacity is a number or, as in a new buffer, infinite. *)
Definition cap_ok (x : xq) (c : option Q) : Prop :=
  match c with Some c => x ≃ c | None => x = PInf end.
Definition fits (c : option Q) (tot q : Q) : Prop :=
  match c with Some c => (q <= Qmax 0 (c - tot) + er)%Q | None => True end.
#[export] Instance fits_dec c tot q : Decision (fits c tot q).
Proof. destruct c as [c|]; cbn; apply _. Defined.

Lemma fits_spec b c tot x q :
  cap_ok (cap_ b) c → qty_ b ≃ tot → x ≃ q →
  (x - space b >? eps_rsrc)%D = negb (bool_decide (fits c tot q)).
Proof.
  intros Hc Hq Hx. destruct c as [c|]; cbn in Hc.
  - assert ((x - space b)%D ≃ (q - Qmax 0 (c - tot))%Q) as Hd.
    { unfold space. apply fin_sub; [done|]. apply fin_max; [apply (fin_Z 0)|by apply fin_sub]. }
    rewrite (ltb_fin eps_rsrc_fin Hd). case_bool_decide as Hf; cbn in Hf.
    + apply Qltb_ge. lra.
    + apply Qltb_lt. lra.
  - rewrite bool_decide_eq_true_2 by done. unfold space. rewrite Hc.
    destruct (qty_ b) as [t| | |]; try done. destruct x as [y| | |]; try done.
    pose proof eps_rsrc_fin as Hr. by destruct (eps_rsrc).
Qed.

(** [capacity(cap)] *)
Lemma set_capacity_cases w b qs x c :
  buf_ok w b qs → x ≃ c →
  set_capacity x (w, b) =
    if decide (sumQ qs - c <= er)%Q then (Ret tt, (w, set_cap x b)) else (Throw ValueError, (w, b)).
Proof.
  intros [Hq _ _ _] Hx. unfold set_capacity. rewrite (bind_ret buf _ _ _ _ eq_refl). cbn [snd].
  rewrite (ltb_fin eps_rsrc_fin (fin_sub Hq Hx)). destruct (decide _) as [Hle|Hle].
  - rewrite (proj2 (Qltb_ge _ _)) by done. done.
  - rewrite (proj2 (Qltb_lt _ _)); [done|]. by apply Qnot_le_lt.
Qed.

(** ** Pushing *)
Lemma get_good w b p q :
  good w p q → ∃ r, lift_l (get_res p) (w, b) = (Ret r, (w, b)) ∧ res_qty r ≃ q ∧ casts_to T r = true.
Proof.
  intros (r & Hp & Hq & Hcast & _)%good_read. exists r. split_and!; try done.
  unfold lift_l, get_res. cbn. rewrite (bind_ret get _ _ _ _ eq_refl). by rewrite Hp.
Qed.

Lemma Push_cases w b qs c p q :
  buf_ok w b qs → cap_ok (cap_ b) c → good w p q →
  if decide (fits c (sumQ qs) q) then
    if decide (p ∈ rs_ b) then Push T p (w, b) = (Throw KeyError, (w, b))
    else ∃ b', Push T p (w, b) = (Ret tt, (w, b')) ∧ rs_ b' = rs_ b ++ [p] ∧ cap_ b' = cap_ b ∧
               buf_ok w b' (qs ++ [q])
  else Push T p (w, b) = (Throw ValueError, (w, b)).
Proof.
  intros Hok Hc Hp. pose proof Hok as [Hq Hr Hnd Hpr].
  destruct (get_good w b p q Hp) as (r & Hget & Hqr & Hcast).
  unfold Push. rewrite (bind_ret _ _ _ _ _ Hget), Hcast.
  rewrite (bind_ret (require true CastError) _ (w, b) tt (w, b) eq_refl).
  rewrite (bind_ret buf _ _ _ _ eq_refl). cbn [snd].
  rewrite (fits_spec b c (sumQ qs) (res_qty r) q Hc Hq Hqr), negb_involutive.
  destruct (decide (fits c (sumQ qs) q)) as [Hf|Hf];
    [rewrite (bool_decide_eq_true_2 (fits _ _ _)) by done|by rewrite (bool_decide_eq_false_2 (fits _ _ _))].
  rewrite (bind_ret (require true ValueError) _ (w, b) tt (w, b) eq_refl).
  destruct (decide (p ∈ rs_ b)) as [Hin|Hnin].
  { rewrite bool_decide_eq_true_2 by (rewrite Hpr; set_solver). done. }
  rewrite bool_decide_eq_false_2 by (rewrite Hpr; set_solver).
  rewrite (bind_ret (require true KeyError) _ (w, b) tt (w, b) eq_refl).
  set (b1 := mkBuf xq (qty_ b + res_qty r)%D (cap_ b) (rs_ b ++ [p]) ({[p]} ∪ rs_present_ b)).
  rewrite (bind_ret (modify_buf _) _ (w, b) tt (w, b1) eq_refl).
  destruct (UpdateQty_runs w b1 (qs ++ [q])) as ([] & [w' b'] & Hrun & Hw & Hok' & Hrs & Hcap).
  { split; cbn.
    - eapply is_fin_weaken; [exact (fin_add Hq Hqr)|]. by rewrite sumQ_snoc.
    - apply Forall2_app; [done|by repeat constructor].
    - apply NoDup_app. split_and!; [done| |apply NoDup_singleton]. set_solver.
    - rewrite Hpr, list_to_set_app_L. set_solver. }
  cbn in Hw, Hok', Hrs, Hcap. subst w'. by exists b'.
Qed.

Lemma collect_quantities w b ps qs :
  Forall2 (good w) ps qs →
  ∃ xs, for_collect quantity ps (w, b) = (Ret xs, (w, b)) ∧ Forall2 is_fin xs qs.
Proof.
  induction 1 as [|p q ps qs Hp _ (xs & Hxs & Hfin)]; [by exists []|].
  destruct (quantity_runs w b p q (λ x wb, wb = (w, b) ∧ x ≃ q) Hp) as (x & ? & Hrun & -> & Hx); [done|].
  exists (x :: xs). split; [by eapply for_collect_cons|by constructor].
Qed.

Lemma all_cast w b ps qs :
  Forall2 (good w) ps qs →
  for_each (λ p, r ← lift_l (get_res p); require (casts_to T r) CastError) ps (w, b) = (Ret tt, (w, b)).
Proof.
  induction 1 as [|p q ps qs Hp _ IH]; [done|]. destruct (get_good w b p q Hp) as (r & Hget & _ & Hcast).
  erewrite for_each_cons; [exact IH|]. rewrite (bind_ret _ _ _ _ _ Hget). by rewrite Hcast.
Qed.

Lemma none_present (X : gset ptr) ps (wb : World xq * ResBuf xq) :
  for_each (λ p, require (negb (bool_decide (p ∈ X))) KeyError) ps wb =
    if decide (Exists (λ p, p ∈ X) ps) then (Throw KeyError, wb) else (Ret tt, wb).
Proof.
  induction ps as [|p ps IH]; [done|]. destruct (decide (p ∈ X)) as [Hin|Hnin].
  - rewrite decide_True by (by left). apply for_each_throw. by rewrite bool_decide_eq_true_2.
  - erewrite for_each_cons; [|by rewrite bool_decide_eq_false_2]. rewrite IH.
    destruct (decide (Exists (λ p, p ∈ X) ps)); [by rewrite decide_True by (by right)|].
    rewrite decide_False; [done|]. by intros [?|?]%Exists_cons.
Qed.

(** [Push(std::vector<B>)]: resources that are twice in the vector are not noticed. *)
Lemma PushVec_cases w b qs c ps pqs :
  buf_ok w b qs → cap_ok (cap_ b) c → Forall2 (good w) ps pqs →
  if decide (fits c (sumQ qs) (sumQ pqs)) then
    if decide (Exists (λ p, p ∈ rs_ b) ps) then PushVec T ps (w, b) = (Throw KeyError, (w, b))
    else ∃ b', PushVec T ps (w, b) = (Ret tt, (w, b')) ∧ rs_ b' = rs_ b ++ ps ∧ cap_ b' = cap_ b ∧
               qty_ b' ≃ sumQ (qs ++ pqs) ∧ (NoDup ps → buf_ok w b' (qs ++ pqs))
  else PushVec T ps (w, b) = (Throw ValueError, (w, b)).
Proof.
  intros [Hq Hr Hnd Hpr] Hc Hps. destruct (collect_quantities w b ps pqs Hps) as (xs & Hcol & Hfin).
  unfold PushVec. rewrite (bind_ret _ _ _ _ _ (all_cast w b ps pqs Hps)), (bind_ret _ _ _ _ _ Hcol).
  rewrite (bind_ret buf _ _ _ _ eq_refl). cbn [snd].
  assert (foldl nadd (nZ 0) xs ≃ sumQ pqs) as Htot.
  { eapply is_fin_weaken; [by apply (foldl_nadd_fin xs pqs _ _ (fin_Z 0))|]. change (inject_Z 0) with 0%Q. lra. }
  rewrite (fits_spec b c (sumQ qs) _ (sumQ pqs) Hc Hq Htot), negb_involutive.
  destruct (decide (fits c (sumQ qs) (sumQ pqs))) as [Hf|Hf];
    [rewrite (bool_decide_eq_true_2 (fits _ _ _)) by done|by rewrite (bool_decide_eq_false_2 (fits _ _ _))].
  rewrite (bind_ret (require true ValueError) _ (w, b) tt (w, b) eq_refl).
  assert (Exists (λ p, p ∈ rs_ b) ps ↔ Exists (λ p, p ∈ rs_present_ b) ps) as Hiff.
  { rewrite !Exists_exists, Hpr. set_solver. }
  destruct (decide (Exists (λ p, p ∈ rs_ b) ps)) as [Hex|Hex].
  { apply bind_throw. rewrite none_present, decide_True by (by apply Hiff). done. }
  erewrite bind_ret; [|rewrite none_present, decide_False by (by rewrite <-Hiff); done].
  exists (push_all (foldl nadd (nZ 0) xs) ps b). split_and!; try done.
  - cbn. eapply is_fin_weaken; [exact (fin_add Hq Htot)|]. by rewrite sumQ_app.
  - intros Hndp. split; cbn.
    + eapply is_fin_weaken; [exact (fin_add Hq Htot)|]. by rewrite sumQ_app.
    + by apply Forall2_app.
    + apply NoDup_app. split_and!; [done| |done]. intros p Hb Hp. apply Hex, Exists_exists. by exists p.
    + rewrite Hpr, list_to_set_app_L. set_solver.
Qed.

(** ** Popping objects *)
Lemma taken_ok w b p q others qs qs' x :
  buf_ok w b qs → rs_ b ≡ₚ p :: others → good w p q → x ≃ q → Forall2 (good w) others qs' →
  (sumQ qs == q + sumQ qs')%Q →
  buf_ok w (mkBuf xq (qty_ b - x)%D (cap_ b) others (rs_present_ b ∖ {[p]})) qs'.
Proof.
  intros [Hq _ Hnd Hpr] Hperm Hp Hx Hot Hsum. rewrite Hperm in Hnd. apply NoDup_cons in Hnd as [Hpn Hnd].
  split; cbn; try done.
  - eapply is_fin_weaken; [exact (fin_sub Hq Hx)|]. rewrite Hsum. lra.
  - rewrite Hpr. apply set_eq. intros p'. rewrite elem_of_difference, !elem_of_list_to_set, Hperm. set_solver.
Qed.

Lemma popn_loop_runs n : ∀ rs w b qs,
  buf_ok w b qs → (n <= length (rs_ b))%nat →
  ∃ b', popn_loop n rs (w, b) = (Ret (rs ++ take n (rs_ b)), (w, b')) ∧ cap_ b' = cap_ b ∧
    rs_ b' = drop n (rs_ b) ∧ buf_ok w b' (drop n qs).
Proof.
  induction n as [|n IH]; intros rs w b qs Hok Hn.
  { exists b. by rewrite take_0, app_nil_r. }
  pose proof Hok as [Hq Hr Hnd Hpr]. destruct (rs_ b) as [|p rest] eqn:Hrs; [cbn in Hn; lia|].
  apply Forall2_cons_inv_l in Hr as (q & qs' & Hp & Hr & ->).
  destruct (quantity_runs w b p q (λ x wb, wb = (w, b) ∧ x ≃ q) Hp) as (x & ? & Hrun & -> & Hx); [done|].
  cbn [popn_loop]. rewrite (bind_ret buf _ _ _ _ eq_refl). cbn [snd]. rewrite Hrs, (bind_ret _ _ _ _ _ Hrun).
  set (b1 := mkBuf xq (qty_ b - x)%D (cap_ b) rest (rs_present_ b ∖ {[p]})).
  rewrite (bind_ret _ _ (w, b) tt (w, b1)) by done.
  destruct (IH (rs ++ [p]) w b1 qs') as (b' & Hrun' & Hcap & Hrs' & Hok').
  - eapply (taken_ok w b p q rest (q :: qs')); try done. by rewrite Hrs.
  - cbn in *. lia.
  - exists b'. rewrite Hrun'. cbn. by rewrite <-(assoc_L (++)).
Qed.

Lemma PopN_cases w b qs n :
  buf_ok w b qs →
  if decide (0 <= n <= Z.of_nat (length (rs_ b)))%Z then
    ∃ b', PopN n (w, b) = (Ret (take (Z.to_nat n) (rs_ b)), (w, b')) ∧ cap_ b' = cap_ b ∧
      rs_ b' = drop (Z.to_nat n) (rs_ b) ∧ buf_ok w b' (drop (Z.to_nat n) qs)
  else PopN n (w, b) = (Throw ValueError, (w, b)).
Proof.
  intros Hok. unfold PopN. rewrite (bind_ret buf _ _ _ _ eq_refl). cbn [snd].
  destruct (decide _) as [Hn|Hn].
  - replace ((_ <? n)%Z || (n <? 0)%Z) with false by lia.
    rewrite (bind_ret (require true ValueError) _ (w, b) tt (w, b) eq_refl).
    destruct (popn_loop_runs (Z.to_nat n) [] w b qs) as (b1 & Hrun & Hcap & Hrs & Hok1); [done|lia|].
    rewrite (bind_ret _ _ _ _ _ Hrun).
    destruct (UpdateQty_runs w b1 _ Hok1) as ([] & [w' b'] & Hrun' & Hw & Hok' & Hrs' & Hcap').
    cbn in Hw, Hok', Hrs', Hcap'. subst w'. rewrite (bind_ret _ _ _ _ _ Hrun'). exists b'. split_and!; try done; congruence.
  - replace ((_ <? n)%Z || (n <? 0)%Z) with true by lia. done.
Qed.

Lemma take_out_runs w b p q others qs qs' :
  buf_ok w b qs → rs_ b ≡ₚ p :: others → good w p q → Forall2 (good w) others qs' →
  (sumQ qs == q + sumQ qs')%Q →
  ∃ b', take_out p others (w, b) = (Ret p, (w, b')) ∧ cap_ b' = cap_ b ∧ rs_ b' = others ∧ buf_ok w b' qs'.
Proof.
  intros Hok Hperm Hp Hot Hsum. unfold take_out.
  set (b0 := erase_present p (set_rs others b)). rewrite (bind_ret _ _ (w, b) tt (w, b0)) by done.
  destruct (quantity_runs w b0 p q (λ x wb, wb = (w, b0) ∧ x ≃ q) Hp) as (x & ? & Hrun & -> & Hx); [done|].
  rewrite (bind_ret _ _ _ _ _ Hrun).
  set (b1 := mkBuf xq (qty_ b - x)%D (cap_ b) others (rs_present_ b ∖ {[p]})).
  rewrite (bind_ret _ _ (w, b0) tt (w, b1)) by done.
  destruct (UpdateQty_runs w b1 qs') as ([] & [w' b'] & Hrun' & Hw & Hok' & Hrs' & Hcap');
    [by eapply (taken_ok w b p q)|].
  cbn in Hw, Hok', Hrs', Hcap'. subst w'. rewrite (bind_ret _ _ _ _ _ Hrun'). by exists b'.
Qed.

Lemma PopFront_cases w b qs :
  buf_ok w b qs →
  match rs_ b with
  | [] => PopFront (w, b) = (Throw ValueError, (w, b))
  | p :: rest => ∃ b', PopFront (w, b) = (Ret p, (w, b')) ∧ cap_ b' = cap_ b ∧ rs_ b' = rest ∧
                   buf_ok w b' (tail qs)
  end.
Proof.
  intros Hok. unfold PopFront. rewrite (bind_ret buf _ _ _ _ eq_refl). cbn [snd].
  destruct (rs_ b) as [|p rest] eqn:Hrs; [done|]. pose proof (ok_res _ _ _ Hok) as Hr. rewrite Hrs in Hr.
  apply Forall2_cons_inv_l in Hr as (q & qs' & Hp & Hr & ->).
  eapply (take_out_runs w b p q); try done. by rewrite Hrs.
Qed.

Lemma PopBack_cases w b qs :
  buf_ok w b qs →
  match reverse (rs_ b) with
  | [] => PopBack (w, b) = (Throw ValueError, (w, b))
  | p :: rest => ∃ b' qs', PopBack (w, b) = (Ret p, (w, b')) ∧ cap_ b' = cap_ b ∧ rs_ b' = reverse rest ∧
                   buf_ok w b' qs'
  end.
Proof.
  intros Hok. unfold PopBack. rewrite (bind_ret buf _ _ _ _ eq_refl). cbn [snd].
  destruct (reverse (rs_ b)) as [|p rest] eqn:Hrs; [done|]. pose proof (ok_res _ _ _ Hok) as Hr.
  apply Forall2_reverse in Hr. rewrite Hrs in Hr.
  apply Forall2_cons_inv_l in Hr as (q & qs' & Hp & Hr & Hqs).
  destruct (take_out_runs w b p q (reverse rest) qs (reverse qs')) as (b' & Hrun & ?); try done.
  - by rewrite !reverse_Permutation, <-Hrs, reverse_Permutation.
  - by apply Forall2_reverse.
  - rewrite <-sumQ_cons. apply sumQ_perm. by rewrite reverse_Permutation, <-Hqs, reverse_Permutation.
  - by exists b', (reverse qs').
Qed.
End theory.
