(* ===== verification/ResBufProperties.v ===== *)
(** * Properties of resource containers

    The invariant of buffers over every sequence of operations, what [Pop] and [Push] do,
    and that a resource map is restored from its ids and values. *)

From Stdlib Require Import QArith Qabs Qminmax Lqa ZArith Lia.
From stdpp Require Import base list gmap strings.
From S2P Require Import Prelude Num Arithmetic CompMath Resource Material MaterialTheory MaterialProperties ResBuf ResourceLaws ResBufTheory.

#[local] Arguments sumQ : simpl never.


Section histories.
Context `{Limits xq} {e er : Q} `{!GoodLimits e er} `{Pyne xq}.
Context (T : ResClass) (good : World xq → ptr → Q → Prop) `{!ResLaws T good}.
Implicit Types (w : World xq) (b : ResBuf xq).










(** C14.  [Pop(qty)] hands out one resource of exactly the quantity asked for, takes
    exactly that much out of the buffer, oldest first, and touches no resource
    outside of the buffer. *)
Theorem pop_exact w b qs x k :
  res_inv w → buf_ok good w b qs → x ≃ k → (0 < k)%Q → (k <= sumQ qs)%Q →
  ∃ p w' b' qs', PopQty T x (w, b) = (Ret p, (w', b')) ∧ res_inv w' ∧ good w' p k ∧
    buf_ok good w' b' qs' ∧ (sumQ qs' == sumQ qs - k)%Q ∧ (p ∉ rs_ b') ∧ suffix (rs_ b') (rs_ b) ∧
    ∀ p' q', p' ∉ rs_ b → good w p' q' → good w' p' q'.
Proof.
  intros Hinv Hok Hx Hk Hle.
  destruct (PopQty_runs T good w b qs x k) as (p & [w' b'] & Hrun & qs' & ? & ? & ? & ? & ? & ? & _ & _ & Hot); try done.
  by exists p, w', b', qs'.
Qed.

(** Pushing a vector looks for each of its resources in the buffer, but not in
    the rest of the vector: a resource that is in the vector twice gets into the
    buffer twice and is counted twice. *)
Theorem push_vector_duplicates w b qs c p q :
  buf_ok good w b qs → cap_ok (cap_ b) c → good w p q → p ∉ rs_ b → fits (er := er) c (sumQ qs) (q + (q + 0)) →
  ∃ b', PushVec T [p; p] (w, b) = (Ret tt, (w, b')) ∧ rs_ b' = rs_ b ++ [p; p] ∧
    qty_ b' ≃ (sumQ qs + 2 * q)%Q ∧ ∀ qs', ¬ buf_ok good w b' qs'.
Proof.
  intros Hok Hcap Hp Hnin Hfit.
  assert (Forall2 (good w) [p; p] [q; q]) as Hps by (by repeat constructor).
  pose proof (PushVec_cases T good w b qs c [p; p] [q; q] Hok Hcap Hps) as HP.
  rewrite decide_True in HP by done. rewrite decide_False in HP.
  - destruct HP as (b' & Hrun & Hrs & _ & Hq & _). exists b'. split_and!; try done.
    + eapply is_fin_weaken; [exact Hq|]. rewrite sumQ_app, !sumQ_cons. change (sumQ []) with 0%Q. lra.
    + intros qs' [_ _ Hnd _]. rewrite Hrs in Hnd. apply NoDup_app in Hnd as (_ & _ & Hnd).
      apply NoDup_cons in Hnd as [Hn _]. apply Hn. by left.
  - intros [?|[?|[]%Exists_nil]%Exists_cons]%Exists_cons; done.
Qed.

(** [Push(r)] refuses a resource that does not fit, within the tolerance, or that
    is in the buffer already; otherwise the resource is the newest in the buffer, and
    a buffer that was within its capacity exceeds it by no more than the tolerance. *)
Theorem push_checked w b qs c p q :
  buf_ok good w b qs → cap_ok (cap_ b) c → good w p q →
  if decide (fits (er := er) c (sumQ qs) q) then
    if decide (p ∈ rs_ b) then Push T p (w, b) = (Throw KeyError, (w, b))
    else ∃ b', Push T p (w, b) = (Ret tt, (w, b')) ∧ rs_ b' = rs_ b ++ [p] ∧ cap_ b' = cap_ b ∧
               buf_ok good w b' (qs ++ [q]) ∧
               ∀ c', c = Some c' → (sumQ qs <= c' → sumQ (qs ++ [q]) <= c' + er)%Q
  else Push T p (w, b) = (Throw ValueError, (w, b)).
Proof.
  intros Hok Hcap Hp. pose proof (Push_cases T good w b qs c p q Hok Hcap Hp) as HP.
  destruct (decide (fits c (sumQ qs) q)) as [Hf|Hf]; [|done]. destruct (decide (p ∈ rs_ b)); [done|].
  destruct HP as (b' & Hrun & Hrs & Hc & Hok'). exists b'. split_and!; try done.
  intros c' -> Hle. cbn in Hf. rewrite sumQ_snoc. rewrite Q.max_r in Hf by lra. lra.
Qed.
End histories.

(** ** Restoring a map from object ids *)
Section restore.
Context {K : Type} `{Countable K} `{KeyOrder K} `{Limits xq} `{Pyne xq}.
Implicit Types (w : World xq) (m : ResMap K xq) (R : gmap K ptr).

Lemma foldl_insert {A KK X} `{Countable KK} (f : A → KK) (g : A → X) (l : list A) :
  foldl (λ (r : gmap KK X) x, <[f x := g x]> r) ∅ l = list_to_map (reverse (map (λ x, (f x, g x)) l)).
Proof.
  induction l as [|x l IH] using rev_ind; [done|]. rewrite foldl_snoc, IH, map_app, reverse_app. done.
Qed.

Lemma foldl_insert_lookup {A KK X} `{Countable KK} (f : A → KK) (g : A → X) (l : list A) x :
  NoDup (f <$> l) → x ∈ l → foldl (λ (r : gmap KK X) x, <[f x := g x]> r) ∅ l !! f x = Some (g x).
Proof.
  intros Hnd Hin. rewrite foldl_insert. apply elem_of_list_to_map_1.
  - rewrite reverse_Permutation. change (map ?h l) with (h <$> l). by rewrite <-list_fmap_compose.
  - rewrite reverse_Permutation. change (map ?h l) with (h <$> l). apply list_elem_of_fmap. by exists x.
Qed.

Lemma list_to_map_in_order R : list_to_map (in_order R) = R.
Proof.
  rewrite <-(list_to_map_to_list R) at 2. apply list_to_map_proper; [apply NoDup_fst_in_order|].
  apply in_order_perm.
Qed.

(** The object id of the resource at an address. *)
Definition oid w (p : ptr) : Z := from_option obj_id_ 0%Z (ress w !! p).

(** All values are resources, and no object is under two keys. *)
Definition map_ok w R : Prop :=
  (∀ k p, R !! k = Some p → is_Some (ress w !! p)) ∧
  (∀ k1 k2 p1 p2, R !! k1 = Some p1 → R !! k2 = Some p2 → oid w p1 = oid w p2 → k1 = k2).

Lemma collect_ids w m (l : list (K * ptr)) :
  Forall (λ kv, is_Some (ress w !! kv.2)) l →
  for_collect (λ kv, r ← lift_l (get_res kv.2); mret (kv.1, obj_id_ r)) l (w, m) =
    (Ret (prod_map id (oid w) <$> l), (w, m)).
Proof.
  induction 1 as [|[k p] l [r Hr] _ IH]; [done|]. cbn [snd] in Hr.
  eapply for_collect_cons; [|exact IH].
  rewrite (bind_ret _ _ _ r (w, m)); [cbn; unfold oid; by rewrite Hr|].
  unfold lift_l, get_res. cbn. rewrite (bind_ret get _ _ _ _ eq_refl). by rewrite Hr.
Qed.

Lemma get_obj_ids_spec w m :
  map_ok w (resources_ m) →
  ∃ m', get_obj_ids (w, m) = (Ret (oid w <$> resources_ m), (w, m')) ∧ resources_ m' = resources_ m.
Proof.
  intros [Hres _]. unfold get_obj_ids. rewrite (bind_ret rmap _ _ _ _ eq_refl). cbn [snd].
  erewrite bind_ret; [|apply collect_ids].
  - eexists. rewrite list_to_map_fmap, list_to_map_in_order. split; [reflexivity|done].
  - apply Forall_forall. intros [k p] Hin%elem_of_in_order. by eapply Hres.
Qed.

(** The keys found through the object ids. *)
Lemma key_of_oid w R (K0 : K) k p :
  map_ok w R → R !! k = Some p →
  at_default K0 (foldl (λ l kv, <[kv.2 := kv.1]> l) (∅ : gmap Z K) (in_order (oid w <$> R))) (oid w p) = k.
Proof.
  intros [_ Hinj] Hk. unfold at_default.
  rewrite (foldl_insert_lookup snd fst _ (k, oid w p)); [done| |].
  - apply NoDup_fmap_2_strong; [|eapply NoDup_fmap_1, NoDup_fst_in_order].
    intros [k1 i1] [k2 i2] Hi1%elem_of_in_order Hi2%elem_of_in_order Heq. cbn in Heq. subst i2.
    apply lookup_fmap_Some in Hi1 as (p1 & <- & Hi1). apply lookup_fmap_Some in Hi2 as (p2 & Heq & Hi2).
    by rewrite (Hinj k1 k2 p1 p2 Hi1 Hi2 (eq_sym Heq)).
  - apply elem_of_in_order. by rewrite lookup_fmap, Hk.
Qed.

Lemma restore_loop w (key : Z → K) vals m :
  (∀ p, p ∈ vals → is_Some (ress w !! p)) →
  ∃ m', for_each (λ p, r ← lift_l (get_res p);
       modify_map (λ m, set_resources (<[key (obj_id_ r) := p]> (resources_ m)) m)) vals (w, m) =
     (Ret tt, (w, m')) ∧ resources_ m' = foldl (λ r p, <[key (oid w p) := p]> r) (resources_ m) vals.
Proof.
  revert m. induction vals as [|p vals IH]; intros m Hv; [by exists m|].
  destruct (Hv p) as [r Hr]; [by left|].
  destruct (IH (set_resources (<[key (oid w p) := p]> (resources_ m)) m)) as (m' & Hrun & Hres).
  { intros p' Hp'. apply Hv. by right. }
  exists m'. split; [|done]. erewrite for_each_cons; [exact Hrun|].
  rewrite (bind_ret _ _ _ r (w, m)); [unfold oid; by rewrite Hr|].
  unfold lift_l, get_res. cbn. rewrite (bind_ret get _ _ _ _ eq_refl). by rewrite Hr.
Qed.

(** C40.  The restart protocol of a resource map is a round trip: when no object is
    under two keys, a fresh map that is given the object ids of the old one and the
    resources in any order has the same keys and resources. *)
Theorem res_map_restored w m m0 (K0 : K) vals :
  map_ok w (resources_ m) → resources_ m0 = ∅ → vals ≡ₚ (in_order (resources_ m)).*2 →
  ∃ ids m1 m2, get_obj_ids (w, m) = (Ret ids, (w, m1)) ∧
    (put_obj_ids ids;; set_Values K0 vals) (w, m0) = (Ret tt, (w, m2)) ∧
    resources_ m2 = resources_ m ∧ dirty_quantity_ m2 = true.
Proof.
  intros Hok H0' Hperm. destruct (get_obj_ids_spec w m Hok) as (m1 & Hids & _).
  set (R := resources_ m) in *. set (m3 := set_dirty (set_obj_ids (oid w <$> R) m0)).
  set (key := at_default K0 (foldl (λ l kv, <[kv.2 := kv.1]> l) (∅ : gmap Z K) (in_order (oid w <$> R)))).
  destruct (restore_loop w key vals m3) as (m2 & Hrun & Hres).
  { intros p. rewrite Hperm. intros ([k p'] & -> & Hin%elem_of_in_order)%list_elem_of_fmap.
    by eapply (proj1 Hok). }
  exists (oid w <$> R), m1, (set_dirty m2). split_and!; [done| | |done].
  - unfold put_obj_ids. rewrite (bind_ret _ _ (w, m0) tt (w, m3)) by done.
    unfold set_Values. rewrite (bind_ret rmap _ _ _ _ eq_refl). by rewrite (bind_ret _ _ _ _ _ Hrun).
  - cbn [resources_ set_dirty]. rewrite Hres. cbn [m3 resources_ set_dirty set_obj_ids]. rewrite H0'.
    rewrite (foldl_insert (λ p, key (oid w p)) id), <-(list_to_map_in_order R).
    assert (in_order R ≡ₚ reverse (map (λ p, (key (oid w p), id p)) vals)) as Hp.
    { rewrite reverse_Permutation, Hperm. change (map ?h ?l) with (h <$> l).
      rewrite <-list_fmap_compose. rewrite <-(list_fmap_id (in_order R)) at 1. erewrite list_fmap_ext; [done|].
      intros i [k p] Hi%list_elem_of_lookup_2%elem_of_in_order. cbn. f_equal. symmetry. by apply key_of_oid. }
    symmetry. by apply list_to_map_proper; [apply NoDup_fst_in_order|].
Qed.
End restore.

(** ** Witnesses *)
Module BufExample.
Import ResExample.
#[local] Existing Instance pyne.
#[local] Existing Instance default_limits.

Lemma world_inv : res_inv world.
Proof. split; [exact (proj1 world_ok)|vm_compute; discriminate]. Qed.
Lemma good_5 : good_mat world 5 8%Q.
Proof. split; [reflexivity|]. exists nat_u. split; [exact (proj1 (proj2 world_ok))|vm_compute; discriminate]. Qed.
Lemma good_6 : good_mat world 6 2%Q.
Proof. split; [reflexivity|]. exists leu. split; [exact (proj2 (proj2 world_ok))|vm_compute; discriminate]. Qed.

(** A buffer with both materials. *)
Definition both : ResBuf xq := mkBuf xq (nZ 10) ninf [5; 6]%Z (list_to_set [5; 6]%Z).
Lemma both_ok : buf_ok good_mat world both [8; 2]%Q.
Proof.
  split; cbn [both qty_ rs_ rs_present_].
  - vm_compute. reflexivity.
  - constructor; [exact good_5|]. constructor; [exact good_6|constructor].
  - apply (bool_decide_unpack (NoDup _)). vm_compute. exact I.
  - reflexivity.
Qed.


Definition map_56 : ResMap Z xq := mkResMap true (nZ 0) (list_to_map [(1%Z, 5%Z); (2%Z, 6%Z)]) ∅.

Lemma map_56_lookup k p :
  resources_ map_56 !! k = Some p → (k = 1 ∧ p = 5 ∨ k = 2 ∧ p = 6)%Z.
Proof.
  intros Hk. change (resources_ map_56) with (list_to_map [(1%Z, 5%Z); (2%Z, 6%Z)] : gmap Z ptr) in Hk.
  apply elem_of_list_to_map_2 in Hk. set_solver.
Qed.
Lemma map_56_ok : map_ok world (resources_ map_56).
Proof.
  split.
  - intros k p [[_ ->]|[_ ->]]%map_56_lookup; vm_compute; eauto.
  - intros k1 k2 p1 p2 [[-> ->]|[-> ->]]%map_56_lookup [[-> ->]|[-> ->]]%map_56_lookup Heq;
      try reflexivity; exfalso; vm_compute in Heq; discriminate Heq.
Qed.
End BufExample.
#[local] Existing Instance ResExample.pyne.
#[local] Existing Instance default_limits.


Lemma pop_exact_witness :
  ∃ p w' b' qs', @PopQty xq _ default_limits ResExample.pyne TMaterial (nZ 9)
      (ResExample.world, BufExample.both) = (Ret p, (w', b')) ∧
    @res_inv ResExample.pyne w' ∧ @good_mat ResExample.pyne w' p 9 ∧
    buf_ok (@good_mat ResExample.pyne) w' b' qs' ∧ (sumQ qs' == sumQ [8; 2] - 9)%Q ∧ (p ∉ rs_ b') ∧
    suffix (rs_ b') (rs_ BufExample.both) ∧
    ∀ p' q', p' ∉ rs_ BufExample.both → @good_mat ResExample.pyne ResExample.world p' q' →
      @good_mat ResExample.pyne w' p' q'.
Proof.
  exact (pop_exact TMaterial (@good_mat ResExample.pyne) ResExample.world BufExample.both [8; 2]%Q (nZ 9) 9
    BufExample.world_inv BufExample.both_ok (fin_Z 9) ltac:(reflexivity) ltac:(discriminate)).
Defined.

Lemma push_vector_duplicates_witness :
  ∃ b', @PushVec xq _ default_limits TMaterial [5; 5]%Z (ResExample.world, new_ResBuf) =
      (Ret tt, (ResExample.world, b')) ∧ rs_ b' = rs_ (@new_ResBuf xq _) ++ [5; 5]%Z ∧
    qty_ b' ≃ (sumQ [] + 2 * 8)%Q ∧ ∀ qs', ¬ buf_ok (@good_mat ResExample.pyne) ResExample.world b' qs'.
Proof.
  assert (buf_ok (@good_mat ResExample.pyne) ResExample.world new_ResBuf []) as Hok.
  { split; [exact (fin_Z 0)|constructor|constructor|reflexivity]. }
  apply (push_vector_duplicates TMaterial (@good_mat ResExample.pyne) ResExample.world new_ResBuf [] None 5 8 Hok).
  - reflexivity.
  - exact BufExample.good_5.
  - apply not_elem_of_nil.
  - exact I.
Defined.

Lemma push_checked_witness :
  @Push xq _ default_limits TMaterial 5%Z (ResExample.world, BufExample.both) =
    (Throw KeyError, (ResExample.world, BufExample.both)).
Proof.
  exact (push_checked TMaterial (@good_mat ResExample.pyne) ResExample.world BufExample.both [8; 2]%Q None 5 8
    BufExample.both_ok eq_refl BufExample.good_5).
Defined.

Lemma res_map_restored_witness :
  ∃ ids m1 m2, @get_obj_ids Z _ _ _ xq (ResExample.world, BufExample.map_56) = (Ret ids, (ResExample.world, m1)) ∧
    (put_obj_ids ids;; set_Values 0%Z [6; 5]%Z) (ResExample.world, new_ResMap) =
      (Ret tt, (ResExample.world, m2)) ∧
    resources_ m2 = resources_ BufExample.map_56 ∧ dirty_quantity_ m2 = true.
Proof.
  apply res_map_restored; [exact BufExample.map_56_ok|reflexivity|].
  vm_compute. constructor.
Defined.
