(* ===== verification/ExchangeGraph.v ===== *)
(** * The exchange graph

    [src/src/exchange_graph.h] and [.cc]: the bipartite, resource-neutral graph
    an exchange is translated to.  Nodes and groups live in two stores keyed by
    their addresses, since solvers and the preconditioner mutate them in place
    through shared pointers; arcs are values, keyed in maps by the addresses of
    their two nodes (the [operator<] of [Arc]). *)

From Stdlib Require Import ZArith Lia.
From stdpp Require Import base list gmap strings.
From S2P Require Import Prelude Num Arithmetic.

(** [boost::math::float_distance]: the signed number of representable values
    between two doubles.  Boost is not part of the repository: the function is a
    parameter of the model. *)
Class FloatDistance (F : Type) := float_distance : F → F → F.

(** ** Data *)
Record ExchangeNode {F : Type} := mkNode {
  group : option ptr;
  unit_capacities : gmap (ptr * ptr) (list F);
  prefs : gmap (ptr * ptr) F;
  exclusive : bool;
  commod : string;
  agent_id : Z;
  qty : F
}.
Arguments ExchangeNode F : clear implicits.

(** The constructor of an arc leaves [pref_] uninitialised: [None] until it is
    set. *)
Record Arc {F : Type} := mkArc {
  unode_ : ptr;
  vnode_ : ptr;
  exclusive_ : bool;
  excl_val_ : F;
  pref_ : option F
}.
Arguments Arc F : clear implicits.

(** [ExchangeNodeGroup], and its subclass [RequestGroup] when [rqty] is given. *)
Record ExchangeNodeGroup {F : Type} := mkGroup {
  nodes_ : list ptr;
  excl_node_groups_ : list (list ptr);
  capacities_ : list F;
  rqty : option F
}.
Arguments ExchangeNodeGroup F : clear implicits.

(** The graph, with the stores of the nodes and groups it points to. *)
Record ExchangeGraph {F : Type} := mkGraph {
  node_heap : gmap ptr (ExchangeNode F);
  group_heap : gmap ptr (ExchangeNodeGroup F);
  request_groups_ : list ptr;
  supply_groups_ : list ptr;
  node_arc_map_ : gmap ptr (list (Arc F));
  matches_ : list (Arc F * F);
  arcs_ : list (Arc F);
  arc_ids_ : gmap (ptr * ptr) Z;
  arc_by_id_ : gmap Z (Arc F);
  next_arc_id_ : Z
}.
Arguments ExchangeGraph F : clear implicits.

Section graph.
Context {F : Type} `{Num F} `{FloatDistance F}.
Implicit Types (g : ExchangeGraph F) (a : Arc F) (n : ExchangeNode F).

(** ** Setters *)
Definition set_node_heap (h : gmap ptr (ExchangeNode F)) g : ExchangeGraph F :=
  mkGraph F h (group_heap g) (request_groups_ g) (supply_groups_ g) (node_arc_map_ g)
    (matches_ g) (arcs_ g) (arc_ids_ g) (arc_by_id_ g) (next_arc_id_ g).
Definition set_group_heap (h : gmap ptr (ExchangeNodeGroup F)) g : ExchangeGraph F :=
  mkGraph F (node_heap g) h (request_groups_ g) (supply_groups_ g) (node_arc_map_ g)
    (matches_ g) (arcs_ g) (arc_ids_ g) (arc_by_id_ g) (next_arc_id_ g).
Definition set_request_groups (l : list ptr) g : ExchangeGraph F :=
  mkGraph F (node_heap g) (group_heap g) l (supply_groups_ g) (node_arc_map_ g)
    (matches_ g) (arcs_ g) (arc_ids_ g) (arc_by_id_ g) (next_arc_id_ g).
Definition set_supply_groups (l : list ptr) g : ExchangeGraph F :=
  mkGraph F (node_heap g) (group_heap g) (request_groups_ g) l (node_arc_map_ g)
    (matches_ g) (arcs_ g) (arc_ids_ g) (arc_by_id_ g) (next_arc_id_ g).
Definition set_matches (l : list (Arc F * F)) g : ExchangeGraph F :=
  mkGraph F (node_heap g) (group_heap g) (request_groups_ g) (supply_groups_ g)
    (node_arc_map_ g) l (arcs_ g) (arc_ids_ g) (arc_by_id_ g) (next_arc_id_ g).

(** ** Nodes *)
Definition node_qty_excl_commod_id (q : F) (excl : bool) (c : string) (id : Z) : ExchangeNode F :=
  mkNode F None ∅ ∅ excl c id q.
Definition node_qty_excl_commod (q : F) (excl : bool) (c : string) : ExchangeNode F :=
  mkNode F None ∅ ∅ excl c (-1) q.
Definition node_qty_excl (q : F) (excl : bool) : ExchangeNode F :=
  mkNode F None ∅ ∅ excl EmptyString (-1) q.
Definition node_qty (q : F) : ExchangeNode F :=
  mkNode F None ∅ ∅ false EmptyString (-1) q.
Definition node_default : ExchangeNode F :=
  mkNode F None ∅ ∅ false EmptyString (-1) ndblmax.

Definition set_group (gp : option ptr) n : ExchangeNode F :=
  mkNode F gp (unit_capacities n) (prefs n) (exclusive n) (commod n) (agent_id n) (qty n).
Definition set_unit_capacities (u : gmap (ptr * ptr) (list F)) n : ExchangeNode F :=
  mkNode F (group n) u (prefs n) (exclusive n) (commod n) (agent_id n) (qty n).
Definition set_prefs (p : gmap (ptr * ptr) F) n : ExchangeNode F :=
  mkNode F (group n) (unit_capacities n) p (exclusive n) (commod n) (agent_id n) (qty n).

(** [new ExchangeNode(...)] at the address [p]. *)
Definition alloc_node (p : ptr) n g : ExchangeGraph F := set_node_heap (<[p := n]> (node_heap g)) g.
Definition alloc_group (p : ptr) (gr : ExchangeNodeGroup F) g : ExchangeGraph F :=
  set_group_heap (<[p := gr]> (group_heap g)) g.

(** ** Arcs *)

(** The key an arc has in [std::map<Arc, T>]. *)
Definition arc_key a : ptr * ptr := (unode_ a, vnode_ a).

(** [Arc::Arc(unode, vnode)]: an arc is exclusive if one of its nodes is, and its
    exclusive value is the quantity of the exclusive node, provided the other
    node can meet it (up to [float_ulp_eq] ULPs). *)
Definition new_arc (u v : ptr) (un vn : ExchangeNode F) : Arc F :=
  let excl := exclusive un || exclusive vn in
  let fqty := qty un in
  let sqty := qty vn in
  let dist := float_distance fqty sqty in
  let excl_val :=
    if excl then
      if exclusive un && exclusive vn then
        if (nabs dist <=? float_ulp_eq)%D then fqty else nZ 0
      else if exclusive un then
        if (dist >=? nneg float_ulp_eq)%D then fqty else nZ 0
      else
        if (dist <=? float_ulp_eq)%D then sqty else nZ 0
    else nZ 0 in
  mkArc F u v excl excl_val None.

(** [a.pref(p)] *)
Definition set_pref (p : F) a : Arc F :=
  mkArc F (unode_ a) (vnode_ a) (exclusive_ a) (excl_val_ a) (Some p).

(** [Arc::Arc(const Arc&)] copies every member. *)
Definition arc_copy (other : Arc F) : Arc F :=
  mkArc F (unode_ other) (vnode_ other) (exclusive_ other) (excl_val_ other) (pref_ other).

(** [Arc::operator=] copies every member but [pref_]: the preference of the
    assigned-to arc stays. *)
Definition arc_assign (this other : Arc F) : Arc F :=
  mkArc F (unode_ other) (vnode_ other) (exclusive_ other) (excl_val_ other) (pref_ this).

Definition arc_lt (l r : Arc F) : bool :=
  (Z.ltb (unode_ l) (unode_ r)
   || (negb (Z.ltb (unode_ r) (unode_ l)) && Z.ltb (vnode_ l) (vnode_ r)))%bool.

Definition arc_eq (l r : Arc F) : bool :=
  (Z.eqb (unode_ l) (unode_ r) && Z.eqb (vnode_ l) (vnode_ r))%bool.

(** ** Groups *)
Definition new_supply_group : ExchangeNodeGroup F := mkGroup F [] [] [] None.
Definition new_request_group (q : F) : ExchangeNodeGroup F := mkGroup F [] [] [] (Some q).

Definition push_node (p : ptr) (gr : ExchangeNodeGroup F) : ExchangeNodeGroup F :=
  mkGroup F (nodes_ gr ++ [p]) (excl_node_groups_ gr) (capacities_ gr) (rqty gr).
Definition set_nodes (l : list ptr) (gr : ExchangeNodeGroup F) : ExchangeNodeGroup F :=
  mkGroup F l (excl_node_groups_ gr) (capacities_ gr) (rqty gr).

Definition AddExclGroup (nodes : list ptr) (gr : ExchangeNodeGroup F) : ExchangeNodeGroup F :=
  mkGroup F (nodes_ gr) (excl_node_groups_ gr ++ [nodes]) (capacities_ gr) (rqty gr).
Definition AddExclNode (p : ptr) (gr : ExchangeNodeGroup F) : ExchangeNodeGroup F :=
  AddExclGroup [p] gr.
Definition AddCapacity (c : F) (gr : ExchangeNodeGroup F) : ExchangeNodeGroup F :=
  mkGroup F (nodes_ gr) (excl_node_groups_ gr) (capacities_ gr ++ [c]) (rqty gr).

(** [gr->AddExchangeNode(node)]: the node learns its group; in a [RequestGroup] an
    exclusive node also becomes an exclusive group of its own. *)
Definition AddExchangeNode (gp p : ptr) g : ExchangeGraph F :=
  match group_heap g !! gp, node_heap g !! p with
  | Some gr, Some n =>
      let gr1 := push_node p gr in
      let gr2 := if is_Some_dec (rqty gr) then if exclusive n then AddExclNode p gr1 else gr1
                 else gr1 in
      set_group_heap (<[gp := gr2]> (group_heap g))
        (set_node_heap (<[p := set_group (Some gp) n]> (node_heap g)) g)
  | _, _ => g
  end.

(** [gr->HasArcs()]: some node of the group has a preference for an arc. *)
Definition HasArcs g (gr : ExchangeNodeGroup F) : bool :=
  existsb (λ p, match node_heap g !! p with
                | Some n => Nat.ltb 0 (size (prefs n))
                | None => false
                end) (nodes_ gr).

(** ** The graph *)
Definition new_graph : ExchangeGraph F := mkGraph F ∅ ∅ [] [] ∅ [] [] ∅ ∅ 0.

Definition AddRequestGroup (gp : ptr) g : ExchangeGraph F :=
  set_request_groups (request_groups_ g ++ [gp]) g.
Definition AddSupplyGroup (gp : ptr) g : ExchangeGraph F :=
  set_supply_groups (supply_groups_ g ++ [gp]) g.

(** [map::insert]: keeps the value of a key that is already there. *)
Definition insert_new {K A} `{Countable K} (k : K) (x : A) (m : gmap K A) : gmap K A :=
  match m !! k with Some _ => m | None => <[k := x]> m end.

(** [node_arc_map_[p].push_back(a)] *)
Definition push_arc (p : ptr) a (m : gmap ptr (list (Arc F))) : gmap ptr (list (Arc F)) :=
  <[p := at_default [] m p ++ [a]]> m.

Definition AddArc a g : ExchangeGraph F :=
  let id := next_arc_id_ g in
  mkGraph F (node_heap g) (group_heap g) (request_groups_ g) (supply_groups_ g)
    (push_arc (vnode_ a) a (push_arc (unode_ a) a (node_arc_map_ g)))
    (matches_ g) (arcs_ g ++ [a])
    (insert_new (arc_key a) id (arc_ids_ g))
    (insert_new id a (arc_by_id_ g))
    (id + 1).

Definition AddMatch a (q : F) g : ExchangeGraph F := set_matches (matches_ g ++ [(a, q)]) g.
Definition ClearMatches g : ExchangeGraph F := set_matches [] g.

(** ** Properties *)

(** The arcs incident to a node, in the order they were added (an arc from a
    node to itself is listed for both ends). *)
Definition incident (p : ptr) (l : list (Arc F)) : list (Arc F) :=
  l ≫= λ a, (if Z.eqb (unode_ a) p then [a] else []) ++ (if Z.eqb (vnode_ a) p then [a] else []).

(** The index structures of a graph agree with its vector of arcs. *)
Record graph_wf g : Prop := {
  wf_next : next_arc_id_ g = Z.of_nat (length (arcs_ g));
  wf_by_id : ∀ i, arc_by_id_ g !! i =
    if decide (0 ≤ i)%Z then arcs_ g !! Z.to_nat i else None;
  wf_ids : ∀ k i, arc_ids_ g !! k = Some i →
    ∃ a, arc_by_id_ g !! i = Some a ∧ arc_key a = k;
  wf_ids_dom : ∀ a, a ∈ arcs_ g → is_Some (arc_ids_ g !! arc_key a);
  wf_incident : ∀ p, at_default [] (node_arc_map_ g) p = incident p (arcs_ g)
}.

Lemma new_graph_wf : graph_wf new_graph.
Proof.
  split; simpl; try done.
  - intros i. rewrite lookup_empty. by destruct (decide _).
  - by intros a ?%elem_of_nil.
Qed.

Lemma lookup_push_arc p p' a m :
  at_default [] (push_arc p a m) p' =
  at_default [] m p' ++ (if Z.eqb p p' then [a] else []).
Proof.
  unfold at_default, push_arc. destruct (Z.eqb_spec p p') as [->|Hne].
  - by rewrite lookup_insert_eq.
  - by rewrite lookup_insert_ne, app_nil_r.
Qed.

Lemma incident_app p l1 l2 : incident p (l1 ++ l2) = incident p l1 ++ incident p l2.
Proof. apply bind_app. Qed.

Lemma elem_of_incident p a l :
  a ∈ incident p l ↔ a ∈ l ∧ (unode_ a = p ∨ vnode_ a = p).
Proof.
  unfold incident. rewrite list_elem_of_bind. split.
  - intros (b & Hb & Hin).
    destruct (Z.eqb_spec (unode_ b) p), (Z.eqb_spec (vnode_ b) p); set_solver.
  - intros [Hin Hp]. exists a. split; [|done]. apply elem_of_app.
    destruct Hp as [<-|<-]; rewrite Z.eqb_refl; [left|right]; by apply list_elem_of_singleton.
Qed.

Lemma AddArc_by_id g a i :
  graph_wf g →
  arc_by_id_ (AddArc a g) !! i =
    if decide (0 ≤ i)%Z then (arcs_ g ++ [a]) !! Z.to_nat i else None.
Proof.
  intros Hwf. simpl. unfold insert_new. rewrite (wf_by_id g Hwf (next_arc_id_ g)).
  rewrite (wf_next g Hwf). rewrite decide_True by lia. rewrite Nat2Z.id.
  rewrite lookup_ge_None_2 by lia. rewrite lookup_insert.
  destruct (decide (Z.of_nat (length (arcs_ g)) = i)) as [<-|Hne].
  - rewrite decide_True by lia. by rewrite Nat2Z.id, list_lookup_middle.
  - rewrite (wf_by_id g Hwf). destruct (decide (0 ≤ i)%Z); [|done].
    destruct (decide (Z.to_nat i < length (arcs_ g))) as [Hlt|Hge].
    + by rewrite lookup_app_l.
    + rewrite !lookup_ge_None_2; [done| |lia]. rewrite length_app. simpl. lia.
Qed.

Lemma AddArc_preserves_wf g a : graph_wf g → graph_wf (AddArc a g).
Proof.
  intros Hwf. split.
  - simpl. rewrite (wf_next g Hwf), length_app. simpl. lia.
  - intros i. rewrite (AddArc_by_id g a i Hwf). done.
  - intros k i Hk. rewrite (AddArc_by_id g a i Hwf). simpl in Hk. unfold insert_new in Hk.
    assert (arc_ids_ g !! k = Some i ∨ (k = arc_key a ∧ i = next_arc_id_ g)) as Hcase.
    { destruct (arc_ids_ g !! arc_key a) eqn:E; [by left|].
      rewrite lookup_insert in Hk. destruct (decide (arc_key a = k)) as [<-|]; [|by left].
      right. by simplify_eq. }
    destruct Hcase as [Hold|[-> ->]].
    + destruct (wf_ids g Hwf k i Hold) as (b & Hb & Hkey). exists b. split; [|done].
      rewrite (wf_by_id g Hwf) in Hb. destruct (decide (0 ≤ i)%Z); [|done].
      by apply lookup_app_l_Some.
    + exists a. split; [|done]. rewrite (wf_next g Hwf), decide_True by lia.
      by rewrite Nat2Z.id, list_lookup_middle.
  - intros b Hb. simpl. unfold insert_new. simpl in Hb.
    apply elem_of_app in Hb as [Hb|Hb].
    + pose proof (wf_ids_dom g Hwf b Hb).
      destruct (arc_ids_ g !! arc_key a); [done|]. rewrite lookup_insert.
      by destruct (decide _).
    + apply list_elem_of_singleton in Hb as ->.
      destruct (arc_ids_ g !! arc_key a) eqn:E; [by rewrite E|].
      by rewrite lookup_insert_eq.
  - intros p. simpl. rewrite !lookup_push_arc, (wf_incident g Hwf), incident_app.
    rewrite <-app_assoc. f_equal. unfold incident. simpl. by rewrite app_nil_r.
Qed.
End graph.

#[export] Hint Resolve new_graph_wf AddArc_preserves_wf : cyclus.
