(* ===== verification/Portfolio.v ===== *)
(** * Requests, bids and portfolios

    [src/src/request.h], [bid.h], [request_portfolio.h], [bid_portfolio.h],
    [capacity_constraint.h] and [exchange_context.h], and the state that a resource
    exchange works on.  Requests, bids and portfolios refer to each other by
    pointers and live in stores. *)

From Stdlib Require Import QArith Qabs Lqa ZArith Lia.
From stdpp Require Import base list gmap strings.
From S2P Require Import Prelude Num Arithmetic CompMath Resource ExchangeGraph.

(** ** Data *)

(** [Converter<T>] and its subclasses; that of an archetype outside of the program
    is a function of the resources and the offer. *)
Inductive Converter {F : Type} :=
  | TrivialConverter
  | QtyCoeffConverter (coeffs : gmap ptr F)
  | UserConverter (convert : World F → ptr → F).
Arguments Converter F : clear implicits.

Record CapacityConstraint {F : Type} := mkConstraint {
  capacity_ : F;
  converter_ : Converter F;
  constr_id : Z
}.
Arguments CapacityConstraint F : clear implicits.

Record Request {F : Type} := mkRequest {
  target_ : ptr;
  requester_ : ptr;
  commodity_ : string;
  preference_ : F;
  rq_portfolio : ptr;
  rq_exclusive : bool
}.
Arguments Request F : clear implicits.

Record Bid {F : Type} := mkBid {
  request_ : ptr;
  offer_ : ptr;
  bidder_ : ptr;
  bd_portfolio : ptr;
  bd_exclusive : bool;
  bd_preference : F
}.
Arguments Bid F : clear implicits.

Record RequestPortfolio {F : Type} := mkRequestPortfolio {
  rp_requests : list ptr;
  mass_coeffs_ : gmap ptr F;
  rp_constraints : list (CapacityConstraint F);
  rp_qty : F;
  rp_requester : option ptr
}.
Arguments RequestPortfolio F : clear implicits.

Record BidPortfolio {F : Type} := mkBidPortfolio {
  bp_bids : gset ptr;
  bp_constraints : list (CapacityConstraint F);
  bp_bidder : option ptr
}.
Arguments BidPortfolio F : clear implicits.

Record ExchangeContext {F : Type} := mkExCtx {
  ex_requests : list ptr;
  ex_bids : list ptr;
  requesters : gset ptr;
  bidders : gset ptr;
  commod_requests : gmap string (list ptr);
  bids_by_request : gmap ptr (list ptr);
  trader_prefs : gmap ptr (gmap ptr (gmap ptr F))
}.
Arguments ExchangeContext F : clear implicits.

Record ExchangeTranslationContext := mkXlat {
  request_to_node : gmap ptr ptr;
  node_to_request : gmap ptr ptr;
  bid_to_node : gmap ptr ptr;
  node_to_bid : gmap ptr ptr
}.

(** The state of an exchange: the resources, the stores of requests, bids and
    portfolios, the exchange context and what the translator builds. *)
Record DRE {F : Type} := mkDRE {
  d_world : World F;
  d_reqs : gmap ptr (Request F);
  d_bids : gmap ptr (Bid F);
  d_rports : gmap ptr (RequestPortfolio F);
  d_bports : gmap ptr (BidPortfolio F);
  d_next_constr : Z;
  d_next : ptr;
  d_ctx : ExchangeContext F;
  d_xlat : ExchangeTranslationContext;
  d_graph : ExchangeGraph F
}.
Arguments DRE F : clear implicits.

Section portfolio.
Context {F : Type} `{Num F}.
Local Abbreviation D := (M (DRE F)).
Implicit Types s : DRE F.

Definition set_world (x : World F) s : DRE F :=
  mkDRE F x (d_reqs s) (d_bids s) (d_rports s) (d_bports s) (d_next_constr s) (d_next s) (d_ctx s) (d_xlat s) (d_graph s).
Definition set_reqs (x : gmap ptr (Request F)) s : DRE F :=
  mkDRE F (d_world s) x (d_bids s) (d_rports s) (d_bports s) (d_next_constr s) (d_next s) (d_ctx s) (d_xlat s) (d_graph s).
Definition set_bids (x : gmap ptr (Bid F)) s : DRE F :=
  mkDRE F (d_world s) (d_reqs s) x (d_rports s) (d_bports s) (d_next_constr s) (d_next s) (d_ctx s) (d_xlat s) (d_graph s).
Definition set_rports (x : gmap ptr (RequestPortfolio F)) s : DRE F :=
  mkDRE F (d_world s) (d_reqs s) (d_bids s) x (d_bports s) (d_next_constr s) (d_next s) (d_ctx s) (d_xlat s) (d_graph s).
Definition set_bports (x : gmap ptr (BidPortfolio F)) s : DRE F :=
  mkDRE F (d_world s) (d_reqs s) (d_bids s) (d_rports s) x (d_next_constr s) (d_next s) (d_ctx s) (d_xlat s) (d_graph s).
Definition set_next_constr (x : Z) s : DRE F :=
  mkDRE F (d_world s) (d_reqs s) (d_bids s) (d_rports s) (d_bports s) x (d_next s) (d_ctx s) (d_xlat s) (d_graph s).
Definition set_next (x : ptr) s : DRE F :=
  mkDRE F (d_world s) (d_reqs s) (d_bids s) (d_rports s) (d_bports s) (d_next_constr s) x (d_ctx s) (d_xlat s) (d_graph s).
Definition set_ctx (x : ExchangeContext F) s : DRE F :=
  mkDRE F (d_world s) (d_reqs s) (d_bids s) (d_rports s) (d_bports s) (d_next_constr s) (d_next s) x (d_xlat s) (d_graph s).
Definition set_xlat (x : ExchangeTranslationContext) s : DRE F :=
  mkDRE F (d_world s) (d_reqs s) (d_bids s) (d_rports s) (d_bports s) (d_next_constr s) (d_next s) (d_ctx s) x (d_graph s).
Definition set_dgraph (x : ExchangeGraph F) s : DRE F :=
  mkDRE F (d_world s) (d_reqs s) (d_bids s) (d_rports s) (d_bports s) (d_next_constr s) (d_next s) (d_ctx s) (d_xlat s) x.

(** Reading objects through their pointers, and allocating. *)
Definition read {A} (h : DRE F → gmap ptr A) (p : ptr) : D A :=
  s ← get; from_option_or Undefined (h s !! p).
Definition new_ptr : D ptr := s ← get; modify (set_next (d_next s + 1)%Z);; mret (d_next s).
(** [r->quantity()] *)
Definition res_quantity (p : ptr) : D F := res_qty <$> read (λ s, ress (d_world s)) p.

Definition put_rport (p : ptr) (x : RequestPortfolio F) : D unit :=
  modify (λ s, set_rports (<[p := x]> (d_rports s)) s).
Definition put_bport (p : ptr) (x : BidPortfolio F) : D unit :=
  modify (λ s, set_bports (<[p := x]> (d_bports s)) s).

(** ** Capacity constraints *)

(** The constructors take an id before they look at the capacity; a copy gets an
    id of its own. *)
Definition next_constr_id : D Z :=
  s ← get; modify (set_next_constr (d_next_constr s + 1)%Z);; mret (d_next_constr s).
Definition new_constraint (cap : F) (conv : Converter F) : D (CapacityConstraint F) :=
  id ← next_constr_id;
  require (negb (cap <=? nZ 0)%D) ValueError;;
  mret (mkConstraint F cap conv id).
Definition new_trivial_constraint (cap : F) : D (CapacityConstraint F) := new_constraint cap TrivialConverter.
Definition copy_constraint (c : CapacityConstraint F) : D (CapacityConstraint F) :=
  id ← next_constr_id; mret (mkConstraint F (capacity_ c) (converter_ c) id).

(** [constraints_.insert(c)]: the place is that of [c]'s id, the element a copy. *)
Fixpoint insert_constraint (id : Z) (c : CapacityConstraint F) (l : list (CapacityConstraint F)) :
    list (CapacityConstraint F) :=
  match l with
  | [] => [c]
  | d :: l' => if (id <? constr_id d)%Z then c :: l else d :: insert_constraint id c l'
  end.

(** [convert(offer, a, ctx)] *)
Definition convert (c : Converter F) (offer : ptr) (unode : ptr) : D F :=
  match c with
  | TrivialConverter => res_quantity offer
  | QtyCoeffConverter coeffs =>
      q ← res_quantity offer;
      s ← get;
      r ← from_option_or OutOfRange (node_to_request (d_xlat s) !! unode);
      x ← from_option_or OutOfRange (coeffs !! r);
      mret (q * x)%D
  | UserConverter f => s ← get; mret (f (d_world s) offer)
  end.

(** ** Request portfolios *)
Definition kDefaultPref : F := nZ 1.

Definition new_request_portfolio : D ptr :=
  p ← new_ptr; put_rport p (mkRequestPortfolio F [] ∅ [] (nZ 0) None);; mret p.

(** [VerifyRequester_(r)] *)
Definition VerifyRequester_ (port requester : ptr) : D unit :=
  rp ← read d_rports port;
  match rp_requester rp with
  | None => put_rport port (mkRequestPortfolio F (rp_requests rp) (mass_coeffs_ rp) (rp_constraints rp)
              (rp_qty rp) (Some requester))
  | Some t => require (t =? requester)%Z KeyError
  end.

(** [AddRequest(target, requester, commodity, preference, exclusive, cost_function)];
    the cost function is only kept for the bidders to call. *)
Definition AddRequest (port target requester : ptr) (commodity : string) (preference : F)
    (exclusive : bool) : D ptr :=
  r ← new_ptr;
  modify (λ s, set_reqs (<[r := mkRequest F target requester commodity preference port exclusive]> (d_reqs s)) s);;
  VerifyRequester_ port requester;;
  q ← res_quantity target;
  rp ← read d_rports port;
  put_rport port (mkRequestPortfolio F (rp_requests rp ++ [r]) (<[r := nZ 1]> (mass_coeffs_ rp))
    (rp_constraints rp) (rp_qty rp + q)%D (rp_requester rp));;
  mret r.

(** [AddMutualReqs(rs)] *)
Definition target_quantity (r : ptr) : D F := rq ← read d_reqs r; res_quantity (target_ rq).
Definition add_mutual (avg_qty : F) (rp : RequestPortfolio F) (rq : ptr * F) : RequestPortfolio F :=
  mkRequestPortfolio F (rp_requests rp) (<[rq.1 := (rq.2 / avg_qty)%D]> (mass_coeffs_ rp))
    (rp_constraints rp) (rp_qty rp - rq.2)%D (rp_requester rp).
Definition AddMutualReqs (port : ptr) (rs : list ptr) : D unit :=
  qs ← for_collect target_quantity rs;
  let avg_qty := (foldl nadd (nZ 0) qs / nZ (Z.of_nat (length rs)))%D in
  rp ← read d_rports port;
  let rp1 := foldl (add_mutual avg_qty) rp (zip rs qs) in
  put_rport port (mkRequestPortfolio F (rp_requests rp1) (mass_coeffs_ rp1) (rp_constraints rp1)
    (rp_qty rp1 + avg_qty)%D (rp_requester rp1)).

Definition rp_AddConstraint (port : ptr) (c : CapacityConstraint F) : D unit :=
  c' ← copy_constraint c;
  rp ← read d_rports port;
  put_rport port (mkRequestPortfolio F (rp_requests rp) (mass_coeffs_ rp)
    (insert_constraint (constr_id c) c' (rp_constraints rp)) (rp_qty rp) (rp_requester rp)).

Definition qty_converter (rp : RequestPortfolio F) : Converter F := QtyCoeffConverter (mass_coeffs_ rp).

(** ** Bid portfolios *)
Definition new_bid_portfolio : D ptr :=
  p ← new_ptr; put_bport p (mkBidPortfolio F ∅ [] None);; mret p.

Definition VerifyResponder_ (port bidder : ptr) : D unit :=
  bp ← read d_bports port;
  match bp_bidder bp with
  | None => put_bport port (mkBidPortfolio F (bp_bids bp) (bp_constraints bp) (Some bidder))
  | Some t => require (t =? bidder)%Z KeyError
  end.

(** [AddBid(request, offer, bidder, exclusive, preference)]; without a preference
    it is NaN. *)
Definition AddBid (port request offer bidder : ptr) (exclusive : bool) (preference : F) : D ptr :=
  b ← new_ptr;
  modify (λ s, set_bids (<[b := mkBid F request offer bidder port exclusive preference]> (d_bids s)) s);;
  VerifyResponder_ port bidder;;
  q ← res_quantity offer;
  require (q >? nZ 0)%D ValueError;;
  bp ← read d_bports port;
  put_bport port (mkBidPortfolio F ({[b]} ∪ bp_bids bp) (bp_constraints bp) (bp_bidder bp));;
  mret b.
Definition AddBid_default (port request offer bidder : ptr) (exclusive : bool) : D ptr :=
  AddBid port request offer bidder exclusive nnan.

Definition bp_AddConstraint (port : ptr) (c : CapacityConstraint F) : D unit :=
  c' ← copy_constraint c;
  bp ← read d_bports port;
  put_bport port (mkBidPortfolio F (bp_bids bp) (insert_constraint (constr_id c) c' (bp_constraints bp)) (bp_bidder bp)).

(** ** The exchange context *)
Definition new_ex_ctx : ExchangeContext F := mkExCtx F [] [] ∅ ∅ ∅ ∅ ∅.

Definition ctx_AddRequest (r : ptr) : D unit :=
  rq ← read d_reqs r;
  modify (λ s, let c := d_ctx s in
    set_ctx (mkExCtx F (ex_requests c) (ex_bids c) ({[requester_ rq]} ∪ requesters c) (bidders c)
      (<[commodity_ rq := at_default [] (commod_requests c) (commodity_ rq) ++ [r]]> (commod_requests c))
      (bids_by_request c) (trader_prefs c)) s).

Definition AddRequestPortfolio (port : ptr) : D unit :=
  modify (λ s, let c := d_ctx s in
    set_ctx (mkExCtx F (ex_requests c ++ [port]) (ex_bids c) (requesters c) (bidders c)
      (commod_requests c) (bids_by_request c) (trader_prefs c)) s);;
  rp ← read d_rports port;
  for_each ctx_AddRequest (rp_requests rp).

(** The preference of a bid that brings none is that of the request. *)
Definition default_pref (rq : Request F) (bd : Bid F) : F :=
  if nisnan (bd_preference bd) then preference_ rq else bd_preference bd.

Definition insert_pref (t r b : ptr) (x : F) (m : gmap ptr (gmap ptr (gmap ptr F))) :
    gmap ptr (gmap ptr (gmap ptr F)) :=
  let prefs := at_default ∅ m t in
  <[t := <[r := insert_new b x (at_default ∅ prefs r)]> prefs]> m.

Definition ctx_AddBid (b : ptr) : D unit :=
  bd ← read d_bids b;
  rq ← read d_reqs (request_ bd);
  modify (λ s, let c := d_ctx s in
    set_ctx (mkExCtx F (ex_requests c) (ex_bids c) (requesters c) ({[bidder_ bd]} ∪ bidders c)
      (commod_requests c)
      (<[request_ bd := at_default [] (bids_by_request c) (request_ bd) ++ [b]]> (bids_by_request c))
      (insert_pref (requester_ rq) (request_ bd) b (default_pref rq bd) (trader_prefs c))) s).

Definition AddBidPortfolio (port : ptr) : D unit :=
  modify (λ s, let c := d_ctx s in
    set_ctx (mkExCtx F (ex_requests c) (ex_bids c ++ [port]) (requesters c) (bidders c)
      (commod_requests c) (bids_by_request c) (trader_prefs c)) s);;
  bp ← read d_bports port;
  for_each ctx_AddBid (set_in_order (bp_bids bp)).
End portfolio.
