(* ===== verification/Translator.v ===== *)
(** * Translation to the exchange graph and back

    [src/src/exchange_translator.h], over the state of [Portfolio]. *)

From Stdlib Require Import QArith Qabs Lqa ZArith Lia.
From stdpp Require Import base list gmap strings.
From S2P Require Import Prelude Num Arithmetic CompMath Resource ExchangeGraph Portfolio.

(** [Trade<T>]; the price is not used. *)
Record Trade {F : Type} := mkTrade {
  tr_request : ptr;
  tr_bid : ptr;
  amt : F;
  price : F
}.
Arguments Trade F : clear implicits.

Section translator.
Context {F : Type} `{Num F} `{FloatDistance F}.
(** [trader->manager()->id()] *)
Context (manager_id : ptr → Z).
Local Abbreviation D := (M (DRE F)).

Definition modify_graph (f : ExchangeGraph F → ExchangeGraph F) : D unit :=
  modify (λ s, set_dgraph (f (d_graph s)) s).
Definition modify_node (p : ptr) (f : ExchangeNode F → ExchangeNode F) : D unit :=
  modify_graph (λ g, set_node_heap (alter f p (node_heap g)) g).
Definition modify_group (p : ptr) (f : ExchangeNodeGroup F → ExchangeNodeGroup F) : D unit :=
  modify_graph (λ g, set_group_heap (alter f p (group_heap g)) g).

(** [AddRequest(translation_ctx, r, n)] and [AddBid(translation_ctx, b, n)] *)
Definition xlat_AddRequest (r n : ptr) : D unit :=
  modify (λ s, let x := d_xlat s in
    set_xlat (mkXlat (<[r := n]> (request_to_node x)) (<[n := r]> (node_to_request x))
      (bid_to_node x) (node_to_bid x)) s).
Definition xlat_AddBid (b n : ptr) : D unit :=
  modify (λ s, let x := d_xlat s in
    set_xlat (mkXlat (request_to_node x) (node_to_request x)
      (<[b := n]> (bid_to_node x)) (<[n := b]> (node_to_bid x))) s).

(** [TranslateRequestPortfolio(translation_ctx, rp)] *)
Definition translate_request (rs r : ptr) : D unit :=
  rq ← read d_reqs r;
  q ← res_quantity (target_ rq);
  n ← new_ptr;
  modify_graph (alloc_node n (node_qty_excl_commod_id q (rq_exclusive rq) (commodity_ rq)
    (manager_id (requester_ rq))));;
  modify_graph (AddExchangeNode rs n);;
  xlat_AddRequest r n.
Definition TranslateRequestPortfolio (port : ptr) : D ptr :=
  rp ← read d_rports port;
  rs ← new_ptr;
  modify_graph (alloc_group rs (new_request_group (rp_qty rp)));;
  for_each (translate_request rs) (rp_requests rp);;
  for_each (λ c, modify_group rs (AddCapacity (capacity_ c))) (rp_constraints rp);;
  mret rs.

(** [TranslateBidPortfolio(translation_ctx, bp)]: exclusive bids of one resource are
    mutually exclusive. *)
Definition push_excl (offer n : ptr) (m : gmap ptr (list ptr)) : gmap ptr (list ptr) :=
  <[offer := at_default [] m offer ++ [n]]> m.
Definition translate_bid (bs b : ptr) : D (list (ptr * ptr)) :=
  bd ← read d_bids b;
  q ← res_quantity (offer_ bd);
  rq ← read d_reqs (request_ bd);
  n ← new_ptr;
  modify_graph (alloc_node n (node_qty_excl_commod_id q (bd_exclusive bd) (commodity_ rq)
    (manager_id (bidder_ bd))));;
  modify_graph (AddExchangeNode bs n);;
  xlat_AddBid b n;;
  mret (if bd_exclusive bd then [(offer_ bd, n)] else []).
Definition TranslateBidPortfolio (port : ptr) : D ptr :=
  bp ← read d_bports port;
  bs ← new_ptr;
  modify_graph (alloc_group bs new_supply_group);;
  excl ← for_collect (translate_bid bs) (set_in_order (bp_bids bp));
  let excl_bid_grps := foldl (λ m on, push_excl on.1 on.2 m) (∅ : gmap ptr (list ptr)) (concat excl) in
  for_each (λ kv, modify_group bs (AddExclGroup kv.2)) (in_order excl_bid_grps);;
  for_each (λ c, modify_group bs (AddCapacity (capacity_ c))) (bp_constraints bp);;
  mret bs.

(** [TranslateCapacities(offer, constr, n, a, ctx)] *)
Definition push_unit (k : ptr * ptr) (u : F) (n : ExchangeNode F) : ExchangeNode F :=
  set_unit_capacities (<[k := at_default [] (unit_capacities n) k ++ [u]]> (unit_capacities n)) n.
Definition TranslateCapacities (offer : ptr) (constr : list (CapacityConstraint F)) (n : ptr)
    (k : ptr * ptr) : D unit :=
  for_each (λ c,
    x ← convert (converter_ c) offer k.1;
    q ← res_quantity offer;
    modify_node n (push_unit k (x / q)%D)) constr.

(** [TranslateArc(translation_ctx, bid, pref)] *)
Definition TranslateArc (b : ptr) (pref : F) : D (Arc F) :=
  bd ← read d_bids b;
  s ← get;
  u ← from_option_or OutOfRange (request_to_node (d_xlat s) !! request_ bd);
  v ← from_option_or OutOfRange (bid_to_node (d_xlat s) !! b);
  un ← from_option_or Undefined (node_heap (d_graph s) !! u);
  vn ← from_option_or Undefined (node_heap (d_graph s) !! v);
  let a := set_pref pref (new_arc u v un vn) in
  rq ← read d_reqs (request_ bd);
  bp ← read d_bports (bd_portfolio bd);
  rp ← read d_rports (rq_portfolio rq);
  TranslateCapacities (offer_ bd) (bp_constraints bp) v (u, v);;
  TranslateCapacities (offer_ bd) (rp_constraints rp) u (u, v);;
  mret a.

(** [AddArc(req, bid, graph)]: [at] throws, and the two [[]] insert a zero where
    there is no entry. *)
Definition pref_of (c : ExchangeContext F) (t r b : ptr) : option F :=
  prefs ← trader_prefs c !! t;
  mret (at_default (nZ 0) (at_default ∅ prefs r) b).
Definition xlat_AddArc (r b : ptr) : D unit :=
  rq ← read d_reqs r;
  s ← get;
  pref ← from_option_or OutOfRange (pref_of (d_ctx s) (requester_ rq) r b);
  modify (λ s, let c := d_ctx s in
    set_ctx (mkExCtx F (ex_requests c) (ex_bids c) (requesters c) (bidders c) (commod_requests c)
      (bids_by_request c) (insert_pref (requester_ rq) r b (nZ 0) (trader_prefs c))) s);;
  if (pref <? nZ 0)%D then mret tt
  else if (pref =? nZ 0)%D then throw ValueError
  else
    a ← TranslateArc b pref;
    modify_node (unode_ a) (λ n, set_prefs (<[arc_key a := pref]> (prefs n)) n);;
    modify_graph (AddArc a).

(** [Translate()] *)
Definition translate_requests (port : ptr) : D unit :=
  rp ← read d_rports port;
  c ← new_constraint (rp_qty rp) (qty_converter rp);
  rp_AddConstraint port c;;
  rs ← TranslateRequestPortfolio port;
  modify_graph (AddRequestGroup rs).
Definition translate_bids (port : ptr) : D unit :=
  bs ← TranslateBidPortfolio port;
  modify_graph (AddSupplyGroup bs);;
  bp ← read d_bports port;
  for_each (λ b, bd ← read d_bids b; xlat_AddArc (request_ bd) b) (set_in_order (bp_bids bp)).
Definition Translate : D unit :=
  modify (set_dgraph new_graph);;
  s ← get;
  for_each translate_requests (ex_requests (d_ctx s));;
  for_each translate_bids (ex_bids (d_ctx s)).

(** [BackTranslateMatch(translation_ctx, match)], [BackTranslateSolution(matches, ret)] *)
Definition BackTranslateMatch (m : Arc F * F) : D (Trade F) :=
  s ← get;
  r ← from_option_or OutOfRange (node_to_request (d_xlat s) !! unode_ m.1);
  b ← from_option_or OutOfRange (node_to_bid (d_xlat s) !! vnode_ m.1);
  mret (mkTrade F r b m.2 (nZ 0)).
Definition BackTranslateSolution (matches : list (Arc F * F)) : D (list (Trade F)) :=
  for_collect BackTranslateMatch matches.
End translator.
