(* ===== verification/TranslatorTheory.v ===== *)
(** * The translator implements the exchange context

    The graph that [Translate] builds has the groups, nodes and arcs of the portfolios of
    an exchange, and [BackTranslateSolution] inverts it on matches. *)

From Stdlib Require Import QArith Qabs Lqa ZArith Lia.
From stdpp Require Import base list gmap strings.
From S2P Require Import Prelude Num Arithmetic CompMath Resource ExchangeGraph Portfolio Translator.

Section theory.
Context {F : Type} `{Num F} `{FloatDistance F}.
Context (manager_id : ptr → Z).
Implicit Types (s : DRE F) (r b n p : ptr).

(** ** What the translation does not change

    Resources, requests, bids and bid portfolios; the requests, coefficients and
    quantity of the request portfolios, which get one more constraint; and the
    preferences. *)
Definition quantity_of s p : option F := res_qty <$> ress (d_world s) !! p.
Definition conv_ok (rs : ptr → Prop) (c : CapacityConstraint F) : Prop :=
  match converter_ c with
  | QtyCoeffConverter m => ∀ r, rs r → is_Some (m !! r)
  | _ => True
  end.

Record static s s' : Prop := {
  st_world : d_world s' = d_world s;
  st_reqs : d_reqs s' = d_reqs s;
  st_bids : d_bids s' = d_bids s;
  st_bports : d_bports s' = d_bports s;
  st_rports : ∀ p rp, d_rports s !! p = Some rp → ∃ rp', d_rports s' !! p = Some rp' ∧
    rp_requests rp' = rp_requests rp ∧ mass_coeffs_ rp' = mass_coeffs_ rp ∧ rp_qty rp' = rp_qty rp ∧
    ∀ rs, (∀ r, rs r → is_Some (mass_coeffs_ rp !! r)) →
          Forall (conv_ok rs) (rp_constraints rp) → Forall (conv_ok rs) (rp_constraints rp');
  st_ex_requests : ex_requests (d_ctx s') = ex_requests (d_ctx s);
  st_ex_bids : ex_bids (d_ctx s') = ex_bids (d_ctx s);
  st_prefs : ∀ t r b, pref_of (d_ctx s') t r b = pref_of (d_ctx s) t r b
}.

#[export] Instance static_preorder : PreOrder static.
Proof.
  split.
  - intros s. split; try done. intros p rp Hp. by exists rp.
  - intros s1 s2 s3 [? ? ? ? Hr ? ? ?] [? ? ? ? Hr' ? ? ?]. split; try congruence.
    intros p rp Hp. destruct (Hr p rp Hp) as (rp2 & Hp2 & ? & Hm & ? & Hc).
    destruct (Hr' p rp2 Hp2) as (rp3 & Hp3 & ? & ? & ? & Hc'). exists rp3.
    split_and!; try congruence. intros rs Hrs Hall. apply Hc'; [by rewrite Hm|by apply Hc].
Qed.

(** ** The state of the translation

    The part of a node that the translation sets once. *)
Definition core (g : ExchangeGraph F) n : option (F * bool * string * Z) :=
  (λ nd, (qty nd, exclusive nd, commod nd, agent_id nd)) <$> node_heap g !! n.

(** An arc stands for a bid: it joins the nodes of the request and of the bid and
    carries the preference of the exchange context, which is positive. *)
Definition arc_from s (a : Arc F) : Prop :=
  ∃ b bd rq x, d_bids s !! b = Some bd ∧ d_reqs s !! request_ bd = Some rq ∧
    bid_to_node (d_xlat s) !! b = Some (vnode_ a) ∧
    request_to_node (d_xlat s) !! request_ bd = Some (unode_ a) ∧
    pref_of (d_ctx s) (requester_ rq) (request_ bd) b = Some x ∧
    (x <? nZ 0)%D = false ∧ (x =? nZ 0)%D = false ∧ pref_ a = Some x.

Record xlat_ok s : Prop := {
  xo_req : ∀ r n, request_to_node (d_xlat s) !! r = Some n ↔ node_to_request (d_xlat s) !! n = Some r;
  xo_bid : ∀ b n, bid_to_node (d_xlat s) !! b = Some n ↔ node_to_bid (d_xlat s) !! n = Some b;
  xo_req_node : ∀ r n, request_to_node (d_xlat s) !! r = Some n → ∃ rq q,
    d_reqs s !! r = Some rq ∧ quantity_of s (target_ rq) = Some q ∧
    core (d_graph s) n = Some (q, rq_exclusive rq, commodity_ rq, manager_id (requester_ rq));
  xo_bid_node : ∀ b n, bid_to_node (d_xlat s) !! b = Some n → ∃ bd rq q,
    d_bids s !! b = Some bd ∧ d_reqs s !! request_ bd = Some rq ∧ quantity_of s (offer_ bd) = Some q ∧
    core (d_graph s) n = Some (q, bd_exclusive bd, commodity_ rq, manager_id (bidder_ bd));
  xo_fresh : ∀ n, is_Some (node_heap (d_graph s) !! n) → (n < d_next s)%Z;
  xo_arcs : ∀ a, a ∈ arcs_ (d_graph s) → arc_from s a
}.

(** A step between two such states that leaves requests, bids and nodes as mapped. *)
Record step s s' : Prop := {
  sp_static : static s s';
  sp_ok : xlat_ok s';
  sp_xlat : d_xlat s' = d_xlat s;
  sp_arcs : arcs_ (d_graph s') = arcs_ (d_graph s)
}.

Lemma xlat_ok_refl s : xlat_ok s → step s s.
Proof. by split. Qed.
Lemma step_trans s1 s2 s3 : step s1 s2 → step s2 s3 → step s1 s3.
Proof. intros [] []. split; [by etrans|done|congruence|congruence]. Qed.

(** ** Steps on the graph that leave the cores alone *)
Definition gentle (f : ExchangeGraph F → ExchangeGraph F) : Prop :=
  ∀ g, arcs_ (f g) = arcs_ g ∧ (∀ n, core (f g) n = core g n).

Lemma gentle_step f s : gentle f → xlat_ok s → step s (set_dgraph (f (d_graph s)) s).
Proof.
  intros Hf [Hr Hb Hrn Hbn Hfr Ha]. destruct (Hf (d_graph s)) as [Harcs Hcore]. split; [|split|done|done].
  - split; try done. intros p rp Hp. by exists rp.
  - done.
  - done.
  - intros r n Hn. destruct (Hrn r n Hn) as (rq & q & ? & ? & ?). exists rq, q. cbn. by rewrite Hcore.
  - intros b n Hn. destruct (Hbn b n Hn) as (bd & rq & q & ? & ? & ? & ?). exists bd, rq, q. cbn. by rewrite Hcore.
  - cbn. intros n [nd Hn]. apply Hfr. specialize (Hcore n). unfold core in Hcore. rewrite Hn in Hcore.
    destruct (node_heap (d_graph s) !! n); [by eexists|done].
  - cbn. rewrite Harcs. apply Ha.
Qed.

Lemma modify_graph_runs f s (Q : unit → DRE F → Prop) :
  Q tt (set_dgraph (f (d_graph s)) s) → runs (modify_graph f) s Q.
Proof. intros HQ. by exists tt, (set_dgraph (f (d_graph s)) s). Qed.

Lemma gentle_runs f s : gentle f → xlat_ok s → runs (modify_graph f) s (λ _, step s).
Proof. intros. by apply modify_graph_runs, gentle_step. Qed.

Lemma core_alter f n (g : ExchangeGraph F) n' :
  (∀ nd, (qty (f nd), exclusive (f nd), commod (f nd), agent_id (f nd)) =
         (qty nd, exclusive nd, commod nd, agent_id nd)) →
  core (set_node_heap (alter f n (node_heap g)) g) n' = core g n'.
Proof.
  intros Hf. unfold core. cbn. rewrite lookup_alter. destruct (decide (n = n')) as [->|]; [|done].
  destruct (node_heap g !! n'); cbn; [by rewrite Hf|done].
Qed.

Lemma gentle_group_heap (h : ExchangeGraph F → gmap ptr (ExchangeNodeGroup F)) :
  gentle (λ g, set_group_heap (h g) g).
Proof. done. Qed.
Lemma gentle_modify_node n f :
  (∀ nd, (qty (f nd), exclusive (f nd), commod (f nd), agent_id (f nd)) =
         (qty nd, exclusive nd, commod nd, agent_id nd)) →
  gentle (λ g, set_node_heap (alter f n (node_heap g)) g).
Proof. intros Hf g. split; [done|]. intros n'. by apply core_alter. Qed.
Lemma gentle_AddExchangeNode gp n : gentle (AddExchangeNode gp n).
Proof.
  intros g. unfold AddExchangeNode. destruct (group_heap g !! gp); [|done].
  destruct (node_heap g !! n) as [nd|] eqn:Hn; [|done]. split; [done|]. intros n'.
  unfold core. cbn. rewrite lookup_insert. destruct (decide (n = n')) as [<-|]; [by rewrite Hn|done].
Qed.
Lemma gentle_AddRequestGroup gp : gentle (AddRequestGroup gp).
Proof. done. Qed.
Lemma gentle_AddSupplyGroup gp : gentle (AddSupplyGroup gp).
Proof. done. Qed.

(** ** Steps that add nodes and arcs *)
Record grow s s' : Prop := {
  gr_static : static s s';
  gr_ok : xlat_ok s';
  gr_req : request_to_node (d_xlat s) ⊆ request_to_node (d_xlat s');
  gr_bid : bid_to_node (d_xlat s) ⊆ bid_to_node (d_xlat s');
  gr_arcs : ∀ a, a ∈ arcs_ (d_graph s) → a ∈ arcs_ (d_graph s')
}.

Lemma step_grow s s' : step s s' → grow s s'.
Proof. intros [Hst Hok Hx Ha]. split; [done|done|by rewrite Hx|by rewrite Hx|by rewrite Ha]. Qed.
Lemma grow_trans s1 s2 s3 : grow s1 s2 → grow s2 s3 → grow s1 s3.
Proof. intros [] []. split; [by etrans|done|by etrans|by etrans|auto]. Qed.

(** A fresh node. *)
Definition with_node nd s : DRE F :=
  set_dgraph (alloc_node (d_next s) nd (d_graph s)) (set_next (d_next s + 1)%Z s).

Lemma new_node_step nd s : xlat_ok s → step s (with_node nd s).
Proof.
  intros [Hr Hb Hrn Hbn Hfr Ha].
  assert (∀ n c, core (d_graph s) n = Some c → core (d_graph (with_node nd s)) n = Some c) as Hcore.
  { intros n c Hc. unfold core in *. cbn. rewrite lookup_insert_ne; [done|]. intros <-.
    destruct (node_heap (d_graph s) !! d_next s) eqn:E; [|done].
    specialize (Hfr (d_next s)). rewrite E in Hfr. specialize (Hfr ltac:(by eexists)). lia. }
  split; [|split|done|done].
  - split; try done. intros p rp Hp. by exists rp.
  - done.
  - done.
  - intros r n Hn. destruct (Hrn r n Hn) as (rq & q & ? & ? & ?). exists rq, q. auto.
  - intros b n Hn. destruct (Hbn b n Hn) as (bd & rq & q & ? & ? & ? & ?). exists bd, rq, q. auto.
  - cbn. intros n. rewrite lookup_insert. destruct (decide (d_next s = n)); [lia|].
    intros Hn. apply Hfr in Hn. lia.
  - done.
Qed.

Lemma new_node_unmapped s n :
  xlat_ok s → (d_next s <= n)%Z →
  node_to_request (d_xlat s) !! n = None ∧ node_to_bid (d_xlat s) !! n = None.
Proof.
  intros [Hr Hb Hrn Hbn Hfr Ha] Hn.
  assert (core (d_graph s) n = None) as Hc.
  { unfold core. destruct (node_heap (d_graph s) !! n) eqn:E; [|done].
    specialize (Hfr n ltac:(rewrite E; by eexists)). lia. }
  split; apply eq_None_not_Some; intros [x Hx].
  - apply Hr, Hrn in Hx as (? & ? & _ & _ & Hx). congruence.
  - apply Hb, Hbn in Hx as (? & ? & ? & _ & _ & _ & Hx). congruence.
Qed.

Lemma insert_bijection (f h : gmap ptr ptr) x y :
  (∀ a c, f !! a = Some c ↔ h !! c = Some a) → f !! x = None → h !! y = None →
  ∀ a c, <[x := y]> f !! a = Some c ↔ <[y := x]> h !! c = Some a.
Proof.
  intros Hfh Hx Hy a c. rewrite !lookup_insert.
  destruct (decide (x = a)) as [<-|Hxa], (decide (y = c)) as [<-|Hyc].
  - done.
  - split; [congruence|]. intros Hc. apply Hfh in Hc. congruence.
  - split; [|congruence]. intros Hc. apply Hfh in Hc. congruence.
  - apply Hfh.
Qed.

Lemma arc_from_mono s s' a :
  d_bids s' = d_bids s → d_reqs s' = d_reqs s → d_ctx s' = d_ctx s →
  request_to_node (d_xlat s) ⊆ request_to_node (d_xlat s') →
  bid_to_node (d_xlat s) ⊆ bid_to_node (d_xlat s') → arc_from s a → arc_from s' a.
Proof.
  intros Hb Hr Hc Hsr Hsb (b & bd & rq & x & ? & ? & ? & ? & ? & ? & ? & ?).
  exists b, bd, rq, x. rewrite Hb, Hr, Hc. split_and!; try done; by eapply lookup_weaken.
Qed.

Definition add_request r n s : DRE F :=
  set_xlat (mkXlat (<[r := n]> (request_to_node (d_xlat s))) (<[n := r]> (node_to_request (d_xlat s)))
    (bid_to_node (d_xlat s)) (node_to_bid (d_xlat s))) s.
Definition add_bid b n s : DRE F :=
  set_xlat (mkXlat (request_to_node (d_xlat s)) (node_to_request (d_xlat s))
    (<[b := n]> (bid_to_node (d_xlat s))) (<[n := b]> (node_to_bid (d_xlat s)))) s.

Lemma add_request_grow s r n rq q :
  xlat_ok s → request_to_node (d_xlat s) !! r = None → node_to_request (d_xlat s) !! n = None →
  d_reqs s !! r = Some rq → quantity_of s (target_ rq) = Some q →
  core (d_graph s) n = Some (q, rq_exclusive rq, commodity_ rq, manager_id (requester_ rq)) →
  grow s (add_request r n s).
Proof.
  intros [Hr Hb Hrn Hbn Hfr Ha] Hnew Hn Hrq Hq Hcore.
  assert (request_to_node (d_xlat s) ⊆ <[r := n]> (request_to_node (d_xlat s))) by by apply insert_subseteq.
  split; [|split| | |]; cbn; try done.
  - split; try done. intros p rp Hp. by exists rp.
  - by apply insert_bijection.
  - intros r' n'. rewrite lookup_insert. destruct (decide (r = r')) as [<-|].
    + intros [= <-]. by exists rq, q.
    + apply Hrn.
  - intros a Hin. by apply (arc_from_mono s), Ha.
Qed.

Lemma add_bid_grow s b n bd rq q :
  xlat_ok s → bid_to_node (d_xlat s) !! b = None → node_to_bid (d_xlat s) !! n = None →
  d_bids s !! b = Some bd → d_reqs s !! request_ bd = Some rq → quantity_of s (offer_ bd) = Some q →
  core (d_graph s) n = Some (q, bd_exclusive bd, commodity_ rq, manager_id (bidder_ bd)) →
  grow s (add_bid b n s).
Proof.
  intros [Hr Hb Hrn Hbn Hfr Ha] Hnew Hn Hbd Hrq Hq Hcore.
  assert (bid_to_node (d_xlat s) ⊆ <[b := n]> (bid_to_node (d_xlat s))) by by apply insert_subseteq.
  split; [|split| | |]; cbn; try done.
  - split; try done. intros p rp Hp. by exists rp.
  - by apply insert_bijection.
  - intros b' n'. rewrite lookup_insert. destruct (decide (b = b')) as [<-|].
    + intros [= <-]. by exists bd, rq, q.
    + apply Hbn.
  - intros a Hin. by apply (arc_from_mono s), Ha.
Qed.

(** ** Portfolios *)
Lemma read_runs {A} (h : DRE F → gmap ptr A) p x s (Q : A → DRE F → Prop) :
  h s !! p = Some x → Q x s → runs (read h p) s Q.
Proof. intros Hp HQ. unfold read. apply runs_bind, runs_get. by eapply runs_option. Qed.

Lemma res_quantity_runs p q s (Q : F → DRE F → Prop) :
  quantity_of s p = Some q → Q q s → runs (res_quantity p) s Q.
Proof.
  unfold quantity_of. intros Hq HQ. destruct (ress (d_world s) !! p) as [x|] eqn:E; [|done].
  apply runs_fmap. eapply read_runs; [exact E|]. by injection Hq as <-.
Qed.

Lemma new_ptr_runs s (Q : ptr → DRE F → Prop) :
  Q (d_next s) (set_next (d_next s + 1)%Z s) → runs new_ptr s Q.
Proof. intros HQ. unfold new_ptr. apply runs_bind, runs_get. by apply runs_bind, runs_modify, runs_ret. Qed.

(** The requests, bids and arcs the translation knows. *)
Definition known_reqs s : gset ptr := dom (request_to_node (d_xlat s)).
Definition known_bids s : gset ptr := dom (bid_to_node (d_xlat s)).

Definition request_known s r : Prop :=
  ∃ rq q, d_reqs s !! r = Some rq ∧ quantity_of s (target_ rq) = Some q.
Definition bid_known s b : Prop :=
  ∃ bd rq q, d_bids s !! b = Some bd ∧ d_reqs s !! request_ bd = Some rq ∧ quantity_of s (offer_ bd) = Some q.

(** A fresh node in a group. *)
Definition with_node_in gp nd s : DRE F :=
  set_dgraph (AddExchangeNode gp (d_next s) (d_graph (with_node nd s))) (with_node nd s).

Lemma node_added gp nd s :
  xlat_ok s → step s (with_node_in gp nd s) ∧
    core (d_graph (with_node_in gp nd s)) (d_next s) = Some (qty nd, exclusive nd, commod nd, agent_id nd).
Proof.
  intros Hok. pose proof (new_node_step nd s Hok) as Hs. split.
  - eapply step_trans; [exact Hs|]. apply gentle_step; [apply gentle_AddExchangeNode|apply Hs].
  - cbn. rewrite (proj2 (gentle_AddExchangeNode gp (d_next s) _)). unfold core. cbn. by rewrite lookup_insert_eq.
Qed.

Lemma translate_request_runs gp r s :
  xlat_ok s → request_known s r → r ∉ known_reqs s →
  runs (translate_request manager_id gp r) s (λ _ s', grow s s' ∧ known_reqs s' = {[r]} ∪ known_reqs s ∧
    known_bids s' = known_bids s ∧ arcs_ (d_graph s') = arcs_ (d_graph s)).
Proof.
  intros Hok (rq & q & Hrq & Hq) Hnew. unfold known_reqs in Hnew. apply not_elem_of_dom in Hnew.
  unfold translate_request. apply runs_bind. eapply read_runs; [exact Hrq|].
  apply runs_bind. eapply res_quantity_runs; [exact Hq|].
  apply runs_bind, new_ptr_runs, runs_bind, modify_graph_runs, runs_bind, modify_graph_runs.
  set (nd := node_qty_excl_commod_id _ _ _ _). change (set_dgraph _ _) with (with_node_in gp nd s).
  destruct (new_node_unmapped s (d_next s) Hok ltac:(lia)) as [Hn _].
  destruct (node_added gp nd s Hok) as [[Hst Hok2 Hx Ha] Hc]. set (s2 := with_node_in gp nd s) in *.
  apply runs_modify. fold (add_request r (d_next s) s2). split_and!.
  - eapply grow_trans; [by apply step_grow|].
    apply (add_request_grow s2 r (d_next s) rq q); try done; try by rewrite Hx.
  - unfold known_reqs. cbn [add_request d_xlat set_xlat request_to_node]. by rewrite Hx, dom_insert_L.
  - unfold known_bids. cbn [add_request d_xlat set_xlat bid_to_node]. by rewrite Hx.
  - done.
Qed.

Lemma translate_bid_runs gp b s :
  xlat_ok s → bid_known s b → b ∉ known_bids s →
  runs (translate_bid manager_id gp b) s (λ _ s', grow s s' ∧ known_bids s' = {[b]} ∪ known_bids s ∧
    known_reqs s' = known_reqs s ∧ arcs_ (d_graph s') = arcs_ (d_graph s)).
Proof.
  intros Hok (bd & rq & q & Hbd & Hrq & Hq) Hnew. unfold known_bids in Hnew. apply not_elem_of_dom in Hnew.
  unfold translate_bid. apply runs_bind. eapply read_runs; [exact Hbd|].
  apply runs_bind. eapply res_quantity_runs; [exact Hq|]. apply runs_bind. eapply read_runs; [exact Hrq|].
  apply runs_bind, new_ptr_runs, runs_bind, modify_graph_runs, runs_bind, modify_graph_runs.
  set (nd := node_qty_excl_commod_id _ _ _ _). change (set_dgraph _ _) with (with_node_in gp nd s).
  destruct (new_node_unmapped s (d_next s) Hok ltac:(lia)) as [_ Hn].
  destruct (node_added gp nd s Hok) as [[Hst Hok2 Hx Ha] Hc]. set (s2 := with_node_in gp nd s) in *.
  apply runs_bind, runs_modify, runs_ret. fold (add_bid b (d_next s) s2). split_and!.
  - eapply grow_trans; [by apply step_grow|].
    apply (add_bid_grow s2 b (d_next s) bd rq q); try done; try by rewrite Hx.
  - unfold known_bids. cbn [add_bid d_xlat set_xlat bid_to_node]. by rewrite Hx, dom_insert_L.
  - unfold known_reqs. cbn [add_bid d_xlat set_xlat request_to_node]. by rewrite Hx.
  - done.
Qed.

(** Neutral loops: each round is a step. *)
Lemma steps_runs {A} (f : A → M (DRE F) unit) l s :
  xlat_ok s → (∀ x s', x ∈ l → step s s' → runs (f x) s' (λ _, step s')) →
  runs (for_each f l) s (λ _, step s).
Proof.
  intros Hok Hf. apply (runs_for_each (step s)); [by apply xlat_ok_refl|].
  intros x s' Hin Hs. eapply runs_mono; [by apply Hf|]. intros ? s2 Hs2. by eapply step_trans.
Qed.

Lemma alloc_group_step gr s :
  xlat_ok s → step s (set_dgraph (alloc_group (d_next s) gr (d_graph s)) (set_next (d_next s + 1)%Z s)).
Proof.
  intros [Hr Hb Hrn Hbn Hfr Ha]. split; [|split|done|done]; try done.
  - split; try done. intros p rp Hp. by exists rp.
  - cbn. intros n Hn. apply Hfr in Hn. lia.
Qed.

Lemma add_capacities_runs gp (cs : list (CapacityConstraint F)) s :
  xlat_ok s → runs (for_each (λ c, modify_group gp (AddCapacity (capacity_ c))) cs) s (λ _, step s).
Proof. intros Hok. apply steps_runs; [done|]. intros c s' _ Hs. apply gentle_runs; [done|apply Hs]. Qed.

(** [adds R B s s']: from [s] to [s'] exactly the requests [R] and the bids [B] were
    given nodes, and no arc was added. *)
Definition adds (R B : gset ptr) s s' : Prop :=
  grow s s' ∧ known_reqs s' = R ∪ known_reqs s ∧ known_bids s' = B ∪ known_bids s ∧
  arcs_ (d_graph s') = arcs_ (d_graph s).

Lemma step_adds s s' : step s s' → adds ∅ ∅ s s'.
Proof.
  intros Hs. split_and!; [by apply step_grow| | |apply Hs];
    unfold known_reqs, known_bids; rewrite (sp_xlat _ _ Hs); set_solver.
Qed.
Lemma step_known s s' : step s s' → known_reqs s' = known_reqs s ∧ known_bids s' = known_bids s.
Proof. intros Hs. unfold known_reqs, known_bids. by rewrite (sp_xlat _ _ Hs). Qed.
Lemma adds_step_l R B s1 s2 s3 : step s1 s2 → adds R B s2 s3 → adds R B s1 s3.
Proof.
  intros Hs (Hg & Hr & Hb & Ha). destruct (step_known _ _ Hs) as [Hr1 Hb1].
  split_and!; [|by rewrite Hr, Hr1|by rewrite Hb, Hb1|by rewrite Ha, (sp_arcs _ _ Hs)].
  eapply grow_trans; [by apply step_grow|done].
Qed.
Lemma adds_step_r R B s1 s2 s3 : adds R B s1 s2 → step s2 s3 → adds R B s1 s3.
Proof.
  intros (Hg & Hr & Hb & Ha) Hs. destruct (step_known _ _ Hs) as [Hr1 Hb1].
  split_and!; [|by rewrite Hr1|by rewrite Hb1|by rewrite (sp_arcs _ _ Hs)].
  eapply grow_trans; [done|by apply step_grow].
Qed.

Lemma request_known_static s s' r : static s s' → request_known s r → request_known s' r.
Proof.
  intros Hst (rq & q & Hrq & Hq). exists rq, q. unfold quantity_of. by rewrite (st_reqs _ _ Hst), (st_world _ _ Hst).
Qed.
Lemma bid_known_static s s' b : static s s' → bid_known s b → bid_known s' b.
Proof.
  intros Hst (bd & rq & q & Hbd & Hrq & Hq). exists bd, rq, q. unfold quantity_of.
  by rewrite (st_reqs _ _ Hst), (st_world _ _ Hst), (st_bids _ _ Hst).
Qed.

Lemma translate_request_list gp rs s :
  xlat_ok s → (∀ r, r ∈ rs → request_known s r ∧ r ∉ known_reqs s) → NoDup rs →
  runs (for_each (translate_request manager_id gp) rs) s (λ _, adds (list_to_set rs) ∅ s).
Proof.
  intros Hok Hrs Hnd. apply (runs_for_each_visited (λ pre s', adds (list_to_set pre) ∅ s s')).
  - by apply step_adds, xlat_ok_refl.
  - intros pre r post s1 -> (Hg & Hr & Hb & Ha).
    assert (r ∈ pre ++ r :: post) as Hin by set_solver. destruct (Hrs r Hin) as [Hk Hn].
    apply NoDup_app in Hnd as (_ & Hdis & _). eapply runs_mono.
    + apply translate_request_runs; [apply Hg|by eapply request_known_static; [apply Hg|]|].
      rewrite Hr. set_solver.
    + intros ? s2 (Hg2 & Hr2 & Hb2 & Ha2). split_and!; [by eapply grow_trans| | |congruence].
      * rewrite Hr2, Hr, list_to_set_app_L. set_solver.
      * rewrite Hb2, Hb. set_solver.
Qed.

Lemma TranslateRequestPortfolio_runs port rp s :
  xlat_ok s → d_rports s !! port = Some rp →
  (∀ r, r ∈ rp_requests rp → request_known s r ∧ r ∉ known_reqs s) → NoDup (rp_requests rp) →
  runs (TranslateRequestPortfolio manager_id port) s (λ _, adds (list_to_set (rp_requests rp)) ∅ s).
Proof.
  intros Hok Hrp Hrs Hnd. unfold TranslateRequestPortfolio. apply runs_bind. eapply read_runs; [exact Hrp|].
  apply runs_bind, new_ptr_runs, runs_bind, modify_graph_runs.
  pose proof (alloc_group_step (new_request_group (rp_qty rp)) s Hok) as Hs1. set (s1 := set_dgraph _ _) in *.
  apply runs_bind. eapply runs_mono; [apply translate_request_list; [apply Hs1| |done]|].
  { intros r Hr. destruct (Hrs r Hr). split; [by eapply request_known_static; [apply Hs1|]|done]. }
  intros ? s2 Hs2. apply runs_bind. eapply runs_mono; [apply add_capacities_runs, Hs2|].
  intros ? s3 Hs3. apply runs_ret.
  eapply adds_step_l; [exact Hs1|]. eapply adds_step_r; [exact Hs2|exact Hs3].
Qed.

Lemma TranslateBidPortfolio_runs port bp s :
  xlat_ok s → d_bports s !! port = Some bp →
  (∀ b, b ∈ bp_bids bp → bid_known s b ∧ b ∉ known_bids s) →
  runs (TranslateBidPortfolio manager_id port) s (λ _, adds ∅ (bp_bids bp) s).
Proof.
  intros Hok Hbp Hbs. unfold TranslateBidPortfolio. apply runs_bind. eapply read_runs; [exact Hbp|].
  apply runs_bind, new_ptr_runs, runs_bind, modify_graph_runs.
  pose proof (alloc_group_step new_supply_group s Hok) as Hs1. set (s1 := set_dgraph _ _) in *.
  apply runs_bind. eapply runs_mono.
  { apply (runs_for_collect (λ pre s', adds ∅ (list_to_set pre) s1 s')); [by apply step_adds, xlat_ok_refl, Hs1|].
    intros pre b post s2 Hl (Hg & Hr & Hb & Ha).
    assert (b ∈ bp_bids bp) as Hin by (apply elem_of_set_in_order; rewrite Hl; set_solver).
    pose proof (NoDup_set_in_order (bp_bids bp)) as Hnd. rewrite Hl in Hnd. apply NoDup_app in Hnd as (_ & Hdis & _).
    destruct (Hbs b Hin) as [Hk Hn]. eapply runs_mono.
    - apply translate_bid_runs; [apply Hg| |rewrite Hb; set_solver].
      eapply bid_known_static; [apply Hg|]. by eapply bid_known_static; [apply Hs1|].
    - intros ? s3 (Hg2 & Hr2 & Hb2 & Ha2). split_and!; [by eapply grow_trans| | |congruence].
      + rewrite Hb2, Hr. set_solver.
      + rewrite Hr2, Hb, list_to_set_app_L. set_solver. }
  intros excl s2 Hs2. apply runs_bind. eapply runs_mono.
  { apply steps_runs; [apply Hs2|]. intros kv s' _ Hs. apply gentle_runs; [done|apply Hs]. }
  intros ? s3 Hs3. apply runs_bind. eapply runs_mono; [apply add_capacities_runs, Hs3|].
  intros ? s4 Hs4. apply runs_ret.
  assert (list_to_set (set_in_order (bp_bids bp)) = bp_bids bp) as Heq.
  { apply set_eq. intros b. rewrite elem_of_list_to_set. apply elem_of_set_in_order. }
  rewrite Heq in Hs2. pose proof (step_trans _ _ _ Hs3 Hs4) as Hs34.
  eapply adds_step_l; [exact Hs1|]. eapply adds_step_r; [exact Hs2|exact Hs34].
Qed.

(** ** Arcs *)
Definition zero_pref (t r b : ptr) s : DRE F :=
  let c := d_ctx s in
  set_ctx (mkExCtx F (ex_requests c) (ex_bids c) (requesters c) (bidders c) (commod_requests c)
    (bids_by_request c) (insert_pref t r b (nZ 0) (trader_prefs c))) s.

Lemma zero_pref_same s t r b x t' r' b' :
  pref_of (d_ctx s) t r b = Some x →
  pref_of (d_ctx (zero_pref t r b s)) t' r' b' = pref_of (d_ctx s) t' r' b'.
Proof.
  unfold pref_of, insert_pref. cbn. intros Hp. destruct (trader_prefs (d_ctx s) !! t) as [m|] eqn:Ht; [|done].
  unfold insert_pref. rewrite lookup_insert. destruct (decide (t = t')) as [<-|]; [|done].
  rewrite Ht. cbn. f_equal. unfold at_default. rewrite Ht. cbn. rewrite lookup_insert.
  destruct (decide (r = r')) as [<-|]; [|done]. cbn. unfold insert_new.
  destruct (default ∅ (m !! r) !! b) eqn:Hb; [done|]. rewrite lookup_insert.
  destruct (decide (b = b')) as [<-|]; [by rewrite Hb|done].
Qed.

Lemma zero_pref_step s t r b x :
  xlat_ok s → pref_of (d_ctx s) t r b = Some x → step s (zero_pref t r b s).
Proof.
  intros [Hr Hb Hrn Hbn Hfr Ha] Hp.
  pose proof (λ t' r' b', zero_pref_same s t r b x t' r' b' Hp) as Hsame. split; [|split|done|done]; try done.
  - split; try done. intros p rp Hrp. by exists rp.
  - intros a Hin. destruct (Ha a Hin) as (b' & bd & rq & y & ? & ? & ? & ? & Hy & ?).
    exists b', bd, rq, y. by rewrite Hsame.
Qed.

Lemma convert_runs c offer q u r s :
  quantity_of s offer = Some q → node_to_request (d_xlat s) !! u = Some r →
  conv_ok (eq r) c → runs (convert (converter_ c) offer u) s (λ _ s', s' = s).
Proof.
  intros Hq Hu Hc. unfold conv_ok in Hc. destruct (converter_ c) as [|m|f]; cbn.
  - by eapply res_quantity_runs.
  - apply runs_bind. eapply res_quantity_runs; [exact Hq|]. apply runs_bind, runs_get.
    apply runs_bind. eapply runs_option; [exact Hu|]. destruct (Hc r eq_refl) as [x Hx].
    apply runs_bind. eapply runs_option; [exact Hx|]. by apply runs_ret.
  - apply runs_bind, runs_get. by apply runs_ret.
Qed.

Lemma TranslateCapacities_runs offer q cs n u v r s :
  xlat_ok s → quantity_of s offer = Some q → node_to_request (d_xlat s) !! u = Some r →
  Forall (conv_ok (eq r)) cs → runs (TranslateCapacities offer cs n (u, v)) s (λ _, step s).
Proof.
  intros Hok Hq Hu Hcs. apply steps_runs; [done|]. intros c s' Hin Hs.
  rewrite Forall_forall in Hcs. specialize (Hcs c Hin).
  assert (quantity_of s' offer = Some q) as Hq' by (unfold quantity_of; by rewrite (st_world _ _ (sp_static _ _ Hs))).
  apply runs_bind. eapply runs_mono; [eapply (convert_runs c offer q u r s'); [done|by rewrite (sp_xlat _ _ Hs)|done]|].
  intros x ? ->. apply runs_bind. eapply res_quantity_runs; [exact Hq'|].
  apply gentle_runs; [by apply gentle_modify_node|apply Hs].
Qed.

(** What adding the arc of a bid relies on. *)
Record arc_known s b : Prop := {
  ak_bid : bid_known s b;
  ak_mapped : b ∈ known_bids s;
  ak_request : ∀ bd, d_bids s !! b = Some bd → request_ bd ∈ known_reqs s;
  ak_bport : ∀ bd, d_bids s !! b = Some bd → ∃ bp, d_bports s !! bd_portfolio bd = Some bp ∧
    Forall (conv_ok (eq (request_ bd))) (bp_constraints bp);
  ak_rport : ∀ bd rq, d_bids s !! b = Some bd → d_reqs s !! request_ bd = Some rq →
    ∃ rp, d_rports s !! rq_portfolio rq = Some rp ∧ Forall (conv_ok (eq (request_ bd))) (rp_constraints rp);
  ak_pref : ∀ bd rq, d_bids s !! b = Some bd → d_reqs s !! request_ bd = Some rq →
    ∃ x, pref_of (d_ctx s) (requester_ rq) (request_ bd) b = Some x ∧ (x =? nZ 0)%D = false
}.

Lemma TranslateArc_runs b bd rq x s :
  xlat_ok s → arc_known s b → d_bids s !! b = Some bd → d_reqs s !! request_ bd = Some rq →
  runs (TranslateArc b x) s (λ a s', step s s' ∧ pref_ a = Some x ∧
    request_to_node (d_xlat s) !! request_ bd = Some (unode_ a) ∧ bid_to_node (d_xlat s) !! b = Some (vnode_ a)).
Proof.
  intros Hok [(bd' & rq' & q & Hbd' & Hrq' & Hq) Hmap Hreq Hbp Hrp _] Hbd Hrq.
  assert (bd' = bd) as -> by congruence. assert (rq' = rq) as -> by congruence.
  unfold known_bids in Hmap. apply elem_of_dom in Hmap as [v Hv].
  specialize (Hreq bd Hbd). unfold known_reqs in Hreq. apply elem_of_dom in Hreq as [u Hu].
  destruct (Hbp bd Hbd) as (bp & Hbpl & Hbc). destruct (Hrp bd rq Hbd Hrq) as (rp & Hrpl & Hrc).
  destruct (xo_req_node _ Hok _ _ Hu) as (? & ? & _ & _ & Hcu).
  destruct (xo_bid_node _ Hok _ _ Hv) as (? & ? & ? & _ & _ & _ & Hcv).
  unfold core in Hcu, Hcv. destruct (node_heap (d_graph s) !! u) as [un|] eqn:Hun; [|done].
  destruct (node_heap (d_graph s) !! v) as [vn|] eqn:Hvn; [|done].
  unfold TranslateArc. apply runs_bind. eapply read_runs; [exact Hbd|]. apply runs_bind, runs_get.
  apply runs_bind. eapply runs_option; [exact Hu|]. apply runs_bind. eapply runs_option; [exact Hv|].
  apply runs_bind. eapply runs_option; [exact Hun|]. apply runs_bind. eapply runs_option; [exact Hvn|].
  apply runs_bind. eapply read_runs; [exact Hrq|]. apply runs_bind. eapply read_runs; [exact Hbpl|].
  apply runs_bind. eapply read_runs; [exact Hrpl|]. pose proof (proj1 (xo_req _ Hok _ _) Hu) as Hun'.
  apply runs_bind. eapply runs_mono; [by eapply TranslateCapacities_runs|]. intros ? s1 Hs1.
  apply runs_bind. eapply runs_mono.
  { eapply (TranslateCapacities_runs _ q _ _ u v (request_ bd)); [apply Hs1| |by rewrite (sp_xlat _ _ Hs1)|exact Hrc].
    unfold quantity_of. by rewrite (st_world _ _ (sp_static _ _ Hs1)). }
  intros ? s2 Hs2. apply runs_ret. exact (conj (step_trans _ _ _ Hs1 Hs2) (conj eq_refl (conj Hu Hv))).
Qed.

(** Adding an arc that stands for a bid. *)
Lemma add_arc_grow a s : xlat_ok s → arc_from s a → grow s (set_dgraph (AddArc a (d_graph s)) s).
Proof.
  intros [Hr Hb Hrn Hbn Hfr Ha] Hfrom. split; [|split| | |]; try done.
  - split; try done. intros p rp Hp. by exists rp.
  - cbn. intros a' [Hin|Hin%list_elem_of_singleton]%elem_of_app; [by apply Ha|by subst a'].
  - cbn. intros a' Hin. apply elem_of_app. by left.
Qed.

(** The bid has its arc, unless its preference is negative. *)
Definition has_arc s b : Prop :=
  ∃ bd rq x, d_bids s !! b = Some bd ∧ d_reqs s !! request_ bd = Some rq ∧
    pref_of (d_ctx s) (requester_ rq) (request_ bd) b = Some x ∧
    ((x <? nZ 0)%D = true ∨ ∃ a, a ∈ arcs_ (d_graph s) ∧ bid_to_node (d_xlat s) !! b = Some (vnode_ a)).

Lemma has_arc_grow s s' b : grow s s' → has_arc s b → has_arc s' b.
Proof.
  intros [Hst _ _ Hb Ha] (bd & rq & x & Hbd & Hrq & Hx & Hcase). exists bd, rq, x.
  rewrite (st_bids _ _ Hst), (st_reqs _ _ Hst), (st_prefs _ _ Hst). split_and!; try done.
  destruct Hcase as [|(a & Hin & Hv)]; [by left|]. right. exists a. split; [auto|]. by eapply lookup_weaken.
Qed.

Lemma xlat_AddArc_runs b bd s :
  xlat_ok s → arc_known s b → d_bids s !! b = Some bd →
  runs (xlat_AddArc (request_ bd) b) s (λ _ s', grow s s' ∧ d_xlat s' = d_xlat s ∧ has_arc s' b).
Proof.
  intros Hok Hk Hbd. pose proof (ak_bid _ _ Hk) as (bd' & rq & q & Hbd' & Hrq & Hq).
  assert (bd' = bd) as -> by congruence.
  destruct (ak_pref _ _ Hk bd rq Hbd Hrq) as (x & Hx & Hnz).
  unfold xlat_AddArc. apply runs_bind. eapply read_runs; [exact Hrq|]. apply runs_bind, runs_get.
  apply runs_bind. eapply runs_option; [exact Hx|]. apply runs_bind, runs_modify.
  fold (zero_pref (requester_ rq) (request_ bd) b s). set (s1 := zero_pref _ _ _ s).
  pose proof (zero_pref_step s _ _ _ _ Hok Hx) as Hs1. fold s1 in Hs1.
  pose proof (zero_pref_same s _ _ _ _ (requester_ rq) (request_ bd) b Hx) as Hx1. fold s1 in Hx1.
  rewrite Hx in Hx1. destruct (x <? nZ 0)%D eqn:Hneg.
  { apply runs_ret. split_and!; [by apply step_grow|apply Hs1|]. exists bd, rq, x. split_and!; try done. by left. }
  rewrite Hnz. apply runs_bind.
  assert (arc_known s1 b) as Hk1.
  { destruct Hk as [? ? ? ? ? Hp]. split; try done. intros ? ? Hb' Hr'.
    destruct (Hp _ _ Hb' Hr') as (y & Hy & ?). exists y. split; [|done].
    rewrite <-Hy. by apply (zero_pref_same s _ _ _ x). }
  eapply runs_mono; [by apply (TranslateArc_runs b bd rq x s1); [apply Hs1|..]|].
  intros a s2 (Hs2 & Hpref & Hu & Hv).
  apply runs_bind, modify_graph_runs. set (f := λ nd : ExchangeNode F, set_prefs (<[arc_key a := x]> (prefs nd)) nd).
  pose proof (gentle_step _ s2 (gentle_modify_node (unode_ a) f ltac:(done)) (sp_ok _ _ Hs2)) as Hs3.
  set (s3 := set_dgraph _ s2) in *. pose proof (step_trans _ _ _ Hs1 (step_trans _ _ _ Hs2 Hs3)) as Hs13.
  apply modify_graph_runs.
  assert (pref_of (d_ctx s3) (requester_ rq) (request_ bd) b = Some x) as Hx3
    by (by rewrite (st_prefs _ _ (sp_static _ _ Hs13))).
  assert (d_xlat s3 = d_xlat s1) as Hx31 by (rewrite (sp_xlat _ _ Hs3); apply Hs2).
  assert (d_bids s3 = d_bids s) as Hbs by apply (st_bids _ _ (sp_static _ _ Hs13)).
  assert (d_reqs s3 = d_reqs s) as Hrs by apply (st_reqs _ _ (sp_static _ _ Hs13)).
  assert (arc_from s3 a) as Hfrom.
  { exists b, bd, rq, x. rewrite Hx31, Hbs, Hrs. by split_and!. }
  split_and!.
  - eapply grow_trans; [by apply step_grow|]. apply add_arc_grow; [apply Hs3|done].
  - cbn. apply (sp_xlat _ _ Hs13).
  - assert (d_bids s3 !! b = Some bd) by by rewrite Hbs. assert (d_reqs s3 !! request_ bd = Some rq) by by rewrite Hrs.
    exists bd, rq, x. split_and!; try done. right. exists a. split; [cbn; set_solver|].
    change (bid_to_node (d_xlat s3) !! b = Some (vnode_ a)). by rewrite Hx31.
Qed.

(** ** Whole exchanges *)
Record rport_ok s port (rp : RequestPortfolio F) : Prop := {
  ro_qty : (rp_qty rp <=? nZ 0)%D = false;
  ro_nodup : NoDup (rp_requests rp);
  ro_known : ∀ r, r ∈ rp_requests rp → request_known s r;
  ro_coeff : ∀ r, r ∈ rp_requests rp → is_Some (mass_coeffs_ rp !! r);
  ro_port : ∀ r rq, r ∈ rp_requests rp → d_reqs s !! r = Some rq → rq_portfolio rq = port;
  ro_conv : Forall (conv_ok (λ r, r ∈ rp_requests rp)) (rp_constraints rp)
}.

Record bid_ok s port (bp : BidPortfolio F) b : Prop := {
  bo_known : bid_known s b;
  bo_port : ∀ bd, d_bids s !! b = Some bd → bd_portfolio bd = port ∧
    Forall (conv_ok (eq (request_ bd))) (bp_constraints bp);
  bo_request : ∀ bd rq, d_bids s !! b = Some bd → d_reqs s !! request_ bd = Some rq →
    rq_portfolio rq ∈ ex_requests (d_ctx s) ∧
    ∃ rp, d_rports s !! rq_portfolio rq = Some rp ∧ request_ bd ∈ rp_requests rp;
  bo_pref : ∀ bd rq, d_bids s !! b = Some bd → d_reqs s !! request_ bd = Some rq →
    ∃ x, pref_of (d_ctx s) (requester_ rq) (request_ bd) b = Some x ∧ (x =? nZ 0)%D = false
}.

(** An exchange context whose portfolios own their requests and bids, with positive
    demands, and a non-zero preference for every bid. *)
Record exchange_wf s : Prop := {
  ew_requests : NoDup (ex_requests (d_ctx s));
  ew_bids : NoDup (ex_bids (d_ctx s));
  ew_rport : ∀ port, port ∈ ex_requests (d_ctx s) → ∃ rp, d_rports s !! port = Some rp ∧ rport_ok s port rp;
  ew_bport : ∀ port, port ∈ ex_bids (d_ctx s) → ∃ bp, d_bports s !! port = Some bp ∧
    ∀ b, b ∈ bp_bids bp → bid_ok s port bp b
}.

Lemma conv_ok_impl (P P' : ptr → Prop) c : (∀ r, P' r → P r) → conv_ok P c → conv_ok P' c.
Proof. unfold conv_ok. destruct (converter_ c); auto. Qed.

Lemma rport_ok_static s s' port rp :
  static s s' → d_rports s !! port = Some rp → rport_ok s port rp →
  ∃ rp', d_rports s' !! port = Some rp' ∧ rport_ok s' port rp' ∧ rp_requests rp' = rp_requests rp.
Proof.
  intros Hst Hrp [Hq Hnd Hk Hc Hp Hcv]. destruct (st_rports _ _ Hst port rp Hrp) as (rp' & Hrp' & Hr & Hm & Hqt & Hconv).
  exists rp'. split_and!; [done| |done]. split; rewrite ?Hr, ?Hm, ?Hqt; try done.
  - intros r Hin. by eapply request_known_static, Hk.
  - intros r rq Hin. rewrite (st_reqs _ _ Hst). by apply Hp.
  - by apply Hconv.
Qed.

Lemma bid_ok_static s s' port bp b : static s s' → bid_ok s port bp b → bid_ok s' port bp b.
Proof.
  intros Hst [Hk Hp Hr Hpr]. split.
  - by eapply bid_known_static.
  - intros bd. rewrite (st_bids _ _ Hst). apply Hp.
  - intros bd rq. rewrite (st_bids _ _ Hst), (st_reqs _ _ Hst). intros Hbd Hrq.
    destruct (Hr bd rq Hbd Hrq) as (Hin & rp & Hrp & Hinr). rewrite (st_ex_requests _ _ Hst). split; [done|].
    destruct (st_rports _ _ Hst _ rp Hrp) as (rp' & Hrp' & Hreqs & _). exists rp'. by rewrite Hreqs.
  - intros bd rq. rewrite (st_bids _ _ Hst), (st_reqs _ _ Hst). intros Hbd Hrq.
    rewrite (st_prefs _ _ Hst). by apply Hpr.
Qed.

Lemma set_next_constr_step i s : xlat_ok s → step s (set_next_constr i s).
Proof. intros []. split; try done. split; try done. intros p rp Hp. by exists rp. Qed.

Lemma insert_constraint_Forall (P : CapacityConstraint F → Prop) i c l :
  P c → Forall P l → Forall P (insert_constraint i c l).
Proof.
  intros Hc. induction 1 as [|d l Hd Hl IH]; cbn; [by constructor|].
  destruct (i <? constr_id d)%Z; by repeat constructor.
Qed.

Lemma AddConstraint_runs port rp c s :
  xlat_ok s → d_rports s !! port = Some rp → converter_ c = qty_converter rp →
  runs (rp_AddConstraint port c) s (λ _, step s).
Proof.
  intros Hok Hrp Hconv. unfold rp_AddConstraint, copy_constraint, next_constr_id.
  apply runs_bind, runs_bind, runs_bind, runs_get. apply runs_bind, runs_modify, runs_ret, runs_ret.
  pose proof (set_next_constr_step (d_next_constr s + 1) s Hok) as Hs1. set (s1 := set_next_constr _ s) in *.
  apply runs_bind. eapply read_runs; [exact Hrp|]. apply runs_modify.
  eapply step_trans; [exact Hs1|]. destruct (sp_ok _ _ Hs1) as [? ? ? ? ? ?].
  split; [|split; try done|done|done]. split; try done. intros p rp' Hp. cbn. rewrite lookup_insert.
  destruct (decide (port = p)) as [<-|]; [|by exists rp'].
  assert (rp' = rp) as -> by (cbn in Hp; congruence). eexists. split_and!; try done. cbn.
  intros rs Hrs. apply insert_constraint_Forall. unfold conv_ok. cbn. rewrite Hconv. done.
Qed.

Lemma translate_requests_runs port rp s :
  xlat_ok s → d_rports s !! port = Some rp → rport_ok s port rp →
  (∀ r, r ∈ rp_requests rp → r ∉ known_reqs s) →
  runs (translate_requests manager_id port) s (λ _, adds (list_to_set (rp_requests rp)) ∅ s).
Proof.
  intros Hok Hrp Hro Hnew. unfold translate_requests, new_constraint, next_constr_id.
  apply runs_bind. eapply read_runs; [exact Hrp|].
  apply runs_bind, runs_bind, runs_bind, runs_get. apply runs_bind, runs_modify, runs_ret.
  apply runs_bind, runs_require; [by rewrite (ro_qty _ _ _ Hro)|]. apply runs_ret.
  pose proof (set_next_constr_step (d_next_constr s + 1) s Hok) as Hs1. set (s1 := set_next_constr _ s) in *.
  apply runs_bind. eapply runs_mono; [by apply (AddConstraint_runs port rp); [apply Hs1|..]|].
  intros ? s2 Hs12. pose proof (step_trans _ _ _ Hs1 Hs12) as Hs2.
  destruct (rport_ok_static s s2 port rp (sp_static _ _ Hs2) Hrp Hro) as (rp2 & Hrp2 & Hro2 & Hreq).
  apply runs_bind. eapply runs_mono; [apply (TranslateRequestPortfolio_runs port rp2)|].
  - apply Hs2.
  - done.
  - intros r Hr. split; [by apply (ro_known _ _ _ Hro2)|]. rewrite Hreq in Hr.
    rewrite (proj1 (step_known _ _ Hs2)). by apply Hnew.
  - apply (ro_nodup _ _ _ Hro2).
  - rewrite Hreq. intros gp s3 Hs3. eapply runs_mono; [apply gentle_runs; [done|apply Hs3]|].
    intros ? s4 Hs4. eapply adds_step_l; [exact Hs2|]. eapply adds_step_r; [exact Hs3|exact Hs4].
Qed.

(** The requests of some portfolios. *)
Definition requests_in s (ports : list ptr) r : Prop :=
  ∃ port rp, port ∈ ports ∧ d_rports s !! port = Some rp ∧ r ∈ rp_requests rp.
Definition bids_in s (ports : list ptr) b : Prop :=
  ∃ port bp, port ∈ ports ∧ d_bports s !! port = Some bp ∧ b ∈ bp_bids bp.

Lemma all_requests_runs s :
  xlat_ok s → exchange_wf s → known_reqs s = ∅ →
  runs (for_each (translate_requests manager_id) (ex_requests (d_ctx s))) s (λ _ s', grow s s' ∧
    (∀ r, r ∈ known_reqs s' ↔ requests_in s (ex_requests (d_ctx s)) r) ∧ known_bids s' = known_bids s).
Proof.
  intros Hok [Hnd _ Hrp _] Hempty.
  apply (runs_for_each_visited (λ pre s', grow s s' ∧ (∀ r, r ∈ known_reqs s' ↔ requests_in s pre r) ∧
    known_bids s' = known_bids s)).
  { split_and!; [by apply step_grow, xlat_ok_refl| |done]. intros r. rewrite Hempty. split; [set_solver|].
    by intros (? & ? & ?%elem_of_nil & _). }
  intros pre port post s1 Hl (Hg & Hk & Hb). rewrite Hl in Hnd. apply NoDup_app in Hnd as (_ & Hdis & _).
  destruct (Hrp port) as (rp & Hport & Hro); [rewrite Hl; set_solver|].
  destruct (rport_ok_static s s1 port rp (gr_static _ _ Hg) Hport Hro) as (rp1 & Hport1 & Hro1 & Hreq).
  eapply runs_mono; [apply (translate_requests_runs port rp1); [apply Hg|done|done|]|].
  - intros r Hr Hin. apply Hk in Hin as (port' & rp' & Hpre & Hport' & Hr'). rewrite Hreq in Hr.
    destruct (ro_known _ _ _ Hro r Hr) as (rq & _ & Hrq & _).
    destruct (Hrp port') as (rp'' & Hport'' & Hro'); [rewrite Hl; set_solver|].
    assert (rp'' = rp') as -> by congruence.
    assert (port' = port) as -> by (rewrite <-(ro_port _ _ _ Hro r rq Hr Hrq); by rewrite (ro_port _ _ _ Hro' r rq)).
    apply (Hdis port Hpre). by left.
  - intros ? s2 (Hg2 & Hr2 & Hb2 & _). split_and!; [by eapply grow_trans| |rewrite Hb2, Hb; set_solver].
    intros r. rewrite Hr2, elem_of_union, elem_of_list_to_set, Hk, Hreq. split.
    + intros [Hin|(port' & rp' & ? & ?)]; [exists port, rp|exists port', rp']; set_solver.
    + intros (port' & rp' & Hin & Hp' & Hr). apply elem_of_app in Hin as [Hin|Hin%list_elem_of_singleton].
      * right. by exists port', rp'.
      * subst port'. left. congruence.
Qed.

Lemma bid_arcs_runs port bp s :
  xlat_ok s → exchange_wf s → d_bports s !! port = Some bp → port ∈ ex_bids (d_ctx s) →
  (∀ r, requests_in s (ex_requests (d_ctx s)) r → r ∈ known_reqs s) → (∀ b, b ∈ bp_bids bp → b ∈ known_bids s) →
  runs (for_each (λ b, bd ← read d_bids b; xlat_AddArc (request_ bd) b) (set_in_order (bp_bids bp))) s
    (λ _ s', grow s s' ∧ d_xlat s' = d_xlat s ∧ ∀ b, b ∈ bp_bids bp → has_arc s' b).
Proof.
  intros Hok [_ _ Hrps Hbps] Hbp Hport Hreqs Hbids.
  destruct (Hbps port Hport) as (bp' & Hbp' & Hbo). assert (bp' = bp) as -> by congruence.
  eapply runs_mono; [apply (runs_for_each_visited (λ pre s', grow s s' ∧ d_xlat s' = d_xlat s ∧
    ∀ b, b ∈ pre → has_arc s' b))|].
  - split_and!; [by apply step_grow, xlat_ok_refl|done|]. by intros b ?%elem_of_nil.
  - intros pre b post s1 Hl (Hg & Hx & Harcs).
    assert (b ∈ bp_bids bp) as Hin by (apply elem_of_set_in_order; rewrite Hl; set_solver).
    pose proof (gr_static _ _ Hg) as Hst. pose proof (bid_ok_static s s1 port bp b Hst (Hbo b Hin)) as [Hk Hp Hr Hpr].
    pose proof Hk as (bd & rq & q & Hbd & Hrq & Hq). apply runs_bind. eapply read_runs; [exact Hbd|].
    eapply runs_mono; [apply (xlat_AddArc_runs b bd s1); [apply Hg| |done]|].
    + split; [done|unfold known_bids; rewrite Hx; by apply Hbids| | | |done].
      * intros bd' Hbd'. assert (bd' = bd) as -> by congruence. unfold known_reqs. rewrite Hx. apply Hreqs.
        rewrite (st_bids _ _ Hst) in Hbd. rewrite (st_reqs _ _ Hst) in Hrq.
        destruct (bo_request _ _ _ _ (Hbo b Hin) bd rq Hbd Hrq) as (Hin' & rp & Hrp & Hinr). by exists (rq_portfolio rq), rp.
      * intros bd' Hbd'. destruct (Hp bd' Hbd') as [-> Hc]. exists bp. by rewrite (st_bports _ _ Hst).
      * intros bd' rq' Hbd' Hrq'. destruct (Hr bd' rq' Hbd' Hrq') as (Hin' & rp & Hrp & Hinr). exists rp.
        split; [done|]. rewrite (st_ex_requests _ _ Hst) in Hin'.
        destruct (Hrps _ Hin') as (rp0 & Hrp0 & Hro).
        destruct (rport_ok_static s s1 _ rp0 Hst Hrp0 Hro) as (rp1 & Hrp1 & Hro1 & _).
        assert (rp1 = rp) as -> by congruence. eapply Forall_impl; [apply (ro_conv _ _ _ Hro1)|].
        intros c. apply conv_ok_impl. by intros ? <-.
    + intros ? s2 (Hg2 & Hx2 & Ha2). split_and!; [by eapply grow_trans|congruence|].
      intros b' [Hb'|Hb'%list_elem_of_singleton]%elem_of_app; [|by subst b']. by eapply has_arc_grow, Harcs.
  - intros ? s' (? & ? & Ha). split_and!; [done|done|]. intros b Hb. by apply Ha, elem_of_set_in_order.
Qed.

Lemma exchange_wf_static s s' : static s s' → exchange_wf s → exchange_wf s'.
Proof.
  intros Hst [Hn1 Hn2 Hr Hb]. split.
  - by rewrite (st_ex_requests _ _ Hst).
  - by rewrite (st_ex_bids _ _ Hst).
  - intros port. rewrite (st_ex_requests _ _ Hst). intros Hp. destruct (Hr port Hp) as (rp & Hrp & Hro).
    destruct (rport_ok_static s s' port rp Hst Hrp Hro) as (rp' & ? & ? & _). by exists rp'.
  - intros port. rewrite (st_ex_bids _ _ Hst). intros Hp. destruct (Hb port Hp) as (bp & Hbp & Hbo).
    exists bp. rewrite (st_bports _ _ Hst). split; [done|]. intros b Hin. by eapply bid_ok_static, Hbo.
Qed.

Lemma requests_in_static s s' ports r : static s s' → requests_in s' ports r → exchange_wf s →
  (∀ p, p ∈ ports → p ∈ ex_requests (d_ctx s)) → requests_in s ports r.
Proof.
  intros Hst (port & rp' & Hin & Hrp' & Hr) Hwf Hsub. destruct (ew_rport _ Hwf port (Hsub _ Hin)) as (rp & Hrp & _).
  destruct (st_rports _ _ Hst port rp Hrp) as (rp2 & Hrp2 & Hreq & _). assert (rp2 = rp') as -> by congruence.
  exists port, rp. by rewrite <-Hreq.
Qed.

Lemma translate_bids_runs port bp s :
  xlat_ok s → exchange_wf s → d_bports s !! port = Some bp → port ∈ ex_bids (d_ctx s) →
  (∀ r, requests_in s (ex_requests (d_ctx s)) r → r ∈ known_reqs s) → (∀ b, b ∈ bp_bids bp → b ∉ known_bids s) →
  runs (translate_bids manager_id port) s (λ _ s', grow s s' ∧ known_reqs s' = known_reqs s ∧
    known_bids s' = bp_bids bp ∪ known_bids s ∧ ∀ b, b ∈ bp_bids bp → has_arc s' b).
Proof.
  intros Hok Hwf Hbp Hport Hreqs Hnew. destruct (ew_bport _ Hwf port Hport) as (bp' & Hbp' & Hbo).
  assert (bp' = bp) as -> by congruence. unfold translate_bids. apply runs_bind.
  eapply runs_mono; [apply (TranslateBidPortfolio_runs port bp); [done|done|]|].
  { intros b Hin. split; [apply (bo_known _ _ _ _ (Hbo b Hin))|by apply Hnew]. }
  intros gp s1 Hs1. apply runs_bind. eapply runs_mono; [apply gentle_runs; [apply gentle_AddSupplyGroup|apply Hs1]|].
  intros ? s2 Hs12. pose proof (adds_step_r _ _ _ _ _ Hs1 Hs12) as (Hg2 & Hr2 & Hb2 & _).
  pose proof (gr_static _ _ Hg2) as Hst2. apply runs_bind.
  assert (d_bports s2 !! port = Some bp) as Hbp2 by by rewrite (st_bports _ _ Hst2).
  eapply read_runs; [exact Hbp2|]. eapply runs_mono; [apply (bid_arcs_runs port bp s2)|].
  - apply Hg2.
  - by eapply exchange_wf_static.
  - done.
  - by rewrite (st_ex_bids _ _ Hst2).
  - intros r Hr. rewrite Hr2. apply elem_of_union_r, Hreqs. rewrite (st_ex_requests _ _ Hst2) in Hr.
    by eapply requests_in_static.
  - intros b Hb. rewrite Hb2. by apply elem_of_union_l.
  - intros ? s3 (Hg3 & Hx3 & Ha3). unfold known_reqs, known_bids in *. rewrite Hx3.
    split_and!; [by eapply grow_trans|rewrite Hr2; set_solver|done|done].
Qed.

Lemma all_bids_runs s :
  xlat_ok s → exchange_wf s → known_bids s = ∅ →
  (∀ r, requests_in s (ex_requests (d_ctx s)) r → r ∈ known_reqs s) →
  runs (for_each (translate_bids manager_id) (ex_bids (d_ctx s))) s (λ _ s', grow s s' ∧
    known_reqs s' = known_reqs s ∧ (∀ b, b ∈ known_bids s' ↔ bids_in s (ex_bids (d_ctx s)) b) ∧
    ∀ b, bids_in s (ex_bids (d_ctx s)) b → has_arc s' b).
Proof.
  intros Hok Hwf Hempty Hreqs. pose proof (ew_bids _ Hwf) as Hnd.
  apply (runs_for_each_visited (λ pre s', grow s s' ∧ known_reqs s' = known_reqs s ∧
    (∀ b, b ∈ known_bids s' ↔ bids_in s pre b) ∧ ∀ b, bids_in s pre b → has_arc s' b)).
  { assert (∀ b, ¬ bids_in s [] b) as Hno by (by intros b (? & ? & ?%elem_of_nil & _)).
    split_and!; [by apply step_grow, xlat_ok_refl|done| |by intros b ?%Hno].
    intros b. rewrite Hempty. split; [set_solver|by intros ?%Hno]. }
  intros pre port post s1 Hl (Hg & Hr & Hk & Ha). rewrite Hl in Hnd. apply NoDup_app in Hnd as (_ & Hdis & _).
  assert (port ∈ ex_bids (d_ctx s)) as Hport by (rewrite Hl; set_solver).
  destruct (ew_bport _ Hwf port Hport) as (bp & Hbp & Hbo). pose proof (gr_static _ _ Hg) as Hst.
  eapply runs_mono; [apply (translate_bids_runs port bp s1); [apply Hg|by eapply exchange_wf_static|by rewrite (st_bports _ _ Hst)|by rewrite (st_ex_bids _ _ Hst)| |]|].
  - intros r. rewrite (st_ex_requests _ _ Hst), Hr. intros Hin. apply Hreqs. by eapply requests_in_static.
  - intros b Hb Hin. apply Hk in Hin as (port' & bp' & Hpre & Hbp' & Hb').
    destruct (ew_bport _ Hwf port') as (bp'' & Hbp'' & Hbo'); [rewrite Hl; set_solver|].
    assert (bp'' = bp') as -> by congruence.
    destruct (bo_known _ _ _ _ (Hbo b Hb)) as (bd & _ & _ & Hbd & _).
    assert (port' = port) as ->.
    { rewrite <-(proj1 (bo_port _ _ _ _ (Hbo b Hb) bd Hbd)). by rewrite (proj1 (bo_port _ _ _ _ (Hbo' b Hb') bd Hbd)). }
    apply (Hdis port Hpre). by left.
  - assert (∀ b, bids_in s (pre ++ [port]) b ↔ b ∈ bp_bids bp ∨ bids_in s pre b) as Hsplit.
    { intros b. split.
      - intros (port' & bp' & Hin & Hbp' & Hb). apply elem_of_app in Hin as [Hin|Hin%list_elem_of_singleton].
        + right. by exists port', bp'.
        + subst port'. left. congruence.
      - intros [Hin|(port' & bp' & ? & ?)]; [exists port, bp|exists port', bp']; set_solver. }
    intros ? s2 (Hg2 & Hr2 & Hb2 & Ha2). split_and!; [by eapply grow_trans|congruence| |].
    + intros b. rewrite Hb2, elem_of_union, Hk, Hsplit. done.
    + intros b [Hb|Hb]%Hsplit; [by apply Ha2|]. by eapply has_arc_grow, Ha.
Qed.

Lemma Translate_runs s :
  exchange_wf s → d_xlat s = mkXlat ∅ ∅ ∅ ∅ →
  runs (Translate manager_id) s (λ _ s', static s s' ∧ xlat_ok s' ∧
    (∀ r, r ∈ known_reqs s' ↔ requests_in s (ex_requests (d_ctx s)) r) ∧
    (∀ b, b ∈ known_bids s' ↔ bids_in s (ex_bids (d_ctx s)) b) ∧
    ∀ b, bids_in s (ex_bids (d_ctx s)) b → has_arc s' b).
Proof.
  intros Hwf Hx. unfold Translate. apply runs_bind, runs_modify, runs_bind, runs_get.
  set (s0 := set_dgraph new_graph s).
  assert (static s s0) as Hst0 by (split; try done; intros p rp Hp; by exists rp).
  pose proof (exchange_wf_static _ _ Hst0 Hwf) as Hwf0.
  assert (xlat_ok s0) as Hok0.
  { split; cbn; rewrite ?Hx; cbn; try done; try (intros ? [? ?]; done). by intros a ?%elem_of_nil. }
  apply runs_bind. eapply runs_mono; [apply (all_requests_runs s0); [done|done|]|].
  { unfold known_reqs. cbn. rewrite Hx. cbn. apply dom_empty_L. }
  intros ? s1 (Hg1 & Hr1 & Hb1). pose proof (gr_static _ _ Hg1) as Hst1.
  rewrite <-(st_ex_bids _ _ Hst1).
  eapply runs_mono; [apply (all_bids_runs s1); [apply Hg1|by eapply exchange_wf_static| |]|].
  { rewrite Hb1. unfold known_bids. cbn. rewrite Hx. cbn. apply dom_empty_L. }
  { intros r Hr. apply Hr1. rewrite (st_ex_requests _ _ Hst1) in Hr. by eapply requests_in_static. }
  intros ? s2 (Hg2 & Hr2 & Hb2 & Ha2).
  assert (∀ b, bids_in s1 (ex_bids (d_ctx s1)) b ↔ bids_in s (ex_bids (d_ctx s)) b) as Hbi.
  { intros b. unfold bids_in. by rewrite (st_ex_bids _ _ Hst1), (st_bports _ _ Hst1). }
  split_and!; [etrans; [exact Hst0|]; etrans; [exact Hst1|apply Hg2]|apply Hg2| | |].
  - intros r. rewrite Hr2. apply Hr1.
  - intros b. by rewrite Hb2.
  - intros b Hb. by apply Ha2, Hbi.
Qed.
End theory.
