(* ===== verification/ExchangeManager.v ===== *)
(** * Running an exchange

    [src/src/trade_executor.h], [resource_exchange.h], [exchange_manager.h] and the
    calls of [trader_management.h].  What the traders and the agents above them do
    when they are called is a parameter: the record [TraderOps]. *)

From Stdlib Require Import QArith Qabs Lqa ZArith Lia.
From stdpp Require Import base list gmap strings sorting.
From S2P Require Import Prelude Num Arithmetic CompMath Resource Material ExchangeGraph Portfolio Translator.

Record TradeExecutionContext {F : Type} := mkTradeCtx {
  suppliers : gset ptr;
  tc_requesters : gset ptr;
  trades_by_supplier : gmap ptr (list (Trade F));
  trades_by_requester : gmap ptr (list (Trade F * ptr));
  all_trades : gmap (ptr * ptr) (list (Trade F * ptr))
}.
Arguments TradeExecutionContext F : clear implicits.

Record ExchangeState {F : Type} := mkXState {
  x_dre : DRE F;
  trans_id_ : Z;
  traders_ : list ptr;
  trade_ctx_ : TradeExecutionContext F
}.
Arguments ExchangeState F : clear implicits.

(** The virtual functions of [Trader] and the preference adjustment of the agents
    above it.  [adjust] gets and returns the preferences of one trader. *)
Record TraderOps {F : Type} := mkTraderOps {
  manager_id : ptr → Z;
  ancestors : ptr → list ptr;
  query_requests : ptr → M (DRE F) (gset ptr);
  query_bids : ptr → M (DRE F) (gset ptr);
  adjust : ptr → gmap ptr (gmap ptr F) → M (DRE F) (gmap ptr (gmap ptr F));
  agent_adjust : ptr → gmap ptr (gmap ptr F) → M (DRE F) (gmap ptr (gmap ptr F));
  trade_responses : ptr → list (Trade F) → M (DRE F) (list (Trade F * ptr));
  accept_trades : ptr → list (Trade F * ptr) → M (DRE F) unit
}.
Arguments TraderOps F : clear implicits.

Section manager.
Context {F : Type} `{Num F} `{FloatDistance F}.
Context (ops : TraderOps F).
Local Abbreviation X := (M (ExchangeState F)).

Definition set_dre (d : DRE F) (x : ExchangeState F) : ExchangeState F :=
  mkXState F d (trans_id_ x) (traders_ x) (trade_ctx_ x).
Definition set_trans_id (i : Z) (x : ExchangeState F) : ExchangeState F :=
  mkXState F (x_dre x) i (traders_ x) (trade_ctx_ x).
Definition set_traders (l : list ptr) (x : ExchangeState F) : ExchangeState F :=
  mkXState F (x_dre x) (trans_id_ x) l (trade_ctx_ x).
Definition set_trade_ctx (c : TradeExecutionContext F) (x : ExchangeState F) : ExchangeState F :=
  mkXState F (x_dre x) (trans_id_ x) (traders_ x) c.

(** Running a call on the part of the state it works on. *)
Definition on_dre {A} (c : M (DRE F) A) : X A := λ x,
  let '(o, d) := c (x_dre x) in (o, set_dre d x).
Definition on_world {A} (c : M (World F) A) : X A := on_dre (λ d,
  let '(o, w) := c (d_world d) in (o, set_world w d)).

(** ** TradeExecutor *)
Definition new_trade_ctx : TradeExecutionContext F := mkTradeCtx F ∅ ∅ ∅ ∅ ∅.

(** [GroupTradesBySupplier(trade_ctx, trades)] *)
Definition group_trade (requester bidder : ptr) (t : Trade F) (c : TradeExecutionContext F) :
    TradeExecutionContext F :=
  mkTradeCtx F ({[bidder]} ∪ suppliers c) ({[requester]} ∪ tc_requesters c)
    (<[bidder := at_default [] (trades_by_supplier c) bidder ++ [t]]> (trades_by_supplier c))
    (trades_by_requester c) (all_trades c).
Definition GroupTradesBySupplier (trades : list (Trade F)) : X unit :=
  for_each (λ t,
    bd ← on_dre (read d_bids (tr_bid t));
    rq ← on_dre (read d_reqs (tr_request t));
    modify (λ x, set_trade_ctx (group_trade (requester_ rq) (bidder_ bd) t (trade_ctx_ x)) x)) trades.

(** [GetTradeResponses(trade_ctx)] *)
Definition push_response (supplier requester : ptr) (r : Trade F * ptr) (c : TradeExecutionContext F) :
    TradeExecutionContext F :=
  mkTradeCtx F (suppliers c) (tc_requesters c) (trades_by_supplier c)
    (<[requester := at_default [] (trades_by_requester c) requester ++ [r]]> (trades_by_requester c))
    (<[(supplier, requester) := at_default [] (all_trades c) (supplier, requester) ++ [r]]> (all_trades c)).
Definition responses_of (supplier : ptr) : X unit :=
  x ← get;
  responses ← on_dre (trade_responses ops supplier (at_default [] (trades_by_supplier (trade_ctx_ x)) supplier));
  for_each (λ r,
    rq ← on_dre (read d_reqs (tr_request r.1));
    modify (λ x, set_trade_ctx (push_response supplier (requester_ rq) r (trade_ctx_ x)) x)) responses.
Definition GetTradeResponses : X unit :=
  x ← get; for_each responses_of (set_in_order (suppliers (trade_ctx_ x))).

(** [RecordTrades(ctx)] *)
Definition NextTransactionID : X Z :=
  x ← get; modify (set_trans_id (trans_id_ x + 1)%Z);; mret (trans_id_ x).
Definition record_trade (k : ptr * ptr) (r : Trade F * ptr) : X unit :=
  id ← NextTransactionID;
  res ← on_world (get_res r.2);
  rq ← on_dre (read d_reqs (tr_request r.1));
  x ← get;
  on_world (record_datum "Transactions"
    [("TransactionId", DInt id); ("SenderId", DInt (manager_id ops k.1));
     ("ReceiverId", DInt (manager_id ops k.2)); ("ResourceId", DInt (state_id_ res));
     ("Commodity", DStr (commodity_ rq)); ("Time", DInt (ctx_time (d_world (x_dre x))))]).
Definition RecordTrades : X unit :=
  x ← get;
  for_each (λ kv, for_each (record_trade kv.1) kv.2) (in_order (all_trades (trade_ctx_ x))).

(** [SendTradeResources(trade_ctx)] *)
Definition SendTradeResources : X unit :=
  x ← get;
  for_each (λ t, on_dre (accept_trades ops t (at_default [] (trades_by_requester (trade_ctx_ x)) t)))
    (set_in_order (tc_requesters (trade_ctx_ x))).

(** [ExecuteTrades(ctx)] of a new executor; without a context nothing is recorded. *)
Definition ExecuteTrades (ctx : bool) (trades : list (Trade F)) : X unit :=
  modify (set_trade_ctx new_trade_ctx);;
  GroupTradesBySupplier trades;;
  GetTradeResponses;;
  (if ctx then RecordTrades else mret tt);;
  SendTradeResources.

(** ** ResourceExchange *)

(** [trader_compare]: by manager id, then by address. *)
Definition trader_le (a b : ptr) : Prop := pair_le (manager_id ops a, a) (manager_id ops b, b).
#[local] Instance trader_le_dec : RelDecision trader_le.
Proof. intros a b. unfold trader_le. apply _. Defined.

(** [InitTraders()]; [sim] are the traders of the simulation context. *)
Definition InitTraders (sim : gset ptr) : X unit :=
  x ← get;
  match traders_ x with
  | [] => modify (set_traders (merge_sort trader_le (elements sim)))
  | _ => mret tt
  end.

Definition AddRequests_ (t : ptr) : M (DRE F) unit :=
  rps ← query_requests ops t; for_each AddRequestPortfolio (set_in_order rps).
Definition AddBids_ (t : ptr) : M (DRE F) unit :=
  bps ← query_bids ops t; for_each AddBidPortfolio (set_in_order bps).

(** [AdjustPrefs_(t)]: the trader, then every agent above its manager. *)
Definition set_trader_prefs (t : ptr) (prefs : gmap ptr (gmap ptr F)) (d : DRE F) : DRE F :=
  let c := d_ctx d in
  set_ctx (mkExCtx F (ex_requests c) (ex_bids c) (requesters c) (bidders c) (commod_requests c)
    (bids_by_request c) (<[t := prefs]> (trader_prefs c))) d.
Definition adjust_with (f : gmap ptr (gmap ptr F) → M (DRE F) (gmap ptr (gmap ptr F))) (t : ptr) :
    M (DRE F) unit :=
  d ← get;
  prefs ← f (at_default ∅ (trader_prefs (d_ctx d)) t);
  modify (set_trader_prefs t prefs).
Definition AdjustPrefs_ (t : ptr) : M (DRE F) unit :=
  adjust_with (adjust ops t) t;;
  for_each (λ m, adjust_with (agent_adjust ops m) t) (ancestors ops t).

Definition AddAllRequests (sim : gset ptr) : X unit :=
  InitTraders sim;; x ← get; on_dre (for_each AddRequests_ (traders_ x)).
Definition AddAllBids (sim : gset ptr) : X unit :=
  InitTraders sim;; x ← get; on_dre (for_each AddBids_ (traders_ x)).
Definition AdjustAll (sim : gset ptr) : X unit :=
  InitTraders sim;;
  x ← get;
  on_dre (for_each AdjustPrefs_ (set_in_order (requesters (d_ctx (x_dre x))))).
Definition Empty (d : DRE F) : bool := bool_decide (bids_by_request (d_ctx d) = ∅).

(** ** ExchangeManager *)

(** [RecordDebugInfo(exctx)].  [req_id] prints the time and the address of a
    request; a boolean is recorded as 0 or 1. *)
Definition debug_request (req_id : Z → ptr → string) (r : ptr) : X unit :=
  rq ← on_dre (read d_reqs r);
  res ← on_world (get_res (target_ rq));
  x ← get;
  let t := ctx_time (d_world (x_dre x)) in
  on_world (record_datum "DebugRequests"
    [("Time", DInt t); ("ReqId", DStr (req_id t r)); ("RequesterID", DInt (manager_id ops (requester_ rq)));
     ("Commodity", DStr (commodity_ rq)); ("Preference", DDbl (preference_ rq));
     ("Exclusive", DInt (Z.b2z (rq_exclusive rq))); ("ResType", DStr (res_type res));
     ("Quantity", DDbl (res_qty res)); ("ResUnits", DStr (res_units res))]).
Definition debug_bid (req_id : Z → ptr → string) (b : ptr) : X unit :=
  bd ← on_dre (read d_bids b);
  rq ← on_dre (read d_reqs (request_ bd));
  res ← on_world (get_res (offer_ bd));
  x ← get;
  let c := d_ctx (x_dre x) in
  let pref := default (nZ 0) (pref_of c (requester_ rq) (request_ bd) b) in
  modify (λ x, set_dre (set_ctx (mkExCtx F (ex_requests c) (ex_bids c) (requesters c) (bidders c)
    (commod_requests c) (bids_by_request c)
    (insert_pref (requester_ rq) (request_ bd) b (nZ 0) (trader_prefs c))) (x_dre x)) x);;
  on_world (record_datum "DebugBids"
    [("ReqId", DStr (req_id (ctx_time (d_world (x_dre x))) (request_ bd)));
     ("BidderId", DInt (manager_id ops (bidder_ bd))); ("BidQuantity", DDbl (res_qty res));
     ("Exclusive", DInt (Z.b2z (bd_exclusive bd))); ("Preference", DDbl pref)]).
Definition RecordDebugInfo (req_id : Z → ptr → string) : X unit :=
  x ← get;
  for_each (λ port, rp ← on_dre (read d_rports port); for_each (debug_request req_id) (rp_requests rp))
    (ex_requests (d_ctx (x_dre x)));;
  for_each (λ port, bp ← on_dre (read d_bports port); for_each (debug_bid req_id) (set_in_order (bp_bids bp)))
    (ex_bids (d_ctx (x_dre x))).

(** [Execute()], with a solver that leaves its matches in the graph. *)
Definition empty_xlat : ExchangeTranslationContext := mkXlat ∅ ∅ ∅ ∅.
Definition Execute (debug : bool) (req_id : Z → ptr → string) (sim : gset ptr)
    (solve : M (ExchangeGraph F) F) : X unit :=
  modify (λ x, set_traders [] (set_dre (set_xlat empty_xlat (set_ctx new_ex_ctx (x_dre x))) x));;
  AddAllRequests sim;;
  AddAllBids sim;;
  AdjustAll sim;;
  (if debug then RecordDebugInfo req_id else mret tt);;
  x ← get;
  if Empty (x_dre x) then mret tt
  else
    on_dre (Translate (manager_id ops));;
    on_dre (λ d, let '(o, g) := solve (d_graph d) in (o, set_dgraph g d));;
    x ← get;
    trades ← on_dre (BackTranslateSolution (matches_ (d_graph (x_dre x))));
    ExecuteTrades true trades.
End manager.
