(* ===== verification/Traders.v ===== *)
(** * Traders

    The traders that come with the program: [src/src/toolkit/matl_buy_policy.h], [.cc],
    [matl_sell_policy.h], [.cc], and the facilities [src/agents/source.h], [.cc], [sink.h]
    and [.cc].  A trader works on the state of the exchange, on its buffer, and a buying
    policy also on itself; the recipes of the simulation context are an argument. *)

From Stdlib Require Import QArith Lqa ZArith Lia.
From stdpp Require Import base list gmap strings.
From S2P Require Import Prelude Num Arithmetic CompMath Resource Material ResBuf ExchangeGraph Portfolio Translator.

Record CommodDetail {F : Type} := mkDetail { cd_comp : ptr; cd_pref : F }.
Arguments CommodDetail F : clear implicits.

Record MatlBuyPolicy {F : Type} := mkBuyPolicy {
  by_manager : option ptr;
  by_name : string;
  fill_to_ : F;
  req_when_under_ : F;
  by_quantize : F;
  by_throughput : F;
  rsrc_commods_ : gmap ptr string;
  commod_details_ : gmap string (CommodDetail F)
}.
Arguments MatlBuyPolicy F : clear implicits.

Record MatlSellPolicy {F : Type} := mkSellPolicy {
  sl_manager : option ptr;
  sl_name : string;
  commods_ : gset string;
  sl_quantize : F;
  sl_throughput : F;
  ignore_comp_ : bool
}.
Arguments MatlSellPolicy F : clear implicits.

Record Source {F : Type} := mkSource { commod : string; src_recipe : string; src_capacity : F }.
Arguments Source F : clear implicits.
Record Sink {F : Type} := mkSink { in_commods : list string; snk_recipe : string; max_inv_size : F; snk_capacity : F }.
Arguments Sink F : clear implicits.

Section traders.
Context {F : Type} `{Num F} `{Limits F} `{Pyne F}.
Local Abbreviation D := (M (DRE F)).
Local Abbreviation T := (M (DRE F * ResBuf F)).
Local Abbreviation BP := (M ((DRE F * ResBuf F) * MatlBuyPolicy F)).

(** Calls on the resources, and on the resources with the buffer. *)
Definition in_world {A} (c : M (World F) A) : D A := λ d,
  let '(o, w) := c (d_world d) in (o, set_world w d).
Definition on_buf {A} (c : M (World F * ResBuf F) A) : T A := λ s,
  let '(o, (w, b)) := c (d_world s.1, s.2) in (o, (set_world w s.1, b)).

(** [static_cast<int>(x)] *)
Definition to_int_cast (x : F) : outcome Z :=
  match ntrunc x with Some z => if in_int z then Ret z else Throw Undefined | None => Throw Undefined end.

(** [Start()] and [Stop()] of both policies, on the set of traders of the context. *)
Definition Start (this : ptr) (manager : option ptr) : M (gset ptr) unit :=
  require (bool_decide (is_Some manager)) ValueError;; modify (λ X, {[this]} ∪ X).
Definition Stop (this : ptr) (manager : option ptr) : M (gset ptr) unit :=
  require (bool_decide (is_Some manager)) ValueError;; modify (λ X, X ∖ {[this]}).

(** ** MatlBuyPolicy *)
Definition new_MatlBuyPolicy : MatlBuyPolicy F :=
  mkBuyPolicy F None "" (nZ 1) (nZ 1) (nZ (-1)) ndblmax ∅ ∅.

Definition fraction_of (cap x : F) : outcome F :=
  let x := if (x >? nZ 1)%D then (x / cap)%D else x in
  if (x >? nZ 0)%D && (x <=? nZ 1)%D then Ret x else Throw AssertFailure.
Definition by_set_fill_to (b : ResBuf F) (x : F) (p : MatlBuyPolicy F) : outcome (MatlBuyPolicy F) :=
  x ← fraction_of (cap_ b) x;
  Ret (mkBuyPolicy F (by_manager p) (by_name p) x (req_when_under_ p) (by_quantize p) (by_throughput p)
    (rsrc_commods_ p) (commod_details_ p)).
Definition by_set_req_when_under (b : ResBuf F) (x : F) (p : MatlBuyPolicy F) : outcome (MatlBuyPolicy F) :=
  x ← fraction_of (cap_ b) x;
  Ret (mkBuyPolicy F (by_manager p) (by_name p) (fill_to_ p) x (by_quantize p) (by_throughput p)
    (rsrc_commods_ p) (commod_details_ p)).
Definition by_set_quantize (x : F) (p : MatlBuyPolicy F) : outcome (MatlBuyPolicy F) :=
  if (x !=? nZ 0)%D then
    Ret (mkBuyPolicy F (by_manager p) (by_name p) (fill_to_ p) (req_when_under_ p) x (by_throughput p)
      (rsrc_commods_ p) (commod_details_ p))
  else Throw AssertFailure.
Definition by_set_throughput (x : F) (p : MatlBuyPolicy F) : outcome (MatlBuyPolicy F) :=
  if (x >=? nZ 0)%D then
    Ret (mkBuyPolicy F (by_manager p) (by_name p) (fill_to_ p) (req_when_under_ p) (by_quantize p) x
      (rsrc_commods_ p) (commod_details_ p))
  else Throw AssertFailure.

(** The versions of [Init]; the last one does what the second and third do, and more. *)
Definition by_Init (manager : ptr) (name : string) (p : MatlBuyPolicy F) : MatlBuyPolicy F :=
  mkBuyPolicy F (Some manager) name (fill_to_ p) (req_when_under_ p) (by_quantize p) (by_throughput p)
    (rsrc_commods_ p) (commod_details_ p).
Definition by_Init_throughput (manager : ptr) (name : string) (throughput : F) (p : MatlBuyPolicy F) :
    outcome (MatlBuyPolicy F) := by_set_throughput throughput (by_Init manager name p).
Definition by_Init_levels (manager : ptr) (b : ResBuf F) (name : string) (fill_to req_when_under : F) (p : MatlBuyPolicy F) :
    outcome (MatlBuyPolicy F) :=
  p ← by_set_fill_to b fill_to (by_Init manager name p); by_set_req_when_under b req_when_under p.
Definition by_Init_all (manager : ptr) (b : ResBuf F) (name : string) (throughput fill_to req_when_under quantize : F)
    (p : MatlBuyPolicy F) : outcome (MatlBuyPolicy F) :=
  p ← by_set_fill_to b fill_to (by_Init manager name p);
  p ← by_set_req_when_under b req_when_under p;
  p ← by_set_quantize quantize p;
  by_set_throughput throughput p.

(** [Set(commod, c, pref)], without a preference, and without a composition. *)
Definition by_Set (commod : string) (c : ptr) (pref : F) (p : MatlBuyPolicy F) : MatlBuyPolicy F :=
  mkBuyPolicy F (by_manager p) (by_name p) (fill_to_ p) (req_when_under_ p) (by_quantize p) (by_throughput p)
    (rsrc_commods_ p) (<[commod := mkDetail F c pref]> (commod_details_ p)).
Definition by_Set_comp (commod : string) (c : ptr) : MatlBuyPolicy F → MatlBuyPolicy F := by_Set commod c (nZ 1).
Definition by_Set_any (commod : string) (p : MatlBuyPolicy F) : M (World F) (MatlBuyPolicy F) :=
  c ← CreateFromMass {[10010000%Z := nlit (1 # 10 ^ 100)]}; mret (by_Set commod c (nZ 1) p).

Definition TotalQty (p : MatlBuyPolicy F) (b : ResBuf F) : F :=
  dmin (by_throughput p) (fill_to_ p * cap_ b - qty_ b)%D.
Definition by_Excl (p : MatlBuyPolicy F) : bool := (by_quantize p >? nZ 0)%D.
Definition ReqQty (p : MatlBuyPolicy F) (b : ResBuf F) : F := if by_Excl p then by_quantize p else TotalQty p b.
Definition NReq (p : MatlBuyPolicy F) (b : ResBuf F) : outcome Z :=
  if by_Excl p then to_int_cast (TotalQty p b / by_quantize p)%D else Ret 1%Z.

Definition set_rsrc_commods (m : gmap ptr string) (p : MatlBuyPolicy F) : MatlBuyPolicy F :=
  mkBuyPolicy F (by_manager p) (by_name p) (fill_to_ p) (req_when_under_ p) (by_quantize p) (by_throughput p)
    m (commod_details_ p).

(** One portfolio, with a request for each commodity; [grps] is a map with the one key [i]. *)
Definition add_commod_request (this port : ptr) (req_amt : F) (excl : bool) (kv : string * CommodDetail F) : D ptr :=
  m ← in_world (CreateUntrackedMaterial req_amt (cd_comp kv.2));
  AddRequest port m this kv.1 (cd_pref kv.2) excl.
Definition request_port (this : ptr) (p : MatlBuyPolicy F) (req_amt : F) (excl : bool) (i : Z) : D ptr :=
  port ← new_request_portfolio;
  rs ← for_collect (add_commod_request this port req_amt excl) (in_order (commod_details_ p));
  let grps : gmap Z (list ptr) := if decide (rs = []) then ∅ else {[i := rs]} in
  (if decide (1 < size grps)%nat then for_each (λ kv, AddMutualReqs port kv.2) (in_order grps) else mret tt);;
  mret port.
(** [for (i = 0; i != n_req; i++)] does not stop for a negative number. *)
Definition by_GetMatlRequests (this : ptr) : BP (gset ptr) :=
  lift_r (modify (set_rsrc_commods ∅));;
  s ← get;
  let '((_, b), p) := s in
  let make_req := (qty_ b <? req_when_under_ p * cap_ b)%D in
  let amt := TotalQty p b in
  if negb make_req || (amt <? eps)%D then mret ∅
  else
    n_req ← pure (NReq p b);
    if (n_req <? 0)%Z then throw Undefined
    else
      ports ← lift_l (lift_l (for_collect (request_port this p (ReqQty p b) (by_Excl p)) (seqZ 0 n_req)));
      mret (list_to_set ports).

Definition by_AcceptMatlTrades (resps : list (Trade F * ptr)) : BP unit :=
  lift_r (modify (set_rsrc_commods ∅));;
  for_each (λ r,
    rq ← lift_l (lift_l (read d_reqs (tr_request r.1)));
    lift_r (modify (λ p, set_rsrc_commods (<[r.2 := commodity_ rq]> (rsrc_commods_ p)) p));;
    lift_l (on_buf (Push TMaterial r.2))) resps.

(** ** MatlSellPolicy *)
Definition new_MatlSellPolicy : MatlSellPolicy F := mkSellPolicy F None "" ∅ (nZ (-1)) ndblmax false.
Definition sl_set_quantize (x : F) (p : MatlSellPolicy F) : outcome (MatlSellPolicy F) :=
  if (x !=? nZ 0)%D
  then Ret (mkSellPolicy F (sl_manager p) (sl_name p) (commods_ p) x (sl_throughput p) (ignore_comp_ p))
  else Throw AssertFailure.
Definition sl_set_throughput (x : F) (p : MatlSellPolicy F) : outcome (MatlSellPolicy F) :=
  if (x >=? nZ 0)%D
  then Ret (mkSellPolicy F (sl_manager p) (sl_name p) (commods_ p) (sl_quantize p) x (ignore_comp_ p))
  else Throw AssertFailure.
Definition sl_set_ignore_comp (x : bool) (p : MatlSellPolicy F) : MatlSellPolicy F :=
  mkSellPolicy F (sl_manager p) (sl_name p) (commods_ p) (sl_quantize p) (sl_throughput p) x.
Definition sl_Init (manager : ptr) (name : string) (p : MatlSellPolicy F) : MatlSellPolicy F :=
  mkSellPolicy F (Some manager) name (commods_ p) (sl_quantize p) (sl_throughput p) (ignore_comp_ p).
Definition sl_Init_throughput (manager : ptr) (name : string) (throughput : F) (p : MatlSellPolicy F) :
    outcome (MatlSellPolicy F) := sl_set_throughput throughput (sl_Init manager name p).
Definition sl_Init_ignore (manager : ptr) (name : string) (ignore_comp : bool) (p : MatlSellPolicy F) : MatlSellPolicy F :=
  sl_set_ignore_comp ignore_comp (sl_Init manager name p).
Definition sl_Init_throughput_ignore (manager : ptr) (name : string) (throughput : F) (ignore_comp : bool)
    (p : MatlSellPolicy F) : outcome (MatlSellPolicy F) :=
  p ← sl_Init_throughput manager name throughput p; Ret (sl_set_ignore_comp ignore_comp p).
Definition sl_Init_all (manager : ptr) (name : string) (throughput : F) (ignore_comp : bool) (quantize : F)
    (p : MatlSellPolicy F) : outcome (MatlSellPolicy F) :=
  p ← sl_set_quantize quantize (sl_Init manager name p);
  p ← sl_set_throughput throughput p;
  Ret (sl_set_ignore_comp ignore_comp p).
Definition sl_Set (commod : string) (p : MatlSellPolicy F) : MatlSellPolicy F :=
  mkSellPolicy F (sl_manager p) (sl_name p) ({[commod]} ∪ commods_ p) (sl_quantize p) (sl_throughput p) (ignore_comp_ p).

Definition sl_Excl (p : MatlSellPolicy F) : bool := (sl_quantize p >? nZ 0)%D.
Definition Limit (p : MatlSellPolicy F) (b : ResBuf F) : outcome F :=
  let bcap := qty_ b in
  limit ← (if sl_Excl p then n ← to_int_cast (nfloor (bcap / sl_quantize p)%D); Ret (sl_quantize p * nZ n)%D else Ret bcap);
  Ret (dmin (sl_throughput p) limit).

(** One bid: the first material of the buffer goes to its end. *)
Definition sell_bid (this : ptr) (p : MatlSellPolicy F) (port req : ptr) (qty : F) : T unit :=
  m ← on_buf PopFront;
  on_buf (Push TMaterial m);;
  c ← lift_l (if ignore_comp_ p then rq ← read d_reqs req; in_world (comp (target_ rq)) else in_world (comp m));
  offer ← lift_l (in_world (CreateUntrackedMaterial qty c));
  _ ← lift_l (AddBid_default port req offer this (sl_Excl p));
  mret tt.
Definition sell_request (this : ptr) (p : MatlSellPolicy F) (port : ptr) (limit : F) (req : ptr) : T unit :=
  tq ← lift_l (target_quantity req);
  let qty := dmin tq limit in
  nbids ← pure (if sl_Excl p then to_int_cast (nfloor (qty / sl_quantize p)%D) else Ret 1%Z);
  let qty := if sl_Excl p then sl_quantize p else qty in
  for_each (λ _, sell_bid this p port req qty) (seqZ 0 nbids).
Definition sl_GetMatlBids (this : ptr) (p : MatlSellPolicy F) (commod_requests : gmap string (list ptr)) : T (gset ptr) :=
  b ← gets snd;
  if bool_decide (rs_ b = []) || (qty_ b <? eps)%D then mret ∅
  else
    port ← lift_l new_bid_portfolio;
    limit ← pure (Limit p b);
    cc ← lift_l (new_trivial_constraint limit);
    lift_l (bp_AddConstraint port cc);;
    for_each (λ commod, match commod_requests !! commod with
                        | None => mret tt
                        | Some requests => for_each (sell_request this p port limit) requests
                        end) (set_in_order (commods_ p));;
    mret {[port]}.

Definition sell_trade (p : MatlSellPolicy F) (t : Trade F) : T (Trade F * ptr) :=
  mat ← on_buf (PopQtyEps TMaterial (amt t) eps_rsrc);
  (if ignore_comp_ p then
     rq ← lift_l (read d_reqs (tr_request t));
     c ← lift_l (in_world (comp (target_ rq)));
     lift_l (in_world (Transmute mat c))
   else mret tt);;
  mret (t, mat).
Definition sl_GetMatlTrades (p : MatlSellPolicy F) (trades : list (Trade F)) : T (list (Trade F * ptr)) :=
  for_collect (sell_trade p) trades.

(** ** Source and Sink *)

(** [context()->GetRecipe(name)] *)
Definition recipe_of (recipes : gmap string ptr) (name : string) : D ptr := from_option_or KeyError (recipes !! name).

Definition new_Source : Source F := mkSource F "" "" (nZ 100).
Definition GetOffer (recipes : gmap string ptr) (src : Source F) (target : ptr) : D ptr :=
  tq ← res_quantity target;
  let qty := dmin tq (src_capacity src) in
  if decide (src_recipe src = "") then mret target
  else c ← recipe_of recipes (src_recipe src); in_world (CreateUntrackedMaterial qty c).
Definition src_GetMatlBids (recipes : gmap string ptr) (this : ptr) (src : Source F) (commod_requests : gmap string (list ptr)) :
    D (gset ptr) :=
  match commod_requests !! commod src with
  | None => mret ∅
  | Some requests =>
      port ← new_bid_portfolio;
      for_each (λ req,
        rq ← read d_reqs req;
        offer ← GetOffer recipes src (target_ rq);
        _ ← AddBid_default port req offer this false;
        mret tt) requests;;
      cc ← new_trivial_constraint (src_capacity src);
      bp_AddConstraint port cc;;
      mret {[port]}
  end.
Fixpoint provide_loop (recipes : gmap string ptr) (id : Z) (src : Source F) (trades : list (Trade F)) (current_capacity : F)
    (responses : list (Trade F * ptr)) : D (F * list (Trade F * ptr)) :=
  match trades with
  | [] => mret (current_capacity, responses)
  | t :: trades =>
      c ← (if decide (src_recipe src = "") then rq ← read d_reqs (tr_request t); in_world (comp (target_ rq))
           else recipe_of recipes (src_recipe src));
      response ← in_world (CreateMaterial id (amt t) c);
      provide_loop recipes id src trades (current_capacity - amt t)%D (responses ++ [(t, response)])
  end.
Definition src_GetMatlTrades (recipes : gmap string ptr) (id : Z) (src : Source F) (trades : list (Trade F)) :
    D (list (Trade F * ptr)) :=
  r ← provide_loop recipes id src trades (src_capacity src) [];
  require (negb (IsNegative r.1)) ValueError;;
  mret r.2.

Definition snk_GetMatlRequests (recipes : gmap string ptr) (this : ptr) (snk : Sink F) : D (gset ptr) :=
  port ← new_request_portfolio;
  let amt := snk_capacity snk in
  mat ← in_world (NewBlankMaterial amt);
  mat ← (if decide (snk_recipe snk = "") then mret mat
         else c ← recipe_of recipes (snk_recipe snk); in_world (CreateUntrackedMaterial amt c));
  if (amt >? eps)%D then
    cc ← new_trivial_constraint amt;
    rp_AddConstraint port cc;;
    for_each (λ commod, _ ← AddRequest port mat this commod kDefaultPref false; mret tt) (in_commods snk);;
    mret {[port]}
  else mret ∅.
Definition snk_GetProductRequests (this : ptr) (snk : Sink F) : D (gset ptr) :=
  port ← new_request_portfolio;
  let amt := snk_capacity snk in
  if (amt >? eps)%D then
    cc ← new_trivial_constraint amt;
    rp_AddConstraint port cc;;
    for_each (λ commod,
      rsrc ← in_world (CreateUntrackedProduct amt "");
      _ ← AddRequest port rsrc this commod kDefaultPref false;
      mret tt) (in_commods snk);;
    mret {[port]}
  else mret ∅.
(** [AcceptMatlTrades] and [AcceptProductTrades] *)
Definition snk_AcceptTrades (responses : list (Trade F * ptr)) : T unit :=
  for_each (λ r, on_buf (BuffPush r.2)) responses.
End traders.
