(* ===== verification/TraderTheory.v ===== *)
(** * Traders: lemmas

    How the calls of the traders run: creating materials, taking them out of a buffer, and
    filling portfolios. *)

From Stdlib Require Import QArith Qround Qminmax Lqa ZArith Lia.
From stdpp Require Import base list gmap strings.
From S2P Require Import Prelude Num Arithmetic CompMath Resource Material MaterialTheory ResBuf ResourceLaws ResBufTheory ExchangeGraph Portfolio Translator TranslatorTheory Traders.

#[local] Arguments sumQ : simpl never.

(** A loop that collects, with an invariant on what it has collected. *)
Lemma for_collect_runs {S A B} (I : list A → list B → S → Prop) (f : A → M S B) l s :
  I [] [] s →
  (∀ pre x post ys s1, l = pre ++ x :: post → I pre ys s1 → runs (f x) s1 (λ y, I (pre ++ [x]) (ys ++ [y]))) →
  runs (for_collect f l) s (I l).
Proof.
  intros Hs Hf. cut (∀ post pre ys s1, l = pre ++ post → I pre ys s1 →
    runs (for_collect f post) s1 (λ zs, I l (ys ++ zs))); [intros Hgen; by apply (Hgen l [] [] s)|].
  induction post as [|x post IH]; intros pre ys s1 Hl HI.
  { exists [], s1. rewrite app_nil_r in Hl. subst pre. by rewrite app_nil_r. }
  destruct (Hf pre x post ys s1 Hl HI) as (y & s2 & Hx & HI2).
  destruct (IH (pre ++ [x]) (ys ++ [y]) s2) as (zs & s3 & Hrest & HI3); [by rewrite <-app_assoc|done|].
  exists (y :: zs), s3. split; [by eapply for_collect_cons|]. by rewrite <-app_assoc in HI3.
Qed.

Lemma runs_assoc {S A B C} (c : M S A) (k : A → M S B) (k' : B → M S C) s Q :
  runs ((c ≫= k) ≫= k') s Q → runs (c ≫= λ a, k a ≫= k') s Q.
Proof. intros (a & s' & Hrun & HQ). exists a, s'. by rewrite <-bind_assoc. Qed.

Lemma runs_chain {S A B} (c : M S A) (k : A → M S unit) (K : A → M S B) s Q :
  runs (a ← c; k a;; mret a) s (λ a s', runs (K a) s' Q) → runs (a ← c; k a;; K a) s Q.
Proof.
  intros (a & s' & (a1 & s1 & Hc & Hk)%bind_inv & HK). apply bind_inv in Hk as ([] & s2 & Hk & [= -> ->]).
  destruct HK as (x & s3 & HK & HQ). exists x, s3. split; [|done]. rewrite (bind_ret _ _ _ _ _ Hc). by rewrite (bind_ret _ _ _ _ _ Hk).
Qed.

(** The cast of a non-negative number. *)
Lemma trunc_floor x q : x ≃ q → (0 <= q)%Q → ntrunc x = Some (Qfloor q).
Proof.
  intros Hx Hq. destruct x as [[n d]| | |]; try done. cbn in Hx |- *. rewrite <-Hx in Hq |- *. f_equal.
  unfold Qle in Hq. cbn in Hq |- *. apply Z.quot_div_nonneg; lia.
Qed.

Lemma cast_floor x q : x ≃ q → (0 <= q)%Q → (Qfloor q ≤ int_max)%Z → to_int_cast (nfloor x) = Ret (Qfloor q).
Proof.
  intros Hx Hq Hmax. assert (0 ≤ Qfloor q)%Z as H0 by (change 0%Z with (Qfloor 0); by apply Qfloor_resp_le).
  assert (nfloor x ≃ inject_Z (Qfloor q)) as Hf by (destruct x; try done; cbn in *; by rewrite Hx).
  unfold to_int_cast. rewrite (trunc_floor _ _ Hf); [|change 0%Q with (inject_Z 0); by rewrite <-Zle_Qle].
  rewrite Qfloor_Z, (proj2 (in_int_spec _)); [done|]. unfold int_min. lia.
Qed.

Section theory.
Context `{Limits xq} {e er : Q} `{!GoodLimits e er} `{Pyne xq}.
Implicit Types (w : World xq) (d : DRE xq) (b : ResBuf xq).

(** ** Calls on parts of the state *)
Lemma in_world_runs {A} (c : M (World xq) A) d Q :
  runs c (d_world d) (λ a w, Q a (set_world w d)) → runs (in_world c) d Q.
Proof. intros (a & w & Hc & HQ). exists a, (set_world w d). unfold in_world. by rewrite Hc. Qed.
Lemma on_buf_runs {A} (c : M (World xq * ResBuf xq) A) d b Q :
  runs c (d_world d, b) (λ a wb, Q a (set_world wb.1 d, wb.2)) → runs (on_buf c) (d, b) Q.
Proof. intros (a & [w b'] & Hc & HQ). exists a, (set_world w d, b'). unfold on_buf. cbn. by rewrite Hc. Qed.
Lemma dre_quantity_runs p r d (Q : xq → DRE xq → Prop) :
  ress (d_world d) !! p = Some r → Q (res_qty r) d → runs (res_quantity p) d Q.
Proof. intros Hp HQ. unfold res_quantity. apply runs_fmap. by eapply (read_runs (λ s, ress (d_world s))). Qed.
Lemma pure_runs {S A} (a : A) (s : S) (Q : A → S → Prop) : Q a s → runs (pure (Ret a)) s Q.
Proof. intros HQ. by exists a, s. Qed.

Lemma set_world_same d : set_world (d_world d) d = d.
Proof. by destruct d. Qed.
Lemma set_world_twice w w' d : set_world w' (set_world w d) = set_world w' d.
Proof. done. Qed.

(** ** Materials *)
Lemma keeps_good_mat w w' p q : keeps_content w w' → good_mat w p q → good_mat w' p q.
Proof. intros Hk (Hpos & v & Hv & Ht). split; [done|]. exists v. split; [by eapply keeps_holds|done]. Qed.

Lemma CreateMaterial_runs w i q c : wf w → is_Some (comps w !! c) →
  runs (CreateMaterial i q c) w (λ p w', wf w' ∧ keeps_content w w' ∧ ress w !! p = None ∧
    ∃ r t, ress w' !! p = Some r ∧ res_qty r = q ∧ kind_ r = KMaterial c t).
Proof.
  intros Hwf Hc. unfold CreateMaterial. apply runs_bind. eapply runs_mono; [by apply new_material_runs|].
  intros p w1 (Hwf1 & Hk1 & Hnew & _ & r & t & Hp & Hq & _ & Hkind & _).
  apply runs_bind. eapply runs_mono; [by eapply TrackerCreate_neutral|]. intros [] w2 [Hwf2 Hk2].
  apply runs_ret. split_and!; [done|by etrans|done|].
  destruct (kc_res _ _ Hk2 p r Hp) as (r2 & Hp2 & Hq2 & Hkind2 & _). exists r2, t. split_and!; congruence.
Qed.

(** ** Source *)

(** The composition that a source supplies for a trade. *)
Definition supplied (recipes : gmap string ptr) (src : Source xq) d (t : Trade xq) (c : ptr) : Prop :=
  if decide (src_recipe src = "") then
    ∃ rq r lt, d_reqs d !! tr_request t = Some rq ∧ ress (d_world d) !! target_ rq = Some r ∧ kind_ r = KMaterial c lt
  else recipes !! src_recipe src = Some c ∧ is_Some (comps (d_world d) !! c).

Lemma supplied_keeps recipes src d w t c :
  keeps_content (d_world d) w → supplied recipes src d t c → supplied recipes src (set_world w d) t c.
Proof.
  intros Hk. unfold supplied. case_decide.
  - intros (rq & r & lt & Hrq & Hr & Hkind). destruct (kc_res _ _ Hk _ _ Hr) as (r' & Hr' & _ & Hkind' & _).
    exists rq, r', lt. split_and!; [done|done|congruence].
  - intros [Hrec [x Hx]]. split; [done|]. destruct (kc_comp _ _ Hk _ _ Hx) as (x' & ? & _). by exists x'.
Qed.

(** A new material for a trade. *)
Definition provided (c : ptr) (t : Trade xq) (p : ptr) w : Prop :=
  ∃ r lt, ress w !! p = Some r ∧ res_qty r = amt t ∧ kind_ r = KMaterial c lt.
Lemma provided_keeps c t p w w' : keeps_content w w' → provided c t p w → provided c t p w'.
Proof.
  intros Hk (r & lt & Hr & Hq & Hkind). destruct (kc_res _ _ Hk _ _ Hr) as (r' & ? & ? & ? & _).
  exists r', lt. split_and!; congruence.
Qed.

Lemma provide_one recipes id src d t c :
  wf (d_world d) → ctx_decay (d_world d) ≠ DecayLazy → supplied recipes src d t c →
  runs (c ← (if decide (src_recipe src = "") then rq ← read d_reqs (tr_request t); in_world (comp (target_ rq))
             else recipe_of recipes (src_recipe src));
        in_world (CreateMaterial id (amt t) c)) d
    (λ p d', ∃ w, d' = set_world w d ∧ wf w ∧ keeps_content (d_world d) w ∧ ress (d_world d) !! p = None ∧ provided c t p w).
Proof.
  intros Hwf Hlazy Hsup. apply runs_bind.
  assert (is_Some (comps (d_world d) !! c)) as Hc.
  { unfold supplied in Hsup. case_decide; [|by destruct Hsup]. destruct Hsup as (rq & r & lt & _ & Hr & Hkind).
    by eapply wf_mat. }
  apply (runs_mono _ _ (λ c' d', c' = c ∧ d' = d)).
  { unfold supplied in Hsup. case_decide.
    - destruct Hsup as (rq & r & lt & Hrq & Hr & Hkind). apply runs_bind. eapply read_runs; [exact Hrq|].
      apply in_world_runs. eapply comp_runs; [done|exact Hr|exact Hkind|]. split; [done|apply set_world_same].
    - destruct Hsup as [Hrec _]. unfold recipe_of. by eapply runs_option. }
  intros c' d' [-> ->]. apply in_world_runs. eapply runs_mono; [by apply CreateMaterial_runs|].
  intros p w (Hwf' & Hk & Hnew & r & lt & ? & ? & ?). exists w. split_and!; try done. by exists r, lt.
Qed.

(** A response to a trade that was not there before. *)
Definition responded d0 w (tp : Trade xq * ptr) (c : ptr) : Prop :=
  provided c tp.1 tp.2 w ∧ ress (d_world d0) !! tp.2 = None.

Lemma provide_loop_runs recipes id src d0 trades : ∀ w acc cs0 cs cap c qs,
  wf w → ctx_decay w ≠ DecayLazy → keeps_content (d_world d0) w →
  Forall2 (supplied recipes src d0) trades cs → Forall2 (λ t q, amt t ≃ q) trades qs → cap ≃ c →
  Forall2 (responded d0 w) acc cs0 → NoDup acc.*2 →
  runs (provide_loop recipes id src trades cap acc) (set_world w d0) (λ res d', ∃ w', d' = set_world w' d0 ∧ wf w' ∧
    keeps_content (d_world d0) w' ∧ res.2.*1 = acc.*1 ++ trades ∧ NoDup res.2.*2 ∧
    Forall2 (responded d0 w') res.2 (cs0 ++ cs) ∧ res.1 ≃ (c - sumQ qs)%Q).
Proof.
  induction trades as [|t trades IH]; intros w acc cs0 cs cap c qs Hwf Hlazy Hk Hsup Hamt Hcap Hres Hnd.
  { apply Forall2_nil_inv_l in Hsup as ->, Hamt as ->. apply runs_ret. exists w. rewrite !app_nil_r. split_and!; try done.
    eapply is_fin_weaken; [exact Hcap|]. unfold sumQ. cbn. lra. }
  apply Forall2_cons_inv_l in Hsup as (c1 & cs1 & Hc1 & Hsup & ->). apply Forall2_cons_inv_l in Hamt as (q & qs1 & Hq & Hamt & ->).
  cbn [provide_loop]. apply runs_assoc, runs_bind. eapply runs_mono.
  { apply (provide_one recipes id src (set_world w d0) t c1); [done|done|by apply supplied_keeps]. }
  intros p d' (w1 & -> & Hwf1 & Hk1 & Hnew & Hp). cbn [d_world set_world] in *. rewrite set_world_twice.
  eapply runs_mono.
  { apply (IH w1 (acc ++ [(t, p)]) (cs0 ++ [c1]) cs1 (cap - amt t)%D (c - q)%Q qs1); try done.
    - by rewrite (kc_decay _ _ Hk1).
    - by etrans.
    - by apply fin_sub.
    - apply Forall2_app.
      + eapply Forall2_impl; [exact Hres|]. intros tp c' [Hpr ?]. split; [by eapply provided_keeps|done].
      + constructor; [|constructor]. split; [done|]. cbn. destruct (ress (d_world d0) !! p) as [r|] eqn:Hr; [|done].
        destruct (kc_res _ _ Hk _ _ Hr) as (r' & Hr' & _). congruence.
    - rewrite fmap_app. apply NoDup_app. split_and!; [done| |apply NoDup_singleton]. intros p' ([t' p2] & Hp2 & Hin)%list_elem_of_fmap Hp'%list_elem_of_singleton.
      apply list_elem_of_lookup in Hin as [i Hi]. destruct (Forall2_lookup_l _ _ _ _ _ Hres Hi) as (c' & _ & (r & lt & Hr & _) & _).
      cbn in *. subst. congruence. }
  intros res d' (w' & -> & Hwf' & Hk' & Hfst & Hnd' & Hall & Hval). exists w'. rewrite <-app_assoc in Hall. split_and!; try done.
  - by rewrite Hfst, fmap_app, <-app_assoc.
  - eapply is_fin_weaken; [exact Hval|]. rewrite sumQ_cons. lra.
Qed.

(** ** Taking a quantity out of a buffer *)
Lemma PopQtyEps_runs (T : ResClass) good `{!ResLaws T good} w b qs y k :
  res_inv w → buf_ok good w b qs → y ≃ k → (0 < k)%Q → (k <= sumQ qs)%Q →
  runs (PopQtyEps T y eps_rsrc) (w, b) (λ p wb, ∃ qs' : list Q, res_inv wb.1 ∧ good wb.1 p k ∧ buf_ok good wb.1 wb.2 qs' ∧
    (sumQ qs' == sumQ qs - k)%Q ∧ (p ∉ rs_ wb.2) ∧ suffix (rs_ wb.2) (rs_ b) ∧ cap_ wb.2 = cap_ b ∧
    ((p ∈ rs_ b) ∨ ress w !! p = None) ∧ others_good good (rs_ b) w wb.1).
Proof.
  intros Hinv Hok Hy Hpos Hle. pose proof Hok as [Hq Hr Hnd _]. pose proof (eps_rsrc_nonneg (e := e) (er := er)).
  unfold PopQtyEps. apply runs_bind, buf_runs. cbn [snd].
  apply runs_bind, runs_require; [rewrite (ltb_fin (fin_add Hq eps_rsrc_fin) Hy), (proj2 (Qltb_ge _ _)); [done|lra]|].
  rewrite (leb_fin Hq Hy). destruct (Qle_bool (sumQ qs) k) eqn:Hge; [|by apply (PopQty_runs T good)].
  apply Qle_bool_iff in Hge. pose proof (PopN_cases T good w b qs (Z.of_nat (length (rs_ b))) Hok) as HP.
  rewrite decide_True in HP by lia. destruct HP as (b' & Hrun & Hcap & Hrs & Hok'). apply runs_bind.
  eexists _, _. split; [exact Hrun|]. rewrite Nat2Z.id, firstn_all. rewrite Nat2Z.id, drop_all in Hrs.
  destruct (rs_ b) as [|p ps] eqn:Hb.
  { apply Forall2_nil_inv_l in Hr as ->. unfold sumQ in Hle. cbn in Hle. lra. }
  apply Forall2_cons_inv_l in Hr as (q & qs1 & Hp & Hps & ->). apply runs_lift_l.
  eapply runs_mono; [by apply (good_squash (T := T) w p ps q qs1)|]. intros p' w2 (-> & Hinv2 & Hp2 & Hot2).
  exists []. cbn [fst snd]. rewrite Hrs. rewrite sumQ_cons in *. split_and!; try done.
  - eapply good_eq; [exact Hp2|]. lra.
  - destruct Hok' as [Hq' Hr' _ Hpr']. rewrite Hrs in Hr', Hpr'. apply Forall2_nil_inv_l in Hr'. split.
    + by rewrite Hr' in Hq'.
    + rewrite Hrs. constructor.
    + rewrite Hrs. constructor.
    + by rewrite Hrs.
  - unfold sumQ. cbn. fold (sumQ qs1). lra.
  - apply not_elem_of_nil.
  - apply suffix_nil.
  - left. by left.
Qed.

(** ** Changing the composition *)
Lemma Transmute_runs w p q v c x : res_inv w → holds_mat w p q v → comps w !! c = Some x →
  runs (Transmute p c) w (λ _ w', res_inv w' ∧ holds_mat w' p q (mass_of x) ∧ others_kept p w w').
Proof.
  intros [Hwf Hd] (r & c0 & t & x0 & Hp & Hq & Hk & _) Hc. unfold Transmute.
  apply runs_bind. eapply get_res_runs; [exact Hp|]. apply runs_bind. eapply mat_parts_runs; [exact Hk|].
  set (r1 := set_kind (KMaterial c t) r). set (w1 := set_ress (<[p := r1]> (ress w)) w).
  apply runs_bind. apply runs_modify. cbn [snd]. fold r1 w1.
  assert (wf w1) as Hwf1. { eapply put_content_wf; [done|exact Hp|done|done|]. cbn. intros ? ? [= <- <-]. by exists x. }
  assert (ress w1 !! p = Some r1) as Hp1 by apply lookup_insert_eq.
  apply runs_bind. eapply runs_mono; [by eapply TrackerModify_neutral|]. intros [] w2 [Hwf2 Hk2].
  destruct (kc_res _ _ Hk2 _ _ Hp1) as (r2 & Hp2 & Hq2 & Hkind2 & _). destruct (kc_comp _ _ Hk2 c x Hc) as (x2 & Hc2 & Hx2).
  assert (res_inv w2) as Hinv2. { split; [done|]. by rewrite (kc_decay _ _ Hk2). }
  assert (others_kept p w w2) as Hot. { intros p' q' v' Hne Hh. eapply keeps_holds; [exact Hk2|]. by apply others_kept_put. }
  assert (∀ t', kind_ (set_kind (KMaterial c t') r2) = KMaterial c t') as Hset by done.
  apply runs_bind. eapply get_res_runs; [exact Hp2|]. apply runs_bind. eapply mat_parts_runs; [by rewrite Hkind2|].
  apply runs_bind, runs_get. cbn [fst snd]. rewrite <-Hx2. case_match.
  - apply runs_modify. split_and!.
    + split; [|by destruct Hinv2]. eapply put_content_wf; [done|exact Hp2|done|done|]. cbn. intros ? ? [= <- <-]. by exists x2.
    + exists (set_kind (KMaterial c (ctx_time w2)) r2), c, (ctx_time w2), x2. cbn. rewrite lookup_insert_eq, Hq2. by split_and!.
    + intros p' q' v' Hne Hh. apply others_kept_put; [done|]. by apply Hot.
  - apply runs_ret. split_and!; [done| |done]. exists r2, c, t, x2. rewrite Hq2. split_and!; done.
Qed.

Lemma good_mat_transmute w p c q qt tgt r lt : res_inv w → good_mat w p q → good_mat w tgt qt →
  ress w !! tgt = Some r → kind_ r = KMaterial c lt →
  runs (Transmute p c) w (λ _ w', res_inv w' ∧ good_mat w' p q ∧ others_good good_mat [p] w w').
Proof.
  intros Hinv (Hpos & v & Hv & _) (_ & vt & (r' & c' & lt' & x & Hr' & _ & Hk' & Hx & Hvt) & Ht) Hr Hk.
  assert (c' = c ∧ lt' = lt) as [-> ->] by (split; congruence).
  eapply runs_mono; [by apply (Transmute_runs w p q v c x)|]. intros [] w' (Hinv' & Hp' & Hot). split_and!; [done| |].
  - split; [done|]. exists (mass_of x). split; [done|]. by rewrite Hvt.
  - intros p' q' Hnin (? & v' & Hv' & ?). split; [done|]. exists v'. split; [|done]. apply Hot; [set_solver|done].
Qed.

(** ** Selling *)

(** The targets of the requests, for a policy that ignores the composition of what it has. *)
Definition askable (p : MatlSellPolicy xq) d w b (trades : list (Trade xq)) : Prop :=
  ignore_comp_ p = true → ∀ t, t ∈ trades → ∃ rq q, d_reqs d !! tr_request t = Some rq ∧ good_mat w (target_ rq) q ∧ target_ rq ∉ rs_ b.

Lemma sell_trade_runs p t d w b qs k : res_inv w → buf_ok good_mat w b qs → amt t ≃ k → (0 < k)%Q → (k <= sumQ qs)%Q →
  askable p d w b [t] →
  runs (sell_trade p t) (set_world w d, b) (λ r s, ∃ w' qs', s.1 = set_world w' d ∧ r.1 = t ∧ res_inv w' ∧ good_mat w' r.2 k ∧
    buf_ok good_mat w' s.2 qs' ∧ (sumQ qs' == sumQ qs - k)%Q ∧ (r.2 ∉ rs_ s.2) ∧ suffix (rs_ s.2) (rs_ b) ∧ cap_ s.2 = cap_ b ∧
    ((r.2 ∈ rs_ b) ∨ ress w !! r.2 = None) ∧ others_good good_mat (rs_ b) w w').
Proof.
  intros Hinv Hok Hamt Hpos Hle Hask. unfold sell_trade. apply runs_bind, on_buf_runs. cbn [d_world set_world].
  eapply runs_mono; [by eapply (PopQtyEps_runs TMaterial good_mat)|].
  intros m [w1 b1] (qs1 & Hinv1 & Hm & Hok1 & Hsum & Hnin & Hsuf & Hcap & Hfrom & Hot). cbn [fst snd] in *. rewrite set_world_twice.
  destruct (ignore_comp_ p) eqn:Hign; [|apply runs_bind, runs_ret, runs_ret; by exists w1, qs1].
  destruct (Hask Hign t) as (rq & qt & Hrq & Htgt & Hntgt); [by apply list_elem_of_singleton|].
  assert (target_ rq ≠ m) as Hne.
  { intros <-. destruct Hfrom as [?|Hnone]; [done|]. by destruct (good_dom TMaterial good_mat _ _ _ Htgt). }
  assert (good_mat w1 (target_ rq) qt) as Htgt1 by by apply Hot.
  pose proof Htgt1 as (_ & vt & (r & c & lt & x & Hr & _ & Hk & _) & _).
  apply runs_bind, runs_bind, runs_lift_l. eapply read_runs; [exact Hrq|].
  apply runs_bind, runs_lift_l, in_world_runs. eapply comp_runs; [by destruct Hinv1|exact Hr|exact Hk|].
  apply runs_lift_l, in_world_runs. cbn [d_world set_world]. eapply runs_mono.
  { apply (good_mat_transmute w1 m c k qt (target_ rq) r lt); done. }
  intros [] w2 (Hinv2 & Hm2 & Hot2). apply runs_ret. exists w2, qs1. cbn [fst snd]. split_and!; try done.
  - destruct Hok1 as [Hq1 Hr1 Hn1 Hp1]. split; try done. eapply others_good_list; [exact Hot2| |done]. intros p' Hp' ->%list_elem_of_singleton. done.
  - intros p' q' Hnp Hg. destruct (decide (p' = m)) as [->|Hpm].
    + destruct Hfrom as [?|Hnone]; [done|]. by destruct (good_dom TMaterial good_mat _ _ _ Hg).
    + apply Hot2; [set_solver|]. by apply Hot.
Qed.

(** What a selling policy has done for the trades [pre]. *)
Definition sold (p : MatlSellPolicy xq) d trades b qs ks (pre : list (Trade xq)) (rs : list (Trade xq * ptr))
    (s : DRE xq * ResBuf xq) : Prop :=
  ∃ w' qs', s.1 = set_world w' d ∧ res_inv w' ∧ rs.*1 = pre ∧ NoDup rs.*2 ∧
    Forall2 (λ r k, good_mat w' r.2 k) rs (take (length pre) ks) ∧ buf_ok good_mat w' s.2 qs' ∧
    (sumQ qs' == sumQ qs - sumQ (take (length pre) ks))%Q ∧ (∀ r, r ∈ rs → r.2 ∉ rs_ s.2) ∧ suffix (rs_ s.2) (rs_ b) ∧
    askable p d w' s.2 trades.

Lemma sumQ_take_next (ks : list Q) n k : Forall (λ k, 0 < k)%Q ks → ks !! n = Some k → (sumQ (take n ks) + k <= sumQ ks)%Q.
Proof.
  intros Hks Hk. rewrite <-(take_drop_middle _ _ _ Hk) at 2. rewrite sumQ_app, sumQ_cons.
  assert (0 <= sumQ (drop (S n) ks))%Q; [|lra]. apply sumQ_nonneg, Forall_drop. eapply Forall_impl; [exact Hks|]. intros x Hx. cbn in Hx. lra.
Qed.

Lemma sold_next p d trades b qs ks pre t post rs s : trades = pre ++ t :: post →
  Forall2 (λ t k, amt t ≃ k ∧ (0 < k)%Q) trades ks → (sumQ ks <= sumQ qs)%Q → sold p d trades b qs ks pre rs s →
  runs (sell_trade p t) s (λ r, sold p d trades b qs ks (pre ++ [t]) (rs ++ [r])).
Proof.
  intros Hl Hamt Hle (w1 & qs1 & Hd1 & Hinv1 & Hfst & Hnd & Hall & Hok1 & Hsum & Hnin & Hsuf & Hask1).
  destruct s as [d1 b1]. cbn [fst snd] in *. subst d1.
  assert (trades !! length pre = Some t) as Ht by by rewrite Hl, list_lookup_middle.
  destruct (Forall2_lookup_l _ _ _ _ _ Hamt Ht) as (k & Hk & Hat & Hpos).
  assert (take (length (pre ++ [t])) ks = take (length pre) ks ++ [k]) as Htake.
  { rewrite length_app. cbn. rewrite Nat.add_1_r. by apply take_S_r. }
  assert (sumQ (take (length pre) ks) + k <= sumQ ks)%Q as Hpart.
  { apply sumQ_take_next; [|done]. apply Forall_lookup. intros i k' Hk'. by destruct (Forall2_lookup_r _ _ _ _ _ Hamt Hk') as (t' & _ & _ & ?). }
  eapply runs_mono; [apply (sell_trade_runs p t d w1 b1 qs1 k); try done; [lra|]|].
  { intros Hign t' ->%list_elem_of_singleton. apply Hask1; [done|]. by eapply list_elem_of_lookup_2. }
  intros [t2 m] [d2 b2] (w2 & qs2 & Hd2 & Ht2 & Hinv2 & Hm & Hok2 & Hsum2 & Hnin2 & Hsuf2 & _ & Hfrom & Hot). cbn [fst snd] in *. subst t2.
  assert (∀ p', p' ∉ rs_ b1 → p' ∉ rs_ b2) as Hgone. { intros p' Hn Hb2. apply Hn. destruct Hsuf2 as [l ->]. set_solver. }
  exists w2, qs2. rewrite Htake. split_and!; try done.
  - by rewrite fmap_app, Hfst.
  - rewrite fmap_app. apply NoDup_app. split_and!; [done| |apply NoDup_singleton].
    intros p' ([t' p2] & Hp2 & Hin)%list_elem_of_fmap Hp'%list_elem_of_singleton. cbn in Hp2. subst p' p2.
    pose proof (Hnin _ Hin) as Hn. apply list_elem_of_lookup in Hin as [i Hi].
    destruct (Forall2_lookup_l _ _ _ _ _ Hall Hi) as (k' & _ & Hg). destruct Hfrom as [?|Hnone]; [done|].
    by destruct (good_dom TMaterial good_mat _ _ _ Hg).
  - apply Forall2_app; [|constructor; [done|constructor]]. eapply Forall2_impl_in; [exact Hall|].
    intros r k' Hr Hg. cbn in *. apply Hot; [by apply Hnin|done].
  - rewrite Hsum2, Hsum, sumQ_snoc. lra.
  - intros r [Hr|Hr]%elem_of_app; [by apply Hgone, Hnin|by apply list_elem_of_singleton in Hr as ->].
  - by etrans.
  - intros Hign t' Ht'. destruct (Hask1 Hign t' Ht') as (rq & q & Hrq & Hg & Hn). exists rq, q.
    split_and!; [done|by apply Hot|by apply Hgone].
Qed.

(** ** Asking *)

(** Addresses that are not taken. *)
Definition unused d : Prop := ∀ p, (d_next d <= p)%Z → d_reqs d !! p = None ∧ d_rports d !! p = None.
(** What making requests does to the rest of the state. *)
Record grown d0 d1 : Prop := {
  gr_wf : wf (d_world d1);
  gr_keeps : keeps_content (d_world d0) (d_world d1);
  gr_reqs : d_reqs d0 ⊆ d_reqs d1;
  gr_unused : unused d1;
  gr_next : (d_next d0 <= d_next d1)%Z
}.
Lemma grown_trans d0 d1 d2 : grown d0 d1 → grown d1 d2 → grown d0 d2.
Proof. intros [? ? ? ? ?] [? ? ? ? ?]. split; try done; [by etrans..|lia]. Qed.

Section asks.
Context (this : ptr) (amount : xq) (excl : bool).
Definition asks d (port r : ptr) (kv : string * CommodDetail xq) : Prop :=
  ∃ m res lt, d_reqs d !! r = Some (mkRequest xq m this kv.1 (cd_pref kv.2) port excl) ∧
    ress (d_world d) !! m = Some res ∧ res_qty res = amount ∧ kind_ res = KMaterial (cd_comp kv.2) lt.
Lemma asks_grown d0 d1 port r kv : grown d0 d1 → asks d0 port r kv → asks d1 port r kv.
Proof.
  intros [_ Hk Hreq _ _] (m & res & lt & Hr & Hm & Hq & Hkind). destruct (kc_res _ _ Hk _ _ Hm) as (res' & ? & ? & ? & _).
  exists m, res', lt. split_and!; [by eapply lookup_weaken|done|congruence|congruence].
Qed.

(** A portfolio with one request for each of [l]. *)
Definition asking_for d (port : ptr) (l : list (string * CommodDetail xq)) : Prop :=
  ∃ rp, d_rports d !! port = Some rp ∧ rp_constraints rp = [] ∧ (rp_requester rp = if decide (l = []) then None else Some this) ∧
    (∀ a, amount ≃ a → rp_qty rp ≃ (inject_Z (Z.of_nat (length l)) * a)%Q) ∧ Forall2 (asks d port) (rp_requests rp) l.

Lemma add_commod_request_runs d port l kv :
  wf (d_world d) → unused d → is_Some (comps (d_world d) !! cd_comp kv.2) → (port < d_next d)%Z → asking_for d port l →
  runs (add_commod_request this port amount excl kv) d (λ r d', grown d d' ∧ asking_for d' port (l ++ [kv]) ∧
    comps (d_world d') = comps (d_world d) ∧ ∀ q, q ≠ port → d_rports d' !! q = d_rports d !! q).
Proof.
  intros Hwf Hun Hc Hport (rp & Hrp & Hcons & Hreqr & Hqty & Hall). unfold add_commod_request, CreateUntrackedMaterial.
  apply runs_bind, in_world_runs. eapply runs_mono; [by apply new_material_runs|].
  intros m w1 (Hwf1 & Hk1 & _ & Hcomps & res & lt & Hm & Hq & _ & Hkind & _).
  unfold AddRequest, new_ptr. set (d1 := set_world w1 d). set (r := d_next d).
  apply runs_bind, runs_bind, runs_get. apply runs_bind, runs_modify, runs_ret. apply runs_bind, runs_modify.
  set (rq := mkRequest xq m this kv.1 (cd_pref kv.2) port excl).
  unfold VerifyRequester_. apply runs_bind, runs_bind. eapply read_runs; [exact Hrp|].
  set (rp1 := mkRequestPortfolio xq (rp_requests rp) (mass_coeffs_ rp) (rp_constraints rp) (rp_qty rp) (Some this)).
  set (d2 := set_rports (<[port := rp1]> (d_rports d)) (set_reqs (<[r := rq]> (d_reqs d)) (set_next (r + 1)%Z d1))).
  apply (runs_mono _ _ (λ _ d', d' = d2)).
  { rewrite Hreqr. case_decide as Hl.
    - by apply runs_modify.
    - apply runs_require; [by apply Z.eqb_eq|]. unfold d2. assert (rp1 = rp) as -> by (unfold rp1; destruct rp; cbn in *; by rewrite Hreqr).
      rewrite (insert_id (d_rports d) port rp) by done. reflexivity. }
  intros [] d' ->. apply runs_bind. eapply dre_quantity_runs; [exact Hm|]. apply runs_bind. eapply read_runs; [apply lookup_insert_eq|].
  apply runs_bind, runs_modify, runs_ret. set (d3 := set_rports _ d2).
  assert (grown d d3) as Hg.
  { split; cbn; [done|done| | |lia].
    - apply insert_subseteq. by apply Hun.
    - intros p Hp. cbn in Hp. destruct (Hun p) as [? ?]; [lia|]. cbn. rewrite !lookup_insert_ne by lia. done. }
  split_and!; [done| |done|].
  - eexists. split; [apply lookup_insert_eq|]. cbn. rewrite decide_False by by destruct l. split_and!; [done|done| |].
    + intros a Ha. rewrite Hq. eapply is_fin_weaken; [exact (fin_add (Hqty a Ha) Ha)|].
      rewrite length_app. cbn. rewrite Nat2Z.inj_add, inject_Z_plus. change (inject_Z (Z.of_nat 1)) with 1%Q. ring.
    + apply Forall2_app; [eapply Forall2_impl; [exact Hall|]; intros r' kv'; by apply asks_grown|].
      constructor; [|constructor]. exists m, res, lt. cbn. by rewrite lookup_insert_eq.
  - intros q Hne. cbn. by rewrite !lookup_insert_ne.
Qed.
End asks.

Lemma asking_for_grown (this : ptr) amount excl d0 d1 port l : grown d0 d1 → d_rports d1 !! port = d_rports d0 !! port →
  asking_for this amount excl d0 port l → asking_for this amount excl d1 port l.
Proof.
  intros Hg Hport (rp & Hrp & Hc & Hr & Hq & Hall). exists rp. split_and!; [by rewrite Hport|done|done|done|].
  eapply Forall2_impl; [exact Hall|]. intros r kv. by apply asks_grown.
Qed.

(** The details have compositions. *)
Definition details_ok (p : MatlBuyPolicy xq) d : Prop :=
  map_Forall (λ _ x, is_Some (comps (d_world d) !! cd_comp x)) (commod_details_ p).

Lemma request_port_runs this (p : MatlBuyPolicy xq) amount excl i d : wf (d_world d) → unused d → details_ok p d →
  runs (request_port this p amount excl i) d (λ port d', grown d d' ∧ port = d_next d ∧ (port < d_next d')%Z ∧
    asking_for this amount excl d' port (in_order (commod_details_ p)) ∧ comps (d_world d') = comps (d_world d) ∧
    ∀ q, q ≠ port → d_rports d' !! q = d_rports d !! q).
Proof.
  intros Hwf Hun Hdet. unfold request_port, new_request_portfolio, new_ptr. set (port := d_next d).
  apply runs_bind, runs_bind, runs_bind, runs_get. apply runs_bind, runs_modify, runs_ret. apply runs_bind, runs_modify, runs_ret.
  set (d0 := set_rports _ _). apply runs_bind.
  assert (grown d d0) as Hg0.
  { split; cbn; [done|done|done| |lia]. intros q Hq. cbn in Hq. destruct (Hun q) as [? ?]; [lia|]. cbn. by rewrite lookup_insert_ne by lia. }
  eapply runs_mono.
  { apply (for_collect_runs (λ pre _ d1, grown d d1 ∧ asking_for this amount excl d1 port pre ∧ (port < d_next d1)%Z ∧
      comps (d_world d1) = comps (d_world d) ∧ ∀ q, q ≠ port → d_rports d1 !! q = d_rports d !! q)).
    - split_and!; [done| |cbn; lia|done|intros q Hq; cbn; by rewrite lookup_insert_ne].
      eexists. split; [apply lookup_insert_eq|]. split_and!; [done|done| |constructor]. intros a _.
      eapply is_fin_weaken; [apply (fin_Z 0)|]. cbn. ring.
    - intros pre kv post rs d1 Hl (Hg1 & Hask & Hlt & Hcomps & Hot). eapply runs_mono.
      { apply (add_commod_request_runs this amount excl d1 port pre kv); [by destruct Hg1|by destruct Hg1| |done|done].
        rewrite Hcomps. destruct kv as [k x]. cbn. apply (Hdet k). apply elem_of_in_order. rewrite Hl. set_solver. }
      intros r d2 (Hg2 & Hask2 & Hcomps2 & Hot2). split_and!; [by eapply grown_trans|done| |congruence|].
      + pose proof (gr_next _ _ Hg2). lia.
      + intros q Hq. by rewrite Hot2, Hot. }
  intros rs d1 (Hg1 & Hask & Hlt & Hcomps & Hot). rewrite decide_False.
  - apply runs_bind, runs_ret, runs_ret. by split_and!.
  - case_decide; [rewrite map_size_empty; lia|]. rewrite map_size_singleton. lia.
Qed.

Lemma request_ports_runs this (p : MatlBuyPolicy xq) amount excl l d : wf (d_world d) → unused d → details_ok p d →
  runs (for_collect (request_port this p amount excl) l) d (λ ps d', grown d d' ∧ NoDup ps ∧ length ps = length l ∧
    Forall (λ port, d_rports d !! port = None ∧ asking_for this amount excl d' port (in_order (commod_details_ p))) ps ∧
    d_rports d ⊆ d_rports d').
Proof.
  intros Hwf Hun Hdet. eapply runs_mono.
  { apply (for_collect_runs (λ pre ps d1, grown d d1 ∧ comps (d_world d1) = comps (d_world d) ∧ NoDup ps ∧ length ps = length pre ∧
      Forall (λ port, (d_next d <= port < d_next d1)%Z ∧ asking_for this amount excl d1 port (in_order (commod_details_ p))) ps ∧
      d_rports d ⊆ d_rports d1)).
    - split_and!; try done. apply NoDup_nil_2.
    - intros pre i post ps d1 _ (Hg1 & Hcomps & Hnd & Hlen & Hall & Hsub). eapply runs_mono.
      { apply request_port_runs; [by destruct Hg1|by destruct Hg1|]. unfold details_ok. by rewrite Hcomps. }
      intros port d2 (Hg2 & -> & Hlt & Hask & Hcomps2 & Hot). pose proof (gr_next _ _ Hg1). split_and!.
      + by eapply grown_trans.
      + congruence.
      + apply NoDup_app. split_and!; [done| |apply NoDup_singleton]. intros q Hq ->%list_elem_of_singleton.
        rewrite Forall_forall in Hall. destruct (Hall _ Hq) as [? _]. lia.
      + rewrite !length_app. cbn. lia.
      + apply Forall_app. split; [|apply Forall_singleton; by split].
        eapply Forall_impl; [exact Hall|]. intros q [? Hq]. split; [lia|]. eapply asking_for_grown; [exact Hg2| |exact Hq]. apply Hot. lia.
      + apply map_subseteq_spec. intros q x Hq. rewrite Hot.
        * by eapply lookup_weaken.
        * intros ->. destruct (Hun (d_next d1)) as [_ Hn]; [lia|]. congruence. }
  intros ps d' (Hg & _ & Hnd & Hlen & Hall & Hsub). split_and!; try done. eapply Forall_impl; [exact Hall|].
  intros q [Hq ?]. split; [|done]. apply Hun. lia.
Qed.

(** ** Accepting *)
Lemma accept_loop_runs d c (rs : list (Trade xq * ptr)) : ∀ pqs (p : MatlBuyPolicy xq) b qs,
  buf_ok good_mat (d_world d) b qs → cap_ b ≃ c → Forall2 (λ r q, good_mat (d_world d) r.2 q) rs pqs → NoDup rs.*2 →
  (∀ r, r ∈ rs → (r.2 ∉ rs_ b) ∧ is_Some (d_reqs d !! tr_request r.1)) → (sumQ qs + sumQ pqs <= c)%Q →
  ∃ b' p', for_each (λ r,
      rq ← lift_l (lift_l (read d_reqs (tr_request r.1)));
      lift_r (modify (λ p, set_rsrc_commods (<[r.2 := commodity_ rq]> (rsrc_commods_ p)) p));;
      lift_l (on_buf (Push TMaterial r.2))) rs ((d, b), p) = (Ret tt, ((d, b'), p')) ∧
    rs_ b' = rs_ b ++ rs.*2 ∧ buf_ok good_mat (d_world d) b' (qs ++ pqs) ∧ cap_ b' = cap_ b ∧
    (∀ r rq, r ∈ rs → d_reqs d !! tr_request r.1 = Some rq → rsrc_commods_ p' !! r.2 = Some (commodity_ rq)) ∧
    ∀ m, m ∉ rs.*2 → rsrc_commods_ p' !! m = rsrc_commods_ p !! m.
Proof.
  induction rs as [|r rs IH]; intros pqs p b qs Hok Hcap Hrs Hnd Hnew Hle.
  { apply Forall2_nil_inv_l in Hrs as ->. exists b, p. rewrite !app_nil_r. split_and!; try done. by intros ? ? ?%elem_of_nil. }
  apply Forall2_cons_inv_l in Hrs as (q & pqs1 & Hr & Hrs & ->). apply NoDup_cons in Hnd as [Hrn Hnd].
  destruct (Hnew r) as [Hnin [rq Hrq]]; [by left|]. rewrite sumQ_cons in Hle.
  assert (0 <= sumQ pqs1)%Q as Hpos. { apply sumQ_nonneg, Forall_lookup. intros i k Hk. destruct (Forall2_lookup_r _ _ _ _ _ Hrs Hk) as (r' & _ & Hg & _). lra. }
  pose proof (Push_cases TMaterial good_mat (d_world d) b qs (Some c) r.2 q Hok Hcap Hr) as HP.
  pose proof (eps_rsrc_nonneg (e := e) (er := er)). pose proof (Q.le_max_r 0 (c - sumQ qs)).
  rewrite decide_True, decide_False in HP by (cbn; done || lra). destruct HP as (b1 & HP & Hrs1 & Hcap1 & Hok1).
  set (p1 := set_rsrc_commods (<[r.2 := commodity_ rq]> (rsrc_commods_ p)) p).
  destruct (IH pqs1 p1 b1 (qs ++ [q])) as (b' & p' & Hrun & Hrs' & Hok' & Hcap' & Hcom & Hoth); [done|by rewrite Hcap1|done|done| |rewrite sumQ_snoc; lra|].
  { intros r' Hr'. rewrite Hrs1. destruct (Hnew r') as [? ?]; [by right|]. split; [|done]. intros [?|Heq%list_elem_of_singleton]%elem_of_app; [done|].
    apply Hrn. rewrite <-Heq. apply list_elem_of_fmap. by exists r'. }
  exists b', p'. rewrite (for_each_cons _ _ _ _ ((d, b1), p1)).
  - split_and!; [done| |by rewrite <-app_assoc in Hok'|congruence| |].
    + rewrite Hrs', Hrs1, <-app_assoc. done.
    + intros r' rq' [->|Hr']%elem_of_cons Hrq'; [|by apply Hcom]. rewrite Hoth by done. cbn. rewrite lookup_insert_eq. congruence.
    + intros m Hm. rewrite Hoth by set_solver. cbn. rewrite lookup_insert_ne; [done|]. set_solver.
  - rewrite (bind_ret _ _ _ rq ((d, b), p)); [|unfold lift_l, read; cbn; by rewrite (bind_ret get _ _ _ _ eq_refl), Hrq].
    rewrite (bind_ret _ _ _ tt ((d, b), p1)) by done. unfold lift_l, on_buf. cbn [fst snd]. rewrite HP, set_world_same. reflexivity.
Qed.

(** ** Bidding *)
Section bids.
Context (this : ptr) (p : MatlSellPolicy xq) (port : ptr) (caps : list (CapacityConstraint xq)) (d0 : DRE xq) (b0 : ResBuf xq) (qs0 : list Q).

(** A bid of a positive amount up to [lim]. *)
Definition offers d (lim : Q) (bid : ptr) : Prop :=
  ∃ req offer res q, d_bids d !! bid = Some (mkBid xq req offer this port (sl_Excl p) nnan) ∧
    ress (d_world d) !! offer = Some res ∧ res_qty res ≃ q ∧ (0 < q <= lim)%Q.
(** What bidding does: the buffer has the same materials, and the portfolio such bids. *)
Record bidding (lim : Q) (s : DRE xq * ResBuf xq) : Prop := {
  bg_inv : res_inv (d_world s.1);
  bg_keeps : keeps_content (d_world d0) (d_world s.1);
  bg_reqs : d_reqs s.1 = d_reqs d0;
  bg_unused : ∀ q, (d_next s.1 <= q)%Z → d_bids s.1 !! q = None;
  bg_buf : ∃ qs, buf_ok good_mat (d_world s.1) s.2 qs ∧ rs_ s.2 ≡ₚ rs_ b0 ∧ (sumQ qs == sumQ qs0)%Q ∧ cap_ s.2 = cap_ b0;
  bg_port : ∃ bp, d_bports s.1 !! port = Some bp ∧ bp_constraints bp = caps ∧
    (bp_bidder bp = None ∨ bp_bidder bp = Some this) ∧ ∀ x, x ∈ bp_bids bp → offers s.1 lim x
}.

(** Other resources may be made, and the buffer turned round. *)
Lemma bidding_keeps lim d b w' b' qs qs' : bidding lim (d, b) → wf w' → keeps_content (d_world d) w' → buf_ok good_mat (d_world d) b qs →
  rs_ b ≡ₚ rs_ b0 → (sumQ qs == sumQ qs0)%Q → cap_ b = cap_ b0 →
  buf_ok good_mat (d_world d) b' qs' → rs_ b' ≡ₚ rs_ b → (sumQ qs' == sumQ qs)%Q → cap_ b' = cap_ b → bidding lim (set_world w' d, b').
Proof.
  intros [[_ Hlazy] Hk Hreqs Hun _ (bp & Hbp & Hcaps & Hbidder & Hall)] Hwf' Hk' _ Hperm Hsum Hcap [Hq' Hr' Hn' Hp'] Hperm' Hsum' Hcap'.
  cbn [fst snd] in *. split; cbn [fst snd d_world set_world d_reqs d_bids d_bports d_next]; try done.
  - split; [done|]. by rewrite (kc_decay _ _ Hk').
  - by etrans.
  - exists qs'. split_and!; [|by etrans|by rewrite Hsum'|congruence]. split; try done.
    eapply Forall2_impl; [exact Hr'|]. intros m q. by apply keeps_good_mat.
  - exists bp. split_and!; try done. intros x Hx. destruct (Hall x Hx) as (req & offer & res & q & Hbid & Ho & Hq & Hpos).
    destruct (kc_res _ _ Hk' _ _ Ho) as (res' & Ho' & Hq2 & _). exists req, offer, res', q. rewrite Hq2. done.
Qed.

Lemma rotate_runs d b qs (c : option Q) : buf_ok good_mat (d_world d) b qs → rs_ b ≠ [] → cap_ok (cap_ b) c →
  (∀ c', c = Some c' → (sumQ qs <= c')%Q) →
  runs (m ← on_buf PopFront; on_buf (Push TMaterial m);; mret m) (d, b) (λ m s, s.1 = d ∧ (m ∈ rs_ b) ∧ ∃ qs',
    buf_ok good_mat (d_world d) s.2 qs' ∧ rs_ s.2 ≡ₚ rs_ b ∧ (sumQ qs' == sumQ qs)%Q ∧ cap_ s.2 = cap_ b).
Proof.
  intros Hok Hne Hcap Hfull. pose proof (PopFront_cases TMaterial good_mat (d_world d) b qs Hok) as HP.
  pose proof Hok as [_ Hr Hnd _]. destruct (rs_ b) as [|m rest] eqn:Hrs; [done|]. destruct HP as (b1 & HP & Hcap1 & Hrs1 & Hok1).
  apply Forall2_cons_inv_l in Hr as (q & qs1 & Hm & Hrest & ->). apply NoDup_cons in Hnd as [Hn _]. cbn [tail] in *.
  rewrite <-Hcap1 in Hcap. pose proof (Push_cases TMaterial good_mat (d_world d) b1 qs1 c m q Hok1 Hcap Hm) as HQ.
  pose proof (eps_rsrc_nonneg (e := e) (er := er)). rewrite decide_True, decide_False in HQ.
  2:{ by rewrite Hrs1. }
  2:{ destruct c as [c'|]; [|done]. cbn. pose proof (Hfull c' eq_refl) as Hle. rewrite sumQ_cons in Hle. pose proof (Q.le_max_r 0 (c' - sumQ qs1)). lra. }
  destruct HQ as (b2 & HQ & Hrs2 & Hcap2 & Hok2). apply runs_bind, on_buf_runs. exists m, (d_world d, b1). split; [done|]. cbn [fst snd].
  apply runs_bind, on_buf_runs. exists tt, (d_world d, b2). split; [done|]. apply runs_ret. cbn [fst snd].
  rewrite !set_world_same. split_and!; [done|by left|]. exists (qs1 ++ [q]). split_and!; [done| | |congruence].
  - rewrite Hrs2, Hrs1. symmetry. apply Permutation_cons_append.
  - rewrite sumQ_snoc, sumQ_cons. ring.
Qed.

Lemma AddBid_runs lim req offer q res s : bidding lim s → ress (d_world s.1) !! offer = Some res → res_qty res ≃ q → (0 < q <= lim)%Q →
  runs (AddBid_default port req offer this (sl_Excl p)) s.1 (λ _ d', bidding lim (d', s.2)).
Proof.
  destruct s as [d b]. cbn [fst snd]. intros [Hinv Hk Hreqs Hun Hbuf (bp & Hbp & Hcaps & Hbidder & Hall)] Ho Hq Hpos. cbn [fst snd] in *.
  unfold AddBid_default, AddBid, new_ptr. set (bid := d_next d). apply runs_bind, runs_bind, runs_get. apply runs_bind, runs_modify, runs_ret.
  apply runs_bind, runs_modify. set (d1 := set_bids _ _).
  set (d2 := set_bports (<[port := mkBidPortfolio xq (bp_bids bp) caps (Some this)]> (d_bports d)) d1).
  apply runs_bind. apply (runs_mono _ _ (λ _ d', d' = d2)).
  { unfold VerifyResponder_. apply runs_bind. eapply read_runs; [exact Hbp|]. destruct Hbidder as [-> | Hb].
    - apply runs_modify. unfold d2. by rewrite Hcaps.
    - rewrite Hb. apply runs_require; [by apply Z.eqb_eq|]. unfold d2.
      assert (mkBidPortfolio xq (bp_bids bp) caps (Some this) = bp) as -> by (destruct bp; cbn in *; congruence). by rewrite (insert_id (d_bports d)). }
  intros [] d' ->. apply runs_bind. eapply dre_quantity_runs; [exact Ho|]. apply runs_bind, runs_require.
  { rewrite (ltb_fin (fin_Z 0) Hq). apply Qltb_lt. apply Hpos. }
  apply runs_bind. eapply read_runs; [apply lookup_insert_eq|]. apply runs_bind, runs_modify, runs_ret. set (d3 := set_bports _ d2).
  assert (d_bids d !! bid = None) as Hfresh by (apply Hun; unfold bid; lia).
  split; cbn [fst snd]; try done.
  - intros x Hx. cbn in Hx. cbn. rewrite lookup_insert_ne by (unfold bid; lia). apply Hun. lia.
  - eexists. split; [apply lookup_insert_eq|]. cbn. split_and!; [done|by right|]. intros x [->%elem_of_singleton|Hx]%elem_of_union.
    + exists req, offer, res, q. cbn. rewrite lookup_insert_eq. done.
    + destruct (Hall x Hx) as (req' & offer' & res' & q' & Hx' & ?). exists req', offer', res', q'. cbn.
      rewrite lookup_insert_ne; [done|]. intros Heq. fold bid in Heq. rewrite <-Heq, Hfresh in Hx'. done.
Qed.

(** The buffer is within its capacity. *)
Definition within : Prop := rs_ b0 ≠ [] ∧ ∃ c, cap_ok (cap_ b0) c ∧ ∀ c', c = Some c' → (sumQ qs0 <= c')%Q.
Lemma sell_bid_runs lim req rq qt x q s : within → bidding lim s → d_reqs d0 !! req = Some rq → good_mat (d_world d0) (target_ rq) qt →
  x ≃ q → (0 < q <= lim)%Q → runs (sell_bid this p port req x) s (λ _, bidding lim).
Proof.
  intros (Hne & c & Hcap & Hfull) Hb Hrq Htgt Hx Hpos. pose proof Hb as [Hinv Hk Hreqs Hun (qs & Hok & Hperm & Hsum & Hcaps) Hport].
  destruct s as [d b]. cbn [fst snd] in *. unfold sell_bid. rewrite <-Hcaps in Hcap.
  apply runs_chain. eapply runs_mono.
  { apply (rotate_runs d b qs c); [done| |done|].
    - intros Hnil. apply Hne. rewrite Hnil in Hperm. symmetry in Hperm. by apply Permutation_nil_r in Hperm.
    - intros c' Hc'. rewrite Hsum. by apply Hfull. }
  intros m [d' b'] (Hd' & Hm & qs' & Hok' & Hperm' & Hsum' & Hcap'). cbn [fst snd] in *. subst d'.
  assert (∃ cm, runs (if ignore_comp_ p then rq ← read d_reqs req; in_world (comp (target_ rq)) else in_world (comp m)) d
    (λ c' d', c' = cm ∧ d' = d) ∧ is_Some (comps (d_world d) !! cm)) as (cm & Hcm & Hcomp).
  { assert (∀ m' q', good_mat (d_world d) m' q' → ∃ cm, runs (in_world (comp m')) d (λ c' d', c' = cm ∧ d' = d) ∧ is_Some (comps (d_world d) !! cm)) as Hcomp.
    { intros m' q' (_ & v & (r & cm & lt & xm & Hr & _ & Hkind & Hxm & _) & _). exists cm. split; [|by exists xm].
      apply in_world_runs. eapply comp_runs; [by destruct Hinv|exact Hr|exact Hkind|]. split; [done|apply set_world_same]. }
    destruct (ignore_comp_ p).
    - destruct (Hcomp (target_ rq) qt) as (cm & Hrun & ?); [by eapply keeps_good_mat|]. exists cm. split; [|done].
      apply runs_bind. eapply read_runs; [by rewrite Hreqs|done].
    - apply list_elem_of_lookup in Hm as [i Hi]. destruct (Forall2_lookup_l _ _ _ _ _ (ok_res _ _ _ _ Hok) Hi) as (qm & _ & Hg). by eapply Hcomp. }
  apply runs_bind, runs_lift_l. eapply runs_mono; [exact Hcm|]. intros c' d' [-> ->].
  apply runs_bind, runs_lift_l, in_world_runs. unfold CreateUntrackedMaterial.
  eapply runs_mono; [apply new_material_runs; [by destruct Hinv|exact Hcomp]|].
  intros offer w' (Hwf' & Hk' & _ & _ & res & lt & Ho & Hq & _). apply runs_bind, runs_lift_l.
  eapply runs_mono; [apply (AddBid_runs lim req offer q res (set_world w' d, b')); [|done|by rewrite Hq|done]|].
  - by eapply bidding_keeps.
  - intros bid d3 Hd3. by apply runs_ret.
Qed.
Lemma sell_request_runs limit lim req rq qt z s : within → bidding lim s → d_reqs d0 !! req = Some rq → good_mat (d_world d0) (target_ rq) qt →
  limit ≃ lim → (0 < lim)%Q → sl_quantize p ≃ z → ((0 < z)%Q → (Qfloor (lim / z) ≤ int_max)%Z) →
  runs (sell_request this p port limit req) s (λ _, bidding lim).
Proof.
  intros Hw Hb Hrq Htgt Hlim Hpos Hz Hmax. pose proof Hb as [_ Hk Hreqs _ _ _]. destruct s as [d b]. cbn [fst snd] in *.
  pose proof Htgt as (Hqt & v & (r & c & lt & xc & Hr & Hrq' & _) & _). destruct (kc_res _ _ Hk _ _ Hr) as (r' & Hr' & Hq' & _).
  unfold sell_request, target_quantity. apply runs_bind, runs_lift_l, runs_bind. eapply read_runs; [by rewrite Hreqs|].
  eapply dre_quantity_runs; [exact Hr'|]. rewrite Hq'. pose proof (fin_min Hrq' Hlim) as Hqty. set (qty := dmin (res_qty r) limit) in *.
  assert (0 < Qmin qt lim <= lim)%Q as Hrange by (split; [by apply Q.min_glb_lt|apply Q.le_min_r]).
  assert (sl_Excl p = Qltb 0 z) as Hexcl by apply (ltb_fin (fin_Z 0) Hz). rewrite Hexcl. destruct (Qltb 0 z) eqn:Hz0.
  - apply Qltb_lt in Hz0. set (k := Qfloor (Qmin qt lim / z)).
    assert (0 <= Qmin qt lim / z)%Q as Hnn by (apply Qle_shift_div_l; [done|lra]).
    assert (to_int_cast (nfloor (qty / sl_quantize p)%D) = Ret k) as ->.
    { apply cast_floor; [by apply fin_div; [| |lra]|done|]. etrans; [|by apply Hmax]. apply Qfloor_resp_le. unfold Qdiv. apply Qmult_le_compat_r; [apply Hrange|].
      apply Qinv_le_0_compat. lra. }
    apply runs_bind, pure_runs. apply runs_for_each; [done|]. intros i s' Hi Hb'. apply elem_of_seqZ in Hi.
    apply (sell_bid_runs lim req rq qt _ z); try done. split; [done|]. apply Qle_trans with (Qmin qt lim); [|apply Hrange].
    assert (1 <= Qmin qt lim / z)%Q as H1. { eapply Qle_trans; [|apply Qfloor_le]. fold k. change 1%Q with (inject_Z 1). rewrite <-Zle_Qle. lia. }
    apply (Qmult_le_compat_r _ _ z) in H1; [|lra]. assert (Qmin qt lim / z * z == Qmin qt lim)%Q as Heq by (field; lra). rewrite Heq in H1. lra.
  - apply runs_bind, pure_runs. apply runs_for_each; [done|]. intros i s' _ Hb'. by apply (sell_bid_runs lim req rq qt _ (Qmin qt lim)).
Qed.
End bids.

(** The limit of a selling policy. *)
Definition limit_of (z t q : Q) : Q := Qmin t (if Qltb 0 z then z * inject_Z (Qfloor (q / z)) else q).
Lemma Limit_spec (p : MatlSellPolicy xq) b q z t : qty_ b ≃ q → (0 <= q)%Q → sl_quantize p ≃ z → sl_throughput p ≃ t →
  ((0 < z)%Q → (Qfloor (q / z) ≤ int_max)%Z) → ∃ x, Limit p b = Ret x ∧ x ≃ limit_of z t q.
Proof.
  intros Hq Hpos Hz Ht Hmax. unfold Limit. assert (sl_Excl p = Qltb 0 z) as -> by apply (ltb_fin (fin_Z 0) Hz). unfold limit_of.
  destruct (Qltb 0 z) eqn:Hz0; [|rewrite bind_Ret; eexists; split; [done|exact (fin_min Ht Hq)]]. apply Qltb_lt in Hz0.
  rewrite (cast_floor _ (q / z)%Q); [|by apply fin_div; [| |lra]|apply Qle_shift_div_l; [done|lra]|by apply Hmax].
  rewrite !bind_Ret. eexists. split; [done|]. exact (fin_min Ht (fin_mul Hz (fin_Z _))).
Qed.
Lemma limit_of_le z t q : (limit_of z t q <= q)%Q ∧ (limit_of z t q <= t)%Q.
Proof.
  unfold limit_of. split; [|apply Q.le_min_l]. eapply Qle_trans; [apply Q.le_min_r|]. destruct (Qltb 0 z) eqn:Hz0; [|apply Qle_refl].
  apply Qltb_lt in Hz0. rewrite Qmult_comm. assert (q == q / z * z)%Q as Heq by (field; lra). rewrite Heq at 2.
  apply Qmult_le_compat_r; [apply Qfloor_le|lra].
Qed.

(** Constraints *)
Lemma new_trivial_constraint_run x d : new_trivial_constraint x d =
  ((if (x <=? nZ 0)%D then Throw ValueError else Ret (mkConstraint xq x TrivialConverter (d_next_constr d))),
   set_next_constr (d_next_constr d + 1)%Z d).
Proof.
  unfold new_trivial_constraint, new_constraint, next_constr_id.
  rewrite bind_assoc, (bind_ret get _ _ _ _ eq_refl), bind_assoc, (bind_ret (modify _) _ _ _ _ eq_refl), (bind_ret (mret _) _ _ _ _ eq_refl).
  by destruct (x <=? nZ 0)%D.
Qed.
Lemma bp_AddConstraint_run port cc d bp : d_bports d !! port = Some bp → bp_AddConstraint port cc d =
  (Ret tt, set_bports (<[port := mkBidPortfolio xq (bp_bids bp) (insert_constraint (constr_id cc)
     (mkConstraint xq (capacity_ cc) (converter_ cc) (d_next_constr d)) (bp_constraints bp)) (bp_bidder bp)]> (d_bports d))
     (set_next_constr (d_next_constr d + 1)%Z d)).
Proof.
  intros Hbp. unfold bp_AddConstraint.
  rewrite (bind_ret (copy_constraint cc) _ d (mkConstraint xq (capacity_ cc) (converter_ cc) (d_next_constr d))
    (set_next_constr (d_next_constr d + 1)%Z d)) by reflexivity.
  rewrite (bind_ret _ _ _ bp (set_next_constr (d_next_constr d + 1)%Z d)); [done|].
  unfold read. rewrite (bind_ret get _ _ _ _ eq_refl). cbn. by rewrite Hbp.
Qed.
End theory.
