(* ===== verification/TraderProperties.v ===== *)
(** * Trading

    The properties of the buying and selling policies, of sources and of sinks as theorems. *)

From Stdlib Require Import QArith Qround Qminmax Lqa ZArith Lia.
From stdpp Require Import base list gmap strings.
From S2P Require Import Prelude Num Arithmetic CompMath Resource Material MaterialTheory MaterialProperties ResBuf ResourceLaws ResBufTheory ResBufProperties ExchangeGraph Portfolio Translator Traders TraderTheory.

#[local] Arguments sumQ : simpl never.

Section properties.
Context `{Limits xq} {e er : Q} `{!GoodLimits e er} `{Pyne xq}.
Implicit Types (w : World xq) (d : DRE xq) (b : ResBuf xq).

(** C27.  A source answers every trade with a new material of exactly the traded quantity,
    of its recipe or, without one, of the composition that is asked for; other resources keep
    their quantities and compositions.  It refuses exactly when the trades together exceed its
    capacity by more than the tolerance, though only after it has made the materials. *)
Theorem source_answers (recipes : gmap string ptr) id (src : Source xq) trades d cap qs cs :
  wf (d_world d) → ctx_decay (d_world d) ≠ DecayLazy → src_capacity src ≃ cap →
  Forall2 (λ t q, amt t ≃ q) trades qs → Forall2 (supplied recipes src d) trades cs →
  ∃ w', wf w' ∧ keeps_content (d_world d) w' ∧
    ((sumQ qs <= cap + e)%Q → ∃ rs, src_GetMatlTrades recipes id src trades d = (Ret rs, set_world w' d) ∧
      rs.*1 = trades ∧ NoDup rs.*2 ∧ Forall2 (responded d w') rs cs) ∧
    ((cap + e < sumQ qs)%Q → src_GetMatlTrades recipes id src trades d = (Throw ValueError, set_world w' d)).
Proof.
  intros Hwf Hlazy Hcap Hamt Hsup.
  destruct (provide_loop_runs recipes id src d trades (d_world d) [] [] cs (src_capacity src) cap qs)
    as ([left rs] & d' & Hrun & w' & -> & Hwf' & Hk' & Hfst & Hnd & Hall & Hleft); try done; [constructor..|].
  rewrite set_world_same in Hrun. exists w'. split_and!; [done|done| |].
  - intros Hle. exists rs. split; [|done]. unfold src_GetMatlTrades. rewrite (bind_ret _ _ _ _ _ Hrun). cbn [fst snd] in *.
    rewrite (IsNegative_fin _ _ Hleft), (proj2 (Qltb_ge _ _)) by lra. done.
  - intros Hlt. unfold src_GetMatlTrades. rewrite (bind_ret _ _ _ _ _ Hrun). cbn [fst snd] in *.
    rewrite (IsNegative_fin _ _ Hleft), (proj2 (Qltb_lt _ _)) by lra. done.
Qed.

(** C25.  A selling policy delivers what was traded: as long as the trades together do not
    exceed what is in its buffer, each gets a material of its own with exactly the traded
    quantity, and the buffer is left with exactly the rest, the oldest material having gone
    first. *)
Theorem sell_policy_delivers (p : MatlSellPolicy xq) trades d b qs ks :
  res_inv (d_world d) → buf_ok good_mat (d_world d) b qs → Forall2 (λ t k, amt t ≃ k ∧ (0 < k)%Q) trades ks →
  (sumQ ks <= sumQ qs)%Q → askable p d (d_world d) b trades →
  ∃ rs w' b' qs', sl_GetMatlTrades p trades (d, b) = (Ret rs, (set_world w' d, b')) ∧ rs.*1 = trades ∧ NoDup rs.*2 ∧
    Forall2 (λ r k, good_mat w' r.2 k) rs ks ∧ buf_ok good_mat w' b' qs' ∧ (sumQ qs' == sumQ qs - sumQ ks)%Q ∧
    (∀ r, r ∈ rs → r.2 ∉ rs_ b') ∧ suffix (rs_ b') (rs_ b).
Proof.
  intros Hinv Hok Hamt Hle Hask. unfold sl_GetMatlTrades. pose proof (Forall2_length _ _ _ Hamt) as Hlen.
  destruct (for_collect_runs (sold p d trades b qs ks) (sell_trade p) trades (d, b)) as (rs & [d' b'] & Hrun & HI).
  - exists (d_world d), qs. cbn [fst snd length]. rewrite take_0.
    split_and!; try done; [by rewrite set_world_same|apply NoDup_nil_2| |by intros ? ?%elem_of_nil]. change (sumQ []) with 0%Q. ring.
  - intros pre t post rs s Hl HI. by eapply sold_next.
  - destruct HI as (w' & qs' & Hd' & _ & Hfst & Hnd & Hall & Hok' & Hsum & Hnin & Hsuf & _). rewrite Hlen, firstn_all in *.
    cbn [fst snd] in *. subst d'. by exists rs, w', b', qs'.
Qed.


(** Whatever arrives at a buying policy, as long as it is no more than what the policy
    needs, is accepted into its buffer, which then holds at most the level it is to be filled
    to, and the policy knows the commodity of each material.  A material that is larger than the
    space left, by more than the tolerance, is refused and stays out of the buffer. *)
Theorem buy_policy_accepts (p : MatlBuyPolicy xq) d b qs c f t (rs : list (Trade xq * ptr)) pqs :
  buf_ok good_mat (d_world d) b qs → cap_ b ≃ c → (0 <= c)%Q → (f <= 1)%Q →
  Forall2 (λ r q, good_mat (d_world d) r.2 q) rs pqs → NoDup rs.*2 →
  (∀ r, r ∈ rs → (r.2 ∉ rs_ b) ∧ is_Some (d_reqs d !! tr_request r.1)) →
  ((sumQ pqs <= Qmin t (f * c - sumQ qs))%Q →
    ∃ b' p', by_AcceptMatlTrades rs ((d, b), p) = (Ret tt, ((d, b'), p')) ∧ rs_ b' = rs_ b ++ rs.*2 ∧
      buf_ok good_mat (d_world d) b' (qs ++ pqs) ∧ cap_ b' = cap_ b ∧ (sumQ (qs ++ pqs) <= f * c)%Q ∧
      ∀ r rq, r ∈ rs → d_reqs d !! tr_request r.1 = Some rq → rsrc_commods_ p' !! r.2 = Some (commodity_ rq)) ∧
  (∀ r q rs' pqs', rs = r :: rs' → pqs = q :: pqs' → (Qmax 0 (c - sumQ qs) + er < q)%Q →
    ∃ p', by_AcceptMatlTrades rs ((d, b), p) = (Throw ValueError, ((d, b), p'))).
Proof.
  intros Hok Hcap Hc0 Hf1 Hrs Hnd Hnew. unfold by_AcceptMatlTrades. split.
  - intros Hle. pose proof (Q.le_min_r t (f * c - sumQ qs)) as Hmin.
    assert (f * c <= c)%Q as Hfc by nra.
    rewrite (bind_ret _ _ _ tt ((d, b), set_rsrc_commods ∅ p)) by done.
    destruct (accept_loop_runs d c rs pqs (set_rsrc_commods ∅ p) b qs) as (b' & p' & Hrun & Hrs' & Hok' & Hcap' & Hcom & _); [done..|lra|].
    exists b', p'. split_and!; try done. rewrite sumQ_app. lra.
  - intros r q rs' pqs' -> -> Hbig. apply Forall2_cons_1 in Hrs as [Hr _].
    rewrite (bind_ret _ _ _ tt ((d, b), set_rsrc_commods ∅ p)) by done.
    destruct (Hnew r) as [Hnin [rq Hrq]]; [by left|].
    pose proof (Push_cases TMaterial good_mat (d_world d) b qs (Some c) r.2 q Hok Hcap Hr) as HP.
    rewrite decide_False in HP by (cbn; lra). eexists. apply for_each_throw.
    rewrite (bind_ret _ _ _ rq ((d, b), set_rsrc_commods ∅ p)); [|unfold lift_l, read; cbn; by rewrite (bind_ret get _ _ _ _ eq_refl), Hrq].
    rewrite (bind_ret _ _ _ tt ((d, b), set_rsrc_commods (<[r.2 := commodity_ rq]> ∅) p)) by done.
    unfold lift_l, on_buf. cbn [fst snd]. rewrite HP, set_world_same. reflexivity.
Qed.


(** C29.  A selling policy with a quantum whose buffer holds less than one quantum, but not
    nothing, does not bid nothing: it builds a constraint with the capacity 0, which throws. *)
Theorem sell_below_quantum_throws this (p : MatlSellPolicy xq) commod_requests d b q z t :
  rs_ b ≠ [] → qty_ b ≃ q → sl_quantize p ≃ z → sl_throughput p ≃ t → (e <= q)%Q → (q < z)%Q →
  ∃ d', sl_GetMatlBids this p commod_requests (d, b) = (Throw ValueError, (d', b)).
Proof.
  intros Hne Hq Hz Ht Hge Hlt. pose proof (eps_nonneg (e := e) (er := er)) as He.
  assert (Qfloor (q / z) = 0%Z) as Hfl.
  { apply Z.le_antisymm.
    - apply Z.lt_succ_r. rewrite Zlt_Qlt. eapply Qle_lt_trans; [apply Qfloor_le|]. apply Qlt_shift_div_r; [lra|]. change (inject_Z (Z.succ 0)) with 1%Q. lra.
    - change 0%Z with (Qfloor 0). apply Qfloor_resp_le, Qle_shift_div_l; lra. }
  destruct (Limit_spec p b q z t Hq ltac:(lra) Hz Ht ltac:(by rewrite Hfl)) as (x & Hlim & Hx).
  assert (limit_of z t q <= 0)%Q as Ha.
  { unfold limit_of. rewrite (proj2 (Qltb_lt 0 z)), Hfl by lra. eapply Qle_trans; [apply Q.le_min_r|]. change (inject_Z 0) with 0%Q. lra. }
  unfold sl_GetMatlBids. rewrite (bind_ret (gets snd) _ (d, b) b (d, b) eq_refl).
  rewrite bool_decide_eq_false_2 by done. rewrite (ltb_fin Hq eps_fin), (proj2 (Qltb_ge _ _)) by done. cbn [orb].
  eexists. erewrite bind_ret by reflexivity. rewrite Hlim, (bind_ret (pure (Ret x)) _ _ x _ eq_refl). apply bind_throw.
  unfold lift_l. rewrite new_trivial_constraint_run, (leb_fin Hx (fin_Z 0)), (proj2 (Qle_bool_iff (limit_of z t q) (inject_Z 0)) Ha). reflexivity.
Qed.
End properties.

(** ** Witnesses

    A request for 2 kg of the second material of the example, and a buffer with the first. *)
Module TradeExample.
Import ResExample BufExample.
#[local] Existing Instance pyne.
#[local] Existing Instance default_limits.

Definition request : Request xq := mkRequest xq 6 100 "fuel" (nZ 1) 1 false.
Definition dre : DRE xq := mkDRE xq world {[2%Z := request]} ∅ ∅ ∅ 0 10 new_ex_ctx (mkXlat ∅ ∅ ∅ ∅) new_graph.
Definition one (cap : xq) : ResBuf xq := mkBuf xq (nZ 8) cap [5]%Z {[5%Z]}.
Definition trade (q : Z) : Trade xq := mkTrade xq 2 5 (nZ q) (nZ 1).
Definition seller (z : xq) : MatlSellPolicy xq := mkSellPolicy xq (Some 100%Z) "out" {["fuel"]} z (nZ 5) true.
Definition buyer : MatlBuyPolicy xq :=
  mkBuyPolicy xq (Some 100%Z) "in" (nZ 1) (nZ 1) (nZ 2) (nZ 50) ∅ {["fuel" := mkDetail xq 4 (nZ 1)]}.

Lemma one_ok cap : buf_ok good_mat world (one cap) [8]%Q.
Proof. split; [apply (fin_Z 8)|constructor; [exact good_5|constructor]|apply NoDup_singleton|reflexivity]. Qed.
Lemma request_ok : d_reqs dre !! 2%Z = Some request.
Proof. reflexivity. Qed.
Lemma target_comp : ∃ r lt, ress world !! 6%Z = Some r ∧ kind_ r = KMaterial 4 lt.
Proof. eexists _, _. split; vm_compute; reflexivity. Qed.
Lemma not_6 : 6%Z ∉ [5]%Z.
Proof. set_solver. Qed.
End TradeExample.
#[local] Existing Instance ResExample.pyne.
#[local] Existing Instance default_limits.
Import TradeExample.

Lemma source_answers_witness :
  ∃ rs d', src_GetMatlTrades ∅ 7 (mkSource xq "fuel" "" (nZ 3)) [trade 2] dre = (Ret rs, d') ∧ rs.*1 = [trade 2].
Proof.
  destruct (source_answers ∅ 7 (mkSource xq "fuel" "" (nZ 3)) [trade 2] dre 3 [2]%Q [4]%Z) as (w' & _ & _ & Hrun & _).
  - exact (proj1 ResExample.world_ok).
  - exact (proj2 BufExample.world_inv).
  - apply (fin_Z 3).
  - constructor; [apply (fin_Z 2)|constructor].
  - constructor; [|constructor]. destruct target_comp as (r & lt & Hr & Hk). exists request, r, lt. by split_and!.
  - destruct Hrun as (rs & Hrun & Hfst & _); [discriminate|]. exists rs, (set_world w' dre). split; [exact Hrun|exact Hfst].
Defined.

Lemma sell_policy_delivers_witness :
  ∃ rs d' b' w', sl_GetMatlTrades (seller (nZ (-1))) [trade 2; trade 3] (dre, one ninf) = (Ret rs, (d', b')) ∧
    Forall2 (λ r k, good_mat w' r.2 k) rs [2; 3]%Q.
Proof.
  destruct (sell_policy_delivers (seller (nZ (-1))) [trade 2; trade 3] dre (one ninf) [8]%Q [2; 3]%Q)
    as (rs & w' & b' & qs' & Hrun & _ & _ & Hall & _).
  - exact BufExample.world_inv.
  - apply one_ok.
  - constructor; [split; [apply (fin_Z 2)|reflexivity]|]. constructor; [split; [apply (fin_Z 3)|reflexivity]|constructor].
  - discriminate.
  - intros _ t Ht. assert (tr_request t = 2%Z) as -> by (apply elem_of_cons in Ht as [-> | ->%list_elem_of_singleton]; done).
    exists request, 2%Q. split_and!; [exact request_ok|exact BufExample.good_6|exact not_6].
  - exists rs, (set_world w' dre), b', w'. split; [exact Hrun|exact Hall].
Defined.


Lemma buy_policy_accepts_witness :
  ∃ b' p', by_AcceptMatlTrades [(trade 2, 6%Z)] ((dre, one (nZ 13)), buyer) = (Ret tt, ((dre, b'), p')) ∧
    rs_ b' = [5; 6]%Z ∧ rsrc_commods_ p' !! 6%Z = Some "fuel".
Proof.
  destruct (buy_policy_accepts buyer dre (one (nZ 13)) [8]%Q 13 1 50 [(trade 2, 6%Z)] [2]%Q) as [Hrun _].
  - apply one_ok.
  - apply (fin_Z 13).
  - discriminate.
  - discriminate.
  - constructor; [exact BufExample.good_6|constructor].
  - apply NoDup_singleton.
  - intros r ->%list_elem_of_singleton. split; [exact not_6|by exists request].
  - destruct Hrun as (b' & p' & Hrun & Hrs & _ & _ & _ & Hcom); [discriminate|]. exists b', p'. split_and!; [exact Hrun|exact Hrs|].
    apply (Hcom (trade 2, 6%Z) request); [by left|exact request_ok].
Defined.


Lemma sell_below_quantum_throws_witness :
  ∃ d', sl_GetMatlBids 200 (seller (nZ 20)) ∅ (dre, one ninf) = (Throw ValueError, (d', one ninf)).
Proof.
  apply (sell_below_quantum_throws 200 (seller (nZ 20)) ∅ dre (one ninf) 8 20 5);
    [discriminate|apply (fin_Z 8)|apply (fin_Z 20)|apply (fin_Z 5)|discriminate|reflexivity].
Defined.
