(* ===== verification/Sim.v ===== *)
(** * The simulation: agents, context and timer

    [src/src/agent.h], [agent.cc], [facility.cc], [institution.cc], [region.cc],
    [context.h], [context.cc], [timer.h], [timer.cc], [db_init.cc] and the
    snapshots of [sim_init.cc].

    Agents are objects with identity; the classes of archetypes, which are loaded
    from other libraries, appear through their virtual functions, the record
    [Archetypes]: what an archetype does when it is called is a list of calls of the
    context, computed from the state of the simulation. *)

From Stdlib Require Import QArith ZArith Lia.
From stdpp Require Import base list gmap strings sorting pretty.
From S2P Require Import Prelude Num Arithmetic AgentSpec CompMath Resource Material ExchangeGraph Portfolio Translator ExchangeManager.

(** ** Data *)

(** [SimInfo]; no constructor sets the two epsilons. *)
Record SimInfo {F : Type} := mkSimInfo {
  handle : string;
  si_decay : string;
  duration : Z;
  y0 : Z;
  m0 : Z;
  parent_sim : Z;
  parent_type : string;
  branch_time : Z;
  dt : Z;
  si_eps : option F;
  si_eps_rsrc : option F;
  explicit_inventory : bool;
  explicit_inventory_compact : bool
}.
Arguments SimInfo F : clear implicits.

(** The three base classes of archetypes; other subclasses of [Agent]. *)
Inductive AgentClass := AFacility | AInstitution | ARegion | AOther.
#[export] Instance agent_class_eq_dec : EqDecision AgentClass.
Proof. solve_decision. Defined.

Record Agent := mkAgent {
  a_class : AgentClass;
  a_id : Z;
  a_kind : string;
  prototype_ : string;
  spec_ : string;
  lifetime_ : Z;
  parent_ : option ptr;
  parent_id_ : Z;
  enter_time_ : Z;
  children_ : gset ptr
}.

(** The timer, without [time_], which is the time of the [World]: the time that
    [ctx->time()] returns. *)
Record Timer {F : Type} := mkTimer {
  timer_si : SimInfo F;
  want_snapshot_ : bool;
  want_kill_ : bool;
  tickers_ : gmap Z ptr;
  build_queue_ : gmap Z (list (string * option ptr));
  decom_queue_ : gmap Z (list ptr)
}.
Arguments Timer F : clear implicits.

(** The context, without the transaction ids, which are in the [ExchangeState]. *)
Record SimContext {F : Type} := mkContext {
  rec_ver_ : gset string;
  protos_ : gmap string ptr;
  recipes_ : gmap string ptr;
  agent_list_ : gset ptr;
  sim_traders : gset ptr;
  n_prototypes_ : gmap string Z;
  n_specs_ : gmap string Z;
  ctx_si : SimInfo F
}.
Arguments SimContext F : clear implicits.

(** The whole state; [privs] are the data members of the archetypes' own. *)
Record Sim {F P : Type} := mkSim {
  ti_ : Timer F;
  cx_ : SimContext F;
  agents : gmap ptr Agent;
  privs : gmap ptr P;
  next_id_ : Z;
  next_agent : ptr;
  sx : ExchangeState F
}.
Arguments Sim F P : clear implicits.
Arguments mkSim {F P} _ _ _ _ _ _ _.

Section state.
Context {F P : Type}.
Implicit Types s : Sim F P.

Definition set_ti (x : Timer F) s : Sim F P :=
  mkSim x (cx_ s) (agents s) (privs s) (next_id_ s) (next_agent s) (sx s).
Definition set_cx (x : SimContext F) s : Sim F P :=
  mkSim (ti_ s) x (agents s) (privs s) (next_id_ s) (next_agent s) (sx s).
Definition set_agents (x : gmap ptr Agent) s : Sim F P :=
  mkSim (ti_ s) (cx_ s) x (privs s) (next_id_ s) (next_agent s) (sx s).
Definition set_privs (x : gmap ptr P) s : Sim F P :=
  mkSim (ti_ s) (cx_ s) (agents s) x (next_id_ s) (next_agent s) (sx s).
Definition set_next_id (x : Z) s : Sim F P :=
  mkSim (ti_ s) (cx_ s) (agents s) (privs s) x (next_agent s) (sx s).
Definition set_next_agent (x : ptr) s : Sim F P :=
  mkSim (ti_ s) (cx_ s) (agents s) (privs s) (next_id_ s) x (sx s).
Definition set_sx (x : ExchangeState F) s : Sim F P :=
  mkSim (ti_ s) (cx_ s) (agents s) (privs s) (next_id_ s) (next_agent s) x.
Definition sim_world s : World F := d_world (x_dre (sx s)).
Definition set_sim_world (w : World F) s : Sim F P := set_sx (set_dre (set_world w (x_dre (sx s))) (sx s)) s.

Definition set_timer_si (x : SimInfo F) (t : Timer F) : Timer F :=
  mkTimer F x (want_snapshot_ t) (want_kill_ t) (tickers_ t) (build_queue_ t) (decom_queue_ t).
Definition set_want_snapshot (x : bool) (t : Timer F) : Timer F :=
  mkTimer F (timer_si t) x (want_kill_ t) (tickers_ t) (build_queue_ t) (decom_queue_ t).
Definition set_want_kill (x : bool) (t : Timer F) : Timer F :=
  mkTimer F (timer_si t) (want_snapshot_ t) x (tickers_ t) (build_queue_ t) (decom_queue_ t).
Definition set_tickers (x : gmap Z ptr) (t : Timer F) : Timer F :=
  mkTimer F (timer_si t) (want_snapshot_ t) (want_kill_ t) x (build_queue_ t) (decom_queue_ t).
Definition set_build_queue (x : gmap Z (list (string * option ptr))) (t : Timer F) : Timer F :=
  mkTimer F (timer_si t) (want_snapshot_ t) (want_kill_ t) (tickers_ t) x (decom_queue_ t).
Definition set_decom_queue (x : gmap Z (list ptr)) (t : Timer F) : Timer F :=
  mkTimer F (timer_si t) (want_snapshot_ t) (want_kill_ t) (tickers_ t) (build_queue_ t) x.

Definition set_rec_ver (x : gset string) (c : SimContext F) : SimContext F :=
  mkContext F x (protos_ c) (recipes_ c) (agent_list_ c) (sim_traders c) (n_prototypes_ c) (n_specs_ c) (ctx_si c).
Definition set_protos (x : gmap string ptr) (c : SimContext F) : SimContext F :=
  mkContext F (rec_ver_ c) x (recipes_ c) (agent_list_ c) (sim_traders c) (n_prototypes_ c) (n_specs_ c) (ctx_si c).
Definition set_recipes (x : gmap string ptr) (c : SimContext F) : SimContext F :=
  mkContext F (rec_ver_ c) (protos_ c) x (agent_list_ c) (sim_traders c) (n_prototypes_ c) (n_specs_ c) (ctx_si c).
Definition set_agent_list (x : gset ptr) (c : SimContext F) : SimContext F :=
  mkContext F (rec_ver_ c) (protos_ c) (recipes_ c) x (sim_traders c) (n_prototypes_ c) (n_specs_ c) (ctx_si c).
Definition set_sim_traders (x : gset ptr) (c : SimContext F) : SimContext F :=
  mkContext F (rec_ver_ c) (protos_ c) (recipes_ c) (agent_list_ c) x (n_prototypes_ c) (n_specs_ c) (ctx_si c).
Definition set_counts (x y : gmap string Z) (c : SimContext F) : SimContext F :=
  mkContext F (rec_ver_ c) (protos_ c) (recipes_ c) (agent_list_ c) (sim_traders c) x y (ctx_si c).
Definition set_ctx_si (x : SimInfo F) (c : SimContext F) : SimContext F :=
  mkContext F (rec_ver_ c) (protos_ c) (recipes_ c) (agent_list_ c) (sim_traders c) (n_prototypes_ c) (n_specs_ c) x.

Definition set_parent (x : option ptr) (i : Z) (a : Agent) : Agent :=
  mkAgent (a_class a) (a_id a) (a_kind a) (prototype_ a) (spec_ a) (lifetime_ a) x i (enter_time_ a) (children_ a).
Definition set_children (x : gset ptr) (a : Agent) : Agent :=
  mkAgent (a_class a) (a_id a) (a_kind a) (prototype_ a) (spec_ a) (lifetime_ a) (parent_ a) (parent_id_ a)
    (enter_time_ a) x.
Definition set_enter_time (x : Z) (a : Agent) : Agent :=
  mkAgent (a_class a) (a_id a) (a_kind a) (prototype_ a) (spec_ a) (lifetime_ a) (parent_ a) (parent_id_ a) x
    (children_ a).
Definition set_lifetime (x : Z) (a : Agent) : Agent :=
  mkAgent (a_class a) (a_id a) (a_kind a) (prototype_ a) (spec_ a) x (parent_ a) (parent_id_ a) (enter_time_ a)
    (children_ a).
Definition set_a_id (x : Z) (a : Agent) : Agent :=
  mkAgent (a_class a) x (a_kind a) (prototype_ a) (spec_ a) (lifetime_ a) (parent_ a) (parent_id_ a) (enter_time_ a)
    (children_ a).
End state.

(** ** Archetypes *)

(** The calls that an archetype makes when one of its functions is called. *)
Inductive api {F P : Type} :=
  | CSchedBuild (parent : option ptr) (proto_name : string) (t : Z)
  | CSchedDecom (m : ptr) (t : Z)
  | CSnapshot
  | CKillSim
  | CRegisterTrader (m : ptr)
  | CUnregisterTrader (m : ptr)
  | CLifetime (m : ptr) (n_timesteps : Z)
  | CRecord (title : string) (vals : list (string * dval F))
  | CSetPriv (m : ptr) (x : P).
Arguments api F P : clear implicits.

(** The virtual functions.  Those of a subclass of [Institution] are called after
    those of [Institution]; [init_from] gives the data of a clone. *)
Record Archetypes {F P : Type} := mkArchetypes {
  on_tick : ptr → Sim F P → list (api F P);
  on_tock : ptr → Sim F P → list (api F P);
  on_enter : ptr → Sim F P → list (api F P);
  on_build_notify : ptr → ptr → Sim F P → list (api F P);
  on_decom_notify : ptr → ptr → Sim F P → list (api F P);
  check_decommission : ptr → Sim F P → bool;
  snapshot_rows : ptr → Sim F P → list (string * list (string * dval F));
  snapshot_inv : ptr → Sim F P → list (string * list ptr);
  init_from : P → P;
  arch_version : ptr → string;
  matl_ops : TraderOps F;
  product_ops : TraderOps F
}.
Arguments Archetypes F P : clear implicits.

Section sim.
Context {F P : Type} `{Num F} `{Limits F} `{Pyne F} `{FloatDistance F}.
Local Abbreviation SM := (M (Sim F P)).
Implicit Types s : Sim F P.

(** ** State access *)
Definition modify_ti (f : Timer F → Timer F) : SM unit := modify (λ s, set_ti (f (ti_ s)) s).
Definition modify_cx (f : SimContext F → SimContext F) : SM unit := modify (λ s, set_cx (f (cx_ s)) s).
Definition agent_at (p : ptr) : SM Agent := s ← get; from_option_or Undefined (agents s !! p).
Definition modify_agent (p : ptr) (f : Agent → Agent) : SM unit :=
  a ← agent_at p; modify (λ s, set_agents (<[p := f a]> (agents s)) s).
Definition time_of s : Z := ctx_time (sim_world s).
Definition now : SM Z := gets time_of.
Definition on_sworld {A} (c : M (World F) A) : SM A := λ s,
  let '(o, w) := c (sim_world s) in (o, set_sim_world w s).
Definition on_sx {A} (c : M (ExchangeState F) A) : SM A := λ s,
  let '(o, x) := c (sx s) in (o, set_sx x s).
Definition record (title : string) (vals : list (string * dval F)) : SM unit :=
  on_sworld (record_datum title vals).
Definition dbool (b : bool) : dval F := DInt (Z.b2z b).

(** ** Timer: registration and schedules *)
Definition RegisterTimeListener (p : ptr) : SM unit :=
  a ← agent_at p; modify_ti (λ t, set_tickers (<[a_id a := p]> (tickers_ t)) t).
Definition UnregisterTimeListener (p : ptr) : SM unit :=
  a ← agent_at p; modify_ti (λ t, set_tickers (delete (a_id a) (tickers_ t)) t).

Definition timer_SchedBuild (parent : option ptr) (proto_name : string) (t : Z) : SM unit :=
  time ← now;
  require (negb (t <=? time)%Z) ValueError;;
  modify_ti (λ x, set_build_queue
    (<[t := at_default [] (build_queue_ x) t ++ [(proto_name, parent)]]> (build_queue_ x)) x).

(** The loop over the queue erases the first entry of [m]. *)
Fixpoint erase_first (m : ptr) (l : list ptr) : list ptr :=
  match l with
  | [] => []
  | x :: l' => if decide (x = m) then l' else x :: erase_first m l'
  end.
Fixpoint unsched (m : ptr) (kvs : list (Z * list ptr)) (q : gmap Z (list ptr)) : gmap Z (list ptr) :=
  match kvs with
  | [] => q
  | (t, ags) :: kvs' => if decide (m ∈ ags) then <[t := erase_first m ags]> q else unsched m kvs' q
  end.
Definition timer_SchedDecom (m : ptr) (t : Z) : SM unit :=
  time ← now;
  require (negb (t <? time)%Z) ValueError;;
  modify_ti (λ x,
    let q := unsched m (in_order (decom_queue_ x)) (decom_queue_ x) in
    set_decom_queue (<[t := at_default [] q t ++ [m]]> q) x).

(** ** Context *)
Definition SchedBuild (parent : option ptr) (proto_name : string) (t : Z) : SM unit :=
  time ← now;
  let t := if (t =? -1)%Z then (time + 1)%Z else t in
  pid ← match parent with Some q => a_id <$> agent_at q | None => mret (-1)%Z end;
  timer_SchedBuild parent proto_name t;;
  record "BuildSchedule"
    [("ParentId", DInt pid); ("Prototype", DStr proto_name); ("SchedTime", DInt time); ("BuildTime", DInt t)].

Definition SchedDecom (m : ptr) (t : Z) : SM unit :=
  time ← now;
  let t := if (t =? -1)%Z then time else t in
  timer_SchedDecom m t;;
  a ← agent_at m;
  record "DecomSchedule" [("AgentId", DInt (a_id a)); ("SchedTime", DInt time); ("DecomTime", DInt t)].

Definition RegisterTrader (m : ptr) : SM unit := modify_cx (λ c, set_sim_traders ({[m]} ∪ sim_traders c) c).
Definition UnregisterTrader (m : ptr) : SM unit := modify_cx (λ c, set_sim_traders (sim_traders c ∖ {[m]}) c).
Definition count_by (d : Z) (k : string) (m : gmap string Z) : gmap string Z :=
  <[k := (at_default 0 m k + d)%Z]> m.
Definition RegisterAgent (p : ptr) : SM unit :=
  a ← agent_at p;
  modify_cx (λ c, set_counts (count_by 1 (prototype_ a) (n_prototypes_ c)) (count_by 1 (spec_ a) (n_specs_ c)) c).
Definition UnregisterAgent (p : ptr) : SM unit :=
  a ← agent_at p;
  modify_cx (λ c, set_counts (count_by (-1) (prototype_ a) (n_prototypes_ c))
    (count_by (-1) (spec_ a) (n_specs_ c)) c).

(** ** Agents: construction and destruction *)
Definition class_kind (c : AgentClass) : string :=
  match c with AFacility => "Facility" | AInstitution => "Inst" | ARegion => "Region" | AOther => "Agent" end.
Definition new_agent (c : AgentClass) : SM ptr :=
  s ← get;
  let p := next_agent s in
  let id := next_id_ s in
  modify (set_next_agent (p + 1)%Z);;
  modify (set_next_id (id + 1)%Z);;
  modify (λ s, set_agents (<[p := mkAgent c id (class_kind c) "" "UNSPECIFIED" (-1) None (-1) (-1) ∅]>
    (agents s)) s);;
  modify_cx (λ c, set_agent_list ({[p]} ∪ agent_list_ c) c);;
  mret p.

(** [Agent::~Agent()]: the parent forgets the agent, its children lose their parent. *)
Definition delete_agent (m : ptr) : SM unit :=
  a ← agent_at m;
  modify_cx (λ c, set_agent_list (agent_list_ c ∖ {[m]}) c);;
  (match parent_ a with
   | Some q => modify_agent q (λ b, set_children (children_ b ∖ {[m]}) b)
   | None => mret tt
   end);;
  for_each (λ c, modify_agent c (set_parent None (-1))) (set_in_order (children_ a));;
  modify (λ s, set_privs (delete m (privs s)) (set_agents (delete m (agents s)) s)).
Definition DelAgent (m : ptr) : SM unit :=
  s ← get;
  if decide (m ∈ agent_list_ (cx_ s)) then delete_agent m else mret tt.

(** [Context::~Context()]: the agents without a parent. *)
Definition delete_context : SM unit :=
  s ← get;
  for_each DelAgent (filter (λ p, from_option parent_ None (agents s !! p) = None) (set_in_order (agent_list_ (cx_ s)))).

Definition set_agent_lifetime (p : ptr) (n_timesteps : Z) : SM unit :=
  a ← agent_at p;
  require (enter_time_ a =? -1)%Z ValueError;;
  modify_agent p (set_lifetime n_timesteps).

(** [exit_time()] *)
Definition exit_time (a : Agent) : SM Z :=
  if (lifetime_ a =? -1)%Z then mret (-1)%Z
  else require (in_int (enter_time_ a + lifetime_ a) && in_int (enter_time_ a + lifetime_ a - 1)) Undefined;;
       mret (enter_time_ a + lifetime_ a - 1)%Z.

(** ** Calls of the archetypes *)
Definition run_api (c : api F P) : SM unit :=
  match c with
  | CSchedBuild parent proto t => SchedBuild parent proto t
  | CSchedDecom m t => SchedDecom m t
  | CSnapshot => modify_ti (set_want_snapshot true)
  | CKillSim => modify_ti (set_want_kill true)
  | CRegisterTrader m => RegisterTrader m
  | CUnregisterTrader m => UnregisterTrader m
  | CLifetime m n => set_agent_lifetime m n
  | CRecord title vals => record title vals
  | CSetPriv m x => modify (λ s, set_privs (<[m := x]> (privs s)) s)
  end.
Definition run_calls (f : Sim F P → list (api F P)) : SM unit := s ← get; for_each run_api (f s).

Context (arch : Archetypes F P).

(** [Clone()] of an archetype: [new T(ctx)] and [InitFrom(this)]. *)
Definition InitFrom (c m : ptr) : SM unit :=
  a ← agent_at m;
  modify_agent c (λ b, mkAgent (a_class b) (a_id b) (a_kind a) (prototype_ a) (spec_ a) (lifetime_ a)
    (parent_ b) (parent_id_ b) (enter_time_ b) (children_ b));;
  modify (λ s, match privs s !! m with
               | Some x => set_privs (<[c := init_from arch x]> (privs s)) s
               | None => s
               end).
Definition CloneAgent (m : ptr) : SM ptr :=
  a ← agent_at m;
  c ← new_agent (a_class a);
  InitFrom c m;;
  mret c.

(** [CreateAgent<T>(proto_name)]; no class for [T = Agent]. *)
Definition CreateAgent (T : option AgentClass) (proto_name : string) : SM ptr :=
  s ← get;
  m ← from_option_or KeyError (protos_ (cx_ s) !! proto_name);
  clone ← CloneAgent m;
  a ← agent_at clone;
  if match T with None => true | Some c => bool_decide (c = a_class a) end then mret clone
  else DelAgent clone;; throw CastError.

(** ** Agents: family *)

(** [AncestorOf(other)]: up from [other]. *)
Fixpoint ancestor_loop (fuel : nat) (this : ptr) (other : option ptr) : SM bool :=
  match fuel with
  | O => throw OutOfFuel
  | S fuel =>
      match other with
      | None => mret false
      | Some q =>
          if decide (this = q) then mret true
          else a ← agent_at q; ancestor_loop fuel this (parent_ a)
      end
  end.
Definition AncestorOf (this other : ptr) : SM bool :=
  s ← get; a ← agent_at other; ancestor_loop (S (size (agents s))) this (parent_ a).

(** [DecendentOf(other)]: down from [other]. *)
Fixpoint any_child (f : ptr → SM bool) (l : list ptr) : SM bool :=
  match l with
  | [] => mret false
  | c :: l' => f c ≫= λ b : bool, if b then mret true else any_child f l'
  end.
Fixpoint descend_loop (fuel : nat) (this other : ptr) : SM bool :=
  match fuel with
  | O => throw OutOfFuel
  | S fuel =>
      a ← agent_at other;
      any_child (λ c, if decide (this = c) then mret true else descend_loop fuel this c)
        (set_in_order (children_ a))
  end.
Definition DecendentOf (this other : ptr) : SM bool :=
  s ← get; descend_loop (S (size (agents s))) this other.
Definition InFamilyTree (this other : ptr) : SM bool :=
  if decide (this = other) then mret true
  else AncestorOf this other ≫= λ b : bool, if b then mret true else DecendentOf this other.

(** [GetTreePrintOuts(m)] of [this]: the loop is over the children of [this], not
    of [m]. *)
Definition newline : string := String (Ascii.ascii_of_nat 10) "".
Definition tab : string := String (Ascii.ascii_of_nat 9) "".
Fixpoint GetTreePrintOuts (fuel : nat) (this m : ptr) : SM (list string) :=
  match fuel with
  | O => throw OutOfFuel
  | S fuel =>
      b ← agent_at m;
      a ← agent_at this;
      outs ← for_collect (GetTreePrintOuts fuel this) (set_in_order (children_ a));
      mret ((prototype_ b +:+ newline) :: ((λ o, tab +:+ o +:+ newline) <$> concat outs))
  end.

Definition PrintChildren (fuel : nat) (this : ptr) : SM string :=
  a ← agent_at this;
  outs ← for_collect (GetTreePrintOuts fuel this) (set_in_order (children_ a));
  mret ("Children of " +:+ prototype_ a +:+ ":" +:+ newline +:+ String.concat "" ((λ o, tab +:+ o) <$> concat outs)).
Definition agent_str (a : Agent) : string :=
  a_kind a +:+ "_" +:+ prototype_ a +:+ " ( " +:+ "ID=" +:+ pretty (a_id a) +:+ ", implementation=" +:+ spec_ a
    +:+ ",  name=" +:+ prototype_ a +:+ ",  parentID=" +:+ pretty (parent_id_ a) +:+ " ) ".

(** [str()] of the three base classes *)
Definition Facility_str (a : Agent) : string :=
  agent_str a +:+ " with: " +:+ " lifetime: " +:+ pretty (lifetime_ a) +:+ " build date: " +:+ pretty (enter_time_ a).
Definition Institution_str (a : Agent) : SM string :=
  match parent_ a with
  | Some q => b ← agent_at q; mret (agent_str a +:+ " in region" +:+ prototype_ b)
  | None => mret (agent_str a +:+ " with no region.")
  end.
Definition Region_str (a : Agent) : SM string :=
  names ← for_collect (λ c, b ← agent_at c; mret (prototype_ b +:+ ", ")) (set_in_order (children_ a));
  mret (agent_str a +:+ " has insts: " +:+ String.concat "" names).

(** ** Agents: entering and leaving *)
Definition Connect (p : ptr) (parent : option ptr) : SM unit :=
  require (negb (bool_decide (parent = Some p))) KeyError;;
  match parent with
  | None => mret tt
  | Some q =>
      b ← agent_at q;
      modify_agent p (set_parent (Some q) (a_id b));;
      modify_agent q (λ b, set_children ({[p]} ∪ children_ b) b)
  end.

Definition EnterNotify (p : ptr) : SM unit :=
  a ← agent_at p;
  (match a_class a with
   | AFacility => RegisterAgent p;; RegisterTrader p;; RegisterTimeListener p
   | AInstitution | ARegion => RegisterTimeListener p
   | AOther => RegisterAgent p
   end);;
  run_calls (on_enter arch p).

Definition AddToTable (p : ptr) : SM unit :=
  a ← agent_at p;
  record "AgentEntry"
    [("AgentId", DInt (a_id a)); ("Kind", DStr (a_kind a)); ("Spec", DStr (spec_ a));
     ("Prototype", DStr (prototype_ a)); ("ParentId", DInt (parent_id_ a));
     ("Lifetime", DInt (lifetime_ a)); ("EnterTime", DInt (enter_time_ a))].

Definition Build (p : ptr) (parent : option ptr) : SM unit :=
  Connect p parent;;
  time ← now;
  modify_agent p (set_enter_time time);;
  EnterNotify p;;
  AddToTable p.

Definition agent_Decommission (p : ptr) : SM unit :=
  a ← agent_at p;
  time ← now;
  record "AgentExit" [("AgentId", DInt (a_id a)); ("ExitTime", DInt time)];;
  UnregisterAgent p;;
  DelAgent p.
Definition Decommission (p : ptr) : SM unit :=
  a ← agent_at p;
  match a_class a with
  | AFacility =>
      s ← get;
      require (check_decommission arch p s) BaseError;;
      UnregisterTrader p;;
      UnregisterTimeListener p;;
      agent_Decommission p
  | AInstitution | ARegion => UnregisterTimeListener p;; agent_Decommission p
  | AOther => agent_Decommission p
  end.

(** ** Ticks and tocks *)

(** [Institution::Tock()] *)
Definition retire_child (c : ptr) : SM unit :=
  a ← agent_at c;
  if (lifetime_ a =? -1)%Z then mret tt
  else
    time ← now;
    t ← exit_time a;
    if (t <=? time)%Z then
      s ← get;
      if match a_class a with AFacility => check_decommission arch c s | _ => true end
      then SchedDecom c (-1) else mret tt
    else mret tt.
Definition Institution_Tock (p : ptr) : SM unit :=
  a ← agent_at p; for_each retire_child (set_in_order (children_ a)).

Definition Tick (p : ptr) : SM unit := run_calls (on_tick arch p).
Definition Tock (p : ptr) : SM unit :=
  a ← agent_at p;
  (match a_class a with AInstitution => Institution_Tock p | _ => mret tt end);;
  run_calls (on_tock arch p).

(** ** Time series

    [RecordTimeSeries] of [src/src/toolkit/timeseries.h] and [.cc]. *)
Inductive TimeSeriesType := POWER | ENRICH_SWU | ENRICH_FEED.
Definition RecordTimeSeries (tsname : string) (p : ptr) (value : dval F) : SM unit :=
  a ← agent_at p;
  time ← now;
  record ("TimeSeries" +:+ tsname) [("AgentId", DInt (a_id a)); ("Time", DInt time); ("Value", value)].
Definition RecordTimeSeriesOf (T : TimeSeriesType) (p : ptr) (value : F) : SM unit :=
  RecordTimeSeries match T with POWER => "Power" | ENRICH_SWU => "EnrichmentSWU" | ENRICH_FEED => "EnrichmentFeed" end p (DDbl value).

(** ** Snapshots *)

(** [DbInit::NewDatum(title)] *)
Definition db_datum (p : ptr) (full_prefix : bool) (title : string) (vals : list (string * dval F)) : SM unit :=
  a ← agent_at p;
  prefix ← (if full_prefix then
              match spec_of_string (spec_ a) with
              | Ret sp => mret ("AgentState" +:+ Sanitize sp)
              | Throw e => throw e
              end
            else mret "AgentState");
  time ← now;
  record (prefix +:+ title) ([("AgentId", DInt (a_id a)); ("SimTime", DInt time)] ++ vals).
Definition agent_Snapshot (p : ptr) : SM unit :=
  a ← agent_at p;
  db_datum p false "Agent" [("Prototype", DStr (prototype_ a)); ("Lifetime", DInt (lifetime_ a))].

(** [SimInit::SnapAgent(m)] and [SimInit::Snapshot(ctx)] *)
Definition snap_inventory (p : ptr) (name : string) (r : ptr) : SM unit :=
  a ← agent_at p;
  time ← now;
  x ← on_sworld (get_res r);
  record "AgentStateInventories"
    [("AgentId", DInt (a_id a)); ("SimTime", DInt time); ("InventoryName", DStr name);
     ("ResourceId", DInt (state_id_ x))].
Definition SnapAgent (p : ptr) : SM unit :=
  agent_Snapshot p;;
  s ← get;
  for_each (λ tv, db_datum p true tv.1 tv.2) (snapshot_rows arch p s);;
  s ← get;
  for_each (λ nr, for_each (snap_inventory p nr.1) nr.2) (snapshot_inv arch p s).
Definition snap_next_id (object : string) (id : Sim F P → Z) : SM unit :=
  s ← get;
  record "NextIds" [("Time", DInt (time_of s)); ("Object", DStr object); ("NextId", DInt (id s))].
Definition Snapshot : SM unit :=
  time ← now;
  record "Snapshots" [("Time", DInt time)];;
  s ← get;
  for_each (λ p, a ← agent_at p; if (enter_time_ a =? -1)%Z then mret tt else SnapAgent p)
    (set_in_order (agent_list_ (cx_ s)));;
  snap_next_id "Agent" next_id_;;
  snap_next_id "Transaction" (λ s, trans_id_ (sx s));;
  snap_next_id "Composition" (λ s, next_comp_id_ (sim_world s));;
  snap_next_id "ResourceState" (λ s, nextstate_id_ (sim_world s));;
  snap_next_id "ResourceObj" (λ s, nextobj_id_ (sim_world s));;
  snap_next_id "Product" (λ s, next_qualid_ (sim_world s)).

(** ** Context: prototypes, recipes and initialisation *)
Definition AddPrototype (name : string) (p : ptr) (overwrite : bool) : SM unit :=
  s ← get;
  require (overwrite || bool_decide (protos_ (cx_ s) !! name = None)) KeyError;;
  modify_cx (λ c, set_protos (<[name := p]> (protos_ c)) c);;
  SnapAgent p;;
  a ← agent_at p;
  record "Prototypes" [("Prototype", DStr name); ("AgentId", DInt (a_id a)); ("Spec", DStr (spec_ a))];;
  s ← get;
  if decide (spec_ a ∈ rec_ver_ (cx_ s)) then mret tt
  else
    modify_cx (λ c, set_rec_ver ({[spec_ a]} ∪ rec_ver_ c) c);;
    record "AgentVersions" [("Spec", DStr (spec_ a)); ("Version", DStr (arch_version arch p))].

Definition AddRecipe (name : string) (c : ptr) : SM unit :=
  modify_cx (λ x, set_recipes (<[name := c]> (recipes_ x)) x);;
  y ← on_sworld (get_comp c);
  record "Recipes" [("Recipe", DStr name); ("QualId", DInt (comp_id y))].
Definition GetRecipe (name : string) : SM ptr :=
  s ← get; from_option_or KeyError (recipes_ (cx_ s) !! name).
End sim.
