(* ===== verification/SimRun.v ===== *)
(** * Running a simulation

    The phases and the main loop of [src/src/timer.cc], and the initialisation of
    context and timer ([Context::InitSim], [Timer::Initialize]). *)

From Stdlib Require Import QArith ZArith Lia.
From stdpp Require Import base list gmap strings sorting.
From S2P Require Import Prelude Num Arithmetic AgentSpec CompMath Resource Material ExchangeGraph Portfolio Translator ExchangeManager Sim.

Section run.
Context {F P : Type} `{Num F} `{Limits F} `{Pyne F} `{FloatDistance F}.
Local Abbreviation SM := (M (Sim F P)).
Implicit Types s : Sim F P.

(** ** Initialisation *)

(** The constructors of [SimInfo]. *)
Definition new_sim_info (dur y0 m0 : Z) (handle decay : string) : SimInfo F :=
  mkSimInfo F handle decay dur y0 m0 0 "init" (-1) kDefaultTimeStepDur None None false false.
Definition branch_sim_info (dur parent_sim branch_time : Z) (parent_type handle : string) : SimInfo F :=
  mkSimInfo F handle "manual" dur (-1) (-1) parent_sim parent_type branch_time kDefaultTimeStepDur None None false false.
(** [SimInfo(0)] *)
Definition zero_sim_info : SimInfo F := new_sim_info 0 2010 1 "" "manual".

(** How the resources read [sim_info().decay]. *)
Definition decay_mode (d : string) : DecayMode :=
  if decide (d = "never") then DecayNever else if decide (d = "lazy") then DecayLazy else DecayManual.
Definition set_time (t : Z) (w : World F) : World F :=
  mkWorld F (comps w) (chains w) (ress w) (next_ptr w) (next_comp_id_ w) (nextstate_id_ w) (nextobj_id_ w)
    (qualids_ w) (next_qualid_ w) t (ctx_decay w) (ctx_dt w) (recorded w).
Definition set_decay_dt (d : DecayMode) (x : Z) (w : World F) : World F :=
  mkWorld F (comps w) (chains w) (ress w) (next_ptr w) (next_comp_id_ w) (nextstate_id_ w) (nextobj_id_ w)
    (qualids_ w) (next_qualid_ w) (ctx_time w) d x (recorded w).
Definition modify_sworld (f : World F → World F) : SM unit := modify (λ s, set_sim_world (f (sim_world s)) s).

Definition new_timer : Timer F := mkTimer F zero_sim_info false false ∅ ∅ ∅.
(** [Timer::Initialize(ctx, si)] *)
Definition Initialize (si : SimInfo F) : SM unit :=
  require (negb ((m0 si <? 1)%Z || (12 <? m0 si)%Z)) ValueError;;
  modify_ti (set_want_kill false);;
  modify_sworld (set_time 0);;
  modify_ti (set_timer_si si);;
  if (-1 <? branch_time si)%Z then modify_sworld (set_time (branch_time si)) else mret tt.
(** [Timer::Reset()] *)
Definition Reset : SM unit :=
  modify_ti (λ t, mkTimer F zero_sim_info (want_snapshot_ t) (want_kill_ t) ∅ ∅ ∅).

(** [Context::InitSim(si)]; [versions] are the versions of the libraries, [xmlpp] that
    of libxml++. *)
Definition InitSim (versions : list (string * dval F)) (xmlpp : string) (si : SimInfo F) : SM unit :=
  record "Info"
    ([("Handle", DStr (handle si)); ("InitialYear", DInt (y0 si)); ("InitialMonth", DInt (m0 si));
      ("Duration", DInt (duration si)); ("ParentSimId", DInt (parent_sim si));
      ("ParentType", DStr (parent_type si)); ("BranchTime", DInt (branch_time si))] ++ versions);;
  record "DecayMode" [("Decay", DStr (si_decay si))];;
  record "InfoExplicitInv"
    [("RecordInventory", dbool (explicit_inventory si));
     ("RecordInventoryCompact", dbool (explicit_inventory_compact si))];;
  record "TimeStepDur" [("DurationSecs", DInt (to_int (dt si)))];;
  e ← from_option_or Undefined (si_eps si);
  er ← from_option_or Undefined (si_eps_rsrc si);
  record "Epsilon" [("GenericEpsilon", DDbl e); ("ResourceEpsilon", DDbl er)];;
  record "XMLPPInfo" [("LibXMLPlusPlusVersion", DStr xmlpp)];;
  modify_cx (set_ctx_si si);;
  modify_sworld (set_decay_dt (decay_mode (si_decay si)) (dt si));;
  Initialize si.

(** ** The phases of a time step *)
Context (arch : Archetypes F P).

(** [DoBuild()] *)
Definition build_one (b : string * option ptr) : SM unit :=
  m ← CreateAgent arch None b.1;
  Build arch m b.2;;
  match b.2 with
  | Some q => run_calls (on_build_notify arch q m)
  | None => mret tt
  end.
(** [build_queue_[time_]] inserts an empty list where there is none. *)
Definition DoBuild : SM unit :=
  time ← now;
  s ← get;
  let build_list := at_default [] (build_queue_ (ti_ s)) time in
  modify_ti (λ t, set_build_queue (<[time := build_list]> (build_queue_ t)) t);;
  for_each build_one build_list.

Definition DoTick : SM unit := s ← get; for_each (λ kv, Tick arch kv.2) (in_order (tickers_ (ti_ s))).

(** The traders of an exchange: the functions of the archetypes, with the ids and
    the ancestors of the agents. *)
Fixpoint chain (fuel : nat) (ags : gmap ptr Agent) (p : option ptr) : list ptr :=
  match fuel, p with
  | S fuel, Some q => q :: chain fuel ags (ags !! q ≫= parent_)
  | _, _ => []
  end.
Definition trader_ops (o : TraderOps F) s : TraderOps F :=
  mkTraderOps F (λ t, from_option a_id (-1)%Z (agents s !! t))
    (λ t, chain (size (agents s)) (agents s) (agents s !! t ≫= parent_))
    (query_requests o) (query_bids o) (adjust o) (agent_adjust o) (trade_responses o) (accept_trades o).
Context (debug : bool) (req_id : Z → ptr → string) (solve : M (ExchangeGraph F) F).
Definition exchange (o : TraderOps F) : SM unit :=
  s ← get; on_sx (Execute (trader_ops o s) debug req_id (sim_traders (cx_ s)) solve).
Definition DoResEx : SM unit := exchange (matl_ops arch);; exchange (product_ops arch).

(** [RecordInventory(a, name, m)] and [RecordInventories(a)] *)
Definition RecordInventory (p : ptr) (name : string) (m : ptr) : SM unit :=
  a ← agent_at p;
  time ← now;
  s ← get;
  (if explicit_inventory (timer_si (ti_ s)) then
     c ← on_sworld (comp m);
     v ← on_sworld (mass c);
     r ← on_sworld (get_res m);
     for_each (λ kv, record "ExplicitInventory"
         [("AgentId", DInt (a_id a)); ("Time", DInt time); ("InventoryName", DStr name);
          ("NucId", DInt kv.1); ("Quantity", DDbl kv.2)])
       (in_order (compmath.Normalize v (res_qty r)))
   else mret tt);;
  if explicit_inventory_compact (timer_si (ti_ s)) then
    c ← on_sworld (comp m);
    v ← on_sworld (mass c);
    r ← on_sworld (get_res m);
    record "ExplicitInventoryCompact"
      [("AgentId", DInt (a_id a)); ("Time", DInt time); ("InventoryName", DStr name);
       ("Quantity", DDbl (res_qty r)); ("Composition", DMap (compmath.Normalize v (nZ 1)))]
  else mret tt.
Definition is_material (r : Resource F) : bool := match kind_ r with KMaterial _ _ => true | _ => false end.
Definition record_inventories (p : ptr) (inv : string * list ptr) : SM unit :=
  match inv.2 with
  | [] => mret tt
  | r0 :: rest =>
      x ← on_sworld (get_res r0);
      if is_material x then
        m ← on_sworld (Clone r0);
        for_each (λ r, c ← on_sworld (Clone r); on_sworld (AbsorbMat m c)) rest;;
        RecordInventory p inv.1 m
      else mret tt
  end.
Definition RecordInventories (p : ptr) : SM unit :=
  s ← get; for_each (record_inventories p) (snapshot_inv arch p s).

Definition DoTock : SM unit :=
  s ← get;
  for_each (λ kv, Tock arch kv.2) (in_order (tickers_ (ti_ s)));;
  s ← get;
  if explicit_inventory (timer_si (ti_ s)) || explicit_inventory_compact (timer_si (ti_ s)) then
    for_each (λ p, a ← agent_at p; if (enter_time_ a =? -1)%Z then mret tt else RecordInventories p)
      (set_in_order (agent_list_ (cx_ s)))
  else mret tt.

(** [DoDecom()] goes through a copy of the list. *)
Definition decom_one (m : ptr) : SM unit :=
  a ← agent_at m;
  (match parent_ a with
   | Some q => run_calls (on_decom_notify arch q m)
   | None => mret tt
   end);;
  Decommission arch m.
Definition DoDecom : SM unit :=
  time ← now;
  s ← get;
  let decom_list := at_default [] (decom_queue_ (ti_ s)) time in
  modify_ti (λ t, set_decom_queue (<[time := decom_list]> (decom_queue_ t)) t);;
  for_each decom_one decom_list.

(** ** The main loop *)
Definition phases : SM unit :=
  s ← get;
  (if want_snapshot_ (ti_ s) then modify_ti (set_want_snapshot false);; Snapshot arch else mret tt);;
  DoBuild;; DoTick;; DoResEx;; DoTock;; DoDecom.
Definition time_step : SM unit := phases;; modify_sworld (λ w, set_time (ctx_time w + 1)%Z w).
Fixpoint run_loop (fuel : nat) : SM unit :=
  match fuel with
  | O => throw OutOfFuel
  | S fuel =>
      s ← get;
      if (time_of s <? duration (timer_si (ti_ s)))%Z then
        time_step;;
        s ← get;
        if want_kill_ (ti_ s) then mret tt else run_loop fuel
      else mret tt
  end.
Definition RunSim : SM unit :=
  s ← get;
  run_loop (S (Z.to_nat (duration (timer_si (ti_ s)) - time_of s)));;
  s ← get;
  record "Finish" [("EarlyTerm", dbool (want_kill_ (ti_ s))); ("EndTime", DInt (time_of s - 1))];;
  Snapshot arch.
End run.
