(* ===== verification/Schema.v ===== *)
(** * The types of recorded rows

    A database backend makes a table from the first row that it gets for it.  The tables of
    the kernel therefore need rows of one shape each.  [schema] gives the columns of every
    table that a running simulation records, as the calls of [AddVal] in [src/src/] give them,
    and the lemmas show that resources, exchanges and the phases of a time step
    record no other rows. *)

From Stdlib Require Import QArith ZArith Lia.
From stdpp Require Import base list gmap strings sorting.
From S2P Require Import Prelude Respects Num Arithmetic AgentSpec CompMath Resource Material ExchangeGraph Portfolio Translator ExchangeManager Traders Sim SimRun.

(** [DbTypes], as far as the kernel uses them. *)
Inductive dtype := TyInt | TyDbl | TyStr | TyMap.
Definition dtype_of {F} (v : dval F) : dtype :=
  match v with DInt _ => TyInt | DDbl _ => TyDbl | DStr _ => TyStr | DMap _ => TyMap end.

(** ** The tables *)
Local Abbreviation columns := (list (string * dtype)).
Definition kernel_tables : list (string * columns) :=
  [("Resources", [("ResourceId", TyInt); ("ObjId", TyInt); ("Type", TyStr); ("TimeCreated", TyInt); ("Quantity", TyDbl);
     ("Units", TyStr); ("QualId", TyInt); ("Parent1", TyInt); ("Parent2", TyInt)]);
   ("MaterialInfo", [("ResourceId", TyInt); ("PrevDecayTime", TyInt)]);
   ("ResCreators", [("ResourceId", TyInt); ("AgentId", TyInt)]);
   ("Compositions", [("QualId", TyInt); ("NucId", TyInt); ("MassFrac", TyDbl)]);
   ("Products", [("QualId", TyInt); ("Quality", TyStr)]);
   ("Transactions", [("TransactionId", TyInt); ("SenderId", TyInt); ("ReceiverId", TyInt); ("ResourceId", TyInt);
     ("Commodity", TyStr); ("Time", TyInt)]);
   ("DebugRequests", [("Time", TyInt); ("ReqId", TyStr); ("RequesterID", TyInt); ("Commodity", TyStr); ("Preference", TyDbl);
     ("Exclusive", TyInt); ("ResType", TyStr); ("Quantity", TyDbl); ("ResUnits", TyStr)]);
   ("DebugBids", [("ReqId", TyStr); ("BidderId", TyInt); ("BidQuantity", TyDbl); ("Exclusive", TyInt); ("Preference", TyDbl)]);
   ("BuildSchedule", [("ParentId", TyInt); ("Prototype", TyStr); ("SchedTime", TyInt); ("BuildTime", TyInt)]);
   ("DecomSchedule", [("AgentId", TyInt); ("SchedTime", TyInt); ("DecomTime", TyInt)]);
   ("AgentEntry", [("AgentId", TyInt); ("Kind", TyStr); ("Spec", TyStr); ("Prototype", TyStr); ("ParentId", TyInt);
     ("Lifetime", TyInt); ("EnterTime", TyInt)]);
   ("AgentExit", [("AgentId", TyInt); ("ExitTime", TyInt)]);
   ("AgentStateAgent", [("AgentId", TyInt); ("SimTime", TyInt); ("Prototype", TyStr); ("Lifetime", TyInt)]);
   ("AgentStateInventories", [("AgentId", TyInt); ("SimTime", TyInt); ("InventoryName", TyStr); ("ResourceId", TyInt)]);
   ("ExplicitInventory", [("AgentId", TyInt); ("Time", TyInt); ("InventoryName", TyStr); ("NucId", TyInt); ("Quantity", TyDbl)]);
   ("ExplicitInventoryCompact", [("AgentId", TyInt); ("Time", TyInt); ("InventoryName", TyStr); ("Quantity", TyDbl);
     ("Composition", TyMap)]);
   ("Snapshots", [("Time", TyInt)]);
   ("NextIds", [("Time", TyInt); ("Object", TyStr); ("NextId", TyInt)]);
   ("Finish", [("EarlyTerm", TyInt); ("EndTime", TyInt)]);
   ("TimeSeriesPower", [("AgentId", TyInt); ("Time", TyInt); ("Value", TyDbl)]);
   ("TimeSeriesEnrichmentSWU", [("AgentId", TyInt); ("Time", TyInt); ("Value", TyDbl)]);
   ("TimeSeriesEnrichmentFeed", [("AgentId", TyInt); ("Time", TyInt); ("Value", TyDbl)])].

Fixpoint columns_of (title : string) (l : list (string * columns)) : option columns :=
  match l with
  | [] => None
  | (t, c) :: l => if decide (t = title) then Some c else columns_of title l
  end.
Definition schema (title : string) : option columns := columns_of title kernel_tables.

(** A row has the columns of its table; tables of archetypes are their own affair. *)
Definition typed {F} (tr : string * list (string * dval F)) : Prop :=
  match schema tr.1 with Some c => prod_map id dtype_of <$> tr.2 = c | None => True end.

(** ** What is recorded *)
Definition wtyped {F} (w w' : World F) : Prop := ∃ new, recorded w' = recorded w ++ new ∧ Forall typed new.
#[export] Instance wtyped_preorder {F} : PreOrder (@wtyped F).
Proof.
  split.
  - intros w. exists []. by rewrite app_nil_r.
  - intros w1 w2 w3 (l1 & H1 & T1) (l2 & H2 & T2). exists (l1 ++ l2). rewrite app_assoc, <-H1. split; [done|]. by apply Forall_app.
Qed.
Lemma wtyped_all {F} (w w' : World F) : wtyped w w' → Forall typed (recorded w) → Forall typed (recorded w').
Proof. intros (l & -> & Hl) Hw. by apply Forall_app. Qed.

Lemma respects_for_each_in {S A} (R : relation S) E `{!PreOrder R} (f : A → M S unit) l :
  (∀ x, x ∈ l → respects R E (f x)) → respects R E (for_each f l).
Proof.
  intros Hf. induction l as [|x l IH]; [apply respects_ret, _|].
  apply (respects_bind R E (f x) (λ _, for_each f l)); [apply Hf; by left|]. intros _. apply IH. intros y Hy. apply Hf. by right.
Qed.

Section world.
Context {F : Type} `{Num F} `{Limits F} `{Pyne F}.
Local Abbreviation WT := (respects (@wtyped F) any_exn).

Lemma modify_wtyped f : (∀ w, recorded (f w) = recorded w) → WT (modify f).
Proof. intros Hf. apply respects_modify. intros w. exists []. by rewrite Hf, app_nil_r. Qed.
Lemma record_datum_typed t v : typed (t, v) → WT (record_datum t v).
Proof. intros Ht. apply respects_modify. intros w. exists [(t, v)]. split; [done|]. by apply Forall_singleton. Qed.
#[local] Hint Extern 1 (WT (modify _)) => (apply modify_wtyped; done) : respects.
#[local] Hint Extern 1 (WT (record_datum _ _)) => (apply record_datum_typed; reflexivity) : respects.

Lemma get_comp_typed c : WT (get_comp c).
Proof. unfold get_comp. respect. Qed.
Lemma put_comp_typed c x : WT (put_comp c x).
Proof. by apply modify_wtyped. Qed.
Lemma get_res_typed p : WT (get_res p).
Proof. unfold get_res. respect. Qed.
Lemma put_res_typed p x : WT (put_res p x).
Proof. by apply modify_wtyped. Qed.
Lemma fresh_typed : WT fresh.
Proof. unfold fresh. respect. Qed.
#[local] Hint Resolve get_comp_typed put_comp_typed get_res_typed put_res_typed fresh_typed : respects.
Lemma modify_res_typed p f : WT (modify_res p f).
Proof. unfold modify_res. respect. Qed.
Lemma mass_typed c : WT (mass c).
Proof. unfold mass. respect. Qed.
Lemma atom_typed c : WT (atom c).
Proof. unfold atom. respect. Qed.
Lemma new_composition_in_typed t l : WT (new_composition_in t l).
Proof. unfold new_composition_in. respect. Qed.
#[local] Hint Resolve modify_res_typed mass_typed atom_typed new_composition_in_typed : respects.
Lemma CreateFromMass_typed v : WT (CreateFromMass v).
Proof. unfold CreateFromMass, valid_comp, new_composition. respect. Qed.
Lemma RecordComp_typed c : WT (RecordComp c).
Proof. unfold RecordComp. respect. Qed.
Lemma DecayComp_typed p d t : WT (DecayComp p d t).
Proof. unfold DecayComp, NewDecay. respect. Qed.
Lemma mat_parts_typed r : WT (mat_parts r).
Proof. unfold mat_parts. respect. Qed.
#[local] Hint Resolve CreateFromMass_typed RecordComp_typed DecayComp_typed mat_parts_typed : respects.
Lemma TrackerRecord_typed p : WT (TrackerRecord p).
Proof. unfold TrackerRecord, BumpStateId, qual_id, RecordRes. respect. Qed.
#[local] Hint Resolve TrackerRecord_typed : respects.
Lemma comp_typed p : WT (comp p).
Proof. unfold comp, DecayMat, Transmute, TrackerModify, put_parents. respect. Qed.
Lemma new_resource_typed ctx q k : WT (new_resource ctx q k).
Proof. unfold new_resource. respect. Qed.
#[local] Hint Resolve comp_typed new_resource_typed : respects.
Lemma AbsorbMat_typed p m : WT (AbsorbMat p m).
Proof. unfold AbsorbMat, merge_comps, move_qty, TrackerAbsorb, put_parents. respect. Qed.
Lemma CloneRes_typed p : WT (Clone p).
Proof. unfold Clone. respect. Qed.
Lemma CreateMaterial_typed i q c : WT (CreateMaterial i q c).
Proof. unfold CreateMaterial, new_material, TrackerCreate, put_parents. respect. Qed.
Lemma CreateUntrackedMaterial_typed q c : WT (CreateUntrackedMaterial q c).
Proof. unfold CreateUntrackedMaterial, new_material. respect. Qed.
End world.
#[export] Hint Extern 1 (respects wtyped any_exn (record_datum _ _)) => (apply record_datum_typed; reflexivity) : respects.
#[export] Hint Resolve get_comp_typed get_res_typed mass_typed comp_typed AbsorbMat_typed CloneRes_typed CreateMaterial_typed
  CreateUntrackedMaterial_typed : respects.

(** ** Exchanges *)
Definition dtyped {F} (d d' : DRE F) : Prop := wtyped (d_world d) (d_world d').
Definition xtyped {F} (x x' : ExchangeState F) : Prop := dtyped (x_dre x) (x_dre x').
#[export] Instance dtyped_preorder {F} : PreOrder (@dtyped F).
Proof. split; [intros d|intros d1 d2 d3]; unfold dtyped; [done|by apply transitivity]. Qed.
#[export] Instance xtyped_preorder {F} : PreOrder (@xtyped F).
Proof. split; [intros d|intros d1 d2 d3]; unfold xtyped; [done|by apply transitivity]. Qed.

(** Traders that record rows of the right shape. *)
Class TypedTraders {F} (o : TraderOps F) : Prop := {
  tt_requests : ∀ t, respects dtyped any_exn (query_requests o t);
  tt_bids : ∀ t, respects dtyped any_exn (query_bids o t);
  tt_adjust : ∀ t p, respects dtyped any_exn (adjust o t p);
  tt_agent_adjust : ∀ t p, respects dtyped any_exn (agent_adjust o t p);
  tt_responses : ∀ t l, respects dtyped any_exn (trade_responses o t l);
  tt_accept : ∀ t l, respects dtyped any_exn (accept_trades o t l)
}.

Section exchange.
Context {F : Type} `{Num F} `{FloatDistance F} `{Limits F} `{Pyne F}.
Local Abbreviation DT := (respects (@dtyped F) any_exn).
Local Abbreviation XT := (respects (@xtyped F) any_exn).

Lemma modify_dtyped (f : DRE F → DRE F) : (∀ d, d_world (f d) = d_world d) → DT (modify f).
Proof. intros Hf. apply respects_modify. intros d. unfold dtyped. by rewrite Hf. Qed.
Lemma modify_xtyped (f : ExchangeState F → ExchangeState F) :
  (∀ x, d_world (x_dre (f x)) = d_world (x_dre x)) → XT (modify f).
Proof. intros Hf. apply respects_modify. intros d. unfold xtyped, dtyped. by rewrite Hf. Qed.
#[local] Hint Extern 1 (DT (modify _)) => (apply modify_dtyped; done) : respects.
#[local] Hint Extern 1 (XT (modify _)) => (apply modify_xtyped; done) : respects.

Lemma read_typed {A} (h : DRE F → gmap ptr A) p : DT (read h p).
Proof. unfold read. respect. Qed.
Lemma new_ptr_typed : DT new_ptr.
Proof. unfold new_ptr. respect. Qed.
#[local] Hint Resolve read_typed new_ptr_typed : respects.
Lemma res_quantity_typed p : DT (res_quantity p).
Proof. unfold res_quantity. respect. Qed.
Lemma modify_graph_typed f : DT (modify_graph f).
Proof. unfold modify_graph. respect. Qed.
#[local] Hint Resolve res_quantity_typed modify_graph_typed : respects.
Lemma convert_typed c p u : DT (convert c p u).
Proof. unfold convert. respect. Qed.
#[local] Hint Resolve convert_typed : respects.
Lemma AddRequestPortfolio_typed p : DT (AddRequestPortfolio p).
Proof. unfold AddRequestPortfolio, ctx_AddRequest. respect. Qed.
Lemma AddBidPortfolio_typed p : DT (AddBidPortfolio p).
Proof. unfold AddBidPortfolio, ctx_AddBid. respect. Qed.
Lemma translate_requests_typed mid p : DT (translate_requests mid p).
Proof.
  unfold translate_requests, new_constraint, next_constr_id, rp_AddConstraint, copy_constraint, put_rport,
    TranslateRequestPortfolio, translate_request, xlat_AddRequest, modify_group. respect.
Qed.
Lemma xlat_AddArc_typed r b : DT (xlat_AddArc r b).
Proof. unfold xlat_AddArc, TranslateArc, TranslateCapacities, modify_node. respect. Qed.
#[local] Hint Resolve AddRequestPortfolio_typed AddBidPortfolio_typed translate_requests_typed xlat_AddArc_typed : respects.
Lemma translate_bids_typed mid p : DT (translate_bids mid p).
Proof. unfold translate_bids, TranslateBidPortfolio, translate_bid, xlat_AddBid, modify_group. respect. Qed.
#[local] Hint Resolve translate_bids_typed : respects.
Lemma Translate_typed mid : DT (Translate mid).
Proof. unfold Translate. respect. Qed.
Lemma BackTranslateSolution_typed ms : DT (BackTranslateSolution ms).
Proof. unfold BackTranslateSolution, BackTranslateMatch. respect. Qed.
#[local] Hint Resolve Translate_typed BackTranslateSolution_typed : respects.

Lemma on_dre_typed {A} (c : M (DRE F) A) : DT c → XT (on_dre c).
Proof. intros Hc. unfold on_dre. by apply (respects_zoom xtyped dtyped _ x_dre set_dre). Qed.
Lemma in_world_typed {A} (c : M (World F) A) : respects wtyped any_exn c → DT (in_world c).
Proof. intros Hc. by apply (respects_zoom dtyped wtyped _ d_world set_world). Qed.
Lemma on_world_typed {A} (c : M (World F) A) : respects wtyped any_exn c → XT (on_world c).
Proof. intros Hc. by apply on_dre_typed, in_world_typed. Qed.
Lemma adjust_with_typed f t : (∀ p, DT (f p)) → DT (adjust_with f t).
Proof. intros Hf. unfold adjust_with. respect. Qed.
Ltac xrespect := respect; repeat (first [apply on_world_typed | apply on_dre_typed | apply in_world_typed | apply adjust_with_typed; intros]; respect).

Context (o : TraderOps F) `{Ho : !TypedTraders o}.
#[local] Hint Resolve tt_requests tt_bids tt_adjust tt_agent_adjust tt_responses tt_accept : respects.
Lemma RecordDebugInfo_typed req_id : XT (RecordDebugInfo o req_id).
Proof. unfold RecordDebugInfo, debug_request, debug_bid. xrespect. Qed.
Lemma ExecuteTrades_typed b ts : XT (ExecuteTrades o b ts).
Proof using All.
  unfold ExecuteTrades, GroupTradesBySupplier, GetTradeResponses, responses_of, RecordTrades, record_trade,
    NextTransactionID, SendTradeResources. xrespect.
Qed.
Lemma Execute_typed debug req_id sim (solve : M (ExchangeGraph F) F) : XT (Execute o debug req_id sim solve).
Proof using All.
  pose proof RecordDebugInfo_typed as Hd. pose proof ExecuteTrades_typed as He. unfold Execute.
  unfold AddAllRequests, AddAllBids, AdjustAll, InitTraders, AddRequests_, AddBids_, AdjustPrefs_. xrespect.
  intros d. destruct (solve (d_graph d)) as [x g]. split; [|done]. change (wtyped (d_world d) (d_world d)). reflexivity.
Qed.
End exchange.

(** Sources are such traders. *)
Section source.
Context {F : Type} `{Num F} `{Limits F} `{Pyne F}.
Local Abbreviation DT := (respects (@dtyped F) any_exn).

(** The trader functions of an agent that is a source; the others do nothing. *)
Definition source_ops (recipes : gmap string ptr) (ids : ptr → Z) (src : ptr → Source F) : TraderOps F :=
  mkTraderOps F ids (λ _, []) (λ _, mret ∅)
    (λ t, d ← get; src_GetMatlBids recipes t (src t) (commod_requests (d_ctx d)))
    (λ _ p, mret p) (λ _ p, mret p)
    (λ t ts, src_GetMatlTrades recipes (ids t) (src t) ts) (λ _ _, mret tt).

#[local] Hint Extern 1 (DT (modify _)) => (apply modify_dtyped; done) : respects.
#[local] Hint Resolve read_typed new_ptr_typed res_quantity_typed : respects.
Ltac drespect := respect; repeat (apply in_world_typed; respect).
Lemma provide_loop_typed recipes id (src : Source F) ts : ∀ cap acc, DT (provide_loop recipes id src ts cap acc).
Proof. induction ts as [|t ts IH]; intros cap acc; cbn [provide_loop]; unfold recipe_of; drespect. Qed.
#[local] Hint Resolve provide_loop_typed : respects.
#[export] Instance source_typed recipes ids src : TypedTraders (source_ops recipes ids src).
Proof.
  split; intros; cbn [source_ops query_requests query_bids adjust agent_adjust trade_responses accept_trades]; drespect.
  unfold src_GetMatlBids, new_bid_portfolio, put_bport, GetOffer, recipe_of, AddBid_default, AddBid, VerifyResponder_, put_bport,
    new_trivial_constraint, new_constraint, next_constr_id, bp_AddConstraint, copy_constraint, next_constr_id, put_bport. drespect.
Qed.
End source.

(** ** Simulations *)
Definition styped {F P} (s s' : Sim F P) : Prop := wtyped (sim_world s) (sim_world s').
#[export] Instance styped_preorder {F P} : PreOrder (@styped F P).
Proof. split; [intros d|intros d1 d2 d3]; unfold styped; [done|by apply transitivity]. Qed.

(** Archetypes that record rows of the right shape, in the tables of the kernel and in the
    tables of their states. *)
Definition typed_calls {F P} (l : list (api F P)) : Prop := ∀ t v, CRecord t v ∈ l → typed (t, v).
Class TypedArchetypes {F P} (arch : Archetypes F P) : Prop := {
  ta_tick : ∀ p s, typed_calls (on_tick arch p s);
  ta_tock : ∀ p s, typed_calls (on_tock arch p s);
  ta_enter : ∀ p s, typed_calls (on_enter arch p s);
  ta_build : ∀ p m s, typed_calls (on_build_notify arch p m s);
  ta_decom : ∀ p m s, typed_calls (on_decom_notify arch p m s);
  ta_rows : ∀ p s t v sp i time, (t, v) ∈ snapshot_rows arch p s →
    typed ((("AgentState" +:+ Sanitize sp) +:+ t)%string, [("AgentId", DInt i); ("SimTime", DInt time)] ++ v);
  ta_matl : TypedTraders (matl_ops arch);
  ta_product : TypedTraders (product_ops arch)
}.

Section sim.
Context {F P : Type} `{Num F} `{Limits F} `{Pyne F} `{FloatDistance F}.
Local Abbreviation ST := (respects (@styped F P) any_exn).
Implicit Types s : Sim F P.

Lemma modify_styped (f : Sim F P → Sim F P) : (∀ s, sim_world (f s) = sim_world s) → ST (modify f).
Proof. intros Hf. apply respects_modify. intros s. unfold styped. by rewrite Hf. Qed.
#[local] Hint Extern 1 (ST (modify _)) => (apply modify_styped; done) : respects.
Lemma modify_ti_typed f : ST (modify_ti f).
Proof. by apply modify_styped. Qed.
Lemma modify_cx_typed f : ST (modify_cx f).
Proof. by apply modify_styped. Qed.
Lemma on_sworld_typed {A} (c : M (World F) A) : respects wtyped any_exn c → ST (on_sworld c).
Proof. intros Hc. by apply (respects_zoom styped wtyped _ sim_world set_sim_world). Qed.
Lemma on_sx_typed {A} (c : M (ExchangeState F) A) : respects xtyped any_exn c → ST (on_sx c).
Proof. intros Hc. by apply (respects_zoom styped xtyped _ sx set_sx). Qed.
Lemma record_typed t v : typed (t, v) → ST (record t v).
Proof. intros Ht. by apply on_sworld_typed, record_datum_typed. Qed.
Lemma agent_at_typed p : ST (agent_at p).
Proof. unfold agent_at. respect. Qed.
Lemma now_typed : ST now.
Proof. unfold now. respect. Qed.
#[local] Hint Extern 1 (ST (record _ _)) => (apply record_typed; reflexivity) : respects.
#[local] Hint Resolve modify_ti_typed modify_cx_typed agent_at_typed now_typed : respects.
Lemma modify_agent_typed p f : ST (modify_agent p f).
Proof. unfold modify_agent. respect. Qed.
#[local] Hint Resolve modify_agent_typed : respects.
Ltac srespect := respect; repeat (first [apply on_sworld_typed | apply on_sx_typed]; respect).

Lemma SchedBuild_typed parent proto t : ST (SchedBuild parent proto t).
Proof. unfold SchedBuild, timer_SchedBuild. srespect. Qed.
Lemma SchedDecom_typed m t : ST (SchedDecom m t).
Proof. unfold SchedDecom, timer_SchedDecom. srespect. Qed.
#[local] Hint Resolve SchedBuild_typed SchedDecom_typed : respects.
Lemma RecordTimeSeriesOf_typed T p x : ST (RecordTimeSeriesOf T p x).
Proof. unfold RecordTimeSeriesOf, RecordTimeSeries. destruct T; srespect. Qed.
Lemma run_calls_typed f : (∀ s, typed_calls (f s)) → ST (run_calls f).
Proof.
  intros Hf s. unfold run_calls. rewrite (bind_ret get _ s s s eq_refl).
  apply (respects_for_each_in styped any_exn run_api). intros c Hc.
  destruct c; cbn [run_api]; unfold RegisterTrader, UnregisterTrader, set_agent_lifetime; try (srespect; fail).
  apply record_typed. by apply (Hf s).
Qed.
Lemma new_agent_typed c : ST (new_agent c).
Proof. unfold new_agent. srespect. Qed.
Lemma DelAgent_typed m : ST (DelAgent m).
Proof. unfold DelAgent, delete_agent. srespect. Qed.
#[local] Hint Resolve new_agent_typed DelAgent_typed : respects.

Context (arch : Archetypes F P) `{!TypedArchetypes arch}.
Ltac arch_calls := apply run_calls_typed; intros; first [apply ta_tick|apply ta_tock|apply ta_enter|apply ta_build|apply ta_decom].
#[local] Hint Extern 1 (ST (run_calls _)) => arch_calls : respects.

Lemma CreateAgent_typed T name : ST (CreateAgent arch T name).
Proof. unfold CreateAgent, CloneAgent, InitFrom. srespect. apply modify_styped. intros s. by destruct (privs s !! _). Qed.
Lemma Build_typed p q : ST (Build arch p q).
Proof using All. unfold Build, Connect, EnterNotify, RegisterAgent, RegisterTrader, RegisterTimeListener, AddToTable. srespect. Qed.
Lemma Decommission_typed p : ST (Decommission arch p).
Proof. unfold Decommission, agent_Decommission, UnregisterTrader, UnregisterTimeListener, UnregisterAgent. srespect. Qed.
Lemma Tick_typed p : ST (Tick arch p).
Proof using All. unfold Tick. srespect. Qed.
Lemma Tock_typed p : ST (Tock arch p).
Proof using All. unfold Tock, Institution_Tock, retire_child, exit_time. srespect. Qed.
Lemma agent_Snapshot_typed p : ST (agent_Snapshot p).
Proof.
  unfold agent_Snapshot, db_datum. apply respects_bind; [apply _|respect|]. intros a. apply respects_bind; [apply _|respect|]. intros b.
  apply respects_ret_bind. srespect.
Qed.
Lemma snap_rows_typed p s0 t v : (t, v) ∈ snapshot_rows arch p s0 → ST (db_datum p true t v).
Proof using All.
  intros Hin. unfold db_datum. apply respects_bind; [apply _|respect|]. intros a. destruct (spec_of_string (spec_ a)) as [sp|e].
  - apply respects_ret_bind, respects_bind; [apply _|respect|]. intros time. apply record_typed. by eapply ta_rows.
  - apply respects_throw_bind; [apply _|exact I].
Qed.
Lemma SnapAgent_typed p : ST (SnapAgent arch p).
Proof using All.
  pose proof agent_Snapshot_typed as Ha. unfold SnapAgent, snap_inventory. apply respects_bind; [apply _|done|]. intros _ s.
  rewrite (bind_ret get _ s s s eq_refl). revert s. cut (∀ s0, ST (for_each (λ tv, db_datum p true tv.1 tv.2) (snapshot_rows arch p s0);;
    s ← get; for_each (λ nr, for_each (λ r, a ← agent_at p; time ← now; x ← on_sworld (get_res r); record "AgentStateInventories"
      [("AgentId", DInt (a_id a)); ("SimTime", DInt time); ("InventoryName", DStr nr.1); ("ResourceId", DInt (state_id_ x))]) nr.2)
      (snapshot_inv arch p s))); [intros Hc s; apply (Hc s)|].
  intros s0. apply respects_bind; [apply _| |intros; srespect].
  apply respects_for_each_in; [apply _|]. intros [t v] Hin. by eapply snap_rows_typed.
Qed.
#[local] Hint Resolve SnapAgent_typed : respects.
Lemma Snapshot_typed : ST (Snapshot arch).
Proof using All. unfold Snapshot, snap_next_id. srespect. Qed.
#[local] Hint Resolve CreateAgent_typed Build_typed Decommission_typed Tick_typed Tock_typed Snapshot_typed : respects.

Context (debug : bool) (req_id : Z → ptr → string) (solve : M (ExchangeGraph F) F).
Lemma exchange_typed o : TypedTraders o → ST (exchange debug req_id solve o).
Proof.
  intros [? ? ? ? ? ?]. unfold exchange. apply respects_bind; [apply _|respect|]. intros s. apply on_sx_typed, Execute_typed. by split.
Qed.
Lemma phases_typed : ST (phases arch debug req_id solve).
Proof using All.
  pose proof (exchange_typed _ ta_matl). pose proof (exchange_typed _ ta_product).
  unfold phases, DoBuild, DoTick, DoResEx, DoTock, DoDecom, build_one, decom_one, RecordInventories, record_inventories, RecordInventory.
  srespect.
Qed.
Lemma run_loop_typed fuel : ST (run_loop arch debug req_id solve fuel).
Proof using All.
  pose proof phases_typed. induction fuel as [|fuel IH]; cbn [run_loop]; [by apply respects_throw; [apply _|]|].
  unfold time_step, modify_sworld. srespect. apply respects_modify. intros s. exists []. split; [symmetry; apply app_nil_r|done].
Qed.
Lemma RunSim_typed : ST (RunSim arch debug req_id solve).
Proof using All. pose proof run_loop_typed. unfold RunSim. srespect. Qed.
End sim.
