(* ===== verification/SimInit.v ===== *)
(** * Restarting a simulation

    [src/src/sim_init.cc]: the state of a simulation is read back from a database.
    The archetypes' part (constructors of loaded libraries, [InitFrom] and [InitInv] of
    a subclass) is the record [Loader]. *)

From Stdlib Require Import QArith ZArith Lia.
From stdpp Require Import base list gmap strings sorting.
From S2P Require Import Prelude Num Arithmetic AgentSpec CompMath Resource Material Query ExchangeGraph Portfolio Translator ExchangeManager Sim SimRun.

(** The solvers that can be loaded. *)
Inductive SolverSpec {F : Type} :=
  | SGreedy (exclusive : bool) (commod_order : option (gmap string F))
  | SCoin (timeout : F) (exclusive verbose mps : bool).
Arguments SolverSpec F : clear implicits.

Record Loader {F P : Type} := mkLoader {
  make_class : AgentSpec → outcome AgentClass;
  init_from_db : ptr → QueryableBackend F → outcome P;
  init_inv : ptr → gmap string (list ptr) → Sim F P → list (api F P);
  lib_versions : list (string * dval F);
  xmlpp_version : string
}.
Arguments Loader F P : clear implicits.

(** [SimInit]; an entry [None] of [i_agents] is a null pointer. *)
Record SimInit {F P : Type} := mkSimInit {
  i_sim : Sim F P;
  i_info : SimInfo F;
  i_agents : gmap Z (option ptr);
  i_solver : option (SolverSpec F)
}.
Arguments SimInit F P : clear implicits.
Arguments mkSimInit {F P} _ _ _ _.

Section init.
Context {F P : Type} `{Num F} `{Limits F} `{Pyne F} `{FloatDistance F}.
Context (arch : Archetypes F P) (ld : Loader F P).
Local Abbreviation SM := (M (Sim F P)).
Local Abbreviation IM := (M (SimInit F P)).

Definition set_i_sim (x : Sim F P) (i : SimInit F P) : SimInit F P := mkSimInit x (i_info i) (i_agents i) (i_solver i).
Definition set_i_info (x : SimInfo F) (i : SimInit F P) : SimInit F P := mkSimInit (i_sim i) x (i_agents i) (i_solver i).
Definition set_i_agents (x : gmap Z (option ptr)) (i : SimInit F P) : SimInit F P :=
  mkSimInit (i_sim i) (i_info i) x (i_solver i).
Definition set_i_solver (x : option (SolverSpec F)) (i : SimInit F P) : SimInit F P :=
  mkSimInit (i_sim i) (i_info i) (i_agents i) x.
Definition on_sim {A} (c : SM A) : IM A := λ i, let '(o, s) := c (i_sim i) in (o, set_i_sim s i).
Definition lift {S A} (o : outcome A) : M S A := match o with Ret a => mret a | Throw e => throw e end.
(** [try { .. } catch (std::exception err) { .. }] around a query *)
Definition try_query {S} (q : outcome (QueryResult F)) : M S (option (QueryResult F)) :=
  match q with
  | Ret qr => mret (Some qr)
  | Throw e => if caught e then mret None else throw e
  end.
Definition int_at (qr : QueryResult F) (f : string) (i : nat) {S} : M S Z := lift (GetVal as_int qr f i).
Definition str_at (qr : QueryResult F) (f : string) (i : nat) {S} : M S string := lift (GetVal as_str qr f i).
Definition dbl_at (qr : QueryResult F) (f : string) (i : nat) {S} : M S F := lift (GetVal as_dbl qr f i).
Definition bool_at (qr : QueryResult F) (f : string) (i : nat) {S} : M S bool := lift (GetVal as_bool qr f i).
Definition for_rows {S} (f : nat → M S unit) (qr : QueryResult F) : M S unit := for_each f (seq 0 (length (qrows qr))).

(** ** Simulation info *)
Definition with_info (si : SimInfo F) (parent dt : Z) (e er : F) (inv inv_c : bool) : SimInfo F :=
  mkSimInfo F (handle si) (si_decay si) (duration si) (y0 si) (m0 si) parent (parent_type si) (branch_time si) dt
    (Some e) (Some er) inv inv_c.
Definition uint64 (z : Z) : Z := (z mod 2 ^ 64)%Z.

Section load.
Context (b : QueryableBackend F) (t_ : Z).

Definition LoadInfo : IM unit :=
  qr ← lift (Query b "Info" None);
  dur ← int_at qr "Duration" 0;
  y ← int_at qr "InitialYear" 0;
  m ← int_at qr "InitialMonth" 0;
  h ← str_at qr "Handle" 0;
  dq ← lift (Query b "DecayMode" None);
  d ← str_at dq "Decay" 0;
  ps ← int_at qr "ParentSimId" 0;
  tq ← lift (Query b "TimeStepDur" None);
  secs ← int_at tq "DurationSecs" 0;
  eq ← lift (Query b "Epsilon" None);
  e ← dbl_at eq "GenericEpsilon" 0;
  er ← dbl_at eq "ResourceEpsilon" 0;
  xq ← lift (Query b "InfoExplicitInv" None);
  inv ← bool_at xq "RecordInventory" 0;
  invc ← bool_at xq "RecordInventoryCompact" 0;
  let si := with_info (new_sim_info dur y m h d) ps (uint64 secs) e er inv invc in
  modify (set_i_info si);;
  on_sim (InitSim (lib_versions ld) (xmlpp_version ld) si).

(** ** Compositions, recipes and resources *)
Definition eq_cond (f : string) (z : Z) : Cond F := mkCond f "==" EQ (DInt z).
Fixpoint load_fracs (qr : QueryResult F) (l : list nat) (cm : CompMap F) : outcome (CompMap F) :=
  match l with
  | [] => Ret cm
  | i :: l' =>
      match GetVal as_int qr "NucId" i with
      | Throw e => Throw e
      | Ret nucid =>
          match GetVal as_dbl qr "MassFrac" i with
          | Throw e => Throw e
          | Ret x => load_fracs qr l' (<[nucid := x]> cm)
          end
      end
  end.
Definition LoadComposition (stateid : Z) : M (World F) ptr :=
  qr ← lift (Query b "Compositions" (Some [eq_cond "QualId" stateid]));
  cm ← lift (load_fracs qr (seq 0 (length (qrows qr))) ∅);
  c ← CreateFromMass cm;
  x ← get_comp c;
  put_comp c (mkComp F stateid true (atom_ x) (mass_ x) (prev_decay_ x) (decay_line_ x));;
  mret c.

Definition LoadRecipes : SM unit :=
  q ← try_query (Query b "Recipes" None);
  match q with
  | None => mret tt
  | Some qr => for_rows (λ i,
      recipe ← str_at qr "Recipe" i;
      stateid ← int_at qr "QualId" i;
      c ← on_sworld (LoadComposition stateid);
      AddRecipe recipe c) qr
  end.

Definition set_prev_decay (t : Z) (r : Resource F) : Resource F :=
  match kind_ r with KMaterial c _ => set_kind (KMaterial c t) r | KProduct _ => r end.
Definition LoadMaterial (state_id : Z) : SM ptr :=
  qi ← lift (Query b "MaterialInfo" (Some [eq_cond "ResourceId" state_id]));
  prev_decay ← int_at qi "PrevDecayTime" 0;
  qr ← lift (Query b "Resources" (Some [eq_cond "ResourceId" state_id]));
  qty ← dbl_at qr "Quantity" 0;
  stateid ← int_at qr "QualId" 0;
  c ← on_sworld (LoadComposition stateid);
  dummy ← new_agent ARegion;
  a ← agent_at dummy;
  mat ← on_sworld (CreateMaterial (a_id a) qty c);
  on_sworld (modify_res mat (set_prev_decay prev_decay));;
  DelAgent dummy;;
  mret mat.
Definition LoadProduct (state_id : Z) : SM ptr :=
  qr ← lift (Query b "Resources" (Some [eq_cond "ResourceId" state_id]));
  qty ← dbl_at qr "Quantity" 0;
  stateid ← int_at qr "QualId" 0;
  qp ← lift (Query b "Products" (Some [eq_cond "QualId" stateid]));
  quality ← str_at qp "Quality" 0;
  on_sworld (modify (λ w, set_qualids (<[quality := stateid]> (qualids_ w)) (next_qualid_ w) w));;
  dummy ← new_agent ARegion;
  a ← agent_at dummy;
  r ← on_sworld (CreateProduct (a_id a) qty quality);
  DelAgent dummy;;
  mret r.
Definition set_ids (state obj : Z) (r : Resource F) : Resource F :=
  mkRes F state obj (res_ctx r) (res_qty r) (tracker_ r) (kind_ r).
Definition LoadResource (state_id : Z) : SM ptr :=
  qr ← lift (Query b "Resources" (Some [eq_cond "ResourceId" state_id]));
  type ← str_at qr "Type" 0;
  obj_id ← int_at qr "ObjId" 0;
  r ← (if decide (type = "Material") then LoadMaterial state_id
       else if decide (type = "Product") then LoadProduct state_id
       else throw IOError);
  on_sworld (modify_res r (set_ids state_id obj_id));;
  mret r.

(** ** Solvers *)
Fixpoint load_priorities (qr : QueryResult F) (l : list nat) (m : gmap string F) : outcome (gmap string F) :=
  match l with
  | [] => Ret m
  | i :: l' =>
      match GetVal as_str qr "Commodity" i with
      | Throw e => Throw e
      | Ret c =>
          match GetVal as_dbl qr "SolutionOrder" i with
          | Throw e => Throw e
          | Ret x => load_priorities qr l' (<[c := x]> m)
          end
      end
  end.
(** The loop over the rows is inside the [try]. *)
Definition LoadPreconditioner (name : string) : outcome (option (gmap string F)) :=
  match match Query b "CommodPriority" None with
        | Ret qr => load_priorities qr (seq 0 (length (qrows qr))) ∅
        | Throw e => Throw e
        end with
  | Throw e => if caught e then Ret None else Throw e
  | Ret m => if decide (name = "greedy") then Ret (Some m) else Throw ValueError
  end.
Definition LoadGreedySolver (exclusive : bool) : outcome (SolverSpec F) :=
  match (if decide ("GreedySolverInfo" ∈ Tables b) then
           match Query b "GreedySolverInfo" None with
           | Throw e => Throw e
           | Ret qr => if decide (qrows qr = []) then Ret "greedy" else GetVal as_str qr "Preconditioner" 0
           end
         else Ret "greedy") with
  | Throw e => Throw e
  | Ret precon_name =>
      match LoadPreconditioner precon_name with
      | Throw e => Throw e
      | Ret precon => Ret (SGreedy exclusive precon)
      end
  end.
Definition kDefaultTimeout : F := nZ (5 * 60).
(** Without the table the three local variables are not initialised. *)
Definition LoadCoinSolver (exclusive : bool) : outcome (SolverSpec F) :=
  if decide ("CoinSolverInfo" ∈ Tables b) then
    match Query b "CoinSolverInfo" None with
    | Throw e => Throw e
    | Ret qr =>
        match GetVal as_dbl qr "Timeout" 0, GetVal as_bool qr "Verbose" 0, GetVal as_bool qr "Mps" 0 with
        | Ret timeout, Ret verbose, Ret mps =>
            Ret (SCoin (if nleb timeout (nZ 0) then kDefaultTimeout else timeout) exclusive verbose mps)
        | Throw e, _, _ | _, Throw e, _ | _, _, Throw e => Throw e
        end
    end
  else Throw Undefined.
Definition LoadSolverInfo : IM unit :=
  i ← lift (if decide ("SolverInfo" ∈ Tables b) then
              match Query b "SolverInfo" None with
              | Throw e => Throw e
              | Ret qr =>
                  if decide (qrows qr = []) then Ret ("", false)
                  else match GetVal as_str qr "Solver" 0, GetVal as_bool qr "ExclusiveOrders" 0 with
                       | Ret n, Ret x => Ret (n, x)
                       | Throw e, _ | _, Throw e => Throw e
                       end
              end
            else Ret ("", false));
  solver ← lift (if decide (i.1 = "greedy") then LoadGreedySolver i.2
                 else if decide (i.1 = "coin-or") then LoadCoinSolver i.2
                 else Throw ValueError);
  modify (set_i_solver (Some solver)).

(** ** Agents *)
Definition set_spec (x : string) (a : Agent) : Agent :=
  mkAgent (a_class a) (a_id a) (a_kind a) (prototype_ a) x (lifetime_ a) (parent_ a) (parent_id_ a) (enter_time_ a)
    (children_ a).
Definition set_prototype (x : string) (a : Agent) : Agent :=
  mkAgent (a_class a) (a_id a) (a_kind a) x (spec_ a) (lifetime_ a) (parent_ a) (parent_id_ a) (enter_time_ a)
    (children_ a).

(** [DynamicModule::Make(ctx, spec)] *)
Definition Make (spec : AgentSpec) : SM ptr :=
  c ← lift (make_class ld spec);
  p ← new_agent c;
  modify_agent p (set_spec (spec_str spec));;
  mret p.
(** [Agent::InitFrom(b)], and that of the archetype *)
Definition InitFromDb (p : ptr) (q : QueryableBackend F) : SM unit :=
  qr ← lift (Query q "Agent" None);
  proto ← str_at qr "Prototype" 0;
  modify_agent p (set_prototype proto);;
  id ← int_at qr "AgentId" 0;
  modify_agent p (set_a_id id);;
  life ← int_at qr "Lifetime" 0;
  modify_agent p (set_lifetime life).
Definition init_archetype (p : ptr) (q : QueryableBackend F) : SM unit :=
  x ← lift (init_from_db ld p q);
  modify (λ s, set_privs (<[p := x]> (privs s)) s).
Definition init_agent (p : ptr) (spec : AgentSpec) (conds : list (Cond F)) : SM unit :=
  let ci := CondInjector b conds in
  InitFromDb p (PrefixInjector ci "AgentState");;
  init_archetype p (PrefixInjector ci ("AgentState" +:+ Sanitize spec)).

Definition LoadPrototypes : SM unit :=
  qr ← lift (Query b "Prototypes" None);
  for_rows (λ i,
    proto ← str_at qr "Prototype" i;
    agentid ← int_at qr "AgentId" i;
    impl ← str_at qr "Spec" i;
    spec ← lift (spec_of_string impl);
    m ← Make spec;
    modify_agent m (set_a_id agentid);;
    init_agent m spec [eq_cond "AgentId" agentid];;
    AddPrototype arch proto m false) qr.

(** The agents that were alive: created, not connected yet; a map of pointers and one of
    the ids of parents. *)
Definition Unbuilt : Type := gmap Z ptr * gmap Z Z.
Definition gone (id : Z) : SM bool :=
  q ← try_query (Query b "AgentExit" (Some [eq_cond "AgentId" id; mkCond "ExitTime" "<" LT (DInt t_)]));
  mret match q with Some qr => negb (bool_decide (qrows qr = [])) | None => false end.
Definition load_entry (qr : QueryResult F) (u : Unbuilt) (i : nat) : SM Unbuilt :=
  et ← (if (0 <? t_)%Z then int_at qr "EnterTime" i else mret (t_ - 1)%Z);
  if ((0 <? t_) && (et =? t_))%Z then mret u
  else
    id ← int_at qr "AgentId" i;
    x ← gone id;
    if x : bool then mret u
    else
      proto ← str_at qr "Prototype" i;
      impl ← str_at qr "Spec" i;
      spec ← lift (spec_of_string impl);
      m ← Make spec;
      modify_agent m (set_prototype proto);;
      modify_agent m (set_a_id id);;
      et ← int_at qr "EnterTime" i;
      modify_agent m (set_enter_time et);;
      pid ← int_at qr "ParentId" i;
      init_agent m spec [eq_cond "AgentId" id; eq_cond "SimTime" t_];;
      mret (<[id := m]> u.1, <[id := pid]> u.2).
Fixpoint load_entries (qr : QueryResult F) (l : list nat) (u : Unbuilt) : SM Unbuilt :=
  match l with
  | [] => mret u
  | i :: l' => u' ← load_entry qr u i; load_entries qr l' u'
  end.

(** The loop that connects the agents: [it] goes round the map of unbuilt agents. *)
Definition next_key (m : gmap Z ptr) (k : Z) : option Z := head (filter (λ x, (k < x)%Z) (in_order m).*1).
Definition begin_key (m : gmap Z ptr) : option Z := head (in_order m).*1.
Definition advance (m : gmap Z ptr) (k : option Z) : option Z :=
  match k with Some x => Some x | None => begin_key m end.
Fixpoint connect_loop (fuel : nat) (parentmap : gmap Z Z) (unbuilt : gmap Z ptr) (it : option Z) (enter_list : list ptr)
    : IM (list ptr) :=
  match fuel with
  | O => throw OutOfFuel
  | S fuel =>
      match it with
      | None => mret enter_list
      | Some id =>
          m ← from_option_or Undefined (unbuilt !! id);
          let parentid := at_default 0%Z parentmap id in
          i ← get;
          match (if (parentid =? -1)%Z then Some None else i_agents i !! parentid) with
          | Some parent =>
              on_sim (Connect m parent);;
              modify (λ i, set_i_agents (<[id := Some m]> (i_agents i)) i);;
              let unbuilt' := delete id unbuilt in
              connect_loop fuel parentmap unbuilt' (advance unbuilt' (next_key unbuilt id)) (enter_list ++ [m])
          | None => connect_loop fuel parentmap unbuilt (advance unbuilt (next_key unbuilt id)) enter_list
          end
      end
  end.
Definition LoadInitialAgents (fuel : nat) : IM unit :=
  qr ← lift (Query b "AgentEntry" (Some [mkCond "EnterTime" "<=" LE (DInt t_)]));
  u ← on_sim (load_entries qr (seq 0 (length (qrows qr))) (∅, ∅));
  enter_list ← connect_loop fuel u.2 u.1 (begin_key u.1) [];
  for_each (λ m, on_sim (EnterNotify arch m)) enter_list.

(** ** Inventories and schedules *)
Fixpoint load_inventories (qr : QueryResult F) (l : list nat) (invs : gmap string (list ptr)) : SM (gmap string (list ptr)) :=
  match l with
  | [] => mret invs
  | i :: l' =>
      name ← str_at qr "InventoryName" i;
      state_id ← int_at qr "ResourceId" i;
      r ← LoadResource state_id;
      load_inventories qr l' (<[name := at_default [] invs name ++ [r]]> invs)
  end.
Fixpoint load_agent_inventories (l : list (Z * option ptr)) : SM unit :=
  match l with
  | [] => mret tt
  | (_, om) :: l' =>
      m ← from_option_or Undefined om;
      a ← agent_at m;
      q ← try_query (Query b "AgentStateInventories" (Some [eq_cond "SimTime" t_; eq_cond "AgentId" (a_id a)]));
      match q with
      | None => mret tt
      | Some qr =>
          invs ← load_inventories qr (seq 0 (length (qrows qr))) ∅;
          run_calls (init_inv ld m invs);;
          load_agent_inventories l'
      end
  end.
Definition LoadInventories : IM unit := i ← get; on_sim (load_agent_inventories (in_order (i_agents i))).

(** [agents_[id]] inserts a null pointer where there is no agent. *)
Definition agent_ref (id : Z) : IM (option ptr) :=
  i ← get;
  match i_agents i !! id with
  | Some om => mret om
  | None => modify (λ i, set_i_agents (<[id := None]> (i_agents i)) i);; mret None
  end.
Definition LoadBuildSched : IM unit :=
  q ← try_query (Query b "BuildSchedule" (Some [mkCond "BuildTime" ">" GT (DInt t_)]));
  match q with
  | None => mret tt
  | Some qr => for_rows (λ i,
      t ← int_at qr "BuildTime" i;
      parentid ← int_at qr "ParentId" i;
      proto ← str_at qr "Prototype" i;
      parent ← agent_ref parentid;
      on_sim (SchedBuild parent proto t)) qr
  end.
Definition LoadDecomSched : IM unit :=
  q ← try_query (Query b "DecomSchedule" (Some [mkCond "DecomTime" ">=" GE (DInt t_)]));
  match q with
  | None => mret tt
  | Some qr => for_rows (λ i,
      t ← int_at qr "DecomTime" i;
      agentid ← int_at qr "AgentId" i;
      om ← agent_ref agentid;
      m ← from_option_or Undefined om;
      on_sim (SchedDecom m t)) qr
  end.

Definition set_trans_id (x : Z) (s : Sim F P) : Sim F P :=
  set_sx (mkXState F (x_dre (sx s)) x (traders_ (sx s)) (trade_ctx_ (sx s))) s.
Definition load_next_id (qr : QueryResult F) (i : nat) : SM unit :=
  obj ← str_at qr "Object" i;
  if decide (obj = "Agent") then x ← int_at qr "NextId" i; modify (set_next_id x)
  else if decide (obj = "Transaction") then x ← int_at qr "NextId" i; modify (set_trans_id x)
  else if decide (obj = "Composition") then x ← int_at qr "NextId" i; on_sworld (modify (set_next_comp_id x))
  else if decide (obj = "ResourceState") then x ← int_at qr "NextId" i; on_sworld (modify (set_nextstate_id x))
  else if decide (obj = "ResourceObj") then x ← int_at qr "NextId" i; on_sworld (modify (set_nextobj_id x))
  else if decide (obj = "Product") then
    x ← int_at qr "NextId" i; on_sworld (modify (λ w, set_qualids (qualids_ w) x w))
  else throw IOError.
Definition LoadNextIds : SM unit :=
  qr ← lift (Query b "NextIds" (Some [eq_cond "Time" t_]));
  for_rows (load_next_id qr) qr.
End load.

(** ** The whole *)

(** [Context::Context(ti, rec)] and a new [Timer] *)
Definition new_context : SM unit :=
  modify (λ s, set_trans_id 0 (set_ti new_timer (set_cx (mkContext F ∅ ∅ ∅ ∅ ∅ ∅ ∅ zero_sim_info) s))).
(** [InitBase(b, simid, t)]; the rows recorded on the way are flushed to no backend. *)
Definition InitBase (fuel : nat) (b0 : QueryableBackend F) (simid t : Z) : IM unit :=
  i ← get;
  on_sim new_context;;
  let b := CondInjector b0 [eq_cond "SimId" simid] in
  LoadInfo b;;
  on_sim (LoadRecipes b);;
  LoadSolverInfo b;;
  on_sim (LoadPrototypes b);;
  LoadInitialAgents b t fuel;;
  LoadInventories b t;;
  LoadBuildSched b t;;
  LoadDecomSched b t;;
  on_sim (LoadNextIds b t);;
  on_sim (modify_sworld (set_recorded (recorded (sim_world (i_sim i))))).
Definition Init (fuel : nat) (b : QueryableBackend F) (simid : Z) : IM unit := InitBase fuel b simid 0.
Definition restart_info (si : SimInfo F) (simid t : Z) : SimInfo F :=
  mkSimInfo F (handle si) (si_decay si) (duration si) (y0 si) (m0 si) simid "restart" t (dt si) (si_eps si)
    (si_eps_rsrc si) (explicit_inventory si) (explicit_inventory_compact si).
Definition Restart (fuel : nat) (b : QueryableBackend F) (simid t : Z) : IM unit :=
  InitBase fuel b simid t;;
  i ← get;
  let si := restart_info (i_info i) simid t in
  modify (set_i_info si);;
  on_sim (InitSim (lib_versions ld) (xmlpp_version ld) si).
(** [Branch] is not implemented. *)
Definition Branch : IM unit := throw BaseError.
End init.
