(* ===== verification/RecipeContext.v ===== *)
(** * Commodities and their recipes

    [src/src/toolkit/commodity_recipe_context.h] and [.cc]: which commodity goes out for
    one that comes in, with the recipes of both, and the commodities of resources.  The
    context writes itself to a database and reads itself back; the rows that it gives to
    [DbInit] are part of the state. *)

From Stdlib Require Import ZArith Lia.
From stdpp Require Import base list gmap strings sorting.
From S2P Require Import Prelude Num CompMath Resource Query SimInit.

Record CommodityRecipeContext := mkRecipeContext {
  in_commods_ : gset string;
  out_commods_ : gset string;
  out_commod_map_ : gmap string string;
  in_recipes_ : gmap string string;
  out_recipes_ : gmap string string;
  rsrc_commod_map_ : gmap Z string
}.
Definition new_recipe_context : CommodityRecipeContext := mkRecipeContext ∅ ∅ ∅ ∅ ∅ ∅.
Local Abbreviation CRC := CommodityRecipeContext.

(** ** Operations *)
Definition AddInCommod (in_commod in_recipe out_commod out_recipe : string) (c : CRC) : CRC :=
  mkRecipeContext ({[in_commod]} ∪ in_commods_ c) ({[out_commod]} ∪ out_commods_ c)
    (<[in_commod := out_commod]> (out_commod_map_ c)) (<[in_commod := in_recipe]> (in_recipes_ c))
    (<[in_commod := out_recipe]> (out_recipes_ c)) (rsrc_commod_map_ c).
Definition set_rsrc_map (m : gmap Z string) (c : CRC) : CRC :=
  mkRecipeContext (in_commods_ c) (out_commods_ c) (out_commod_map_ c) (in_recipes_ c) (out_recipes_ c) m.

(** A resource is known by its object id. *)
Definition AddRsrc (commod : string) (obj_id : Z) (c : CRC) : CRC := set_rsrc_map (<[obj_id := commod]> (rsrc_commod_map_ c)) c.
Definition UpdateRsrc : string → Z → CRC → CRC := AddRsrc.
Definition RemoveRsrc (obj_id : Z) (c : CRC) : CRC := set_rsrc_map (delete obj_id (rsrc_commod_map_ c)) c.
Definition UpdateInRec (incommod recipe : string) (c : CRC) : CRC :=
  mkRecipeContext (in_commods_ c) (out_commods_ c) (out_commod_map_ c) (<[incommod := recipe]> (in_recipes_ c))
    (out_recipes_ c) (rsrc_commod_map_ c).

(** Reading [map[key]] makes an entry with an empty string if there is none. *)
Definition entry {K} `{Countable K} (k : K) (m : gmap K string) : gmap K string := <[k := at_default "" m k]> m.
Definition out_commod (k : string) : M CRC string :=
  c ← get;
  modify (λ c, mkRecipeContext (in_commods_ c) (out_commods_ c) (entry k (out_commod_map_ c)) (in_recipes_ c) (out_recipes_ c)
    (rsrc_commod_map_ c));;
  mret (at_default "" (out_commod_map_ c) k).
Definition in_recipe (k : string) : M CRC string :=
  c ← get;
  modify (λ c, mkRecipeContext (in_commods_ c) (out_commods_ c) (out_commod_map_ c) (entry k (in_recipes_ c)) (out_recipes_ c)
    (rsrc_commod_map_ c));;
  mret (at_default "" (in_recipes_ c) k).
Definition out_recipe (k : string) : M CRC string :=
  c ← get;
  modify (λ c, mkRecipeContext (in_commods_ c) (out_commods_ c) (out_commod_map_ c) (in_recipes_ c) (entry k (out_recipes_ c))
    (rsrc_commod_map_ c));;
  mret (at_default "" (out_recipes_ c) k).
Definition rsrc_commod (obj_id : Z) : M CRC string :=
  c ← get; modify (set_rsrc_map (entry obj_id (rsrc_commod_map_ c)));; mret (at_default "" (rsrc_commod_map_ c) obj_id).

Section db.
Context {F : Type} `{Num F}.
Local Abbreviation row := (list (string * dval F)).
Local Abbreviation rows := (list (string * row)).
Local Abbreviation inout := "CommodityRecipeContext_inoutmap".
Local Abbreviation resmap := "CommodityRecipeContext_resmap".

Definition InitFrom (b : QueryableBackend F) : M CRC unit :=
  qr ← lift (Query b inout None);
  for_rows (λ i,
    ic ← str_at qr "in_commod" i; ir ← str_at qr "in_recipe" i;
    oc ← str_at qr "out_commod" i; orc ← str_at qr "out_recipe" i;
    modify (AddInCommod ic ir oc orc)) qr;;
  q ← try_query (Query b resmap None);
  match q with
  | None => mret tt
  | Some qr => for_rows (λ i, commod ← str_at qr "commod" i; id ← int_at qr "res_id" i; modify (AddRsrc commod id)) qr
  end.

Definition emit (t : string) (r : row) : M (CRC * rows) unit := lift_r (modify (λ out, out ++ [(t, r)])).
Definition Snapshot : M (CRC * rows) unit :=
  s ← get;
  for_each (λ c,
    ir ← lift_l (in_recipe c); oc ← lift_l (out_commod c); orc ← lift_l (out_recipe c);
    emit inout [("in_commod", DStr c); ("in_recipe", DStr ir); ("out_commod", DStr oc); ("out_recipe", DStr orc)])
    (set_in_order (in_commods_ s.1));;
  s ← get;
  for_each (λ kv, emit resmap [("commod", DStr kv.2); ("res_id", DInt kv.1)]) (in_order (rsrc_commod_map_ s.1)).

(** ** Rows *)
Definition inout_row (c : CRC) (k : string) : row :=
  [("in_commod", DStr k); ("in_recipe", DStr (at_default "" (in_recipes_ c) k));
   ("out_commod", DStr (at_default "" (out_commod_map_ c) k)); ("out_recipe", DStr (at_default "" (out_recipes_ c) k))].
Definition res_row (kv : Z * string) : row := [("commod", DStr kv.2); ("res_id", DInt kv.1)].
Definition context_rows (c : CRC) : rows :=
  ((λ k, (inout, inout_row c k)) <$> set_in_order (in_commods_ c)) ++ ((λ kv, (resmap, res_row kv)) <$> in_order (rsrc_commod_map_ c)).

(** Entries that are made by reading do not change what is read. *)
Record reads_same (c c' : CRC) : Prop := {
  rs_in : in_commods_ c' = in_commods_ c;
  rs_out : out_commods_ c' = out_commods_ c;
  rs_map : ∀ k, at_default "" (out_commod_map_ c') k = at_default "" (out_commod_map_ c) k;
  rs_inrec : ∀ k, at_default "" (in_recipes_ c') k = at_default "" (in_recipes_ c) k;
  rs_outrec : ∀ k, at_default "" (out_recipes_ c') k = at_default "" (out_recipes_ c) k;
  rs_rsrc : rsrc_commod_map_ c' = rsrc_commod_map_ c
}.
Lemma entry_same {K} `{Countable K} (k j : K) m : at_default "" (entry k m) j = at_default "" m j.
Proof. unfold entry, at_default. destruct (decide (k = j)) as [->|Hne]; [by rewrite lookup_insert_eq|by rewrite lookup_insert_ne]. Qed.

Lemma Snapshot_spec c out : ∃ c', Snapshot (c, out) = (Ret tt, (c', out ++ context_rows c)) ∧ reads_same c c'.
Proof.
  cut (runs Snapshot (c, out) (λ _ s, s.2 = out ++ context_rows c ∧ reads_same c s.1)).
  { intros ([] & [c' o'] & Hrun & Ho & Hs). cbn in Ho. subst o'. by exists c'. }
  unfold Snapshot. apply runs_bind, runs_get, runs_bind. cbn [fst].
  eapply runs_mono; [apply (runs_for_each_visited (λ pre s, s.2 = out ++ ((λ k, (inout, inout_row c k)) <$> pre) ∧ reads_same c s.1))|].
  - cbn. rewrite app_nil_r. split; [done|by split].
  - intros pre k post [c1 o1] _ [Ho [? ? Hm Hi Ht ?]]. cbn in *. subst o1. eexists _, _. split; [reflexivity|]. cbn. split.
    + rewrite fmap_app, app_assoc. unfold inout_row. cbn [fmap list_fmap]. by rewrite Hm, Hi, Ht.
    + split; cbn; try done; intros j; by rewrite entry_same.
  - intros [] [c1 o1] [Ho [Hin ? ? ? ? Hr]]. cbn in *. apply runs_bind, runs_get. cbn [fst]. rewrite Hr.
    eapply runs_mono; [apply (runs_for_each_visited (λ pre s, s = (c1, o1 ++ ((λ kv, (resmap, res_row kv)) <$> pre))))|].
    + cbn. by rewrite app_nil_r.
    + intros pre kv post s _ ->. eexists _, _. split; [reflexivity|]. cbn. by rewrite fmap_app, app_assoc.
    + intros [] s ->. cbn. split; [|by split]. rewrite Ho. unfold context_rows. by rewrite app_assoc.
Qed.

(** A loop over rows that are known. *)
Lemma for_rows_run {S A} (f : nat → M S unit) (g : A → S → S) (rw : A → row) qr l s :
  rows_of qr = rw <$> l →
  (∀ i x s, rows_of qr !! i = Some (rw x) → f i s = (Ret tt, g x s)) →
  for_rows f qr s = (Ret tt, foldl (λ s x, g x s) s l).
Proof.
  intros Hrows Hf. unfold for_rows. rewrite <-rows_of_length, Hrows, length_fmap.
  assert (∀ i x, l !! i = Some x → rows_of qr !! i = Some (rw x)) as Hl.
  { intros i x Hx. by rewrite Hrows, list_lookup_fmap, Hx. }
  clear Hrows. cut (∀ k s, (∀ i x, l !! i = Some x → rows_of qr !! (k + i)%nat = Some (rw x)) →
    for_each f (seq k (length l)) s = (Ret tt, foldl (λ s x, g x s) s l)).
  { intros Hk. apply (Hk 0%nat). done. }
  clear Hl s. induction l as [|x l IH]; intros k s Hl; [done|].
  cbn [length seq foldl]. rewrite (for_each_cons f k (seq (Datatypes.S k) (length l)) s (g x s)).
  - apply IH. intros i y Hy. rewrite <-(Hl (Datatypes.S i) y Hy). f_equal. lia.
  - apply Hf. rewrite <-(Hl 0%nat x eq_refl). f_equal. lia.
Qed.

(** ** What is read back *)
Section restored.
Context (c : CRC).
Let oc := at_default "" (out_commod_map_ c).
Let ir := at_default "" (in_recipes_ c).
Let orc := at_default "" (out_recipes_ c).

(** The maps of the commodities that come in, and nothing else. *)
Definition only_of (l : list string) (g : string → string) (m : gmap string string) : Prop :=
  ∀ k, m !! k = if decide (k ∈ l) then Some (g k) else None.
Lemma only_of_snoc l g m k : only_of l g m → only_of (l ++ [k]) g (<[k := g k]> m).
Proof.
  intros Hm j. destruct (decide (k = j)) as [->|Hne].
  - rewrite lookup_insert_eq, decide_True; [done|]. apply elem_of_app. right. by left.
  - rewrite lookup_insert_ne, Hm by done. apply decide_ext. rewrite elem_of_app, list_elem_of_singleton. naive_solver.
Qed.

Record commods_read (l : list string) (c' : CRC) : Prop := {
  cr_in : in_commods_ c' = list_to_set l;
  cr_out : out_commods_ c' = list_to_set (oc <$> l);
  cr_map : only_of l oc (out_commod_map_ c');
  cr_inrec : only_of l ir (in_recipes_ c');
  cr_outrec : only_of l orc (out_recipes_ c');
  cr_rsrc : rsrc_commod_map_ c' = ∅
}.
Lemma commods_read_all l :
  commods_read l (foldl (λ s k, AddInCommod k (ir k) (oc k) (orc k) s) new_recipe_context l).
Proof.
  induction l as [|k l IH] using rev_ind.
  { split; try done; intros k; by rewrite lookup_empty, decide_False by apply not_elem_of_nil. }
  rewrite foldl_app. cbn [foldl]. destruct IH as [Hi Ho Hm Hir Hor Hr]. split; cbn.
  - rewrite Hi, list_to_set_app_L. set_solver.
  - rewrite Ho, fmap_app, list_to_set_app_L. set_solver.
  - by apply only_of_snoc.
  - by apply only_of_snoc.
  - by apply only_of_snoc.
  - done.
Qed.
Lemma rsrc_read_all l c0 :
  foldl (λ s kv, AddRsrc kv.2 kv.1 s) c0 l = set_rsrc_map (foldl (λ m kv, <[kv.1 := kv.2]> m) (rsrc_commod_map_ c0) l) c0.
Proof. revert c0. induction l as [|[k v] l IH]; intros c0; [by destruct c0|]. cbn [foldl]. rewrite IH. done. Qed.
End restored.

(** What comes back from the rows of a context. *)
Definition restored (c : CRC) : CRC :=
  let l := set_in_order (in_commods_ c) in
  let back m := list_to_map ((λ k, (k, at_default "" m k)) <$> l) in
  mkRecipeContext (in_commods_ c) (list_to_set (at_default "" (out_commod_map_ c) <$> l)) (back (out_commod_map_ c))
    (back (in_recipes_ c)) (back (out_recipes_ c)) (rsrc_commod_map_ c).

Lemma only_of_list l g : only_of l g (list_to_map ((λ k, (k, g k)) <$> l)).
Proof.
  intros k. induction l as [|j l IH]; [by rewrite decide_False by apply not_elem_of_nil|]. cbn. destruct (decide (j = k)) as [->|Hne].
  - rewrite lookup_insert_eq, decide_True; [done|by left].
  - rewrite lookup_insert_ne, IH by done. apply decide_ext. rewrite elem_of_cons. naive_solver.
Qed.
Lemma only_of_eq l g m m' : only_of l g m → only_of l g m' → m = m'.
Proof. intros Hm Hm'. apply map_eq. intros k. by rewrite Hm, Hm'. Qed.
Lemma inserts_in_order (m : gmap Z string) : foldl (λ (m : gmap Z string) kv, <[kv.1 := kv.2]> m) ∅ (in_order m) = m.
Proof.
  assert (∀ l : list (Z * string), NoDup l.*1 → ∀ k v, foldl (λ (m : gmap Z string) kv, <[kv.1 := kv.2]> m) ∅ l !! k = Some v ↔ (k, v) ∈ l) as Hl.
  { intros l. induction l as [|[j w] l IH] using rev_ind; intros Hnd k v; [cbn; set_solver|].
    rewrite fmap_app, NoDup_app in Hnd. destruct Hnd as (Hnd & Hj & _). rewrite foldl_app. cbn. specialize (IH Hnd).
    rewrite lookup_insert_Some, IH, elem_of_app, list_elem_of_singleton. split; [naive_solver|].
    intros [Hin|[= -> ->]]; [right|by left]. split; [|done]. intros ->. apply (Hj k); [|by left].
    apply list_elem_of_fmap. by exists (k, v). }
  apply map_eq. intros k. apply option_eq. intros v. rewrite Hl by apply NoDup_fst_in_order. apply elem_of_in_order.
Qed.
Lemma restored_spec c : foldl (λ s kv, AddRsrc kv.2 kv.1 s)
  (foldl (λ s k, AddInCommod k (at_default "" (in_recipes_ c) k) (at_default "" (out_commod_map_ c) k)
    (at_default "" (out_recipes_ c) k) s) new_recipe_context (set_in_order (in_commods_ c)))
  (in_order (rsrc_commod_map_ c)) = restored c.
Proof.
  rewrite rsrc_read_all. pose proof (commods_read_all c (set_in_order (in_commods_ c))) as [Hi Ho Hm Hir Hor Hr].
  unfold set_rsrc_map, restored. rewrite Hr, inserts_in_order, Hi, Ho. f_equal.
  - apply set_eq. intros k. by rewrite elem_of_list_to_set, elem_of_set_in_order.
  - eapply only_of_eq; [exact Hm|apply only_of_list].
  - eapply only_of_eq; [exact Hir|apply only_of_list].
  - eapply only_of_eq; [exact Hor|apply only_of_list].
Qed.

(** The tables of the rows. *)
Lemma table_rows_const {A} t t' (f : A → row) l :
  table_rows ((λ x, (t, f x)) <$> l) t' = if decide (t = t') then f <$> l else [].
Proof.
  unfold table_rows. induction l as [|x l IH]; [by destruct (decide _)|]. cbn [fmap list_fmap].
  rewrite filter_cons. cbn [fst]. destruct (decide (t = t')); cbn; by rewrite IH.
Qed.
Lemma context_tables c :
  table_rows (context_rows c) inout = inout_row c <$> set_in_order (in_commods_ c) ∧
  table_rows (context_rows c) resmap = res_row <$> in_order (rsrc_commod_map_ c).
Proof.
  unfold context_rows. split; rewrite table_rows_app, !table_rows_const; cbn; [by rewrite app_nil_r|done].
Qed.
Lemma query_all b d t : answers b d → table_rows d t ≠ [] → ∃ qr, Query b t None = Ret qr ∧ rows_of qr = table_rows d t.
Proof.
  intros Ha Ht. destruct (an_rows b d Ha t None Ht) as (qr & Hq & Hr). exists qr. by rewrite Hr, <-matching_nil.
Qed.
Lemma val_at {T S} (cast : dval F → outcome T) qr f i r v x (s : S) :
  rows_of qr !! i = Some r → field_of f r = Some v → cast v = Ret x → lift (GetVal cast qr f i) s = (Ret x, s).
Proof. intros Hr Hf Hx. by rewrite (GetVal_field cast qr f i r v Hr Hf), Hx. Qed.

Lemma InitFrom_restores b c : answers b (context_rows c) → in_commods_ c ≠ ∅ → InitFrom b new_recipe_context = (Ret tt, restored c).
Proof.
  intros Ha Hne. destruct (context_tables c) as [T1 T2]. unfold InitFrom.
  destruct (query_all b _ inout Ha) as (qr & Hq & Hrows).
  { rewrite T1. intros Hnil%fmap_nil_inv. apply Hne, set_eq. intros k. rewrite <-elem_of_set_in_order, Hnil. set_solver. }
  rewrite Hq, (bind_ret (lift (Ret qr)) _ _ qr _ eq_refl), T1 in *.
  erewrite bind_ret; [|apply (for_rows_run _ (λ k, AddInCommod k (at_default "" (in_recipes_ c) k)
    (at_default "" (out_commod_map_ c) k) (at_default "" (out_recipes_ c) k)) (inout_row c) qr _ _ Hrows)].
  2: { intros i k s Hr. unfold str_at.
       do 4 (erewrite bind_ret; [|by eapply val_at; [exact Hr|reflexivity|reflexivity]]). done. }
  destruct (decide (in_order (rsrc_commod_map_ c) = [])) as [Hnil|Hsome].
  - destruct (an_none b _ Ha resmap None) as (x & Hx & Hc); [by rewrite T2, Hnil|].
    rewrite Hx. cbn [try_query]. rewrite Hc. rewrite <-restored_spec, Hnil. done.
  - destruct (query_all b _ resmap Ha) as (qr2 & Hq2 & Hrows2); [rewrite T2; by intros ?%fmap_nil_inv|].
    rewrite Hq2. cbn [try_query]. rewrite (bind_ret (mret (Some qr2)) _ _ _ _ eq_refl), T2 in *.
    rewrite (for_rows_run _ (λ kv, AddRsrc kv.2 kv.1) res_row qr2 _ _ Hrows2); [by rewrite restored_spec|].
    intros i kv s Hr. unfold str_at, int_at. do 2 (erewrite bind_ret; [|by eapply val_at; [exact Hr|reflexivity|reflexivity]]). done.
Qed.
Lemma InitFrom_empty b c : answers b (context_rows c) → in_commods_ c = ∅ →
  ∃ e, InitFrom b new_recipe_context = (Throw e, new_recipe_context).
Proof.
  intros Ha He. destruct (an_none b _ Ha inout None) as (x & Hx & _).
  { rewrite (proj1 (context_tables c)), He, set_in_order_empty. done. }
  exists x. unfold InitFrom. rewrite Hx. done.
Qed.

(** A context that [AddInCommod] built, each commodity that comes in being added once. *)
Record consistent (c : CRC) : Prop := {
  co_map : dom (out_commod_map_ c) = in_commods_ c;
  co_inrec : dom (in_recipes_ c) = in_commods_ c;
  co_outrec : dom (out_recipes_ c) = in_commods_ c;
  co_out : out_commods_ c = list_to_set (at_default "" (out_commod_map_ c) <$> set_in_order (in_commods_ c))
}.
Lemma only_of_dom m : only_of (set_in_order (dom m)) (at_default "" m) m.
Proof.
  intros k. case_decide as Hk; rewrite elem_of_set_in_order in Hk.
  - apply elem_of_dom in Hk as [x Hx]. unfold at_default. by rewrite Hx.
  - by apply not_elem_of_dom.
Qed.
Lemma consistent_restored c : consistent c → restored c = c.
Proof.
  intros [Hm Hi Hr Ho]. unfold restored. destruct c as [ic oc m i r rs]. cbn in *. f_equal; [done|..].
  - eapply only_of_eq; [apply only_of_list|rewrite <-Hm; apply only_of_dom].
  - eapply only_of_eq; [apply only_of_list|rewrite <-Hi; apply only_of_dom].
  - eapply only_of_eq; [apply only_of_list|rewrite <-Hr; apply only_of_dom].
Qed.

(** A context with a commodity is read back from its rows with the commodities that come
    in, what goes out for each with both recipes, and the commodities of all resources; it
    is read back as it was if each of its commodities was added once.  Reading an empty
    context back throws, since there is no table then. *)
Theorem recipe_context_restored b c : answers b (context_rows c) →
  (∃ c', Snapshot (c, []) = (Ret tt, (c', context_rows c)) ∧ reads_same c c') ∧
  (in_commods_ c ≠ ∅ → InitFrom b new_recipe_context = (Ret tt, restored c)) ∧
  (in_commods_ c = ∅ → ∃ e, InitFrom b new_recipe_context = (Throw e, new_recipe_context)) ∧
  (consistent c → restored c = c).
Proof.
  intros Ha. split_and!; [apply (Snapshot_spec c [])|by apply InitFrom_restores|by apply InitFrom_empty|by apply consistent_restored].
Qed.
Lemma AddInCommod_consistent ic ir oc orc c :
  consistent c → ic ∉ in_commods_ c → consistent (AddInCommod ic ir oc orc c).
Proof.
  intros [Hm Hi Hr Ho] Hic. split; cbn; rewrite ?dom_insert_L; [by f_equal..|]. rewrite Ho. apply set_eq. intros k.
  rewrite elem_of_union, elem_of_singleton, !elem_of_list_to_set, !list_elem_of_fmap. unfold at_default.
  split.
  - intros [->|(j & -> & Hj)].
    + exists ic. rewrite lookup_insert_eq, elem_of_set_in_order. set_solver.
    + rewrite elem_of_set_in_order in Hj. exists j. rewrite lookup_insert_ne, elem_of_set_in_order; set_solver.
  - intros (j & -> & Hj). rewrite elem_of_set_in_order, elem_of_union, elem_of_singleton in Hj.
    destruct (decide (ic = j)) as [->|Hne]; [left; by rewrite lookup_insert_eq|]. right. exists j.
    rewrite lookup_insert_ne, elem_of_set_in_order by done. set_solver.
Qed.
End db.

(** Fresh fuel comes in and spent fuel goes out; one resource is held. *)
Definition fuel_context : CRC := AddRsrc "fresh" 7 (AddInCommod "fresh" "uox" "spent" "waste" new_recipe_context).
Lemma recipe_context_restored_example :
  InitFrom (rows_backend (F:=xq) (context_rows fuel_context)) new_recipe_context = (Ret tt, fuel_context).
Proof.
  assert (uniform (context_rows (F:=xq) fuel_context)) as Hu.
  { intros t r r'. change (context_rows (F:=xq) fuel_context) with
      [("CommodityRecipeContext_inoutmap", inout_row (F:=xq) fuel_context "fresh"); ("CommodityRecipeContext_resmap", res_row (F:=xq) (7%Z, "fresh"))].
    set_solver. }
  destruct (recipe_context_restored _ fuel_context (rows_backend_answers _ Hu)) as (_ & Hrun & _ & Hco).
  rewrite Hrun by done. rewrite Hco; [done|]. split; reflexivity.
Qed.
