(* ===== verification/AgentTree.v ===== *)
(** * The agents of a simulation form a forest

    The invariant of the agents in a context, and the operations of agents that keep it. *)

From Stdlib Require Import QArith ZArith Lia.
From stdpp Require Import base list gmap strings sorting.
From S2P Require Import Prelude Respects Num Arithmetic AgentSpec CompMath Resource Material ExchangeGraph Portfolio Translator ExchangeManager Sim SimRun.

(** ** Operations that leave the agents alone

    All but the lifetime of agents that have not entered yet. *)
Definition frame {F P} (s : Sim F P) : gmap ptr Agent * gset ptr * ptr * Z * gmap Z ptr :=
  (set_lifetime 0 <$> agents s, agent_list_ (cx_ s), next_agent s, next_id_ s, tickers_ (ti_ s)).
Definition akeep {F P} (s s' : Sim F P) : Prop := frame s' = frame s.
#[export] Instance akeep_preorder {F P} : PreOrder (@akeep F P).
Proof. split; [done|]. unfold akeep. intros s1 s2 s3 ? ?. congruence. Qed.

Section keep.
Context {F P : Type} `{Num F} `{Limits F} `{Pyne F} `{FloatDistance F}.
Local Abbreviation AR := (respects (@akeep F P) any_exn).
Implicit Types s : Sim F P.

Lemma on_sworld_keep {A} (c : M (World F) A) : AR (on_sworld c).
Proof. by apply zoom_any. Qed.
Lemma on_sx_keep {A} (c : M (ExchangeState F) A) : AR (on_sx c).
Proof. by apply zoom_any. Qed.
Lemma modify_ti_keep f : (∀ t, tickers_ (f t) = tickers_ t) → AR (modify_ti f).
Proof. intros Hf. apply respects_modify. intros s. unfold akeep, frame. cbn. by rewrite Hf. Qed.
#[local] Hint Extern 1 (AR (modify_ti _)) => (apply modify_ti_keep; done) : respects.
Lemma agent_at_keep p : AR (agent_at p).
Proof. unfold agent_at. respect. Qed.
Lemma record_keep t v : AR (record t v).
Proof. apply on_sworld_keep. Qed.
Lemma now_keep : AR now.
Proof. unfold now. respect. Qed.
#[local] Hint Resolve on_sworld_keep on_sx_keep agent_at_keep record_keep now_keep : respects.
Lemma modify_cx_keep f : (∀ c, agent_list_ (f c) = agent_list_ c) → AR (modify_cx f).
Proof. intros Hf. apply respects_modify. intros s. unfold akeep, frame. cbn. by rewrite Hf. Qed.
#[local] Hint Extern 1 (AR (modify_cx _)) => (apply modify_cx_keep; done) : respects.

Lemma alter_frame {A B} (h : A → B) (f : A → A) (m : gmap ptr A) p a :
  m !! p = Some a → h (f a) = h a → h <$> <[p := f a]> m = h <$> m.
Proof.
  intros Hp Hh. rewrite fmap_insert, Hh. apply insert_id. by rewrite lookup_fmap, Hp.
Qed.
Lemma modify_agent_keep p f : (∀ a, set_lifetime 0 (f a) = set_lifetime 0 a) → AR (modify_agent p f).
Proof.
  intros Hf s. unfold modify_agent, agent_at, mbind, M_bind, m_bind. cbn.
  destruct (agents s !! p) as [b|] eqn:Hp; cbn; (split; [|intros ? _; exact I]); [|reflexivity].
  unfold akeep, frame. cbn. by rewrite (alter_frame (set_lifetime 0) f _ p b Hp).
Qed.
#[local] Hint Extern 1 (AR (modify_agent _ _)) => (apply modify_agent_keep; done) : respects.
Lemma set_agent_lifetime_keep p n : AR (set_agent_lifetime p n).
Proof. unfold set_agent_lifetime. respect. Qed.
#[local] Hint Resolve set_agent_lifetime_keep : respects.

Lemma SchedDecom_keep m t : AR (SchedDecom m t).
Proof. unfold SchedDecom, timer_SchedDecom. respect. Qed.
#[local] Hint Resolve SchedDecom_keep : respects.
Lemma run_calls_keep f : AR (run_calls f).
Proof.
  unfold run_calls. respect.
  unfold run_api, SchedBuild, timer_SchedBuild, RegisterTrader, UnregisterTrader. respect.
Qed.
#[local] Hint Resolve run_calls_keep : respects.

Context (arch : Archetypes F P).
Lemma RegisterAgent_keep p : AR (RegisterAgent p).
Proof. unfold RegisterAgent. respect. Qed.
Lemma UnregisterAgent_keep p : AR (UnregisterAgent p).
Proof. unfold UnregisterAgent. respect. Qed.
Lemma AddToTable_keep p : AR (AddToTable p).
Proof. unfold AddToTable. respect. Qed.
Lemma Tick_keep p : AR (Tick arch p).
Proof. unfold Tick. respect. Qed.
Lemma Tock_keep p : AR (Tock arch p).
Proof. unfold Tock, Institution_Tock, retire_child, exit_time. respect. Qed.
Lemma db_datum_keep p b t v : AR (db_datum p b t v).
Proof. unfold db_datum. respect. Qed.
#[local] Hint Resolve AddToTable_keep Tick_keep Tock_keep db_datum_keep : respects.
Lemma Snapshot_keep : AR (Snapshot arch).
Proof. unfold Snapshot, SnapAgent, agent_Snapshot, snap_inventory, snap_next_id. respect. Qed.
Lemma DoTick_keep : AR (DoTick arch).
Proof. unfold DoTick. respect. Qed.
Lemma DoTock_keep : AR (DoTock arch).
Proof. unfold DoTock, RecordInventories, record_inventories, RecordInventory. respect. Qed.
Lemma DoResEx_keep debug req_id solve : AR (DoResEx arch debug req_id solve).
Proof. unfold DoResEx, exchange. respect. Qed.
End keep.

(** ** The forest *)

(** Parents and children agree and parents are older; the list of the context has
    exactly the living agents, their ids are distinct, and the listeners of the timer
    are alive. *)
Record forest_of (m : gmap ptr Agent) (al : gset ptr) (na : ptr) (ni : Z) (ls : gmap Z ptr) : Prop := {
  fo_parent : ∀ p a q, m !! p = Some a → parent_ a = Some q →
    (q < p)%Z ∧ ∃ b, m !! q = Some b ∧ p ∈ children_ b ∧ parent_id_ a = a_id b;
  fo_root : ∀ p a, m !! p = Some a → parent_ a = None → parent_id_ a = (-1)%Z;
  fo_child : ∀ q b c, m !! q = Some b → c ∈ children_ b → ∃ a, m !! c = Some a ∧ parent_ a = Some q;
  fo_list : al = dom m;
  fo_fresh : ∀ p a, m !! p = Some a → (p < na ∧ a_id a < ni)%Z;
  fo_ids : ∀ p p' a a', m !! p = Some a → m !! p' = Some a' → a_id a = a_id a' → p = p';
  fo_tickers : ∀ i p, ls !! i = Some p → ∃ a, m !! p = Some a ∧ a_id a = i ∧ a_class a ≠ AOther
}.
Definition forest {F P} (s : Sim F P) : Prop :=
  forest_of (agents s) (agent_list_ (cx_ s)) (next_agent s) (next_id_ s) (tickers_ (ti_ s)).

Section forest.
Implicit Types (m : gmap ptr Agent) (a b : Agent).

(** Replacing agents by ones with the same family. *)
Definition same_family a b : Prop :=
  a_class a = a_class b ∧ a_id a = a_id b ∧ parent_ a = parent_ b ∧ parent_id_ a = parent_id_ b ∧ children_ a = children_ b.

Lemma forest_same m m' al na ni ls :
  (∀ p, option_Forall2 same_family (m !! p) (m' !! p)) → forest_of m al na ni ls → forest_of m' al na ni ls.
Proof.
  intros Hm [Hp Hr Hc Hl Hf Hi Ht].
  assert (∀ p a', m' !! p = Some a' → ∃ a, m !! p = Some a ∧ same_family a a') as Hback.
  { intros p a' Ha. specialize (Hm p). rewrite Ha in Hm. inversion Hm; eauto. }
  assert (∀ p a, m !! p = Some a → ∃ a', m' !! p = Some a' ∧ same_family a a') as Hforw.
  { intros p a Ha. specialize (Hm p). rewrite Ha in Hm. inversion Hm; eauto. }
  split.
  - intros p a' q (a & Ha & ? & ? & Epar & Epid & ?)%Hback Hq. rewrite <-Epar in Hq.
    destruct (Hp p a q Ha Hq) as (Hlt & b & Hb & Hin & Hid). split; [done|].
    destruct (Hforw q b Hb) as (b' & Hb' & ? & ? & ? & ? & Ech). exists b'. rewrite <-Ech. split_and!; congruence.
  - intros p a' (a & Ha & ? & ? & Epar & Epid & ?)%Hback Hq. rewrite <-Epid. eapply Hr; [done|congruence].
  - intros q b' c (b & Hb & ? & ? & ? & ? & Ech)%Hback Hin. rewrite <-Ech in Hin.
    destruct (Hc q b c Hb Hin) as (a & Ha & Hpar). destruct (Hforw c a Ha) as (a' & Ha' & ? & ? & Epar & ?).
    exists a'. split; [done|congruence].
  - rewrite Hl. apply set_eq. intros p. rewrite !elem_of_dom. specialize (Hm p). inversion Hm; split; intros; eauto; naive_solver.
  - intros p a' (a & Ha & ? & Eid & ?)%Hback. destruct (Hf p a Ha). lia.
  - intros p p' a1 a2 (b1 & Hb1 & ? & E1 & ?)%Hback (b2 & Hb2 & ? & E2 & ?)%Hback Heq.
    eapply Hi; [exact Hb1|exact Hb2|congruence].
  - intros i p (a & Ha & Hid & Hcl)%Ht. destruct (Hforw p a Ha) as (a' & Ha' & ? & ? & ?). exists a'.
    split_and!; [done|congruence..].
Qed.

Lemma same_family_refl a : same_family a a.
Proof. by repeat split. Qed.
#[local] Hint Resolve same_family_refl : core.
Lemma forest_update m al na ni ls p a a' :
  m !! p = Some a → same_family a a' → forest_of m al na ni ls → forest_of (<[p := a']> m) al na ni ls.
Proof.
  intros Hp Hs. apply forest_same. intros k. rewrite lookup_insert. destruct (decide (p = k)) as [<-|].
  - rewrite Hp. by constructor.
  - destruct (m !! k); by constructor.
Qed.

Lemma forest_new m al na ni ls a :
  a_id a = ni → parent_ a = None → parent_id_ a = (-1)%Z → children_ a = ∅ →
  forest_of m al na ni ls → forest_of (<[na := a]> m) ({[na]} ∪ al) (na + 1) (ni + 1) ls.
Proof.
  intros Hid Hpar Hpid Hch [Hp Hr Hc Hl Hf Hi Ht].
  assert (m !! na = None) as Hna. { destruct (m !! na) as [b|] eqn:E; [|done]. destruct (Hf na b E). lia. }
  assert (∀ p b, m !! p = Some b → p ≠ na) as Hne by (intros p b Hb ->; congruence).
  split.
  - intros p b q [[<- <-]|[Hpn Hb]]%lookup_insert_Some Hq; [congruence|].
    destruct (Hp p b q Hb Hq) as (? & c & Hcq & ?). split; [done|]. exists c.
    rewrite lookup_insert_ne by (by apply not_eq_sym, (Hne q c)). done.
  - intros p b [[<- <-]|[Hpn Hb]]%lookup_insert_Some Hq; [done|]. by eapply Hr.
  - intros q b c [[<- <-]|[Hpn Hb]]%lookup_insert_Some Hin; [set_solver|].
    destruct (Hc q b c Hb Hin) as (d & Hd & ?). exists d. by rewrite lookup_insert_ne by (by apply not_eq_sym, (Hne c d)).
  - by rewrite dom_insert_L, Hl.
  - intros p b [[<- <-]|[Hpn Hb]]%lookup_insert_Some; [lia|]. destruct (Hf p b Hb). lia.
  - intros p p' b b' [[<- <-]|[Hpn Hb]]%lookup_insert_Some [[<- <-]|[Hpn' Hb']]%lookup_insert_Some Heq; try done.
    + destruct (Hf p' b' Hb'). lia.
    + destruct (Hf p b Hb). lia.
    + by eapply Hi.
  - intros i p (b & Hb & ?)%Ht. exists b. by rewrite lookup_insert_ne by (by apply not_eq_sym, (Hne p b)).
Qed.

(** An agent without family becomes the child of an older one. *)
Lemma forest_connect m al na ni ls p a q b :
  m !! p = Some a → parent_ a = None → children_ a = ∅ → m !! q = Some b → (q < p)%Z →
  forest_of m al na ni ls →
  forest_of (<[q := set_children ({[p]} ∪ children_ b) b]> (<[p := set_parent (Some q) (a_id b) a]> m)) al na ni ls.
Proof.
  intros Hpa Hpar Hch Hqb Hlt [Hp Hr Hc Hl Hf Hi Ht].
  set (a' := set_parent (Some q) (a_id b) a). set (b' := set_children ({[p]} ∪ children_ b) b).
  set (m' := <[q := b']> (<[p := a']> m)).
  assert (∀ k c, m' !! k = Some c → (k = q ∧ c = b') ∨ (k = p ∧ c = a') ∨ (k ≠ q ∧ k ≠ p ∧ m !! k = Some c)) as Hcase.
  { intros k c [[<- <-]|[? [[<- <-]|[? ?]]%lookup_insert_Some]]%lookup_insert_Some; naive_solver. }
  assert (m' !! q = Some b') as Hq' by apply lookup_insert_eq.
  assert (m' !! p = Some a') as Hp' by (unfold m'; rewrite lookup_insert_ne by lia; apply lookup_insert_eq).
  assert (∀ k c, k ≠ q → k ≠ p → m !! k = Some c → m' !! k = Some c) as Hoth.
  { intros k c ? ? ?. unfold m'. by rewrite !lookup_insert_ne by done. }
  assert (∀ k c, m !! k = Some c → ∃ c', m' !! k = Some c' ∧ a_id c' = a_id c ∧ a_class c' = a_class c) as Hkeep.
  { intros k c Hk. destruct (decide (k = q)) as [->|]; [exists b'; split; [done|]; naive_solver|].
    destruct (decide (k = p)) as [->|]; [exists a'; split; [done|]; naive_solver|]. exists c. auto. }
  assert (∀ k c, m' !! k = Some c → ∃ c0, m !! k = Some c0 ∧ a_id c = a_id c0) as Hback.
  { intros k c [[-> ->]|[[-> ->]|(? & ? & ?)]]%Hcase; eauto. }
  split.
  - intros k c r Hk Hr'. destruct (Hcase k c Hk) as [[-> ->]|[[-> ->]|(Hkq & Hkp & Hm)]].
    + destruct (Hp q b r Hqb Hr') as (? & d & Hd & ? & ?). split; [lia|]. exists d. split_and!; [apply Hoth; [lia..|done]|done..].
    + injection Hr' as <-. split; [done|]. exists b'. cbn. split_and!; [done|set_solver|done].
    + destruct (Hp k c r Hm Hr') as (? & d & Hd & ? & ?). split; [done|].
      destruct (decide (r = q)) as [->|]; [exists b'; cbn; split_and!; [done|set_solver|congruence]|].
      destruct (decide (r = p)) as [->|]; [set_solver|]. exists d. auto.
  - intros k c Hk Hn. destruct (Hcase k c Hk) as [[-> ->]|[[-> ->]|(? & ? & Hm)]]; [by eapply (Hr q b)|done|by eapply Hr].
  - intros k c d Hk Hin. destruct (Hcase k c Hk) as [[-> ->]|[[-> ->]|(Hkq & Hkp & Hm)]].
    + apply elem_of_union in Hin as [->%elem_of_singleton|Hin]; [by exists a'|].
      destruct (Hc q b d Hqb Hin) as (e & He & Hepar). exists e. split; [|done]. destruct (Hp d e q He Hepar) as [? _].
      apply Hoth; [lia| |done]. intros ->. congruence.
    + cbn in Hin. set_solver.
    + destruct (Hc k c d Hm Hin) as (e & He & Hepar). destruct (decide (d = q)) as [->|].
      { exists b'. split; [done|]. cbn. congruence. }
      exists e. split; [|done]. apply Hoth; [done| |done]. intros ->. congruence.
  - unfold m'. rewrite !dom_insert_L, Hl. apply elem_of_dom_2 in Hpa, Hqb. set_solver.
  - intros k c (c0 & Hm & ->)%Hback. by apply Hf.
  - intros k k' c c' (c0 & Hm & E0)%Hback (c1 & Hm' & E1)%Hback Heq. eapply Hi; [exact Hm|exact Hm'|congruence].
  - intros i k (c & Hm & ? & ?)%Ht. destruct (Hkeep k c Hm) as (c' & ? & ? & ?). exists c'. split_and!; congruence.
Qed.

(** An agent goes: its parent forgets it, its children become roots. *)
Definition forget (p : ptr) a (k : ptr) b : Agent :=
  let b := if decide (parent_ a = Some k) then set_children (children_ b ∖ {[p]}) b else b in
  if decide (k ∈ children_ a) then set_parent None (-1) b else b.
Lemma forget_id p a k b : a_id (forget p a k b) = a_id b ∧ a_class (forget p a k b) = a_class b.
Proof. unfold forget. by repeat case_decide. Qed.

Lemma forest_delete m m' al na ni ls p a :
  m !! p = Some a → m' !! p = None → (∀ k, k ≠ p → m' !! k = forget p a k <$> m !! k) →
  (∀ i, ls !! i ≠ Some p) → forest_of m al na ni ls → forest_of m' (al ∖ {[p]}) na ni ls.
Proof.
  intros Hpa Hgone Hm' Hls [Hp Hr Hc Hl Hf Hi Ht].
  assert (∀ k b', m' !! k = Some b' → k ≠ p ∧ ∃ b, m !! k = Some b ∧ b' = forget p a k b) as Hback.
  { intros k b' Hk. assert (k ≠ p) as Hne by congruence. split; [done|]. rewrite Hm' in Hk by done.
    apply fmap_Some in Hk as (b & ? & ->). eauto. }
  assert (∀ k b, k ≠ p → m !! k = Some b → m' !! k = Some (forget p a k b)) as Hforw.
  { intros k b Hk Hb. rewrite Hm' by done. by rewrite Hb. }
  assert (∀ k b, k ∉ children_ a → parent_ (forget p a k b) = parent_ b ∧ parent_id_ (forget p a k b) = parent_id_ b) as Hpar.
  { intros k b Hn. unfold forget. rewrite (decide_False (P := k ∈ children_ a)) by done. by case_decide. }
  assert (∀ k b, k ∈ children_ a → parent_ (forget p a k b) = None ∧ parent_id_ (forget p a k b) = (-1)%Z) as Hroot.
  { intros k b Hn. unfold forget. by rewrite (decide_True (P := k ∈ children_ a)) by done. }
  assert (∀ k b, children_ (forget p a k b) = if decide (parent_ a = Some k) then children_ b ∖ {[p]} else children_ b) as Hch.
  { intros k b. unfold forget. by repeat case_decide. }
  split.
  - intros k b' q (Hk & b & Hb & ->)%Hback Hq. destruct (decide (k ∈ children_ a)) as [Hin|Hn].
    { rewrite (proj1 (Hroot k b Hin)) in Hq. done. }
    destruct (Hpar k b Hn) as [Epar Epid]. rewrite Epar in Hq. rewrite Epid.
    destruct (Hp k b q Hb Hq) as (Hlt & c & Hcq & Hin & Hid). split; [done|].
    assert (q ≠ p) as Hqp. { intros ->. assert (c = a) as -> by congruence. done. }
    exists (forget p a q c). rewrite Hch, (proj1 (forget_id p a q c)). split_and!; [by apply Hforw| |done].
    case_decide; set_solver.
  - intros k b' (Hk & b & Hb & ->)%Hback Hq. destruct (decide (k ∈ children_ a)) as [Hin|Hn]; [by apply Hroot|].
    destruct (Hpar k b Hn) as [Epar Epid]. rewrite Epar in Hq. rewrite Epid. by eapply Hr.
  - intros q b' c (Hq & b & Hb & ->)%Hback Hin. rewrite Hch in Hin.
    assert (c ∈ children_ b ∧ c ≠ p) as [Hcb Hcp].
    { destruct (decide (parent_ a = Some q)) as [|Hn]; [set_solver|]. split; [done|]. intros ->.
      destruct (Hc q b p Hb Hin) as (a0 & Ha0 & Hpar0). congruence. }
    destruct (Hc q b c Hb Hcb) as (d & Hd & Hdpar). exists (forget p a c d). split; [by apply Hforw|].
    assert (c ∉ children_ a) as Hca. { intros Hca. destruct (Hc p a c Hpa Hca) as (d' & Hd' & ?). congruence. }
    by rewrite (proj1 (Hpar c d Hca)).
  - rewrite Hl. apply set_eq. intros k. rewrite elem_of_difference, elem_of_singleton, !elem_of_dom. split.
    + intros [[b Hb] Hk]. rewrite (Hforw k b Hk Hb). eauto.
    + intros [b' (Hk & b & Hb & _)%Hback]. eauto.
  - intros k b' (Hk & b & Hb & ->)%Hback. rewrite (proj1 (forget_id p a k b)). by apply Hf.
  - intros k k' b b' (Hk & b0 & Hb0 & ->)%Hback (Hk' & b1 & Hb1 & ->)%Hback.
    rewrite (proj1 (forget_id p a k b0)), (proj1 (forget_id p a k' b1)). by apply Hi.
  - intros i k Hik. destruct (Ht i k Hik) as (b & Hb & Hid & Hcl). assert (k ≠ p) as Hk by (intros ->; by eapply Hls).
    exists (forget p a k b). destruct (forget_id p a k b) as [-> ->]. split_and!; [by apply Hforw|done..].
Qed.
End forest.
