(* ===== verification/AgentTheory.v ===== *)
(** * Operations on the forest of agents

    Building, entering, leaving and deleting agents keep the forest of [AgentTree]. *)

From Stdlib Require Import QArith ZArith Lia.
From stdpp Require Import base list gmap strings sorting.
From S2P Require Import Prelude Respects Num Arithmetic AgentSpec CompMath Resource Material ExchangeGraph Portfolio Translator ExchangeManager Sim SimRun AgentTree.

(** An invariant as a relation. *)
Definition keeps_inv {S} (I : S → Prop) (s s' : S) : Prop := I s → I s'.
#[export] Instance keeps_inv_preorder {S} (I : S → Prop) : PreOrder (keeps_inv I).
Proof. split; unfold keeps_inv; [by intros s|by auto]. Qed.

Section ops.
Context {F P : Type} `{Num F} `{Limits F} `{Pyne F} `{FloatDistance F}.
Implicit Types (s : Sim F P) (p q : ptr) (a : Agent).

Lemma forest_akeep s s' : akeep s s' → forest s → forest s'.
Proof.
  intros Hk Hf. unfold akeep, frame in Hk. injection Hk as Hag Hal Hna Hni Htk. unfold forest.
  rewrite Hal, Hna, Hni, Htk. eapply forest_same; [|exact Hf]. intros p.
  apply (f_equal (lookup p)) in Hag. rewrite !lookup_fmap in Hag.
  destruct (agents s !! p) as [a|], (agents s' !! p) as [b|]; try done; constructor.
  injection Hag as Hag. unfold same_family. by destruct a, b; simplify_eq.
Qed.
Lemma akeep_forest {A} (c : M (Sim F P) A) :
  respects akeep any_exn c → respects (keeps_inv forest) any_exn c.
Proof. apply respects_mono; [|done]. intros s s' ? ?. by eapply forest_akeep. Qed.

(** ** New agents *)
Definition newborn s p : Prop :=
  ∃ a, agents s !! p = Some a ∧ parent_ a = None ∧ children_ a = ∅ ∧
    ∀ q b, agents s !! q = Some b → (q ≤ p)%Z.

Lemma modify_agent_at p f s a :
  agents s !! p = Some a → modify_agent p f s = (Ret tt, set_agents (<[p := f a]> (agents s)) s).
Proof. intros Hp. unfold modify_agent, agent_at, mbind, M_bind, m_bind. cbn. by rewrite Hp. Qed.
Lemma agent_at_Some p s a : agents s !! p = Some a → agent_at p s = (Ret a, s).
Proof. intros Hp. unfold agent_at, mbind, M_bind, m_bind. cbn. by rewrite Hp. Qed.
Lemma agent_at_None p s : agents s !! p = None → agent_at p s = (Throw Undefined, s).
Proof. intros Hp. unfold agent_at, mbind, M_bind, m_bind. cbn. by rewrite Hp. Qed.

Definition blank_agent c (id : Z) : Agent := mkAgent c id (class_kind c) "" "UNSPECIFIED" (-1) None (-1) (-1) ∅.
Lemma new_agent_spec c s :
  forest s → ∃ s', new_agent c s = (Ret (next_agent s), s') ∧ forest s' ∧ newborn s' (next_agent s) ∧
    (∀ q, q ≠ next_agent s → agents s' !! q = agents s !! q).
Proof.
  intros Hf. set (p := next_agent s).
  exists (set_cx (set_agent_list ({[p]} ∪ agent_list_ (cx_ s)) (cx_ s))
    (set_agents (<[p := blank_agent c (next_id_ s)]> (agents s)) (set_next_id (next_id_ s + 1) (set_next_agent (p + 1) s)))).
  split_and!.
  - reflexivity.
  - by apply (forest_new _ _ _ _ _ (blank_agent c (next_id_ s))).
  - exists (blank_agent c (next_id_ s)). cbn [agents set_cx set_agents]. split_and!; [apply lookup_insert_eq|done|done|].
    intros q b [[<- _]|[_ Hq]]%lookup_insert_Some; [done|]. destruct (fo_fresh _ _ _ _ _ Hf q b Hq). unfold p. lia.
  - intros q Hq. by apply lookup_insert_ne.
Qed.

Lemma newborn_update s p f :
  newborn s p → (∀ a, same_family a (f a)) → forest s →
  ∃ s', modify_agent p f s = (Ret tt, s') ∧ newborn s' p ∧ forest s' ∧ (∀ q, q ≠ p → agents s' !! q = agents s !! q).
Proof.
  intros (a & Hp & Hpar & Hch & Hmax) Hfam Hf. exists (set_agents (<[p := f a]> (agents s)) s).
  destruct (Hfam a) as (? & ? & Epar & ? & Ech). split_and!.
  - by apply modify_agent_at.
  - exists (f a). cbn [agents set_agents]. split_and!; [apply lookup_insert_eq|congruence|congruence|].
    intros q b [[<- _]|[_ Hq]]%lookup_insert_Some; [done|by eapply Hmax].
  - by eapply forest_update.
  - intros q Hq. by apply lookup_insert_ne.
Qed.

Context (arch : Archetypes F P).
Lemma CloneAgent_spec m s a :
  forest s → agents s !! m = Some a →
  ∃ c s', CloneAgent arch m s = (Ret c, s') ∧ forest s' ∧ newborn s' c.
Proof.
  intros Hf Hm. destruct (new_agent_spec (a_class a) s Hf) as (s1 & Hnew & Hf1 & Hb1 & Hoth).
  set (c := next_agent s) in *.
  assert (m ≠ c) as Hmc. { destruct (fo_fresh _ _ _ _ _ Hf m a Hm) as [? _]. unfold c. lia. }
  assert (agents s1 !! m = Some a) as Hm1 by (by rewrite Hoth).
  destruct (newborn_update s1 c (λ b, mkAgent (a_class b) (a_id b) (a_kind a) (prototype_ a) (spec_ a) (lifetime_ a)
    (parent_ b) (parent_id_ b) (enter_time_ b) (children_ b)) Hb1 ltac:(by repeat split) Hf1)
    as (s2 & Hmod & Hb2 & Hf2 & _).
  exists c, match privs s2 !! m with Some x => set_privs (<[c := init_from arch x]> (privs s2)) s2 | None => s2 end.
  split_and!.
  - unfold CloneAgent. rewrite (bind_ret _ _ _ _ _ (agent_at_Some m s a Hm)), (bind_ret _ _ _ _ _ Hnew).
    unfold InitFrom. unfold mbind, M_bind, m_bind. rewrite (agent_at_Some m s1 a Hm1), Hmod. reflexivity.
  - destruct (privs s2 !! m); [|done]. exact Hf2.
  - destruct (privs s2 !! m); [|done]. exact Hb2.
Qed.

Lemma CreateAgent_spec name s :
  forest s →
  (∃ e s', CreateAgent arch None name s = (Throw e, s') ∧ forest s') ∨
  (∃ c s', CreateAgent arch None name s = (Ret c, s') ∧ forest s' ∧ newborn s' c).
Proof.
  intros Hf. unfold CreateAgent. rewrite (bind_ret get _ _ _ _ eq_refl).
  destruct (protos_ (cx_ s) !! name) as [m|]; [|left; by exists KeyError, s].
  rewrite (bind_ret (from_option_or KeyError (Some m)) _ _ _ _ eq_refl).
  destruct (agents s !! m) as [a|] eqn:Hm.
  - destruct (CloneAgent_spec m s a Hf Hm) as (c & s' & Hc & Hf' & Hb). right. exists c, s'.
    rewrite (bind_ret _ _ _ _ _ Hc). destruct Hb as (b & Hb & ?). rewrite (bind_ret _ _ _ _ _ (agent_at_Some c s' b Hb)).
    split_and!; [done|done|]. by exists b.
  - left. exists Undefined, s. split; [|done]. apply bind_throw. unfold CloneAgent.
    apply bind_throw. by apply agent_at_None.
Qed.

(** ** Entering *)
Local Abbreviation IR := (respects (keeps_inv (@forest F P)) any_exn).

Lemma Connect_spec p parent s :
  forest s → newborn s p →
  forest (Connect p parent s).2 ∧ ∀ u, (Connect p parent s).1 = Ret u → is_Some (agents (Connect p parent s).2 !! p).
Proof.
  intros Hf (a & Hp & Hpar & Hch & Hmax). unfold Connect.
  destruct (bool_decide_reflect (parent = Some p)) as [|Hne]; [done|].
  destruct parent as [q|]; [|split; [done|by exists a]].
  rewrite (bind_ret (require (negb false) KeyError) _ _ _ _ eq_refl).
  destruct (agents s !! q) as [b|] eqn:Hq.
  - rewrite (bind_ret _ _ _ _ _ (agent_at_Some q s b Hq)), (bind_ret _ _ _ _ _ (modify_agent_at p _ s a Hp)).
    assert (q < p)%Z as Hlt. { assert (q ≠ p) by congruence. pose proof (Hmax q b Hq). lia. }
    rewrite (modify_agent_at q _ _ b) by (cbn; by rewrite lookup_insert_ne by lia). cbn [fst snd]. split.
    + by apply forest_connect.
    + intros _ _. cbn. rewrite lookup_insert_ne by lia. rewrite lookup_insert_eq. by eexists.
  - rewrite (bind_throw _ _ _ _ _ (agent_at_None q s Hq)). done.
Qed.

Lemma RegisterTimeListener_forest p s a :
  agents s !! p = Some a → a_class a ≠ AOther → forest s → forest (RegisterTimeListener p s).2.
Proof.
  intros Hp Hcl [? ? ? ? ? ? Ht]. unfold RegisterTimeListener. rewrite (bind_ret _ _ _ _ _ (agent_at_Some p s a Hp)).
  split; try done. cbn. intros i k [[<- <-]|[_ Hik]]%lookup_insert_Some; [by exists a|by apply Ht].
Qed.

Lemma EnterNotify_forest p : IR (EnterNotify arch p).
Proof.
  assert (IR (run_calls (on_enter arch p))) as Hcalls by apply akeep_forest, run_calls_keep.
  unfold EnterNotify. intros s. split; [|intros ? _; exact I]. intros Hf.
  destruct (agents s !! p) as [a|] eqn:Hp; [|by rewrite (bind_throw _ _ _ _ _ (agent_at_None p s Hp))].
  rewrite (bind_ret _ _ _ _ _ (agent_at_Some p s a Hp)).
  assert (∀ c : M (Sim F P) unit, forest (c s).2 → forest ((c;; run_calls (on_enter arch p)) s).2) as Hseq.
  { intros c Hc. unfold mbind, M_bind, m_bind. destruct (c s) as [[u|e] s1]; [|done]. by apply (Hcalls s1). }
  destruct (a_class a) eqn:Hcl; apply Hseq.
  - unfold RegisterAgent. set (s1 := set_cx (set_counts (count_by 1 (prototype_ a) (n_prototypes_ (cx_ s)))
      (count_by 1 (spec_ a) (n_specs_ (cx_ s))) (cx_ s)) s).
    set (s2 := set_cx (set_sim_traders ({[p]} ∪ sim_traders (cx_ s1)) (cx_ s1)) s1).
    assert (RegisterAgent p s = (Ret tt, s1)) as E1.
    { unfold RegisterAgent. by rewrite (bind_ret _ _ _ _ _ (agent_at_Some p s a Hp)). }
    rewrite (bind_ret _ _ _ _ _ E1).
    change ((RegisterTrader p;; RegisterTimeListener p) s1) with (RegisterTimeListener p s2).
    apply (RegisterTimeListener_forest p s2 a); [exact Hp|congruence|exact Hf].
  - apply (RegisterTimeListener_forest p s a); [done|congruence|done].
  - apply (RegisterTimeListener_forest p s a); [done|congruence|done].
  - by apply (akeep_forest _ (RegisterAgent_keep p)).
Qed.

Lemma Build_forest p parent s : forest s → newborn s p → forest (Build arch p parent s).2.
Proof.
  intros Hf Hb. destruct (Connect_spec p parent s Hf Hb) as [Hf1 Halive]. unfold Build, mbind, M_bind, m_bind.
  destruct (Connect p parent s) as [[[]|e] s1]; [|done]. cbn [fst snd] in *.
  destruct (Halive tt eq_refl) as [a Ha]. cbn. rewrite (modify_agent_at p _ s1 a Ha).
  set (s2 := set_agents _ s1).
  assert (forest s2) as Hf2 by (by apply (forest_update _ _ _ _ _ p a)).
  pose proof (proj1 (EnterNotify_forest p s2) Hf2) as Hf3.
  destruct (EnterNotify arch p s2) as [[u|e] s3]; [|done]. by apply (akeep_forest _ (AddToTable_keep p)).
Qed.

(** ** Leaving *)
Lemma detach_spec (l : list ptr) s :
  NoDup l → (∀ c, c ∈ l → is_Some (agents s !! c)) →
  ∃ m', for_each (λ c, modify_agent c (set_parent None (-1))) l s = (Ret tt, set_agents m' s) ∧
    ∀ k, m' !! k = if decide (k ∈ l) then set_parent None (-1) <$> agents s !! k else agents s !! k.
Proof.
  intros Hnd. revert s. induction Hnd as [|c l Hc _ IH]; intros s Hl.
  { exists (agents s). split; [by destruct s|done]. }
  destruct (Hl c) as [a Ha]; [by left|].
  destruct (IH (set_agents (<[c := set_parent None (-1) a]> (agents s)) s)) as (m' & Hrun & Hm').
  { intros k Hk. cbn. rewrite lookup_insert_ne by congruence. apply Hl. by right. }
  exists m'. split.
  - rewrite (for_each_cons (λ c, modify_agent c (set_parent None (-1))) c l s _ (modify_agent_at c _ s a Ha)). by rewrite Hrun.
  - intros k. rewrite Hm'. cbn. destruct (decide (k = c)) as [->|Hne].
    + rewrite decide_False by done. rewrite decide_True by (by left). by rewrite lookup_insert_eq, Ha.
    + rewrite lookup_insert_ne by done. apply decide_ext. rewrite elem_of_cons. naive_solver.
Qed.

Lemma delete_agent_spec p s a :
  forest s → agents s !! p = Some a → (∀ i, tickers_ (ti_ s) !! i ≠ Some p) →
  ∃ s', delete_agent p s = (Ret tt, s') ∧ forest s' ∧ agents s' !! p = None ∧
    recorded (sim_world s') = recorded (sim_world s).
Proof.
  intros Hf Hp Htk. unfold delete_agent. rewrite (bind_ret _ _ _ _ _ (agent_at_Some p s a Hp)).
  set (s1 := set_cx (set_agent_list (agent_list_ (cx_ s) ∖ {[p]}) (cx_ s)) s).
  rewrite (bind_ret (modify_cx (λ c, set_agent_list (agent_list_ c ∖ {[p]}) c)) _ s tt s1 eq_refl).
  set (m1 := match parent_ a with
             | Some q => alter (λ b, set_children (children_ b ∖ {[p]}) b) q (agents s) | None => agents s end).
  assert ((match parent_ a with Some q => modify_agent q (λ b, set_children (children_ b ∖ {[p]}) b)
           | None => mret tt end) s1 = (Ret tt, set_agents m1 s1)) as Hstep.
  { unfold m1. destruct (parent_ a) as [q|] eqn:Hq; [|done].
    destruct (fo_parent _ _ _ _ _ Hf p a q Hp Hq) as (_ & b & Hb & _).
    rewrite (modify_agent_at q _ s1 b Hb). do 3 f_equal. apply map_eq. intros k.
    rewrite lookup_insert, lookup_alter. destruct (decide (q = k)) as [<-|]; [cbn; by rewrite Hb|done]. }
  rewrite (bind_ret _ _ _ _ _ Hstep).
  assert (∀ k, m1 !! k = (λ b, if decide (parent_ a = Some k) then set_children (children_ b ∖ {[p]}) b else b) <$> agents s !! k) as Hm1.
  { intros k. unfold m1. destruct (parent_ a) as [q|].
    - rewrite lookup_alter. destruct (decide (q = k)) as [->|]; destruct (agents s !! k); cbn; repeat case_decide; congruence.
    - by destruct (agents s !! k). }
  destruct (detach_spec (set_in_order (children_ a)) (set_agents m1 s1)) as (m2 & Hrun & Hm2).
  { apply NoDup_set_in_order. }
  { intros c Hc%elem_of_set_in_order. destruct (fo_child _ _ _ _ _ Hf p a c Hp Hc) as (b & Hb & _).
    cbn. rewrite Hm1, Hb. by eexists. }
  rewrite (bind_ret _ _ _ _ _ Hrun). eexists. split_and!; [reflexivity| |apply lookup_delete_eq|done].
  apply (forest_delete (agents s) _ _ _ _ _ p a Hp); [apply lookup_delete_eq| |done|exact Hf].
  intros k Hk. cbn. rewrite lookup_delete_ne by done. rewrite Hm2. cbn. rewrite Hm1. unfold forget.
  rewrite (decide_ext (k ∈ set_in_order (children_ a)) (k ∈ children_ a)) by apply elem_of_set_in_order.
  destruct (agents s !! k); cbn; by repeat case_decide.
Qed.

Lemma agent_Decommission_forest p s :
  forest s → (∀ i, tickers_ (ti_ s) !! i ≠ Some p) → forest (agent_Decommission p s).2.
Proof.
  intros Hf Htk. unfold agent_Decommission.
  destruct (agents s !! p) as [a|] eqn:Hp; [|by rewrite (bind_throw _ _ _ _ _ (agent_at_None p s Hp))].
  rewrite (bind_ret _ _ _ _ _ (agent_at_Some p s a Hp)), (bind_ret now _ s (time_of s) s eq_refl).
  set (s1 := set_sim_world (set_recorded (recorded (sim_world s) ++
    [("AgentExit", [("AgentId", DInt (a_id a)); ("ExitTime", DInt (time_of s))])]) (sim_world s)) s).
  rewrite (bind_ret (record "AgentExit" _) _ s tt s1 eq_refl).
  set (s2 := set_cx (set_counts (count_by (-1) (prototype_ a) (n_prototypes_ (cx_ s1)))
    (count_by (-1) (spec_ a) (n_specs_ (cx_ s1))) (cx_ s1)) s1).
  assert (UnregisterAgent p s1 = (Ret tt, s2)) as E2.
  { unfold UnregisterAgent. by rewrite (bind_ret _ _ _ _ _ (agent_at_Some p s1 a Hp)). }
  rewrite (bind_ret _ _ _ _ _ E2). unfold DelAgent. rewrite (bind_ret get _ _ _ _ eq_refl).
  case_decide; [|done]. destruct (delete_agent_spec p s2 a Hf Hp Htk) as (s' & -> & Hf' & _). done.
Qed.

Lemma UnregisterTimeListener_forest p s :
  forest s → ∃ s', UnregisterTimeListener p s = (Throw Undefined, s') ∧ forest s' ∨
    UnregisterTimeListener p s = (Ret tt, s') ∧ forest s' ∧ ∀ i, tickers_ (ti_ s') !! i ≠ Some p.
Proof.
  intros Hf. unfold UnregisterTimeListener.
  destruct (agents s !! p) as [a|] eqn:Hp.
  - rewrite (bind_ret _ _ _ _ _ (agent_at_Some p s a Hp)). eexists. right. split; [reflexivity|]. split.
    + destruct Hf as [? ? ? ? ? ? Ht]. split; try done. cbn. intros i k [_ Hik]%lookup_delete_Some. by apply Ht.
    + cbn. intros i [Hne Hi]%lookup_delete_Some. destruct (fo_tickers _ _ _ _ _ Hf i p Hi) as (b & Hb & Hid & _). congruence.
  - exists s. left. split; [|done]. apply bind_throw. by apply agent_at_None.
Qed.

Lemma Decommission_forest p : IR (Decommission arch p).
Proof.
  intros s. split; [|intros ? _; exact I]. intros Hf. unfold Decommission.
  destruct (agents s !! p) as [a|] eqn:Hp; [|by rewrite (bind_throw _ _ _ _ _ (agent_at_None p s Hp))].
  rewrite (bind_ret _ _ _ _ _ (agent_at_Some p s a Hp)).
  assert (∀ s, forest s → forest ((UnregisterTimeListener p;; agent_Decommission p) s).2) as Hleave.
  { intros s1 Hf1. destruct (UnregisterTimeListener_forest p s1 Hf1) as (s2 & [[E Hf2]|(E & Hf2 & Htk)]).
    - by rewrite (bind_throw _ _ _ _ _ E).
    - rewrite (bind_ret _ _ _ _ _ E). by apply agent_Decommission_forest. }
  destruct (a_class a) eqn:Hcl.
  - rewrite (bind_ret get _ _ _ _ eq_refl). destruct (check_decommission arch p s); [|done].
    rewrite (bind_ret (require true BaseError) _ _ _ _ eq_refl).
    set (s1 := set_cx (set_sim_traders (sim_traders (cx_ s) ∖ {[p]}) (cx_ s)) s).
    change (forest ((UnregisterTimeListener p;; agent_Decommission p) s1).2). apply Hleave. exact Hf.
  - by apply Hleave.
  - by apply Hleave.
  - apply agent_Decommission_forest; [done|]. intros i Hi.
    destruct (fo_tickers _ _ _ _ _ Hf i p Hi) as (b & Hb & _ & Hcl'). congruence.
Qed.

(** ** The whole simulation *)
Lemma run_calls_forest f : IR (run_calls f).
Proof. apply akeep_forest, run_calls_keep. Qed.
Lemma build_one_forest b : IR (build_one arch b).
Proof.
  intros s. split; [|intros ? _; exact I]. intros Hf. unfold build_one.
  destruct (CreateAgent_spec b.1 s Hf) as [(e & s' & E & Hf')|(c & s' & E & Hf' & Hb)].
  - by rewrite (bind_throw _ _ _ _ _ E).
  - rewrite (bind_ret _ _ _ _ _ E). pose proof (Build_forest c b.2 s' Hf' Hb) as Hf2.
    unfold mbind, M_bind, m_bind. destruct (Build arch c b.2 s') as [[u|e] s2]; [|done].
    destruct b.2; [|done]. by apply run_calls_forest.
Qed.
Lemma decom_one_forest m : IR (decom_one arch m).
Proof.
  unfold decom_one. apply respects_bind; [apply _|apply akeep_forest, agent_at_keep|]. intros a.
  apply respects_bind; [apply _| |intros _; apply Decommission_forest].
  destruct (parent_ a); [apply run_calls_forest|apply respects_ret, _].
Qed.

Context (debug : bool) (req_id : Z → ptr → string) (solve : M (ExchangeGraph F) F).
#[local] Hint Extern 1 (IR (modify_ti _)) => (apply akeep_forest, modify_ti_keep; done) : respects.
#[local] Hint Extern 1 (IR (record _ _)) => (apply akeep_forest, record_keep) : respects.
#[local] Hint Extern 1 (IR now) => (apply akeep_forest, now_keep) : respects.
#[local] Hint Resolve build_one_forest decom_one_forest : respects.
Lemma modify_sworld_forest f : IR (modify_sworld f).
Proof. apply respects_modify. intros s Hf. exact Hf. Qed.
#[local] Hint Resolve modify_sworld_forest : respects.
Lemma phases_forest : IR (phases arch debug req_id solve).
Proof.
  pose proof (akeep_forest _ (DoTick_keep arch)). pose proof (akeep_forest _ (DoTock_keep arch)).
  pose proof (akeep_forest _ (DoResEx_keep arch debug req_id solve)).
  pose proof (akeep_forest _ (Snapshot_keep arch)).
  assert (IR (DoBuild arch)). { unfold DoBuild. respect. }
  assert (IR (DoDecom arch)). { unfold DoDecom. respect. }
  unfold phases. respect.
Qed.
Lemma RunSim_forest : IR (RunSim arch debug req_id solve).
Proof.
  pose proof phases_forest. pose proof (akeep_forest _ (Snapshot_keep arch)).
  assert (∀ fuel, IR (run_loop arch debug req_id solve fuel)) as Hloop.
  { induction fuel as [|fuel IH]; cbn [run_loop]; [apply respects_throw; [apply _|exact I]|]. unfold time_step. respect. }
  unfold RunSim. respect.
Qed.
End ops.
