(* ===== verification/RestartTheory.v ===== *)
(** * Lemmas on restarting a simulation

    Rows, conditions and queries, and the loop that connects agents to their parents. *)

From Stdlib Require Import QArith ZArith Lia.
From stdpp Require Import base list gmap strings sorting.
From S2P Require Import Prelude Respects Num Arithmetic AgentSpec CompMath Resource Material Query ExchangeGraph Portfolio Translator ExchangeManager Sim SimRun SimInit AgentTree AgentTheory.

(** ** Going round a map *)
Lemma in_order_tail (m : gmap Z ptr) k x l : in_order m = (k, x) :: l → in_order (delete k m) = l.
Proof.
  intros Hm. assert (m !! k = Some x) as Hk by (apply elem_of_in_order; rewrite Hm; left).
  pose proof (in_order_sorted m) as Hs. rewrite Hm in Hs. apply StronglySorted_inv in Hs as [Hs _].
  apply (StronglySorted_unique_strong key_le); [|apply in_order_sorted|done|].
  - intros [k1 x1] [k2 x2] H1 H2. unfold key_le. cbn. intros Hle Hge. assert (k1 = k2) as -> by (cbn in *; lia).
    apply elem_of_in_order, lookup_delete_Some in H1 as [_ H1].
    assert (m !! k2 = Some x2) as H2' by (apply elem_of_in_order; rewrite Hm; by right). congruence.
  - apply (Permutation_cons_inv (a := (k, x))). rewrite <-Hm. symmetry. by apply in_order_delete.
Qed.
Lemma next_key_tail (m : gmap Z ptr) k x l : in_order m = (k, x) :: l → next_key m k = head l.*1.
Proof.
  intros Hm. pose proof (in_order_sorted m) as Hs. pose proof (NoDup_fst_in_order m) as Hn. unfold next_key.
  rewrite Hm in *. apply StronglySorted_inv in Hs as [_ Hall]. cbn in Hn. apply NoDup_cons in Hn as [Hnin _]. cbn [fmap list_fmap].
  rewrite filter_cons_False by (cbn; lia).
  replace (filter (λ y, (k < y)%Z) l.*1) with l.*1; [done|]. symmetry.
  assert (Forall (λ y, (k < y)%Z) l.*1) as Hf.
  { apply Forall_forall. intros y Hy. assert (y ≠ k) by (by intros ->). apply list_elem_of_fmap in Hy as ([y' z] & -> & Hy).
    rewrite Forall_forall in Hall. specialize (Hall _ Hy). unfold key_le in Hall. cbn in *. lia. }
  clear -Hf. induction Hf as [|y ys Hy _ IH]; [done|]. rewrite filter_cons_True by done. by rewrite IH.
Qed.
Lemma next_after_delete (m : gmap Z ptr) k x l :
  in_order m = (k, x) :: l → advance (delete k m) (next_key m k) = head l.*1.
Proof.
  intros Hm. rewrite (next_key_tail m k x l Hm). unfold advance, begin_key. rewrite (in_order_tail m k x l Hm).
  by destruct l.
Qed.
Lemma begin_key_some (m : gmap Z ptr) k : is_Some (m !! k) → is_Some (begin_key m).
Proof.
  intros [x Hk]. unfold begin_key. apply elem_of_in_order in Hk. by destruct (in_order m) as [|[] ?]; [apply elem_of_nil in Hk|].
Qed.
Lemma advance_some (m : gmap Z ptr) k o : is_Some (m !! k) → is_Some (advance m o).
Proof. intros Hk. destruct o; [done|]. by eapply begin_key_some. Qed.

Section connect.
Context {F P : Type} `{Num F} `{Limits F} `{Pyne F} `{FloatDistance F}.
Implicit Types (i : SimInit F P) (s : Sim F P).

Definition parent_in s (p : ptr) : option (option ptr) := parent_ <$> agents s !! p.

Lemma Connect_runs m q s :
  m ≠ q → is_Some (agents s !! m) → is_Some (agents s !! q) →
  ∃ s', Connect m (Some q) s = (Ret tt, s') ∧
    ∀ p, parent_in s' p = if decide (p = m) then Some (Some q) else parent_in s p.
Proof.
  intros Hne [a Ha] [b Hb]. unfold Connect. rewrite bool_decide_eq_false_2 by congruence.
  rewrite (bind_ret (require (negb false) KeyError) _ _ _ _ eq_refl).
  rewrite (bind_ret _ _ _ _ _ (agent_at_Some q s b Hb)), (bind_ret _ _ _ _ _ (modify_agent_at m _ s a Ha)).
  rewrite (modify_agent_at q _ _ b) by (cbn; by rewrite lookup_insert_ne by done).
  eexists. split; [reflexivity|]. intros p. unfold parent_in. cbn [agents set_agents].
  rewrite lookup_insert. destruct (decide (q = p)) as [<-|].
  - rewrite decide_False by done. by rewrite Hb.
  - rewrite lookup_insert. destruct (decide (m = p)) as [<-|]; [by rewrite decide_True|]. by rewrite decide_False.
Qed.

(** ** Connecting the agents *)
Record connectable (pm : gmap Z Z) (u : gmap Z ptr) i : Prop := {
  cn_alive : ∀ id m, u !! id = Some m → is_Some (parent_in (i_sim i) m);
  cn_inj : ∀ id id' m, u !! id = Some m → u !! id' = Some m → id = id';
  cn_new : ∀ id m pid, u !! id = Some m → i_agents i !! pid ≠ Some (Some m);
  cn_disj : ∀ id, is_Some (u !! id) → i_agents i !! id = None;
  cn_built : ∀ pid om, i_agents i !! pid = Some om → ∃ q, om = Some q ∧ is_Some (parent_in (i_sim i) q);
  cn_parent : ∀ id, is_Some (u !! id) →
    let pid := at_default 0%Z pm id in
    pid = (-1)%Z ∨ is_Some (i_agents i !! pid) ∨ (is_Some (u !! pid) ∧ (pid < id)%Z)
}.

(** What a built agent has for a parent. *)
Definition parent_set (pm : gmap Z Z) i i' (id : Z) (m : ptr) : Prop :=
  let pid := at_default 0%Z pm id in
  if decide (pid = (-1)%Z) then parent_in (i_sim i') m = parent_in (i_sim i) m
  else ∃ q, i_agents i' !! pid = Some (Some q) ∧ parent_in (i_sim i') m = Some (Some q).

Lemma is_Some_parent s p : is_Some (parent_in s p) ↔ is_Some (agents s !! p).
Proof. unfold parent_in. by rewrite fmap_is_Some. Qed.

Lemma connect_first pm u i id m l :
  connectable pm u i → in_order u = (id, m) :: l →
  let pid := at_default 0%Z pm id in
  ∃ parent s', (if (pid =? -1)%Z then Some None else i_agents i !! pid) = Some parent ∧
    Connect m parent (i_sim i) = (Ret tt, s') ∧
    (parent = None → pid = (-1)%Z) ∧ (pid ≠ (-1)%Z → ∃ q, i_agents i !! pid = Some (Some q) ∧ parent = Some q) ∧
    ∀ p, parent_in s' p = match parent with Some q => if decide (p = m) then Some (Some q) else parent_in (i_sim i) p
                          | None => parent_in (i_sim i) p end.
Proof.
  intros [Hal Hinj Hnew Hdj Hbu Hpar] Hu pid.
  assert (u !! id = Some m) as Hid by (apply elem_of_in_order; rewrite Hu; left).
  destruct (Z.eqb_spec pid (-1)) as [Hp|Hp].
  { exists None, (i_sim i). by split_and!. }
  assert (∃ q, i_agents i !! pid = Some (Some q) ∧ is_Some (parent_in (i_sim i) q)) as (q & Hq & Hqa).
  { destruct (Hpar id (mk_is_Some _ _ Hid)) as [|[[om Hom]|[[m' Hm'] Hlt]]]; [done| |].
    - fold pid in Hom. destruct (Hbu pid om Hom) as (q & -> & ?). by exists q.
    - exfalso. fold pid in Hm', Hlt. pose proof (in_order_sorted u) as Hs. rewrite Hu in Hs.
      apply StronglySorted_inv in Hs as [_ Hall]. apply elem_of_in_order in Hm'. rewrite Hu in Hm'.
      apply elem_of_cons in Hm' as [[= ? ?]|Hin]; [lia|]. rewrite Forall_forall in Hall. specialize (Hall _ Hin).
      unfold key_le in Hall. cbn in Hall. lia. }
  destruct (Connect_runs m q (i_sim i)) as (s' & Hrun & Hs').
  - intros ->. by eapply Hnew.
  - apply is_Some_parent. by eapply Hal.
  - by apply is_Some_parent.
  - exists (Some q), s'. split_and!; [done|done|done| |done]. intros _. by exists q.
Qed.

(** The state after the first agent is connected. *)
Lemma connectable_step pm u i id m l s' parent :
  connectable pm u i → in_order u = (id, m) :: l →
  (∀ p, parent_in s' p = match parent with Some q => if decide (p = m) then Some (Some q) else parent_in (i_sim i) p
                         | None => parent_in (i_sim i) p end) →
  connectable pm (delete id u) (set_i_agents (<[id := Some m]> (i_agents i)) (set_i_sim s' i)).
Proof.
  intros [Hal Hinj Hnew Hdj Hbu Hpar] Hu Hs'.
  assert (u !! id = Some m) as Hid by (apply elem_of_in_order; rewrite Hu; left).
  assert (∀ p, is_Some (parent_in (i_sim i) p) → is_Some (parent_in s' p)) as Hkeep.
  { intros p Hp. rewrite Hs'. destruct parent; [|done]. by destruct (decide (p = m)). }
  split; cbn [i_sim i_agents set_i_agents set_i_sim].
  - intros id' m' [_ Hm']%lookup_delete_Some. by eapply Hkeep, Hal.
  - intros i1 i2 m' [_ H1']%lookup_delete_Some [_ H2']%lookup_delete_Some. by eapply Hinj.
  - intros id' m' pid [Hne Hm']%lookup_delete_Some Hp. apply lookup_insert_Some in Hp as [[_ [= ->]]|[_ Hp]]; [|by eapply Hnew].
    by apply Hne, (Hinj id id' m').
  - intros id' [m' [Hne Hm']%lookup_delete_Some]. rewrite lookup_insert_ne by done. by eapply Hdj.
  - intros pid om [[_ <-]|[_ Hom]]%lookup_insert_Some.
    + exists m. split; [done|]. by eapply Hkeep, Hal.
    + destruct (Hbu pid om Hom) as (q & -> & ?). exists q. split; [done|by apply Hkeep].
  - intros id' [m' [Hne Hm']%lookup_delete_Some]. specialize (Hpar id' (mk_is_Some _ _ Hm')) as Hp. cbn zeta in Hp.
    set (pid := at_default 0%Z pm id') in *.
    destruct (decide (pid = id)) as [->|Hne']; [right; left; rewrite lookup_insert_eq; by eexists|].
    destruct Hp as [|[Hp|[Hp ?]]]; [by left|right; left; by rewrite lookup_insert_ne|].
    right; right. split; [|done]. by rewrite lookup_delete_ne.
Qed.

Lemma union_step (u : gmap Z ptr) (ags : gmap Z (option ptr)) id m :
  u !! id = Some m → (Some <$> delete id u) ∪ <[id := Some m]> ags = (Some <$> u) ∪ ags.
Proof.
  intros Hid. apply map_eq. intros k. rewrite !lookup_union, !lookup_fmap, lookup_delete, lookup_insert.
  destruct (decide (id = k)) as [<-|]; [|done]. rewrite Hid. cbn. by destruct (ags !! id).
Qed.

Lemma connect_loop_runs pm fuel u i enter :
  connectable pm u i → size u < fuel →
  ∃ i', connect_loop fuel pm u (begin_key u) enter i = (Ret (enter ++ (in_order u).*2), i') ∧
    i_agents i' = (Some <$> u) ∪ i_agents i ∧
    (∀ id m, u !! id = Some m → parent_set pm i i' id m) ∧
    (∀ p, (∀ id, u !! id ≠ Some p) → parent_in (i_sim i') p = parent_in (i_sim i) p).
Proof.
  revert u i enter. induction fuel as [|fuel IH]; intros u i enter Hc Hf; [lia|].
  destruct (in_order u) as [|[id m] l] eqn:Hu.
  { assert (u = ∅) as -> by (apply map_size_empty_inv; by rewrite <-length_in_order, Hu).
    exists i. unfold begin_key. rewrite Hu. cbn. rewrite app_nil_r, fmap_empty, (left_id_L ∅ (∪)).
    split_and!; [done|done|by intros ? ? ?%lookup_empty_Some|done]. }
  assert (u !! id = Some m) as Hid by (apply elem_of_in_order; rewrite Hu; left).
  destruct (connect_first pm u i id m l Hc Hu) as (parent & s' & Hpar & Hrun & Hroot & Hsome & Hs').
  set (i1 := set_i_agents (<[id := Some m]> (i_agents i)) (set_i_sim s' i)).
  destruct (IH (delete id u) i1 (enter ++ [m])) as (i' & Hloop & Hags & Hset & Hkeep).
  { by eapply connectable_step. }
  { rewrite map_size_delete, Hid. assert (size u ≠ 0); [|lia]. rewrite <-length_in_order, Hu. cbn. lia. }
  exists i'. split_and!.
  - unfold begin_key at 1. rewrite Hu. cbn [fmap list_fmap fst head snd connect_loop].
    rewrite Hid, (bind_ret (from_option_or Undefined (Some m)) _ _ _ _ eq_refl), (bind_ret get _ _ _ _ eq_refl), Hpar.
    assert (on_sim (Connect m parent) i = (Ret tt, set_i_sim s' i)) as Hon by (unfold on_sim; by rewrite Hrun).
    rewrite (bind_ret _ _ _ _ _ Hon).
    rewrite (bind_ret (modify (λ i, set_i_agents (<[id := Some m]> (i_agents i)) i)) _ (set_i_sim s' i) tt i1 eq_refl).
    rewrite (next_after_delete u id m l Hu). unfold begin_key in Hloop. rewrite (in_order_tail u id m l Hu) in Hloop.
    rewrite Hloop. by rewrite <-app_assoc.
  - rewrite Hags. by apply union_step.
  - intros id' m' Hm'. destruct (decide (id' = id)) as [->|Hne].
    + assert (m' = m) as -> by congruence. unfold parent_set.
      rewrite (Hkeep m) by (intros id2 [Hne Hid2]%lookup_delete_Some; by apply Hne, (cn_inj _ _ _ Hc id id2 m)).
      change (parent_in (i_sim i1) m) with (parent_in s' m). rewrite Hs'. destruct (decide _) as [Hp|Hp].
      * rewrite Hp in Hpar. cbn in Hpar. by injection Hpar as <-.
      * destruct (Hsome Hp) as (q & Hq & ->). exists q. rewrite decide_True by done. split; [|done].
        rewrite Hags. unfold i1. cbn [i_agents set_i_agents]. rewrite (union_step u (i_agents i) id m Hid).
        rewrite lookup_union_r; [done|]. rewrite lookup_fmap.
        destruct (u !! at_default 0%Z pm id) as [m2|] eqn:Hm2; [|done]. by rewrite (cn_disj _ _ _ Hc _ (mk_is_Some _ _ Hm2)) in Hq.
    + specialize (Hset id' m'). rewrite lookup_delete_ne in Hset by done. specialize (Hset Hm'). unfold parent_set in *.
      destruct (decide _) as [Hp|Hp]; [|done]. rewrite Hset. change (parent_in (i_sim i1) m') with (parent_in s' m').
      rewrite Hs'. destruct parent; [|done]. rewrite decide_False; [done|]. intros ->. by apply Hne, (cn_inj _ _ _ Hc id' id m).
  - intros p Hp. rewrite Hkeep by (intros id' [_ Hid']%lookup_delete_Some; by eapply Hp).
    change (parent_in (i_sim i1) p) with (parent_in s' p). rewrite Hs'. destruct parent; [|done].
    rewrite decide_False; [done|]. intros ->. by eapply Hp.
Qed.

(** An agent whose parent is neither there nor to come keeps the loop going for ever. *)
Lemma connect_loop_hangs pm fuel u it enter i id v :
  let pid := at_default 0%Z pm id in
  is_Some (u !! id) → pid ≠ (-1)%Z → u !! pid = None → i_agents i !! pid = None → is_Some it →
  (connect_loop fuel pm u it enter i).1 ≠ Ret v.
Proof.
  intros pid. revert u it enter i. induction fuel as [|fuel IH]; intros u it enter i Hid Hp Hu Hi Hit; [done|].
  destruct it as [k|]; [|by destruct Hit]. cbn [connect_loop].
  destruct (u !! k) as [m|] eqn:Hk; [|done].
  rewrite (bind_ret (from_option_or Undefined (Some m)) _ _ _ _ eq_refl), (bind_ret get _ _ _ _ eq_refl).
  destruct (if (at_default 0 pm k =? -1)%Z then Some None else i_agents i !! at_default 0%Z pm k) as [parent|] eqn:Hpar.
  - destruct (on_sim (Connect m parent) i) as [[[]|e] i1] eqn:Hc; [|by rewrite (bind_throw _ _ _ _ _ Hc)].
    rewrite (bind_ret _ _ _ _ _ Hc).
    set (i2 := set_i_agents (<[k := Some m]> (i_agents i1)) i1).
    rewrite (bind_ret (modify (λ i, set_i_agents (<[k := Some m]> (i_agents i)) i)) _ i1 tt i2 eq_refl).
    assert (i_agents i1 = i_agents i) as Ha.
    { unfold on_sim in Hc. destruct (Connect m parent (i_sim i)) as [? ?]. by injection Hc as _ <-. }
    assert (k ≠ id) as Hne.
    { intros ->. fold pid in Hpar. rewrite Hi in Hpar. by destruct (Z.eqb_spec pid (-1)). }
    assert (is_Some (delete k u !! id)) by (by rewrite lookup_delete_ne).
    apply IH; [done|done| |  |by eapply advance_some].
    + by rewrite lookup_delete, Hu; destruct (decide _).
    + unfold i2. cbn. rewrite Ha, lookup_insert_ne; [done|]. intros ->. congruence.
  - apply IH; [done..|by eapply advance_some].
Qed.
End connect.
