(* ===== verification/Family.v ===== *)
(** * Family relations of agents

    What [AncestorOf], [DecendentOf] and [InFamilyTree] compute in a forest. *)

From Stdlib Require Import QArith ZArith Lia.
From stdpp Require Import base list gmap strings sorting relations.
From S2P Require Import Prelude Respects Num Arithmetic AgentSpec CompMath Resource Material ExchangeGraph Portfolio Translator ExchangeManager Sim SimRun AgentTree AgentTheory.

(** [c] is a child of [p]. *)
Definition child_of (m : gmap ptr Agent) (c p : ptr) : Prop := ∃ a, m !! c = Some a ∧ parent_ a = Some p.

Lemma tc_last {A} (R : relation A) x y : tc R x y → ∃ z, rtc R x z ∧ R z y.
Proof.
  induction 1 as [x y Hxy|x y z Hxy _ (w & Hyw & Hwz)]; [by exists x|]. exists w. split; [by eapply rtc_l|done].
Qed.

(** The number of agents before and after an address. *)
Definition before (m : gmap ptr Agent) (p : ptr) : nat := size (filter (λ x, (x < p)%Z) (dom m)).
Definition after (m : gmap ptr Agent) (p : ptr) : nat := size (filter (λ x, (p < x)%Z) (dom m)).

Lemma before_lt m p q : is_Some (m !! p) → (p < q)%Z → before m p < before m q.
Proof.
  intros Hp%elem_of_dom Hlt. apply subset_size. split; [set_solver by lia|].
  intros Hsub. assert (p ∈ filter (λ x, (x < p)%Z) (dom m)) as [? _]%elem_of_filter; [|lia].
  apply Hsub. by apply elem_of_filter.
Qed.
Lemma after_lt m p q : is_Some (m !! p) → (q < p)%Z → after m p < after m q.
Proof.
  intros Hp%elem_of_dom Hlt. apply subset_size. split; [set_solver by lia|].
  intros Hsub. assert (p ∈ filter (λ x, (p < x)%Z) (dom m)) as [? _]%elem_of_filter; [|lia].
  apply Hsub. by apply elem_of_filter.
Qed.
Lemma before_size m p : is_Some (m !! p) → before m p < size m.
Proof.
  intros Hp%elem_of_dom. rewrite <-size_dom. apply subset_size. split; [set_solver|].
  intros Hsub. apply Hsub, elem_of_filter in Hp. lia.
Qed.
Lemma after_size m p : after m p ≤ size m.
Proof. rewrite <-size_dom. apply subseteq_size. set_solver. Qed.

Section family.
Context {F P : Type} `{Num F} `{Limits F} `{Pyne F} `{FloatDistance F}.
Implicit Types (s : Sim F P) (p q : ptr) (a : Agent).

Definition up_fuel (m : gmap ptr Agent) (o : option ptr) : nat := from_option (λ q, 2 + before m q) 1 o.

Lemma ancestor_loop_spec fuel this o s :
  forest s → (∀ q, o = Some q → is_Some (agents s !! q)) → up_fuel (agents s) o ≤ fuel →
  ∃ b, ancestor_loop fuel this o s = (Ret b, s) ∧ (b = true ↔ ∃ q, o = Some q ∧ rtc (child_of (agents s)) q this).
Proof.
  intros Hf. revert o. induction fuel as [|fuel IH]; intros o Ho Hfu; [destruct o; cbn in Hfu; lia|].
  cbn. destruct o as [q|]; [|exists false; split; [done|]; split; [done|by intros (? & ? & _)]].
  destruct (decide (this = q)) as [->|Hne].
  { exists true. split; [done|]. split; [|done]. intros _. by exists q. }
  destruct (Ho q eq_refl) as [a Ha]. rewrite (bind_ret _ _ _ _ _ (agent_at_Some q s a Ha)).
  destruct (IH (parent_ a)) as (b & Hb & Hiff).
  - intros r Hr. by destruct (fo_parent _ _ _ _ _ Hf q a r Ha Hr) as (_ & b & -> & _).
  - destruct (parent_ a) as [r|] eqn:Hr; cbn in *; [|lia].
    destruct (fo_parent _ _ _ _ _ Hf q a r Ha Hr) as (Hlt & b & Hb & _).
    pose proof (before_lt (agents s) r q (mk_is_Some _ _ Hb) Hlt). lia.
  - exists b. split; [done|]. rewrite Hiff. split.
    + intros (r & Hr & Hrtc). exists q. split; [done|]. eapply rtc_l; [|done]. by exists a.
    + intros (q' & [= <-] & Hrtc). apply rtc_inv in Hrtc as [->|(r & (a' & Ha' & Hr) & Hrtc)]; [done|].
      simplify_eq. by exists r.
Qed.

Lemma any_child_spec (f : ptr → M (Sim F P) bool) (R : ptr → Prop) l s :
  (∀ c, c ∈ l → ∃ b, f c s = (Ret b, s) ∧ (b = true ↔ R c)) →
  ∃ b, any_child f l s = (Ret b, s) ∧ (b = true ↔ ∃ c, c ∈ l ∧ R c).
Proof.
  induction l as [|c l IH]; intros Hl.
  { exists false. split; [done|]. split; [done|]. intros (c & Hc & _). by apply elem_of_nil in Hc. }
  destruct (Hl c) as (b & Hb & Hiff); [by left|]. cbn. rewrite (bind_ret _ _ _ _ _ Hb). destruct b.
  - exists true. split; [done|]. split; [|done]. intros _. exists c. split; [by left|by apply Hiff].
  - destruct IH as (b & Hb' & Hiff'); [by intros; apply Hl; right|]. exists b. split; [done|]. rewrite Hiff'. split.
    + intros (d & Hd & ?). exists d. split; [by right|done].
    + intros (d & [->|Hd]%elem_of_cons & HR); [by apply Hiff in HR|by exists d].
Qed.

Lemma descend_loop_spec fuel this p s :
  forest s → is_Some (agents s !! p) → after (agents s) p < fuel →
  ∃ b, descend_loop fuel this p s = (Ret b, s) ∧ (b = true ↔ tc (child_of (agents s)) this p).
Proof.
  intros Hf. revert p. induction fuel as [|fuel IH]; intros p [a Ha] Hfu; [lia|].
  cbn. rewrite (bind_ret _ _ _ _ _ (agent_at_Some p s a Ha)).
  assert (∀ c, c ∈ children_ a → child_of (agents s) c p) as Hch by (intros c Hc; by eapply fo_child).
  destruct (any_child_spec (λ c, if decide (this = c) then mret true else descend_loop fuel this c)
    (λ c, rtc (child_of (agents s)) this c) (set_in_order (children_ a)) s) as (b & Hb & Hiff).
  - intros c Hc%elem_of_set_in_order. destruct (decide (this = c)) as [->|Hne]; [by exists true|].
    destruct (Hch c Hc) as (ca & Hca & Hpar). destruct (fo_parent _ _ _ _ _ Hf c ca p Hca Hpar) as (Hlt & _).
    destruct (IH c) as (b & Hb & Hiff); [by exists ca| |].
    { pose proof (after_lt (agents s) c p (mk_is_Some _ _ Hca) Hlt). lia. }
    exists b. split; [done|]. rewrite Hiff. split; [apply tc_rtc|].
    intros Hr%rtc_tc. destruct Hr; done.
  - exists b. split; [done|]. rewrite Hiff. split.
    + intros (c & Hc%elem_of_set_in_order & Hr). eapply tc_rtc_l; [done|]. by apply tc_once, Hch.
    + intros (c & Hrtc & ca & Hca & Hpar)%tc_last. exists c. split; [|done]. apply elem_of_set_in_order.
      destruct (fo_parent _ _ _ _ _ Hf c ca p Hca Hpar) as (_ & a' & Ha' & Hin & _). by simplify_eq.
Qed.

(** [p] is an ancestor of [q]. *)
Definition ancestor s p q : Prop := tc (child_of (agents s)) q p.

Lemma AncestorOf_spec p q s :
  forest s → is_Some (agents s !! q) → ∃ b, AncestorOf p q s = (Ret b, s) ∧ (b = true ↔ ancestor s p q).
Proof.
  intros Hf [a Ha]. unfold AncestorOf. rewrite (bind_ret get _ _ _ _ eq_refl), (bind_ret _ _ _ _ _ (agent_at_Some q s a Ha)).
  destruct (ancestor_loop_spec (S (size (agents s))) p (parent_ a) s Hf) as (b & Hb & Hiff).
  - intros r Hr. by destruct (fo_parent _ _ _ _ _ Hf q a r Ha Hr) as (_ & b & -> & _).
  - destruct (parent_ a) as [r|] eqn:Hr; cbn; [|lia].
    destruct (fo_parent _ _ _ _ _ Hf q a r Ha Hr) as (_ & b & Hb & _).
    pose proof (before_size (agents s) r (mk_is_Some _ _ Hb)). lia.
  - exists b. split; [done|]. rewrite Hiff. unfold ancestor. split.
    + intros (r & Hr & Hrtc). eapply tc_rtc_r; [|done]. apply tc_once. by exists a.
    + intros Ht. inversion Ht as [? ? (a' & Ha' & Hr)|? ? ? (a' & Ha' & Hr) Ht']; simplify_eq; eexists;
        (split; [done|]); [done|by apply tc_rtc].
Qed.
Lemma DecendentOf_spec p q s :
  forest s → is_Some (agents s !! q) → ∃ b, DecendentOf p q s = (Ret b, s) ∧ (b = true ↔ ancestor s q p).
Proof.
  intros Hf Hq. unfold DecendentOf. rewrite (bind_ret get _ _ _ _ eq_refl).
  apply descend_loop_spec; [done|done|]. pose proof (after_size (agents s) q). lia.
Qed.

(** No agent is its own ancestor. *)
Lemma ancestor_lt s p q : forest s → ancestor s p q → (p < q)%Z.
Proof.
  intros Hf. unfold ancestor. induction 1 as [x y (a & Ha & Hpar)|x y z (a & Ha & Hpar) _ IH];
    destruct (fo_parent _ _ _ _ _ Hf _ _ _ Ha Hpar) as [? _]; lia.
Qed.

(** Printing the tree of an agent with a child never ends. *)
Lemma GetTreePrintOuts_loops fuel this m s a v :
  agents s !! this = Some a → children_ a ≠ ∅ → (GetTreePrintOuts fuel this m s).1 ≠ Ret v.
Proof.
  intros Ha Hch. revert m v. induction fuel as [|fuel IH]; intros m v; [done|]. cbn.
  intros Hr. match type of Hr with (?c s).1 = _ => destruct (c s) as [o s'] eqn:Hrun end. cbn in Hr. subst o.
  apply bind_inv in Hrun as (b & s1 & Hb & Hrun).
  assert (s1 = s) as ->.
  { destruct (agents s !! m) as [b'|] eqn:Hm; [rewrite (agent_at_Some m s b' Hm) in Hb; by simplify_eq|].
    by rewrite (agent_at_None m s Hm) in Hb. }
  rewrite (bind_ret _ _ _ _ _ (agent_at_Some this s a Ha)) in Hrun. apply bind_inv in Hrun as (outs & s2 & Hc & _).
  destruct (set_in_order (children_ a)) as [|c l] eqn:Hl.
  - apply Hch. apply set_eq. intros x. rewrite <-elem_of_set_in_order, Hl. set_solver.
  - cbn in Hc. apply bind_inv in Hc as (v' & s3 & Hc & _). apply (IH c v'). by rewrite Hc.
Qed.
End family.
