(* ===== verification/Evolution.v ===== *)
(** * How states evolve

    The operations on resources, on an exchange and on a simulation never move the
    clock (only the main loop does) and never take back a recorded row, whether they
    return or throw; and none of their recursions runs out of its bound. *)

From Stdlib Require Import QArith ZArith Lia.
From stdpp Require Import base list gmap strings sorting.
From S2P Require Import Prelude Respects Num Arithmetic AgentSpec CompMath Resource Material ExchangeGraph Portfolio Translator ExchangeManager.

(** ** Resources *)
Record wevol {F} (w w' : World F) : Prop := {
  we_time : ctx_time w' = ctx_time w;
  we_rows : recorded w `prefix_of` recorded w'
}.
#[export] Instance wevol_preorder {F} : PreOrder (@wevol F).
Proof.
  split.
  - intros w. by split.
  - intros w1 w2 w3 [? ?] [? ?]. split; [congruence|by etrans].
Qed.

Section world.
Context {F : Type} `{Num F} `{Limits F} `{Pyne F}.
Local Abbreviation WR := (respects (@wevol F) no_fuel_out).

Lemma modify_wevol f :
  (∀ w, ctx_time (f w) = ctx_time w ∧ recorded (f w) = recorded w) → WR (modify f).
Proof. intros Hf. apply respects_modify. intros w. destruct (Hf w) as [? Heq]. split; [done|by rewrite Heq]. Qed.

Lemma record_datum_evol t v : WR (record_datum t v).
Proof. apply respects_modify. intros w. split; [done|]. cbn. by eexists. Qed.
Lemma get_comp_evol c : WR (get_comp c).
Proof. unfold get_comp. respect. Qed.
Lemma put_comp_evol c x : WR (put_comp c x).
Proof. by apply modify_wevol. Qed.
Lemma get_res_evol p : WR (get_res p).
Proof. unfold get_res. respect. Qed.
Lemma put_res_evol p x : WR (put_res p x).
Proof. by apply modify_wevol. Qed.
#[local] Hint Resolve record_datum_evol get_comp_evol put_comp_evol get_res_evol put_res_evol : respects.
#[local] Hint Extern 1 (WR (modify _)) => (apply modify_wevol; done) : respects.

Lemma fresh_evol : WR fresh.
Proof. unfold fresh. respect. Qed.
Lemma modify_res_evol p f : WR (modify_res p f).
Proof. unfold modify_res. respect. Qed.
#[local] Hint Resolve fresh_evol modify_res_evol : respects.

Lemma atom_evol c : WR (atom c).
Proof. unfold atom. respect. Qed.
Lemma mass_evol c : WR (mass c).
Proof. unfold mass. respect. Qed.
Lemma new_composition_in_evol t l : WR (new_composition_in t l).
Proof. unfold new_composition_in. respect. Qed.
#[local] Hint Resolve atom_evol mass_evol new_composition_in_evol : respects.
Lemma CreateFromMass_evol v : WR (CreateFromMass v).
Proof. unfold CreateFromMass, valid_comp, new_composition. respect. Qed.
Lemma RecordComp_evol c : WR (RecordComp c).
Proof. unfold RecordComp. respect. Qed.
Lemma DecayComp_evol p d t : WR (DecayComp p d t).
Proof. unfold DecayComp, NewDecay. respect. Qed.
#[local] Hint Resolve CreateFromMass_evol RecordComp_evol DecayComp_evol : respects.

Lemma mat_parts_evol r : WR (mat_parts r).
Proof. unfold mat_parts. respect. Qed.
Lemma TrackerRecord_evol p : WR (TrackerRecord p).
Proof. unfold TrackerRecord, BumpStateId, qual_id, RecordRes. respect. Qed.
#[local] Hint Resolve mat_parts_evol TrackerRecord_evol : respects.
Lemma DecayMat_evol p t : WR (DecayMat p t).
Proof. unfold DecayMat, Transmute, TrackerModify, put_parents. respect. Qed.
#[local] Hint Resolve DecayMat_evol : respects.
Lemma comp_evol p : WR (comp p).
Proof. unfold comp. respect. Qed.
#[local] Hint Resolve comp_evol : respects.
Lemma AbsorbMat_evol p m : WR (AbsorbMat p m).
Proof. unfold AbsorbMat, merge_comps, move_qty, TrackerAbsorb, put_parents. respect. Qed.
Lemma CloneRes_evol p : WR (Clone p).
Proof. unfold Clone. respect. Qed.
End world.
#[export] Hint Resolve record_datum_evol get_comp_evol get_res_evol mass_evol comp_evol AbsorbMat_evol
  CloneRes_evol : respects.

(** ** Exchanges *)
Definition devol {F} (d d' : DRE F) : Prop := wevol (d_world d) (d_world d').
Definition xevol {F} (x x' : ExchangeState F) : Prop := devol (x_dre x) (x_dre x').
#[export] Instance devol_preorder {F} : PreOrder (@devol F).
Proof. split; [intros d|intros d1 d2 d3]; unfold devol; [done|by apply transitivity]. Qed.
#[export] Instance xevol_preorder {F} : PreOrder (@xevol F).
Proof. split; [intros d|intros d1 d2 d3]; unfold xevol; [done|by apply transitivity]. Qed.

(** Traders whose functions keep to this. *)
Record ops_evol {F} (o : TraderOps F) : Prop := {
  oe_requests : ∀ t, respects devol no_fuel_out (query_requests o t);
  oe_bids : ∀ t, respects devol no_fuel_out (query_bids o t);
  oe_adjust : ∀ t p, respects devol no_fuel_out (adjust o t p);
  oe_agent_adjust : ∀ t p, respects devol no_fuel_out (agent_adjust o t p);
  oe_responses : ∀ t l, respects devol no_fuel_out (trade_responses o t l);
  oe_accept : ∀ t l, respects devol no_fuel_out (accept_trades o t l)
}.

Section exchange.
Context {F : Type} `{Num F} `{FloatDistance F}.
Local Abbreviation DR := (respects (@devol F) no_fuel_out).
Local Abbreviation XR := (respects (@xevol F) no_fuel_out).

Lemma modify_devol (f : DRE F → DRE F) : (∀ d, d_world (f d) = d_world d) → DR (modify f).
Proof. intros Hf. apply respects_modify. intros d. unfold devol. by rewrite Hf. Qed.
Lemma modify_xevol (f : ExchangeState F → ExchangeState F) :
  (∀ x, d_world (x_dre (f x)) = d_world (x_dre x)) → XR (modify f).
Proof. intros Hf. apply respects_modify. intros d. unfold xevol, devol. by rewrite Hf. Qed.
#[local] Hint Extern 1 (DR (modify _)) => (apply modify_devol; done) : respects.
#[local] Hint Extern 1 (XR (modify _)) => (apply modify_xevol; done) : respects.

Lemma read_evol {A} (h : DRE F → gmap ptr A) p : DR (read h p).
Proof. unfold read. respect. Qed.
Lemma new_ptr_evol : DR new_ptr.
Proof. unfold new_ptr. respect. Qed.
#[local] Hint Resolve read_evol new_ptr_evol : respects.
Lemma res_quantity_evol p : DR (res_quantity p).
Proof. unfold res_quantity. respect. Qed.
Lemma modify_graph_evol f : DR (modify_graph f).
Proof. unfold modify_graph. respect. Qed.
#[local] Hint Resolve res_quantity_evol modify_graph_evol : respects.
Lemma convert_evol c p u : DR (convert c p u).
Proof. unfold convert. respect. Qed.
#[local] Hint Resolve convert_evol : respects.
Lemma AddRequestPortfolio_evol p : DR (AddRequestPortfolio p).
Proof. unfold AddRequestPortfolio, ctx_AddRequest. respect. Qed.
Lemma AddBidPortfolio_evol p : DR (AddBidPortfolio p).
Proof. unfold AddBidPortfolio, ctx_AddBid. respect. Qed.
#[local] Hint Resolve AddRequestPortfolio_evol AddBidPortfolio_evol : respects.

Lemma translate_requests_evol mid p : DR (translate_requests mid p).
Proof.
  unfold translate_requests, new_constraint, next_constr_id, rp_AddConstraint, copy_constraint, put_rport,
    TranslateRequestPortfolio, translate_request, xlat_AddRequest, modify_group. respect.
Qed.
Lemma xlat_AddArc_evol r b : DR (xlat_AddArc r b).
Proof. unfold xlat_AddArc, TranslateArc, TranslateCapacities, modify_node. respect. Qed.
#[local] Hint Resolve xlat_AddArc_evol : respects.
Lemma translate_bids_evol mid p : DR (translate_bids mid p).
Proof. unfold translate_bids, TranslateBidPortfolio, translate_bid, xlat_AddBid, modify_group. respect. Qed.
#[local] Hint Resolve translate_requests_evol translate_bids_evol : respects.
Lemma Translate_evol mid : DR (Translate mid).
Proof. unfold Translate. respect. Qed.
Lemma BackTranslateSolution_evol ms : DR (BackTranslateSolution ms).
Proof. unfold BackTranslateSolution, BackTranslateMatch. respect. Qed.
#[local] Hint Resolve Translate_evol BackTranslateSolution_evol : respects.

Lemma on_dre_evol {A} (c : M (DRE F) A) : DR c → XR (on_dre c).
Proof. intros Hc. unfold on_dre. by apply (respects_zoom xevol devol _ x_dre set_dre). Qed.
Lemma on_world_evol {A} (c : M (World F) A) : respects wevol no_fuel_out c → XR (on_world c).
Proof. intros Hc. apply on_dre_evol. by apply (respects_zoom devol wevol _ d_world set_world). Qed.
Lemma adjust_with_evol f t : (∀ p, DR (f p)) → DR (adjust_with f t).
Proof. intros Hf. unfold adjust_with. respect. Qed.
Ltac xrespect := respect; repeat (first [apply on_world_evol | apply on_dre_evol | apply adjust_with_evol; intros]; respect).

Context (o : TraderOps F) (Ho : ops_evol o).
#[local] Hint Resolve oe_requests oe_bids oe_adjust oe_agent_adjust oe_responses oe_accept : respects.

Lemma RecordDebugInfo_evol req_id : XR (RecordDebugInfo o req_id).
Proof. unfold RecordDebugInfo, debug_request, debug_bid. xrespect. Qed.
Lemma ExecuteTrades_evol b ts : XR (ExecuteTrades o b ts).
Proof.
  unfold ExecuteTrades, GroupTradesBySupplier, GetTradeResponses, responses_of, RecordTrades, record_trade,
    NextTransactionID, SendTradeResources. xrespect.
Qed.

Lemma Execute_evol debug req_id sim (solve : M (ExchangeGraph F) F) :
  (∀ g, (solve g).1 ≠ Throw OutOfFuel) → XR (Execute o debug req_id sim solve).
Proof using All.
  intros Hs. pose proof RecordDebugInfo_evol as Hd. pose proof ExecuteTrades_evol as He. unfold Execute.
  unfold AddAllRequests, AddAllBids, AdjustAll, InitTraders, AddRequests_, AddBids_, AdjustPrefs_. xrespect.
  intros d. specialize (Hs (d_graph d)). destruct (solve (d_graph d)) as [x g]. split; [done|].
  cbn in *. intros e ->. unfold no_fuel_out. congruence.
Qed.
End exchange.
#[export] Hint Resolve Execute_evol : respects.
