(* ===== verification/SimTheory.v ===== *)
(** * The evolution of a simulation

    What the calls of archetypes and the phases of a time step keep: the forest of agents,
    the clock, the schedules and the rows recorded so far. *)

From Stdlib Require Import QArith ZArith Lia.
From stdpp Require Import base list gmap strings sorting.
From S2P Require Import Prelude Respects Num Arithmetic AgentSpec CompMath Resource Material ExchangeGraph Portfolio Translator ExchangeManager Sim SimRun AgentTree AgentTheory Evolution.

(** ** The schedule of decommissions

    Every agent is scheduled at most once: the queue is a map from agents to times. *)
Record sched_once (q : gmap Z (list ptr)) : Prop := {
  so_nodup : ∀ t, NoDup (at_default [] q t);
  so_time : ∀ m t t', m ∈ at_default [] q t → m ∈ at_default [] q t' → t = t'
}.

Lemma at_insert {A} (d : A) (q : gmap Z A) t t' x : at_default d (<[t := x]> q) t' = if decide (t = t') then x else at_default d q t'.
Proof. unfold at_default. rewrite lookup_insert. by destruct (decide (t = t')). Qed.
Lemma erase_first_spec m l : NoDup l → NoDup (erase_first m l) ∧ ∀ x, x ∈ erase_first m l ↔ x ∈ l ∧ x ≠ m.
Proof.
  induction 1 as [|y l Hy Hl [IHn IHe]]; [split; [constructor|set_solver]|]. cbn. destruct (decide (y = m)) as [->|Hne].
  - split; [done|]. set_solver.
  - split; [|set_solver]. constructor; [|done]. rewrite IHe. tauto.
Qed.

(** The loop of [SchedDecom] takes the agent out of the queue. *)
Lemma unsched_spec m q t x :
  sched_once q →
  NoDup (at_default [] (unsched m (in_order q) q) t) ∧
  (x ∈ at_default [] (unsched m (in_order q) q) t ↔ x ∈ at_default [] q t ∧ x ≠ m).
Proof.
  intros [Hnd Ht].
  assert (∀ kvs, (∀ t l, (t, l) ∈ kvs → q !! t = Some l) → (∀ t l, q !! t = Some l → m ∈ l → (t, l) ∈ kvs) →
    NoDup (at_default [] (unsched m kvs q) t) ∧
    (x ∈ at_default [] (unsched m kvs q) t ↔ x ∈ at_default [] q t ∧ x ≠ m)) as Hgo.
  - induction kvs as [|[t0 l] kvs IH]; intros Hsub Hin; cbn.
    + split; [done|]. split; [|by intros [? _]]. intros Hx. split; [done|]. intros ->. unfold at_default in Hx.
      destruct (q !! t) as [l|] eqn:Hq; [|by apply elem_of_nil in Hx]. by apply Hin, elem_of_nil in Hq.
    + assert (q !! t0 = Some l) as Hq by (apply Hsub; left).
      assert (at_default [] q t0 = l) as Hl by (unfold at_default; by rewrite Hq).
      destruct (decide (m ∈ l)) as [Hm|Hm].
      * rewrite !at_insert. destruct (decide (t0 = t)) as [->|Hne].
        -- rewrite Hl. destruct (erase_first_spec m l) as [? He]; [rewrite <-Hl; apply Hnd|]. split; [done|apply He].
        -- split; [done|]. split; [|by intros [? _]]. intros Hx. split; [done|]. intros ->.
           apply Hne, (Ht m); [by rewrite Hl|done].
      * apply IH; [intros; apply Hsub; by right|]. intros t1 l1 Hq1 Hm1.
        specialize (Hin t1 l1 Hq1 Hm1). apply elem_of_cons in Hin as [[= -> ->]|]; [done|done].
  - apply Hgo; intros; by apply elem_of_in_order.
Qed.

Lemma resched_spec m t q :
  sched_once q →
  let q0 := unsched m (in_order q) q in
  let q' := <[t := at_default [] q0 t ++ [m]]> q0 in
  sched_once q' ∧ ∀ x t', x ∈ at_default [] q' t' ↔ (x = m ∧ t' = t) ∨ (x ≠ m ∧ x ∈ at_default [] q t').
Proof.
  intros Hq q0 q'.
  assert (∀ x t', x ∈ at_default [] q' t' ↔ (x = m ∧ t' = t) ∨ (x ≠ m ∧ x ∈ at_default [] q t')) as Hin.
  { intros x t'. destruct (unsched_spec m q t' x Hq) as [_ Hx]. fold q0 in Hx. unfold q'. rewrite at_insert.
    destruct (decide (t = t')) as [<-|]; [rewrite elem_of_app, Hx, list_elem_of_singleton|rewrite Hx]; 
      destruct (decide (x = m)); intuition congruence. }
  split; [split|done].
  - intros t'. unfold q'. rewrite at_insert. pose proof (λ t, proj1 (unsched_spec m q t m Hq)) as Hnd. fold q0 in Hnd.
    destruct (decide (t = t')) as [<-|]; [|apply Hnd]. apply NoDup_app. split_and!; [apply Hnd| |apply NoDup_singleton].
    intros x Hx. apply (unsched_spec m q t x Hq) in Hx as [_ Hx]. by rewrite list_elem_of_singleton.
  - intros x t1 t2 H1 H2. apply Hin in H1, H2. destruct Hq as [_ Ht]. destruct H1 as [[-> ->]|[? ?]], H2 as [[? ->]|[? ?]];
      try done. by eapply Ht.
Qed.

(** What every operation keeps: the clock and the settings of the timer stay, recorded
    rows and scheduled builds are never taken back, no agent is scheduled twice. *)
Record sevol {F P} (s s' : Sim F P) : Prop := {
  se_once : sched_once (decom_queue_ (ti_ s)) → sched_once (decom_queue_ (ti_ s'));
  se_world : wevol (sim_world s) (sim_world s');
  se_si : timer_si (ti_ s') = timer_si (ti_ s);
  se_builds : ∀ t, at_default [] (build_queue_ (ti_ s)) t `prefix_of` at_default [] (build_queue_ (ti_ s')) t
}.
#[export] Instance sevol_preorder {F P} : PreOrder (@sevol F P).
Proof.
  split.
  - intros s. by split.
  - intros s1 s2 s3 [? ? ? Hb1] [? ? ? Hb2]. split; [by auto|by etrans|congruence|]. intros t. etrans; [apply Hb1|apply Hb2].
Qed.

Section evolution.
Context {F P : Type} `{Num F} `{Limits F} `{Pyne F} `{FloatDistance F}.
Local Abbreviation SR := (respects (@sevol F P) no_fuel_out).
Implicit Types s : Sim F P.

Lemma modify_sevol (f : Sim F P → Sim F P) :
  (∀ s, sim_world (f s) = sim_world s ∧ timer_si (ti_ (f s)) = timer_si (ti_ s) ∧
        build_queue_ (ti_ (f s)) = build_queue_ (ti_ s) ∧ decom_queue_ (ti_ (f s)) = decom_queue_ (ti_ s)) →
  SR (modify f).
Proof.
  intros Hf. apply respects_modify. intros s. destruct (Hf s) as (Hw & Ht & Hb & Hd).
  split; [by rewrite Hd|by rewrite Hw|done|by rewrite Hb].
Qed.
#[local] Hint Extern 1 (SR (modify _)) => (apply modify_sevol; done) : respects.

Lemma modify_ti_evol f :
  (∀ t, timer_si (f t) = timer_si t ∧ build_queue_ (f t) = build_queue_ t ∧ decom_queue_ (f t) = decom_queue_ t) → SR (modify_ti f).
Proof. intros Hf. apply modify_sevol. intros s. split; [done|apply Hf]. Qed.
Lemma modify_cx_evol f : SR (modify_cx f).
Proof. by apply modify_sevol. Qed.
#[local] Hint Extern 1 (SR (modify_ti _)) => (apply modify_ti_evol; done) : respects.
#[local] Hint Resolve modify_cx_evol : respects.

Lemma on_sworld_evol {A} (c : M (World F) A) : respects wevol no_fuel_out c → SR (on_sworld c).
Proof. intros Hc. apply (respects_zoom sevol wevol _ sim_world set_sim_world); [|done]. intros s w Hw. by split. Qed.
Lemma on_sx_evol {A} (c : M (ExchangeState F) A) : respects xevol no_fuel_out c → SR (on_sx c).
Proof. intros Hc. apply (respects_zoom sevol xevol _ sx set_sx); [|done]. intros s w Hw. by split. Qed.
Lemma record_evol t v : SR (record t v).
Proof. apply on_sworld_evol. respect. Qed.
Lemma agent_at_evol p : SR (agent_at p).
Proof. unfold agent_at. respect. Qed.
Lemma now_evol : SR now.
Proof. unfold now. respect. Qed.
#[local] Hint Resolve record_evol agent_at_evol now_evol : respects.
Lemma modify_agent_evol p f : SR (modify_agent p f).
Proof. unfold modify_agent. respect. Qed.
#[local] Hint Resolve modify_agent_evol : respects.
Ltac srespect := respect; repeat (first [apply on_sworld_evol | apply on_sx_evol]; respect).

Lemma SchedBuild_evol parent proto t : SR (SchedBuild parent proto t).
Proof.
  unfold SchedBuild, timer_SchedBuild. srespect. apply respects_modify. intros s. split; [done|done|done|].
  intros t'. cbn. unfold at_default. rewrite lookup_insert. destruct (decide _) as [<-|]; [|done].
  cbn. by eexists.
Qed.
Lemma SchedDecom_evol m t : SR (SchedDecom m t).
Proof.
  unfold SchedDecom, timer_SchedDecom. srespect. apply respects_modify. intros s. split; [|done|done|done].
  intros Hq. apply resched_spec, Hq.
Qed.
#[local] Hint Resolve SchedBuild_evol SchedDecom_evol : respects.
Lemma run_calls_evol f : SR (run_calls f).
Proof.
  unfold run_calls. respect. unfold run_api, RegisterTrader, UnregisterTrader, set_agent_lifetime. srespect.
Qed.
Lemma new_agent_evol c : SR (new_agent c).
Proof. unfold new_agent. srespect. Qed.
Lemma DelAgent_evol m : SR (DelAgent m).
Proof. unfold DelAgent, delete_agent. srespect. Qed.
#[local] Hint Resolve run_calls_evol new_agent_evol DelAgent_evol : respects.

Context (arch : Archetypes F P).
Lemma CreateAgent_evol T name : SR (CreateAgent arch T name).
Proof.
  unfold CreateAgent, CloneAgent, InitFrom. srespect. apply modify_sevol. intros s. by destruct (privs s !! _).
Qed.
Lemma Build_evol p q : SR (Build arch p q).
Proof.
  unfold Build, Connect, EnterNotify, RegisterAgent, RegisterTrader, RegisterTimeListener, AddToTable. srespect.
Qed.
Lemma Decommission_evol p : SR (Decommission arch p).
Proof.
  unfold Decommission, agent_Decommission, UnregisterTrader, UnregisterTimeListener, UnregisterAgent. srespect.
Qed.
Lemma Tick_evol p : SR (Tick arch p).
Proof. unfold Tick. srespect. Qed.
Lemma Tock_evol p : SR (Tock arch p).
Proof. unfold Tock, Institution_Tock, retire_child, exit_time. srespect. Qed.
Lemma spec_of_string_evol str : SR (match spec_of_string str with
  | Ret sp => mret ("AgentState" +:+ Sanitize sp) | Throw e => throw e end).
Proof.
  unfold spec_of_string. destruct (split_on _ _) as [|? [|? [|? [|]]]];
    first [apply respects_ret, _|by apply respects_throw; [apply _|]].
Qed.
#[local] Hint Resolve spec_of_string_evol : respects.
Lemma db_datum_evol p b t v : SR (db_datum p b t v).
Proof. unfold db_datum. srespect. Qed.
#[local] Hint Resolve db_datum_evol : respects.
Lemma SnapAgent_evol p : SR (SnapAgent arch p).
Proof. unfold SnapAgent, agent_Snapshot, snap_inventory. srespect. Qed.
#[local] Hint Resolve SnapAgent_evol : respects.
Lemma Snapshot_evol : SR (Snapshot arch).
Proof. unfold Snapshot, snap_next_id. srespect. Qed.
#[local] Hint Resolve CreateAgent_evol Build_evol Decommission_evol Tick_evol Tock_evol Snapshot_evol : respects.

(** ** The phases *)
Lemma build_one_evol b : SR (build_one arch b).
Proof. unfold build_one. srespect. Qed.
Lemma decom_one_evol m : SR (decom_one arch m).
Proof. unfold decom_one. srespect. Qed.
#[local] Hint Resolve build_one_evol decom_one_evol : respects.

Lemma DoBuild_evol : SR (DoBuild arch).
Proof.
  intros s. set (l := at_default [] (build_queue_ (ti_ s)) (time_of s)).
  set (s1 := set_ti (set_build_queue (<[time_of s := l]> (build_queue_ (ti_ s))) (ti_ s)) s).
  change (DoBuild arch s) with (for_each (build_one arch) l s1).
  destruct (respects_for_each sevol no_fuel_out (build_one arch) l build_one_evol s1) as [HR HE].
  split; [|exact HE]. etrans; [|exact HR]. split; [done|done|done|]. intros t. unfold s1, at_default. cbn.
  rewrite lookup_insert. destruct (decide _) as [<-|]; done.
Qed.
Lemma DoTick_evol : SR (DoTick arch).
Proof. unfold DoTick. srespect. Qed.
Lemma DoTock_evol : SR (DoTock arch).
Proof. unfold DoTock, RecordInventories, record_inventories, RecordInventory. srespect. Qed.
Lemma DoDecom_evol : SR (DoDecom arch).
Proof.
  intros s. set (l := at_default [] (decom_queue_ (ti_ s)) (time_of s)).
  set (s1 := set_ti (set_decom_queue (<[time_of s := l]> (decom_queue_ (ti_ s))) (ti_ s)) s).
  change (DoDecom arch s) with (for_each (decom_one arch) l s1).
  destruct (respects_for_each sevol no_fuel_out (decom_one arch) l decom_one_evol s1) as [HR HE].
  split; [|exact HE]. etrans; [|exact HR]. split; [|done|done|done]. cbn.
  assert (∀ t, at_default [] (<[time_of s := l]> (decom_queue_ (ti_ s))) t = at_default [] (decom_queue_ (ti_ s)) t) as Hl
    by (intros t; rewrite at_insert; destruct (decide _) as [<-|]; done).
  intros [Hn Ht]. split; [intros t; rewrite Hl; apply Hn|]. intros m t t'. rewrite !Hl. apply Ht.
Qed.

Context (debug : bool) (req_id : Z → ptr → string) (solve : M (ExchangeGraph F) F).
(** Archetypes that keep to the rules of an exchange, and a solver that terminates. *)
Record good_parts : Prop := {
  gp_matl : ops_evol (matl_ops arch);
  gp_product : ops_evol (product_ops arch);
  gp_solve : ∀ g, (solve g).1 ≠ Throw OutOfFuel
}.
Context (Hgood : good_parts).

Lemma exchange_evol o : ops_evol o → SR (exchange debug req_id solve o).
Proof using All.
  intros Ho. unfold exchange. apply respects_bind; [apply _|respect|]. intros s. apply on_sx_evol, Execute_evol.
  - by destruct Ho.
  - apply gp_solve, Hgood.
Qed.
Lemma DoResEx_evol : SR (DoResEx arch debug req_id solve).
Proof using All. destruct Hgood. unfold DoResEx. apply respects_bind; [apply _| |intros]; by apply exchange_evol. Qed.

Lemma phases_evol : SR (phases arch debug req_id solve).
Proof using All.
  pose proof DoBuild_evol. pose proof DoTick_evol. pose proof DoResEx_evol. pose proof DoTock_evol.
  pose proof DoDecom_evol. unfold phases. srespect.
Qed.

(** ** The main loop *)
Record mono s s' : Prop := {
  mo_time : (time_of s ≤ time_of s')%Z;
  mo_once : sched_once (decom_queue_ (ti_ s)) → sched_once (decom_queue_ (ti_ s'));
  mo_rows : recorded (sim_world s) `prefix_of` recorded (sim_world s');
  mo_si : timer_si (ti_ s') = timer_si (ti_ s);
  mo_builds : ∀ t, at_default [] (build_queue_ (ti_ s)) t `prefix_of` at_default [] (build_queue_ (ti_ s')) t
}.
#[export] Instance mono_preorder : PreOrder mono.
Proof.
  split.
  - by intros s.
  - intros s1 s2 s3 [? ? ? ? Hb1] [? ? ? ? Hb2]. split; [lia|by auto|by etrans|congruence|].
    intros t. etrans; [apply Hb1|apply Hb2].
Qed.
Lemma sevol_mono s s' : sevol s s' → mono s s' ∧ time_of s' = time_of s.
Proof. intros [? [? ?] ? ?]. unfold time_of in *. split; [split; unfold time_of; [lia|done..]|done]. Qed.

Local Abbreviation dur s := (duration (timer_si (ti_ s))).
Definition next_step s : Sim F P := set_sim_world (set_time (time_of s + 1)%Z (sim_world s)) s.
Lemma next_step_mono s : mono s (next_step s).
Proof. split; try done. change (time_of s ≤ time_of s + 1)%Z. lia. Qed.

Lemma time_step_cases s :
  (∃ e s1, phases arch debug req_id solve s = (Throw e, s1) ∧ e ≠ OutOfFuel ∧ sevol s s1 ∧
     time_step arch debug req_id solve s = (Throw e, s1)) ∨
  (∃ s1, phases arch debug req_id solve s = (Ret tt, s1) ∧ sevol s s1 ∧
     time_step arch debug req_id solve s = (Ret tt, next_step s1)).
Proof using All.
  unfold time_step. destruct (phases_evol s) as [HR HE].
  destruct (phases arch debug req_id solve s) as [[[]|e] s1] eqn:Hp; cbn in HR, HE.
  - right. exists s1. split_and!; [done|done|]. by rewrite (bind_ret _ _ _ _ _ Hp).
  - left. exists e, s1. split_and!; [done|by apply HE|done|]. by apply bind_throw.
Qed.

(** Either a phase throws, or the loop ends at the end of the simulation or when an
    agent has asked for it. *)
Lemma run_loop_spec fuel s :
  (Z.max 0 (dur s - time_of s) < Z.of_nat fuel)%Z →
  let r := run_loop arch debug req_id solve fuel s in
  mono s r.2 ∧ r.1 ≠ Throw OutOfFuel ∧
  (r.1 = Ret tt → (time_of r.2 ≤ Z.max (time_of s) (dur s))%Z ∧
     (want_kill_ (ti_ r.2) = false → time_of r.2 = Z.max (time_of s) (dur s))).
Proof using All.
  revert s. induction fuel as [|fuel IH]; intros s Hf; [lia|].
  unfold run_loop. fold (run_loop arch debug req_id solve). rewrite (bind_ret get _ _ _ _ eq_refl).
  destruct (time_of s <? dur s)%Z eqn:Hlt; [|cbn; split_and!; [done|done|intros _; split; intros; lia]].
  destruct (time_step_cases s) as [(e & s1 & _ & He & Hev & Hstep)|(s1 & _ & Hev & Hstep)].
  - rewrite (bind_throw _ _ _ _ _ Hstep). cbn. apply sevol_mono in Hev as [Hm _]. split_and!; [done|congruence|done].
  - apply sevol_mono in Hev as [Hm Ht]. pose proof (next_step_mono s1) as Hn.
    rewrite (bind_ret _ _ _ _ _ Hstep), (bind_ret get _ _ _ _ eq_refl).
    assert (time_of (next_step s1) = time_of s + 1)%Z as Ht1 by (rewrite <-Ht; done).
    assert (dur (next_step s1) = dur s) as Hd by (by rewrite <-(mo_si _ _ Hm)).
    destruct (want_kill_ (ti_ (next_step s1))) eqn:Hk.
    + unfold mret, M_ret, m_ret. cbn [fst snd]. split_and!; [by etrans|done|]. intros _. split; [lia|congruence].
    + destruct (IH (next_step s1)) as (Hm2 & Hne & Hret); [lia|]. split_and!; [by do 2 (etrans; [done|])|done|].
      intros Hr. specialize (Hret Hr). rewrite Ht1, Hd in Hret.
      replace (Z.max (time_of s) (dur s)) with (Z.max (time_of s + 1) (dur s)) by lia. done.
Qed.

(** ** Entries

    The rows that record that an agent entered at time [t]. *)
Definition entered_at (t : Z) (row : string * list (string * dval F)) : bool :=
  bool_decide (row.1 = "AgentEntry") &&
  existsb (λ kv, bool_decide (kv.1 = "EnterTime") && match kv.2 with DInt x => (x =? t)%Z | _ => false end) row.2.
Definition entries (t : Z) s : nat := length (filter (λ r, entered_at t r = true) (recorded (sim_world s))).

Lemma entries_mono t s s' : recorded (sim_world s) `prefix_of` recorded (sim_world s') → entries t s ≤ entries t s'.
Proof. intros [l Hl]. unfold entries. rewrite Hl, filter_app, length_app. lia. Qed.

Definition lkeep s s' : Prop := set_lifetime 0 <$> agents s' = set_lifetime 0 <$> agents s.
#[local] Instance lkeep_preorder : PreOrder lkeep.
Proof. split; [done|]. unfold lkeep. intros s1 s2 s3 ? ?. congruence. Qed.
Lemma akeep_lkeep {A} (c : M (Sim F P) A) : respects akeep any_exn c → respects lkeep any_exn c.
Proof. apply respects_mono; [|done]. unfold akeep, lkeep, frame. intros. congruence. Qed.
Lemma EnterNotify_lkeep p : respects lkeep any_exn (EnterNotify arch p).
Proof.
  pose proof (akeep_lkeep _ (run_calls_keep (on_enter arch p))). pose proof (akeep_lkeep _ (RegisterAgent_keep p)).
  pose proof (akeep_lkeep _ (agent_at_keep p)). unfold EnterNotify, RegisterTrader, RegisterTimeListener. respect.
Qed.

Lemma record_rows t v s : ∃ s', record t v s = (Ret tt, s') ∧ recorded (sim_world s') = recorded (sim_world s) ++ [(t, v)].
Proof. by eexists. Qed.

Lemma AddToTable_entry p s s' :
  AddToTable p s = (Ret tt, s') → ∃ a, agents s !! p = Some a ∧ entries (enter_time_ a) s' = S (entries (enter_time_ a) s).
Proof.
  unfold AddToTable. intros (a & s1 & Ha & Hrec)%bind_inv.
  destruct (agents s !! p) as [b|] eqn:Hp; [|by rewrite (agent_at_None p s Hp) in Ha].
  rewrite (agent_at_Some p s b Hp) in Ha. injection Ha as -> <-. exists a. split; [done|].
  match type of Hrec with record ?t ?v s = _ => destruct (record_rows t v s) as (s2 & Hr & Hrows) end.
  rewrite Hr in Hrec. injection Hrec as ->. unfold entries.
  rewrite Hrows, filter_app, length_app, filter_cons_True, filter_nil; [cbn; lia|].
  unfold entered_at. cbn. by rewrite Z.eqb_refl.
Qed.

Lemma sevol_step {A} (c : M (Sim F P) A) s a s' :
  SR c → c s = (Ret a, s') → time_of s' = time_of s ∧ ∀ t, entries t s ≤ entries t s'.
Proof.
  intros Hc Hrun. pose proof (Hc s) as [HR _]. rewrite Hrun in HR. apply sevol_mono in HR as [Hm Ht].
  split; [exact Ht|]. intros t. apply entries_mono, Hm.
Qed.

Lemma Build_entry p q s s' : Build arch p q s = (Ret tt, s') → S (entries (time_of s) s) ≤ entries (time_of s) s'.
Proof.
  intros HB. unfold Build in HB.
  apply bind_inv in HB as ([] & s1 & Hc & HB). apply bind_inv in HB as (t & s2 & Ht & HB).
  injection Ht as <- <-. apply bind_inv in HB as ([] & s3 & Hm & HB). apply bind_inv in HB as ([] & s4 & He & Hadd).
  apply sevol_step in Hc as [T1 N1]; [|unfold Connect; srespect].
  pose proof (sevol_step _ _ _ _ (modify_agent_evol p _) Hm) as [T3 N3].
  pose proof He as [_ N4]%sevol_step; [|unfold EnterNotify, RegisterAgent, RegisterTrader, RegisterTimeListener; srespect].
  pose proof (EnterNotify_lkeep p s3) as [HL _]. rewrite He in HL. apply (f_equal (lookup p)) in HL.
  cbn [snd] in HL. rewrite !lookup_fmap in HL.
  destruct (agents s1 !! p) as [a|] eqn:Hp; [|by unfold modify_agent in Hm; rewrite (bind_throw _ _ _ _ _ (agent_at_None p s1 Hp)) in Hm].
  rewrite (modify_agent_at p _ s1 a Hp) in Hm. injection Hm as <-.
  apply AddToTable_entry in Hadd as (b & Hb & Hn). rewrite Hb in HL. cbn [agents set_agents] in HL.
  rewrite lookup_insert_eq in HL. injection HL as _ _ _ _ _ _ _ HL _. rewrite HL, T1 in Hn.
  specialize (N1 (time_of s)). specialize (N3 (time_of s)). specialize (N4 (time_of s)). lia.
Qed.

Lemma build_one_entry b s s' :
  build_one arch b s = (Ret tt, s') → time_of s' = time_of s ∧ S (entries (time_of s) s) ≤ entries (time_of s) s'.
Proof.
  intros HB. pose proof (sevol_step _ _ _ _ (build_one_evol b) HB) as [HT _]. split; [done|].
  unfold build_one in HB. apply bind_inv in HB as (m & s1 & Hc & HB). apply bind_inv in HB as ([] & s2 & Hb & HB).
  apply sevol_step in Hc as [T1 N1]; [|apply CreateAgent_evol]. apply Build_entry in Hb. rewrite T1 in Hb.
  apply sevol_step in HB as [_ N2]; [|destruct (b.2); respect].
  specialize (N1 (time_of s)). specialize (N2 (time_of s)). lia.
Qed.

Lemma builds_entries l s s' :
  for_each (build_one arch) l s = (Ret tt, s') → length l + entries (time_of s) s ≤ entries (time_of s) s'.
Proof.
  revert s. induction l as [|b l IH]; intros s HB; [injection HB as <-; cbn; lia|].
  cbn [for_each] in HB. apply bind_inv in HB as ([] & s1 & Hb & Hl). apply build_one_entry in Hb as [HT Hn].
  apply IH in Hl. rewrite HT in Hl. cbn [length]. lia.
Qed.

(** Every build that is due is recorded by the time the step ends. *)
Lemma phases_entries s s' :
  phases arch debug req_id solve s = (Ret tt, s') →
  length (at_default [] (build_queue_ (ti_ s)) (time_of s)) + entries (time_of s) s ≤ entries (time_of s) s'.
Proof using All.
  intros HP. unfold phases in HP. apply bind_inv in HP as (s0 & ? & Hg & HP). injection Hg as <- <-.
  apply bind_inv in HP as ([] & s1 & Hsn & HP). apply bind_inv in HP as ([] & s2 & Hb & HP).
  assert (SR (if want_snapshot_ (ti_ s) then modify_ti (set_want_snapshot false);; Snapshot arch else mret tt)) as Hr
    by srespect.
  pose proof (Hr s) as [E1 _]. rewrite Hsn in E1. pose proof (se_builds _ _ E1 (time_of s)) as Hpre.
  apply sevol_step in Hsn as [T1 N1]; [|exact Hr].
  set (l := at_default [] (build_queue_ (ti_ s1)) (time_of s1)) in *.
  change (DoBuild arch s1) with (for_each (build_one arch) l
    (set_ti (set_build_queue (<[time_of s1 := l]> (build_queue_ (ti_ s1))) (ti_ s1)) s1)) in Hb.
  apply builds_entries in Hb. 
  apply sevol_step in HP as [_ N2].
  2: { pose proof DoTick_evol. pose proof DoResEx_evol. pose proof DoTock_evol. pose proof DoDecom_evol. srespect. }
  apply prefix_length in Hpre. specialize (N1 (time_of s)). specialize (N2 (time_of s)).
  change (time_of (set_ti _ s1)) with (time_of s1) in Hb. unfold l in *. rewrite T1 in *.
  change (entries (time_of s) (set_ti _ s1)) with (entries (time_of s) s1) in Hb. cbn [snd] in Hpre. lia.
Qed.

(** A build scheduled in the interval that is run is made. *)
Lemma run_loop_entries fuel t s s' :
  (Z.max 0 (dur s - time_of s) < Z.of_nat fuel)%Z →
  run_loop arch debug req_id solve fuel s = (Ret tt, s') →
  (time_of s ≤ t < time_of s')%Z →
  length (at_default [] (build_queue_ (ti_ s)) t) + entries t s ≤ entries t s'.
Proof using All.
  revert s. induction fuel as [|fuel IH]; intros s Hf HL Ht; [done|].
  unfold run_loop in HL. fold (run_loop arch debug req_id solve) in HL. rewrite (bind_ret get _ _ _ _ eq_refl) in HL.
  destruct (time_of s <? dur s)%Z eqn:Hlt; [|injection HL as <-; lia].
  destruct (time_step_cases s) as [(e & s1 & _ & He & Hev & Hstep)|(s1 & Hph & Hev & Hstep)];
    [by rewrite (bind_throw _ _ _ _ _ Hstep) in HL|].
  rewrite (bind_ret _ _ _ _ _ Hstep), (bind_ret get _ _ _ _ eq_refl) in HL.
  pose proof (sevol_mono _ _ Hev) as [Hm HT]. pose proof (mo_builds _ _ Hm t) as Hpre%prefix_length.
  assert (time_of (next_step s1) = time_of s + 1)%Z as HT1 by (rewrite <-HT; done).
  assert (dur (next_step s1) = dur s) as Hd by (by rewrite <-(mo_si _ _ Hm)).
  destruct (decide (t = time_of s)) as [->|Hne].
  - apply phases_entries in Hph. etrans; [exact Hph|]. apply (entries_mono _ (next_step s1)).
    destruct (want_kill_ (ti_ (next_step s1))); [by injection HL as <-|].
    destruct (run_loop_spec fuel (next_step s1)) as [Hm2 _]; [lia|]. rewrite HL in Hm2. apply Hm2.
  - assert (entries t s ≤ entries t (next_step s1)) as Hle by apply entries_mono, Hm.
    destruct (want_kill_ (ti_ (next_step s1))); [injection HL as <-; lia|].
    apply IH in HL; [|lia|lia]. change (ti_ (next_step s1)) with (ti_ s1) in HL. lia.
Qed.
End evolution.
