(* ===== verification/SimLemmas.v ===== *)
(** * Lemmas on simulations

    How a run ends, the counts of the context, and the retirement of agents. *)

From Stdlib Require Import QArith ZArith Lia String.
From stdpp Require Import base list gmap strings sorting relations.
From S2P Require Import Prelude Respects Num Arithmetic AgentSpec CompMath Resource Material ExchangeGraph Portfolio Translator ExchangeManager Sim SimRun AgentTree AgentTheory Family Evolution SimTheory.

Section lemmas.
Context {F P : Type} `{Num F} `{Limits F} `{Pyne F} `{FloatDistance F}.
Implicit Types s : Sim F P.

(** A snapshot leaves the timer alone. *)
Definition tkeep s s' : Prop := ti_ s' = ti_ s.
#[local] Instance tkeep_preorder : PreOrder tkeep.
Proof. split; [done|]. unfold tkeep. intros s1 s2 s3 ? ?. congruence. Qed.
Lemma Snapshot_tkeep (arch : Archetypes F P) : respects tkeep any_exn (Snapshot arch).
Proof.
  assert (∀ A (c : M (World F) A), respects tkeep any_exn (on_sworld c)) as Hw by (intros; by apply zoom_any).
  assert (∀ t v, respects tkeep any_exn (record t v)) as Hr by (intros; apply Hw).
  unfold Snapshot, SnapAgent, agent_Snapshot, snap_inventory, snap_next_id, db_datum, agent_at, now. respect.
Qed.

Lemma RunSim_inv (arch : Archetypes F P) debug req_id solve s :
  let fuel := S (Z.to_nat (duration (timer_si (ti_ s)) - time_of s)) in
  good_parts arch solve →
  (∃ e s', e ≠ OutOfFuel ∧ RunSim arch debug req_id solve s = (Throw e, s') ∧ mono s s') ∨
  (∃ s1 s2 s', run_loop arch debug req_id solve fuel s = (Ret tt, s1) ∧
     record "Finish" [("EarlyTerm", dbool (want_kill_ (ti_ s1))); ("EndTime", DInt (time_of s1 - 1))] s1 = (Ret tt, s2) ∧
     sevol s2 s' ∧ mono s s1 ∧ ti_ s' = ti_ s1 ∧
     RunSim arch debug req_id solve s = (Ret tt, s')).
Proof.
  intros fuel Hg. 
  destruct (run_loop_spec arch debug req_id solve Hg fuel s) as (Hm & Hne & _); [unfold fuel; lia|].
  unfold RunSim. rewrite (bind_ret get _ _ _ _ eq_refl). fold fuel.
  destruct (run_loop arch debug req_id solve fuel s) as [[[]|e] s1] eqn:Hl; cbn [fst snd] in *.
  - rewrite (bind_ret _ _ _ _ _ Hl), (bind_ret get _ _ _ _ eq_refl).
    destruct (record_rows "Finish" [("EarlyTerm", dbool (want_kill_ (ti_ s1))); ("EndTime", DInt (time_of s1 - 1))] s1)
      as (s2 & Hr & _).
    pose proof (record_evol "Finish" [("EarlyTerm", dbool (want_kill_ (ti_ s1))); ("EndTime", DInt (time_of s1 - 1))] s1) as [Hev _].
    rewrite Hr in Hev. rewrite (bind_ret _ _ _ _ _ Hr). pose proof (Snapshot_evol arch s2) as [HR HE].
    destruct (Snapshot arch s2) as [[[]|e] s'] eqn:Hs; cbn [fst snd] in *.
    + right. exists s1, s2, s'. split_and!; try done.
      pose proof (Snapshot_tkeep arch s2) as [Ht _]. rewrite Hs in Ht. cbn in Ht. rewrite Ht. by injection Hr as <-.
    + left. exists e, s'. split_and!; [by apply HE|done|]. etrans; [done|]. etrans; by apply sevol_mono.
  - left. exists e, s1. split_and!; [congruence|by apply bind_throw|done].
Qed.

(** ** The counts of the context *)
Definition counts s : gmap string Z * gmap string Z := (n_prototypes_ (cx_ s), n_specs_ (cx_ s)).
Definition ckeep s s' : Prop := counts s' = counts s.
#[local] Instance ckeep_preorder : PreOrder ckeep.
Proof. split; [done|]. unfold ckeep. intros s1 s2 s3 ? ?. congruence. Qed.
Local Abbreviation CR := (respects ckeep any_exn).
Lemma on_sworld_ckeep {A} (c : M (World F) A) : CR (on_sworld c).
Proof. by apply zoom_any. Qed.
Lemma modify_ti_ckeep f : CR (modify_ti f).
Proof. by apply respects_modify. Qed.
Lemma modify_cx_ckeep f : (∀ c, n_prototypes_ (f c) = n_prototypes_ c ∧ n_specs_ (f c) = n_specs_ c) → CR (modify_cx f).
Proof.
  intros Hf. apply respects_modify. intros s. unfold ckeep, counts. cbn. by destruct (Hf (cx_ s)) as [-> ->].
Qed.
#[local] Hint Extern 1 (CR (modify_cx _)) => (apply modify_cx_ckeep; done) : respects.
Lemma agent_at_ckeep p : CR (agent_at p).
Proof. unfold agent_at. respect. Qed.
#[local] Hint Resolve on_sworld_ckeep modify_ti_ckeep agent_at_ckeep : respects.
Lemma modify_agent_ckeep p f : CR (modify_agent p f).
Proof. unfold modify_agent. respect. Qed.
Lemma record_ckeep t v : CR (record t v).
Proof. apply on_sworld_ckeep. Qed.
Lemma now_ckeep : CR now.
Proof. unfold now. respect. Qed.
#[local] Hint Resolve modify_agent_ckeep record_ckeep now_ckeep : respects.
Lemma run_calls_ckeep f : CR (run_calls f).
Proof.
  unfold run_calls. respect. unfold run_api, SchedBuild, timer_SchedBuild, SchedDecom, timer_SchedDecom, RegisterTrader,
    UnregisterTrader, set_agent_lifetime. respect.
Qed.
Lemma DelAgent_ckeep m : CR (DelAgent m).
Proof. unfold DelAgent, delete_agent. respect. Qed.

(** What an agent is. *)
Definition who (a : Agent) : AgentClass * string * string := (a_class a, prototype_ a, spec_ a).
Definition wkeep s s' : Prop := who <$> agents s' = who <$> agents s.
#[local] Instance wkeep_preorder : PreOrder wkeep.
Proof. split; [done|]. unfold wkeep. intros s1 s2 s3 ? ?. congruence. Qed.
Local Abbreviation WR := (respects wkeep any_exn).
Lemma akeep_wkeep {A} (c : M (Sim F P) A) : respects akeep any_exn c → WR c.
Proof.
  apply respects_mono; [|done]. unfold akeep, frame, wkeep. intros s s' Hk. injection Hk as Hk _ _ _ _.
  apply (f_equal (fmap who)) in Hk. by rewrite <-!map_fmap_compose in Hk.
Qed.
Lemma modify_agent_wkeep p f : (∀ a, who (f a) = who a) → WR (modify_agent p f).
Proof.
  intros Hf s. unfold modify_agent, agent_at, mbind, M_bind, m_bind. cbn.
  destruct (agents s !! p) as [b|] eqn:Hp; cbn; (split; [|intros ? _; exact I]); [|reflexivity].
  unfold wkeep. cbn. by rewrite (alter_frame who f _ p b Hp).
Qed.
#[local] Hint Extern 1 (WR (modify_agent _ _)) => (apply modify_agent_wkeep; done) : respects.
Lemma agent_at_wkeep p : WR (agent_at p).
Proof. apply akeep_wkeep, agent_at_keep. Qed.
#[local] Hint Resolve agent_at_wkeep : respects.
Lemma wkeep_at s s' p a : wkeep s s' → agents s !! p = Some a → ∃ b, agents s' !! p = Some b ∧ who b = who a.
Proof.
  intros Hk Hp. apply (f_equal (lookup p)) in Hk. rewrite !lookup_fmap, Hp in Hk.
  destruct (agents s' !! p) as [b|]; [|done]. exists b. split; [done|]. cbn in Hk. congruence.
Qed.
Lemma run_inv {A} (c : M (Sim F P) A) R s a s' : respects R any_exn c → c s = (Ret a, s') → R s s'.
Proof. intros Hc Hrun. pose proof (Hc s) as [HR _]. by rewrite Hrun in HR. Qed.
Lemma agent_at_inv p s a s' : agent_at p s = (Ret a, s') → agents s !! p = Some a ∧ s' = s.
Proof.
  destruct (agents s !! p) as [b|] eqn:Hp; [rewrite (agent_at_Some p s b Hp); by intros [= -> ->]|].
  by rewrite (agent_at_None p s Hp).
Qed.

(** The agents that [EnterNotify] counts. *)
Definition counted (c : AgentClass) : bool := match c with AFacility | AOther => true | _ => false end.
Definition count_agent (d : Z) (a : Agent) (n : gmap string Z * gmap string Z) : gmap string Z * gmap string Z :=
  (count_by d (prototype_ a) n.1, count_by d (spec_ a) n.2).
Lemma count_agent_who d a b n : who b = who a → count_agent d b n = count_agent d a n.
Proof. unfold who, count_agent. by intros [= _ -> ->]. Qed.
Lemma RegisterAgent_counts p s a s' :
  agents s !! p = Some a → RegisterAgent p s = (Ret tt, s') → counts s' = count_agent 1 a (counts s).
Proof.
  intros Hp Hr. unfold RegisterAgent in Hr. rewrite (bind_ret _ _ _ _ _ (agent_at_Some p s a Hp)) in Hr.
  by injection Hr as <-.
Qed.
Lemma UnregisterAgent_counts p s a s' :
  agents s !! p = Some a → UnregisterAgent p s = (Ret tt, s') → counts s' = count_agent (-1) a (counts s).
Proof.
  intros Hp Hr. unfold UnregisterAgent in Hr. rewrite (bind_ret _ _ _ _ _ (agent_at_Some p s a Hp)) in Hr.
  by injection Hr as <-.
Qed.

Context (arch : Archetypes F P).
Lemma EnterNotify_counts p s a s' :
  agents s !! p = Some a → EnterNotify arch p s = (Ret tt, s') →
  counts s' = if counted (a_class a) then count_agent 1 a (counts s) else counts s.
Proof.
  intros Hp HE. unfold EnterNotify in HE. rewrite (bind_ret _ _ _ _ _ (agent_at_Some p s a Hp)) in HE.
  apply bind_inv in HE as ([] & s1 & HE & Hc). apply (run_inv _ ckeep) in Hc; [|apply run_calls_ckeep].
  rewrite Hc. destruct (a_class a); cbn [counted].
  - apply bind_inv in HE as ([] & s2 & Hr & HE). apply (run_inv _ ckeep) in HE; [|unfold RegisterTrader, RegisterTimeListener; respect].
    rewrite HE. by apply (RegisterAgent_counts p).
  - apply (run_inv _ ckeep) in HE; [done|unfold RegisterTimeListener; respect].
  - apply (run_inv _ ckeep) in HE; [done|unfold RegisterTimeListener; respect].
  - by apply (RegisterAgent_counts p).
Qed.
Lemma Connect_wkeep p q : WR (Connect p q).
Proof. unfold Connect. respect. Qed.
Lemma EnterNotify_wkeep p : WR (EnterNotify arch p).
Proof.
  pose proof (akeep_wkeep _ (run_calls_keep (on_enter arch p))). pose proof (akeep_wkeep _ (RegisterAgent_keep p)).
  unfold EnterNotify, RegisterTrader, RegisterTimeListener. respect.
Qed.
Lemma Build_counts p q s a s' :
  agents s !! p = Some a → Build arch p q s = (Ret tt, s') →
  wkeep s s' ∧ counts s' = if counted (a_class a) then count_agent 1 a (counts s) else counts s.
Proof.
  intros Hp HB. unfold Build in HB.
  apply bind_inv in HB as ([] & s1 & Hc & HB). apply bind_inv in HB as (t & s2 & Ht & HB). injection Ht as <- <-.
  apply bind_inv in HB as ([] & s3 & Hm & HB). apply bind_inv in HB as ([] & s4 & He & Ha).
  assert (wkeep s s3) as W.
  { etrans; [by apply (run_inv _ wkeep) in Hc; [|apply Connect_wkeep]|].
    apply (run_inv _ wkeep) in Hm; [done|by apply modify_agent_wkeep]. }
  assert (ckeep s s3) as C.
  { etrans; [apply (run_inv _ ckeep) in Hc; [exact Hc|unfold Connect; respect]|].
    apply (run_inv _ ckeep) in Hm; [done|apply modify_agent_ckeep]. }
  pose proof (wkeep_at _ _ _ _ W Hp) as (b & Hb & Hw). pose proof (EnterNotify_counts p s3 b s4 Hb He) as Hn.
  apply (run_inv _ wkeep) in He; [|apply EnterNotify_wkeep].
  pose proof Ha as Ha1. apply (run_inv _ wkeep) in Ha; [|apply akeep_wkeep, AddToTable_keep].
  apply (run_inv _ ckeep) in Ha1; [|unfold AddToTable; respect]. split; [by do 2 (etrans; [done|])|].
  rewrite Ha1, Hn, (count_agent_who 1 a b) by done. injection Hw as -> _ _. by rewrite C.
Qed.
Lemma agent_Decommission_counts p s a s' :
  agents s !! p = Some a → agent_Decommission p s = (Ret tt, s') → counts s' = count_agent (-1) a (counts s).
Proof.
  intros Hp HD. unfold agent_Decommission in HD. rewrite (bind_ret _ _ _ _ _ (agent_at_Some p s a Hp)) in HD.
  apply bind_inv in HD as (t & s1 & Ht & HD). injection Ht as <- <-.
  apply bind_inv in HD as ([] & s2 & Hr & HD). injection Hr as <-.
  apply bind_inv in HD as ([] & s3 & Hu & HD). apply (UnregisterAgent_counts p _ a) in Hu; [|done].
  apply (run_inv _ ckeep) in HD; [|apply DelAgent_ckeep]. by rewrite HD, Hu.
Qed.
Lemma Decommission_counts p s a s' :
  agents s !! p = Some a → Decommission arch p s = (Ret tt, s') → counts s' = count_agent (-1) a (counts s).
Proof.
  intros Hp HD. unfold Decommission in HD. rewrite (bind_ret _ _ _ _ _ (agent_at_Some p s a Hp)) in HD.
  assert (∀ s0 s1, agents s0 = agents s → (UnregisterTimeListener p;; agent_Decommission p) s0 = (Ret tt, s1) →
    counts s1 = count_agent (-1) a (counts s0)) as HU.
  { intros s0 s1 E HU. rewrite <-E in Hp. apply bind_inv in HU as ([] & s2 & Hu & HU).
    unfold UnregisterTimeListener in Hu. rewrite (bind_ret _ _ _ _ _ (agent_at_Some p s0 a Hp)) in Hu.
    injection Hu as <-. by apply (agent_Decommission_counts p _ a) in HU. }
  destruct (a_class a); [|by apply HU|by apply HU|by apply (agent_Decommission_counts p)].
  rewrite (bind_ret get _ _ _ _ eq_refl) in HD. apply bind_inv in HD as ([] & s1 & Hr & HD).
  destruct (check_decommission arch p s); [|done]. injection Hr as <-.
  apply bind_inv in HD as ([] & s2 & Hr & HD). injection Hr as <-. by apply HU in HD.
Qed.

(** ** Retirement *)

(** Whether [Institution::Tock] schedules the decommission of a child. *)
Definition due s (c : ptr) : bool :=
  match agents s !! c with
  | Some a => negb (lifetime_ a =? -1)%Z && (enter_time_ a + lifetime_ a - 1 <=? time_of s)%Z &&
      match a_class a with AFacility => check_decommission arch c s | _ => true end
  | None => false
  end.

(** A rescheduled queue: the agents of [X] at time [t]. *)
Definition moved (X : ptr → Prop) (t : Z) (q q' : gmap Z (list ptr)) : Prop :=
  ∀ x t', x ∈ at_default [] q' t' ↔ (X x ∧ t' = t) ∨ (¬ X x ∧ x ∈ at_default [] q t').

Lemma moved_trans (X Y Z : ptr → Prop) `{∀ x, Decision (Y x)} t q q1 q2 :
  moved X t q q1 → moved Y t q1 q2 → (∀ x, Z x ↔ X x ∨ Y x) → moved Z t q q2.
Proof. intros HX HY HZ x t'. rewrite (HY x t'), (HX x t'), HZ. destruct (decide (Y x)); tauto. Qed.
Lemma moved_ext (X Y : ptr → Prop) t q q' : moved X t q q' → (∀ x, X x ↔ Y x) → moved Y t q q'.
Proof. intros Hm HX x t'. by rewrite (Hm x t'), HX. Qed.

Lemma SchedDecom_runs m t s a :
  let t0 := if (t =? -1)%Z then time_of s else t in
  agents s !! m = Some a → (time_of s ≤ t0)%Z → sched_once (decom_queue_ (ti_ s)) →
  ∃ s', SchedDecom m t s = (Ret tt, s') ∧ agents s' = agents s ∧ privs s' = privs s ∧ time_of s' = time_of s ∧
    sched_once (decom_queue_ (ti_ s')) ∧ moved (eq m) t0 (decom_queue_ (ti_ s)) (decom_queue_ (ti_ s')).
Proof.
  intros t0 Hm Ht Hq. destruct (resched_spec m t0 (decom_queue_ (ti_ s)) Hq) as [Hq' Hin].
  set (q' := <[t0 := _]> _) in *. set (s1 := set_ti (set_decom_queue q' (ti_ s)) s).
  assert (timer_SchedDecom m t0 s = (Ret tt, s1)) as Hrun.
  { unfold timer_SchedDecom. rewrite (bind_ret now _ _ _ _ eq_refl).
    rewrite (bind_ret (require (negb (t0 <? time_of s)%Z) ValueError) _ s tt s); [done|].
    destruct (Z.ltb_spec t0 (time_of s)); [lia|done]. }
  destruct (record_rows "DecomSchedule" [("AgentId", DInt (a_id a)); ("SchedTime", DInt (time_of s)); ("DecomTime", DInt t0)] s1)
    as (s2 & Hr & _).
  exists s2. unfold SchedDecom. rewrite (bind_ret now _ _ _ _ eq_refl). fold t0.
  rewrite (bind_ret _ _ _ _ _ Hrun), (bind_ret _ _ _ _ _ (agent_at_Some m s1 a Hm)), Hr.
  injection Hr as <-. split_and!; try done.
  intros x t'. change (decom_queue_ _) with q' at 1. rewrite Hin. intuition congruence.
Qed.

(** What one child needs for [Tock] to go on: it is alive, its exit time is an [int],
    and its condition for leaving depends on the agents' own data only. *)
Definition retirable s (c : ptr) : Prop :=
  (∃ a, agents s !! c = Some a ∧ in_int (enter_time_ a + lifetime_ a) && in_int (enter_time_ a + lifetime_ a - 1) = true) ∧
  ∀ s', agents s' = agents s → privs s' = privs s → check_decommission arch c s' = check_decommission arch c s.
Lemma due_same s s' c :
  retirable s c → agents s' = agents s → privs s' = privs s → time_of s' = time_of s → due s' c = due s c.
Proof. intros [_ Hc] Ea Ep Et. unfold due. by rewrite Ea, Et, Hc. Qed.
Lemma retirable_same s s' c : retirable s c → agents s' = agents s → privs s' = privs s → retirable s' c.
Proof.
  intros [Ha Hc] Ea Ep. split; [by rewrite Ea|]. intros s2 Ea2 Ep2. rewrite (Hc s2), (Hc s') by congruence. done.
Qed.

Lemma retire_child_runs c s :
  retirable s c → sched_once (decom_queue_ (ti_ s)) →
  ∃ s', retire_child arch c s = (Ret tt, s') ∧ agents s' = agents s ∧ privs s' = privs s ∧ time_of s' = time_of s ∧
    sched_once (decom_queue_ (ti_ s')) ∧
    moved (λ x, x = c ∧ due s c = true) (time_of s) (decom_queue_ (ti_ s)) (decom_queue_ (ti_ s')).
Proof.
  intros [(a & Ha & Hi) _] Hq. unfold retire_child. rewrite (bind_ret _ _ _ _ _ (agent_at_Some c s a Ha)).
  assert (due s c = negb (lifetime_ a =? -1)%Z && (enter_time_ a + lifetime_ a - 1 <=? time_of s)%Z &&
    match a_class a with AFacility => check_decommission arch c s | _ => true end) as Hdue by (unfold due; by rewrite Ha).
  assert (due s c = false → moved (λ x, x = c ∧ due s c = true) (time_of s) (decom_queue_ (ti_ s)) (decom_queue_ (ti_ s))) as Hno.
  { intros E x t'. rewrite E. intuition congruence. }
  destruct (lifetime_ a =? -1)%Z eqn:Hl; [exists s; split_and!; try done; by apply Hno|].
  rewrite (bind_ret now _ _ _ _ eq_refl). rewrite (bind_ret (exit_time a) _ s (enter_time_ a + lifetime_ a - 1)%Z s).
  2: { unfold exit_time. rewrite Hl. by rewrite (bind_ret (require _ Undefined) _ s tt s) by (by rewrite Hi). }
  destruct (enter_time_ a + lifetime_ a - 1 <=? time_of s)%Z; [|exists s; split_and!; try done; by apply Hno].
  rewrite (bind_ret get _ _ _ _ eq_refl).
  destruct (match a_class a with AFacility => check_decommission arch c s | _ => true end);
    [|exists s; split_and!; try done; by apply Hno].
  destruct (SchedDecom_runs c (-1) s a Ha) as (s' & Hrun & ? & ? & ? & ? & Hmv); [cbn; lia|done|].
  exists s'. split_and!; try done. eapply moved_ext; [exact Hmv|]. intros x. rewrite Hdue. cbn. naive_solver.
Qed.

Lemma retire_children_run l s :
  (∀ c, c ∈ l → retirable s c) → sched_once (decom_queue_ (ti_ s)) →
  ∃ s', for_each (retire_child arch) l s = (Ret tt, s') ∧ agents s' = agents s ∧ privs s' = privs s ∧
    time_of s' = time_of s ∧ sched_once (decom_queue_ (ti_ s')) ∧
    moved (λ x, x ∈ l ∧ due s x = true) (time_of s) (decom_queue_ (ti_ s)) (decom_queue_ (ti_ s')).
Proof.
  revert s. induction l as [|c l IH]; intros s Hl Hq.
  { exists s. split_and!; try done. intros x t'. set_solver. }
  destruct (retire_child_runs c s) as (s1 & Hrun & Ea & Ep & Et & Hq1 & Hm1); [apply Hl; by left|done|].
  destruct (IH s1) as (s2 & Hrun2 & Ea2 & Ep2 & Et2 & Hq2 & Hm2).
  { intros d Hd. apply (retirable_same s); [apply Hl; by right|done|done]. }
  { done. }
  exists s2. split_and!; [|congruence|congruence|congruence|done|].
  - by rewrite (for_each_cons (retire_child arch) c l s s1 Hrun).
  - rewrite Et in Hm2. apply (moved_trans _ _ _ _ _ _ _ Hm1 Hm2). intros x. rewrite elem_of_cons. cbn.
    assert (x ∈ l → due s1 x = due s x) as Hd by (intros Hx; apply due_same; try done; apply Hl; by right).
    split; [intros [[->|Hx] ?]; [by left|right; by rewrite Hd]|].
    intros [[-> ?]|[Hx ?]]; [by auto|]. split; [by right|by rewrite <-Hd].
Qed.

(** ** Rows *)
Lemma option_run {A} e (x : A) s : from_option_or e (Some x) s = (Ret x, s).
Proof. done. Qed.
Ltac step_record :=
  match goal with |- context [(record ?t ?v ≫= _) ?st] =>
    let s' := fresh "s" in let Hr := fresh "Hr" in let Hrows := fresh "Hrows" in
    destruct (record_rows t v st) as (s' & Hr & Hrows); rewrite (bind_ret _ _ _ _ _ Hr); clear Hr end.

(** The rows that [InitSim] records. *)
Definition info_rows (versions : list (string * dval F)) (xmlpp : string) (si : SimInfo F) (e er : F) :
    list (string * list (string * dval F)) :=
  [("Info", [("Handle", DStr (handle si)); ("InitialYear", DInt (y0 si)); ("InitialMonth", DInt (m0 si));
     ("Duration", DInt (duration si)); ("ParentSimId", DInt (parent_sim si));
     ("ParentType", DStr (parent_type si)); ("BranchTime", DInt (branch_time si))] ++ versions);
   ("DecayMode", [("Decay", DStr (si_decay si))]);
   ("InfoExplicitInv", [("RecordInventory", dbool (explicit_inventory si));
     ("RecordInventoryCompact", dbool (explicit_inventory_compact si))]);
   ("TimeStepDur", [("DurationSecs", DInt (to_int (dt si)))]);
   ("Epsilon", [("GenericEpsilon", DDbl e); ("ResourceEpsilon", DDbl er)]);
   ("XMLPPInfo", [("LibXMLPlusPlusVersion", DStr xmlpp)])].

(** [InitSim] up to [Initialize] *)
Lemma InitSim_run versions xmlpp (si : SimInfo F) s e er :
  si_eps si = Some e → si_eps_rsrc si = Some er →
  ∃ s1, InitSim versions xmlpp si s = Initialize si s1 ∧ ctx_dt (sim_world s1) = dt si ∧
    recorded (sim_world s1) = recorded (sim_world s) ++ info_rows versions xmlpp si e er.
Proof.
  intros He Her. unfold InitSim. rewrite He, Her.
  do 4 step_record. rewrite !(bind_ret _ _ _ _ _ (option_run _ _ _)). do 2 step_record.
  exists (set_sim_world (set_decay_dt (decay_mode (si_decay si)) (dt si) (sim_world s5)) (set_cx (set_ctx_si si (cx_ s5)) s5)).
  split_and!; [done|done|].
  match goal with |- _ = ?l => change (recorded (sim_world s5) = l) end.
  rewrite Hrows4, Hrows3, Hrows2, Hrows1, Hrows0, Hrows, <-!app_assoc. reflexivity.
Qed.
Lemma Initialize_run (si : SimInfo F) s1 :
  (∃ s2, Initialize si s1 = (Ret tt, s2) ∧ (1 ≤ m0 si ≤ 12)%Z ∧
     time_of s2 = (if (-1 <? branch_time si)%Z then branch_time si else 0%Z) ∧
     timer_si (ti_ s2) = si ∧ ctx_dt (sim_world s2) = ctx_dt (sim_world s1) ∧
     recorded (sim_world s2) = recorded (sim_world s1)) ∨
  (Initialize si s1 = (Throw ValueError, s1) ∧ ¬ (1 ≤ m0 si ≤ 12)%Z).
Proof.
  unfold Initialize. destruct (decide (1 ≤ m0 si ≤ 12)%Z) as [Hm|Hm].
  - left. replace (negb _) with true by lia. rewrite (bind_ret (require true ValueError) _ s1 tt s1) by done.
    destruct Hm as [Hm1 Hm2]. destruct (-1 <? branch_time si)%Z; eexists; by split_and!.
  - right. replace (negb _) with false by lia. by rewrite (bind_throw (require false ValueError) _ s1 ValueError s1).
Qed.
End lemmas.
