(* ===== verification/RestartDb.v ===== *)
(** * Reading a simulation back

    The rows of one simulation in a database, and what the queries of [SimInit] find
    there. *)

From Stdlib Require Import QArith ZArith Lia.
From stdpp Require Import base list gmap strings sorting.
From S2P Require Import Prelude Respects Num Arithmetic AgentSpec CompMath Resource Material Query ExchangeGraph Portfolio Translator ExchangeManager Sim SimRun SimInit AgentTree AgentTheory Evolution SimTheory SimLemmas.

Section db.
Context {F : Type} `{Num F}.
Local Abbreviation row := (list (string * dval F)).
Local Abbreviation db := (list (string * row)).
Implicit Types (d rows : db) (r : row).

(** Every datum has the id of its simulation for its first value. *)
Definition of_sim (sid : Z) (tr : string * row) : string * row := (tr.1, ("SimId", DInt sid) :: tr.2).
Definition sim_cond (sid : Z) : Cond F := eq_cond "SimId" sid.

(** The rows of a simulation in a database that may have others. *)
Definition holds_sim d (sid : Z) rows : Prop :=
  filter (λ tr, cond_holds tr.2 (sim_cond sid) = true) d = of_sim sid <$> rows.

Lemma table_rows_cons t r d t' :
  table_rows ((t, r) :: d) t' = if decide (t = t') then r :: table_rows d t' else table_rows d t'.
Proof.
  unfold table_rows. destruct (decide (t = t')); [by rewrite filter_cons_True|by rewrite filter_cons_False].
Qed.

Lemma cond_of_sim sid r c : c_field c ≠ "SimId" → cond_holds (("SimId", DInt sid) :: r) c = cond_holds r c.
Proof. intros Hc. unfold cond_holds. cbn [field_of]. by rewrite decide_False. Qed.

Lemma cond_eq r f z : field_of f r = Some (DInt z) → cond_holds r (eq_cond f z) = true.
Proof. intros Hf. unfold cond_holds. cbn [c_field eq_cond]. rewrite Hf. cbn. by rewrite Z.eqb_refl. Qed.

Lemma matching_sim d sid rows t conds :
  holds_sim d sid rows → Forall (λ c, c_field c ≠ "SimId") conds →
  matching d t (conds ++ [sim_cond sid]) = cons ("SimId", DInt sid) <$> matching rows t conds.
Proof.
  intros Hd Hc. unfold holds_sim in Hd.
  trans (filter (λ r, forallb (cond_holds r) conds = true)
    (filter (λ tr, tr.1 = t) (filter (λ tr, cond_holds tr.2 (sim_cond sid) = true) d)).*2).
  - clear Hd. unfold matching. fold (table_rows (filter (λ tr, cond_holds tr.2 (sim_cond sid) = true) d) t).
    induction d as [|[t' r'] d IH]; [done|]. rewrite filter_cons, table_rows_cons.
    destruct (decide (t' = t)) as [->|Hne]; destruct (decide _) as [Hs|Hs]; cbn [snd] in Hs;
      rewrite ?table_rows_cons, ?decide_True, ?decide_False by done; [| |done..].
    + rewrite !filter_cons, forallb_app, IH. cbn [forallb]. by rewrite Hs, !andb_true_r.
    + rewrite filter_cons_False; [done|]. rewrite forallb_app. cbn [forallb]. rewrite andb_true_r.
      by intros [_ ?]%andb_true_iff.
  - rewrite Hd. clear Hd. unfold matching. fold (table_rows (of_sim sid <$> rows) t).
    induction rows as [|[t' r'] rows IH]; [done|]. cbn [fmap list_fmap]. unfold of_sim at 1. cbn [fst snd].
    rewrite !table_rows_cons. destruct (decide (t' = t)); [|done]. rewrite !filter_cons, IH.
    assert (forallb (cond_holds (("SimId", DInt sid) :: r')) conds = forallb (cond_holds r') conds) as ->.
    { clear -Hc. induction Hc as [|c cs Hc _ IH]; [done|]. cbn. by rewrite cond_of_sim, IH. }
    by destruct (decide _).
Qed.

(** A query for a table of the simulation. *)
Lemma sim_query b0 d sid rows t conds :
  answers b0 d → holds_sim d sid rows → table_rows rows t ≠ [] →
  Forall (λ c, c_field c ≠ "SimId") (default [] conds) →
  ∃ qr, Query (CondInjector b0 [sim_cond sid]) t conds = Ret qr ∧
    rows_of qr = cons ("SimId", DInt sid) <$> matching rows t (default [] conds).
Proof.
  intros Ha Hd Ht Hc. rewrite <-(matching_sim d sid rows t (default [] conds) Hd Hc).
  apply CondInjector_rows; [done|]. intros Hnil. apply Ht.
  pose proof (matching_sim d sid rows t [] Hd (Forall_nil_2 _)) as Hm. rewrite matching_nil in Hm.
  unfold matching in Hm. rewrite Hnil in Hm. cbn in Hm. by destruct (table_rows rows t).
Qed.

Lemma field_of_sim f sid r v : f ≠ "SimId" → field_of f r = Some v → field_of f (("SimId", DInt sid) :: r) = Some v.
Proof. intros Hf Hv. cbn [field_of]. by rewrite decide_False. Qed.

(** Reading one value of a row. *)
Lemma read_val {T S} (cast : dval F → outcome T) qr f i sid r v (x : T) (s : S) :
  rows_of qr !! i = Some (("SimId", DInt sid) :: r) → f ≠ "SimId" → field_of f r = Some v → cast v = Ret x →
  lift (GetVal cast qr f i) s = (Ret x, s).
Proof.
  intros Hr Hf Hv Hx. rewrite (GetVal_field cast qr f i _ v Hr); [by rewrite Hx|]. by apply field_of_sim.
Qed.
Lemma as_bool_dbool b : as_bool (F:=F) (dbool b) = Ret b.
Proof. by destruct b. Qed.
End db.

(** One step of a loading function: a query whose answer is known, or a value of its row. *)
Ltac load_step :=
  first
    [ match goal with |- context [(lift (Ret ?x) ≫= _) ?s] => rewrite (bind_ret (lift (Ret x)) _ s x s eq_refl) end
    | match goal with |- context [(lift (GetVal ?c ?q ?f ?k) ≫= _) _] =>
        erewrite (bind_ret (lift (GetVal c q f k)));
          [|eapply read_val; [eassumption|discriminate|reflexivity|first [apply as_bool_dbool|reflexivity]]] end ].

(** ** The rows of a snapshot *)
Section snapshot.
Context {F P : Type} `{Num F} `{Limits F} `{Pyne F} `{FloatDistance F}.
Implicit Types s : Sim F P.

Definition add_rows (l : list (string * list (string * dval F))) s : Sim F P :=
  set_sim_world (set_recorded (recorded (sim_world s) ++ l) (sim_world s)) s.
Lemma add_rows_app l1 l2 s : add_rows l2 (add_rows l1 s) = add_rows (l1 ++ l2) s.
Proof. unfold add_rows. cbn. by rewrite <-app_assoc. Qed.
Definition id_row (t : Z) (object : string) (x : Z) : string * list (string * dval F) :=
  ("NextIds", [("Time", DInt t); ("Object", DStr object); ("NextId", DInt x)]).
Lemma snap_run object (id : Sim F P → Z) l s :
  (∀ l, id (add_rows l s) = id s) →
  snap_next_id object id (add_rows l s) = (Ret tt, add_rows (l ++ [id_row (time_of s) object (id s)]) s).
Proof.
  intros Hid. unfold snap_next_id. rewrite (bind_ret get _ _ _ _ eq_refl), Hid.
  change (time_of (add_rows l s)) with (time_of s). rewrite <-add_rows_app. reflexivity.
Qed.

(** The next ids, and the rows that record them. *)
Definition next_ids s : list (string * Z) :=
  [("Agent", next_id_ s); ("Transaction", trans_id_ (sx s)); ("Composition", next_comp_id_ (sim_world s));
   ("ResourceState", nextstate_id_ (sim_world s)); ("ResourceObj", nextobj_id_ (sim_world s));
   ("Product", next_qualid_ (sim_world s))].
Definition id_rows (t : Z) (ids : list (string * Z)) : list (string * list (string * dval F)) :=
  (λ kv, id_row t kv.1 kv.2) <$> ids.

Context (arch : Archetypes F P).
Definition snap_agents : M (Sim F P) unit :=
  time ← now;
  record "Snapshots" [("Time", DInt time)];;
  s ← get;
  for_each (λ p, a ← agent_at p; if (enter_time_ a =? -1)%Z then mret tt else SnapAgent arch p)
    (set_in_order (agent_list_ (cx_ s))).

Definition nkeep s s' : Prop :=
  table_rows (recorded (sim_world s')) "NextIds" = table_rows (recorded (sim_world s)) "NextIds" ∧
  next_ids s' = next_ids s ∧ time_of s' = time_of s.
#[local] Instance nkeep_preorder : PreOrder nkeep.
Proof. split; [done|]. unfold nkeep. intros s1 s2 s3 (? & ? & ?) (? & ? & ?). split_and!; congruence. Qed.
Local Abbreviation NR := (respects nkeep any_exn).
Lemma record_nkeep t v : t ≠ "NextIds" → NR (record t v).
Proof.
  intros Ht s. split; [|intros ? _; exact I]. split_and!; [|done|done].
  change (recorded (sim_world (record t v s).2)) with (recorded (sim_world s) ++ [(t, v)]).
  rewrite table_rows_app, table_rows_cons, decide_False by done. by rewrite app_nil_r.
Qed.
Lemma agent_at_nkeep p : NR (agent_at p).
Proof. unfold agent_at. respect. Qed.
Lemma now_nkeep : NR now.
Proof. unfold now. respect. Qed.
Lemma get_res_nkeep r : NR (on_sworld (get_res r)).
Proof.
  intros s. unfold on_sworld, get_res, mbind, M_bind, m_bind. cbn.
  destruct (ress _ !! r); (split; [|intros ? _; exact I]); split_and!; reflexivity.
Qed.
#[local] Hint Resolve agent_at_nkeep now_nkeep get_res_nkeep : respects.
#[local] Hint Extern 1 (NR (record _ _)) => (apply record_nkeep; discriminate) : respects.
Lemma db_datum_nkeep p full title v : NR (db_datum p full title v).
Proof.
  unfold db_datum. apply respects_bind; [apply _|respect|]. intros a.
  assert (∀ pre, NR (time ← now; record (("AgentState" +:+ pre) +:+ title)
    ([("AgentId", DInt (a_id a)); ("SimTime", DInt time)] ++ v))) as Hrec.
  { intros pre. apply respects_bind; [apply _|respect|]. intros time. apply record_nkeep. discriminate. }
  destruct full; [destruct (spec_of_string (spec_ a)) as [sp|e]|].
  - intros s. apply (Hrec (Sanitize sp) s).
  - intros s. rewrite (bind_throw (throw e) _ s e s eq_refl). split; [reflexivity|intros ? _; exact I].
  - apply (Hrec "").
Qed.
#[local] Hint Resolve db_datum_nkeep : respects.
Lemma snap_agents_nkeep : NR snap_agents.
Proof. unfold snap_agents, SnapAgent, agent_Snapshot, snap_inventory. respect. Qed.

Lemma Snapshot_rows s s1 :
  Snapshot arch s = (Ret tt, s1) →
  ∃ mid, recorded (sim_world s1) = mid ++ id_rows (time_of s) (next_ids s) ∧
    table_rows mid "NextIds" = table_rows (recorded (sim_world s)) "NextIds".
Proof.
  intros Hs.
  assert (Snapshot arch s = (snap_agents;; snap_next_id "Agent" next_id_;;
    snap_next_id "Transaction" (λ s, trans_id_ (sx s));; snap_next_id "Composition" (λ s, next_comp_id_ (sim_world s));;
    snap_next_id "ResourceState" (λ s, nextstate_id_ (sim_world s));;
    snap_next_id "ResourceObj" (λ s, nextobj_id_ (sim_world s));; snap_next_id "Product" (λ s, next_qualid_ (sim_world s))) s) as E.
  { unfold snap_agents. rewrite !bind_assoc. reflexivity. }
  rewrite E in Hs. apply bind_inv in Hs as ([] & s0 & Ha & Hs).
  pose proof (snap_agents_nkeep s) as [(Ht & Hids & Htm) _]. rewrite Ha in Ht, Hids, Htm. cbn [snd] in *.
  exists (recorded (sim_world s0)). split; [|done].
  assert (s0 = add_rows [] s0) as Hz. { unfold add_rows. rewrite app_nil_r. by destruct s0 as [? ? ? ? ? ? [[[]] ? ? ?]]. }
  rewrite Hz in Hs.
  rewrite (bind_ret _ _ _ _ _ (snap_run "Agent" next_id_ [] s0 ltac:(done))) in Hs.
  rewrite (bind_ret _ _ _ _ _ (snap_run "Transaction" (λ s, trans_id_ (sx s)) _ s0 ltac:(done))) in Hs.
  rewrite (bind_ret _ _ _ _ _ (snap_run "Composition" (λ s, next_comp_id_ (sim_world s)) _ s0 ltac:(done))) in Hs.
  rewrite (bind_ret _ _ _ _ _ (snap_run "ResourceState" (λ s, nextstate_id_ (sim_world s)) _ s0 ltac:(done))) in Hs.
  rewrite (bind_ret _ _ _ _ _ (snap_run "ResourceObj" (λ s, nextobj_id_ (sim_world s)) _ s0 ltac:(done))) in Hs.
  rewrite (snap_run "Product" (λ s, next_qualid_ (sim_world s)) _ s0 ltac:(done)) in Hs.
  injection Hs as <-. rewrite <-Htm, <-Hids. reflexivity.
Qed.
End snapshot.
