(* ===== verification/Preconditioner.v ===== *)
(** * The greedy preconditioner

    [src/src/greedy_preconditioner.h] and [.cc]: orders the request groups of a
    graph, and the nodes of each group, by weights made of commodity weights and
    average preferences.  The graph is conditioned in place. *)

From Stdlib Require Import QArith Qminmax Lqa ZArith Lia.
From stdpp Require Import base list gmap strings sorting.
From S2P Require Import Prelude Num Arithmetic ExchangeGraph.

(** [GreedyPreconditioner::WgtOrder] *)
Inductive WgtOrder := REVERSE | END.

Record GreedyPreconditioner {F : Type} := mkPrecond {
  avg_prefs_ : gmap ptr F;
  commod_weights_ : gmap string F;
  group_weights_ : gmap ptr F
}.
Arguments GreedyPreconditioner F : clear implicits.

Section precond.
Context {F : Type} `{Num F}.
Implicit Types (g : ExchangeGraph F) (n : ExchangeNode F) (c : GreedyPreconditioner F).

(** A node read through its pointer; dangling pointers do not occur, they read
    as a default node. *)
Definition node_at g (p : ptr) : ExchangeNode F := default node_default (node_heap g !! p).
Definition group_at g (p : ptr) : ExchangeNodeGroup F :=
  default new_supply_group (group_heap g !! p).

(** [SumPref]: the accumulator of [AvgPref]. *)
Definition SumPref (total : F) (pref : (ptr * ptr) * F) : F := (total + pref.2)%D.

(** [AvgPref(n)]: the average preference of the node over its arcs, [0] if it has
    none. *)
Definition AvgPref n : F :=
  if Nat.ltb 0 (size (prefs n)) then
    (foldl SumPref (nZ 0) (in_order (prefs n)) / nZ (Z.of_nat (size (prefs n))))%D
  else nZ 0.

(** [NodeWeight]: a commodity without a weight reads as [0]. *)
Definition NodeWeight n (weights : gmap string F) (avg_pref : F) : F :=
  let commod_weight :=
    if Nat.eqb (size weights) 0 then nZ 1 else default (nZ 0) (weights !! commod n) in
  (commod_weight * (nZ 1 + avg_pref / (nZ 1 + avg_pref)))%D.

(** [GroupWeight]: the average weight of the nodes of a request group. *)
Definition GroupWeight g (gr : ExchangeNodeGroup F) (weights : gmap string F)
    (avg_prefs : gmap ptr F) : F :=
  let sum := foldl (λ sum p,
    (sum + NodeWeight (node_at g p) weights (at_default (nZ 0) avg_prefs p))%D)
    (nZ 0) (nodes_ gr) in
  if Nat.ltb 0 (length (nodes_ gr)) then (sum / nZ (Z.of_nat (length (nodes_ gr))))%D
  else nZ 0.

(** [NodeComp] and [GroupComp]: descending order of weight. *)
Definition NodeComp g c (l r : ptr) : bool :=
  (NodeWeight (node_at g l) (commod_weights_ c) (at_default (nZ 0) (avg_prefs_ c) l) >?
   NodeWeight (node_at g r) (commod_weights_ c) (at_default (nZ 0) (avg_prefs_ c) r))%D.

Definition GroupComp c (l r : ptr) : bool :=
  (at_default (nZ 0) (group_weights_ c) l >? at_default (nZ 0) (group_weights_ c) r)%D.

(** [ProcessWeights_]: puts the weights in heaviest-first order.  A negative
    weight fails an assertion. *)
Definition ProcessWeights_ (order : WgtOrder) (w : gmap string F) : outcome (gmap string F) :=
  match (in_order w).*2 with
  | [] => Throw Undefined          (* dereferences end() *)
  | x :: l =>
      let min := min_elem x l in
      let max := max_elem x l in
      if (min >=? nZ 0)%D then
        Ret match order with
            | REVERSE => (λ v, (max + min - v)%D) <$> w
            | END => w
            end
      else Throw AssertFailure
  end.

(** The three constructors. *)
Definition new_preconditioner : GreedyPreconditioner F := mkPrecond F ∅ ∅ ∅.

Definition new_preconditioner_order (w : gmap string F) (order : WgtOrder)
    : outcome (GreedyPreconditioner F) :=
  if Nat.eqb (size w) 0 then Ret (mkPrecond F ∅ w ∅)
  else match ProcessWeights_ order w with
       | Ret w' => Ret (mkPrecond F ∅ w' ∅)
       | Throw e => Throw e
       end.

Definition new_preconditioner_weights (w : gmap string F) : outcome (GreedyPreconditioner F) :=
  new_preconditioner_order w END.

(** One turn of the loop of [Condition] over the request groups: the average
    preferences of the nodes, the nodes sorted by weight, the group's weight. *)
Definition condition_group (st : GreedyPreconditioner F * ExchangeGraph F) (gp : ptr)
    : GreedyPreconditioner F * ExchangeGraph F :=
  let '(c, g) := st in
  let gr := group_at g gp in
  let avg := foldl (λ m p, <[p := AvgPref (node_at g p)]> m) (avg_prefs_ c) (nodes_ gr) in
  let c1 := mkPrecond F avg (commod_weights_ c) (group_weights_ c) in
  let gr1 := set_nodes (stable_sort (NodeComp g c1) (nodes_ gr)) gr in
  let g1 := set_group_heap (<[gp := gr1]> (group_heap g)) g in
  let w := GroupWeight g1 gr1 (commod_weights_ c1) avg in
  (mkPrecond F avg (commod_weights_ c1) (<[gp := w]> (group_weights_ c1)), g1).

(** [Condition(graph)] *)
Definition Condition c g : GreedyPreconditioner F * ExchangeGraph F :=
  let c0 := mkPrecond F ∅ (commod_weights_ c) (group_weights_ c) in
  let '(c1, g1) := foldl condition_group (c0, g) (request_groups_ g) in
  let g2 := set_request_groups (stable_sort (GroupComp c1) (request_groups_ g1)) g1 in
  (mkPrecond F (avg_prefs_ c1) (commod_weights_ c1) ∅, g2).

(** ** Conditioning only permutes *)

(** Two graphs with the same request groups up to order, whose groups hold the
    same nodes up to order and are otherwise equal. *)
Record reordered g g' : Prop := {
  ro_nodes : node_heap g' = node_heap g;
  ro_requests : request_groups_ g' ≡ₚ request_groups_ g;
  ro_supplies : supply_groups_ g' = supply_groups_ g;
  ro_groups : ∀ gp, nodes_ (group_at g' gp) ≡ₚ nodes_ (group_at g gp) ∧
    capacities_ (group_at g' gp) = capacities_ (group_at g gp) ∧
    rqty (group_at g' gp) = rqty (group_at g gp) ∧
    excl_node_groups_ (group_at g' gp) = excl_node_groups_ (group_at g gp);
  ro_map : node_arc_map_ g' = node_arc_map_ g;
  ro_arcs : arcs_ g' = arcs_ g;
  ro_matches : matches_ g' = matches_ g;
  ro_ids : arc_ids_ g' = arc_ids_ g;
  ro_by_id : arc_by_id_ g' = arc_by_id_ g;
  ro_next : next_arc_id_ g' = next_arc_id_ g
}.

Lemma reordered_refl g : reordered g g.
Proof. by split. Qed.

Lemma reordered_trans g1 g2 g3 : reordered g1 g2 → reordered g2 g3 → reordered g1 g3.
Proof.
  intros [] []. split; try congruence.
  - by etrans.
  - intros gp. destruct (ro_groups0 gp) as (?&?&?&?), (ro_groups1 gp) as (?&?&?&?).
    split_and!; [by etrans|congruence..].
Qed.

Lemma group_at_insert g gp gr gp' :
  group_at (set_group_heap (<[gp := gr]> (group_heap g)) g) gp' =
  if decide (gp = gp') then gr else group_at g gp'.
Proof. unfold group_at. simpl. rewrite lookup_insert. by destruct (decide _). Qed.

(** Sorting the nodes of one group in place. *)
Lemma sort_group_reordered g gp (comp : ptr → ptr → bool) :
  reordered g (set_group_heap
    (<[gp := set_nodes (stable_sort comp (nodes_ (group_at g gp))) (group_at g gp)]>
       (group_heap g)) g).
Proof.
  split; try done. intros gp'. rewrite group_at_insert.
  destruct (decide (gp = gp')) as [<-|]; [|done].
  split_and!; try done. apply stable_sort_perm.
Qed.

Lemma condition_group_reordered c g gp : reordered g (condition_group (c, g) gp).2.
Proof. apply sort_group_reordered. Qed.

Lemma condition_groups_reordered c g l : reordered g (foldl condition_group (c, g) l).2.
Proof.
  revert c g. induction l as [|gp l IH]; intros c g; [apply reordered_refl|]. cbn [foldl].
  destruct (condition_group (c, g) gp) as [c1 g1] eqn:E.
  apply (reordered_trans _ g1); [|apply IH].
  pose proof (condition_group_reordered c g gp) as Hr. by rewrite E in Hr.
Qed.

Lemma Condition_reordered c g : reordered g (Condition c g).2.
Proof.
  unfold Condition. destruct (foldl condition_group _ _) as [c1 g1] eqn:E.
  apply (reordered_trans _ g1).
  - pose proof (condition_groups_reordered (mkPrecond F ∅ (commod_weights_ c) (group_weights_ c))
      g (request_groups_ g)) as Hr. by rewrite E in Hr.
  - split; try done. apply stable_sort_perm.
Qed.

Lemma Condition_clears c g : group_weights_ (Condition c g).1 = ∅.
Proof. unfold Condition. by destruct (foldl condition_group _ _). Qed.
End precond.

#[global] Arguments node_at : simpl never.
#[global] Arguments group_at : simpl never.
#[global] Arguments AvgPref : simpl never.
