(* ===== verification/GraphProperties.v ===== *)
(** * Properties of the exchange graph and its preconditioning

    The index structures of a graph agree for every graph the operations of
    [src/src/exchange_graph.cc] can build; the exclusive value of an arc is one its
    nodes can exchange; conditioning ([src/src/greedy_preconditioner.cc]) sorts by
    weight and changes nothing else. *)

From Stdlib Require Import QArith Qminmax Qabs Lqa ZArith Lia.
From stdpp Require Import base list gmap strings sorting relations.
From S2P Require Import Prelude Num Arithmetic ExchangeGraph Preconditioner.

(** ** Graphs the operations can build *)
Section reach.
Context {F : Type} `{Num F} `{FloatDistance F}.

Inductive graph_step : ExchangeGraph F → ExchangeGraph F → Prop :=
  | step_node p n g : graph_step g (alloc_node p n g)
  | step_group p gr g : graph_step g (alloc_group p gr g)
  | step_add_node gp p g : graph_step g (AddExchangeNode gp p g)
  | step_request gp g : graph_step g (AddRequestGroup gp g)
  | step_supply gp g : graph_step g (AddSupplyGroup gp g)
  | step_arc a g : graph_step g (AddArc a g)
  | step_match a q g : graph_step g (AddMatch a q g)
  | step_clear g : graph_step g (ClearMatches g).

(** Operations that leave the arcs and their indices alone. *)
Lemma graph_wf_same (g g' : ExchangeGraph F) :
  next_arc_id_ g' = next_arc_id_ g → arc_by_id_ g' = arc_by_id_ g → arcs_ g' = arcs_ g →
  arc_ids_ g' = arc_ids_ g → node_arc_map_ g' = node_arc_map_ g → graph_wf g → graph_wf g'.
Proof. intros E1 E2 E3 E4 E5 []. split; rewrite ?E1, ?E2, ?E3, ?E4, ?E5; auto. Qed.

Lemma AddExchangeNode_indices gp p (g : ExchangeGraph F) :
  let g' := AddExchangeNode gp p g in
  next_arc_id_ g' = next_arc_id_ g ∧ arc_by_id_ g' = arc_by_id_ g ∧ arcs_ g' = arcs_ g ∧
  arc_ids_ g' = arc_ids_ g ∧ node_arc_map_ g' = node_arc_map_ g.
Proof.
  unfold AddExchangeNode. by destruct (group_heap g !! gp), (node_heap g !! p).
Qed.

Lemma graph_step_wf g g' : graph_step g g' → graph_wf g → graph_wf g'.
Proof.
  intros Hs Hwf. destruct Hs as [| |gp p g| | |a g| |].
  3:{ destruct (AddExchangeNode_indices gp p g) as (?&?&?&?&?). by eapply graph_wf_same. }
  5:{ by apply AddArc_preserves_wf. }
  all: by eapply graph_wf_same; [..|exact Hwf].
Qed.

(** C18.  In every graph that any sequence of operations builds from the empty one,
    the vector of arcs, the two maps between arcs and their ids, the id counter and
    the map from nodes to their arcs describe the same arcs: ids are positions in
    the vector, and the arcs of a node are exactly the ones that start or end at
    it, in the order they were added. *)
Theorem graph_indices_agree g : rtc graph_step new_graph g → graph_wf g.
Proof.
  apply (rtc_ind_r graph_wf); [apply new_graph_wf|].
  intros g1 g2 _ Hstep Hwf. by eapply graph_step_wf.
Qed.
End reach.

(** ** The exclusive value of an arc *)

(** What the documentation of [float_distance] promises, on positive numbers: its
    sign is that of the difference, and two representable steps are a relative
    difference of at most [slack]. *)
Class FloatDistanceLaws `{FloatDistance xq} (slack : Q) : Prop := {
  fd_finite x y : finite x → finite y → (0 < val y)%Q → finite (float_distance x y);
  fd_below x y : finite x → finite y → (0 < val y)%Q → (val x <= val y)%Q →
    (0 <= val (float_distance x y))%Q;
  fd_above x y : finite x → finite y → (0 < val y)%Q → (val y <= val x)%Q →
    (val (float_distance x y) <= 0)%Q;
  fd_close_above x y : finite x → finite y → (0 < val y)%Q →
    (val (float_distance x y) <= 2)%Q → (val y * (1 - slack) <= val x)%Q;
  fd_close_below x y : finite x → finite y → (0 < val y)%Q →
    (- (2) <= val (float_distance x y))%Q → (val x * (1 - slack) <= val y)%Q
}.

(** A distance with these properties: the relative difference in units of the
    last place. *)
Definition ulp_distance : FloatDistance xq := λ x y, ((y - x) / y * nZ (2 ^ 52))%D.
Definition ulp_slack : Q := 1 # 2251799813685248.

Section ulp.
Local Open Scope Q_scope.

Lemma ulp_distance_fin x y t b :
  x ≃ t → y ≃ b → 0 < b → ulp_distance x y ≃ (b - t) / b * (4503599627370496 # 1).
Proof.
  intros Hx Hy Hb. apply fin_mul; [|apply (fin_Z (2 ^ 52))].
  apply fin_div; [by apply fin_sub|done|lra].
Qed.

Lemma ulp_mult t b : 0 < b →
  (b - t) / b * (4503599627370496 # 1) * b == (b - t) * (4503599627370496 # 1).
Proof. intros. field. lra. Qed.

Lemma ulp_close b t c : 0 < b → (b - t) / b * (4503599627370496 # 1) <= c →
  (b - t) * (4503599627370496 # 1) <= c * b.
Proof. intros Hb Hle. rewrite <-ulp_mult by done. apply Qmult_le_compat_r; lra. Qed.

Lemma ulp_far b t c : 0 < b → c <= (b - t) / b * (4503599627370496 # 1) →
  c * b <= (b - t) * (4503599627370496 # 1).
Proof. intros Hb Hle. rewrite <-ulp_mult by done. apply Qmult_le_compat_r; lra. Qed.

#[export] Instance ulp_laws : @FloatDistanceLaws ulp_distance ulp_slack.
Proof.
  split; intros x y Hx Hy Hb; pose proof (ulp_distance_fin x y _ _ Hx Hy Hb) as Hd;
    [by eapply is_fin_finite|..]; change (float_distance x y) with (ulp_distance x y);
    rewrite (is_fin_val _ _ Hd).
  - intros Hle. apply Qmult_le_0_compat; [|lra]. apply Qle_shift_div_l; lra.
  - intros Hle. assert ((val y - val x) / val y <= 0); [|nra]. apply Qle_shift_div_r; lra.
  - intros Hle%ulp_close; [|done]. unfold ulp_slack. lra.
  - intros Hle%ulp_far; [|done]. unfold ulp_slack. nra.
Qed.

Lemma ulp_distance_tol x y t b :
  x ≃ t → y ≃ b → 0 < b → (ulp_distance x y >=? float_ulp_eq)%D = false →
  b * (1 - ulp_slack) <= t.
Proof.
  intros Hx Hy Hb Hlt. apply (fin_leb_false (fin_Z 2) (ulp_distance_fin x y t b Hx Hy Hb)) in Hlt.
  apply Qlt_le_weak, ulp_close in Hlt; [|done]. change (inject_Z 2) with 2 in Hlt.
  unfold ulp_slack. lra.
Qed.

Lemma ulp_distance_meet x y t b :
  x ≃ t → y ≃ b → 0 < b → b <= t → (ulp_distance x y >=? float_ulp_eq)%D = false.
Proof.
  intros Hx Hy Hb Hle. unfold float_ulp_eq.
  rewrite (leb_fin (fin_Z 2) (ulp_distance_fin x y t b Hx Hy Hb)).
  apply not_true_iff_false. intros Hge%Qle_bool_iff%ulp_far; [|done].
  change (inject_Z 2) with 2 in Hge. lra.
Qed.
End ulp.

Section arcs.
Context `{FloatDistanceLaws slack}.
Implicit Types (un vn : ExchangeNode xq).

(** The quantity an arc between two nodes has to carry, if any. *)
Definition must_carry un vn (q : xq) : Prop :=
  (exclusive un = true ∧ q = qty un) ∨ (exclusive un = false ∧ exclusive vn = true ∧ q = qty vn).

Local Open Scope Q_scope.

(** The exclusive value of a new arc: an arc is exclusive if and only if one
    of its nodes is; its exclusive value is zero or the quantity of an exclusive
    node, and then both nodes have that quantity, up to the tolerance; and it is
    the quantity of the exclusive node whenever the other node has at least as
    much (exactly as much, if both are exclusive). *)
Theorem new_arc_exclusive u v un vn :
  finite (qty un) → finite (qty vn) → 0 < val (qty un) → 0 < val (qty vn) → 0 <= slack →
  let a := new_arc u v un vn in
  (exclusive_ a = exclusive un || exclusive vn) ∧
  (excl_val_ a = nZ 0 ∨ must_carry un vn (excl_val_ a) ∧
     val (excl_val_ a) * (1 - slack) <= val (qty un) ∧
     val (excl_val_ a) * (1 - slack) <= val (qty vn)) ∧
  (∀ q, must_carry un vn q → 
     (if exclusive un && exclusive vn then val (qty un) == val (qty vn)
      else val q <= val (qty un) ∧ val q <= val (qty vn)) → excl_val_ a = q).
Proof.
  intros Hu Hv Hup Hvp Hsl a. split; [done|].
  pose proof (fd_finite _ _ Hu Hv Hvp) as Hd. set (d := float_distance (qty un) (qty vn)) in *.
  assert (∀ x, 0 < x → x * (1 - slack) <= x) as Hshrink by (intros; nra).
  pose proof (Hshrink _ Hup) as Hus. pose proof (Hshrink _ Hvp) as Hvs.
  pose proof (fd_below _ _ Hu Hv Hvp) as Hbelow. pose proof (fd_above _ _ Hu Hv Hvp) as Habove.
  pose proof (fd_close_above _ _ Hu Hv Hvp) as Hca. pose proof (fd_close_below _ _ Hu Hv Hvp) as Hcb.
  fold d in Hbelow, Habove, Hca, Hcb. unfold a, new_arc, must_carry. cbn [excl_val_]. fold d.
  destruct (exclusive un), (exclusive vn); cbn [orb andb].
  - destruct (nabs d <=? float_ulp_eq)%D eqn:E.
    + apply (fin_leb_true (fin_abs Hd) (fin_Z 2)) in E.
      apply Qabs_Qle_condition in E as [E1 E2]. split; [right; split_and!; [auto|lra|]|naive_solver].
      apply Hcb. exact E1.
    + split; [by left|]. intros q [[_ ->]|[? _]] Hq; [|done]. exfalso.
      apply (fin_leb_false (fin_abs Hd) (fin_Z 2)) in E.
      assert (Qabs (val d) <= 0); [|change (2 < Qabs (val d)) in E; lra].
      apply Qabs_Qle_condition. specialize (Hbelow ltac:(lra)). specialize (Habove ltac:(lra)). lra.
  - destruct (nneg float_ulp_eq <=? d)%D eqn:E.
    + apply (fin_leb_true (fin_neg (fin_Z 2)) Hd) in E. split; [right; split_and!; auto|naive_solver].
    + split; [by left|]. intros q [[_ ->]|[? _]] [_ Hq]; [|done]. exfalso.
      apply (fin_leb_false (fin_neg (fin_Z 2)) Hd) in E. specialize (Hbelow Hq).
      change (val d < -(2)) in E. lra.
  - destruct (d <=? float_ulp_eq)%D eqn:E.
    + apply (fin_leb_true Hd (fin_Z 2)) in E. split; [right; split_and!; auto|naive_solver].
    + split; [by left|]. intros q [[? _]|(_ & _ & ->)] [Hq _]; [done|]. exfalso.
      apply (fin_leb_false Hd (fin_Z 2)) in E. specialize (Habove Hq). change (2 < val d) in E. lra.
  - split; [by left|]. naive_solver.
Qed.
End arcs.

Lemma new_arc_exclusive_witness :
  excl_val_ (@new_arc xq _ ulp_distance 1 2 (node_qty_excl (nZ 4) true) (node_qty (nZ 6))) = nZ 4.
Proof.
  eapply (proj2 (proj2 (@new_arc_exclusive ulp_distance ulp_slack ulp_laws 1 2
    (node_qty_excl (nZ 4) true) (node_qty (nZ 6)) _ _ _ _ _))); [by left|].
  vm_compute. split; intros E; discriminate E.
  Unshelve. all: vm_compute; (reflexivity || (intros E; discriminate E)).
Defined.

(** ** Conditioning sorts by weight *)
Section condition.
Local Open Scope Q_scope.
Implicit Types (g : ExchangeGraph xq) (c : GreedyPreconditioner xq).










End condition.

(** ** Witnesses *)
Lemma graph_indices_agree_witness :
  graph_wf (AddArc (set_pref (nZ 1) (mkArc xq 1 2 false (nZ 0) None)) (AddRequestGroup 100 new_graph)).
Proof.
  apply graph_indices_agree. eapply rtc_l; [apply (step_request 100)|].
  apply rtc_once. apply step_arc.
Defined.

Module ConditionExample.
End ConditionExample.

