(* ===== verification/GreedySolver.v ===== *)
(** * The greedy solver

    [src/src/exchange_solver.h] and [.cc] (arc costs and the pseudo cost of unmet
    demand) and [src/src/greedy_solver.h] and [.cc].  The state of the solver is
    the graph it works on together with its own maps: the quantity allocated to
    each node so far, the capacities left in each group, the objective and the
    unmatched demand. *)

From Stdlib Require Import QArith Qminmax Lqa ZArith Lia.
From stdpp Require Import base list gmap strings sorting.
From S2P Require Import Prelude Num Arithmetic ExchangeGraph Preconditioner.

Record GreedySolver {F : Type} := mkSolver {
  graph_ : ExchangeGraph F;
  exclusive_orders_ : bool;
  conditioner_ : option (GreedyPreconditioner F);
  n_qty_ : gmap ptr F;
  grp_caps_ : gmap ptr (list F);
  obj_ : F;
  unmatched_ : F
}.
Arguments GreedySolver F : clear implicits.

Section solver.
Context {F : Type} `{Num F} `{Limits F}.
Implicit Types (g : ExchangeGraph F) (a : Arc F) (s : GreedySolver F).
Local Abbreviation SM := (M (GreedySolver F)).

Definition set_graph g s : GreedySolver F :=
  mkSolver F g (exclusive_orders_ s) (conditioner_ s) (n_qty_ s) (grp_caps_ s) (obj_ s) (unmatched_ s).
Definition set_conditioner (c : option (GreedyPreconditioner F)) s : GreedySolver F :=
  mkSolver F (graph_ s) (exclusive_orders_ s) c (n_qty_ s) (grp_caps_ s) (obj_ s) (unmatched_ s).
Definition set_n_qty (m : gmap ptr F) s : GreedySolver F :=
  mkSolver F (graph_ s) (exclusive_orders_ s) (conditioner_ s) m (grp_caps_ s) (obj_ s) (unmatched_ s).
Definition set_grp_caps (m : gmap ptr (list F)) s : GreedySolver F :=
  mkSolver F (graph_ s) (exclusive_orders_ s) (conditioner_ s) (n_qty_ s) m (obj_ s) (unmatched_ s).
Definition set_obj (o : F) s : GreedySolver F :=
  mkSolver F (graph_ s) (exclusive_orders_ s) (conditioner_ s) (n_qty_ s) (grp_caps_ s) o (unmatched_ s).
Definition set_unmatched (u : F) s : GreedySolver F :=
  mkSolver F (graph_ s) (exclusive_orders_ s) (conditioner_ s) (n_qty_ s) (grp_caps_ s) (obj_ s) u.

(** ** Costs: [ExchangeSolver] *)

(** [ExchangeSolver::Cost(a, exclusive_orders)]; reading an unset preference is
    undefined. *)
Definition Cost (a : Arc F) (exclusive_orders : bool) : outcome F :=
  match pref_ a with
  | Some p =>
      Ret (if exclusive_orders && exclusive_ a then (excl_val_ a / p)%D else (nZ 1 / p)%D)
  | None => Throw Undefined
  end.

Definition ArcCost s (a : Arc F) : outcome F := Cost a (exclusive_orders_ s).

(** [PseudoCostByPref]: the largest arc cost, times [1 + cost_factor].  For an
    exclusive value below one its factor is taken out of the cost again. *)
Fixpoint max_arc_cost s (arcs : list (Arc F)) (max_cost : F) : outcome F :=
  match arcs with
  | [] => Ret max_cost
  | a :: arcs =>
      let factor := if exclusive_ a && (excl_val_ a <? nZ 1)%D
                    then (nZ 1 / excl_val_ a)%D else nZ 1 in
      match ArcCost s a with
      | Ret c => max_arc_cost s arcs (dmax max_cost (c * factor)%D)
      | Throw e => Throw e
      end
  end.

Definition PseudoCostByPref s (cost_factor : F) : outcome F :=
  match max_arc_cost s (arcs_ (graph_ s)) (nZ 0) with
  | Ret max_cost => Ret (max_cost * (nZ 1 + cost_factor))%D
  | Throw e => Throw e
  end.

Definition PseudoCost s : outcome F := PseudoCostByPref s (nlit (1 # 10)).

(** ** Comparators *)

(** [l.unode()->prefs[l]] *)
Definition unode_pref g a : F := at_default (nZ 0) (prefs (node_at g (unode_ a))) (arc_key a).

(** [ReqPrefComp]: descending preference of the requester, then descending ids. *)
Definition ReqPrefComp g (l r : Arc F) : bool :=
  let lu := agent_id (node_at g (unode_ l)) in
  let lv := agent_id (node_at g (vnode_ l)) in
  let ru := agent_id (node_at g (unode_ r)) in
  let rv := agent_id (node_at g (vnode_ r)) in
  let lpref := unode_pref g l in
  let rpref := unode_pref g r in
  if (lpref !=? rpref)%D then (lpref >? rpref)%D
  else (Z.gtb lu ru || (Z.eqb lu ru && Z.gtb lv rv))%bool.

(** [AvgPrefComp]: descending average preference, then descending id. *)
Definition AvgPrefComp g (l r : ptr) : bool :=
  let lid := agent_id (node_at g l) in
  let rid := agent_id (node_at g r) in
  let lpref := AvgPref (node_at g l) in
  let rpref := AvgPref (node_at g r) in
  if (lpref !=? rpref)%D then (lpref >? rpref)%D else Z.gtb lid rid.

(** ** Capacities *)

(** The capacities left for a node: group capacity over unit capacity, with the
    special case of unlimited capacities. *)
Fixpoint node_caps (unit_caps group_caps : list F) : option (list F) :=
  match unit_caps, group_caps with
  | [], _ => Some []
  | _ :: _, [] => None              (* group_caps[i] out of range *)
  | u_cap :: us, grp_cap :: gs =>
      let cap := (grp_cap / u_cap)%D in
      caps ← node_caps us gs;
      Some ((if (grp_cap =? ndblmax)%D then ndblmax else cap) :: caps)
  end.

(** [Capacity(n, a, min_cap, curr_qty)] *)
Definition NodeCapacity (p : ptr) a (min_cap : bool) (curr_qty : F) : SM F :=
  s ← get;
  let n := node_at (graph_ s) p in
  match group n with
  | None => throw StateError
  | Some gp =>
      let unit_caps := default [] (unit_capacities n !! arc_key a) in
      match unit_caps with
      | [] => mret (qty n - curr_qty)%D
      | _ =>
          caps ← from_option_or Undefined
            (node_caps unit_caps (default [] (grp_caps_ s !! gp)));
          match caps with
          | [] => throw Undefined
          | x :: l =>
              let cap := if min_cap then min_elem x l else max_elem x l in
              mret (dmin cap (qty n - curr_qty)%D)
          end
      end
  end.

(** [Capacity(a, u_curr_qty, v_curr_qty)] *)
Definition ArcCapacity a (u_curr_qty v_curr_qty : F) : SM F :=
  ucap ← NodeCapacity (unode_ a) a false u_curr_qty;
  vcap ← NodeCapacity (vnode_ a) a true v_curr_qty;
  mret (dmin ucap vcap).

(** [GetCaps(g)] and [Init()] *)
Definition GetCaps (gp : ptr) s : GreedySolver F :=
  let gr := group_at (graph_ s) gp in
  set_grp_caps (<[gp := capacities_ gr]> (grp_caps_ s))
    (set_n_qty (foldl (λ m p, <[p := nZ 0]> m) (n_qty_ s) (nodes_ gr)) s).

Definition Init s : GreedySolver F :=
  let s1 := foldl (λ s gp, GetCaps gp s) s (request_groups_ (graph_ s)) in
  foldl (λ s gp, GetCaps gp s) s1 (supply_groups_ (graph_ s)).

(** The new capacities of a group after a quantity is matched. *)
Definition reduce_caps (q : F) (unit_caps caps : list F) : list F :=
  zip_with (λ u_cap prev, if (prev =? ndblmax)%D then ndblmax else (prev - q * u_cap)%D)
    unit_caps caps.

(** [UpdateCapacity(n, a, qty)] *)
Definition UpdateCapacity (p : ptr) a (q : F) : SM unit :=
  s ← get;
  let n := node_at (graph_ s) p in
  let unit_caps := default [] (unit_capacities n !! arc_key a) in
  let gp := default 0%Z (group n) in
  let caps := default [] (grp_caps_ s !! gp) in
  require (Nat.eqb (length unit_caps) (length caps)) AssertFailure;;
  modify (set_grp_caps (<[gp := reduce_caps q unit_caps caps]> (grp_caps_ s)));;
  require (negb (IsNegative (qty n - q)%D)) ValueError.

(** [UpdateObj(qty, pref)] *)
Definition UpdateObj (q pref : F) s : GreedySolver F := set_obj (obj_ s + q / pref)%D s.

(** [n_qty_[p]] and [n_qty_[p] += q] *)
Definition n_qty_at (p : ptr) s : F := at_default (nZ 0) (n_qty_ s) p.
Definition add_n_qty (p : ptr) (q : F) s : GreedySolver F :=
  set_n_qty (<[p := (n_qty_at p s + q)%D]> (n_qty_ s)) s.

(** ** The matching loops *)
Section matching.
Context `{FloatDistance F}.

(** The quantity to match on an arc: the capacity adjustment, then the
    exclusivity adjustment. *)
Definition excl_adjust a (tomatch : F) : F :=
  if exclusive_ a then
    let dist := float_distance tomatch (excl_val_ a) in
    if (dist >=? float_ulp_eq)%D then nZ 0 else excl_val_ a
  else tomatch.

(** What a match of [tomatch] on [a] does to the state. *)
Definition do_match a (tomatch : F) : SM unit :=
  UpdateCapacity (unode_ a) a tomatch;;
  UpdateCapacity (vnode_ a) a tomatch;;
  modify (add_n_qty (unode_ a) tomatch);;
  modify (add_n_qty (vnode_ a) tomatch);;
  modify (λ s, set_graph (AddMatch a tomatch (graph_ s)) s);;
  modify (λ s, UpdateObj tomatch (unode_pref (graph_ s) a) s).

(** The body of the inner loop: try to match on one arc, and return the matched
    total. *)
Definition try_arc (target : F) a (mtch : F) : SM F :=
  let remain := (target - mtch)%D in
  s ← get;
  cap ← ArcCapacity a (n_qty_at (unode_ a) s) (n_qty_at (vnode_ a) s);
  let tomatch := excl_adjust a (dmin remain cap) in
  if (tomatch >? eps)%D then
    do_match a tomatch;;
    mret (mtch + tomatch)%D
  else mret mtch.

(** [while ((match <= target) && (arc_it != sorted.end()))] *)
Fixpoint match_arcs (target : F) (arcs : list (Arc F)) (mtch : F) : SM F :=
  match arcs with
  | [] => mret mtch
  | a :: arcs =>
      if (mtch <=? target)%D then
        m' ← try_arc target a mtch;
        match_arcs target arcs m'
      else mret mtch
  end.

(** The arcs of a request node, most preferred first. *)
Definition sorted_arcs g (p : ptr) : list (Arc F) :=
  stable_sort (ReqPrefComp g) (default [] (node_arc_map_ g !! p)).

(** [while ((match <= target) && (req_it != nodes.end()))] *)
Fixpoint match_nodes (target : F) (nodes : list ptr) (mtch : F) : SM F :=
  match nodes with
  | [] => mret mtch
  | p :: nodes =>
      if (mtch <=? target)%D then
        s ← get;
        m' ← match_arcs target (sorted_arcs (graph_ s) p) mtch;
        match_nodes target nodes m'
      else mret mtch
  end.

(** [std::stable_sort(nodes.begin(), nodes.end(), AvgPrefComp)], in place. *)
Definition sort_nodes (gp : ptr) s : GreedySolver F :=
  let g := graph_ s in
  let gr := group_at g gp in
  set_graph (set_group_heap
    (<[gp := set_nodes (stable_sort (AvgPrefComp g) (nodes_ gr)) gr]> (group_heap g)) g) s.

(** [GreedilySatisfySet(prs)] *)
Definition GreedilySatisfySet (gp : ptr) : SM unit :=
  modify (sort_nodes gp);;
  s ← get;
  let gr := group_at (graph_ s) gp in
  let target := default (nZ 0) (rqty gr) in
  mtch ← match_nodes target (nodes_ gr) (nZ 0);
  modify (λ s, set_unmatched (unmatched_ s + (target - mtch))%D s).

(** [Condition()]: the conditioner keeps its state. *)
Definition DoCondition s : GreedySolver F :=
  match conditioner_ s with
  | Some c => let '(c', g') := Condition c (graph_ s) in
              set_conditioner (Some c') (set_graph g' s)
  | None => s
  end.

(** [SolveGraph()] *)
Definition SolveGraph : SM F :=
  s ← get;
  match PseudoCost s with
  | Throw e => throw e
  | Ret pseudo_cost =>
      modify DoCondition;;
      modify (λ s, set_n_qty ∅ (set_unmatched (nZ 0) (set_obj (nZ 0) s)));;
      modify Init;;
      s ← get;
      for_each GreedilySatisfySet (request_groups_ (graph_ s));;
      modify (λ s, set_obj (obj_ s + unmatched_ s * pseudo_cost)%D s);;
      gets obj_
  end.

(** [Solve(graph)] *)
Definition Solve (graph : option (ExchangeGraph F)) : SM F :=
  match graph with
  | Some g => modify (set_graph g);; SolveGraph
  | None => SolveGraph
  end.
End matching.

(** The four constructors of [GreedySolver]; a solver starts without a graph. *)
Definition greedy_solver (exclusive_orders : bool) (c : option (GreedyPreconditioner F))
    : GreedySolver F :=
  mkSolver F new_graph exclusive_orders c ∅ ∅ (nZ 0) (nZ 0).
Definition greedy_solver_excl (exclusive_orders : bool) : GreedySolver F :=
  greedy_solver exclusive_orders (Some new_preconditioner).
Definition greedy_solver_cond (c : option (GreedyPreconditioner F)) : GreedySolver F :=
  greedy_solver true c.
Definition greedy_solver_default : GreedySolver F :=
  greedy_solver true (Some new_preconditioner).
End solver.

#[global] Arguments unode_pref : simpl never.
#[global] Arguments n_qty_at : simpl never.
