(* ===== verification/ProgTranslator.v ===== *)
(** * The programming solver

    [src/src/prog_translator.h], [.cc], [src/src/prog_solver.h] and [.cc]: an exchange
    graph becomes a mixed-integer program, with one column for the flow on each arc and
    one for the unmet demand of each request group, and a solution of the program
    becomes matches.  The libraries of COIN-OR that solve the program are a parameter:
    [inf] is [iface_->getInfinity()], [coin_solve] gives the column solution and the
    objective value.  Reports and MPS files are left out. *)

From Stdlib Require Import QArith ZArith Lia.
From stdpp Require Import base list gmap strings sorting.
From S2P Require Import Prelude Num Arithmetic ExchangeGraph Preconditioner GreedySolver.

(** [CoinPackedVector]: column indices and coefficients. *)
Abbreviation packed F := (list (Z * F)).

Record ProgTranslatorContext {F : Type} := mkProgCtx {
  obj_coeffs : list F;
  row_ubs : list F;
  row_lbs : list F;
  col_ubs : list F;
  col_lbs : list F;
  m_rows : list (packed F)
}.
Arguments ProgTranslatorContext F : clear implicits.

Record ProgTranslator {F : Type} := mkProgTranslator {
  arc_offset_ : Z;
  pt_ctx : ProgTranslatorContext F
}.
Arguments ProgTranslator F : clear implicits.

Section translator.
Context {F : Type} `{Num F}.
Context (g : ExchangeGraph F) (inf : F) (excl_ : bool) (pseudo_cost_ : F).
Local Abbreviation T := (M (ProgTranslator F)).

(** [Init()]: [resize] fills with zeros. *)
Definition Init_ProgTranslator : ProgTranslator F :=
  let n := (length (arcs_ g) + length (request_groups_ g))%nat in
  mkProgTranslator F (Z.of_nat (length (arcs_ g)))
    (mkProgCtx F (replicate n (nZ 0)) [] [] (replicate n (nZ 0)) (replicate n (nZ 0)) []).

(** Writing the objective and the bounds of a column. *)
Definition set_column (i : Z) (obj lb ub : F) : T unit :=
  t ← get;
  let c := pt_ctx t in
  require (bool_decide (0 ≤ i < Z.of_nat (length (obj_coeffs c)))%Z) Undefined;;
  let k := Z.to_nat i in
  modify (λ t, mkProgTranslator F (arc_offset_ t)
    (mkProgCtx F (<[k := obj]> (obj_coeffs c)) (row_ubs c) (row_lbs c)
      (<[k := ub]> (col_ubs c)) (<[k := lb]> (col_lbs c)) (m_rows c))).

(** [row_lbs.push_back(lb); row_ubs.push_back(ub); m.appendRow(row)] *)
Definition append_row (row : packed F) (lb ub : F) : T unit :=
  modify (λ t, let c := pt_ctx t in
    mkProgTranslator F (arc_offset_ t)
      (mkProgCtx F (obj_coeffs c) (row_ubs c ++ [ub]) (row_lbs c ++ [lb]) (col_ubs c) (col_lbs c)
        (m_rows c ++ [row]))).

(** A coefficient of an exclusive arc is for the whole order. *)
Definition arc_coeff (a : Arc F) (ucap : F) : F :=
  if excl_ && exclusive_ a then (ucap * excl_val_ a)%D else ucap.

(** [cap_rows[j].insert(arc_id, coeff)] for every unit capacity; [cap_rows[j]] past the
    end is undefined. *)
Fixpoint insert_coeffs (arc_id : Z) (coeffs : list F) (rows : list (packed F)) : option (list (packed F)) :=
  match coeffs, rows with
  | [], _ => Some rows
  | c :: cs, r :: rs => rs' ← insert_coeffs arc_id cs rs; Some ((r ++ [(arc_id, c)]) :: rs')
  | _ :: _, [] => None
  end.

(** One arc of [unit_capacities].  Its key is a copy of the arc of the graph. *)
Definition xlate_arc (request : bool) (n : ExchangeNode F) (rows : list (packed F))
    (kv : (ptr * ptr) * list F) : T (list (packed F)) :=
  let arc_id := at_default 0%Z (arc_ids_ g) kv.1 in
  a ← from_option_or Undefined (arc_by_id_ g !! arc_id);
  rows' ← from_option_or Undefined (insert_coeffs arc_id (arc_coeff a <$> kv.2) rows);
  (if request then
     pref ← from_option_or Undefined (pref_ a);
     require (negb (pref <=? nZ 0)%D) ValueError;;
     cost ← pure (Cost a excl_);
     set_column arc_id cost (nZ 0) (if excl_ && exclusive_ a then nZ 1 else dmin (qty n) inf)
   else mret tt);;
  mret rows'.
Fixpoint xlate_arcs (request : bool) (n : ExchangeNode F) (rows : list (packed F))
    (l : list ((ptr * ptr) * list F)) : T (list (packed F)) :=
  match l with
  | [] => mret rows
  | kv :: l => rows' ← xlate_arc request n rows kv; xlate_arcs request n rows' l
  end.
Fixpoint xlate_nodes (request : bool) (rows : list (packed F)) (nodes : list ptr) : T (list (packed F)) :=
  match nodes with
  | [] => mret rows
  | p :: nodes =>
      rows' ← xlate_arcs request (node_at g p) rows (in_order (unit_capacities (node_at g p)));
      xlate_nodes request rows' nodes
  end.

(** The row of a capacity; that of a request group has the faux arc, and the capacity
    as its lower bound. *)
Definition append_capacity (faux : option Z) (cr : F * packed F) : T unit :=
  match faux with
  | Some faux_id => append_row (cr.2 ++ [(faux_id, nZ 1)]) (dmin cr.1 (nlit 1000000000000000)) inf
  | None => append_row cr.2 (nZ 0) cr.1
  end.

(** The row of an exclusive group of nodes: all arcs of its nodes. *)
Definition excl_row (nodes : list ptr) : packed F :=
  nodes ≫= λ p, (λ a, (at_default 0%Z (arc_ids_ g) (arc_key a), nZ 1)) <$> at_default [] (node_arc_map_ g) p.

(** [faux_id = arc_offset_++] *)
Definition next_faux : T Z :=
  t ← get; modify (λ t, mkProgTranslator F (arc_offset_ t + 1)%Z (pt_ctx t));; mret (arc_offset_ t).

Definition XlateGrp_ (gp : ptr) (request : bool) : T unit :=
  let gr := group_at g gp in
  if request && negb (HasArcs g gr) then mret tt
  else
    cap_rows ← xlate_nodes request (replicate (length (capacities_ gr)) []) (nodes_ gr);
    faux ← (if request then Some <$> next_faux else mret None);
    for_each (append_capacity faux) (zip (capacities_ gr) cap_rows);;
    if excl_ then
      for_each (λ row, append_row row (nZ 0) (nZ 1))
        (filter (λ row, row ≠ []) (excl_row <$> excl_node_groups_ gr))
    else mret tt.

(** [Translate()] *)
Definition TranslateProg : T unit :=
  for_each (λ gp, XlateGrp_ gp false) (supply_groups_ g);;
  for_each (λ gp, XlateGrp_ gp true) (request_groups_ g);;
  t ← get;
  for_each (λ i, set_column i pseudo_cost_ (nZ 0) inf)
    (seqZ (Z.of_nat (length (arcs_ g))) (arc_offset_ t - Z.of_nat (length (arcs_ g)))).

(** [Populate()] tells the interface the integer columns. *)
Definition integer_columns : list Z :=
  if excl_ then (λ a, at_default 0%Z (arc_ids_ g) (arc_key a)) <$> List.filter exclusive_ (arcs_ g) else [].

(** [ToProg()] of a new translator: the program that the interface is given. *)
Definition ToProg : outcome (ProgTranslatorContext F * list Z) :=
  match TranslateProg Init_ProgTranslator with
  | (Ret _, t) => Ret (pt_ctx t, integer_columns)
  | (Throw e, _) => Throw e
  end.
End translator.

Section solution.
Context {F : Type} `{Num F} `{Limits F} `{FloatDistance F}.

(** [FromProg()] *)
Definition arc_flow (excl : bool) (a : Arc F) (x : F) : F :=
  if excl && exclusive_ a then (x * excl_val_ a)%D else x.
Definition FromProg (excl : bool) (sol : list F) : M (ExchangeGraph F) unit :=
  g ← get;
  for_each (λ i,
    g ← get;
    a ← from_option_or OutOfRange (arc_by_id_ g !! Z.of_nat i);
    x ← from_option_or Undefined (sol !! i);
    let flow := arc_flow excl a x in
    if (flow >? eps)%D then modify (AddMatch a flow) else mret tt)
    (seq 0 (length (arcs_ g))).

(** [ProgSolver::SolveGraph()], with the solver [coin_solve] of the interface that
    [SolverFactory] makes for ["clp"] and ["cbc"] (the greedy objective is only used to
    report progress). *)
Definition SolveProgGraph (solver_t : string) (excl : bool) (inf : F)
    (coin_solve : ProgTranslatorContext F → list Z → list F * F) : M (ExchangeGraph F) F :=
  require (bool_decide (solver_t = "clp"%string ∨ solver_t = "cbc"%string)) ValueError;;
  (λ g, let '(o, s) := Solve (Some g) (greedy_solver_excl excl) in (o, graph_ s));;
  modify ClearMatches;;
  g ← get;
  pseudo_cost ← pure (PseudoCost (set_graph g (greedy_solver_excl excl)));
  prog ← pure (ToProg g inf excl pseudo_cost);
  let '(sol, obj) := coin_solve prog.1 prog.2 in
  FromProg excl sol;;
  mret obj.
End solution.
