(* ===== verification/GreedyTheory.v ===== *)
(** * Correctness of the greedy solver

    Over exact arithmetic ([xq]) the state the solver keeps (allocated
    quantities, remaining group capacities, objective, unmatched demand) is shown
    to be a function of the matches it has made, which gives the feasibility of
    the solution, its maximality and the value of its objective.  The flow
    through nodes and groups is defined on the list of matches alone, with
    rational numbers, independently of the solver's maps. *)

From Stdlib Require Import QArith Qminmax Lqa ZArith Lia.
From stdpp Require Import base list gmap strings sorting.
From S2P Require Import Prelude Num Arithmetic ExchangeGraph Preconditioner GreedySolver.

Local Open Scope Q_scope.

(** ** Flow

    A match sends its quantity through both of its nodes: it is two half
    matches. *)
Definition half : Type := ptr * Arc xq * xq.

Definition halves (ms : list (Arc xq * xq)) : list half :=
  ms ≫= λ m, [(unode_ m.1, m.1, m.2); (vnode_ m.1, m.1, m.2)].

(** The quantity through a node. *)
Definition node_flow (p : ptr) (hs : list half) : Q :=
  sumQ (map (λ h : half, if Z.eqb h.1.1 p then val h.2 else 0) hs).

(** The unit capacities of a node along an arc. *)
Definition units (g : ExchangeGraph xq) (p : ptr) (a : Arc xq) : list xq :=
  default [] (unit_capacities (node_at g p) !! arc_key a).

Definition unit_of (g : ExchangeGraph xq) (p : ptr) (a : Arc xq) (i : nat) : Q :=
  nth i (vals (units g p a)) 0.

(** The amount of the [i]th capacity of a group that half matches use. *)
Definition group_use (g : ExchangeGraph xq) (gp : ptr) (i : nat) (hs : list half) : Q :=
  sumQ (map (λ h : half, if decide (group (node_at g h.1.1) = Some gp)
                  then unit_of g h.1.1 h.1.2 i * val h.2 else 0) hs).

(** What is left of the [i]th capacity [c]; [DBL_MAX] stands for unlimited. *)
Definition left_of (g : ExchangeGraph xq) (gp : ptr) (hs : list half) (i : nat) (c : Q) : Q :=
  if Qeq_bool c dbl_max_q then dbl_max_q else c - group_use g gp i hs.

Definition left_list (g : ExchangeGraph xq) (gp : ptr) (hs : list half) : list Q :=
  imap (left_of g gp hs) (vals (capacities_ (group_at g gp))).

(** The quantity a capacity allows on an arc with unit capacity [u]. *)
Definition avail_of (u l : Q) : Q := if Qeq_bool l dbl_max_q then dbl_max_q else l / u.

(** The quantity a node can still take along an arc. *)
Definition node_avail (g : ExchangeGraph xq) (hs : list half) (p : ptr) (a : Arc xq)
    (min_cap : bool) : Q :=
  let rest := val (qty (node_at g p)) - node_flow p hs in
  match zip_with avail_of (vals (units g p a))
          (left_list g (default 0%Z (group (node_at g p))) hs) with
  | [] => rest
  | x :: l => Qmin (foldl (if min_cap then Qmin else Qmax) x l) rest
  end.

Definition arc_avail (g : ExchangeGraph xq) (hs : list half) (a : Arc xq) : Q :=
  Qmin (node_avail g hs (unode_ a) a false) (node_avail g hs (vnode_ a) a true).

(** The total matched for a request group, and the cost of matches. *)
Definition request_flow (g : ExchangeGraph xq) (gp : ptr) (ms : list (Arc xq * xq)) : Q :=
  sumQ (map (λ m : Arc xq * xq, if decide (group (node_at g (unode_ m.1)) = Some gp)
                  then val m.2 else 0) ms).

Definition match_cost (g : ExchangeGraph xq) (ms : list (Arc xq * xq)) : Q :=
  sumQ (map (λ m : Arc xq * xq, val m.2 / val (unode_pref g m.1)) ms).

(** ** Graphs a solver can run on

    What the translator guarantees: nodes belong to groups, unit capacities are
    positive and as many as the capacities of the group, and all numbers are
    finite doubles.  [slack] bounds the relative error that the comparison of
    exclusive quantities by [float_distance] tolerates. *)
Record node_ready (g : ExchangeGraph xq) (gps : list ptr) (p : ptr) (a : Arc xq) : Prop := {
  nr_qty : finite (qty (node_at g p));
  nr_qty_range : 0 <= val (qty (node_at g p)) <= dbl_max_q;
  nr_group : ∃ gp, group (node_at g p) = Some gp ∧ gp ∈ gps ∧
    length (units g p a) = length (capacities_ (group_at g gp));
  nr_units : Forall (λ u, finite u ∧ 0 < val u) (units g p a)
}.

Record arc_ready `{Limits xq, FloatDistance xq} (slack : Q) (g : ExchangeGraph xq)
    (a : Arc xq) : Prop := {
  ar_ends : unode_ a ≠ vnode_ a;
  ar_unode : node_ready g (request_groups_ g) (unode_ a) a;
  ar_vnode : node_ready g (supply_groups_ g) (vnode_ a) a;
  ar_pref : finite (unode_pref g a) ∧ 0 < val (unode_pref g a);
  ar_excl : exclusive_ a = true → finite (excl_val_ a);
  ar_excl_tol : exclusive_ a = true → val eps < val (excl_val_ a) → ∀ x t, x ≃ t →
    (float_distance x (excl_val_ a) >=? float_ulp_eq)%D = false →
    val (excl_val_ a) * (1 - slack) <= t;
  ar_excl_meet : exclusive_ a = true → ∀ x t, x ≃ t → val (excl_val_ a) <= t →
    (float_distance x (excl_val_ a) >=? float_ulp_eq)%D = false;
  ar_excl_small : exclusive_ a = true → val (excl_val_ a) * slack <= val eps
}.

Definition request_node (g : ExchangeGraph xq) (gp p : ptr) : Prop :=
  gp ∈ request_groups_ g ∧ p ∈ nodes_ (group_at g gp).

Record ready `{Limits xq, FloatDistance xq} (slack : Q) (g : ExchangeGraph xq) : Prop := {
  rd_slack : 0 <= slack < 1;
  rd_requests : NoDup (request_groups_ g);
  rd_disjoint : ∀ gp, gp ∈ request_groups_ g → gp ∉ supply_groups_ g;
  rd_caps : ∀ gp, gp ∈ request_groups_ g ++ supply_groups_ g →
    Forall (λ c, finite c ∧ 0 <= val c <= dbl_max_q) (capacities_ (group_at g gp));
  rd_target : ∀ gp, gp ∈ request_groups_ g →
    ∃ x, rqty (group_at g gp) = Some x ∧ finite x ∧ 0 <= val x;
  rd_node : ∀ gp p, request_node g gp p → group (node_at g p) = Some gp;
  rd_arcs : ∀ gp p a, request_node g gp p → a ∈ at_default [] (node_arc_map_ g) p →
    unode_ a = p ∧ arc_ready slack g a;
  rd_prefs : ∀ a, a ∈ arcs_ g → ∃ x, pref_ a = Some x ∧ finite x ∧ 0 < val x ∧
    finite (excl_val_ a) ∧ 0 <= val (excl_val_ a)
}.

(** A match on an arc of a request node, of more than [eps], and of the
    exclusive quantity on an exclusive arc. *)
Definition match_ok `{Limits xq, FloatDistance xq} (slack : Q) (g : ExchangeGraph xq)
    (m : Arc xq * xq) : Prop :=
  (∃ gp, request_node g gp (unode_ m.1)) ∧
  m.1 ∈ at_default [] (node_arc_map_ g) (unode_ m.1) ∧ arc_ready slack g m.1 ∧
  finite m.2 ∧ val eps < val m.2 ∧
  (exclusive_ m.1 = true → m.2 = excl_val_ m.1).

(** A solution stays within its bounds: the quantity of every node, the
    capacities of every supply group, and the demand of every request group. *)
Record within (slack : Q) (g : ExchangeGraph xq) (ms : list (Arc xq * xq)) : Prop := {
  wi_node : ∀ p, 0 <= val (qty (node_at g p)) →
    node_flow p (halves ms) * (1 - slack) <= val (qty (node_at g p));
  wi_supply : ∀ gp i c, gp ∈ supply_groups_ g →
    vals (capacities_ (group_at g gp)) !! i = Some c → ¬ c == dbl_max_q →
    group_use g gp i (halves ms) * (1 - slack) <= c;
  wi_request : ∀ gp x, gp ∈ request_groups_ g → rqty (group_at g gp) = Some x →
    request_flow g gp ms * (1 - slack) <= val x
}.

(** ** Flow lemmas *)
Definition half_ok (g : ExchangeGraph xq) (h : half) : Prop :=
  0 <= val h.2 ∧ Forall (λ u, 0 < val u) (units g h.1.1 h.1.2).

Lemma node_flow_app p hs1 hs2 : node_flow p (hs1 ++ hs2) == node_flow p hs1 + node_flow p hs2.
Proof. unfold node_flow. by rewrite map_app, sumQ_app. Qed.

Lemma node_flow_snoc p hs p' a q :
  node_flow p (hs ++ [(p', a, q)]) == node_flow p hs + (if Z.eqb p' p then val q else 0).
Proof. rewrite node_flow_app. unfold node_flow at 2. simpl. lra. Qed.

Lemma group_use_app g gp i hs1 hs2 :
  group_use g gp i (hs1 ++ hs2) == group_use g gp i hs1 + group_use g gp i hs2.
Proof. unfold group_use. by rewrite map_app, sumQ_app. Qed.

Lemma request_flow_snoc g gp ms a q :
  request_flow g gp (ms ++ [(a, q)]) ==
  request_flow g gp ms + (if decide (group (node_at g (unode_ a)) = Some gp) then val q else 0).
Proof. unfold request_flow. rewrite map_app, sumQ_app. simpl. lra. Qed.

Lemma match_cost_snoc g ms a q :
  match_cost g (ms ++ [(a, q)]) == match_cost g ms + val q / val (unode_pref g a).
Proof. unfold match_cost. rewrite map_app, sumQ_app. simpl. lra. Qed.

Lemma halves_app ms1 ms2 : halves (ms1 ++ ms2) = halves ms1 ++ halves ms2.
Proof. apply bind_app. Qed.

Lemma halves_snoc ms a q :
  halves (ms ++ [(a, q)]) = (halves ms ++ [(unode_ a, a, q)]) ++ [(vnode_ a, a, q)].
Proof. rewrite halves_app, <-app_assoc. done. Qed.

Lemma nth_positive (l : list xq) i : Forall (λ u, 0 < val u) l → 0 <= nth i (vals l) 0.
Proof.
  intros Hl. revert i. induction Hl as [|x l Hx Hl IH]; intros [|i]; simpl; try lra. apply IH.
Qed.

Lemma node_flow_nonneg g p hs : Forall (half_ok g) hs → 0 <= node_flow p hs.
Proof.
  intros Hhs. apply sumQ_nonneg, Forall_map. eapply Forall_impl; [exact Hhs|].
  intros [[p' a] q] [Hq _]. simpl in *. split_ifs; lra.
Qed.

Lemma group_use_nonneg g gp i hs : Forall (half_ok g) hs → 0 <= group_use g gp i hs.
Proof.
  intros Hhs. apply sumQ_nonneg, Forall_map. eapply Forall_impl; [exact Hhs|].
  intros [[p' a] q] [Hq Hu]. simpl in *. destruct (decide _); [|lra].
  apply Qmult_le_0_compat; [|done]. by apply nth_positive.
Qed.

Lemma match_ok_halves `{GoodLimits e er, FloatDistance xq} slack g ms :
  Forall (match_ok slack g) ms → Forall (half_ok g) (halves ms).
Proof.
  pose proof (is_fin_val _ _ eps_fin) as He. pose proof eps_nonneg as Hpos.
  intros Hms. unfold halves. apply Forall_bind. eapply Forall_impl; [exact Hms|].
  intros [a q] (_ & _ & Ha & _ & Hq & _). simpl in *.
  repeat constructor; simpl; try lra.
  - eapply Forall_impl; [apply (nr_units _ _ _ _ (ar_unode _ _ _ Ha))|]. by intros ? [].
  - eapply Forall_impl; [apply (nr_units _ _ _ _ (ar_vnode _ _ _ Ha))|]. by intros ? [].
Qed.

Lemma request_flow_nonneg `{GoodLimits e er, FloatDistance xq} slack g gp ms :
  Forall (match_ok slack g) ms → 0 <= request_flow g gp ms.
Proof.
  pose proof (is_fin_val _ _ eps_fin) as He. pose proof eps_nonneg as Hpos.
  intros Hms. apply sumQ_nonneg, Forall_map. eapply Forall_impl; [exact Hms|].
  intros [a q] (_ & _ & _ & _ & Hq & _). simpl in *. destruct (decide _); lra.
Qed.

(** Unlimited capacities are recognised by what is left of them. *)
Lemma left_of_max g gp hs i c :
  Forall (half_ok g) hs → c <= dbl_max_q →
  Qeq_bool (left_of g gp hs i c) dbl_max_q = Qeq_bool c dbl_max_q.
Proof.
  intros Hhs Hc. unfold left_of. destruct (Qeq_bool c dbl_max_q) eqn:E.
  - apply Qeq_bool_iff. reflexivity.
  - apply Qeq_bool_neq in E. apply not_true_iff_false. intros Hl%Qeq_bool_iff.
    pose proof (group_use_nonneg g gp i hs Hhs). apply E. lra.
Qed.

Lemma left_of_le g gp hs hs' i c :
  Forall (half_ok g) (hs ++ hs') → left_of g gp (hs ++ hs') i c <= left_of g gp hs i c.
Proof.
  intros Hhs. unfold left_of. destruct (Qeq_bool c dbl_max_q); [lra|].
  rewrite group_use_app. apply Forall_app in Hhs as [_ Hhs'].
  pose proof (group_use_nonneg g gp i hs' Hhs'). lra.
Qed.

Lemma avail_of_le u l l' :
  0 < u → l <= l' → Qeq_bool l dbl_max_q = Qeq_bool l' dbl_max_q → avail_of u l <= avail_of u l'.
Proof.
  intros Hu Hl Heq. unfold avail_of. rewrite Heq. destruct (Qeq_bool l' dbl_max_q); [lra|].
  apply Qmult_le_compat_r; [done|]. apply Qlt_le_weak, Qinv_lt_0_compat, Hu.
Qed.

(** Minima and maxima of lists. *)
Lemma min_elem_fin x l a b :
  x ≃ a → Forall2 is_fin l b → min_elem x l ≃ foldl Qmin a b.
Proof.
  intros Hx Hl. revert x a Hx. unfold min_elem.
  induction Hl as [|y c l b Hy Hl IH]; intros x a Hx; cbn [foldl]; [done|].
  apply IH. by apply fin_min.
Qed.

Lemma max_elem_fin x l a b :
  x ≃ a → Forall2 is_fin l b → max_elem x l ≃ foldl Qmax a b.
Proof.
  intros Hx Hl. revert x a Hx. unfold max_elem.
  induction Hl as [|y c l b Hy Hl IH]; intros x a Hx; cbn [foldl]; [done|].
  apply IH. by apply fin_max.
Qed.

Lemma foldl_Qmin_le x l : foldl Qmin x l <= x ∧ Forall (λ y, foldl Qmin x l <= y) l.
Proof.
  revert x. induction l as [|y l IH]; intros x; cbn [foldl]; [split; [lra|done]|].
  destruct (IH (Qmin x y)) as [H1 H2].
  pose proof (Q.le_min_l x y). pose proof (Q.le_min_r x y).
  split; [lra|]. constructor; [lra|done].
Qed.

Lemma foldl_Qminmax_drop (mm : bool) (q r r' : Q) x x' l l' :
  Qmin x' r' <= Qmin x r - q → Forall2 (λ y' y, Qmin y' r' <= Qmin y r - q) l' l →
  Qmin (foldl (if mm then Qmin else Qmax) x' l') r' <=
  Qmin (foldl (if mm then Qmin else Qmax) x l) r - q.
Proof.
  intros Hx Hl. revert x x' Hx. induction Hl as [|y' y l' l Hy Hl IH]; intros x x' Hx;
    cbn [foldl]; [done|]. apply IH. clear IH Hl. destruct mm; q_minmax.
Qed.

(** ** The solver's maps follow the matches *)
Definition caps_track (g : ExchangeGraph xq) (hs : list half) (s : GreedySolver xq) : Prop :=
  ∀ gp, gp ∈ request_groups_ g ++ supply_groups_ g →
    ∃ caps, grp_caps_ s !! gp = Some caps ∧ Forall2 is_fin caps (left_list g gp hs).

Definition qty_track (hs : list half) (s : GreedySolver xq) : Prop :=
  ∀ p, n_qty_at p s ≃ node_flow p hs.

Lemma length_left_list g gp hs : length (left_list g gp hs) = length (capacities_ (group_at g gp)).
Proof. unfold left_list. rewrite length_imap. apply length_map. Qed.

Lemma node_caps_fin us caps lefts :
  Forall (λ u, finite u ∧ 0 < val u) us → Forall2 is_fin caps lefts →
  length us = length caps →
  ∃ out, node_caps us caps = Some out ∧ Forall2 is_fin out (zip_with avail_of (vals us) lefts).
Proof.
  intros Hus. revert caps lefts. induction Hus as [|u us [Hu Hpos] Hus IH];
    intros caps lefts Hcaps Hlen; [exists []; by split|].
  destruct Hcaps as [|c l caps lefts Hc Hcaps]; [done|]. simpl in Hlen.
  destruct (IH caps lefts Hcaps) as (out & Hout & Hfin); [lia|].
  cbn [node_caps]. rewrite Hout. eexists. split; [done|]. constructor; [|done].
  unfold avail_of. rewrite (eqb_fin Hc fin_dblmax).
  destruct (Qeq_bool l dbl_max_q); [apply fin_dblmax|].
  apply fin_div; [done|done|lra].
Qed.

Lemma node_at_heap (g g' : ExchangeGraph xq) p : node_heap g' = node_heap g → node_at g' p = node_at g p.
Proof. unfold node_at. by intros ->. Qed.

Lemma unode_pref_heap (g g' : ExchangeGraph xq) a :
  node_heap g' = node_heap g → unode_pref g' a = unode_pref g a.
Proof. intros Hheap. unfold unode_pref. by rewrite (node_at_heap _ _ _ Hheap). Qed.

Lemma NodeCapacity_spec g hs s gps p a min_cap cur :
  node_heap (graph_ s) = node_heap g → gps ⊆ request_groups_ g ++ supply_groups_ g →
  node_ready g gps p a → caps_track g hs s → cur ≃ node_flow p hs →
  ∃ x, NodeCapacity p a min_cap cur s = (Ret x, s) ∧ x ≃ node_avail g hs p a min_cap.
Proof.
  intros Hheap Hgps [Hq _ (gp & Hgp & Hin & Hlen) Hus] Htr Hcur.
  destruct (Htr gp (Hgps _ Hin)) as (caps & Hcaps & Hfin).
  pose proof (Forall2_length _ _ _ Hfin) as Hlen2. rewrite length_left_list in Hlen2.
  destruct (node_caps_fin (units g p a) caps _ Hus Hfin) as (out & Hout & Hofin); [congruence|].
  unfold NodeCapacity, node_avail. rewrite (bind_ret get _ s s s eq_refl), (node_at_heap _ _ p Hheap), Hgp.
  fold (units g p a). destruct (units g p a) as [|u us] eqn:Eus.
  { eexists. split; [done|]. by apply fin_sub. }
  rewrite Hcaps. rewrite (bind_ret (from_option_or _ _) _ s out s) by (by simpl default; rewrite Hout).
  destruct (left_list g gp hs) as [|l ls] eqn:El; [by apply Forall2_nil_inv_r in Hfin as ->|].
  inversion Hofin as [|x y xs ys Hx Hxs Heq1 Heq2]; subst out.
  eexists. split; [done|]. simpl default. rewrite El. apply fin_min; [|by apply fin_sub].
  destruct min_cap; [by apply min_elem_fin|by apply max_elem_fin].
Qed.

Lemma ArcCapacity_spec `{Limits xq, FloatDistance xq} slack g hs s a uq vq :
  node_heap (graph_ s) = node_heap g → arc_ready slack g a → caps_track g hs s →
  uq ≃ node_flow (unode_ a) hs → vq ≃ node_flow (vnode_ a) hs →
  ∃ x, ArcCapacity a uq vq s = (Ret x, s) ∧ x ≃ arc_avail g hs a.
Proof.
  intros Hheap Ha Htr Hu Hv.
  destruct (NodeCapacity_spec g hs s (request_groups_ g) _ a false uq Hheap ltac:(set_solver)
              (ar_unode _ _ _ Ha) Htr Hu) as (x & Hx & Hxf).
  destruct (NodeCapacity_spec g hs s (supply_groups_ g) _ a true vq Hheap ltac:(set_solver)
              (ar_vnode _ _ _ Ha) Htr Hv) as (y & Hy & Hyf).
  unfold ArcCapacity. rewrite (bind_ret _ _ _ _ _ Hx), (bind_ret _ _ _ _ _ Hy).
  eexists. split; [done|]. by apply fin_min.
Qed.

(** Matching [q] on a node takes one half match off the capacities of its
    group. *)
Lemma left_of_snoc g gp hs p a q i c :
  left_of g gp (hs ++ [(p, a, q)]) i c ==
  if Qeq_bool c dbl_max_q then dbl_max_q
  else left_of g gp hs i c -
       (if decide (group (node_at g p) = Some gp) then unit_of g p a i * val q else 0).
Proof.
  unfold left_of. destruct (Qeq_bool c dbl_max_q); [reflexivity|].
  rewrite group_use_app. unfold group_use at 2. simpl. lra.
Qed.

Lemma left_list_other g gp hs p a q :
  group (node_at g p) ≠ Some gp →
  Forall2 Qeq (left_list g gp hs) (left_list g gp (hs ++ [(p, a, q)])).
Proof.
  intros Hne. apply Forall2_same_length_lookup_2; [by rewrite !length_left_list|].
  intros i x y. unfold left_list. rewrite !list_lookup_imap.
  destruct (vals _ !! i) as [c|]; [|done]. simpl. intros [= <-] [= <-].
  rewrite left_of_snoc. unfold left_of. destruct (Qeq_bool c dbl_max_q); [reflexivity|].
  rewrite decide_False by done. lra.
Qed.

Lemma Forall2_is_fin_Qeq l a b : Forall2 is_fin l a → Forall2 Qeq a b → Forall2 is_fin l b.
Proof.
  intros Hla. revert b. induction Hla; intros b Hab; inversion Hab; subst; constructor; eauto.
  by eapply is_fin_weaken.
Qed.

Lemma unit_of_lookup g p a i u : units g p a !! i = Some u → unit_of g p a i = val u.
Proof.
  intros Hu. unfold unit_of, vals. apply nth_lookup_Some.
  by rewrite list_lookup_fmap, Hu.
Qed.

Lemma reduce_caps_fin g gp hs p a q caps :
  group (node_at g p) = Some gp → Forall (half_ok g) hs → finite q →
  Forall (λ c, finite c ∧ 0 <= val c <= dbl_max_q) (capacities_ (group_at g gp)) →
  Forall (λ u, finite u ∧ 0 < val u) (units g p a) →
  length (units g p a) = length (capacities_ (group_at g gp)) →
  Forall2 is_fin caps (left_list g gp hs) →
  Forall2 is_fin (reduce_caps q (units g p a) caps) (left_list g gp (hs ++ [(p, a, q)])).
Proof.
  intros Hgp Hhs Hq Hcs Hus Hlen Hfin.
  pose proof (Forall2_length _ _ _ Hfin) as Hlc. rewrite length_left_list in Hlc.
  apply Forall2_same_length_lookup_2.
  { unfold reduce_caps. rewrite length_zip_with, length_left_list. lia. }
  intros i x y Hx Hy. unfold reduce_caps in Hx. apply lookup_zip_with_Some in Hx as (u & prev & -> & Hu & Hprev).
  unfold left_list in Hy. rewrite list_lookup_imap in Hy.
  destruct (vals (capacities_ (group_at g gp)) !! i) as [c|] eqn:Hc; [|done]. injection Hy as <-.
  assert (prev ≃ left_of g gp hs i c) as Hpf.
  { eapply Forall2_lookup_lr; [exact Hfin|exact Hprev|].
    unfold left_list. by rewrite list_lookup_imap, Hc. }
  assert (c <= dbl_max_q) as Hcm.
  { unfold vals in Hc. rewrite list_lookup_fmap in Hc.
    destruct (capacities_ (group_at g gp) !! i) as [cx|] eqn:Hcx; [|done]. injection Hc as <-.
    by destruct (Forall_lookup_1 _ _ _ _ Hcs Hcx) as [_ []]. }
  destruct (Forall_lookup_1 _ _ _ _ Hus Hu) as [Huf _].
  eapply is_fin_weaken; [|symmetry; apply left_of_snoc].
  rewrite (eqb_fin Hpf fin_dblmax), left_of_max by done.
  destruct (Qeq_bool c dbl_max_q); [apply fin_dblmax|].
  rewrite decide_True by done. rewrite (unit_of_lookup _ _ _ _ _ Hu).
  eapply is_fin_weaken; [exact (fin_sub Hpf (fin_mul Hq Huf))|]. lra.
Qed.

Lemma reordered_AddMatch (g1 g2 : ExchangeGraph xq) a q :
  reordered g1 g2 → reordered (AddMatch a q g1) (AddMatch a q g2).
Proof. intros []. split; try done. simpl. congruence. Qed.

Section solve.
Context `{Limits xq} {e er : Q} `{!GoodLimits e er} `{FloatDistance xq}.
Context (slack : Q) (g : ExchangeGraph xq) (Hready : ready slack g).

Lemma eps_val : val eps == e.
Proof. apply (is_fin_val _ _ eps_fin). Qed.

Lemma UpdateCapacity_spec hs s gps p a q :
  node_heap (graph_ s) = node_heap g → gps ⊆ request_groups_ g ++ supply_groups_ g →
  node_ready g gps p a → caps_track g hs s → Forall (half_ok g) hs → finite q →
  val q - e <= val (qty (node_at g p)) →
  ∃ m, UpdateCapacity p a q s = (Ret tt, set_grp_caps m s) ∧
       caps_track g (hs ++ [(p, a, q)]) (set_grp_caps m s).
Proof.
  intros Hheap Hgps [Hq _ (gp & Hgp & Hin & Hlen) Hus] Htr Hhs Hqf Hle.
  destruct (Htr gp (Hgps _ Hin)) as (caps & Hcaps & Hfin).
  pose proof (Forall2_length _ _ _ Hfin) as Hlc. rewrite length_left_list in Hlc.
  exists (<[gp := reduce_caps q (units g p a) caps]> (grp_caps_ s)). split.
  - unfold UpdateCapacity. rewrite (bind_ret get _ s s s eq_refl).
    rewrite (node_at_heap _ _ p Hheap), Hgp. fold (units g p a). simpl default. rewrite Hcaps.
    simpl default. rewrite Hlen, <-Hlc, Nat.eqb_refl.
    erewrite bind_ret; [|done]. erewrite bind_ret; [|done].
    rewrite (IsNegative_fin _ _ (fin_sub Hq Hqf)).
    replace (Qltb _ _) with false; [done|]. symmetry. apply Qltb_ge. lra.
  - intros gp' Hgp'. cbn. rewrite lookup_insert.
    destruct (decide (gp = gp')) as [<-|Hne].
    + eexists. split; [done|]. apply reduce_caps_fin; try done.
      apply (rd_caps _ _ Hready), Hgp'.
    + destruct (Htr gp' Hgp') as (caps' & ? & Hfin'). exists caps'. split; [done|].
      eapply Forall2_is_fin_Qeq; [exact Hfin'|]. apply left_list_other. congruence.
Qed.

Lemma add_n_qty_track hs s p a q :
  qty_track hs s → finite q → qty_track (hs ++ [(p, a, q)]) (add_n_qty p q s).
Proof.
  intros Htr Hq p'. eapply is_fin_weaken; [|symmetry; apply node_flow_snoc].
  unfold n_qty_at, add_n_qty, at_default. cbn [n_qty_ set_n_qty]. rewrite lookup_insert.
  destruct (Z.eqb_spec p p') as [<-|Hne].
  - rewrite decide_True by done. exact (fin_add (Htr p) Hq).
  - rewrite decide_False by done. eapply is_fin_weaken; [apply Htr|]. lra.
Qed.

(** The state of a solve after the matches [ms]. *)
Record tracks (ms : list (Arc xq * xq)) (s : GreedySolver xq) : Prop := {
  tr_graph : reordered (set_matches (matches_ g ++ ms) g) (graph_ s);
  tr_caps : caps_track g (halves ms) s;
  tr_qty : qty_track (halves ms) s;
  tr_obj : obj_ s ≃ match_cost g ms;
  tr_ok : Forall (match_ok slack g) ms
}.

Lemma tracks_heap ms s : tracks ms s → node_heap (graph_ s) = node_heap g.
Proof. intros Htr. apply (ro_nodes _ _ (tr_graph _ _ Htr)). Qed.

Lemma tracks_halves ms s : tracks ms s → Forall (half_ok g) (halves ms).
Proof. intros Htr. apply (match_ok_halves slack), Htr. Qed.
Lemma do_match_spec ms s a q :
  tracks ms s → match_ok slack g (a, q) →
  val q - e <= val (qty (node_at g (unode_ a))) →
  val q - e <= val (qty (node_at g (vnode_ a))) →
  ∃ s', do_match a q s = (Ret tt, s') ∧ tracks (ms ++ [(a, q)]) s' ∧
        unmatched_ s' = unmatched_ s.
Proof.
  intros Htr Hok Hqu Hqv. pose proof Hok as (_ & _ & Ha & Hq & He & _). simpl in Ha, Hq, He.
  pose proof (tracks_heap _ _ Htr) as Hheap. pose proof (tracks_halves _ _ Htr) as Hhs.
  assert (0 <= val q) as Hq0 by (rewrite eps_val in He; pose proof eps_nonneg; lra).
  destruct (UpdateCapacity_spec (halves ms) s (request_groups_ g) (unode_ a) a q)
    as (m1 & Hm1 & Hc1); try done; [set_solver|apply Ha|apply Htr|].
  destruct (UpdateCapacity_spec (halves ms ++ [(unode_ a, a, q)]) (set_grp_caps m1 s)
    (supply_groups_ g) (vnode_ a) a q) as (m2 & Hm2 & Hc2); try done; [set_solver|apply Ha| |].
  { apply Forall_app; split; [done|]. constructor; [|done]. split; [done|].
    eapply Forall_impl; [apply (nr_units _ _ _ _ (ar_unode _ _ _ Ha))|]. by intros ? []. }
  eexists. split; [|split].
  - unfold do_match. rewrite (bind_ret _ _ _ _ _ Hm1), (bind_ret _ _ _ _ _ Hm2). done.
  - split; cbn.
    + rewrite app_assoc. apply (reordered_AddMatch (set_matches (matches_ g ++ ms) g)), Htr.
    + by rewrite halves_snoc.
    + rewrite halves_snoc.
      apply (add_n_qty_track _ (add_n_qty (unode_ a) q (set_grp_caps m2 (set_grp_caps m1 s)))),
        Hq. apply (add_n_qty_track _ (set_grp_caps m2 (set_grp_caps m1 s))), Hq. apply Htr.
    + eapply is_fin_weaken; [|symmetry; apply match_cost_snoc].
      destruct (ar_pref _ _ _ Ha) as [Hp Hpos].
      rewrite (unode_pref_heap g) by exact Hheap.
      apply fin_add; [apply Htr|]. apply fin_div; [done|done|lra].
    + apply Forall_app. split; [apply Htr|]. by constructor.
  - done.
Qed.
(** What the solver tries to match on an arc. *)
Definition tomatch (T m : Q) (a : Arc xq) (ms : list (Arc xq * xq)) : Q :=
  Qmin (T - m) (arc_avail g (halves ms) a).

Lemma node_avail_rest hs p a mm :
  node_avail g hs p a mm <= val (qty (node_at g p)) - node_flow p hs.
Proof. unfold node_avail. destruct (zip_with _ _ _); [lra|apply Q.le_min_r]. Qed.

Lemma node_avail_min hs p gp a i u c :
  group (node_at g p) = Some gp → vals (units g p a) !! i = Some u →
  vals (capacities_ (group_at g gp)) !! i = Some c →
  node_avail g hs p a true <= avail_of u (left_of g gp hs i c).
Proof.
  intros Hgp Hu Hc. unfold node_avail. rewrite Hgp. simpl default.
  assert (zip_with avail_of (vals (units g p a)) (left_list g gp hs) !! i =
    Some (avail_of u (left_of g gp hs i c))) as Hi.
  { apply lookup_zip_with_Some. eexists _, _. split_and!; [done|done|].
    unfold left_list. by rewrite list_lookup_imap, Hc. }
  destruct (zip_with _ _ _) as [|x l]; [done|].
  destruct (foldl_Qmin_le x l) as [Hx Hl]. etrans; [apply Q.le_min_l|].
  destruct i as [|i]; [by injection Hi as <-|]. exact (Forall_lookup_1 _ _ _ _ Hl Hi).
Qed.

Lemma arc_avail_u hs a : arc_avail g hs a <= node_avail g hs (unode_ a) a false.
Proof. apply Q.le_min_l. Qed.
Lemma arc_avail_v hs a : arc_avail g hs a <= node_avail g hs (vnode_ a) a true.
Proof. apply Q.le_min_r. Qed.

Lemma slack_step f q c : 0 <= f → q * (1 - slack) <= c - f → (f + q) * (1 - slack) <= c.
Proof. intros Hf Hq. pose proof (rd_slack _ _ Hready). nra. Qed.

Lemma avail_drop gp hs hs' i u c q r r' :
  Forall (half_ok g) hs → Forall (half_ok g) (hs ++ hs') → 0 < u → c <= dbl_max_q →
  u * q <= group_use g gp i hs' → r' <= r - q → r <= dbl_max_q →
  Qmin (avail_of u (left_of g gp (hs ++ hs') i c)) r' <=
  Qmin (avail_of u (left_of g gp hs i c)) r - q.
Proof.
  intros Hhs Hhs' Hu Hc Huse Hr Hrm. unfold avail_of. rewrite !left_of_max by done.
  destruct (Qeq_bool c dbl_max_q) eqn:E; [q_minmax|]. unfold left_of. rewrite E.
  assert ((c - group_use g gp i (hs ++ hs')) / u <= (c - group_use g gp i hs) / u - q);
    [|q_minmax].
  rewrite group_use_app. apply Qle_shift_div_r; [done|].
  assert (((c - group_use g gp i hs) / u - q) * u == c - group_use g gp i hs - u * q) as ->
    by (field; lra). lra.
Qed.

(** Half matches that send at least [q] through a node take [q] off what the node
    can still take; more matches never make more available. *)
Lemma node_avail_drop gps p gp a hs hs' q mm :
  node_ready g gps p a → gps ⊆ request_groups_ g ++ supply_groups_ g →
  group (node_at g p) = Some gp → Forall (half_ok g) (hs ++ hs') →
  q <= node_flow p hs' → (∀ i, unit_of g p a i * q <= group_use g gp i hs') →
  node_avail g (hs ++ hs') p a mm <= node_avail g hs p a mm - q.
Proof.
  intros [_ Hqr (gp' & Hgp' & Hin & Hlen) Hus] Hgps Hgp Hhs Hflow Huse.
  assert (gp' = gp) as -> by congruence. clear Hgp'.
  apply Forall_app in Hhs as Hhs2. destruct Hhs2 as [Hhs1 Hhs2].
  pose proof (node_flow_nonneg g p _ Hhs1) as Hf.
  unfold node_avail. rewrite Hgp. simpl default.
  set (r := val (qty (node_at g p)) - node_flow p hs).
  set (r' := val (qty (node_at g p)) - node_flow p (hs ++ hs')).
  assert (r' <= r - q) as Hr by (unfold r, r'; rewrite node_flow_app; lra).
  assert (r <= dbl_max_q) as Hrm by (unfold r; lra).
  assert (Forall2 (λ y' y, Qmin y' r' <= Qmin y r - q)
    (zip_with avail_of (vals (units g p a)) (left_list g gp (hs ++ hs')))
    (zip_with avail_of (vals (units g p a)) (left_list g gp hs))) as HF.
  { apply Forall2_same_length_lookup_2; [by rewrite !length_zip_with, !length_left_list|].
    intros i y' y (u & l' & -> & Hu & Hl')%lookup_zip_with_Some
      (u2 & l & -> & Hu2 & Hl)%lookup_zip_with_Some. simplify_eq.
    unfold left_list in Hl', Hl. rewrite list_lookup_imap in Hl', Hl.
    destruct (vals (capacities_ (group_at g gp)) !! i) as [c|] eqn:Hc; [|done].
    injection Hl' as <-. injection Hl as <-.
    unfold vals in Hu, Hc. rewrite list_lookup_fmap in Hu, Hc.
    destruct (units g p a !! i) as [ux|] eqn:Hux; [|done]. injection Hu as <-.
    destruct (capacities_ (group_at g gp) !! i) as [cx|] eqn:Hcx; [|done]. injection Hc as <-.
    destruct (Forall_lookup_1 _ _ _ _ Hus Hux) as [_ Hup].
    destruct (Forall_lookup_1 _ _ _ _ (rd_caps _ _ Hready gp (Hgps _ Hin)) Hcx) as [_ [_ Hcm]].
    specialize (Huse i). rewrite (unit_of_lookup _ _ _ _ _ Hux) in Huse.
    by apply avail_drop. }
  inversion HF; [done|]. by apply foldl_Qminmax_drop.
Qed.

(** One match adds to the flow of a node, the use of a supply capacity and the
    flow of a request group at most what was left of them. *)
Section snoc.
Context (ms : list (Arc xq * xq)) (a : Arc xq) (q : xq).
Hypothesis Hms : Forall (match_ok slack g) ms.
Hypothesis Ha : arc_ready slack g a.
Hypothesis Hav : val q * (1 - slack) <= arc_avail g (halves ms) a.

Lemma node_flow_step p :
  node_flow p (halves ms) * (1 - slack) <= val (qty (node_at g p)) →
  node_flow p (halves (ms ++ [(a, q)])) * (1 - slack) <= val (qty (node_at g p)).
Proof.
  intros Hn. rewrite halves_snoc, !node_flow_snoc.
  pose proof (node_flow_nonneg g p _ (match_ok_halves slack g ms Hms)) as Hf.
  pose proof (arc_avail_u (halves ms) a). pose proof (arc_avail_v (halves ms) a).
  pose proof (node_avail_rest (halves ms) (unode_ a) a false).
  pose proof (node_avail_rest (halves ms) (vnode_ a) a true).
  pose proof (ar_ends _ _ _ Ha) as Hends.
  destruct (Z.eqb_spec (unode_ a) p), (Z.eqb_spec (vnode_ a) p); subst; try done.
  - rewrite Qplus_0_r. apply slack_step; [done|lra].
  - rewrite Qplus_0_r. apply slack_step; [done|lra].
  - by rewrite !Qplus_0_r.
Qed.

Lemma supply_use_step gp i c :
  gp ∈ supply_groups_ g → vals (capacities_ (group_at g gp)) !! i = Some c →
  ¬ c == dbl_max_q → c <= dbl_max_q →
  group_use g gp i (halves ms) * (1 - slack) <= c →
  group_use g gp i (halves (ms ++ [(a, q)])) * (1 - slack) <= c.
Proof.
  intros Hgp Hc Hmax Hle Hs. rewrite halves_snoc, !group_use_app.
  pose proof (match_ok_halves slack g ms Hms) as Hhs.
  pose proof (group_use_nonneg g gp i _ Hhs) as Hf.
  assert (group (node_at g (unode_ a)) ≠ Some gp) as Hne.
  { destruct (nr_group _ _ _ _ (ar_unode _ _ _ Ha)) as (gq & Hgq & Hin & _).
    rewrite Hgq. intros [= <-]. by apply (rd_disjoint _ _ Hready gq). }
  unfold group_use at 2 3. simpl. rewrite (decide_False _ _ Hne).
  destruct (decide (group (node_at g (vnode_ a)) = Some gp)) as [Hg|]; [|lra].
  destruct (nr_group _ _ _ _ (ar_vnode _ _ _ Ha)) as (gq & Hgq & _ & Hlen).
  assert (gq = gp) as -> by congruence.
  assert (∃ u, units g (vnode_ a) a !! i = Some u) as [u Hui].
  { apply lookup_lt_is_Some. rewrite Hlen. apply lookup_lt_Some in Hc.
    unfold vals in Hc. by rewrite length_map in Hc. }
  assert (vals (units g (vnode_ a) a) !! i = Some (val u)) as Huv
    by (unfold vals; by rewrite list_lookup_fmap, Hui).
  pose proof (node_avail_min (halves ms) (vnode_ a) gp a i (val u) c Hg Huv Hc) as Hmin.
  destruct (Forall_lookup_1 _ _ _ _ (nr_units _ _ _ _ (ar_vnode _ _ _ Ha)) Hui) as [_ Hupos].
  rewrite (unit_of_lookup _ _ _ _ _ Hui). unfold avail_of in Hmin.
  rewrite (left_of_max g gp _ i c Hhs Hle) in Hmin. unfold left_of in Hmin.
  destruct (Qeq_bool c dbl_max_q) eqn:E; [by apply Qeq_bool_iff in E|].
  pose proof (arc_avail_v (halves ms) a) as Hv.
  assert (val u * val q * (1 - slack) <= c - group_use g gp i (halves ms)) as Hstep.
  { pose proof (Qle_div_elim (val q * (1 - slack)) _ _ Hupos ltac:(etrans; [|exact Hmin]; lra)).
    lra. }
  pose proof (slack_step _ _ _ Hf Hstep). lra.
Qed.

Lemma request_flow_step gp x :
  (group (node_at g (unode_ a)) = Some gp →
   val q * (1 - slack) <= x - request_flow g gp ms) →
  request_flow g gp ms * (1 - slack) <= x →
  request_flow g gp (ms ++ [(a, q)]) * (1 - slack) <= x.
Proof.
  intros Hreq Hr. rewrite request_flow_snoc.
  pose proof (request_flow_nonneg slack g gp ms Hms).
  destruct (decide _); [apply slack_step; auto|lra].
Qed.
End snoc.

Lemma within_snoc ms a q gp x :
  within slack g ms → arc_ready slack g a → Forall (match_ok slack g) ms →
  group (node_at g (unode_ a)) = Some gp → rqty (group_at g gp) = Some x →
  val q * (1 - slack) <= tomatch (val x) (request_flow g gp ms) a ms →
  within slack g (ms ++ [(a, q)]).
Proof.
  intros [Hn Hs Hr] Ha Hms Hgp Hx Hfit.
  assert (val q * (1 - slack) <= val x - request_flow g gp ms) as Hreq
    by (etrans; [exact Hfit|apply Q.le_min_l]).
  assert (val q * (1 - slack) <= arc_avail g (halves ms) a) as Hav
    by (etrans; [exact Hfit|apply Q.le_min_r]).
  split.
  - intros p Hp. by apply node_flow_step, Hn.
  - intros gp' i c Hgp' Hc Hmax. apply supply_use_step; try done; [|by apply Hs].
    unfold vals in Hc. rewrite list_lookup_fmap in Hc.
    destruct (capacities_ (group_at g gp') !! i) as [cx|] eqn:Hcx; [|done]. injection Hc as <-.
    by destruct (Forall_lookup_1 _ _ _ _ (rd_caps _ _ Hready gp' ltac:(set_solver)) Hcx) as [_ []].
  - intros gp' y Hgp' Hy. apply request_flow_step; [done| |by apply Hr].
    intros ?. by assert (gp' = gp) as -> by congruence; simplify_eq.
Qed.
(** A match sends its quantity through both of its nodes and their groups. *)
Lemma match_use p a q gp :
  Forall (half_ok g) (halves [(a, q)]) → p = unode_ a ∨ p = vnode_ a →
  group (node_at g p) = Some gp →
  val q <= node_flow p (halves [(a, q)]) ∧
  ∀ i, unit_of g p a i * val q <= group_use g gp i (halves [(a, q)]).
Proof.
  intros Hh Hp Hgp. inversion Hh as [|? ? [Hq Hu] Hh2]; subst.
  inversion Hh2 as [|? ? [_ Hv] _]; subst. simpl in *. unfold node_flow, group_use. simpl. split.
  - destruct Hp as [->| ->]; rewrite ?Z.eqb_refl; split_ifs; lra.
  - intros i.
    assert (∀ p', Forall (λ u, 0 < val u) (units g p' a) → 0 <= unit_of g p' a i * val q) as Hpos
      by (intros; apply Qmult_le_0_compat; [by apply nth_positive|done]).
    pose proof (Hpos _ Hu). pose proof (Hpos _ Hv).
    destruct Hp as [->| ->]; rewrite (decide_True _ _ Hgp); destruct (decide _); lra.
Qed.

(** Matching [q] on an arc takes [q] off what is available on it. *)
Lemma arc_avail_match ms a q :
  Forall (match_ok slack g) (ms ++ [(a, q)]) →
  arc_avail g (halves (ms ++ [(a, q)])) a <= arc_avail g (halves ms) a - val q.
Proof.
  intros Hms. pose proof (match_ok_halves slack g _ Hms) as Hhs.
  rewrite halves_app in Hhs |- *. apply Forall_app in Hms as [_ Hok].
  apply Forall_inv in Hok as (_ & _ & Ha & _). simpl in Ha.
  apply Forall_app in Hhs as Hh. destruct Hh as [_ Hh].
  destruct (nr_group _ _ _ _ (ar_unode _ _ _ Ha)) as (gu & Hgu & _).
  destruct (nr_group _ _ _ _ (ar_vnode _ _ _ Ha)) as (gv & Hgv & _).
  destruct (match_use (unode_ a) a q gu Hh (or_introl eq_refl) Hgu) as [Hfu Huu].
  destruct (match_use (vnode_ a) a q gv Hh (or_intror eq_refl) Hgv) as [Hfv Huv].
  pose proof (node_avail_drop (request_groups_ g) (unode_ a) gu a _ _ (val q) false
    (ar_unode _ _ _ Ha) ltac:(set_solver) Hgu Hhs Hfu Huu) as Hdu.
  pose proof (node_avail_drop (supply_groups_ g) (vnode_ a) gv a _ _ (val q) true
    (ar_vnode _ _ _ Ha) ltac:(set_solver) Hgv Hhs Hfv Huv) as Hdv.
  unfold arc_avail. q_minmax.
Qed.

(** Further matches never make more available on an arc. *)
Lemma arc_avail_mono ms ms' a :
  arc_ready slack g a → Forall (match_ok slack g) (ms ++ ms') →
  arc_avail g (halves (ms ++ ms')) a <= arc_avail g (halves ms) a.
Proof.
  intros Ha Hms. pose proof (match_ok_halves slack g _ Hms) as Hhs.
  rewrite halves_app in Hhs |- *. apply Forall_app in Hhs as Hh. destruct Hh as [_ Hh].
  destruct (nr_group _ _ _ _ (ar_unode _ _ _ Ha)) as (gu & Hgu & _).
  destruct (nr_group _ _ _ _ (ar_vnode _ _ _ Ha)) as (gv & Hgv & _).
  assert (∀ p gp i, unit_of g p a i * 0 <= group_use g gp i (halves ms')) as Hu.
  { intros p gp i. pose proof (group_use_nonneg g gp i _ Hh). lra. }
  pose proof (node_avail_drop (request_groups_ g) (unode_ a) gu a _ _ 0 false
    (ar_unode _ _ _ Ha) ltac:(set_solver) Hgu Hhs (node_flow_nonneg g _ _ Hh) (Hu _ _)) as Hdu.
  pose proof (node_avail_drop (supply_groups_ g) (vnode_ a) gv a _ _ 0 true
    (ar_vnode _ _ _ Ha) ltac:(set_solver) Hgv Hhs (node_flow_nonneg g _ _ Hh) (Hu _ _)) as Hdv.
  unfold arc_avail. q_minmax.
Qed.

(** An arc is exhausted for a demand when no more than [eps] of it can be
    matched on the arc; an exclusive arc, when it is matched or its exclusive
    quantity cannot be met. *)
Definition exhausted (T m : Q) (a : Arc xq) (ms : list (Arc xq * xq)) : Prop :=
  if exclusive_ a then
    (∃ q, (a, q) ∈ ms) ∨ val (excl_val_ a) <= e ∨ tomatch T m a ms < val (excl_val_ a)
  else tomatch T m a ms <= e.

Lemma tomatch_mono T m m' a ms ms' :
  arc_ready slack g a → Forall (match_ok slack g) (ms ++ ms') → m <= m' →
  tomatch T m' a (ms ++ ms') <= tomatch T m a ms.
Proof. intros Ha Hms Hm. pose proof (arc_avail_mono _ _ _ Ha Hms). unfold tomatch. q_minmax. Qed.

Lemma exhausted_mono T m m' a ms ms' :
  arc_ready slack g a → Forall (match_ok slack g) (ms ++ ms') → m <= m' →
  exhausted T m a ms → exhausted T m' a (ms ++ ms').
Proof.
  intros Ha Hms Hm. pose proof (tomatch_mono T m m' a ms ms' Ha Hms Hm). unfold exhausted.
  destruct (exclusive_ a); [|lra]. intros [[q Hq]|[?|?]]; [left|right; left; lra|right; right; lra].
  exists q. apply elem_of_app. by left.
Qed.
(** ** One request group *)
Section group.
Context (gp : ptr) (x : xq).
Hypothesis Hgp : gp ∈ request_groups_ g.
Hypothesis Hx : rqty (group_at g gp) = Some x.

(** The state while the group is being satisfied. *)
Record serving (ms : list (Arc xq * xq)) (mtch : xq) (u : xq) (s : GreedySolver xq) : Prop := {
  se_tracks : tracks ms s;
  se_within : within slack g ms;
  se_match : mtch ≃ request_flow g gp ms;
  se_unmatched : unmatched_ s = u
}.

(** Matches that are all for this group. *)
Definition for_group (ms : list (Arc xq * xq)) : Prop :=
  Forall (λ m, group (node_at g (unode_ m.1)) = Some gp) ms.

Lemma target_fin : finite x ∧ 0 <= val x.
Proof. destruct (rd_target _ _ Hready gp Hgp) as (y & Hy & ?). by simplify_eq. Qed.

(** What [excl_adjust] makes of the quantity to match. *)
Lemma excl_adjust_spec a y t :
  arc_ready slack g a → y ≃ t →
  (excl_adjust a y >? eps)%D = true →
  finite (excl_adjust a y) ∧ e < val (excl_adjust a y) ∧
  val (excl_adjust a y) * (1 - slack) <= t ∧
  (exclusive_ a = true → excl_adjust a y = excl_val_ a) ∧
  (exclusive_ a = false → val (excl_adjust a y) == t) ∧
  val (excl_adjust a y) - e <= t.
Proof.
  intros Ha Hy Hgt. pose proof eps_nonneg as Hpos. pose proof (rd_slack _ _ Hready) as Hsl.
  assert (finite (nZ 0 : xq)) as Hz0 by done.
  assert (∀ z : xq, finite z → (z >? eps)%D = true → e < val z) as Hcmp
    by (intros z Hz Hc; exact (fin_ltb_true eps_fin Hz Hc)).
  unfold excl_adjust in *. destruct (exclusive_ a) eqn:Ex.
  - pose proof (ar_excl _ _ _ Ha Ex) as Hf.
    destruct (float_distance y (excl_val_ a) >=? float_ulp_eq)%D eqn:Ed.
    { pose proof (Hcmp _ Hz0 Hgt) as Hlt. change (e < 0) in Hlt. lra. }
    pose proof (Hcmp _ Hf Hgt) as Hlt.
    pose proof (ar_excl_tol _ _ _ Ha Ex ltac:(rewrite eps_val; lra) y t Hy Ed).
    pose proof (ar_excl_small _ _ _ Ha Ex) as Hsm. rewrite eps_val in Hsm.
    split_and!; try done. lra.
  - pose proof (is_fin_finite _ _ Hy) as Hf. pose proof (Hcmp _ Hf Hgt) as Hlt.
    pose proof (is_fin_val _ _ Hy) as Hv. split_and!; try done; nra.
Qed.

(** When nothing is matched, nothing could be. *)
Lemma excl_adjust_none a y t :
  arc_ready slack g a → y ≃ t → (excl_adjust a y >? eps)%D = false →
  if exclusive_ a then val (excl_val_ a) <= e ∨ t < val (excl_val_ a) else t <= e.
Proof.
  intros Ha Hy Hle. unfold excl_adjust in Hle. destruct (exclusive_ a) eqn:Ex.
  - destruct (Qlt_le_dec t (val (excl_val_ a))) as [|Hge]; [by right|]. left.
    rewrite (ar_excl_meet _ _ _ Ha Ex y t Hy Hge) in Hle.
    exact (fin_ltb_false eps_fin (ar_excl _ _ _ Ha Ex) Hle).
  - exact (fin_ltb_false eps_fin Hy Hle).
Qed.

Lemma try_arc_spec ms mtch u s a :
  serving ms mtch u s → request_node g gp (unode_ a) →
  a ∈ at_default [] (node_arc_map_ g) (unode_ a) →
  ∃ mtch' s' ms', try_arc x a mtch s = (Ret mtch', s') ∧
    serving (ms ++ ms') mtch' u s' ∧ for_group ms' ∧
    exhausted (val x) (request_flow g gp (ms ++ ms')) a (ms ++ ms').
Proof.
  intros [Htr Hwi Hm Hu] Hreq Hin. pose proof (proj1 target_fin) as Hxf.
  destruct (rd_arcs _ _ Hready gp _ a Hreq Hin) as [_ Ha].
  pose proof (rd_node _ _ Hready gp _ Hreq) as Hg.
  destruct (ArcCapacity_spec slack g (halves ms) s a (n_qty_at (unode_ a) s) (n_qty_at (vnode_ a) s))
    as (c & Hc & Hcf); try done; [by eapply tracks_heap|apply Htr..|].
  set (y := dmin (x - mtch)%D c).
  assert (y ≃ tomatch (val x) (request_flow g gp ms) a ms) as Hy.
  { apply fin_min; [|done]. by apply fin_sub. }
  unfold try_arc. rewrite (bind_ret get _ s s s eq_refl), (bind_ret _ _ _ _ _ Hc).
  fold y. destruct (excl_adjust a y >? eps)%D eqn:Egt.
  - destruct (excl_adjust_spec a y _ Ha Hy Egt) as (Hqf & Hqe & Hfit & Hex & Hne & Hqt).
    set (q := excl_adjust a y) in *.
    assert (match_ok slack g (a, q)) as Hok.
    { split; [by exists gp|]. split_and!; try done. simpl. rewrite eps_val. done. }
    assert (∀ p mm, arc_avail g (halves ms) a <= node_avail g (halves ms) p a mm →
      val q - e <= val (qty (node_at g p))) as Hqty.
    { intros p mm Hav. pose proof (node_avail_rest (halves ms) p a mm).
      pose proof (node_flow_nonneg g p _ (tracks_halves _ _ Htr)).
      pose proof (Q.le_min_r (val x - request_flow g gp ms) (arc_avail g (halves ms) a)).
      unfold tomatch in Hqt. lra. }
    destruct (do_match_spec ms s a q Htr Hok) as (s' & Hs' & Htr' & Hu').
    { apply (Hqty _ false), arc_avail_u. } { apply (Hqty _ true), arc_avail_v. }
    eexists _, s', [(a, q)]. rewrite (bind_ret _ _ _ _ _ Hs').
    split_and!; [done|split|by constructor|].
    + done.
    + eapply within_snoc; try done. apply Htr.
    + eapply is_fin_weaken; [exact (fin_add Hm Hqf)|].
      rewrite request_flow_snoc, decide_True by done. reflexivity.
    + congruence.
    + unfold exhausted. destruct (exclusive_ a); [left; exists q; set_solver|].
      specialize (Hne eq_refl). pose proof (arc_avail_match ms a q (tr_ok _ _ Htr')).
      pose proof eps_nonneg. unfold tomatch in Hne |- *. rewrite request_flow_snoc, decide_True by done.
      q_minmax.
  - eexists mtch, s, []. rewrite app_nil_r. split_and!; [done|done|constructor|].
    pose proof (excl_adjust_none a y _ Ha Hy Egt) as Hnone. unfold exhausted.
    destruct (exclusive_ a); [by right|done].
Qed.

Lemma exhausted_over m a ms : val x < m → exhausted (val x) m a ms.
Proof.
  intros Hm. pose proof eps_nonneg. pose proof (Q.le_min_l (val x - m) (arc_avail g (halves ms) a)).
  unfold exhausted, tomatch. destruct (exclusive_ a); [|lra].
  destruct (Qlt_le_dec e (val (excl_val_ a))); [|by right; left]. right; right. lra.
Qed.

(** The arcs of the request nodes of the group. *)
Definition group_arc (a : Arc xq) : Prop :=
  request_node g gp (unode_ a) ∧ a ∈ at_default [] (node_arc_map_ g) (unode_ a).

Definition spent (ms : list (Arc xq * xq)) (a : Arc xq) : Prop :=
  exhausted (val x) (request_flow g gp ms) a ms.

Lemma spent_app ms ms' a :
  group_arc a → Forall (match_ok slack g) (ms ++ ms') → spent ms a → spent (ms ++ ms') a.
Proof.
  intros [Hreq Hin] Hms. apply exhausted_mono; [|done|].
  - by destruct (rd_arcs _ _ Hready gp _ a Hreq Hin).
  - unfold request_flow. rewrite map_app, sumQ_app.
    apply Forall_app in Hms as [_ Hms]. pose proof (request_flow_nonneg slack g gp ms' Hms) as Hn.
    unfold request_flow in Hn. lra.
Qed.

(** The outcome of a stretch of the loops: more matches for this group, after
    which the arcs [l] are exhausted. *)
Definition served (c : M (GreedySolver xq) xq) (l : list (Arc xq)) ms u s : Prop :=
  ∃ mtch' s' ms', c s = (Ret mtch', s') ∧ serving (ms ++ ms') mtch' u s' ∧
    for_group ms' ∧ Forall (spent (ms ++ ms')) l.

Lemma served_stop mtch l ms u s :
  serving ms mtch u s → (mtch <=? x)%D = false → served (mret mtch) l ms u s.
Proof.
  intros Hs Hgt. exists mtch, s, []. rewrite app_nil_r. split_and!; [done|done|constructor|].
  apply Forall_true. intros a. apply exhausted_over.
  exact (fin_leb_false (se_match _ _ _ _ Hs) (proj1 target_fin) Hgt).
Qed.

Lemma served_bind c (k : xq → M (GreedySolver xq) xq) l l' ms u s :
  Forall group_arc l → served c l ms u s →
  (∀ ms' mtch' s', serving (ms ++ ms') mtch' u s' → served (k mtch') l' (ms ++ ms') u s') →
  served (c ≫= k) (l ++ l') ms u s.
Proof.
  intros Hl (m1 & s1 & ms1 & Hc & Hs1 & Hf1 & He1) Hk.
  destruct (Hk _ _ _ Hs1) as (m2 & s2 & ms2 & Hk2 & Hs2 & Hf2 & He2).
  rewrite <-app_assoc in Hs2, He2. exists m2, s2, (ms1 ++ ms2).
  split_and!; [by rewrite (bind_ret _ _ _ _ _ Hc)|done|by apply Forall_app|].
  apply Forall_app. split; [|done]. rewrite app_assoc.
  pose proof (tr_ok _ _ (se_tracks _ _ _ _ Hs2)) as Hok. rewrite app_assoc in Hok.
  apply Forall_forall. intros a Ha. rewrite Forall_forall in Hl, He1. apply spent_app; auto.
Qed.

Lemma match_arcs_spec l mtch ms u s :
  Forall group_arc l → serving ms mtch u s → served (match_arcs x l mtch) l ms u s.
Proof.
  intros Hl. revert mtch ms s. induction Hl as [|a l Ha Hl IH]; intros mtch ms s Hs; cbn [match_arcs].
  - exists mtch, s, []. rewrite app_nil_r. split_and!; [done|done|apply Forall_nil_2..].
  - destruct (mtch <=? x)%D eqn:Ele; [|by apply served_stop].
    apply (served_bind _ _ [a]); [by constructor| |auto].
    destruct Ha as [Hreq Hin]. destruct (try_arc_spec ms mtch u s a Hs Hreq Hin)
      as (m' & s' & ms' & Hc & Hs' & Hf & Hex). exists m', s', ms'.
    split_and!; [done..|by apply Forall_singleton].
Qed.

Lemma match_nodes_spec l mtch ms u s :
  Forall (request_node g gp) l → serving ms mtch u s →
  served (match_nodes x l mtch) (l ≫= λ p, at_default [] (node_arc_map_ g) p) ms u s.
Proof.
  intros Hl. revert mtch ms s. induction Hl as [|p l Hp Hl IH]; intros mtch ms s Hs; cbn [match_nodes].
  - exists mtch, s, []. rewrite app_nil_r. split_and!; [done|done|apply Forall_nil_2..].
  - destruct (mtch <=? x)%D eqn:Ele; [|by apply served_stop].
    pose proof (ro_map _ _ (tr_graph _ _ (se_tracks _ _ _ _ Hs))) as Hmap. simpl in Hmap.
    set (arcs := at_default [] (node_arc_map_ g) p).
    assert (Forall group_arc arcs) as Harcs.
    { apply Forall_forall. intros a Ha. destruct (rd_arcs _ _ Hready gp p a Hp Ha) as [Hu _].
      split; by rewrite Hu. }
    assert (sorted_arcs (graph_ s) p ≡ₚ arcs) as Hperm.
    { unfold sorted_arcs, arcs, at_default. rewrite Hmap. apply stable_sort_perm. }
    change (served (get ≫= λ s0, match_arcs x (sorted_arcs (graph_ s0) p) mtch ≫=
      λ m', match_nodes x l m') (arcs ++ (l ≫= λ p, at_default [] (node_arc_map_ g) p)) ms u s).
    assert (served (match_arcs x (sorted_arcs (graph_ s) p) mtch ≫= λ m', match_nodes x l m')
      (arcs ++ (l ≫= λ p, at_default [] (node_arc_map_ g) p)) ms u s) as Hgoal; [|exact Hgoal].
    apply served_bind; [done| |auto].
    destruct (match_arcs_spec (sorted_arcs (graph_ s) p) mtch ms u s)
      as (m' & s' & ms' & Hc & Hs' & Hf & Hex); [by rewrite Hperm|done|].
    exists m', s', ms'. split_and!; try done. by rewrite <-Hperm.
Qed.
End group.
(** ** The whole solve *)
Definition target (gp : ptr) : Q := val (default (nZ 0) (rqty (group_at g gp))).

(** The demand of the groups [l] that the matches [ms] leave unmet. *)
Definition unmet (l : list ptr) (ms : list (Arc xq * xq)) : Q :=
  sumQ (map (λ gp, target gp - request_flow g gp ms) l).

(** The state after the request groups [l] have been served. *)
Record solved (l : list ptr) (ms : list (Arc xq * xq)) (s : GreedySolver xq) : Prop := {
  so_sub : l ⊆ request_groups_ g;
  so_tracks : tracks ms s;
  so_within : within slack g ms;
  so_unmatched : unmatched_ s ≃ unmet l ms;
  so_groups : Forall (λ m, ∃ gp, gp ∈ l ∧ group (node_at g (unode_ m.1)) = Some gp) ms;
  so_spent : ∀ gp p a, gp ∈ l → p ∈ nodes_ (group_at g gp) →
    a ∈ at_default [] (node_arc_map_ g) p →
    exhausted (target gp) (request_flow g gp ms) a ms
}.

Lemma request_flow_other gp gp' ms ms' :
  for_group gp ms' → gp' ≠ gp → request_flow g gp' (ms ++ ms') == request_flow g gp' ms.
Proof.
  intros Hms' Hne. unfold request_flow. rewrite map_app, sumQ_app.
  assert (sumQ (map (λ m : Arc xq * xq, if decide (group (node_at g (unode_ m.1)) = Some gp')
    then val m.2 else 0) ms') == 0) as ->; [|lra].
  induction Hms' as [|m ms' Hm Hms' IH]; simpl; [reflexivity|].
  rewrite decide_False by congruence. rewrite IH. lra.
Qed.

Lemma request_flow_none gp (l : list ptr) ms :
  Forall (λ m, ∃ gp, gp ∈ l ∧ group (node_at g (unode_ m.1)) = Some gp) ms → gp ∉ l →
  request_flow g gp ms == 0.
Proof.
  intros Hms Hgp. unfold request_flow.
  induction Hms as [|m ms (gp' & Hin & Hm) Hms IH]; simpl; [reflexivity|].
  rewrite decide_False by (intros ?; by simplify_eq). rewrite IH. lra.
Qed.

Lemma unmet_app gp l ms ms' :
  for_group gp ms' → gp ∉ l →
  unmet (l ++ [gp]) (ms ++ ms') == unmet l ms + (target gp - request_flow g gp (ms ++ ms')).
Proof.
  intros Hms' Hgp. unfold unmet. rewrite map_app, sumQ_app. simpl.
  rewrite (sumQ_map_ext _ (λ gp, target gp - request_flow g gp ms) l); [lra|].
  intros gp' Hin. rewrite (request_flow_other gp); [reflexivity|done|set_solver].
Qed.

(** Sorting the nodes of a group in place keeps the state. *)
Lemma sort_nodes_tracks gp ms s : tracks ms s → tracks ms (sort_nodes gp s).
Proof.
  intros [Hg Hc Hq Ho Hk]. split; try done.
  eapply reordered_trans; [exact Hg|]. apply sort_group_reordered.
Qed.

Lemma GreedilySatisfySet_spec gp l ms s :
  solved l ms s → gp ∈ request_groups_ g → gp ∉ l →
  ∃ s' ms', GreedilySatisfySet gp s = (Ret tt, s') ∧ solved (l ++ [gp]) (ms ++ ms') s'.
Proof.
  intros [Hsub Htr Hwi Hun Hgr Hsp] Hgp Hl.
  destruct (rd_target _ _ Hready gp Hgp) as (x & Hx & Hxf & Hx0).
  pose proof (sort_nodes_tracks gp ms s Htr) as Htr1. set (s1 := sort_nodes gp s) in *.
  destruct (ro_groups _ _ (tr_graph _ _ Htr1) gp) as (Hperm & _ & Hrq & _).
  assert (serving gp ms (nZ 0) (unmatched_ s) s1) as Hserv.
  { split; try done. eapply is_fin_weaken; [apply fin_Z|].
    symmetry. by eapply request_flow_none. }
  destruct (match_nodes_spec gp x Hgp Hx (nodes_ (group_at (graph_ s1) gp)) (nZ 0) ms
    (unmatched_ s) s1) as (m & s2 & ms' & Hm & [Htr2 Hwi2 Hmf Hu2] & Hf & Hex); [|done|].
  { apply Forall_forall. intros p Hp. split; [done|]. by rewrite Hperm in Hp. }
  exists (set_unmatched (unmatched_ s2 + (x - m))%D s2), ms'. split.
  { unfold GreedilySatisfySet. erewrite bind_ret; [|done]. fold s1.
    rewrite (bind_ret get _ s1 s1 s1 eq_refl), (eq_trans Hrq Hx).
    by rewrite (bind_ret _ _ _ _ _ Hm). }
  pose proof (tr_ok _ _ Htr2) as Hok. split; try done.
  - set_solver.
  - by destruct Htr2; split.
  - eapply is_fin_weaken; [|symmetry; by apply unmet_app]. cbn. rewrite Hu2.
    apply fin_add; [done|]. unfold target. rewrite Hx. exact (fin_sub Hxf Hmf).
  - apply Forall_app. split; (eapply Forall_impl; [done|]); [set_solver|].
    intros m0 Hm0. exists gp. set_solver.
  - intros gp' p a Hin Hp Ha. apply elem_of_app in Hin as [Hin|Hin%list_elem_of_singleton].
    + destruct (rd_arcs _ _ Hready gp' p a) as [_ Har]; [by split; [apply Hsub|]|done|].
      eapply exhausted_mono; [done|done| |by eapply Hsp].
      rewrite (request_flow_other gp); [reflexivity|done|set_solver].
    + subst gp'. rewrite Forall_forall in Hex. unfold target. rewrite Hx. apply Hex.
      apply list_elem_of_bind. exists p. split; [done|]. by rewrite Hperm.
Qed.
(** *** The pseudo cost *)

(** With exclusive orders, or without infeasible exclusive arcs, the pseudo cost
    is a finite number larger than the unit cost of every usable arc. *)
Definition costs_finite (s : GreedySolver xq) : Prop :=
  exclusive_orders_ s = true ∨
  ∀ a, a ∈ arcs_ (graph_ s) → exclusive_ a = true → 0 < val (excl_val_ a).

Definition usable (a : Arc xq) : Prop := exclusive_ a = true → 0 < val (excl_val_ a).

Lemma Qdiv_pos a b : 0 < a → 0 < b → 0 < a / b.
Proof. intros. apply Qlt_shift_div_l; [done|lra]. Qed.

(** The term of an arc in the maximum that [PseudoCostByPref] takes. *)
Definition cost_factor (a : Arc xq) : xq :=
  if exclusive_ a && (excl_val_ a <? nZ 1)%D then (nZ 1 / excl_val_ a)%D else nZ 1.

Lemma zero_cost_nan (x p : xq) :
  finite x → val x == 0 → finite p → ¬ val p == 0 → (x / p * (nZ 1 / x))%D = NaN.
Proof.
  intros Hx Hx0 Hp Hp0. destruct x as [q| | |], p as [r| | |]; try done. simpl in *.
  destruct (Qeq_bool r 0) eqn:E; [by apply Qeq_bool_iff in E|].
  apply Qeq_bool_iff in Hx0 as Hb. rewrite Hb. simpl.
  replace (Qcompare (q / r) 0) with Eq; [done|]. symmetry. apply Qeq_alt. rewrite Hx0. by field.
Qed.

Lemma arc_cost_term s a p :
  pref_ a = Some p → finite p → 0 < val p → finite (excl_val_ a) → 0 <= val (excl_val_ a) →
  costs_finite s → a ∈ arcs_ (graph_ s) →
  ∃ c, ArcCost s a = Ret c ∧
    ((∃ t, (c * cost_factor a)%D ≃ t ∧ 1 / val p <= t) ∨
     (¬ usable a ∧ (c * cost_factor a)%D = NaN)).
Proof.
  intros Hp Hpf Hp0 Hxf Hx0 Hcf Hin. unfold ArcCost, Cost, cost_factor, usable. rewrite Hp.
  eexists. split; [done|].
  assert ((nZ 1 : xq) ≃ 1) as Hone by done. assert (0 < 1 / val p) as Hpos by (by apply Qdiv_pos).
  assert ((nZ 1 / p)%D ≃ (1 / val p)) as Hinv by (apply fin_div; [done|done|lra]).
  assert ((excl_val_ a / p)%D ≃ (val (excl_val_ a) / val p)) as Hxp by (apply fin_div; [done|done|lra]).
  assert (val (excl_val_ a) / val p == val (excl_val_ a) * (1 / val p)) as Hmul by (field; lra).
  destruct (exclusive_ a) eqn:Ex; cbn [andb].
  2:{ rewrite andb_false_r. left. eexists. split; [exact (fin_mul Hinv Hone)|]. lra. }
  rewrite andb_true_r. destruct (excl_val_ a <? nZ 1)%D eqn:Elt.
  2:{ apply (fin_ltb_false Hxf Hone) in Elt. left.
      destruct (exclusive_orders_ s); eexists; (split; [first [exact (fin_mul Hxp Hone)|exact (fin_mul Hinv Hone)]|]); nra. }
  apply (fin_ltb_true Hxf Hone) in Elt.
  destruct (Qlt_le_dec 0 (val (excl_val_ a))) as [Hxpos|Hxle].
  - left. assert ((nZ 1 / excl_val_ a)%D ≃ (1 / val (excl_val_ a))) as Hfac
      by (apply fin_div; [done|done|lra]).
    assert (1 < 1 / val (excl_val_ a)) by (apply Qlt_shift_div_l; lra).
    destruct (exclusive_orders_ s); eexists; (split; [first [exact (fin_mul Hxp Hfac)|exact (fin_mul Hinv Hfac)]|]).
    + rewrite Hmul. assert (val (excl_val_ a) * (1 / val p) * (1 / val (excl_val_ a)) == 1 / val p)
        as -> by (field; split; lra). reflexivity.
    + nra.
  - right. split; [intros Hu; specialize (Hu eq_refl); lra|].
    destruct Hcf as [-> |Hcf]; [|specialize (Hcf a Hin Ex); lra].
    apply zero_cost_nan; [done|lra|done|lra].
Qed.
Lemma max_arc_cost_spec s l m q :
  graph_ s = g → costs_finite s → l ⊆ arcs_ g → m ≃ q →
  ∃ m' q', max_arc_cost s l m = Ret m' ∧ m' ≃ q' ∧ q <= q' ∧
    ∀ a p, a ∈ l → pref_ a = Some p → usable a → 1 / val p <= q'.
Proof.
  intros Hg Hcf. revert m q. induction l as [|a l IH]; intros m q Hl Hm.
  { exists m, q. split_and!; [done|done|reflexivity|set_solver]. }
  destruct (rd_prefs _ _ Hready a ltac:(set_solver)) as (p & Hp & Hpf & Hp0 & Hxf & Hx0).
  destruct (arc_cost_term s a p Hp Hpf Hp0 Hxf Hx0 Hcf ltac:(rewrite Hg; set_solver))
    as (c & Hc & Hterm).
  cbn [max_arc_cost]. rewrite Hc. fold (cost_factor a).
  destruct Hterm as [(t & Ht & Hle)|[Hnu ->]].
  - destruct (IH _ _ ltac:(set_solver) (fin_max Hm Ht)) as (m' & q' & Hm' & Hq' & Hqq & Hall).
    pose proof (Q.le_max_l q t). pose proof (Q.le_max_r q t).
    exists m', q'. split_and!; [done|done|lra|].
    intros b pb [->|Hb]%elem_of_cons Hpb Hub; [|by eapply Hall]. simplify_eq. lra.
  - replace (dmax m NaN) with m by (unfold dmax; by destruct m).
    destruct (IH m q ltac:(set_solver) Hm) as (m' & q' & Hm' & Hq' & Hqq & Hall).
    exists m', q'. split_and!; try done.
    intros b pb [->|Hb]%elem_of_cons Hpb Hub; [done|by eapply Hall].
Qed.

Lemma PseudoCost_spec s :
  graph_ s = g → costs_finite s →
  ∃ pc, PseudoCost s = Ret pc ∧ finite pc ∧ 0 <= val pc ∧
    ∀ a p, a ∈ arcs_ g → pref_ a = Some p → usable a → 1 / val p < val pc.
Proof.
  intros Hg Hcf. destruct (max_arc_cost_spec s (arcs_ g) (nZ 0) 0 Hg Hcf) as
    (m & q & Hm & Hq & Hq0 & Hall); [done|done|].
  assert ((m * (nZ 1 + nlit (1 # 10)))%D ≃ q * (1 + (1 # 10))) as Hpc.
  { apply fin_mul; [done|]. apply fin_add; [done|apply fin_lit]. }
  eexists. unfold PseudoCost, PseudoCostByPref. rewrite Hg, Hm.
  pose proof (is_fin_val _ _ Hpc) as Hv. split_and!; [done|by eapply is_fin_finite| |].
  - rewrite Hv. lra.
  - intros a p Ha Hp Hu. rewrite Hv. specialize (Hall a p Ha Hp Hu).
    destruct (rd_prefs _ _ Hready a Ha) as (p' & Hp' & _ & Hpos & _). simplify_eq.
    pose proof (Qdiv_pos 1 (val p) ltac:(lra) Hpos). lra.
Qed.

(** *** Initialisation *)
Lemma GetCaps_fold l s :
  let s' := foldl (λ s gp, GetCaps gp s) s l in
  graph_ s' = graph_ s ∧ obj_ s' = obj_ s ∧ unmatched_ s' = unmatched_ s ∧
  ((∀ p, n_qty_at p s ≃ 0) → ∀ p, n_qty_at p s' ≃ 0) ∧
  ∀ gp, grp_caps_ s' !! gp = if decide (gp ∈ l) then Some (capacities_ (group_at (graph_ s) gp))
                             else grp_caps_ s !! gp.
Proof.
  revert s. induction l as [|gp l IH]; intros s; cbn [foldl].
  { by split_and!. }
  destruct (IH (GetCaps gp s)) as (Hg & Ho & Hu & Hq & Hc). split_and!; try done.
  - intros Hz. apply Hq. intros p. unfold n_qty_at, at_default, GetCaps. cbn.
    generalize (nodes_ (group_at (graph_ s) gp)) as ns. intros ns.
    assert (∀ m : gmap ptr xq, (default (nZ 0) (m !! p) ≃ 0) →
      default (nZ 0) (foldl (λ m p, <[p := nZ 0]> m) m ns !! p) ≃ 0) as Hgen; [|apply Hgen, Hz].
    induction ns as [|p' ns IHn]; intros m Hm; [done|]. apply IHn. rewrite lookup_insert.
    by destruct (decide (p' = p)).
  - intros gp'. rewrite Hc. cbn. rewrite lookup_insert.
    destruct (decide (gp' ∈ l)); [by rewrite decide_True by set_solver|].
    destruct (decide (gp = gp')) as [<-|]; [by rewrite decide_True by set_solver|].
    by rewrite decide_False by set_solver.
Qed.

Lemma left_list_nil gp caps :
  capacities_ (group_at g gp) = caps → Forall finite caps →
  Forall2 is_fin caps (left_list g gp []).
Proof.
  intros Hc Hf. unfold left_list. rewrite Hc. apply Forall2_same_length_lookup_2.
  { by rewrite length_imap; unfold vals; rewrite length_map. }
  intros i x y Hx. rewrite list_lookup_imap. unfold vals. rewrite list_lookup_fmap, Hx.
  intros [= <-]. pose proof (Forall_lookup_1 _ _ _ _ Hf Hx) as Hxf. unfold left_of.
  destruct (Qeq_bool (val x) dbl_max_q) eqn:E.
  - apply Qeq_bool_iff in E. by eapply is_fin_weaken.
  - eapply is_fin_weaken; [exact Hxf|]. unfold group_use. simpl. lra.
Qed.
Lemma within_nil : within slack g [].
Proof.
  assert (∀ c, 0 <= c → 0 * (1 - slack) <= c) as Hz by (intros; lra). split.
  - intros p. apply Hz.
  - intros gp i c Hgp Hc _. apply Hz. unfold vals in Hc. rewrite list_lookup_fmap in Hc.
    destruct (capacities_ (group_at g gp) !! i) as [cx|] eqn:Hcx; [|done]. injection Hc as <-.
    by destruct (Forall_lookup_1 _ _ _ _ (rd_caps _ _ Hready gp ltac:(set_solver)) Hcx) as [_ []].
  - intros gp x Hgp Hx. apply Hz. destruct (rd_target _ _ Hready gp Hgp) as (y & Hy & _ & ?).
    by simplify_eq.
Qed.

(** The state [SolveGraph] starts its loop with. *)
Definition start (s : GreedySolver xq) : GreedySolver xq :=
  Init (set_n_qty ∅ (set_unmatched (nZ 0) (set_obj (nZ 0) (DoCondition s)))).

Lemma DoCondition_reordered (s : GreedySolver xq) : reordered (graph_ s) (graph_ (DoCondition s)).
Proof.
  unfold DoCondition. destruct (conditioner_ s) as [c|]; [|apply reordered_refl].
  pose proof (Condition_reordered c (graph_ s)) as Hr. by destruct (Condition c (graph_ s)).
Qed.

Lemma start_solved s : graph_ s = g → solved [] [] (start s).
Proof.
  intros Hg. pose proof (DoCondition_reordered s) as Hr. rewrite Hg in Hr. unfold start, Init.
  set (s0 := set_n_qty _ _). assert (graph_ s0 = graph_ (DoCondition s)) as Hg0 by done.
  set (rg := request_groups_ (graph_ s0)). set (sg := supply_groups_ (graph_ s0)).
  destruct (GetCaps_fold rg s0) as (Hg1 & Ho1 & Hu1 & Hq1 & Hc1).
  set (s1 := foldl _ s0 rg) in *.
  destruct (GetCaps_fold sg s1) as (Hg2 & Ho2 & Hu2 & Hq2 & Hc2).
  set (s2 := foldl _ s1 sg) in *. rewrite Hg1, Hg0 in Hg2.
  split; [set_solver| |apply within_nil| |done|set_solver].
  - split; [| | | |done].
    + rewrite Hg2, app_nil_r. by destruct Hr.
    + intros gp Hgp. assert (gp ∈ rg ++ sg) as Hin.
      { unfold rg, sg. rewrite Hg0, (ro_supplies _ _ Hr). 
        apply elem_of_app. apply elem_of_app in Hgp as [Hgp|?]; [left|by right].
        by rewrite (ro_requests _ _ Hr). }
      destruct (ro_groups _ _ Hr gp) as (_ & Hcap & _). rewrite Hg1 in Hc2. rewrite Hg0 in Hc1, Hc2.
      exists (capacities_ (group_at g gp)). split.
      * rewrite Hc2, Hc1, <-Hcap. destruct (decide (gp ∈ sg)); [done|].
        by rewrite decide_True by set_solver.
      * apply left_list_nil; [done|]. eapply Forall_impl; [by apply (rd_caps _ _ Hready)|].
        by intros ? [].
    + intros p. apply Hq2, Hq1. intros p'. unfold n_qty_at, at_default. cbn.
      rewrite lookup_empty. apply fin_Z.
    + rewrite Ho2, Ho1. apply fin_Z.
  - rewrite Hu2, Hu1. apply fin_Z.
Qed.

Lemma unmet_perm l l' ms : l ≡ₚ l' → unmet l ms == unmet l' ms.
Proof. intros Hp. apply sumQ_perm. by apply Permutation_map. Qed.

Lemma SolveGraph_spec s :
  graph_ s = g → costs_finite s →
  ∃ v s' ms pc, SolveGraph s = (Ret v, s') ∧ PseudoCost s = Ret pc ∧
    reordered (set_matches (matches_ g ++ ms) g) (graph_ s') ∧
    Forall (match_ok slack g) ms ∧ within slack g ms ∧
    (∀ gp p a, request_node g gp p → a ∈ at_default [] (node_arc_map_ g) p →
       exhausted (target gp) (request_flow g gp ms) a ms) ∧
    v ≃ match_cost g ms + unmet (request_groups_ g) ms * val pc.
Proof.
  intros Hg Hcf. destruct (PseudoCost_spec s Hg Hcf) as (pc & Hpc & Hpf & _).
  pose proof (start_solved s Hg) as Hst. set (rg := request_groups_ (graph_ (start s))).
  assert (rg ≡ₚ request_groups_ g) as Hrg
    by (etrans; [apply (ro_requests _ _ (tr_graph _ _ (so_tracks _ _ _ Hst)))|done]).
  destruct (for_each_total (λ l s, ∃ ms, solved l ms s) GreedilySatisfySet rg (start s))
    as (s1 & Hs1 & ms & Hso); [by exists []| |].
  { intros pre gp post s2 Hl (ms & Hso).
    assert (NoDup rg) as Hnd by (rewrite Hrg; apply Hready).
    rewrite Hl in Hnd. apply NoDup_app in Hnd as (_ & Hnd & _).
    destruct (GreedilySatisfySet_spec gp pre ms s2 Hso) as (s3 & ms' & ? & ?); [| |by eauto].
    - rewrite <-Hrg, Hl. set_solver.
    - intros Hin. apply (Hnd _ Hin). set_solver. }
  destruct Hso as [_ Htr Hwi Hun _ Hsp].
  exists (obj_ s1 + unmatched_ s1 * pc)%D, (set_obj (obj_ s1 + unmatched_ s1 * pc)%D s1), ms, pc.
  split_and!; [|done|apply Htr|apply Htr|done| |].
  - unfold SolveGraph. rewrite (bind_ret get _ s s s eq_refl), Hpc.
    do 3 (erewrite bind_ret; [|done]). fold (start s).
    rewrite (bind_ret get _ (start s) (start s) (start s) eq_refl). fold rg.
    rewrite (bind_ret _ _ _ _ _ Hs1). reflexivity.
  - intros gp p a [Hgp Hp] Ha. eapply Hsp; [by rewrite Hrg|done|done].
  - cbn. apply fin_add; [apply Htr|]. apply fin_mul; [|done].
    eapply is_fin_weaken; [done|by apply unmet_perm].
Qed.
End solve.
