(* ===== verification/ProgTheory.v ===== *)
(** * Correctness of the programming solver

    What the program that [ToProg] builds for a graph looks like, row by row and column
    by column, and what a feasible solution of it says about the flow in the graph. *)

From Stdlib Require Import QArith Qminmax Lqa ZArith Lia.
From stdpp Require Import base list gmap strings sorting.
From S2P Require Import Prelude Num Arithmetic ExchangeGraph Preconditioner GreedySolver ProgTranslator GreedyTheory.

Local Open Scope Q_scope.

(** ** Graphs

    What the translator of exchanges guarantees: every arc joins a node of a request
    group to one of a supply group, has a positive preference, and has as many positive
    unit capacities at each end as the group has capacities; no two arcs join the same
    nodes. *)
Record prog_ready (g : ExchangeGraph xq) : Prop := {
  pg_wf : graph_wf g;
  pg_keys : NoDup (arc_key <$> arcs_ g);
  pg_disjoint : ∀ gp, gp ∈ request_groups_ g → gp ∉ supply_groups_ g;
  pg_nodes : ∀ gp, gp ∈ supply_groups_ g ++ request_groups_ g → NoDup (nodes_ (group_at g gp));
  pg_group : ∀ gp p, gp ∈ supply_groups_ g ++ request_groups_ g → p ∈ nodes_ (group_at g gp) →
    group (node_at g p) = Some gp;
  pg_excl : ∀ gp ns, gp ∈ supply_groups_ g ++ request_groups_ g → ns ∈ excl_node_groups_ (group_at g gp) →
    ns ⊆ nodes_ (group_at g gp);
  pg_caps : ∀ gp, gp ∈ supply_groups_ g ++ request_groups_ g →
    Forall (λ c, finite c ∧ 0 <= val c) (capacities_ (group_at g gp));
  pg_supply : ∀ gp p k us, gp ∈ supply_groups_ g → p ∈ nodes_ (group_at g gp) →
    unit_capacities (node_at g p) !! k = Some us → ∃ a, a ∈ arcs_ g ∧ arc_key a = k ∧ vnode_ a = p ∧
    length us = length (capacities_ (group_at g gp)) ∧ Forall (λ u, finite u ∧ 0 < val u) us;
  pg_request : ∀ gp p k us, gp ∈ request_groups_ g → p ∈ nodes_ (group_at g gp) →
    unit_capacities (node_at g p) !! k = Some us → ∃ a, a ∈ arcs_ g ∧ arc_key a = k ∧ unode_ a = p ∧
    length us = length (capacities_ (group_at g gp)) ∧ Forall (λ u, finite u ∧ 0 < val u) us;
  pg_unode : ∀ a, a ∈ arcs_ g → (∃ gp, gp ∈ request_groups_ g ∧ unode_ a ∈ nodes_ (group_at g gp)) ∧
    is_Some (unit_capacities (node_at g (unode_ a)) !! arc_key a) ∧
    is_Some (prefs (node_at g (unode_ a)) !! arc_key a);
  pg_vnode : ∀ a, a ∈ arcs_ g → (∃ gp, gp ∈ supply_groups_ g ∧ vnode_ a ∈ nodes_ (group_at g gp)) ∧
    is_Some (unit_capacities (node_at g (vnode_ a)) !! arc_key a);
  pg_prefs : ∀ a, a ∈ arcs_ g → (∃ x, pref_ a = Some x ∧ finite x ∧ 0 < val x) ∧
    finite (excl_val_ a) ∧ 0 <= val (excl_val_ a) ∧
    finite (qty (node_at g (unode_ a))) ∧ 0 <= val (qty (node_at g (unode_ a)))
}.

(** A row with its lower and its upper bound. *)
Abbreviation bounded_row := (packed xq * xq * xq)%type.

Section program.
Context (g : ExchangeGraph xq) (inf : xq) (excl : bool) (pseudo : xq).
Hypothesis (Hg : prog_ready g).
Local Abbreviation arc_id k := (at_default 0%Z (arc_ids_ g) k).
Local Abbreviation n_arcs := (length (arcs_ g)).

(** The number of an arc is its place in the vector of arcs. *)
Lemma arc_numbers i a : arcs_ g !! i = Some a →
  arc_ids_ g !! arc_key a = Some (Z.of_nat i) ∧ arc_by_id_ g !! Z.of_nat i = Some a.
Proof.
  intros Ha. pose proof (pg_wf g Hg) as Hwf.
  assert (arc_by_id_ g !! Z.of_nat i = Some a) as Hby.
  { rewrite (wf_by_id g Hwf), decide_True, Nat2Z.id by lia. done. }
  split; [|done]. destruct (wf_ids_dom g Hwf a) as [j Hj]; [by eapply list_elem_of_lookup_2|].
  destruct (wf_ids g Hwf _ _ Hj) as (b & Hb & Hkey). rewrite (wf_by_id g Hwf) in Hb.
  destruct (decide (0 ≤ j)%Z) as [Hpos|]; [|done].
  assert (Z.to_nat j = i) as <-; [|by rewrite Z2Nat.id].
  eapply (NoDup_lookup _ _ _ (arc_key a) (pg_keys g Hg)); rewrite list_lookup_fmap; [by rewrite Hb; cbn; f_equal|by rewrite Ha].
Qed.
Lemma arc_by_key a : a ∈ arcs_ g → ∃ i, arcs_ g !! i = Some a ∧ arc_id (arc_key a) = Z.of_nat i ∧
  arc_by_id_ g !! Z.of_nat i = Some a.
Proof.
  intros [i Hi]%list_elem_of_lookup. destruct (arc_numbers i a Hi) as [Hid Hby].
  exists i. unfold at_default. by rewrite Hid.
Qed.

(** ** Rows

    The entries of the [i]th capacity of a group: the arcs at its nodes. *)
Definition entry (i : nat) (kv : (ptr * ptr) * list xq) : packed xq :=
  match kv.2 !! i, arc_by_id_ g !! arc_id kv.1 with
  | Some u, Some a => [(arc_id kv.1, arc_coeff excl a u)]
  | _, _ => []
  end.

(** Appending the [i]th of some lists of entries to the [i]th row. *)
Definition extend (ent : nat → packed xq) (rows : list (packed xq)) : list (packed xq) :=
  imap (λ i r, r ++ ent i) rows.
Lemma extend_extend e1 e2 rows : extend e2 (extend e1 rows) = extend (λ i, e1 i ++ e2 i) rows.
Proof.
  unfold extend. apply list_eq. intros i. rewrite !list_lookup_imap. destruct (rows !! i); cbn; [by rewrite app_assoc|done].
Qed.
Lemma length_extend ent rows : length (extend ent rows) = length rows.
Proof. apply length_imap. Qed.
Lemma extend_nil rows : extend (λ _, []) rows = rows.
Proof.
  unfold extend. apply list_eq. intros i. rewrite list_lookup_imap. destruct (rows !! i); cbn; [by rewrite app_nil_r|done].
Qed.

Lemma insert_coeffs_spec id (cs : list xq) rows : length cs = length rows →
  insert_coeffs id cs rows = Some (extend (λ i, match cs !! i with Some c => [(id, c)] | None => [] end) rows).
Proof.
  revert rows. induction cs as [|c cs IH]; intros [|r rows] Hlen; try done. cbn in Hlen |- *.
  rewrite IH by lia. done.
Qed.

(** ** Columns *)
Definition column_ub (a : Arc xq) : xq := if excl && exclusive_ a then nZ 1 else dmin (qty (node_at g (unode_ a))) inf.

Definition arc_cost (a : Arc xq) : xq := match Cost a excl with Ret c => c | Throw _ => nZ 0 end.

(** Columns for the arcs and for the request groups, when the arcs in [D] have been seen
    at their request node. *)
Definition column {A : Type} (D : gset (ptr * ptr)) (zero : A) (f : Arc xq → A) (a : Arc xq) : A :=
  if decide (arc_key a ∈ D) then f a else zero.
Record columns (D : gset (ptr * ptr)) (faux_obj faux_ub : list xq) (t : ProgTranslator xq) : Prop := {
  co_obj : obj_coeffs (pt_ctx t) = (column D (nZ 0) arc_cost <$> arcs_ g) ++ faux_obj;
  co_ubs : col_ubs (pt_ctx t) = (column D (nZ 0) column_ub <$> arcs_ g) ++ faux_ub;
  co_lbs : col_lbs (pt_ctx t) = replicate (n_arcs + length (request_groups_ g)) (nZ 0);
  co_len : length faux_obj = length (request_groups_ g) ∧ length faux_ub = length (request_groups_ g)
}.

Lemma column_insert {A : Type} D (zero : A) f i a r : arcs_ g !! i = Some a →
  <[i := f a]> ((column D zero f <$> arcs_ g) ++ r) = (column ({[arc_key a]} ∪ D) zero f <$> arcs_ g) ++ r.
Proof.
  intros Ha. apply lookup_lt_Some in Ha as Hlt. rewrite insert_app_l by by rewrite length_fmap. f_equal.
  apply list_eq. intros j. rewrite list_lookup_fmap. destruct (decide (i = j)) as [<-|Hne].
  - rewrite list_lookup_insert_eq by by rewrite length_fmap. rewrite Ha. cbn. unfold column.
    rewrite decide_True by set_solver. done.
  - rewrite list_lookup_insert_ne, list_lookup_fmap by done. destruct (arcs_ g !! j) as [b|] eqn:Hb; [|done].
    cbn. f_equal. unfold column. apply decide_ext. assert (arc_key b ≠ arc_key a) as Hk; [|set_solver].
    intros Hk. apply Hne, (NoDup_lookup _ _ _ (arc_key a) (pg_keys g Hg)); rewrite list_lookup_fmap.
    + by rewrite Ha.
    + rewrite Hb. cbn. by rewrite Hk.
Qed.

(** What the translation of arcs leaves alone. *)
Definition same_rows (t t' : ProgTranslator xq) : Prop :=
  arc_offset_ t' = arc_offset_ t ∧ m_rows (pt_ctx t') = m_rows (pt_ctx t) ∧
  row_lbs (pt_ctx t') = row_lbs (pt_ctx t) ∧ row_ubs (pt_ctx t') = row_ubs (pt_ctx t).

Lemma set_column_runs D fo fu i a t :
  columns D fo fu t → arcs_ g !! i = Some a →
  runs (set_column (Z.of_nat i) (arc_cost a) (nZ 0) (column_ub a)) t
    (λ _ t', columns ({[arc_key a]} ∪ D) fo fu t' ∧ same_rows t t').
Proof.
  intros [Hobj Hubs Hlbs Hlen] Ha. apply lookup_lt_Some in Ha as Hlt. unfold set_column.
  apply runs_bind, runs_get. apply runs_bind, runs_require.
  { apply bool_decide_eq_true. rewrite Hobj, length_app, length_fmap. lia. }
  apply runs_modify. cbn. rewrite Nat2Z.id. split; [|done]. split; cbn; [| | |done].
  - rewrite Hobj. by apply column_insert.
  - rewrite Hubs. by apply column_insert.
  - rewrite Hlbs. apply insert_replicate.
Qed.

(** The arcs at one node of a group with as many capacities as there are rows. *)
Definition node_end (request : bool) (a : Arc xq) : ptr := if request then unode_ a else vnode_ a.
Definition known_units (request : bool) (p : ptr) (n_caps : nat) (kv : (ptr * ptr) * list xq) : Prop :=
  ∃ a, a ∈ arcs_ g ∧ arc_key a = kv.1 ∧ length kv.2 = n_caps ∧ Forall (λ u, finite u ∧ 0 < val u) kv.2 ∧
    node_end request a = p.

(** The arcs seen after those of a list of unit capacities. *)
Definition seen (request : bool) (l : list ((ptr * ptr) * list xq)) (D : gset (ptr * ptr)) : gset (ptr * ptr) :=
  if request then list_to_set l.*1 ∪ D else D.
Lemma seen_app request l1 l2 D : seen request (l1 ++ l2) D = seen request l2 (seen request l1 D).
Proof. destruct request; [|done]. cbn. rewrite fmap_app, list_to_set_app_L. set_solver. Qed.
Lemma seen_nil request D : seen request [] D = D.
Proof. destruct request; [|done]. cbn. set_solver. Qed.

Lemma xlate_arc_runs D fo fu request p rows kv t :
  columns D fo fu t → known_units request p (length rows) kv →
  runs (xlate_arc g inf excl request (node_at g p) rows kv) t
    (λ rows' t', rows' = extend (λ i, entry i kv) rows ∧ columns (seen request [kv] D) fo fu t' ∧ same_rows t t').
Proof.
  intros Ht (a & Ha & Hkey & Hlen & _ & Hp). destruct (arc_by_key a Ha) as (i & Hi & Hid & Hby).
  unfold xlate_arc. apply runs_bind. rewrite <-Hkey, Hid. eapply runs_option; [exact Hby|].
  apply runs_bind. eapply runs_option.
  { apply insert_coeffs_spec. by rewrite length_fmap. }
  assert (extend (λ j, match (arc_coeff excl a <$> kv.2) !! j with Some c => [(Z.of_nat i, c)] | None => [] end) rows =
    extend (λ j, entry j kv) rows) as ->.
  { unfold extend. apply imap_ext. intros j r _. f_equal. unfold entry. rewrite <-Hkey, Hid, Hby, list_lookup_fmap.
    by destruct (kv.2 !! j). }
  apply runs_bind. destruct request; [|by apply runs_ret, runs_ret].
  destruct (pg_prefs g Hg a Ha) as ((x & Hx & Hfin & Hpos) & _).
  eapply runs_bind, runs_option; [exact Hx|]. apply runs_bind, runs_require.
  { apply negb_true_iff. destruct (x <=? nZ 0)%D eqn:Hle; [|done]. eapply fin_leb_true in Hle; [|exact Hfin|apply fin_Z].
    change (inject_Z 0) with 0 in Hle. lra. }
  apply runs_bind. exists (arc_cost a), t. split; [unfold pure, arc_cost, Cost; by rewrite Hx|]. rewrite <-Hp.
  eapply runs_mono; [by apply (set_column_runs D fo fu i a)|]. intros [] t' [Ht' Hsame]. apply runs_ret.
  split; [done|]. split; [|done]. cbn. rewrite <-Hkey. by rewrite union_empty_r_L.
Qed.

Lemma same_rows_trans t1 t2 t3 : same_rows t1 t2 → same_rows t2 t3 → same_rows t1 t3.
Proof. unfold same_rows. intros (-> & -> & -> & ->). done. Qed.

Lemma xlate_arcs_runs D fo fu request p l rows t :
  columns D fo fu t → Forall (known_units request p (length rows)) l →
  runs (xlate_arcs g inf excl request (node_at g p) rows l) t
    (λ rows' t', rows' = extend (λ i, l ≫= entry i) rows ∧ columns (seen request l D) fo fu t' ∧ same_rows t t').
Proof.
  revert D rows t. induction l as [|kv l IH]; intros D rows t Ht Hl.
  { apply runs_ret. split; [by rewrite <-(extend_nil rows) at 1|]. by rewrite seen_nil. }
  apply Forall_cons in Hl as [Hkv Hl]. cbn [xlate_arcs]. apply runs_bind.
  eapply runs_mono; [by apply xlate_arc_runs|]. intros rows1 t1 (-> & Ht1 & Hs1).
  eapply runs_mono; [apply IH; [exact Ht1|by rewrite length_extend]|]. intros rows2 t2 (-> & Ht2 & Hs2).
  split; [by rewrite extend_extend|]. rewrite <-seen_app in Ht2. split; [done|by eapply same_rows_trans].
Qed.

(** The unit capacities at the nodes of a group. *)
Definition group_units (nodes : list ptr) : list ((ptr * ptr) * list xq) :=
  nodes ≫= λ p, in_order (unit_capacities (node_at g p)).

Lemma xlate_nodes_runs D fo fu request nodes rows t :
  columns D fo fu t →
  (∀ p k us, p ∈ nodes → unit_capacities (node_at g p) !! k = Some us → known_units request p (length rows) (k, us)) →
  runs (xlate_nodes g inf excl request rows nodes) t
    (λ rows' t', rows' = extend (λ i, group_units nodes ≫= entry i) rows ∧
      columns (seen request (group_units nodes) D) fo fu t' ∧ same_rows t t').
Proof.
  revert D rows t. induction nodes as [|p nodes IH]; intros D rows t Ht Hn.
  { apply runs_ret. split; [by rewrite <-(extend_nil rows) at 1|]. by rewrite seen_nil. }
  cbn [xlate_nodes]. apply runs_bind. eapply runs_mono.
  { apply xlate_arcs_runs; [done|]. apply Forall_forall. intros [k us] Hin%elem_of_in_order.
    apply Hn; [by left|done]. }
  intros rows1 t1 (-> & Ht1 & Hs1). eapply runs_mono.
  { apply IH; [exact Ht1|]. intros q k us Hq Hk. rewrite length_extend. apply Hn; [by right|done]. }
  intros rows2 t2 (-> & Ht2 & Hs2). rewrite <-seen_app in Ht2. split; [|split; [done|by eapply same_rows_trans]].
  rewrite extend_extend. unfold extend. apply imap_ext. intros i r _. cbn. by rewrite bind_app.
Qed.

(** ** The program

    The rows of a group, with their bounds: one for every capacity, where those of a
    request group have the column [faux], and one for every exclusive group of nodes. *)
Definition cap_row (faux : option Z) (c : xq) (row : packed xq) : bounded_row :=
  match faux with
  | Some f => (row ++ [(f, nZ 1)], dmin c (nlit 1000000000000000), inf)
  | None => (row, nZ 0, c)
  end.
Definition excl_rows (gr : ExchangeNodeGroup xq) : list bounded_row :=
  if excl then (λ row, (row, nZ 0, nZ 1)) <$> filter (λ row, row ≠ []) (excl_row g <$> excl_node_groups_ gr) else [].
Definition group_rows (faux : option Z) (gp : ptr) : list bounded_row :=
  let gr := group_at g gp in
  imap (λ i c, cap_row faux c (group_units (nodes_ gr) ≫= entry i)) (capacities_ gr) ++ excl_rows gr.

(** Request groups with arcs take the columns after those of the arcs, in turn. *)
Definition asking (gp : ptr) : bool := HasArcs g (group_at g gp).
Definition request_rows (gps : list ptr) : list bounded_row :=
  mjoin (imap (λ j gp, group_rows (Some (Z.of_nat (n_arcs + j))) gp) (List.filter asking gps)).
Definition prog_rows : list bounded_row :=
  (supply_groups_ g ≫= group_rows None) ++ request_rows (request_groups_ g).
Definition n_faux : nat := length (List.filter asking (request_groups_ g)).
Definition faux_columns (x : xq) : list xq :=
  replicate n_faux x ++ replicate (length (request_groups_ g) - n_faux) (nZ 0).
Definition reference_program : ProgTranslatorContext xq :=
  mkProgCtx xq ((arc_cost <$> arcs_ g) ++ faux_columns pseudo)
    (snd <$> prog_rows) ((λ r, r.1.2) <$> prog_rows)
    ((column_ub <$> arcs_ g) ++ faux_columns inf)
    (replicate (n_arcs + length (request_groups_ g)) (nZ 0))
    ((λ r, r.1.1) <$> prog_rows).

Record rows_are (R : list bounded_row) (t : ProgTranslator xq) : Prop := {
  ra_rows : m_rows (pt_ctx t) = (λ r, r.1.1) <$> R;
  ra_lbs : row_lbs (pt_ctx t) = (λ r, r.1.2) <$> R;
  ra_ubs : row_ubs (pt_ctx t) = snd <$> R
}.
Record building (D : gset (ptr * ptr)) (k : nat) (R : list bounded_row) (t : ProgTranslator xq) : Prop := {
  bu_columns : columns D (replicate (length (request_groups_ g)) (nZ 0)) (replicate (length (request_groups_ g)) (nZ 0)) t;
  bu_offset : arc_offset_ t = Z.of_nat (n_arcs + k);
  bu_rows : rows_are R t
}.

Lemma append_row_runs D k R row lb ub t :
  building D k R t → runs (append_row row lb ub) t (λ _, building D k (R ++ [(row, lb, ub)])).
Proof.
  intros [[Hobj Hubs Hlbs Hlen] Hoff [Hr Hl Hu]]. apply runs_modify. split; [by split|done|].
  split; cbn; rewrite fmap_app; cbn; congruence.
Qed.

(** Appending rows one by one. *)
Lemma append_rows_run {X : Type} D k (f : X → M (ProgTranslator xq) unit) (row : X → bounded_row) l R t :
  (∀ x, f x = append_row (row x).1.1 (row x).1.2 (row x).2) → building D k R t →
  runs (for_each f l) t (λ _, building D k (R ++ (row <$> l))).
Proof.
  intros Hf Ht. apply (runs_for_each_visited (λ pre, building D k (R ++ (row <$> pre)))).
  - cbn. by rewrite app_nil_r.
  - intros pre x post t1 _ H1. rewrite Hf, fmap_app, app_assoc. cbn. destruct (row x) as [[? ?] ?]. by apply append_row_runs.
Qed.

Lemma zip_extend ent (cs : list xq) :
  zip cs (extend ent (replicate (length cs) [])) = imap (λ i c, (c, ent i)) cs.
Proof.
  unfold extend. revert ent. induction cs as [|c cs IH]; intros ent; [done|]. cbn. f_equal. apply (IH (ent ∘ S)).
Qed.

Lemma group_units_known (request : bool) gp k us p :
  gp ∈ (if request then request_groups_ g else supply_groups_ g) → p ∈ nodes_ (group_at g gp) →
  unit_capacities (node_at g p) !! k = Some us → known_units request p (length (capacities_ (group_at g gp))) (k, us).
Proof.
  intros Hgp Hp Hk. destruct request.
  - destruct (pg_request g Hg gp p k us Hgp Hp Hk) as (a & ? & ? & ? & ? & ?). by exists a.
  - destruct (pg_supply g Hg gp p k us Hgp Hp Hk) as (a & ? & ? & ? & ? & ?). by exists a.
Qed.

Lemma XlateGrp_runs D k R gp (request : bool) t :
  gp ∈ (if request then request_groups_ g else supply_groups_ g) → (request = true → asking gp = true) →
  building D k R t →
  runs (XlateGrp_ g inf excl gp request) t (λ _, building (seen request (group_units (nodes_ (group_at g gp))) D)
    (if request then S k else k) (R ++ group_rows (if request then Some (Z.of_nat (n_arcs + k)) else None) gp)).
Proof.
  intros Hgp Hask [Hcol Hoff Hrow]. unfold XlateGrp_.
  replace (request && negb (HasArcs g (group_at g gp))) with false
    by (destruct request; [by rewrite (Hask eq_refl : HasArcs g (group_at g gp) = true)|done]).
  apply runs_bind. eapply runs_mono.
  { apply (xlate_nodes_runs D); [done|]. rewrite length_replicate. intros p key us. by apply group_units_known. }
  intros rows t1 (-> & Hcol1 & Hoff1 & Hm & Hl & Hu). rewrite zip_extend. set (D' := seen _ _ D) in *.
  assert (building D' k R t1) as H1.
  { split; [done|congruence|]. destruct Hrow. split; congruence. }
  clearbody D'. apply runs_bind. eapply (runs_mono _ _ (λ faux t2, faux = (if request then Some (Z.of_nat (n_arcs + k)) else None) ∧
    building D' (if request then S k else k) R t2)).
  { destruct request; [|by apply runs_ret]. apply runs_fmap. unfold next_faux. apply runs_bind, runs_get, runs_bind, runs_modify, runs_ret.
    destruct H1 as [[? ? ? ?] Ho [? ? ?]]. rewrite Ho. split; [done|]. split; [by split| |by split]. cbn. lia. }
  intros faux t2 [-> H2]. apply runs_bind. eapply runs_mono.
  { eapply (append_rows_run _ _ _ (λ cr, cap_row (if request then Some (Z.of_nat (n_arcs + k)) else None) cr.1 cr.2)); [|exact H2].
    intros [c row]. by destruct request. }
  intros [] t3 H3. unfold group_rows. rewrite app_assoc. rewrite fmap_imap in H3. unfold excl_rows.
  destruct excl; [|rewrite app_nil_r; by apply runs_ret].
  by eapply (append_rows_run _ _ _ (λ row, (row, nZ 0, nZ 1))).
Qed.

Lemma request_rows_snoc pre gp : request_rows (pre ++ [gp]) =
  request_rows pre ++ if asking gp then group_rows (Some (Z.of_nat (n_arcs + length (List.filter asking pre)))) gp else [].
Proof.
  unfold request_rows. rewrite List.filter_app. cbn. destruct (asking gp); [|by rewrite !app_nil_r].
  rewrite imap_app, join_app. cbn. by rewrite app_nil_r, Nat.add_0_r.
Qed.

Lemma supply_groups_run : runs (for_each (λ gp, XlateGrp_ g inf excl gp false) (supply_groups_ g)) (Init_ProgTranslator g)
  (λ _, building ∅ 0 (supply_groups_ g ≫= group_rows None)).
Proof.
  apply (runs_for_each_visited (λ pre, building ∅ 0 (pre ≫= group_rows None))).
  - split; [|cbn; lia|done]. assert (∀ f, column ∅ (nZ 0 : xq) f <$> arcs_ g = replicate n_arcs (nZ 0)) as Hcol.
    { intros f. apply list_eq_same_length with n_arcs; [by rewrite length_replicate|by rewrite length_fmap|].
      intros j x y _. rewrite list_lookup_fmap, lookup_replicate. intros (a & _ & ->)%fmap_Some [-> _].
      unfold column. rewrite decide_False; set_solver. }
    split; [by rewrite Hcol, <-replicate_add|by rewrite Hcol, <-replicate_add|done|by rewrite length_replicate].
  - intros pre gp post t1 Hl H1. rewrite bind_app. cbn. rewrite app_nil_r.
    apply (XlateGrp_runs ∅ 0 _ gp false); [|done|done]. rewrite Hl. set_solver.
Qed.

Lemma request_groups_run R t : building ∅ 0 R t →
  runs (for_each (λ gp, XlateGrp_ g inf excl gp true) (request_groups_ g)) t
  (λ _, building (list_to_set ((group_units (request_groups_ g ≫= λ gp, if asking gp then nodes_ (group_at g gp) else [])).*1))
    n_faux (R ++ request_rows (request_groups_ g))).
Proof.
  intros Ht. apply (runs_for_each_visited (λ pre, building (list_to_set ((group_units (pre ≫= λ gp, if asking gp then nodes_ (group_at g gp) else [])).*1))
    (length (List.filter asking pre)) (R ++ request_rows pre))).
  - by rewrite app_nil_r.
  - intros pre gp post t1 Hl H1. rewrite request_rows_snoc, List.filter_app, length_app, bind_app. cbn. rewrite app_nil_r.
    destruct (asking gp) eqn:Hask.
    + cbn. rewrite app_assoc. eapply runs_mono; [eapply (XlateGrp_runs _ _ _ gp true); [rewrite Hl; set_solver|done|exact H1]|].
      intros [] t2 H2. rewrite Nat.add_1_r. unfold group_units in H2 |- *. rewrite bind_app, fmap_app, list_to_set_app_L.
      by rewrite (comm_L (∪)).
    + rewrite !app_nil_r, Nat.add_0_r. unfold XlateGrp_. change (HasArcs g (group_at g gp)) with (asking gp). rewrite Hask. by apply runs_ret.
Qed.

(** Every arc is seen at its request node. *)
Lemma asking_arc a gp : a ∈ arcs_ g → unode_ a ∈ nodes_ (group_at g gp) → asking gp = true.
Proof.
  intros Ha Hp. destruct (pg_unode g Hg a Ha) as (_ & _ & Hpref).
  apply existsb_exists. exists (unode_ a). split; [by apply list_elem_of_In|]. unfold node_at in Hpref.
  destruct (node_heap g !! unode_ a) as [n|]; cbn in Hpref; destruct Hpref as [x Hx]; [|done].
  apply Nat.ltb_lt, Nat.neq_0_lt_0. intros Hsz%map_size_empty_iff. by rewrite Hsz in Hx.
Qed.
Lemma all_seen a : a ∈ arcs_ g →
  arc_key a ∈@{gset (ptr * ptr)} list_to_set ((group_units (request_groups_ g ≫= λ gp, if asking gp then nodes_ (group_at g gp) else [])).*1).
Proof.
  intros Ha. destruct (pg_unode g Hg a Ha) as ((gp & Hgp & Hp) & [us Hus] & _).
  apply elem_of_list_to_set, list_elem_of_fmap. exists (arc_key a, us). split; [done|].
  apply list_elem_of_bind. exists (unode_ a). split; [by apply elem_of_in_order|].
  apply list_elem_of_bind. exists gp. by rewrite (asking_arc a gp Ha Hp).
Qed.

Lemma column_all {A : Type} D (zero : A) f : (∀ a, a ∈ arcs_ g → arc_key a ∈ D) →
  column D zero f <$> arcs_ g = f <$> arcs_ g.
Proof.
  intros HD. apply list_fmap_ext. intros i a Ha%list_elem_of_lookup_2. unfold column. by rewrite decide_True by auto.
Qed.

Lemma faux_insert (A : list xq) k n (x : xq) : (k < n)%nat →
  <[(length A + k)%nat := x]> (A ++ replicate k x ++ replicate (n - k) (nZ 0)) =
  A ++ replicate (S k) x ++ replicate (n - S k) (nZ 0).
Proof.
  intros Hk. rewrite insert_app_r. f_equal. rewrite insert_app_r_alt by (rewrite length_replicate; lia).
  rewrite length_replicate, Nat.sub_diag. replace (n - k)%nat with (S (n - S k)) by lia. cbn.
  by rewrite (cons_middle x), app_assoc, <-replicate_cons_app.
Qed.

Lemma faux_columns_run D R t : building D n_faux R t → (∀ a, a ∈ arcs_ g → arc_key a ∈ D) →
  runs (for_each (λ i, set_column i pseudo (nZ 0) inf)
    (seqZ (Z.of_nat n_arcs) (arc_offset_ t - Z.of_nat n_arcs))) t
    (λ _ t', columns D (faux_columns pseudo) (faux_columns inf) t' ∧ rows_are R t').
Proof.
  intros [Hcol Hoff Hrow] HD. rewrite Hoff. set (n := length (request_groups_ g)) in *.
  assert (n_faux ≤ n)%nat as Hle by apply List.filter_length_le.
  set (fx k x := replicate k x ++ replicate (n - k) (nZ 0 : xq)).
  set (l := seqZ _ _). assert (length l = n_faux) as Hl by (unfold l; rewrite length_seqZ; lia).
  eapply runs_mono; [apply (runs_for_each_visited (λ pre t, columns D (fx (length pre) pseudo) (fx (length pre) inf) t ∧ rows_are R t))|].
  - cbn. by rewrite Nat.sub_0_r.
  - intros pre i post t1 Hpre [[Hobj Hubs Hlbs Hlen] Hrow1].
    assert (i = Z.of_nat (n_arcs + length pre)) as ->.
    { assert (l !! length pre = Some i) as Hi by by rewrite Hpre, list_lookup_middle.
      unfold l in Hi. apply lookup_seqZ in Hi. lia. }
    assert (length pre < n)%nat as Hlt by (rewrite Hpre, length_app in Hl; cbn in Hl; lia).
    unfold set_column. apply runs_bind, runs_get. apply runs_bind, runs_require.
    { apply bool_decide_eq_true. rewrite Hobj, length_app, length_fmap. fold n in Hlen. lia. }
    apply runs_modify. rewrite Nat2Z.id, length_app, Nat.add_1_r. split; [|by destruct Hrow1; split].
    split; cbn [pt_ctx obj_coeffs col_ubs col_lbs].
    + rewrite Hobj. rewrite <-(length_fmap (column D (nZ 0 : xq) arc_cost) (arcs_ g)). by apply faux_insert.
    + rewrite Hubs. rewrite <-(length_fmap (column D (nZ 0 : xq) column_ub) (arcs_ g)). by apply faux_insert.
    + rewrite Hlbs. apply insert_replicate.
    + unfold fx. rewrite !length_app, !length_replicate. fold n. lia.
  - intros [] t' [Hc Hr]. rewrite Hl in Hc. done.
Qed.

(** The program that the translator builds. *)
Lemma ToProg_spec : ToProg g inf excl pseudo = Ret (reference_program, integer_columns g excl).
Proof.
  assert (runs (TranslateProg g inf excl pseudo) (Init_ProgTranslator g) (λ _ t, pt_ctx t = reference_program)) as (u & t & Hrun & Ht).
  { unfold TranslateProg. apply runs_bind. eapply runs_mono; [apply supply_groups_run|]. intros [] t1 H1.
    apply runs_bind. eapply runs_mono; [by apply request_groups_run|]. intros [] t2 H2.
    apply runs_bind, runs_get. eapply runs_mono; [eapply faux_columns_run; [exact H2|exact all_seen]|].
    intros [] t3 [[Hobj Hubs Hlbs _] [Hrows Hrl Hru]]. fold prog_rows in Hrows, Hrl, Hru.
    rewrite column_all in Hobj, Hubs by exact all_seen. unfold reference_program. destruct (pt_ctx t3). cbn in *. congruence. }
  unfold ToProg. by rewrite Hrun, Ht.
Qed.
End program.
