(* ===== verification/ProgFlow.v ===== *)
(** * Solutions of the program and flows in the graph

    A vector of column values solves the program that [ToProg] builds for a graph exactly
    when it is a flow of the graph: it stays within the quantities of the requests and the
    supply capacities, carries exclusive orders as a whole or not at all and at most one
    of those that exclude each other, and meets all demand that is not left to the columns
    of unmet demand. *)

From Stdlib Require Import QArith Qminmax Lqa ZArith Lia.
From stdpp Require Import base list gmap strings sorting.
From S2P Require Import Prelude Num Arithmetic ExchangeGraph Preconditioner GreedySolver ProgTranslator GreedyTheory ProgTheory.

Local Open Scope Q_scope.

(** ** Solutions

    A bound at or above the infinity of the interface is no bound. *)
Definition below (inf : xq) (q : Q) (b : xq) : Prop := (inf <=? b)%D = true ∨ (Fin q <=? b)%D = true.

Definition value (sol : list xq) (i : Z) : Q := val (nth (Z.to_nat i) sol (nZ 0)).
Definition row_value (sol : list xq) (row : packed xq) : Q := sumQ (map (λ e, val e.2 * value sol e.1) row).
Definition integer (q : Q) : Prop := ∃ z, q == inject_Z z.

Record feasible (inf : xq) (c : ProgTranslatorContext xq) (ints : list Z) (sol : list xq) : Prop := {
  fe_len : length sol = length (col_ubs c);
  fe_fin : Forall finite sol;
  fe_cols : ∀ i lb ub, col_lbs c !! i = Some lb → col_ubs c !! i = Some ub →
    (lb <=? Fin (value sol (Z.of_nat i)))%D = true ∧ below inf (value sol (Z.of_nat i)) ub;
  fe_rows : ∀ j row lb ub, m_rows c !! j = Some row → row_lbs c !! j = Some lb → row_ubs c !! j = Some ub →
    (lb <=? Fin (row_value sol row))%D = true ∧ below inf (row_value sol row) ub;
  fe_ints : ∀ i, i ∈ ints → integer (value sol i)
}.

(** ** Bounds *)
#[export] Instance below_proper inf : Proper (Qeq ==> eq ==> iff) (below inf).
Proof.
  intros q q' Hq b ? <-. unfold below. destruct b as [c| | |]; cbn; try done.
  rewrite !Qle_bool_iff. by rewrite Hq.
Qed.

(** ** Matches

    What a graph asks of matches: every one is on an arc of its own and larger than
    [eps]; it is of the exclusive quantity, or within the quantity of the request; supply
    capacities are respected, and so are exclusive groups of nodes. *)
Record flow_ok `{Limits xq} (inf : xq) (excl : bool) (g : ExchangeGraph xq) (ms : list (Arc xq * xq)) : Prop := {
  fo_match : ∀ m, m ∈ ms → m.1 ∈ arcs_ g ∧ finite m.2 ∧ val eps < val m.2 ∧
    if excl && exclusive_ m.1 then val m.2 == val (excl_val_ m.1) else below inf (val m.2) (qty (node_at g (unode_ m.1)));
  fo_once : NoDup (arc_key ∘ fst <$> ms);
  fo_supply : ∀ gp i c, gp ∈ supply_groups_ g → capacities_ (group_at g gp) !! i = Some c →
    below inf (group_use g gp i (halves ms)) c;
  fo_excl : excl = true → ∀ gp ns m1 m2, gp ∈ supply_groups_ g ++ request_groups_ g →
    ns ∈ excl_node_groups_ (group_at g gp) → m1 ∈ ms → m2 ∈ ms →
    exclusive_ m1.1 = true → (unode_ m1.1 ∈ ns ∨ vnode_ m1.1 ∈ ns) →
    exclusive_ m2.1 = true → (unode_ m2.1 ∈ ns ∨ vnode_ m2.1 ∈ ns) → arc_key m1.1 = arc_key m2.1
}.

Section bounds.
Context (inf : xq) (Hinf : (nlit 1000000000000000 <=? inf)%D = true).

Lemma below_inf q : below inf q inf.
Proof. left. destruct inf; cbn in *; try done. apply Qle_bool_iff. lra. Qed.
Lemma below_small q c b : c ≃ b → b < 1000000000000000 → below inf q c ↔ q <= b.
Proof.
  intros Hc Hb. destruct c as [c| | |]; try done. cbn in Hc. unfold below. split.
  - intros [Hi|Hi].
    + destruct inf as [i| | |]; cbn in *; try done. apply Qle_bool_iff in Hi. apply Qle_bool_iff in Hinf. lra.
    + cbn in Hi. apply Qle_bool_iff in Hi. lra.
  - intros Hq. right. cbn. apply Qle_bool_iff. lra.
Qed.
Lemma below_dmin q c : finite c → below inf q (dmin c inf) ↔ below inf q c.
Proof.
  intros Hc. unfold dmin. destruct (inf <? c)%D eqn:Hlt; [|done]. split; [|intros _; apply below_inf]. intros _. left.
  destruct c as [c| | |]; try done. destruct inf as [i| | |]; cbn in *; try done.
  apply Qle_bool_iff. apply negb_true_iff in Hlt. apply Qlt_le_weak, Qnot_le_lt. intros H. apply Qle_bool_iff in H. congruence.
Qed.
End bounds.
Lemma leb_Fin (c : xq) b q : c ≃ b → (c <=? Fin q)%D = true ↔ b <= q.
Proof. intros Hc. rewrite (leb_fin Hc (fin_Fin q)). apply Qle_bool_iff. Qed.

Lemma binary q : (integer q ∧ 0 <= q <= 1) ↔ (q == 0 ∨ q == 1).
Proof.
  split.
  - intros [[z Hz] [H0 H1]]. rewrite Hz in H0, H1. change 0 with (inject_Z 0) in H0. change 1 with (inject_Z 1) in H1.
    rewrite <-Zle_Qle in H0, H1. assert (z = 0 ∨ z = 1)%Z as [-> | ->] by lia; [by left|by right].
  - intros [Hq|Hq]; (split; [|lra]); [by exists 0%Z|by exists 1%Z].
Qed.

(** Sums. *)
Lemma sumQ_map_bind {X Y : Type} (h : Y → Q) (k : X → list Y) l :
  sumQ (map h (l ≫= k)) == sumQ (map (λ x, sumQ (map h (k x))) l).
Proof.
  induction l as [|x l IH]; [done|]. cbn [map mbind list_bind]. rewrite map_app, sumQ_app, sumQ_cons. by rewrite <-IH.
Qed.
Lemma sumQ_two {X : Type} (f : X → Q) (l : list X) a b : (∀ x, x ∈ l → 0 <= f x) → a ∈ l → b ∈ l → a ≠ b →
  f a + f b <= sumQ (map f l).
Proof.
  intros Hf [l' Hl]%elem_of_Permutation Hb Hne. rewrite (sumQ_perm _ _ (Permutation_map f Hl)). cbn [map]. rewrite sumQ_cons.
  rewrite Hl in Hb. apply elem_of_cons in Hb as [->|Hb]; [done|]. apply Qplus_le_r, sumQ_elem_le.
  - apply Forall_forall. intros q (x & <- & Hx%list_elem_of_In)%list_elem_of_In%in_map_iff. apply Hf. rewrite Hl. by right.
  - apply list_elem_of_In, in_map, list_elem_of_In, Hb.
Qed.
Lemma supply_use g gp i ms : (∀ m, m ∈ ms → group (node_at g (unode_ m.1)) ≠ Some gp) →
  group_use g gp i (halves ms) == sumQ (map (λ m : Arc xq * xq, if decide (group (node_at g (vnode_ m.1)) = Some gp)
    then unit_of g (vnode_ m.1) m.1 i * val m.2 else 0) ms).
Proof.
  intros Hu. unfold group_use, halves. rewrite sumQ_map_bind. apply sumQ_map_ext. intros m Hm. cbn [map fst snd].
  rewrite decide_False by by apply Hu. rewrite !sumQ_cons. cbn. ring.
Qed.

Section flows.
Context (g : ExchangeGraph xq) (inf : xq) (excl : bool).
Local Abbreviation n_arcs := (length (arcs_ g)).
Local Abbreviation arc_id a := (at_default 0%Z (arc_ids_ g) (arc_key a)).

(** ** Flows *)
Definition share (sol : list xq) (a : Arc xq) : Q := value sol (arc_id a).
Definition flow (sol : list xq) (a : Arc xq) : Q := if excl && exclusive_ a then val (excl_val_ a) * share sol a else share sol a.
Definition unserved (sol : list xq) (j : nat) : Q := value sol (Z.of_nat (n_arcs + j)).

(** The use of a capacity of a group by the flow on the arcs at its nodes. *)
Definition group_arcs (request : bool) (gp : ptr) : list (Arc xq) :=
  filter (λ a, node_end request a ∈ nodes_ (group_at g gp)) (arcs_ g).
Definition through (request : bool) (sol : list xq) (gp : ptr) (i : nat) : Q :=
  sumQ (map (λ a, unit_of g (node_end request a) a i * flow sol a) (group_arcs request gp)).

(** An exclusive order is carried as a whole or not at all. *)
Definition share_ok (sol : list xq) (a : Arc xq) : Prop :=
  if excl && exclusive_ a then share sol a == 0 ∨ share sol a == 1
  else 0 <= share sol a ∧ below inf (share sol a) (qty (node_at g (unode_ a))).
Definition unserved_ok (sol : list xq) (j : nat) : Prop :=
  if decide (j < n_faux g)%nat then 0 <= unserved sol j else unserved sol j == 0.

Record graph_flow (sol : list xq) : Prop := {
  gf_len : length sol = (n_arcs + length (request_groups_ g))%nat;
  gf_fin : Forall finite sol;
  gf_arc : ∀ a, a ∈ arcs_ g → share_ok sol a;
  gf_supply : ∀ gp i c, gp ∈ supply_groups_ g → capacities_ (group_at g gp) !! i = Some c →
    below inf (through false sol gp i) c;
  gf_request : ∀ j gp i c, List.filter (asking g) (request_groups_ g) !! j = Some gp →
    capacities_ (group_at g gp) !! i = Some c →
    Qmin (val c) (1000000000000000) <= through true sol gp i + unserved sol j;
  gf_excl : excl = true → ∀ gp ns, gp ∈ supply_groups_ g ++ List.filter (asking g) (request_groups_ g) →
    ns ∈ excl_node_groups_ (group_at g gp) →
    sumQ (map (share sol) (ns ≫= λ p, at_default [] (node_arc_map_ g) p)) <= 1;
  gf_unmet : ∀ j, (j < length (request_groups_ g))%nat → unserved_ok sol j
}.

Context (Hg : prog_ready g) (Hinf : (nlit 1000000000000000 <=? inf)%D = true).

(** ** Rows *)
Lemma node_end_key request a b : arc_key a = arc_key b → node_end request a = node_end request b.
Proof. unfold arc_key. intros [= ? ?]. by destruct request. Qed.

Lemma group_units_perm (request : bool) gp :
  gp ∈ (if request then request_groups_ g else supply_groups_ g) →
  group_units g (nodes_ (group_at g gp)) ≡ₚ (λ a, (arc_key a, units g (node_end request a) a)) <$> group_arcs request gp.
Proof.
  intros Hgp. apply NoDup_Permutation.
  - apply NoDup_bind.
    + intros p q [k us] Hp Hq H1%elem_of_in_order H2%elem_of_in_order.
      destruct (group_units_known g Hg request gp _ _ _ Hgp Hp H1) as (a & _ & Ha & _ & _ & <-).
      destruct (group_units_known g Hg request gp _ _ _ Hgp Hq H2) as (b & _ & Hb & _ & _ & <-).
      apply node_end_key. cbn in *. congruence.
    + intros p _. eapply NoDup_fmap_1, NoDup_fst_in_order.
    + apply (pg_nodes g Hg). destruct request; set_solver.
  - apply (NoDup_fmap_1 fst). rewrite <-list_fmap_compose.
    assert (fst ∘ (λ a : Arc xq, (arc_key a, units g (node_end request a) a)) = arc_key) as -> by done.
    eapply sublist_NoDup; [exact (pg_keys g Hg)|]. apply fmap_sublist, sublist_filter.
  - intros [k us]. split.
    + intros (p & Hk%elem_of_in_order & Hp)%list_elem_of_bind.
      destruct (group_units_known g Hg request gp _ _ _ Hgp Hp Hk) as (a & Ha & Hka & _ & _ & Hend).
      apply list_elem_of_fmap. exists a. cbn in Hka. split.
      * unfold units. by rewrite Hend, Hka, Hk.
      * apply list_elem_of_filter. by rewrite Hend.
    + intros (a & [= -> ->] & [Hend Ha]%list_elem_of_filter)%list_elem_of_fmap.
      apply list_elem_of_bind. exists (node_end request a). split; [|done]. apply elem_of_in_order.
      assert (is_Some (unit_capacities (node_at g (node_end request a)) !! arc_key a)) as [us Hus].
      { destruct request; [apply (pg_unode g Hg a Ha)|apply (pg_vnode g Hg a Ha)]. }
      unfold units. by rewrite Hus.
Qed.

Lemma units_ok (request : bool) gp a : gp ∈ (if request then request_groups_ g else supply_groups_ g) →
  a ∈ group_arcs request gp → Forall (λ u, finite u ∧ 0 < val u) (units g (node_end request a) a).
Proof.
  intros Hgp Ha. assert ((arc_key a, units g (node_end request a) a) ∈ group_units g (nodes_ (group_at g gp))) as Hin.
  { rewrite (group_units_perm request gp Hgp). apply list_elem_of_fmap. by exists a. }
  apply list_elem_of_bind in Hin as (p & Hk%elem_of_in_order & Hp).
  destruct (group_units_known g Hg request gp _ _ _ Hgp Hp Hk) as (b & _ & _ & _ & Hus & _). exact Hus.
Qed.

Lemma map_fmap {X Y Z : Type} (f : Y → Z) (h : X → Y) (l : list X) : map f (h <$> l) = map (λ x, f (h x)) l.
Proof. induction l as [|x l IH]; [done|]. cbn. by f_equal. Qed.
Lemma row_value_app sol r1 r2 : row_value sol (r1 ++ r2) == row_value sol r1 + row_value sol r2.
Proof. unfold row_value. rewrite map_app. apply sumQ_app. Qed.
Lemma row_value_bind {X} sol (f : X → packed xq) l : row_value sol (l ≫= f) == sumQ (map (λ x, row_value sol (f x)) l).
Proof. apply sumQ_map_bind. Qed.

Lemma entry_value (request : bool) sol gp i a : gp ∈ (if request then request_groups_ g else supply_groups_ g) →
  a ∈ group_arcs request gp →
  row_value sol (entry g excl i (arc_key a, units g (node_end request a) a)) == unit_of g (node_end request a) a i * flow sol a.
Proof.
  intros Hgp Ha. pose proof (units_ok request gp a Hgp Ha) as Hus.
  apply list_elem_of_filter in Ha as [_ Ha]. destruct (arc_by_key g Hg a Ha) as (k & _ & Hid & Hby).
  unfold entry. cbn [fst snd]. rewrite Hid, Hby. destruct (units g (node_end request a) a !! i) as [u|] eqn:Hu.
  - rewrite (unit_of_lookup _ _ _ _ _ Hu). destruct (Forall_lookup_1 _ _ _ _ Hus Hu) as [Hfu _].
    unfold row_value, arc_coeff, flow, share. cbn [map]. rewrite sumQ_cons. cbn [fst snd sumQ foldr]. rewrite Hid.
    destruct (excl && exclusive_ a); [|ring].
    destruct (pg_prefs g Hg a Ha) as (_ & He & _). rewrite (is_fin_val _ _ (fin_mul Hfu He)). ring.
  - unfold unit_of, vals. rewrite nth_overflow; [cbn; ring|]. rewrite length_map. by apply lookup_ge_None_1.
Qed.

(** The value of the row of a capacity is its use by the flow. *)
Lemma capacity_value (request : bool) sol gp i : gp ∈ (if request then request_groups_ g else supply_groups_ g) →
  row_value sol (group_units g (nodes_ (group_at g gp)) ≫= entry g excl i) == through request sol gp i.
Proof.
  intros Hgp. rewrite row_value_bind. unfold through.
  rewrite (sumQ_perm _ _ (Permutation_map _ (group_units_perm request gp Hgp))).
  rewrite map_fmap. apply sumQ_map_ext. intros a Ha. by apply (entry_value request sol gp).
Qed.

Lemma excl_row_value sol ns :
  row_value sol (excl_row g ns) == sumQ (map (share sol) (ns ≫= λ p, at_default [] (node_arc_map_ g) p)).
Proof.
  unfold excl_row. rewrite row_value_bind. induction ns as [|p ns IH]; [done|]. cbn [map]. rewrite sumQ_cons, IH.
  cbn. rewrite map_app, sumQ_app. apply Qplus_inj_r. unfold row_value. rewrite map_fmap.
  apply sumQ_map_ext. intros a _. unfold share. cbn. ring.
Qed.

(** ** The program and the flow *)
Lemma elem_of_group_rows faux gp r : r ∈ group_rows g inf excl faux gp ↔
  (∃ i c, capacities_ (group_at g gp) !! i = Some c ∧
    r = cap_row inf faux c (group_units g (nodes_ (group_at g gp)) ≫= entry g excl i)) ∨
  (excl = true ∧ ∃ ns, ns ∈ excl_node_groups_ (group_at g gp) ∧ excl_row g ns ≠ [] ∧ r = (excl_row g ns, nZ 0, nZ 1)).
Proof.
  unfold group_rows. rewrite elem_of_app. f_equiv.
  - rewrite elem_of_lookup_imap. naive_solver.
  - unfold excl_rows. destruct excl; [|set_solver]. rewrite list_elem_of_fmap.
    setoid_rewrite list_elem_of_filter. setoid_rewrite list_elem_of_fmap. naive_solver.
Qed.
Lemma elem_of_prog_rows r : r ∈ prog_rows g inf excl ↔
  (∃ gp, gp ∈ supply_groups_ g ∧ r ∈ group_rows g inf excl None gp) ∨
  (∃ j gp, List.filter (asking g) (request_groups_ g) !! j = Some gp ∧
    r ∈ group_rows g inf excl (Some (Z.of_nat (n_arcs + j))) gp).
Proof.
  unfold prog_rows. rewrite elem_of_app, list_elem_of_bind. f_equiv; [naive_solver|].
  unfold request_rows. rewrite list_elem_of_join. setoid_rewrite elem_of_lookup_imap. naive_solver.
Qed.

Lemma arc_column sol i a : arcs_ g !! i = Some a → value sol (Z.of_nat i) = share sol a.
Proof. intros Ha. unfold share, at_default. by rewrite (proj1 (arc_numbers g Hg i a Ha)). Qed.

Lemma share_ok_column sol a : a ∈ arcs_ g →
  share_ok sol a ↔ 0 <= share sol a ∧ below inf (share sol a) (column_ub g inf excl a) ∧
    (excl && exclusive_ a = true → integer (share sol a)).
Proof.
  intros Ha. destruct (pg_prefs g Hg a Ha) as (_ & _ & _ & Hq & _). unfold share_ok, column_ub.
  destruct (excl && exclusive_ a).
  - rewrite (below_small inf Hinf _ (nZ 1) 1 (fin_Z 1)) by lra. rewrite <-binary. naive_solver.
  - rewrite (below_dmin inf Hinf _ _ Hq). naive_solver.
Qed.

Lemma integer_shares sol : (∀ i, i ∈ integer_columns g excl → integer (value sol i)) ↔
  ∀ a, a ∈ arcs_ g → excl && exclusive_ a = true → integer (share sol a).
Proof.
  unfold integer_columns. destruct excl; [|set_solver]. setoid_rewrite list_elem_of_fmap.
  setoid_rewrite list_elem_of_In. setoid_rewrite filter_In. unfold share. naive_solver.
Qed.

Lemma faux_columns_lookup x j : (j < length (request_groups_ g))%nat →
  faux_columns g x !! j = Some (if decide (j < n_faux g)%nat then x else nZ 0).
Proof.
  intros Hj. unfold faux_columns. destruct (decide (j < n_faux g)%nat) as [Hlt|Hge].
  - rewrite lookup_app_l by by rewrite length_replicate. by apply lookup_replicate_2.
  - rewrite lookup_app_r by (rewrite length_replicate; lia). rewrite length_replicate. apply lookup_replicate_2. lia.
Qed.

Lemma unserved_ok_column sol j ub : (j < length (request_groups_ g))%nat → faux_columns g inf !! j = Some ub →
  unserved_ok sol j ↔ 0 <= unserved sol j ∧ below inf (unserved sol j) ub.
Proof.
  intros Hj. rewrite faux_columns_lookup by done. intros [= <-]. unfold unserved_ok.
  destruct (decide (j < n_faux g)%nat).
  - pose proof (below_inf inf Hinf (unserved sol j)). naive_solver.
  - rewrite (below_small inf Hinf _ (nZ 0) 0 (fin_Z 0)) by lra. split; [intros ->; lra|lra].
Qed.

(** The columns of a solution. *)
Lemma columns_flow pseudo sol (c := reference_program g inf excl pseudo) :
  ((∀ i lb ub, col_lbs c !! i = Some lb → col_ubs c !! i = Some ub →
     (lb <=? Fin (value sol (Z.of_nat i)))%D = true ∧ below inf (value sol (Z.of_nat i)) ub) ∧
   (∀ i, i ∈ integer_columns g excl → integer (value sol i))) ↔
  (∀ a, a ∈ arcs_ g → share_ok sol a) ∧ (∀ j, (j < length (request_groups_ g))%nat → unserved_ok sol j).
Proof.
  rewrite integer_shares. cbn [c reference_program col_lbs col_ubs]. split.
  - intros [Hcol Hint]. split.
    + intros a Ha. apply share_ok_column; [done|]. apply list_elem_of_lookup in Ha as [i Hi].
      apply lookup_lt_Some in Hi as Hlt. destruct (Hcol i (nZ 0) (column_ub g inf excl a)) as [H0 Hub].
      { apply lookup_replicate_2. lia. }
      { rewrite lookup_app_l by by rewrite length_fmap. by rewrite list_lookup_fmap, Hi. }
      rewrite (arc_column sol i a Hi) in H0, Hub. apply (leb_Fin (nZ 0) 0 _ (fin_Z 0)) in H0.
      split_and!; [done|done|]. apply Hint. by eapply list_elem_of_lookup_2.
    + intros j Hj. pose proof (faux_columns_lookup inf j Hj) as Hf. eapply unserved_ok_column; [done|exact Hf|].
      destruct (Hcol (n_arcs + j)%nat (nZ 0) (if decide (j < n_faux g)%nat then inf else nZ 0)) as [H0 Hub].
      { apply lookup_replicate_2. lia. }
      { rewrite lookup_app_r by (rewrite length_fmap; lia). rewrite length_fmap. by replace (n_arcs + j - n_arcs)%nat with j by lia. }
      apply (leb_Fin (nZ 0) 0 _ (fin_Z 0)) in H0. done.
  - intros [Harc Hun]. split; [|intros a Ha; by apply share_ok_column, Harc].
    intros i lb ub [-> Hi]%lookup_replicate Hub. rewrite (leb_Fin (nZ 0) 0 _ (fin_Z 0)).
    apply lookup_app_Some in Hub as [(a & -> & Ha)%list_lookup_fmap_Some|[Hge Hub]].
    + rewrite (arc_column sol i a Ha). apply list_elem_of_lookup_2 in Ha as Hin.
      destruct (proj1 (share_ok_column sol a Hin) (Harc a Hin)) as (? & ? & _). done.
    + rewrite length_fmap in Hge, Hub. replace i with (n_arcs + (i - n_arcs))%nat by lia.
      apply unserved_ok_column; [lia|done|]. apply Hun. lia.
Qed.

(** *** Rows *)
Lemma share_nonneg sol a : share_ok sol a → 0 <= share sol a.
Proof. unfold share_ok. destruct (_ && _); [intros [-> | ->]; lra|by intros [? _]]. Qed.
Lemma flow_nonneg sol a : a ∈ arcs_ g → share_ok sol a → 0 <= flow sol a.
Proof.
  intros Ha Hs%share_nonneg. destruct (pg_prefs g Hg a Ha) as (_ & _ & He & _). unfold flow.
  destruct (_ && _); [by apply Qmult_le_0_compat|done].
Qed.
Lemma use_nonneg (request : bool) sol gp i a : gp ∈ (if request then request_groups_ g else supply_groups_ g) →
  a ∈ group_arcs request gp → share_ok sol a → 0 <= unit_of g (node_end request a) a i * flow sol a.
Proof.
  intros Hgp Ha Hs. apply Qmult_le_0_compat.
  - apply nth_positive. eapply Forall_impl; [by apply (units_ok request gp)|]. by intros u [_ ?].
  - apply list_elem_of_filter in Ha as [_ Ha]. by apply flow_nonneg.
Qed.
Lemma through_nonneg (request : bool) sol gp i : gp ∈ (if request then request_groups_ g else supply_groups_ g) →
  (∀ a, a ∈ arcs_ g → share_ok sol a) → 0 <= through request sol gp i.
Proof.
  intros Hgp Hs. apply sumQ_nonneg, Forall_forall. intros q (a & <- & Ha%list_elem_of_In)%list_elem_of_In%in_map_iff.
  apply (use_nonneg request sol gp); [done|done|]. apply list_elem_of_filter in Ha as [_ Ha]. by apply Hs.
Qed.

Definition row_ok (sol : list xq) (r : bounded_row) : Prop :=
  (r.1.2 <=? Fin (row_value sol r.1.1))%D = true ∧ below inf (row_value sol r.1.1) r.2.

Lemma supply_row_ok sol gp i c : gp ∈ supply_groups_ g → (∀ a, a ∈ arcs_ g → share_ok sol a) →
  row_ok sol (cap_row inf None c (group_units g (nodes_ (group_at g gp)) ≫= entry g excl i)) ↔
  below inf (through false sol gp i) c.
Proof.
  intros Hgp Hs. unfold row_ok. cbn [cap_row fst snd]. rewrite (leb_Fin (nZ 0) 0 _ (fin_Z 0)).
  rewrite (capacity_value false sol gp i Hgp). pose proof (through_nonneg false sol gp i Hgp Hs). naive_solver.
Qed.

Lemma request_row_ok sol gp i j c : gp ∈ request_groups_ g → finite c →
  row_ok sol (cap_row inf (Some (Z.of_nat (n_arcs + j))) c (group_units g (nodes_ (group_at g gp)) ≫= entry g excl i)) ↔
  Qmin (val c) 1000000000000000 <= through true sol gp i + unserved sol j.
Proof.
  intros Hgp Hc. unfold row_ok. cbn [cap_row fst snd].
  rewrite (leb_Fin _ _ _ (fin_min Hc (fin_lit 1000000000000000))). rewrite row_value_app, (capacity_value true sol gp i Hgp).
  assert (row_value sol [(Z.of_nat (n_arcs + j), nZ 1)] == unserved sol j) as ->.
  { unfold row_value, unserved. cbn. ring. }
  pose proof (below_inf inf Hinf (through true sol gp i + unserved sol j)). naive_solver.
Qed.

Lemma excl_row_ok sol ns : (∀ a, a ∈ arcs_ g → share_ok sol a) →
  row_ok sol (excl_row g ns, nZ 0, nZ 1) ↔
  sumQ (map (share sol) (ns ≫= λ p, at_default [] (node_arc_map_ g) p)) <= 1.
Proof.
  intros Hs. unfold row_ok. cbn [fst snd]. rewrite (leb_Fin (nZ 0) 0 _ (fin_Z 0)).
  rewrite (below_small inf Hinf _ (nZ 1) 1 (fin_Z 1)) by lra. rewrite excl_row_value.
  assert (0 <= sumQ (map (share sol) (ns ≫= λ p, at_default [] (node_arc_map_ g) p))); [|naive_solver].
  apply sumQ_nonneg, Forall_forall. intros q (a & <- & Ha%list_elem_of_In)%list_elem_of_In%in_map_iff.
  apply list_elem_of_bind in Ha as (p & Ha & _). rewrite (wf_incident g (pg_wf g Hg)) in Ha.
  apply elem_of_incident in Ha as [Ha _]. by apply share_nonneg, Hs.
Qed.

Lemma group_caps_finite gp i c : gp ∈ supply_groups_ g ++ request_groups_ g →
  capacities_ (group_at g gp) !! i = Some c → finite c.
Proof. intros Hgp Hc. by destruct (Forall_lookup_1 _ _ _ _ (pg_caps g Hg gp Hgp) Hc). Qed.

Lemma asking_request j gp : List.filter (asking g) (request_groups_ g) !! j = Some gp → gp ∈ request_groups_ g.
Proof. intros Hj%list_elem_of_lookup_2. apply list_elem_of_In, filter_In in Hj as [Hj _]. by apply list_elem_of_In. Qed.

(** The rows of a solution, when its columns are right. *)
Lemma rows_flow sol : (∀ a, a ∈ arcs_ g → share_ok sol a) →
  (∀ r, r ∈ prog_rows g inf excl → row_ok sol r) ↔
  (∀ gp i c, gp ∈ supply_groups_ g → capacities_ (group_at g gp) !! i = Some c → below inf (through false sol gp i) c) ∧
  (∀ j gp i c, List.filter (asking g) (request_groups_ g) !! j = Some gp →
    capacities_ (group_at g gp) !! i = Some c →
    Qmin (val c) 1000000000000000 <= through true sol gp i + unserved sol j) ∧
  (excl = true → ∀ gp ns, gp ∈ supply_groups_ g ++ List.filter (asking g) (request_groups_ g) →
    ns ∈ excl_node_groups_ (group_at g gp) →
    sumQ (map (share sol) (ns ≫= λ p, at_default [] (node_arc_map_ g) p)) <= 1).
Proof.
  intros Hs. setoid_rewrite elem_of_prog_rows. setoid_rewrite elem_of_group_rows. split.
  - intros Hr. split_and!.
    + intros gp i c Hgp Hc. apply supply_row_ok; [done|done|]. apply Hr. naive_solver.
    + intros j gp i c Hj Hc. apply request_row_ok; [by eapply asking_request| |apply Hr; naive_solver].
      eapply group_caps_finite; [|done]. apply elem_of_app. right. by eapply asking_request.
    + intros Hx gp ns Hgp Hns. destruct (decide (excl_row g ns = [])) as [Hnil|Hne].
      { rewrite <-excl_row_value, Hnil. cbn. lra. }
      apply excl_row_ok; [done|]. apply Hr. apply elem_of_app in Hgp as [Hgp|[j Hj]%list_elem_of_lookup]; naive_solver.
  - intros (Hsup & Hreq & Hex) r [(gp & Hgp & [(i & c & Hc & ->)|(Hx & ns & Hns & _ & ->)])|(j & gp & Hj & [(i & c & Hc & ->)|(Hx & ns & Hns & _ & ->)])].
    + apply supply_row_ok; [done|done|]. by apply Hsup.
    + apply excl_row_ok; [done|]. apply (Hex Hx gp); [set_solver|done].
    + pose proof (asking_request j gp Hj). apply request_row_ok; [done| |by apply Hreq].
      eapply group_caps_finite; [|done]. set_solver.
    + apply excl_row_ok; [done|]. apply (Hex Hx gp); [|done]. apply elem_of_app. right. by eapply list_elem_of_lookup_2.
Qed.

Lemma rows_reference pseudo sol (c := reference_program g inf excl pseudo) :
  (∀ j row lb ub, m_rows c !! j = Some row → row_lbs c !! j = Some lb → row_ubs c !! j = Some ub →
    (lb <=? Fin (row_value sol row))%D = true ∧ below inf (row_value sol row) ub) ↔
  (∀ r, r ∈ prog_rows g inf excl → row_ok sol r).
Proof.
  cbn [c reference_program m_rows row_lbs row_ubs]. setoid_rewrite list_lookup_fmap. split.
  - intros H r [j Hj]%list_elem_of_lookup. apply (H j); by rewrite Hj.
  - intros H j row lb ub. destruct (prog_rows g inf excl !! j) as [r|] eqn:Hj; [|done].
    intros [= <-] [= <-] [= <-]. apply (H r). by eapply list_elem_of_lookup_2.
Qed.

Lemma feasible_flow pseudo sol :
  feasible inf (reference_program g inf excl pseudo) (integer_columns g excl) sol ↔ graph_flow sol.
Proof.
  assert (length (col_ubs (reference_program g inf excl pseudo)) = (n_arcs + length (request_groups_ g))%nat) as Hlen.
  { cbn [reference_program col_ubs]. rewrite length_app, length_fmap. unfold faux_columns. rewrite length_app, !length_replicate.
    pose proof (filter_length_le (asking g) (request_groups_ g)). unfold n_faux. lia. }
  split.
  - intros [Hl Hf Hc Hr Hi]. destruct (proj1 (columns_flow pseudo sol) (conj Hc Hi)) as [Ha Hu].
    destruct (proj1 (rows_flow sol Ha) (proj1 (rows_reference pseudo sol) Hr)) as (? & ? & ?). split; congruence || done.
  - intros [Hl Hf Ha Hs Hq He Hu]. destruct (proj2 (columns_flow pseudo sol) (conj Ha Hu)) as [Hc Hi].
    split; [congruence|done|done| |done]. apply rows_reference, rows_flow; done.
Qed.

(** ** There always is a solution: no flow at all *)
Definition no_flow : list xq := replicate n_arcs (nZ 0) ++ faux_columns g (nlit 1000000000000000).

Lemma no_flow_share a : a ∈ arcs_ g → share no_flow a = 0.
Proof.
  intros Ha. destruct (arc_by_key g Hg a Ha) as (i & Hi & Hid & _). apply lookup_lt_Some in Hi.
  unfold share, value, no_flow. rewrite Hid, Nat2Z.id, app_nth1 by by rewrite length_replicate.
  rewrite (nth_lookup_Some _ _ _ (nZ 0)); [done|]. by apply lookup_replicate_2.
Qed.
Lemma no_flow_unserved j : (j < length (request_groups_ g))%nat →
  unserved no_flow j = if decide (j < n_faux g)%nat then 1000000000000000 else 0.
Proof.
  intros Hj. unfold unserved, value, no_flow. rewrite Nat2Z.id, app_nth2 by (rewrite length_replicate; lia).
  rewrite length_replicate. replace (n_arcs + j - n_arcs)%nat with j by lia.
  rewrite (nth_lookup_Some _ _ _ _ (faux_columns_lookup _ j Hj)). by destruct (decide _).
Qed.

Lemma no_flow_ok : graph_flow no_flow.
Proof.
  assert (∀ a, a ∈ arcs_ g → share_ok no_flow a) as Hs.
  { intros a Ha. unfold share_ok. rewrite (no_flow_share a Ha). destruct (_ && _); [by left|]. split; [done|].
    destruct (pg_prefs g Hg a Ha) as (_ & _ & _ & Hq & Hq0). right. rewrite (leb_fin (fin_Fin 0) Hq). by apply Qle_bool_iff. }
  assert (∀ a, a ∈ arcs_ g → flow no_flow a == 0) as Hf.
  { intros a Ha. unfold flow. rewrite (no_flow_share a Ha). destruct (_ && _); ring. }
  assert (∀ request gp i, through request no_flow gp i == 0) as Ht.
  { intros request gp i. unfold through. transitivity (sumQ (map (λ _, 0 * 0) (group_arcs request gp))).
    - apply sumQ_map_ext. intros a [_ Ha]%list_elem_of_filter. rewrite (Hf a Ha). ring.
    - rewrite sumQ_map_mult. ring. }
  split; [|..|done| | | |].
  - unfold no_flow, faux_columns. rewrite !length_app, !length_replicate.
    pose proof (filter_length_le (asking g) (request_groups_ g)). unfold n_faux. lia.
  - unfold no_flow, faux_columns. rewrite !Forall_app. split_and!; apply Forall_replicate; done.
  - intros gp i c Hgp Hc. rewrite Ht. right. destruct (Forall_lookup_1 _ _ _ _ (pg_caps g Hg gp ltac:(set_solver)) Hc) as [Hcf Hc0].
    rewrite (leb_fin (fin_Fin 0) Hcf). by apply Qle_bool_iff.
  - intros j gp i c Hj Hc. assert (j < n_faux g)%nat as Hlt by by eapply lookup_lt_Some.
    pose proof (filter_length_le (asking g) (request_groups_ g)). rewrite Ht, no_flow_unserved, decide_True by (unfold n_faux in *; lia).
    pose proof (Q.le_min_r (val c) 1000000000000000). lra.
  - intros _ gp ns _ _. rewrite (sumQ_map_ext _ (λ _, 0 * 0)), sumQ_map_mult; [lra|]. intros a (p & Ha & _)%list_elem_of_bind.
    rewrite (wf_incident g (pg_wf g Hg)) in Ha. apply elem_of_incident in Ha as [Ha _]. by rewrite (no_flow_share a Ha).
  - intros j Hj. unfold unserved_ok. rewrite (no_flow_unserved j Hj). by destruct (decide _).
Qed.

(** ** The matches of a flow *)
Definition arc_match (sol : list xq) (a : Arc xq) : xq := arc_flow excl a (nth (Z.to_nat (arc_id a)) sol (nZ 0)).

Section matches.
Context `{Limits xq} (sol : list xq) (Hsol : graph_flow sol).
Definition flow_matches : list (Arc xq * xq) :=
  arcs_ g ≫= λ a, if (arc_match sol a >? eps)%D then [(a, arc_match sol a)] else [].

Lemma arc_match_fin a : a ∈ arcs_ g → arc_match sol a ≃ flow sol a.
Proof.
  intros Ha. destruct (arc_by_key g Hg a Ha) as (k & Hk & Hid & _). apply lookup_lt_Some in Hk.
  destruct (pg_prefs g Hg a Ha) as (_ & He & _). unfold arc_match, flow, arc_flow, share, value.
  assert (finite (nth (Z.to_nat (arc_id a)) sol (nZ 0))) as Hx.
  { rewrite Hid, Nat2Z.id. eapply Forall_nth; [|rewrite (gf_len sol Hsol); lia].
    apply Forall_forall. intros x Hx. eapply Forall_forall; [exact (gf_fin sol Hsol)|done]. }
  destruct (excl && exclusive_ a); [|done]. eapply is_fin_weaken; [exact (fin_mul Hx He)|ring].
Qed.

Lemma elem_of_flow_matches m : m ∈ flow_matches ↔
  m.1 ∈ arcs_ g ∧ m.2 = arc_match sol m.1 ∧ (arc_match sol m.1 >? eps)%D = true.
Proof.
  unfold flow_matches. rewrite list_elem_of_bind. destruct m as [a x]. cbn [fst snd]. split.
  - intros (b & Hb & Hin). destruct (arc_match sol b >? eps)%D eqn:He; [|by apply elem_of_nil in Hb].
    apply list_elem_of_singleton in Hb as [= -> ->]. done.
  - intros (Ha & -> & He). exists a. rewrite He. set_solver.
Qed.

(** Reading the matches off a solution. *)
Lemma FromProg_spec : FromProg excl sol g = (Ret tt, set_matches (matches_ g ++ flow_matches) g).
Proof.
  set (f := λ a, if (arc_match sol a >? eps)%D then [(a, arc_match sol a)] else []).
  unfold FromProg. rewrite (bind_ret get _ g g g eq_refl).
  match goal with |- for_each ?body ?l g = _ => destruct (runs_for_each_visited
    (λ pre g', g' = set_matches (matches_ g ++ (take (length pre) (arcs_ g) ≫= f)) g) body l g) as ([] & g' & Hrun & Hg') end.
  - cbn. rewrite app_nil_r. by destruct g.
  - intros pre i post g1 Hl ->. assert (i = length pre) as ->.
    { assert (seq 0 n_arcs !! length pre = Some i) as Hi by by rewrite Hl, list_lookup_middle.
      apply lookup_seq in Hi. lia. }
    assert (length pre < n_arcs)%nat as Hlt.
    { pose proof (length_seq n_arcs 0) as Hs. rewrite Hl, length_app in Hs. cbn in Hs. lia. }
    destruct (lookup_lt_is_Some_2 (arcs_ g) _ Hlt) as [a Ha]. destruct (arc_numbers g Hg _ _ Ha) as [Hid Hby].
    destruct (lookup_lt_is_Some_2 sol (length pre)) as [x Hx]; [rewrite (gf_len sol Hsol); lia|].
    apply runs_bind, runs_get, runs_bind. eapply runs_option; [exact Hby|]. apply runs_bind. eapply runs_option; [exact Hx|].
    rewrite length_app, Nat.add_1_r, (take_S_r _ _ _ Ha), bind_app. cbn [mbind list_bind]. rewrite app_nil_r.
    assert (arc_flow excl a x = arc_match sol a) as ->.
    { assert (arc_id a = Z.of_nat (length pre)) as Hn by (unfold at_default; by rewrite Hid).
      unfold arc_match. rewrite Hn, Nat2Z.id. by rewrite (nth_lookup_Some _ _ _ _ Hx). }
    assert (f a = if (arc_match sol a >? eps)%D then [(a, arc_match sol a)] else []) as -> by done.
    destruct (arc_match sol a >? eps)%D.
    + apply runs_modify. unfold AddMatch. cbn [matches_ set_matches]. by rewrite <-app_assoc.
    + apply runs_ret. by rewrite app_nil_r.
  - rewrite Hrun, Hg', length_seq, firstn_all. done.
Qed.

(** A match per arc at most, of the exclusive quantity or within the request. *)
Lemma flow_matches_once : NoDup (arc_key ∘ fst <$> flow_matches).
Proof.
  eapply sublist_NoDup; [exact (pg_keys g Hg)|]. unfold flow_matches. induction (arcs_ g) as [|a l IH]; [done|].
  cbn [mbind list_bind]. destruct (arc_match sol a >? eps)%D; [by apply sublist_skip|by apply sublist_cons].
Qed.
Context {e er : Q} `{!GoodLimits e er}.

Lemma flow_match_big a : a ∈ arcs_ g → (arc_match sol a >? eps)%D = true → 0 <= val eps < flow sol a.
Proof.
  intros Ha He. assert (val eps == e) as -> by apply is_fin_val, eps_fin. split; [apply eps_nonneg|].
  exact (fin_ltb_true eps_fin (arc_match_fin a Ha) He).
Qed.

(** A matched exclusive order is carried as a whole. *)
Lemma matched_share a : a ∈ arcs_ g → (arc_match sol a >? eps)%D = true → excl && exclusive_ a = true → share sol a == 1.
Proof.
  intros Ha He Hx. destruct (flow_match_big a Ha He) as [H0 H1]. pose proof (gf_arc sol Hsol a Ha) as Hs.
  unfold share_ok in Hs. unfold flow in H1. rewrite Hx in Hs, H1. destruct Hs as [Hs|Hs]; [|done]. rewrite Hs in H1. lra.
Qed.

Lemma group_vnode gp a : gp ∈ supply_groups_ g → a ∈ arcs_ g →
  group (node_at g (vnode_ a)) = Some gp ↔ vnode_ a ∈ nodes_ (group_at g gp).
Proof.
  intros Hgp Ha. split; [|apply (pg_group g Hg); set_solver].
  destruct (pg_vnode g Hg a Ha) as ((gp' & Hgp' & Hv) & _). rewrite (pg_group g Hg gp' _ ltac:(set_solver) Hv). congruence.
Qed.
Lemma group_unode gp a : gp ∈ supply_groups_ g → a ∈ arcs_ g → group (node_at g (unode_ a)) ≠ Some gp.
Proof.
  intros Hgp Ha. destruct (pg_unode g Hg a Ha) as ((gp' & Hgp' & Hu) & _). rewrite (pg_group g Hg gp' _ ltac:(set_solver) Hu).
  intros [= ->]. by apply (pg_disjoint g Hg gp).
Qed.

Lemma matches_supply gp i : gp ∈ supply_groups_ g → group_use g gp i (halves flow_matches) <= through false sol gp i.
Proof.
  intros Hgp. rewrite supply_use by (intros m (Hm & _)%elem_of_flow_matches; by apply group_unode).
  unfold through, group_arcs. rewrite sumQ_map_filter. unfold flow_matches. rewrite sumQ_map_bind.
  apply sumQ_map_le. intros a Ha. pose proof (use_nonneg false sol gp i a Hgp) as Hpos.
  destruct (decide (node_end false a ∈ nodes_ (group_at g gp))) as [Hv|Hv].
  - specialize (Hpos ltac:(by apply list_elem_of_filter) (gf_arc sol Hsol a Ha)).
    destruct (arc_match sol a >? eps)%D; [|done]. cbn [map fst snd]. rewrite decide_True by by apply group_vnode.
    rewrite sumQ_cons, (is_fin_val _ _ (arc_match_fin a Ha)). cbn [sumQ map foldr node_end]. lra.
  - destruct (arc_match sol a >? eps)%D; [|cbn; lra]. cbn [map fst snd].
    rewrite decide_False by (intros Hgr; by apply Hv, (group_vnode gp a Hgp Ha)). cbn. lra.
Qed.

Lemma in_excl_row a (ns : list ptr) : a ∈ arcs_ g → unode_ a ∈ ns ∨ vnode_ a ∈ ns →
  a ∈ ns ≫= λ p, at_default [] (node_arc_map_ g) p.
Proof.
  intros Ha Hns. apply list_elem_of_bind. destruct Hns as [Hp|Hp]; eexists; (split; [|exact Hp]);
    rewrite (wf_incident g (pg_wf g Hg)); apply elem_of_incident; auto.
Qed.

(** A request group with an arc at one of its nodes has a row. *)
Lemma excl_group_asking gp (ns : list ptr) a : gp ∈ supply_groups_ g ++ request_groups_ g →
  ns ∈ excl_node_groups_ (group_at g gp) → a ∈ arcs_ g → unode_ a ∈ ns ∨ vnode_ a ∈ ns →
  gp ∈ supply_groups_ g ++ List.filter (asking g) (request_groups_ g).
Proof.
  intros Hgp Hns Ha Hend. pose proof (pg_excl g Hg gp ns Hgp Hns) as Hsub.
  apply elem_of_app in Hgp as [Hs|Hr]; [set_solver|]. apply elem_of_app. right.
  apply list_elem_of_In, filter_In. split; [by apply list_elem_of_In|]. destruct Hend as [Hu|Hv].
  - apply (asking_arc g Hg a); [done|by apply Hsub].
  - exfalso. destruct (pg_vnode g Hg a Ha) as ((gp' & Hgp' & Hv') & _).
    assert (Some gp' = Some gp) as [= ->]; [|by apply (pg_disjoint g Hg gp)].
    rewrite <-(pg_group g Hg gp' _ ltac:(set_solver) Hv'). apply (pg_group g Hg); [set_solver|by apply Hsub].
Qed.

Lemma matches_flow_ok : flow_ok inf excl g flow_matches.
Proof.
  split.
  - intros [a x] (Ha & -> & He)%elem_of_flow_matches. cbn [fst snd] in *. pose proof (arc_match_fin a Ha) as Hfin.
    pose proof (is_fin_val _ _ Hfin) as Hval.
    split_and!; [done|by eapply is_fin_finite|rewrite Hval; by apply flow_match_big|].
    pose proof (gf_arc sol Hsol a Ha) as Hs. unfold share_ok in Hs. unfold flow in Hval.
    destruct (excl && exclusive_ a) eqn:Hx; rewrite Hval; [|apply Hs]. rewrite (matched_share a Ha He Hx). ring.
  - apply flow_matches_once.
  - intros gp i c Hgp Hc. destruct (gf_supply sol Hsol gp i c Hgp Hc) as [Hi|Hq]; [by left|]. right.
    pose proof (matches_supply gp i Hgp) as Hle. destruct c as [c| | |]; try done. cbn in *. apply Qle_bool_iff. apply Qle_bool_iff in Hq. lra.
  - intros Hx gp ns m1 m2 Hgp Hns (H1 & _ & E1)%elem_of_flow_matches (H2 & _ & E2)%elem_of_flow_matches X1 N1 X2 N2.
    destruct (decide (arc_key m1.1 = arc_key m2.1)) as [|Hne]; [done|exfalso].
    pose proof (gf_excl sol Hsol Hx gp ns (excl_group_asking gp ns _ Hgp Hns H1 N1) Hns) as Hle.
    assert (share sol m1.1 + share sol m2.1 <= sumQ (map (share sol) (ns ≫= λ p, at_default [] (node_arc_map_ g) p))) as Hge.
    { apply sumQ_two; [|by apply in_excl_row|by apply in_excl_row|congruence]. intros a (p & Hin & _)%list_elem_of_bind.
      rewrite (wf_incident g (pg_wf g Hg)) in Hin. apply elem_of_incident in Hin as [Ha _]. by apply share_nonneg, (gf_arc sol Hsol). }
    rewrite !matched_share in Hge by (try done; by rewrite Hx). lra.
Qed.
End matches.
End flows.
