(* ===== verification/Producers.v ===== *)
(** * Producers of commodities

    [src/src/toolkit/commodity_producer.h], [.cc], [commodity_producer_manager.h], [.cc],
    [supply_demand_manager.h], [.cc], [builder.h], [building_manager.h] and [.cc]: what
    facilities can produce at which capacity and cost, the supply of and demand for a
    commodity, and the decision what to build for an unmet demand.  A commodity is its name.
    Producers live in a store keyed by address, which is the state of the model; managers
    and builders are sets of addresses.  The COIN-OR library that solves the integer program
    is a parameter, [inf] being its infinity. *)

From Stdlib Require Import QArith Lqa ZArith Lia.
From stdpp Require Import base list gmap strings sorting.
From S2P Require Import Prelude Num SymFunctions ExchangeGraph ProgTranslator.

Record CommodInfo {F : Type} := mkCommodInfo { capacity : F; cost : F }.
Arguments CommodInfo F : clear implicits.
Record CommodityProducer {F : Type} := mkProducer {
  commodities_ : gmap string (CommodInfo F);
  default_capacity_ : F;
  default_cost_ : F
}.
Arguments CommodityProducer F : clear implicits.

Section producers.
Context {F : Type} `{Num F} `{Exponential F}.
Local Abbreviation Producers := (gmap ptr (CommodityProducer F)).
Local Abbreviation PM := (M Producers).

Definition kModifierLimit : F := nlit 10000000000.
Definition default_CommodInfo : CommodInfo F := mkCommodInfo F (nZ 0) kModifierLimit.
Definition new_CommodityProducer (default_capacity default_cost : F) : CommodityProducer F :=
  mkProducer F ∅ default_capacity default_cost.

Definition set_commodities (m : gmap string (CommodInfo F)) (p : CommodityProducer F) : CommodityProducer F :=
  mkProducer F m (default_capacity_ p) (default_cost_ p).
Definition the_producer (p : ptr) : PM (CommodityProducer F) := s ← get; from_option_or Undefined (s !! p).
Definition update_producer (p : ptr) (f : CommodityProducer F → CommodityProducer F) : PM unit :=
  x ← the_producer p; modify <[p := f x]>.

(** [commodities_[commodity]] makes an entry if there is none. *)
Definition info_at (commodity : string) (p : ptr) : PM (CommodInfo F) :=
  update_producer p (λ x, set_commodities (<[commodity := at_default default_CommodInfo (commodities_ x) commodity]> (commodities_ x)) x);;
  x ← the_producer p; mret (at_default default_CommodInfo (commodities_ x) commodity).

Definition Produces (commodity : string) (p : ptr) : PM bool :=
  x ← the_producer p; mret (bool_decide (is_Some (commodities_ x !! commodity))).
Definition Capacity (commodity : string) (p : ptr) : PM F := i ← info_at commodity p; mret (capacity i).
Definition Cost (commodity : string) (p : ptr) : PM F := i ← info_at commodity p; mret (cost i).
Definition SetCapacity (commodity : string) (c : F) (p : ptr) : PM unit :=
  i ← info_at commodity p;
  update_producer p (λ x, set_commodities (<[commodity := mkCommodInfo F c (cost i)]> (commodities_ x)) x).
Definition SetCost (commodity : string) (c : F) (p : ptr) : PM unit :=
  i ← info_at commodity p;
  update_producer p (λ x, set_commodities (<[commodity := mkCommodInfo F (capacity i) c]> (commodities_ x)) x).
Definition AddInfo (commodity : string) (info : CommodInfo F) (p : ptr) : PM unit :=
  update_producer p (λ x, set_commodities (insert_new commodity info (commodities_ x)) x).
Definition Add (commodity : string) (p : ptr) : PM unit :=
  x ← the_producer p; AddInfo commodity (mkCommodInfo F (default_capacity_ x) (default_cost_ x)) p.
Definition Rm (commodity : string) (p : ptr) : PM unit :=
  update_producer p (λ x, set_commodities (delete commodity (commodities_ x)) x).
Definition ProducedCommodities (p : ptr) : PM (list string) :=
  x ← the_producer p; mret (in_order (commodities_ x)).*1.
Definition Copy (source p : ptr) : PM unit :=
  commodities ← ProducedCommodities source;
  for_each (λ c,
    Add c p;;
    cap ← Capacity c source; SetCapacity c cap p;;
    cst ← Cost c source; SetCost c cst p) commodities.

(** ** Supply and demand *)

(** [CommodityProducerManager::TotalCapacity], [producers_] being its set. *)
Fixpoint total_loop (commodity : string) (producers_ : list ptr) (total : F) : PM F :=
  match producers_ with
  | [] => mret total
  | p :: l =>
      b ← Produces commodity p;
      if b : bool then c ← Capacity commodity p; total_loop commodity l (total + c)%D
      else total_loop commodity l total
  end.
Definition TotalCapacity (producers_ : gset ptr) (commodity : string) : PM F :=
  total_loop commodity (set_in_order producers_) (nZ 0).

Record SupplyDemandManager := mkSupplyDemand {
  demand_functions_ : gmap string (option (SymFunction F));
  managers_ : gmap ptr (gset ptr)
}.
Definition RegisterCommodity (commodity : string) (demand : SymFunction F) (m : SupplyDemandManager) : SupplyDemandManager :=
  mkSupplyDemand (insert_new commodity (Some demand) (demand_functions_ m)) (managers_ m).
Definition ManagesCommodity (commodity : string) (m : SupplyDemandManager) : bool :=
  bool_decide (is_Some (demand_functions_ m !! commodity)).
Definition RegisterProducerManager (cpm : ptr) (producers_ : gset ptr) (m : SupplyDemandManager) : SupplyDemandManager :=
  mkSupplyDemand (demand_functions_ m) (<[cpm := producers_]> (managers_ m)).
Definition UnregisterProducerManager (cpm : ptr) (m : SupplyDemandManager) : SupplyDemandManager :=
  mkSupplyDemand (demand_functions_ m) (delete cpm (managers_ m)).

(** [demand_functions_[commodity]] makes an entry with a null pointer if there is none. *)
Definition DemandFunction (commodity : string) : M SupplyDemandManager (option (SymFunction F)) :=
  m ← get;
  let f := at_default None (demand_functions_ m) commodity in
  modify (λ m, mkSupplyDemand (<[commodity := f]> (demand_functions_ m)) (managers_ m));;
  mret f.
Definition Demand (commodity : string) (time : Z) : M SupplyDemandManager F :=
  f ← DemandFunction commodity; f ← from_option_or Undefined f; pure (value f (nZ time)).
Fixpoint supply_loop (commodity : string) (l : list (ptr * gset ptr)) (v : F) : PM F :=
  match l with
  | [] => mret v
  | (_, producers_) :: l => c ← TotalCapacity producers_ commodity; supply_loop commodity l (v + c)%D
  end.
Definition Supply (m : SupplyDemandManager) (commodity : string) : PM F :=
  supply_loop commodity (in_order (managers_ m)) (nZ 0).

(** ** Build decisions *)
Record BuildOrder := mkOrder { number : Z; builder : ptr; producer : ptr }.

(** The program, and the maps from its columns to producers and their builders. *)
Record BuildProgram := mkBuildProgram {
  bp_obj : list F;
  bp_caps : packed F;
  bp_p_to_b : gmap ptr ptr;
  bp_idx_to_p : gmap Z ptr;
  bp_idx : Z
}.
Context (inf : F).

Definition setup_producer (commodity : string) (b : ptr) (bp : BuildProgram) (p : ptr) : PM BuildProgram :=
  yes ← Produces commodity p;
  if yes : bool then
    c ← Cost commodity p;
    cap ← Capacity commodity p;
    mret (mkBuildProgram (bp_obj bp ++ [c]) (bp_caps bp ++ [(bp_idx bp, cap)])
      (<[p := b]> (bp_p_to_b bp)) (<[bp_idx bp := p]> (bp_idx_to_p bp)) (bp_idx bp + 1))
  else mret bp.
Fixpoint setup_producers (commodity : string) (b : ptr) (l : list ptr) (bp : BuildProgram) : PM BuildProgram :=
  match l with
  | [] => mret bp
  | p :: l => bp ← setup_producer commodity b bp p; setup_producers commodity b l bp
  end.
Fixpoint setup_builders (commodity : string) (l : list (ptr * gset ptr)) (bp : BuildProgram) : PM BuildProgram :=
  match l with
  | [] => mret bp
  | (b, producers_) :: l => bp ← setup_producers commodity b (set_in_order producers_) bp; setup_builders commodity l bp
  end.

(** [SetUp_]: [builders_] with the producers of each builder. *)
Definition SetUp_ (builders_ : gmap ptr (gset ptr)) (commodity : string) (demand : F)
    : PM (ProgTranslatorContext F * BuildProgram) :=
  bp ← setup_builders commodity (in_order builders_) (mkBuildProgram [] [] ∅ ∅ 0);
  let n := Z.to_nat (bp_idx bp) in
  mret (mkProgCtx F (bp_obj bp) [inf] [demand] (replicate n inf) (replicate n (nZ 0)) [bp_caps bp], bp).

(** The orders of a solution.  A number that does not fit an [int] is undefined. *)
Fixpoint orders_loop (bp : BuildProgram) (sol : list F) (i : Z) : outcome (list BuildOrder) :=
  match sol with
  | [] => Ret []
  | x :: sol =>
      match ntrunc x with
      | None => Throw Undefined
      | Some n =>
          if negb (in_int n) then Throw Undefined
          else
            l ← orders_loop bp sol (i + 1);
            Ret (if (0 <? n)%Z then
                   let p := at_default 0%Z (bp_idx_to_p bp) i in
                   mkOrder n (at_default 0%Z (bp_p_to_b bp) p) p :: l
                 else l)
      end
  end.

(** [Solve_]: taking the address of the first column of none is undefined. *)
Definition Solve_ (coin_solve : ProgTranslatorContext F → list Z → list F) (ctx : ProgTranslatorContext F) (bp : BuildProgram)
    : outcome (list BuildOrder) :=
  let nvar := length (col_ubs ctx) in
  if Nat.eqb nvar 0 then Throw Undefined
  else orders_loop bp (take nvar (coin_solve ctx (seqZ 0 (Z.of_nat nvar)))) 0.

Definition MakeBuildDecision (coin_solve : ProgTranslatorContext F → list Z → list F) (builders_ : gmap ptr (gset ptr))
    (commodity : string) (demand : F) : PM (list BuildOrder) :=
  if (demand >? nZ 0)%D then
    r ← SetUp_ builders_ commodity demand; pure (Solve_ coin_solve r.1 r.2)
  else mret [].
End producers.
