(* ===== verification/BuildProperties.v ===== *)
(** * Supply, demand and build decisions

    The properties of the producers of commodities and of the building manager as theorems. *)

From Stdlib Require Import QArith Qround Lqa ZArith Lia.
From stdpp Require Import base list gmap strings sorting.
From S2P Require Import Prelude Num Arithmetic SymFunctions ExchangeGraph ProgTranslator GreedyTheory ProgTheory ProgFlow Producers.

Local Open Scope Q_scope.

Section build.
Local Abbreviation Producers := (gmap ptr (CommodityProducer xq)).
Implicit Types (s : Producers) (c : string) (p b : ptr).

(** ** Producers *)
Definition info_of s c p : option (CommodInfo xq) := s !! p ≫= λ x, commodities_ x !! c.

Lemma the_producer_run s p x : s !! p = Some x → the_producer p s = (Ret x, s).
Proof. intros Hp. unfold the_producer. rewrite (bind_ret get _ s s s eq_refl), Hp. reflexivity. Qed.
Lemma info_at_run s c p i : info_of s c p = Some i → info_at c p s = (Ret i, s).
Proof.
  unfold info_of. intros (x & Hp & Hi)%bind_Some. unfold info_at, update_producer.
  assert (<[p := set_commodities (<[c := at_default default_CommodInfo (commodities_ x) c]> (commodities_ x)) x]> s = s) as Hid.
  { unfold at_default. rewrite Hi. cbn [default]. rewrite (insert_id (commodities_ x)) by exact Hi. destruct x. by apply insert_id. }
  rewrite bind_assoc, (bind_ret _ _ _ _ _ (the_producer_run s p x Hp)).
  rewrite (bind_ret _ _ s tt s) by (unfold modify; by rewrite Hid).
  rewrite (bind_ret _ _ _ _ _ (the_producer_run s p x Hp)). unfold at_default. by rewrite Hi.
Qed.
Lemma Produces_run s c p x : s !! p = Some x → Produces c p s = (Ret (bool_decide (is_Some (info_of s c p))), s).
Proof.
  intros Hp. unfold Produces. rewrite (bind_ret _ _ _ _ _ (the_producer_run s p x Hp)). unfold info_of. by rewrite Hp.
Qed.

Lemma update_producer_run s p x (f : CommodityProducer xq → CommodityProducer xq) :
  s !! p = Some x → update_producer p f s = (Ret tt, <[p := f x]> s).
Proof. intros Hp. unfold update_producer. by rewrite (bind_ret _ _ _ _ _ (the_producer_run s p x Hp)). Qed.

(** The store with another map of commodities for a producer. *)
Definition with_commodities (m : gmap string (CommodInfo xq)) p s : Producers := alter (set_commodities m) p s.
Lemma with_commodities_insert s p x m : s !! p = Some x → with_commodities m p s = <[p := set_commodities m x]> s.
Proof.
  intros Hp. apply map_eq. intros q. unfold with_commodities. rewrite lookup_insert. destruct (decide (p = q)) as [<-|Hne].
  - by rewrite lookup_alter_eq, Hp.
  - by rewrite lookup_alter_ne.
Qed.
Lemma with_commodities_twice s p m m' : with_commodities m' p (with_commodities m p s) = with_commodities m' p s.
Proof.
  apply map_eq. intros q. unfold with_commodities. destruct (decide (p = q)) as [<-|Hne].
  - rewrite !lookup_alter_eq. by destruct (s !! p).
  - by rewrite !lookup_alter_ne.
Qed.
Lemma info_with s p x m c : s !! p = Some x → info_of (with_commodities m p s) c p = m !! c.
Proof. intros Hp. unfold info_of, with_commodities. by rewrite lookup_alter_eq, Hp. Qed.

Lemma copy_one s source p x m c i : source ≠ p → info_of s c source = Some i → s !! p = Some x →
  (Add c p;; cap ← Capacity c source; SetCapacity c cap p;; cst ← Cost c source; SetCost c cst p) (with_commodities m p s) =
  (Ret tt, with_commodities (<[c := i]> m) p s).
Proof.
  intros Hne Hi Hp. set (s1 := with_commodities m p s).
  assert (∀ m', with_commodities m' p s !! p = Some (set_commodities m' x)) as Hat.
  { intros m'. unfold with_commodities. by rewrite lookup_alter_eq, Hp. }
  assert (∀ m', info_of (with_commodities m' p s) c source = Some i) as Hsrc.
  { intros m'. unfold info_of, with_commodities. by rewrite lookup_alter_ne by done. }
  assert (∀ m' f m'', (∀ y, f (set_commodities m' y) = set_commodities m'' y) →
    update_producer p f (with_commodities m' p s) = (Ret tt, with_commodities m'' p s)) as Hup.
  { intros m' f m'' Hf. rewrite (update_producer_run _ _ _ f (Hat m')), Hf. f_equal.
    rewrite <-(with_commodities_twice s p m' m''), (with_commodities_insert _ _ _ m'' (Hat m')). done. }
  assert (∀ m' j, m' !! c = Some j → info_at c p (with_commodities m' p s) = (Ret j, with_commodities m' p s)) as Hown.
  { intros m' j Hj. apply info_at_run. by rewrite (info_with s p x). }
  set (j0 := mkCommodInfo xq (default_capacity_ x) (default_cost_ x)). set (m1 := insert_new c j0 m).
  assert (∃ j, m1 !! c = Some j) as [j Hj].
  { unfold m1, insert_new. destruct (m !! c) as [j|] eqn:Hc; [by exists j|]. exists j0. by rewrite lookup_insert_eq. }
  rewrite (bind_ret (Add c p) _ s1 tt (with_commodities m1 p s)).
  2:{ unfold Add. rewrite (bind_ret _ _ _ _ _ (the_producer_run s1 p _ (Hat m))). by apply Hup. }
  unfold Capacity. rewrite bind_assoc, (bind_ret _ _ _ _ _ (info_at_run _ _ _ _ (Hsrc m1))).
  rewrite (bind_ret (mret _) _ _ _ _ eq_refl). unfold SetCapacity. rewrite bind_assoc, (bind_ret _ _ _ _ _ (Hown m1 j Hj)).
  rewrite (bind_ret _ _ _ _ _ (Hup m1 _ (<[c := mkCommodInfo xq (capacity i) (cost j)]> m1) (λ y, eq_refl))).
  unfold Cost. rewrite bind_assoc, (bind_ret _ _ _ _ _ (info_at_run _ _ _ _ (Hsrc _))).
  rewrite (bind_ret (mret _) _ _ _ _ eq_refl). unfold SetCost.
  rewrite (bind_ret _ _ _ _ _ (Hown _ (mkCommodInfo xq (capacity i) (cost j)) (lookup_insert_eq _ _ _))).
  assert (<[c := i]> m1 = <[c := i]> m) as <-.
  { unfold m1, insert_new. destruct (m !! c); [done|]. by rewrite insert_insert_eq. }
  apply Hup. intros y. cbn. rewrite insert_insert_eq. by destruct i.
Qed.

(** What the copy has after the commodities [pre]. *)
Definition copied_of (mx my : gmap string (CommodInfo xq)) (pre : list string) : gmap string (CommodInfo xq) :=
  filter (λ kv, kv.1 ∈ pre) mx ∪ my.
Lemma copied_of_next mx my pre c i : mx !! c = Some i → copied_of mx my (pre ++ [c]) = <[c := i]> (copied_of mx my pre).
Proof.
  intros Hc. unfold copied_of. rewrite insert_union_l. f_equal. apply map_eq. intros d. apply option_eq. intros j.
  rewrite lookup_insert. destruct (decide (c = d)) as [<-|Hne]; rewrite !map_lookup_filter_Some; cbn; set_solver.
Qed.
Lemma copied_of_all mx my : copied_of mx my (in_order mx).*1 = mx ∪ my.
Proof.
  unfold copied_of. f_equal. apply map_filter_id. intros c i Hc. cbn. apply list_elem_of_fmap. exists (c, i).
  split; [done|]. by apply elem_of_in_order.
Qed.

(** Copying a producer gives the other all of its commodities, at the same capacities
    and costs, in place of those it had for the same commodities; nothing else changes. *)
Theorem copy_producer s source p x y : source ≠ p → s !! source = Some x → s !! p = Some y →
  Copy source p s = (Ret tt, <[p := set_commodities (commodities_ x ∪ commodities_ y) y]> s).
Proof.
  intros Hne Hs Hp. unfold Copy, ProducedCommodities. rewrite bind_assoc, (bind_ret _ _ _ _ _ (the_producer_run s source x Hs)).
  rewrite (bind_ret (mret _) _ _ _ _ eq_refl).
  rewrite <-copied_of_all, <-(with_commodities_insert s p y _ Hp).
  edestruct (for_each_total (λ pre s', s' = with_commodities (copied_of (commodities_ x) (commodities_ y) pre) p s))
    as (s' & Hrun & ->); [..|exact Hrun].
  - rewrite (with_commodities_insert s p y _ Hp). unfold copied_of.
    assert (filter (λ kv, kv.1 ∈ []) (commodities_ x) = ∅) as ->.
    { apply map_empty. intros c. apply map_lookup_filter_None. right. intros i _. cbn. set_solver. }
    rewrite (left_id_L ∅ (∪)). symmetry. apply insert_id. by destruct y.
  - intros pre c post s1 Hl ->. assert (c ∈ (in_order (commodities_ x)).*1) as Hc by (rewrite Hl; set_solver).
    apply list_elem_of_fmap in Hc as ([c' i] & -> & Hi%elem_of_in_order). cbn [fst].
    eexists. split; [|reflexivity]. rewrite (copied_of_next _ _ _ _ i Hi).
    apply (copy_one s source p y _ _ i Hne); [|done]. unfold info_of. by rewrite Hs.
Qed.

(** ** The program *)
Definition candidates s c (builders : gmap ptr (gset ptr)) : list (ptr * ptr) :=
  in_order builders ≫= λ bp, (λ p, (bp.1, p)) <$> filter (λ p, is_Some (info_of s c p)) (set_in_order bp.2).
Definition cap_of s c p : xq := match info_of s c p with Some i => capacity i | None => nZ 0 end.
Definition cost_of s c p : xq := match info_of s c p with Some i => cost i | None => nZ 0 end.

Record program_ok s c (l : list (ptr * ptr)) (bp : BuildProgram) : Prop := {
  bo_idx : bp_idx bp = Z.of_nat (length l);
  bo_obj : bp_obj bp = (λ x, cost_of s c x.2) <$> l;
  bo_caps : bp_caps bp = imap (λ i x, (Z.of_nat i, cap_of s c x.2)) l;
  bo_producer : ∀ i x, l !! i = Some x → bp_idx_to_p bp !! Z.of_nat i = Some x.2;
  bo_builder : ∀ x, x ∈ l → ∃ b, bp_p_to_b bp !! x.2 = Some b ∧ (b, x.2) ∈ l
}.

Lemma program_snoc s c l bp b p : program_ok s c l bp →
  program_ok s c (l ++ [(b, p)]) (mkBuildProgram (bp_obj bp ++ [cost_of s c p]) (bp_caps bp ++ [(bp_idx bp, cap_of s c p)])
    (<[p := b]> (bp_p_to_b bp)) (<[bp_idx bp := p]> (bp_idx_to_p bp)) (bp_idx bp + 1)).
Proof.
  intros [Hi Ho Hc Hp Hb]. split; cbn.
  - rewrite length_app. cbn. lia.
  - by rewrite fmap_app, Ho.
  - rewrite imap_app, Hc, Hi. cbn. by rewrite Nat.add_0_r.
  - intros i x Hx. rewrite Hi. apply lookup_app_Some in Hx as [Hx|[Hge Hx]].
    + apply lookup_lt_Some in Hx as Hlt. rewrite lookup_insert_ne by lia. by apply Hp.
    + apply list_lookup_singleton_Some in Hx as [Hx <-]. replace (Z.of_nat i) with (Z.of_nat (length l)) by lia. by rewrite lookup_insert_eq.
  - intros x Hx. rewrite lookup_insert. destruct (decide (p = x.2)) as [->|Hne].
    + exists b. split; [done|]. set_solver.
    + apply elem_of_app in Hx as [Hx|Hx%list_elem_of_singleton]; [|by subst x]. destruct (Hb x Hx) as (b' & ? & ?). exists b'. set_solver.
Qed.

Lemma setup_producers_run s c b ps l bp : Forall (λ p, is_Some (s !! p)) ps → program_ok s c l bp →
  runs (setup_producers c b ps bp) s (λ bp' s', s' = s ∧
    program_ok s c (l ++ ((λ p, (b, p)) <$> filter (λ p, is_Some (info_of s c p)) ps)) bp').
Proof.
  revert l bp. induction ps as [|p ps IH]; intros l bp Hps Hl; [apply runs_ret; by rewrite app_nil_r|].
  apply Forall_cons in Hps as [[x Hx] Hps]. cbn [setup_producers]. apply runs_bind. unfold setup_producer.
  apply runs_bind. eexists _, s. split; [by eapply Produces_run|]. rewrite filter_cons. case_bool_decide as Hi.
  - destruct Hi as [i Hi]. rewrite decide_True by by eexists. unfold Cost, Capacity. do 2 apply runs_bind.
    exists i, s. split; [by apply info_at_run|]. apply runs_ret. do 2 apply runs_bind. exists i, s.
    split; [by apply info_at_run|]. apply runs_ret, runs_ret.
    pose proof (program_snoc s c l bp b p Hl) as Hnew. unfold cost_of, cap_of in Hnew. rewrite Hi in Hnew.
    rewrite fmap_cons, (cons_middle (b, p) l), app_assoc. by apply IH.
  - rewrite decide_False by done. apply runs_ret. by apply IH.
Qed.

Lemma setup_builders_run s c bs l bp : Forall (λ x, Forall (λ p, is_Some (s !! p)) (set_in_order x.2)) bs → program_ok s c l bp →
  runs (setup_builders c bs bp) s (λ bp' s', s' = s ∧ program_ok s c (l ++ (bs ≫= λ bp, (λ p, (bp.1, p)) <$>
    filter (λ p, is_Some (info_of s c p)) (set_in_order bp.2))) bp').
Proof.
  revert l bp. induction bs as [|[b ps] bs IH]; intros l bp Hbs Hl; [apply runs_ret; by rewrite app_nil_r|].
  apply Forall_cons in Hbs as [Hb Hbs]. cbn [setup_builders]. apply runs_bind.
  eapply runs_mono; [by apply setup_producers_run|]. intros bp1 s1 [-> H1]. cbn. rewrite app_assoc. by apply IH.
Qed.

Definition builders_ok s (builders : gmap ptr (gset ptr)) : Prop :=
  ∀ b ps p, builders !! b = Some ps → p ∈ ps → is_Some (s !! p).

Definition build_program inf s c (l : list (ptr * ptr)) (demand : xq) : ProgTranslatorContext xq :=
  mkProgCtx xq ((λ x, cost_of s c x.2) <$> l) [inf] [demand] (replicate (length l) inf) (replicate (length l) (nZ 0))
    [imap (λ i x, (Z.of_nat i, cap_of s c x.2)) l].

Lemma SetUp_run inf s c builders demand : builders_ok s builders → runs (SetUp_ inf builders c demand) s (λ r s', s' = s ∧
  r.1 = build_program inf s c (candidates s c builders) demand ∧ program_ok s c (candidates s c builders) r.2).
Proof.
  intros Hb. unfold SetUp_. apply runs_bind. eapply runs_mono.
  { apply (setup_builders_run s c (in_order builders) []).
    - apply Forall_forall. intros [b ps] Hin%elem_of_in_order. apply Forall_forall. intros p Hp%elem_of_set_in_order. by eapply Hb.
    - split; cbn; [done|done|done|done|]. by intros x ?%elem_of_nil. }
  intros bp s1 [-> Hok]. apply runs_ret. split; [done|]. cbn [fst snd app] in *. split; [|done].
  destruct Hok as [Hi Ho Hc _ _]. unfold build_program, candidates. by rewrite Hi, Ho, Hc, Nat2Z.id.
Qed.

(** ** The orders *)
Definition order_ok s c (l : list (ptr * ptr)) (o : BuildOrder) : Prop :=
  (0 < number o)%Z ∧ (builder o, producer o) ∈ l ∧ is_Some (info_of s c (producer o)).
Definition ordered s c (os : list BuildOrder) : Q := sumQ (map (λ o, inject_Z (number o) * val (cap_of s c (producer o))) os).
Definition planned s c (l : list (ptr * ptr)) (sol : list xq) : Q := sumQ (zip_with (λ x y, val (cap_of s c x.2) * val y) l sol).
Definition whole (x : xq) : Prop := ∃ z, x ≃ inject_Z z ∧ (0 ≤ z ≤ int_max)%Z.

Lemma candidates_produce s c builders x : x ∈ candidates s c builders →
  is_Some (info_of s c x.2) ∧ ∃ ps, builders !! x.1 = Some ps ∧ x.2 ∈ ps.
Proof.
  intros ([b ps] & (p & -> & [Hi Hp]%list_elem_of_filter)%list_elem_of_fmap & Hin%elem_of_in_order)%list_elem_of_bind.
  split; [done|]. exists ps. split; [done|]. by apply elem_of_set_in_order.
Qed.

Lemma trunc_whole x z : x ≃ inject_Z z → ntrunc x = Some z.
Proof.
  intros Hx. destruct x as [[n d]| | |]; try done. cbn in Hx |- *. unfold Qeq in Hx. cbn in Hx.
  rewrite Z.mul_1_r in Hx. rewrite Hx, Z.quot_mul by done. done.
Qed.

Lemma orders_loop_spec s c l bp pre post sol : program_ok s c l bp → (∀ x, x ∈ l → is_Some (info_of s c x.2)) →
  l = pre ++ post → length sol = length post → Forall whole sol →
  ∃ os, orders_loop bp sol (Z.of_nat (length pre)) = Ret os ∧ Forall (order_ok s c l) os ∧ ordered s c os == planned s c post sol.
Proof.
  intros Hbp Hin. revert pre post. induction sol as [|y sol IH]; intros pre post Hl Hlen Hsol.
  { destruct post; [|done]. exists []. split_and!; [done|done|]. reflexivity. }
  destruct post as [|x post]; [done|]. apply Forall_cons in Hsol as [(z & Hz & Hrange) Hsol]. cbn [orders_loop].
  rewrite (trunc_whole y z Hz). assert (in_int z = true) as ->.
  { apply in_int_spec. unfold int_min. lia. }
  destruct (IH (pre ++ [x]) post) as (os & Hos & Hok & Hsum); [by rewrite <-app_assoc|by injection Hlen|done|].
  replace (Z.of_nat (length pre) + 1)%Z with (Z.of_nat (length (pre ++ [x]))) by (rewrite length_app; cbn; lia).
  cbn [negb]. rewrite Hos, bind_Ret. eexists. split; [done|].
  assert (l !! length pre = Some x) as Hx by by rewrite Hl, list_lookup_middle.
  assert (x ∈ l) as Hxl by by eapply list_elem_of_lookup_2.
  destruct (bo_builder _ _ _ _ Hbp x Hxl) as (b & Hb & Hbl). cbn zeta.
  assert (at_default 0%Z (bp_idx_to_p bp) (Z.of_nat (length pre)) = x.2) as -> by (unfold at_default; by rewrite (bo_producer _ _ _ _ Hbp _ _ Hx)).
  assert (at_default 0%Z (bp_p_to_b bp) x.2 = b) as -> by (unfold at_default; by rewrite Hb).
  unfold planned. cbn [zip_with]. rewrite sumQ_cons. fold (planned s c post sol). rewrite <-Hsum, (is_fin_val _ _ Hz).
  destruct (Z.ltb_spec 0 z) as [Hpos|Hneg].
  - split.
    + apply Forall_cons. split; [|done]. split_and!; [done|done|]. by apply Hin.
    + unfold ordered. cbn [map number producer]. rewrite sumQ_cons. ring.
  - split; [done|]. replace z with 0%Z by lia. change (inject_Z 0) with 0. ring.
Qed.

(** ** Solutions *)
Lemma caps_row_value s c l sol : length sol = length l →
  row_value sol (imap (λ i x, (Z.of_nat i, cap_of s c x.2)) l) == planned s c l sol.
Proof.
  cut (∀ l pre post, sol = pre ++ post → length post = length l →
    row_value sol (imap (λ i x, (Z.of_nat (length pre + i), cap_of s c x.2)) l) == planned s c l post).
  { intros Hgen Hlen. by apply (Hgen l [] sol). }
  clear l. induction l as [|x l IH]; intros pre post Hsol Hlen; [done|]. destruct post as [|y post]; [done|].
  cbn [imap]. unfold row_value, planned. cbn [map zip_with fst snd]. rewrite !sumQ_cons, Nat.add_0_r. apply Qplus_comp.
  - unfold value. rewrite Nat2Z.id, Hsol. rewrite (nth_lookup_Some _ _ _ y); [done|]. by rewrite list_lookup_middle.
  - rewrite <-(IH (pre ++ [y]) post); [|by rewrite <-app_assoc|by injection Hlen]. unfold row_value.
    erewrite imap_ext; [done|]. intros i z _. cbn. rewrite length_app. cbn. by rewrite <-Nat.add_assoc.
Qed.

Context (inf : xq) (Hinf : (nlit 1000000000000000 <=? inf)%D = true).

(** A solution exists if one of the producers has a capacity. *)
Lemma build_feasible s c l demand : finite demand → Forall (λ x, finite (cap_of s c x.2) ∧ 0 <= val (cap_of s c x.2)) l →
  (∃ x, x ∈ l ∧ 0 < val (cap_of s c x.2)) →
  ∃ sol, feasible inf (build_program inf s c l demand) (seqZ 0 (Z.of_nat (length l))) sol.
Proof.
  intros Hd Hcaps (x & Hx & Hpos). set (n := Z.max 0 (Qceiling (val demand / val (cap_of s c x.2)))).
  exists (replicate (length l) (nZ n)).
  assert (∀ i, (i < length l)%nat → value (replicate (length l) (nZ n)) (Z.of_nat i) = inject_Z n) as Hval.
  { intros i Hi. unfold value. rewrite Nat2Z.id, (nth_lookup_Some _ _ _ (nZ n)); [done|]. by apply lookup_replicate_2. }
  assert (0 <= inject_Z n) as Hn by (change 0 with (inject_Z 0); rewrite <-Zle_Qle; lia).
  split.
  - cbn. by rewrite !length_replicate.
  - apply Forall_replicate, fin_Z.
  - intros i lb ub [-> Hi]%lookup_replicate [-> _]%lookup_replicate. rewrite Hval by done.
    split; [by apply (leb_Fin (nZ 0) 0 _ (fin_Z 0))|by apply below_inf].
  - intros [|j] row lb ub [= <-] [= <-] [= <-]; split; [|by apply below_inf]. apply (leb_Fin demand _ _ Hd).
    rewrite caps_row_value by by rewrite length_replicate. apply Qle_trans with (val (cap_of s c x.2) * inject_Z n).
    + rewrite Qmult_comm. assert (val demand == val demand / val (cap_of s c x.2) * val (cap_of s c x.2)) as -> by (field; lra).
      apply Qmult_le_compat_r; [|lra]. eapply Qle_trans; [apply Qle_ceiling|]. rewrite <-Zle_Qle. lia.
    + unfold planned. apply sumQ_elem_le.
      * apply Forall_forall. intros q (i & y & z & -> & Hy & Hz)%elem_of_lookup_zip_with. apply lookup_replicate in Hz as [-> _].
        apply Qmult_le_0_compat; [|done]. apply list_elem_of_lookup_2 in Hy.
        by destruct (proj1 (Forall_forall _ _) Hcaps y Hy).
      * apply list_elem_of_lookup in Hx as [i Hi]. apply elem_of_lookup_zip_with. exists i, x, (nZ n).
        split_and!; [done|done|]. apply lookup_replicate_2. by eapply lookup_lt_Some.
  - intros i Hi. apply elem_of_seqZ in Hi. exists n. replace i with (Z.of_nat (Z.to_nat i)) by lia. rewrite Hval by lia. done.
Qed.
Lemma solution_whole s c l demand sol :
  feasible inf (build_program inf s c l demand) (seqZ 0 (Z.of_nat (length l))) sol →
  Forall (λ x, val x <= inject_Z int_max) sol → Forall whole sol.
Proof.
  intros Hfe Hmax. assert (length sol = length l) as Hsl by (rewrite (fe_len _ _ _ _ Hfe); cbn; by rewrite length_replicate).
  apply Forall_lookup. intros i x Hx. apply lookup_lt_Some in Hx as Hlt.
  assert (value sol (Z.of_nat i) = val x) as Hv by (unfold value; by rewrite Nat2Z.id, (nth_lookup_Some _ _ _ _ Hx)).
  destruct (fe_ints _ _ _ _ Hfe (Z.of_nat i)) as [z Hz]; [apply elem_of_seqZ; lia|]. rewrite Hv in Hz.
  exists z. split; [eapply is_fin_weaken; [by apply (Forall_lookup_1 _ _ _ _ (fe_fin _ _ _ _ Hfe) Hx)|done]|].
  destruct (fe_cols _ _ _ _ Hfe i (nZ 0) inf) as [H0 _]; [cbn; apply lookup_replicate_2; lia..|].
  apply (leb_Fin (nZ 0) 0 _ (fin_Z 0)) in H0. pose proof (Forall_lookup_1 _ _ _ _ Hmax Hx) as Hle. cbn in Hle.
  rewrite Hv, Hz in H0. rewrite Hz in Hle. change 0 with (inject_Z 0) in H0. rewrite <-Zle_Qle in H0, Hle. lia.
Qed.

(** ** Properties *)

(** C30.  With a library that solves integer programs that have a solution, the building
    manager always decides, and its decision meets the demand: every order is for a positive
    number of a producer of the commodity, from a builder that has the producer, and the
    orders together have at least the capacity that is asked for.  Without a demand nothing
    is ordered; without a producer the decision is undefined. *)
Theorem build_orders_meet_demand (coin_solve : ProgTranslatorContext xq → list Z → list xq) s builders c demand :
  let l := candidates s c builders in
  let ints := seqZ 0 (Z.of_nat (length l)) in
  let prog := build_program inf s c l demand in
  builders_ok s builders → finite demand →
  Forall (λ x, finite (cap_of s c x.2) ∧ 0 <= val (cap_of s c x.2)) l →
  ((∃ sol, feasible inf prog ints sol) → feasible inf prog ints (coin_solve prog ints) ∧
     Forall (λ x, val x <= inject_Z int_max) (coin_solve prog ints)) →
  (val demand <= 0 → MakeBuildDecision inf coin_solve builders c demand s = (Ret [], s)) ∧
  (0 < val demand → l = [] → MakeBuildDecision inf coin_solve builders c demand s = (Throw Undefined, s)) ∧
  (0 < val demand → (∃ x, x ∈ l ∧ 0 < val (cap_of s c x.2)) →
   ∃ os, MakeBuildDecision inf coin_solve builders c demand s = (Ret os, s) ∧ val demand <= ordered s c os ∧
     Forall (λ o, (0 < number o)%Z ∧ is_Some (info_of s c (producer o)) ∧
       ∃ ps, builders !! builder o = Some ps ∧ producer o ∈ ps) os).
Proof.
  intros l ints prog Hb Hd Hcaps Hcoin. unfold MakeBuildDecision. rewrite (ltb_fin (fin_Z 0) Hd). change (inject_Z 0) with 0.
  destruct (SetUp_run inf s c builders demand Hb) as ([ctx bp] & s1 & Hrun & -> & Hctx & Hbp). cbn [fst snd] in Hctx, Hbp.
  fold l in Hctx, Hbp. fold prog in Hctx. subst ctx. split_and!.
  - intros Hle. rewrite (proj2 (Qltb_ge 0 (val demand)) Hle). done.
  - intros Hpos Hnil. rewrite (proj2 (Qltb_lt 0 (val demand)) Hpos), (bind_ret _ _ _ _ _ Hrun). unfold pure, Solve_. cbn [fst].
    assert (length (col_ubs prog) = 0%nat) as -> by (cbn; by rewrite Hnil). done.
  - intros Hpos Hsome. rewrite (proj2 (Qltb_lt 0 (val demand)) Hpos), (bind_ret _ _ _ _ _ Hrun). unfold pure, Solve_. cbn [fst snd].
    assert (length (col_ubs prog) = length l) as Hlen by (cbn; by rewrite length_replicate). rewrite Hlen.
    assert (Nat.eqb (length l) 0 = false) as ->.
    { destruct Hsome as (x & Hx & _). apply Nat.eqb_neq. intros H0%nil_length_inv. rewrite H0 in Hx. by apply elem_of_nil in Hx. }
    fold ints. destruct (Hcoin (build_feasible s c l demand Hd Hcaps Hsome)) as [Hfe Hmax]. set (sol := coin_solve prog ints) in *.
    assert (length sol = length l) as Hsl by (rewrite (fe_len _ _ _ _ Hfe); exact Hlen). rewrite <-Hsl, firstn_all.
    assert (Forall whole sol) as Hwhole by by apply (solution_whole s c l demand).
    destruct (orders_loop_spec s c l bp [] l sol Hbp) as (os & Hos & Hok & Hsum); [|done|done|done|].
    { intros x Hx. by apply (candidates_produce s c builders). }
    exists os. change (Z.of_nat (length [])) with 0%Z in Hos. rewrite Hos. split_and!; [done| |].
    + rewrite Hsum, <-(caps_row_value s c l sol Hsl). apply (leb_Fin demand _ _ Hd). by eapply (fe_rows _ _ _ _ Hfe 0%nat).
    + eapply Forall_impl; [exact Hok|]. intros o (Hn & Hin & Hi). split_and!; [done|done|].
      by apply (candidates_produce s c builders (builder o, producer o)).
Qed.
End build.

Local Definition ex_producers : gmap ptr (CommodityProducer xq) :=
  {[1%Z := mkProducer xq {["power" := mkCommodInfo xq (nZ 5) (nZ 1)]} (nZ 0) (nZ 0);
    2%Z := mkProducer xq {["heat" := mkCommodInfo xq (nZ 2) (nZ 7)]} (nZ 0) (nZ 0)]}.
Local Definition ex_builders : gmap ptr (gset ptr) := {[10%Z := {[1%Z; 2%Z]}]}.

Lemma copy_producer_witness :
  Copy 1%Z 2%Z ex_producers =
  (Ret tt, <[2%Z := mkProducer xq {["power" := mkCommodInfo xq (nZ 5) (nZ 1); "heat" := mkCommodInfo xq (nZ 2) (nZ 7)]} (nZ 0) (nZ 0)]> ex_producers).
Proof.
  rewrite (copy_producer ex_producers 1%Z 2%Z (mkProducer xq {["power" := mkCommodInfo xq (nZ 5) (nZ 1)]} (nZ 0) (nZ 0))
    (mkProducer xq {["heat" := mkCommodInfo xq (nZ 2) (nZ 7)]} (nZ 0) (nZ 0))); [reflexivity|discriminate|reflexivity|reflexivity].
Defined.

Lemma build_orders_meet_demand_witness :
  ∃ os, MakeBuildDecision ndblmax (λ _ _, [nZ 3]) ex_builders "power" (nZ 12) ex_producers = (Ret os, ex_producers) ∧
    12 <= ordered ex_producers "power" os.
Proof.
  assert (candidates ex_producers "power" ex_builders = [(10, 1)]%Z) as Hl by reflexivity.
  assert ((nlit 1000000000000000 <=? (ndblmax : xq))%D = true) as Hinf by reflexivity.
  destruct (build_orders_meet_demand ndblmax Hinf (λ _ _, [nZ 3]) ex_producers ex_builders "power" (nZ 12)) as (_ & _ & Hos).
  - intros b ps p Hps Hp. unfold ex_builders in Hps. apply lookup_singleton_Some in Hps as [<- <-].
    apply elem_of_union in Hp as [->%elem_of_singleton | ->%elem_of_singleton]; by eexists.
  - apply fin_Z.
  - rewrite Hl. apply Forall_singleton. split; [apply fin_Z|]. discriminate.
  - rewrite Hl. intros _. split; [|apply Forall_singleton; discriminate]. split.
    + reflexivity.
    + apply Forall_singleton, fin_Z.
    + intros [|i] lb ub [= <-] [= <-]. split; [reflexivity|by apply below_inf].
    + intros [|i] row lb ub [= <-] [= <-] [= <-]. split; [reflexivity|by apply below_inf].
    + intros i Hi. apply list_elem_of_singleton in Hi as ->. by exists 3%Z.
  - destruct Hos as (os & Hrun & Hge & _); [reflexivity| |by exists os].
    rewrite Hl. exists (10, 1)%Z. split; [by apply list_elem_of_singleton|reflexivity].
Defined.
