(* ===== verification/GreedyProperties.v ===== *)
(** * What the greedy solver guarantees

    The properties of [src/src/greedy_solver.cc] as theorems about [SolveGraph],
    with an example graph on which they apply. *)

From Stdlib Require Import QArith Qminmax Lqa ZArith Lia.
From stdpp Require Import base list gmap strings sorting.
From S2P Require Import Prelude Num Arithmetic ExchangeGraph Preconditioner GraphProperties GreedySolver GreedyTheory.

Local Open Scope Q_scope.

(** ** An example graph

    Two requesters and one supplier with two bids: an ordinary request for 10, an
    exclusive one for 4, and 12 units of supply capacity. *)
Module Example.

Definition ex_node (gp : ptr) (q : Z) (excl : bool) (id : Z)
    (arcs : list ((ptr * ptr) * xq)) : ExchangeNode xq :=
  mkNode xq (Some gp) (list_to_map (map (λ kv, (kv.1, [nZ 1])) arcs)) (list_to_map arcs)
    excl EmptyString id (nZ q).

Definition ex_nodes : gmap ptr (ExchangeNode xq) := list_to_map [
  (1%Z, ex_node 100 10 false 1 [((1, 11)%Z, nZ 2); ((1, 12)%Z, nZ 1)]);
  (2%Z, ex_node 101 4 true 2 [((2, 12)%Z, nZ 3)]);
  (11%Z, ex_node 200 6 false 3 [((1, 11)%Z, nZ 0)]);
  (12%Z, ex_node 200 8 false 3 [((1, 12)%Z, nZ 0); ((2, 12)%Z, nZ 0)])].

Definition ex_groups : gmap ptr (ExchangeNodeGroup xq) := list_to_map [
  (100%Z, mkGroup xq [1%Z] [] [nZ 10] (Some (nZ 10)));
  (101%Z, mkGroup xq [2%Z] [[2%Z]] [nZ 4] (Some (nZ 4)));
  (200%Z, mkGroup xq [11%Z; 12%Z] [] [nZ 12] None)].

Definition ex_arc (u v : ptr) (p : Z) : Arc xq :=
  let g := set_node_heap ex_nodes new_graph in
  set_pref (nZ p) (@new_arc xq _ ulp_distance u v (node_at g u) (node_at g v)).

Definition ex_graph : ExchangeGraph xq :=
  AddArc (ex_arc 2 12 3) (AddArc (ex_arc 1 12 1) (AddArc (ex_arc 1 11 2)
    (AddSupplyGroup 200 (AddRequestGroup 101 (AddRequestGroup 100
      (set_group_heap ex_groups (set_node_heap ex_nodes new_graph))))))).

Definition ex_solver : GreedySolver xq := set_graph ex_graph greedy_solver_default.
Definition ex_slack : Q := ulp_slack.

(** Closed facts about the numbers of the example. *)
Ltac ex_num := vm_compute; split_and?; (reflexivity || (let E := fresh in intros E; discriminate E)).

Ltac ex_node gp :=
  split; [ex_num|ex_num|exists gp; split_and!; [reflexivity|set_solver|reflexivity]|];
  apply Forall_singleton; split; ex_num.

(** The excluded case of an arc that is not exclusive. *)
Ltac ex_plain := split; [by vm_compute|ex_node 100%Z|ex_node 200%Z|split; ex_num|
  by intros ?|by intros ?|by intros ?|by intros ?].

Lemma ex_arc_1_11 : @arc_ready default_limits ulp_distance ex_slack ex_graph (ex_arc 1 11 2).
Proof. ex_plain. Qed.
Lemma ex_arc_1_12 : @arc_ready default_limits ulp_distance ex_slack ex_graph (ex_arc 1 12 1).
Proof. ex_plain. Qed.
Lemma ex_excl_fin : excl_val_ (ex_arc 2 12 3) ≃ 4.
Proof. ex_num. Qed.
Lemma ex_excl_val : val (excl_val_ (ex_arc 2 12 3)) == 4.
Proof. ex_num. Qed.
Lemma ex_arc_2_12 : @arc_ready default_limits ulp_distance ex_slack ex_graph (ex_arc 2 12 3).
Proof.
  split; [by vm_compute|ex_node 101%Z|ex_node 200%Z|split; ex_num| | | |].
  - intros _. ex_num.
  - intros _ _ x t Ht Hd. rewrite ex_excl_val. by eapply ulp_distance_tol; [exact Ht|exact ex_excl_fin|..].
  - intros _ x t Ht Hle. rewrite ex_excl_val in Hle.
    by eapply ulp_distance_meet; [exact Ht|exact ex_excl_fin|..].
  - intros _. ex_num.
Qed.

Lemma ex_ready : @ready default_limits ulp_distance ex_slack ex_graph.
Proof.
  assert (∀ gp p, request_node ex_graph gp p → (gp = 100 ∧ p = 1 ∨ gp = 101 ∧ p = 2)%Z) as Hreq.
  { intros gp p [Hgp Hp].
    apply elem_of_cons in Hgp as [->|Hgp%list_elem_of_singleton]; [|subst gp];
      apply list_elem_of_singleton in Hp; subst p; auto. }
  split.
  - ex_num.
  - by apply (bool_decide_unpack _).
  - intros gp Hgp. apply elem_of_cons in Hgp as [->|Hgp%list_elem_of_singleton]; [|subst gp];
      by apply (bool_decide_unpack _).
  - intros gp Hgp. repeat (apply elem_of_cons in Hgp as [->|Hgp]);
      [..|by apply elem_of_nil in Hgp]; apply Forall_singleton; ex_num.
  - intros gp Hgp. repeat (apply elem_of_cons in Hgp as [->|Hgp]);
      [..|by apply elem_of_nil in Hgp]; eexists; (split; [reflexivity|ex_num]).
  - intros gp p Hp. by destruct (Hreq gp p Hp) as [[-> ->]|[-> ->]].
  - intros gp p a Hp Ha. destruct (Hreq gp p Hp) as [[-> ->]|[-> ->]].
    + assert (a ∈ [ex_arc 1 11 2; ex_arc 1 12 1]) as Ha' by exact Ha.
      apply elem_of_cons in Ha' as [->|Ha'%list_elem_of_singleton]; [|subst a];
        (split; [done|]); [apply ex_arc_1_11|apply ex_arc_1_12].
    + assert (a ∈ [ex_arc 2 12 3]) as Ha' by exact Ha.
      apply list_elem_of_singleton in Ha' as ->. split; [done|apply ex_arc_2_12].
  - intros a Ha. assert (a ∈ [ex_arc 1 11 2; ex_arc 1 12 1; ex_arc 2 12 3]) as Ha' by exact Ha.
    repeat (apply elem_of_cons in Ha' as [->|Ha']); [..|by apply elem_of_nil in Ha'];
      eexists; (split; [reflexivity|ex_num]).
Qed.
End Example.

(** ** Properties *)
Section properties.
Context `{Limits xq} {e er : Q} `{!GoodLimits e er} `{FloatDistance xq}.


(** C10.  The solution is maximal: for every arc of every request node, no more
    than [eps] of the unmet demand of its group can still be matched on it with
    the quantities and capacities that are left, or, for an exclusive arc, it is
    matched or its exclusive quantity cannot be met any more. *)
Theorem greedy_maximal slack g (s : GreedySolver xq) :
  ready slack g → graph_ s = g → costs_finite s →
  ∃ v s' ms, SolveGraph s = (Ret v, s') ∧ matches_ (graph_ s') = matches_ g ++ ms ∧
    ∀ gp p a, request_node g gp p → a ∈ at_default [] (node_arc_map_ g) p →
      exhausted (e := e) g (target g gp) (request_flow g gp ms) a ms.
Proof.
  intros Hr Hg Hc. destruct (SolveGraph_spec slack g Hr s Hg Hc)
    as (v & s' & ms & pc & H1 & _ & Hre & _ & _ & Hex & _).
  exists v, s', ms. split_and!; [done|apply (ro_matches _ _ Hre)|done].
Qed.

(** C20.  The objective the solver returns is the cost of its matches (quantity
    over preference) plus the pseudo cost for each unit of unmet demand. *)
Theorem greedy_objective slack g (s : GreedySolver xq) :
  ready slack g → graph_ s = g → costs_finite s →
  ∃ v s' ms pc, SolveGraph s = (Ret v, s') ∧ matches_ (graph_ s') = matches_ g ++ ms ∧
    PseudoCost s = Ret pc ∧ v ≃ match_cost g ms + unmet g (request_groups_ g) ms * val pc.
Proof.
  intros Hr Hg Hc. destruct (SolveGraph_spec slack g Hr s Hg Hc)
    as (v & s' & ms & pc & H1 & Hpc & Hre & _ & _ & _ & Hv).
  exists v, s', ms, pc. split_and!; [done|apply (ro_matches _ _ Hre)|done|done].
Qed.

(** C21.  The pseudo cost of a unit of unmet demand is larger than the cost of a
    unit of flow on any usable arc. *)
Theorem pseudo_cost_dominates slack g (s : GreedySolver xq) :
  ready slack g → graph_ s = g → costs_finite s →
  ∃ pc, PseudoCost s = Ret pc ∧ finite pc ∧
    ∀ a p, a ∈ arcs_ g → pref_ a = Some p → usable a → 1 / val p < val pc.
Proof.
  intros Hr Hg Hc. destruct (PseudoCost_spec slack g Hr s Hg Hc) as (pc & H1 & H2 & _ & H4).
  by exists pc.
Qed.
End properties.


Lemma greedy_maximal_witness :
  ∃ v s' ms, @SolveGraph xq _ default_limits ulp_distance Example.ex_solver = (Ret v, s') ∧
    matches_ (graph_ s') = [] ++ ms ∧
    ∀ gp p a, request_node Example.ex_graph gp p →
      a ∈ at_default [] (node_arc_map_ Example.ex_graph) p →
      exhausted (e := 1 # 1000000) Example.ex_graph (target Example.ex_graph gp)
        (request_flow Example.ex_graph gp ms) a ms.
Proof.
  exact (@greedy_maximal default_limits _ _ default_good ulp_distance _ _ Example.ex_solver
    Example.ex_ready eq_refl (or_introl eq_refl)).
Defined.

Lemma greedy_objective_witness :
  ∃ v s' ms pc, @SolveGraph xq _ default_limits ulp_distance Example.ex_solver = (Ret v, s') ∧
    matches_ (graph_ s') = [] ++ ms ∧ PseudoCost Example.ex_solver = Ret pc ∧
    v ≃ match_cost Example.ex_graph ms + unmet Example.ex_graph [100%Z; 101%Z] ms * val pc.
Proof.
  exact (@greedy_objective default_limits _ _ default_good ulp_distance _ _ Example.ex_solver
    Example.ex_ready eq_refl (or_introl eq_refl)).
Defined.

Lemma pseudo_cost_dominates_witness :
  ∃ pc, PseudoCost Example.ex_solver = Ret pc ∧ finite pc ∧
    ∀ a p, a ∈ arcs_ Example.ex_graph → pref_ a = Some p → usable a → 1 / val p < val pc.
Proof.
  exact (@pseudo_cost_dominates default_limits _ _ default_good ulp_distance _ _ Example.ex_solver
    Example.ex_ready eq_refl (or_introl eq_refl)).
Defined.
