(* ===== verification/ProgProperties.v ===== *)
(** * What the programming solver guarantees

    The properties of [src/src/prog_translator.cc] and [src/src/prog_solver.cc] as
    theorems about [ToProg] and [SolveProgGraph], with an example graph on which they
    apply. *)

From Stdlib Require Import QArith Qminmax Lqa ZArith Lia.
From stdpp Require Import base list gmap strings sorting.
From S2P Require Import Prelude Num Arithmetic ExchangeGraph Preconditioner GraphProperties GreedySolver ProgTranslator GreedyTheory ProgTheory ProgFlow GreedyProperties.

Local Open Scope Q_scope.

(** ** Graphs in another order *)
Section reorder.
Context (g g1 : ExchangeGraph xq) (ms : list (Arc xq * xq)) (Hre : reordered (set_matches ms g) g1).





End reorder.

(** ** Properties *)
Section properties.
Context `{Limits xq} {e er : Q} `{!GoodLimits e er} `{FloatDistance xq}.

(** C11.  The translator always returns a program, and the solutions of the program are
    exactly the flows of the graph: column values that keep every arc within the quantity
    of its request, every supply capacity within its bound, carry an exclusive order as a
    whole or not at all and at most one of those in an exclusive group of nodes, and meet
    the demand of every request group together with its column of unmet demand. *)
Theorem program_solutions_are_flows (g : ExchangeGraph xq) inf excl pseudo_cost :
  prog_ready g → (nlit 1000000000000000 <=? inf)%D = true →
  ∃ ctx ints, ToProg g inf excl pseudo_cost = Ret (ctx, ints) ∧
    ∀ sol, feasible inf ctx ints sol ↔ graph_flow g inf excl sol.
Proof.
  intros Hg Hinf. exists (reference_program g inf excl pseudo_cost), (integer_columns g excl).
  split; [by apply ToProg_spec|]. intros sol. by apply feasible_flow.
Qed.


End properties.

(** ** Witnesses *)
Section example.
Import GreedyProperties.Example.
Local Abbreviation ex_inf := (ndblmax : xq).

(** Case analysis on the members of a list that evaluates to a literal. *)
Ltac ex_cases H := vm_compute in H; repeat (apply elem_of_cons in H as [H|H]); [..|by apply elem_of_nil in H].
Ltac ex_units H k us := apply elem_of_map_to_list in H; ex_cases H; injection H as -> ->.
Lemma ex_arcs : arcs_ ex_graph = [ex_arc 1 11 2; ex_arc 1 12 1; ex_arc 2 12 3].
Proof. reflexivity. Qed.
Ltac ex_arc_of a :=
  exists a; split_and!; [rewrite ex_arcs; set_solver|reflexivity|reflexivity|reflexivity|]; apply Forall_singleton; split; ex_num.

Lemma ex_prog_ready : prog_ready ex_graph.
Proof.
  split.
  - do 3 apply AddArc_preserves_wf. destruct (new_graph_wf (F := xq)). by split.
  - by apply (bool_decide_unpack _).
  - intros gp Hgp. ex_cases Hgp; subst gp; by apply (bool_decide_unpack _).
  - intros gp Hgp. ex_cases Hgp; subst gp; by apply (bool_decide_unpack _).
  - intros gp p Hgp Hp. ex_cases Hgp; subst gp; ex_cases Hp; by subst p.
  - intros gp ns Hgp Hns. ex_cases Hgp; subst gp; ex_cases Hns. subst ns. done.
  - intros gp Hgp. ex_cases Hgp; subst gp; apply Forall_singleton; ex_num.
  - intros gp p k us Hgp Hp Hk. ex_cases Hgp; subst gp; ex_cases Hp; subst p; ex_units Hk k us;
      first [ex_arc_of (ex_arc 1 11 2)|ex_arc_of (ex_arc 1 12 1)|ex_arc_of (ex_arc 2 12 3)].
  - intros gp p k us Hgp Hp Hk. ex_cases Hgp; subst gp; ex_cases Hp; subst p; ex_units Hk k us;
      first [ex_arc_of (ex_arc 1 11 2)|ex_arc_of (ex_arc 1 12 1)|ex_arc_of (ex_arc 2 12 3)].
  - intros a Ha. rewrite ex_arcs in Ha. repeat (apply elem_of_cons in Ha as [->|Ha]); [..|by apply elem_of_nil in Ha];
      (split; [|by split; eexists]); [exists 100%Z|exists 100%Z|exists 101%Z]; by split; apply (bool_decide_unpack _).
  - intros a Ha. rewrite ex_arcs in Ha. repeat (apply elem_of_cons in Ha as [->|Ha]); [..|by apply elem_of_nil in Ha];
      (split; [|by eexists]); exists 200%Z; by split; apply (bool_decide_unpack _).
  - intros a Ha. rewrite ex_arcs in Ha. repeat (apply elem_of_cons in Ha as [->|Ha]); [..|by apply elem_of_nil in Ha];
      (split; [eexists; split; [reflexivity|ex_num]|ex_num]).
Qed.



End example.

Lemma program_solutions_are_flows_witness :
  ∃ ctx ints, ToProg Example.ex_graph (ndblmax : xq) true (nZ 1) = Ret (ctx, ints) ∧
    ∀ sol, feasible ndblmax ctx ints sol ↔ graph_flow Example.ex_graph ndblmax true sol.
Proof.
  apply (program_solutions_are_flows Example.ex_graph ndblmax true (nZ 1) ex_prog_ready). reflexivity.
Defined.

