(* ===== verification/ExchangeProperties.v ===== *)
(** * Properties of resource exchanges

    Translation of an exchange to a graph and back, delivery of trades, and the
    coefficients of mutual requests, with an example exchange. *)

From Stdlib Require Import QArith Qabs Lqa ZArith Lia.
From stdpp Require Import base list gmap strings sorting.
From S2P Require Import Prelude Num Arithmetic CompMath Resource ExchangeGraph Portfolio Translator TranslatorTheory ExchangeManager GraphProperties.

(** ** Translation *)
Section translation.
Context {F : Type} `{Num F} `{FloatDistance F}.
Context (mid : ptr → Z).
Implicit Types s : DRE F.

(** C3.  Translating a well-formed exchange succeeds and is faithful: it changes no
    resource, request, bid or preference; exactly the requests and bids of the
    portfolios get nodes, one each, that carry their quantity, exclusivity,
    commodity and agent; every bid has an arc to its request with the positive
    preference of the exchange context, unless that is negative; and there are no
    other arcs. *)
Theorem translation_faithful s :
  exchange_wf s → d_xlat s = mkXlat ∅ ∅ ∅ ∅ →
  ∃ s', Translate mid s = (Ret tt, s') ∧ static s s' ∧ xlat_ok mid s' ∧
    (∀ r, r ∈ known_reqs s' ↔ requests_in s (ex_requests (d_ctx s)) r) ∧
    (∀ b, b ∈ known_bids s' ↔ bids_in s (ex_bids (d_ctx s)) b) ∧
    (∀ b, bids_in s (ex_bids (d_ctx s)) b → has_arc s' b).
Proof. intros Hwf Hx. destruct (Translate_runs mid s Hwf Hx) as ([] & s' & ? & ?). by exists s'. Qed.

(** The trade a match stands for. *)
Definition trade_of s (m : Arc F * F) (t : Trade F) : Prop :=
  amt t = m.2 ∧ request_to_node (d_xlat s) !! tr_request t = Some (unode_ m.1) ∧
  bid_to_node (d_xlat s) !! tr_bid t = Some (vnode_ m.1) ∧
  ∃ bd, d_bids s !! tr_bid t = Some bd ∧ request_ bd = tr_request t.

(** C12.  Matches on arcs of the translated graph are translated back to the trades
    they stand for, one each, in order and with the matched amounts. *)
Theorem solution_back_translated s (ms : list (Arc F * F)) :
  xlat_ok mid s → (∀ m, m ∈ ms → m.1 ∈ arcs_ (d_graph s)) →
  ∃ ts, BackTranslateSolution ms s = (Ret ts, s) ∧ Forall2 (trade_of s) ms ts.
Proof.
  intros Hok. induction ms as [|[a y] ms IH]; intros Hms; [by exists []|].
  destruct IH as (ts & Hts & Hall); [intros m Hm; apply Hms; by right|].
  destruct (xo_arcs _ _ Hok a (Hms (a, y) ltac:(by left))) as (b & bd & rq & x & Hbd & Hrq & Hv & Hu & _).
  exists (mkTrade F (request_ bd) b y (nZ 0) :: ts). split.
  - eapply for_collect_cons; [|exact Hts]. unfold BackTranslateMatch.
    rewrite (bind_ret get _ _ _ _ eq_refl). cbn [fst snd].
    rewrite (proj1 (xo_req _ _ Hok _ _) Hu), (bind_ret (from_option_or _ (Some _)) _ _ _ _ eq_refl).
    by rewrite (proj1 (xo_bid _ _ Hok _ _) Hv), (bind_ret (from_option_or _ (Some _)) _ _ _ _ eq_refl).
  - constructor; [|done]. split_and!; try done. by exists bd.
Qed.
End translation.




Section execution.
Context {F : Type} `{Num F}.
Context (ops : TraderOps F).
Implicit Types (x : ExchangeState F) (d : DRE F) (t : Trade F) (k : ptr).







(** ** Responses, by requester

    Suppliers that answer every trade they are asked for, whatever they do to the
    resources. *)
Context (resp : ptr → list (Trade F) → list (Trade F * ptr)).
Hypothesis resp_runs : ∀ k ts d, runs (trade_responses ops k ts) d (λ rs d',
  rs = resp k ts ∧ d_reqs d' = d_reqs d ∧ d_bids d' = d_bids d).
Hypothesis resp_all : ∀ k ts, (resp k ts).*1 = ts.







End execution.

(** ** Mutual requests *)
Section mutual.
Implicit Types (s : DRE xq) (rp : RequestPortfolio xq).

Definition requested s (r : ptr) (q : Q) : Prop :=
  ∃ rq x, d_reqs s !! r = Some rq ∧ quantity_of s (target_ rq) = Some x ∧ x ≃ q.

Lemma collect_targets s rs qs :
  Forall2 (requested s) rs qs →
  ∃ xs, for_collect target_quantity rs s = (Ret xs, s) ∧ Forall2 is_fin xs qs.
Proof.
  induction 1 as [|r q rs qs (rq & x & Hrq & Hx & Hfin) _ (xs & Hxs & Hall)]; [by exists []|].
  exists (x :: xs). split; [|by constructor]. eapply for_collect_cons; [|exact Hxs].
  destruct (read_runs d_reqs r rq s (λ a s', a = rq ∧ s' = s) Hrq) as (? & ? & Hrun & -> & ->); [done|].
  unfold target_quantity. rewrite (bind_ret _ _ _ _ _ Hrun).
  destruct (res_quantity_runs (target_ rq) x s (λ a s', a = x ∧ s' = s) Hx) as (? & ? & Hrun' & -> & ->); done.
Qed.

Lemma add_mutual_spec avg rs xs rp :
  NoDup rs → length rs = length xs →
  let rp' := foldl (add_mutual avg) rp (zip rs xs) in
  (∀ i r x, rs !! i = Some r → xs !! i = Some x → mass_coeffs_ rp' !! r = Some (x / avg)%D) ∧
  (∀ r, r ∉ rs → mass_coeffs_ rp' !! r = mass_coeffs_ rp !! r) ∧
  rp_qty rp' = foldl nsub (rp_qty rp) xs.
Proof.
  intros Hnd. revert xs rp. induction Hnd as [|r rs Hr _ IH]; intros [|x xs] rp Hlen; try done.
  cbn [zip zip_with foldl]. cbn in Hlen. destruct (IH xs (add_mutual avg rp (r, x))) as (Hin & Hout & Hq); [lia|].
  split_and!.
  - intros [|i] r' x' Hi Hx; cbn in Hi, Hx.
    + injection Hi as <-. injection Hx as <-. rewrite Hout by done. apply lookup_insert_eq.
    + by eapply Hin.
  - intros r' Hn. rewrite Hout by set_solver. cbn. apply lookup_insert_ne. set_solver.
  - done.
Qed.

(** Mutual requests make the portfolio ask for their average quantity, and the
    coefficient of each is its quantity over the average.  So a full order of a
    request for more than the average uses more than the whole demand: it cannot be
    met.  (The documentation wants the inverse, the average over the quantity, with
    which a full order of either request meets the demand exactly.) *)
Theorem mutual_order_not_met s port rp rs qs tot avg :
  d_rports s !! port = Some rp → rp_qty rp ≃ tot → NoDup rs → Forall2 (requested s) rs qs →
  Forall (λ q, 0 < q)%Q qs → (avg == sumQ qs / inject_Z (Z.of_nat (length rs)))%Q → (0 < avg)%Q →
  ∃ s' rp', AddMutualReqs port rs s = (Ret tt, s') ∧ d_rports s' !! port = Some rp' ∧
    rp_qty rp' ≃ (tot - sumQ qs + avg)%Q ∧
    ∀ i r q, rs !! i = Some r → qs !! i = Some q → ∃ c, mass_coeffs_ rp' !! r = Some c ∧
      c ≃ (q / avg)%Q ∧ (avg < q → avg < q * (q / avg))%Q.
Proof.
  intros Hport Hqty Hnd Hreq Hpos Havg Hap. destruct (collect_targets s rs qs Hreq) as (xs & Hxs & Hfin).
  unfold AddMutualReqs. rewrite (bind_ret _ _ _ _ _ Hxs).
  assert (rs ≠ []) as Hne.
  { intros ->. apply Forall2_nil_inv_l in Hreq as ->. rewrite Havg in Hap. done. }
  set (y := (foldl nadd (nZ 0) xs / nZ (Z.of_nat (length rs)))%D).
  assert (y ≃ avg) as Hy.
  { eapply is_fin_weaken; [eapply fin_div; [by apply (foldl_nadd_fin xs qs _ _ (fin_Z 0))|apply fin_Z|]|].
    - destruct rs; [done|]. cbn. intros Hz. discriminate Hz.
    - rewrite Havg. change (inject_Z 0) with 0%Q. rewrite Qplus_0_l. reflexivity. }
  destruct (read_runs d_rports port rp s (λ a s', a = rp ∧ s' = s) Hport) as (? & ? & Hrun & -> & ->); [done|].
  rewrite (bind_ret _ _ _ _ _ Hrun).
  destruct (add_mutual_spec y rs xs rp Hnd) as (Hin & _ & Hq).
  { rewrite (Forall2_length _ _ _ Hreq). symmetry. by eapply Forall2_length. }
  eexists _, _. split_and!; [reflexivity|apply lookup_insert_eq| |].
  - cbn [rp_qty]. rewrite Hq. apply fin_add; [by apply foldl_nsub_fin|done].
  - intros i r q Hi Hqi. destruct (Forall2_lookup_r _ _ _ _ _ Hfin Hqi) as (x & Hxi & Hx).
    exists (x / y)%D. cbn [mass_coeffs_]. split_and!; [by eapply Hin|apply fin_div; [done..|lra]|].
    intros Hlt. assert (1 < q / avg)%Q as H1 by (apply Qlt_shift_div_l; [done|lra]). 
    assert (q * 1 < q * (q / avg))%Q; [|lra]. apply Qmult_lt_l; lra.
Qed.
End mutual.

(** ** Examples

    One trader asks for 5 units of fuel, or for 7 of another fuel, and a second one
    offers 3 units for the first request. *)
Module DreExample.
#[local] Existing Instance ulp_distance.
Definition product (id : Z) (q : xq) : Resource xq :=
  mkRes xq id id true q (mkTracker 0 0 true id true) (KProduct "fuel").
Definition world : World xq :=
  mkWorld xq ∅ ∅ {[1%Z := product 1 (nZ 5); 2%Z := product 2 (nZ 7); 3%Z := product 3 (nZ 3)]} 4 1 4 4 ∅ 1 0
    DecayManual 2629846 [].
Definition empty_dre : DRE xq := mkDRE xq world ∅ ∅ ∅ ∅ 0 1 new_ex_ctx empty_xlat new_graph.

Definition setup : M (DRE xq) unit :=
  rp ← new_request_portfolio;
  r1 ← AddRequest rp 1%Z 100%Z "uox" (nZ 2) false;
  r2 ← AddRequest rp 2%Z 100%Z "mox" (nZ 1) false;
  AddRequestPortfolio rp;;
  bp ← new_bid_portfolio;
  b ← AddBid_default bp r1 3%Z 200%Z true;
  AddBidPortfolio bp.
Definition dre : DRE xq := (setup empty_dre).2.
(** The portfolio has pointer 1, the requests 2 and 3, the bid portfolio 4, the bid 5. *)


Lemma dre_bids : d_bids dre = {[5%Z := mkBid xq 2 3 200 4 true nnan]}.
Proof. vm_compute. reflexivity. Qed.
Lemma dre_req_2 : d_reqs dre !! 2%Z = Some (mkRequest xq 1 100 "uox" (nZ 2) 1 false).
Proof. vm_compute. reflexivity. Qed.
Lemma dre_req_3 : d_reqs dre !! 3%Z = Some (mkRequest xq 2 100 "mox" (nZ 1) 1 false).
Proof. vm_compute. reflexivity. Qed.
Lemma dre_bid b bd : d_bids dre !! b = Some bd → b = 5%Z ∧ bd = mkBid xq 2 3 200 4 true nnan.
Proof. rewrite dre_bids. intros [<- <-]%lookup_singleton_Some. done. Qed.

Definition port : RequestPortfolio xq := mkRequestPortfolio xq [2; 3]%Z {[2%Z := nZ 1; 3%Z := nZ 1]} [] (nZ 12) (Some 100%Z).
Lemma dre_port : d_rports dre = {[1%Z := port]}.
Proof. vm_compute. reflexivity. Qed.

Lemma port_ok : rport_ok dre 1 port.
Proof.
  assert (∀ r, r ∈ rp_requests port → r = 2%Z ∨ r = 3%Z) as Hin by (intros r Hr; set_solver).
  split; [reflexivity|by apply (bool_decide_unpack _)| | | |constructor].
  - intros r [->| ->]%Hin; eexists _, _; (split; [vm_compute; reflexivity|vm_compute; reflexivity]).
  - intros r [->| ->]%Hin; eexists; vm_compute; reflexivity.
  - intros r rq [->| ->]%Hin; rewrite ?dre_req_2, ?dre_req_3; intros [= <-]; reflexivity.
Qed.

Lemma bid_5_ok : bid_ok dre 4 (mkBidPortfolio xq {[5%Z]} [] (Some 200%Z)) 5.
Proof.
  split.
  - eexists _, _, _. split_and!; [rewrite dre_bids; apply lookup_singleton_eq|exact dre_req_2|vm_compute; reflexivity].
  - intros bd [_ ->]%dre_bid. split; [reflexivity|constructor].
  - intros bd rq [_ ->]%dre_bid E. cbn [request_] in E. rewrite dre_req_2 in E. injection E as <-.
    split; [vm_compute; left|]. exists port. split; [|left]. cbn [rq_portfolio]. rewrite dre_port. apply lookup_singleton_eq.
  - intros bd rq [_ ->]%dre_bid E. cbn [request_] in E. rewrite dre_req_2 in E. injection E as <-.
    exists (nZ 2). split; vm_compute; reflexivity.
Qed.

Lemma dre_wf : exchange_wf dre.
Proof.
  assert (ex_requests (d_ctx dre) = [1%Z]) as Er by (vm_compute; reflexivity).
  assert (ex_bids (d_ctx dre) = [4%Z]) as Eb by (vm_compute; reflexivity).
  split; rewrite ?Er, ?Eb; [apply NoDup_singleton|apply NoDup_singleton| |].
  - intros p ->%list_elem_of_singleton. exists port. split; [by rewrite dre_port, lookup_singleton_eq|apply port_ok].
  - intros p ->%list_elem_of_singleton. exists (mkBidPortfolio xq {[5%Z]} [] (Some 200%Z)).
    split; [vm_compute; reflexivity|]. intros b Hb. cbn [bp_bids] in Hb. apply elem_of_singleton in Hb as ->. apply bid_5_ok.
Qed.

Definition mid (t : ptr) : Z := t.
Definition translated : DRE xq := (Translate mid dre).2.
Lemma translated_ok : Translate mid dre = (Ret tt, translated) ∧ xlat_ok mid translated.
Proof.
  assert (d_xlat dre = empty_xlat) as Hx by (vm_compute; reflexivity).
  destruct (Translate_runs mid dre dre_wf Hx) as ([] & s' & Hrun & _ & Hok & _).
  unfold translated. rewrite Hrun. split; [reflexivity|exact Hok].
Qed.

End DreExample.

#[local] Existing Instance ulp_distance.

Lemma translation_faithful_witness :
  ∃ s', Translate DreExample.mid DreExample.dre = (Ret tt, s') ∧ static DreExample.dre s' ∧
    xlat_ok DreExample.mid s' ∧
    (∀ r, r ∈ known_reqs s' ↔ requests_in DreExample.dre (ex_requests (d_ctx DreExample.dre)) r) ∧
    (∀ b, b ∈ known_bids s' ↔ bids_in DreExample.dre (ex_bids (d_ctx DreExample.dre)) b) ∧
    (∀ b, bids_in DreExample.dre (ex_bids (d_ctx DreExample.dre)) b → has_arc s' b).
Proof.
  apply translation_faithful; [exact DreExample.dre_wf|]. vm_compute. reflexivity.
Defined.

Lemma solution_back_translated_witness :
  let ms := (λ a, (a, nZ 3)) <$> arcs_ (d_graph DreExample.translated) in
  length ms = 1 ∧
  ∃ ts, BackTranslateSolution ms DreExample.translated = (Ret ts, DreExample.translated) ∧
    Forall2 (trade_of DreExample.translated) ms ts.
Proof.
  split; [vm_compute; reflexivity|].
  apply (solution_back_translated DreExample.mid); [exact (proj2 DreExample.translated_ok)|].
  intros m (a & -> & Ha)%list_elem_of_fmap. exact Ha.
Defined.


Lemma mutual_order_not_met_witness :
  ∃ s' rp', AddMutualReqs 1%Z [2; 3]%Z DreExample.dre = (Ret tt, s') ∧ d_rports s' !! 1%Z = Some rp' ∧
    rp_qty rp' ≃ (12 - sumQ [5; 7] + 6)%Q ∧
    ∀ i r q, [2; 3]%Z !! i = Some r → [5; 7]%Q !! i = Some q → ∃ c, mass_coeffs_ rp' !! r = Some c ∧
      c ≃ (q / 6)%Q ∧ (6 < q → 6 < q * (q / 6))%Q.
Proof.
  apply (mutual_order_not_met DreExample.dre 1 DreExample.port).
  - rewrite DreExample.dre_port. apply lookup_singleton_eq.
  - exact (fin_Z 12).
  - by apply (bool_decide_unpack _).
  - repeat constructor; eexists _, _; (split_and!; [vm_compute; reflexivity|vm_compute; reflexivity|apply fin_Z]).
  - repeat constructor.
  - reflexivity.
  - reflexivity.
Defined.
