(* ===== verification/SimProperties.v ===== *)
(** * Properties of simulations

    The run of a simulation, the agents and their families, the schedules, and the
    counts of the context. *)

From Stdlib Require Import QArith ZArith Lia String Ascii.
From stdpp Require Import base list gmap strings sorting relations.
From S2P Require Import Prelude Respects Num Arithmetic AgentSpec CompMath Resource Material ExchangeGraph Portfolio Translator ExchangeManager Sim SimRun AgentTree AgentTheory Family Evolution SimTheory SimLemmas Preconditioner GraphProperties MaterialProperties.

Section simulation.
Context {F P : Type} `{Num F} `{Limits F} `{Pyne F} `{FloatDistance F}.
Implicit Types s : Sim F P.
Context (arch : Archetypes F P) (debug : bool) (req_id : Z → ptr → string) (solve : M (ExchangeGraph F) F).

(** C5.  A simulation terminates.  With archetypes and a solver that terminate, the
    main loop never needs more steps than are left of the duration; the clock never
    passes the end, and it reaches the end unless an agent asks for an early
    termination or throws.  The row [Finish] says which, and no row that was recorded
    before the run is lost. *)
Theorem run_terminates s :
  good_parts arch solve →
  let r := RunSim arch debug req_id solve s in
  let stop := Z.max (time_of s) (duration (timer_si (ti_ s))) in
  r.1 ≠ Throw OutOfFuel ∧ recorded (sim_world s) `prefix_of` recorded (sim_world r.2) ∧
  (r.1 = Ret tt → (time_of r.2 ≤ stop)%Z ∧ (want_kill_ (ti_ r.2) = false → time_of r.2 = stop) ∧
    ("Finish", [("EarlyTerm", dbool (want_kill_ (ti_ r.2))); ("EndTime", DInt (time_of r.2 - 1))])
      ∈ recorded (sim_world r.2)).
Proof.
  intros Hg r stop. destruct (RunSim_inv arch debug req_id solve s Hg) as
    [(e & s' & He & Hr & Hm)|(s1 & s2 & s' & Hl & Hf & Hev & Hm & Ht & Hr)]; unfold r; rewrite Hr; cbn [fst snd].
  { split_and!; [congruence|apply Hm|done]. }
  match type of Hl with run_loop _ _ _ _ ?fuel s = _ =>
    destruct (run_loop_spec arch debug req_id solve Hg fuel s) as (_ & _ & Hend); [lia|rewrite Hl in Hend] end.
  destruct (record_rows "Finish" [("EarlyTerm", dbool (want_kill_ (ti_ s1))); ("EndTime", DInt (time_of s1 - 1))] s1)
    as (s2' & Hr2 & Hrows). rewrite Hr2 in Hf. injection Hf as ->.
  apply sevol_mono in Hev as [Hm2 HT]. assert (time_of s2 = time_of s1) as HT1 by (by injection Hr2 as <-).
  rewrite Ht, HT, HT1. destruct (Hend eq_refl) as [? ?]. split_and!; [done| |done..|].
  - etrans; [apply Hm|]. etrans; [|apply Hm2]. rewrite Hrows. by eexists.
  - destruct (mo_rows _ _ Hm2) as [l ->]. rewrite Hrows. set_solver.
Qed.


(** C15.  The agents form a forest.  At the end of a run, and also when it throws: the
    parent of every agent is an agent that has it among its children, was created before
    it and has the recorded parent id; every child has its parent; the context lists
    exactly the agents that exist; ids are not shared; every time listener exists. *)
Theorem agents_form_forest s :
  forest s → forest (RunSim arch debug req_id solve s).2.
Proof. intros Hf. by apply (RunSim_forest arch debug req_id solve s). Qed.

(** C16.  The queue of decommissions is a schedule, a map from agents to times.
    [SchedDecom] with a time in the past throws and changes nothing; otherwise it moves
    the agent, and no other agent, to the given time (the current one for -1), whether
    or not it was scheduled before; and no run of a simulation schedules an agent twice. *)
Theorem decommissions_scheduled_once s m t a :
  let t0 := if (t =? -1)%Z then time_of s else t in
  good_parts arch solve → sched_once (decom_queue_ (ti_ s)) → agents s !! m = Some a →
  ((t0 < time_of s)%Z → SchedDecom m t s = (Throw ValueError, s)) ∧
  ((time_of s ≤ t0)%Z → ∃ s', SchedDecom m t s = (Ret tt, s') ∧ sched_once (decom_queue_ (ti_ s')) ∧
     ∀ x t', x ∈ at_default [] (decom_queue_ (ti_ s')) t' ↔
       (x = m ∧ t' = t0) ∨ (x ≠ m ∧ x ∈ at_default [] (decom_queue_ (ti_ s)) t')) ∧
  sched_once (decom_queue_ (ti_ (RunSim arch debug req_id solve s).2)).
Proof.
  intros t0 Hg Hq Ha. split_and!.
  - intros Hlt. unfold SchedDecom, timer_SchedDecom. rewrite (bind_ret now _ _ _ _ eq_refl). fold t0.
    apply bind_throw. rewrite (bind_ret now _ _ _ _ eq_refl). apply bind_throw.
    destruct (Z.ltb_spec t0 (time_of s)); [done|lia].
  - intros Hle. destruct (SchedDecom_runs m t s a Ha Hle Hq) as (s' & Hrun & _ & _ & _ & Hq' & Hmv).
    exists s'. split_and!; [done|done|]. intros x t'. rewrite (Hmv x t'). intuition congruence.
  - destruct (RunSim_inv arch debug req_id solve s Hg) as
      [(e & s' & He & Hr & Hm)|(s1 & s2 & s' & Hl & Hf & Hev & Hm & Ht & Hr)]; rewrite Hr; cbn [snd].
    + by apply (mo_once _ _ Hm).
    + rewrite Ht. by apply (mo_once _ _ Hm).
Qed.
End simulation.

Section agents.
Context {F P : Type} `{Num F} `{Limits F} `{Pyne F} `{FloatDistance F}.
Implicit Types s : Sim F P.

(** C36.  The questions about the family agree.  [AncestorOf] (up through the parents) and
    [DecendentOf] (down through the children) terminate and are converse to each other,
    they say whether there is a chain of parents, no two agents are ancestors of each
    other, and [InFamilyTree] is symmetric. *)
Theorem family_queries_agree s p q :
  forest s → is_Some (agents s !! p) → is_Some (agents s !! q) →
  ∃ b, AncestorOf p q s = (Ret b, s) ∧ DecendentOf q p s = (Ret b, s) ∧ (b = true ↔ ancestor s p q) ∧
    (b = true → AncestorOf q p s = (Ret false, s)) ∧ InFamilyTree p q s = InFamilyTree q p s.
Proof.
  intros Hf Hp Hq. destruct (AncestorOf_spec p q s Hf Hq) as (b & Hb & Hiff).
  destruct (DecendentOf_spec q p s Hf Hp) as (d & Hd & Hdiff).
  destruct (AncestorOf_spec q p s Hf Hp) as (b' & Hb' & Hiff'). destruct (DecendentOf_spec p q s Hf Hq) as (d' & Hd' & Hdiff').
  assert (d = b) as -> by (apply eq_bool_prop_intro; rewrite !Is_true_true; tauto).
  assert (d' = b') as -> by (apply eq_bool_prop_intro; rewrite !Is_true_true; tauto).
  assert (b = true → b' = false) as Hanti.
  { intros E. destruct b'; [|done]. pose proof (ancestor_lt s p q Hf (proj1 Hiff E)).
    pose proof (ancestor_lt s q p Hf (proj1 Hiff' eq_refl)). lia. }
  exists b. split_and!; [done|done|done| |].
  - intros E. by rewrite Hb', (Hanti E).
  - unfold InFamilyTree. destruct (decide (p = q)) as [->|Hne]; [by rewrite decide_True|]. rewrite decide_False by congruence.
    rewrite (bind_ret _ _ _ _ _ Hb), (bind_ret _ _ _ _ _ Hb'). destruct b, b'; by rewrite ?Hd, ?Hd'.
Qed.

(** Printing the family of an agent with a child never ends, since
    [GetTreePrintOuts] goes through the children of the agent that prints, not of the
    child that it prints; only an agent without children is printed. *)
Theorem print_children_diverges s p a :
  agents s !! p = Some a →
  (children_ a ≠ ∅ → ∀ fuel v, (PrintChildren fuel p s).1 ≠ Ret v) ∧
  (children_ a = ∅ → ∀ fuel, PrintChildren fuel p s = (Ret ("Children of " +:+ prototype_ a +:+ ":" +:+ newline)%string, s)).
Proof.
  intros Hp. split.
  - intros Hch fuel v Hr. destruct (PrintChildren fuel p s) as [o s'] eqn:Hrun. cbn in Hr. subst o.
    unfold PrintChildren in Hrun. rewrite (bind_ret _ _ _ _ _ (agent_at_Some p s a Hp)) in Hrun.
    apply bind_inv in Hrun as (outs & s2 & Hc & _). destruct (set_in_order (children_ a)) as [|c l] eqn:Hl.
    + apply Hch, set_eq. intros x. rewrite <-elem_of_set_in_order, Hl. set_solver.
    + cbn in Hc. apply bind_inv in Hc as (v' & s3 & Hc & _).
      apply (GetTreePrintOuts_loops fuel p c s a v' Hp Hch). by rewrite Hc.
  - intros Hch fuel. unfold PrintChildren. rewrite (bind_ret _ _ _ _ _ (agent_at_Some p s a Hp)), Hch.
    by rewrite set_in_order_empty.
Qed.

Context (arch : Archetypes F P).

(** The counts of agents by prototype and specification.  An agent that enters and
    then leaves leaves the counts as they were if it is a facility or another kind of
    agent; an institution or a region leaves them one too low, since its [EnterNotify]
    does not register it and its [Decommission] unregisters it. *)
Theorem counts_balance s s1 s2 p q a :
  agents s !! p = Some a → Build arch p q s = (Ret tt, s1) → Decommission arch p s1 = (Ret tt, s2) →
  let off := match a_class a with AInstitution | ARegion => 1%Z | _ => 0%Z end in
  (∀ k, at_default 0 (n_prototypes_ (cx_ s2)) k =
     at_default 0 (n_prototypes_ (cx_ s)) k - if decide (k = prototype_ a) then off else 0)%Z ∧
  (∀ k, at_default 0 (n_specs_ (cx_ s2)) k =
     at_default 0 (n_specs_ (cx_ s)) k - if decide (k = spec_ a) then off else 0)%Z.
Proof.
  intros Hp HB HD off. destruct (Build_counts arch p q s a s1 Hp HB) as [W C1].
  destruct (wkeep_at _ _ _ _ W Hp) as (b & Hb & Hw).
  apply (Decommission_counts arch p s1 b) in HD; [|done]. rewrite (count_agent_who _ a b _ Hw), C1 in HD.
  assert (∀ (n : gmap string Z) k k' d, at_default 0%Z (count_by d k n) k' =
    (at_default 0 n k' + if decide (k' = k) then d else 0)%Z) as Hcount.
  { intros n k k' d. unfold count_by, at_default at 1. rewrite lookup_insert.
    destruct (decide (k = k')) as [<-|]; [rewrite decide_True by done; done|]. rewrite decide_False by congruence. 
    unfold at_default. lia. }
  injection HD as H1' H2'. rewrite H1', H2'. unfold off.
  destruct (a_class a); cbn [counted count_agent fst snd counts]; split; intros k; rewrite !Hcount; 
    destruct (decide _); lia.
Qed.

(** C37.  An institution retires its children.  Its [Tock] schedules for decommission at
    the current time exactly the children whose exit time, [enter_time + lifetime - 1],
    has come and, for facilities, that can leave; every other schedule stays. *)
Theorem institution_retires s p a :
  agents s !! p = Some a → (∀ c, c ∈ children_ a → retirable arch s c) → sched_once (decom_queue_ (ti_ s)) →
  ∃ s', Institution_Tock arch p s = (Ret tt, s') ∧ agents s' = agents s ∧ sched_once (decom_queue_ (ti_ s')) ∧
    ∀ x t, x ∈ at_default [] (decom_queue_ (ti_ s')) t ↔
      (x ∈ children_ a ∧ due arch s x = true ∧ t = time_of s) ∨
      (¬ (x ∈ children_ a ∧ due arch s x = true) ∧ x ∈ at_default [] (decom_queue_ (ti_ s)) t).
Proof.
  intros Hp Hc Hq. destruct (retire_children_run arch (set_in_order (children_ a)) s) as (s' & Hrun & Ea & _ & _ & Hq' & Hmv).
  { intros c Hin%elem_of_set_in_order. by apply Hc. } { done. }
  exists s'. unfold Institution_Tock. rewrite (bind_ret _ _ _ _ _ (agent_at_Some p s a Hp)).
  split_and!; [done|done|done|]. intros x t. rewrite (Hmv x t), elem_of_set_in_order. tauto.
Qed.
End agents.


(** C39.  Specifications of archetypes.  A specification whose parts have no colon is read
    back from the string that it is written as, with its agent for an alias; a string is
    read as a specification if it has exactly two colons, and it is what the result is
    written as; the name of its tables has none of the characters that are replaced. *)
Theorem spec_round_trip :
  (∀ a, has_char ":" (path_ a) = false → has_char ":" (lib_ a) = false → has_char ":" (agent_ a) = false →
     spec_of_string (spec_str a) = Ret (mkSpec (path_ a) (lib_ a) (agent_ a) (agent_ a))) ∧
  (∀ str a, spec_of_string str = Ret a → spec_str a = str ∧ alias_ a = agent_ a) ∧
  (∀ str, (∃ a, spec_of_string str = Ret a) ↔ length (split_on ":" str) = 3) ∧
  (∀ a c, c ∈ ["/"; "-"; ":"; "."]%char → has_char c (Sanitize a) = false).
Proof.
  split_and!.
  - intros a Hp Hl Ha. unfold spec_of_string, spec_str.
    change (path_ a +:+ ":" +:+ lib_ a +:+ ":" +:+ agent_ a)%string with
      (path_ a +:+ String ":" (lib_ a +:+ String ":" (agent_ a)))%string.
    by rewrite !split_on_app, split_on_none.
  - intros str a. unfold spec_of_string. pose proof (join_split ":" str) as Hj.
    destruct (split_on ":" str) as [|p [|l [|g [|]]]]; try done. intros [= <-]. by rewrite <-Hj.
  - intros str. unfold spec_of_string. destruct (split_on ":" str) as [|p [|l [|g [|]]]]; cbn; split; try done;
      try (by intros [? ?]); by eexists.
  - intros a c Hc. unfold Sanitize. rewrite !elem_of_cons in Hc.
    destruct Hc as [->|[->|[->|[->|Hc]]]]; [..|by apply elem_of_nil in Hc];
      repeat first [by apply replace_all_clean|apply replace_all_keeps; [done|]].
Qed.

(** C38.  Starting a simulation.  [InitSim] throws unless the tolerances are known and the
    month is one; then the clock is at the branch time, or at 0.  The context works with
    the duration of a time step as given; the database records it as an [int], which is
    the duration only up to the largest [int]. *)
Theorem init_sim_records {F P : Type} `{Num F} versions xmlpp (si : SimInfo F) (s : Sim F P) e er :
  si_eps si = Some e → si_eps_rsrc si = Some er → (0 ≤ dt si < 2 ^ 64)%Z →
  let r := InitSim versions xmlpp si s in
  if (1 <=? m0 si)%Z && (m0 si <=? 12)%Z then
    r.1 = Ret tt ∧ time_of r.2 = (if (-1 <? branch_time si)%Z then branch_time si else 0%Z) ∧
    timer_si (ti_ r.2) = si ∧ ctx_dt (sim_world r.2) = dt si ∧
    ∃ d, recorded (sim_world r.2) !! (length (recorded (sim_world s)) + 3) = Some ("TimeStepDur", [("DurationSecs", DInt d)]) ∧
      (d = dt si ↔ (dt si ≤ int_max)%Z) ∧ (int_min ≤ d ≤ int_max)%Z
  else r.1 = Throw ValueError.
Proof.
  intros He Her Hdt r. destruct (InitSim_run versions xmlpp si s e er He Her) as (s1 & Hrun & Hdt1 & Hrows).
  unfold r. rewrite Hrun. destruct (Initialize_run si s1) as [(s2 & -> & Hm & Ht & Hsi & Hdt2 & Hrows2)|[-> Hm]].
  2: { replace (_ && _) with false by lia. done. }
  replace (_ && _) with true by lia. cbn [fst snd]. split_and!; [done..|congruence|].
  exists (to_int (dt si)). split_and!; [| |apply to_int_range..].
  - rewrite Hrows2, Hrows, lookup_app_r by lia. by replace (_ + 3 - _) with 3 by lia.
  - pose proof (to_int_range (dt si)) as [? ?]. split; [intros <-; done|]. intros. apply to_int_small. unfold int_min. lia.
Qed.

(** ** An example: an institution that has a facility built *)
Module SimExample.
#[local] Existing Instance ulp_distance.
#[local] Existing Instance ResExample.pyne.
#[local] Existing Instance default_limits.
Abbreviation S := (Sim xq unit).

(** Traders that neither request nor bid. *)
Definition idle : TraderOps xq :=
  mkTraderOps xq (λ t, t) (λ _, []) (λ _, mret ∅) (λ _, mret ∅) (λ _ p, mret p) (λ _ p, mret p) (λ _ _, mret [])
    (λ _ _, mret tt).
(** An institution that enters schedules a facility of its own at time 2. *)
Definition enter (p : ptr) (s : S) : list (api xq unit) :=
  match agents s !! p with
  | Some a => match a_class a with AInstitution => [CSchedBuild (Some p) "fac" 2] | _ => [] end
  | None => []
  end.
Definition arch : Archetypes xq unit :=
  mkArchetypes xq unit (λ _ _, []) (λ _ _, []) enter (λ _ _ _, []) (λ _ _ _, []) (λ _ _, true) (λ _ _, []) (λ _ _, [])
    id (λ _, "1.0") idle idle.
Definition solve : M (ExchangeGraph xq) xq := mret (nZ 0).
Definition req_id (t : Z) (p : ptr) : string := "".

Definition si : SimInfo xq :=
  mkSimInfo xq "" "manual" 4 2010 1 0 "init" (-1) 2629846 (Some cy_eps) (Some cy_eps_rsrc) false false.
Definition inst : Agent := mkAgent AInstitution 0 "Inst" "inst" ":agents:NullInst" (-1) None (-1) (-1) ∅.
Definition fac : Agent := mkAgent AFacility 1 "Facility" "fac" ":agents:KFacility" 3 None (-1) (-1) ∅.
Definition world : World xq := mkWorld xq ∅ ∅ ∅ 1 1 1 1 ∅ 1 0 DecayManual 2629846 [].
(** Two prototypes, and the build of the institution scheduled at time 1. *)
Definition start : S :=
  mkSim (mkTimer xq si false false ∅ {[1%Z := [("inst", None)]]} ∅)
    (mkContext xq ∅ (<["inst" := 1%Z]> {["fac" := 2%Z]}) ∅ {[1%Z; 2%Z]} ∅ ∅ ∅ si)
    (<[1%Z := inst]> {[2%Z := fac]}) ∅ 2 3
    (mkXState xq (mkDRE xq world ∅ ∅ ∅ ∅ 0 1 new_ex_ctx empty_xlat new_graph) 0 [] (mkTradeCtx xq ∅ ∅ ∅ ∅ ∅)).
Definition finish : S := (RunSim arch false req_id solve start).2.

Lemma parts : good_parts arch solve.
Proof.
  assert (ops_evol idle) by (split; intros; apply respects_ret, _). split; [done|done|]. by intros g.
Qed.
Lemma runs : RunSim arch false req_id solve start = (Ret tt, finish).
Proof. vm_compute. reflexivity. Qed.
Lemma finish_time : time_of finish = 4%Z.
Proof. vm_compute. reflexivity. Qed.

Lemma start_forest : forest start.
Proof.
  assert (∀ p a, agents start !! p = Some a → (p = 1%Z ∧ a = inst) ∨ (p = 2%Z ∧ a = fac)) as Hin.
  { intros p a. cbn [agents start]. intros [[<- <-]|[_ Hp]]%lookup_insert_Some; [by left|].
    apply lookup_singleton_Some in Hp as [<- <-]. by right. }
  split.
  - intros p a q [[_ ->]|[_ ->]]%Hin; done.
  - intros p a [[_ ->]|[_ ->]]%Hin; done.
  - intros q b c [[_ ->]|[_ ->]]%Hin; set_solver.
  - vm_compute. reflexivity.
  - intros p a [[-> ->]|[-> ->]]%Hin; vm_compute; done.
  - intros p p' a a' [[-> ->]|[-> ->]]%Hin [[-> ->]|[-> ->]]%Hin; done.
  - intros i p. change ((∅ : gmap Z ptr) !! i = Some p → ∃ a, agents start !! p = Some a ∧ a_id a = i ∧ a_class a ≠ AOther).
    by rewrite lookup_empty.
Qed.
Lemma finish_forest : forest finish.
Proof. destruct (RunSim_forest arch false req_id solve start) as [Hk _]. unfold finish. exact (Hk start_forest). Qed.
(** The institution is agent 3, its facility agent 4. *)
Definition built_inst : Agent := mkAgent AInstitution 2 "Inst" "inst" ":agents:NullInst" (-1) None (-1) 1 {[4%Z]}.
Definition built_fac : Agent := mkAgent AFacility 3 "Facility" "fac" ":agents:KFacility" 3 (Some 3%Z) 2 2 ∅.
Lemma finish_3 : agents finish !! 3%Z = Some built_inst.
Proof. vm_compute. reflexivity. Qed.
Lemma finish_4 : agents finish !! 4%Z = Some built_fac.
Proof. vm_compute. reflexivity. Qed.
Lemma finish_queue : decom_queue_ (ti_ finish) = {[0%Z := []; 1%Z := []; 2%Z := []; 3%Z := []]}.
Proof. vm_compute. reflexivity. Qed.
Lemma empty_once (q : gmap Z (list ptr)) : (∀ t, at_default [] q t = []) → sched_once q.
Proof. intros Hq. split; [intros t; rewrite Hq; constructor|]. intros m t t'. rewrite Hq. by intros ?%elem_of_nil. Qed.
Lemma start_once : sched_once (decom_queue_ (ti_ start)).
Proof. by apply empty_once. Qed.
Lemma finish_once : sched_once (decom_queue_ (ti_ finish)).
Proof.
  apply empty_once. intros t. rewrite finish_queue. unfold at_default.
  destruct (_ !! t) as [l|] eqn:Hl; [|done]. do 3 (apply lookup_insert_Some in Hl as [[_ <-]|[_ Hl]]; [done|]).
  by apply lookup_singleton_Some in Hl as [_ <-].
Qed.

Lemma finish_unkilled : want_kill_ (ti_ finish) = false.
Proof. vm_compute. reflexivity. Qed.
Lemma run_terminates_witness :
  good_parts arch solve ∧ RunSim arch false req_id solve start = (Ret tt, finish) ∧ want_kill_ (ti_ finish) = false ∧
  let r := RunSim arch false req_id solve start in
  r.1 ≠ Throw OutOfFuel ∧ recorded (sim_world start) `prefix_of` recorded (sim_world r.2) ∧
  (r.1 = Ret tt → (time_of r.2 ≤ 4)%Z ∧ (want_kill_ (ti_ r.2) = false → time_of r.2 = 4%Z) ∧
    ("Finish", [("EarlyTerm", dbool (want_kill_ (ti_ r.2))); ("EndTime", DInt (time_of r.2 - 1))])
      ∈ recorded (sim_world r.2)).
Proof.
  split; [exact parts|]. split; [exact runs|]. split; [exact finish_unkilled|].
  exact (run_terminates arch false req_id solve start parts).
Defined.


Lemma agents_form_forest_witness : forest start ∧ forest (RunSim arch false req_id solve start).2.
Proof. split; [exact start_forest|]. exact (agents_form_forest arch false req_id solve start start_forest). Defined.

Lemma family_queries_agree_witness :
  forest finish ∧ is_Some (agents finish !! 3%Z) ∧ is_Some (agents finish !! 4%Z) ∧
  AncestorOf 3 4 finish = (Ret true, finish) ∧ DecendentOf 4 3 finish = (Ret true, finish) ∧
  AncestorOf 4 3 finish = (Ret false, finish).
Proof.
  assert (is_Some (agents finish !! 3%Z)) as H3 by (rewrite finish_3; by eexists).
  assert (is_Some (agents finish !! 4%Z)) as H4 by (rewrite finish_4; by eexists).
  destruct (family_queries_agree finish 3 4 finish_forest H3 H4) as (b & Hb & Hd & Hiff & Hanti & _).
  assert (b = true) as ->.
  { apply Hiff, tc_once. exists built_fac. split; [exact finish_4|reflexivity]. }
  split; [exact finish_forest|]. split; [exact H3|]. split; [exact H4|]. split; [exact Hb|]. split; [exact Hd|].
  exact (Hanti eq_refl).
Defined.

Lemma decommissions_scheduled_once_witness :
  good_parts arch solve ∧ sched_once (decom_queue_ (ti_ finish)) ∧ agents finish !! 4%Z = Some built_fac ∧
  ∃ s', SchedDecom 4 7 finish = (Ret tt, s') ∧ 4%Z ∈ at_default [] (decom_queue_ (ti_ s')) 7%Z.
Proof.
  split; [exact parts|]. split; [exact finish_once|]. split; [exact finish_4|].
  destruct (decommissions_scheduled_once arch false req_id solve finish 4%Z 7%Z built_fac parts finish_once finish_4)
    as (_ & Hrun & _).
  destruct Hrun as (s' & Hs & _ & Hin); [rewrite finish_time; vm_compute; done|]. exists s'. split; [exact Hs|].
  apply Hin. left. split; reflexivity.
Defined.

(** The institution decommissioned at the end, and a new one built before. *)
Definition with_inst : S := (CreateAgent arch None "inst" start).2.
Definition inst_in : S := (Build arch 3 None with_inst).2.
Definition inst_out : S := (Decommission arch 3 inst_in).2.
Lemma counts_balance_witness :
  agents with_inst !! 3%Z = Some (mkAgent AInstitution 2 "Inst" "inst" ":agents:NullInst" (-1) None (-1) (-1) ∅) ∧
  Build arch 3 None with_inst = (Ret tt, inst_in) ∧ Decommission arch 3 inst_in = (Ret tt, inst_out) ∧
  at_default 0%Z (n_prototypes_ (cx_ with_inst)) "inst" = 0%Z ∧ at_default 0%Z (n_prototypes_ (cx_ inst_out)) "inst" = (-1)%Z.
Proof.
  assert (agents with_inst !! 3%Z = Some (mkAgent AInstitution 2 "Inst" "inst" ":agents:NullInst" (-1) None (-1) (-1) ∅)) as Ha
    by (vm_compute; reflexivity).
  assert (Build arch 3 None with_inst = (Ret tt, inst_in)) as Hb by (vm_compute; reflexivity).
  assert (Decommission arch 3 inst_in = (Ret tt, inst_out)) as Hd by (vm_compute; reflexivity).
  split; [exact Ha|]. split; [exact Hb|]. split; [exact Hd|]. split; [vm_compute; reflexivity|].
  destruct (counts_balance arch with_inst inst_in inst_out 3 None _ Ha Hb Hd) as [Hp _]. rewrite Hp. vm_compute. reflexivity.
Defined.

Lemma print_children_diverges_witness :
  agents finish !! 3%Z = Some built_inst ∧ ∀ fuel v, (PrintChildren fuel 3 finish).1 ≠ Ret v.
Proof.
  split; [exact finish_3|]. destruct (print_children_diverges finish 3 built_inst finish_3) as [Hdiv _].
  apply Hdiv. discriminate.
Defined.

Lemma retirable_4 : retirable arch finish 4.
Proof. split; [|done]. exists built_fac. split; [exact finish_4|reflexivity]. Qed.
Lemma institution_retires_witness :
  agents finish !! 3%Z = Some built_inst ∧ (∀ c, c ∈ children_ built_inst → retirable arch finish c) ∧
  sched_once (decom_queue_ (ti_ finish)) ∧
  ∃ s', Institution_Tock arch 3 finish = (Ret tt, s') ∧ 4%Z ∈ at_default [] (decom_queue_ (ti_ s')) 4%Z.
Proof.
  assert (∀ c, c ∈ children_ built_inst → retirable arch finish c) as Hc
    by (intros c Hc; cbn [children_ built_inst] in Hc; apply elem_of_singleton in Hc as ->; exact retirable_4).
  split; [exact finish_3|]. split; [exact Hc|]. split; [exact finish_once|].
  destruct (institution_retires arch finish 3 built_inst finish_3 Hc finish_once) as (s' & Hrun & _ & _ & Hin).
  exists s'. split; [exact Hrun|]. apply Hin. left. split; [vm_compute; reflexivity|].
  split; [vm_compute; reflexivity|rewrite finish_time; reflexivity].
Defined.

Lemma init_sim_records_witness :
  si_eps si = Some cy_eps ∧ si_eps_rsrc si = Some cy_eps_rsrc ∧ (0 ≤ dt si < 2 ^ 64)%Z ∧
  (InitSim [] "" si start).1 = Ret tt ∧ time_of (InitSim [] "" si start).2 = 0%Z.
Proof.
  assert (0 ≤ dt si < 2 ^ 64)%Z as Hdt by (cbn; lia).
  split; [reflexivity|]. split; [reflexivity|]. split; [exact Hdt|].
  destruct (init_sim_records [] "" si start cy_eps cy_eps_rsrc eq_refl eq_refl Hdt) as (Hr & Ht & _).
  split; [exact Hr|exact Ht].
Defined.
End SimExample.
