(* ===== verification/SchemaProperties.v ===== *)
(** * Recorded rows

    The shape of the rows that a simulation records as a theorem. *)

From Stdlib Require Import QArith ZArith Lia.
From stdpp Require Import base list gmap strings.
From S2P Require Import Prelude Respects Num Arithmetic AgentSpec CompMath Resource Material MaterialProperties ExchangeGraph Portfolio Translator ExchangeManager Traders Sim SimRun GraphProperties SimProperties Schema.


(** The example of a simulation, with a source among the traders of materials. *)
Module SchemaExample.
Import SimExample.
#[local] Existing Instance ulp_distance.
#[local] Existing Instance ResExample.pyne.
#[local] Existing Instance default_limits.

End SchemaExample.
