(* ===== verification/RestartProperties.v ===== *)
(** * Properties of restarted simulations

    What is read back from the database of a simulation: its parameters, the next ids,
    compositions, the hierarchy of agents and the schedule of builds; and the order of
    digests. *)

From Stdlib Require Import QArith ZArith Lia.
From stdpp Require Import base list gmap strings sorting.
From S2P Require Import Prelude Respects Num Arithmetic AgentSpec CompMath Resource Material Query ExchangeGraph Portfolio Translator ExchangeManager Sim SimRun SimInit AgentTree AgentTheory RestartTheory Evolution SimTheory SimLemmas RestartDb Preconditioner GraphProperties MaterialProperties SimProperties.

Section info.
Context {F P : Type} `{Num F} `{Limits F} `{Pyne F} `{FloatDistance F}.
Context (ld : Loader F P).

Definition info_tables : list string := ["Info"; "DecayMode"; "InfoExplicitInv"; "TimeStepDur"; "Epsilon"].

(** What the database keeps of the parameters. *)
Definition restored (si : SimInfo F) : SimInfo F :=
  mkSimInfo F (handle si) (si_decay si) (duration si) (y0 si) (m0 si) (parent_sim si) "init" (-1) (uint64 (to_int (dt si)))
    (si_eps si) (si_eps_rsrc si) (explicit_inventory si) (explicit_inventory_compact si).
Lemma restored_id (si : SimInfo F) :
  parent_type si = "init" → branch_time si = (-1)%Z → (0 ≤ dt si ≤ int_max)%Z → restored si = si.
Proof.
  destruct si; cbn. intros -> -> Hdt. unfold restored. cbn. rewrite to_int_small by (unfold int_min; lia).
  unfold uint64. rewrite Z.mod_small by (unfold int_max in *; lia). done.
Qed.

Lemma info_table versions xmlpp (si : SimInfo F) e er (rows0 later : list (string * list (string * dval F))) t r :
  table_rows rows0 t = [] → table_rows later t = [] → table_rows (info_rows versions xmlpp si e er) t = [r] →
  table_rows ((rows0 ++ info_rows versions xmlpp si e er) ++ later) t = [r].
Proof. intros H0' H1' Hr. by rewrite !table_rows_app, H0', H1', Hr. Qed.

(** A table of one row. *)
Lemma single_query b0 d sid rows t r :
  answers b0 d → holds_sim d sid rows → table_rows rows t = [r] →
  ∃ qr, Query (CondInjector b0 [sim_cond sid]) t None = Ret qr ∧ rows_of qr !! 0 = Some (("SimId", DInt sid) :: r).
Proof.
  intros Ha Hd Ht. destruct (sim_query b0 d sid rows t None Ha Hd) as (qr & Hq & Hr); [by rewrite Ht|constructor|].
  exists qr. split; [done|]. rewrite Hr. cbn [default]. by rewrite matching_nil, Ht.
Qed.

(** C32.  The parameters of a simulation are read back as they were recorded, whatever
    other rows and simulations the database has: all of them but the kind of its parent
    and the branch time, which are those of a new simulation, and up to the width of the
    duration of a time step. *)
Theorem info_round_trip b0 d sid (si : SimInfo F) versions xmlpp (s s1 : Sim F P) later e er i :
  si_eps si = Some e → si_eps_rsrc si = Some er → InitSim versions xmlpp si s = (Ret tt, s1) →
  answers b0 d → holds_sim d sid (recorded (sim_world s1) ++ later) →
  (∀ t, t ∈ info_tables → table_rows (recorded (sim_world s)) t = [] ∧ table_rows later t = []) →
  let r := LoadInfo ld (CondInjector b0 [sim_cond sid]) i in
  r.1 = Ret tt ∧ i_info r.2 = restored si ∧ ctx_dt (sim_world (i_sim r.2)) = dt (restored si) ∧
  (parent_type si = "init" → branch_time si = (-1)%Z → (0 ≤ dt si ≤ int_max)%Z → i_info r.2 = si).
Proof.
  intros He Her Hinit Ha Hd Hno r.
  destruct (InitSim_run versions xmlpp si s e er He Her) as (s0 & Hrun & _ & Hrows). rewrite Hrun in Hinit.
  destruct (Initialize_run si s0) as [(s2 & Hi & Hm & _ & _ & _ & Hrows2)|[Hi _]]; rewrite Hinit in Hi; [|done].
  injection Hi as <-. rewrite Hrows2, Hrows in Hd.
  assert (∀ t row, t ∈ info_tables → table_rows (info_rows versions xmlpp si e er) t = [row] →
    ∃ qr, Query (CondInjector b0 [sim_cond sid]) t None = Ret qr ∧ rows_of qr !! 0 = Some (("SimId", DInt sid) :: row)) as HQ.
  { intros t row Ht Hrow. destruct (Hno t Ht) as [H0' H1'].
    eapply single_query; [exact Ha|exact Hd|]. by apply info_table. }
  destruct (HQ "Info" _ ltac:(set_solver) eq_refl) as (q1 & Q1 & R1).
  destruct (HQ "DecayMode" _ ltac:(set_solver) eq_refl) as (q2 & Q2 & R2).
  destruct (HQ "TimeStepDur" _ ltac:(set_solver) eq_refl) as (q3 & Q3 & R3).
  destruct (HQ "Epsilon" _ ltac:(set_solver) eq_refl) as (q4 & Q4 & R4).
  destruct (HQ "InfoExplicitInv" _ ltac:(set_solver) eq_refl) as (q5 & Q5 & R5).
  assert (∀ A (x : A), lift (S := SimInit F P) (Ret x) i = (Ret x, i)) as L by done.
  assert (r = on_sim (InitSim (lib_versions ld) (xmlpp_version ld) (restored si)) (set_i_info (restored si) i)) as ->.
  { unfold r, LoadInfo, int_at, str_at, dbl_at, bool_at. rewrite Q1, Q2, Q3, Q4, Q5.
    repeat load_step. unfold restored. rewrite He, Her. reflexivity. }
  destruct (InitSim_run (lib_versions ld) (xmlpp_version ld) (restored si) (i_sim i) e er He Her) as (s3 & Hrun3 & Hdt3 & _).
  destruct (Initialize_run (restored si) s3) as [(s4 & Hi4 & _ & _ & _ & Hdt4 & _)|[_ Hm']]; [|done].
  assert (on_sim (InitSim (lib_versions ld) (xmlpp_version ld) (restored si)) (set_i_info (restored si) i) =
    (Ret tt, set_i_sim s4 (set_i_info (restored si) i))) as ->.
  { unfold on_sim. change (i_sim (set_i_info (restored si) i)) with (i_sim i). by rewrite Hrun3, Hi4. }
  cbn [fst snd]. change (i_info (set_i_sim s4 (set_i_info (restored si) i))) with (restored si).
  split_and!; [done|done|by rewrite <-Hdt3, <-Hdt4|]. apply restored_id.
Qed.
End info.

Section ids.
Context {F P : Type} `{Num F} `{Limits F} `{Pyne F} `{FloatDistance F}.
Implicit Types s : Sim F P.

Lemma matching_app (r1 r2 : list (string * list (string * dval F))) t c :
  matching (r1 ++ r2) t c = matching r1 t c ++ matching r2 t c.
Proof. unfold matching. by rewrite table_rows_app, filter_app. Qed.
Lemma matching_table (r1 r2 : list (string * list (string * dval F))) t c :
  table_rows r1 t = table_rows r2 t → matching r1 t c = matching r2 t c.
Proof. unfold matching. by intros ->. Qed.
Lemma matching_ids t ids : matching (id_rows (F:=F) t ids) "NextIds" [eq_cond "Time" t] = (id_rows t ids).*2.
Proof.
  unfold matching. induction ids as [|[o x] ids IH]; [done|]. cbn [id_rows fmap list_fmap fst snd].
  unfold id_row at 1. rewrite table_rows_cons, decide_True by done. rewrite filter_cons_True; [f_equal; exact IH|].
  cbn [forallb]. by rewrite cond_eq.
Qed.

(** What one row of [NextIds] sets. *)
Definition restore_id (obj : string) (x : Z) : M (Sim F P) unit :=
  if decide (obj = "Agent") then modify (set_next_id x)
  else if decide (obj = "Transaction") then modify (set_trans_id x)
  else if decide (obj = "Composition") then on_sworld (modify (set_next_comp_id x))
  else if decide (obj = "ResourceState") then on_sworld (modify (set_nextstate_id x))
  else if decide (obj = "ResourceObj") then on_sworld (modify (set_nextobj_id x))
  else if decide (obj = "Product") then on_sworld (modify (λ w, set_qualids (qualids_ w) x w))
  else throw IOError.
Lemma load_id_run qr k sid t obj x s :
  rows_of qr !! k = Some (("SimId", DInt sid) :: (id_row t obj x).2) → load_next_id qr k s = restore_id obj x s.
Proof.
  intros Hr. unfold load_next_id, restore_id, str_at, int_at.
  rewrite (bind_ret _ _ _ _ _ (read_val as_str qr "Object" k sid _ (DStr obj) obj s Hr ltac:(discriminate) eq_refl eq_refl)).
  repeat case_decide; try done; exact (bind_ret _ _ _ _ _ (read_val as_int qr "NextId" k sid _ (DInt x) x s Hr ltac:(discriminate) eq_refl eq_refl)).
Qed.

Context (arch : Archetypes F P).
(** A snapshot keeps the next ids.  The ids of agents, transactions, compositions,
    resource states, resources and products that a snapshot records are those that are
    read back for its time, so that a restarted simulation does not use an id again. *)
Theorem next_ids_restored b0 d sid s s1 later s2 :
  Snapshot arch s = (Ret tt, s1) → answers b0 d → holds_sim d sid (recorded (sim_world s1) ++ later) →
  matching (recorded (sim_world s)) "NextIds" [eq_cond "Time" (time_of s)] = [] →
  matching later "NextIds" [eq_cond "Time" (time_of s)] = [] →
  ∃ s3, LoadNextIds (CondInjector b0 [sim_cond sid]) (time_of s) s2 = (Ret tt, s3) ∧ next_ids s3 = next_ids s.
Proof.
  intros Hs Ha Hd Hbefore Hafter. destruct (Snapshot_rows arch s s1 Hs) as (mid & Hrows & Hmid). rewrite Hrows in Hd.
  assert (matching ((mid ++ id_rows (time_of s) (next_ids s)) ++ later) "NextIds" [eq_cond "Time" (time_of s)] =
    (id_rows (time_of s) (next_ids s)).*2) as Hm.
  { rewrite !matching_app, (matching_table mid _ _ _ Hmid), Hbefore, Hafter, matching_ids, app_nil_r. done. }
  destruct (sim_query b0 d sid _ "NextIds" (Some [eq_cond "Time" (time_of s)]) Ha Hd) as (qr & Hq & Hr).
  { intros Hnil. unfold matching in Hm. by rewrite Hnil in Hm. }
  { cbn [default]. by repeat constructor. }
  assert (rows_of qr = cons ("SimId", DInt sid) <$> (id_rows (time_of s) (next_ids s)).*2) as Hr'
    by (rewrite <-Hm; exact Hr).
  clear Hr. rename Hr' into Hr. unfold LoadNextIds. rewrite Hq, (bind_ret (lift (Ret qr)) _ s2 qr s2 eq_refl).
  unfold for_rows. rewrite <-rows_of_length, Hr. unfold id_rows at 1. rewrite !length_fmap.
  set (ids := next_ids s) in *. change (seq 0 (length ids)) with [0; 1; 2; 3; 4; 5].
  assert (∀ k o x s', ids !! k = Some (o, x) → load_next_id qr k s' = restore_id o x s') as Hk.
  { intros k o x s' Hk. apply (load_id_run qr k sid (time_of s)). unfold id_rows in Hr.
    rewrite Hr, !list_lookup_fmap, Hk. done. }
  set (x1 := set_next_id (next_id_ s) s2). set (x2 := set_trans_id (trans_id_ (sx s)) x1).
  set (x3 := (on_sworld (modify (set_next_comp_id (next_comp_id_ (sim_world s)))) x2).2).
  set (x4 := (on_sworld (modify (set_nextstate_id (nextstate_id_ (sim_world s)))) x3).2).
  set (x5 := (on_sworld (modify (set_nextobj_id (nextobj_id_ (sim_world s)))) x4).2).
  set (x6 := (on_sworld (modify (λ w, set_qualids (qualids_ w) (next_qualid_ (sim_world s)) w)) x5).2).
  rewrite (for_each_cons _ 0 _ s2 x1 (Hk 0 _ _ s2 eq_refl)), (for_each_cons _ 1 _ x1 x2 (Hk 1 _ _ x1 eq_refl)),
    (for_each_cons _ 2 _ x2 x3 (Hk 2 _ _ x2 eq_refl)), (for_each_cons _ 3 _ x3 x4 (Hk 3 _ _ x3 eq_refl)),
    (for_each_cons _ 4 _ x4 x5 (Hk 4 _ _ x4 eq_refl)), (for_each_cons _ 5 _ x5 x6 (Hk 5 _ _ x5 eq_refl)).
  exists x6. split; [reflexivity|]. reflexivity.
Qed.
End ids.

Section agents.
Context {F P : Type} `{Num F} `{Limits F} `{Pyne F} `{FloatDistance F}.
Implicit Types (s : Sim F P) (i : SimInit F P).


(** Reading a value gives the value of the row. *)
Lemma field_of_zip_at f fs (vs : list (dval F)) k v :
  field_idx f fs = Some k → vs !! k = Some v → field_of f (zip fs vs) = Some v.
Proof.
  revert vs k. induction fs as [|g fs IH]; intros [|w vs] k; cbn; try done.
  destruct (decide (g = f)); [intros [= <-]; by intros [= ->]|].
  destruct (field_idx f fs) as [j|] eqn:Hj; [|done]. intros [= <-]. cbn. by apply IH.
Qed.
Lemma GetVal_inv (qr : QueryResult F) f k z :
  GetVal as_int qr f k = Ret z → ∃ r, rows_of qr !! k = Some r ∧ field_of f r = Some (DInt z).
Proof.
  unfold GetVal. destruct (qrows qr) as [|r0 rs] eqn:Hq; [done|]. rewrite <-Hq.
  destruct (qrows qr !! k) as [vs|] eqn:Hk; [|done]. destruct (field_idx f (qfields qr)) as [j|] eqn:Hj; [|done].
  destruct (vs !! j) as [v|] eqn:Hv; [|done]. destruct v; try done. intros [= ->]. exists (zip (qfields qr) vs).
  split; [|by eapply field_of_zip_at]. unfold rows_of. by rewrite list_lookup_fmap, Hk.
Qed.

Lemma cond_gt (r : list (string * dval F)) f t z :
  field_of f r = Some (DInt z) → cond_holds r (mkCond f ">" GT (DInt t)) = true → (t < z)%Z.
Proof. intros Hf. unfold cond_holds. cbn [c_field]. rewrite Hf. cbn. by destruct (Z.ltb_spec t z). Qed.

Context (arch : Archetypes F P) (ld : Loader F P).
Definition queue_at s (t : Z) : list (string * option ptr) := at_default [] (build_queue_ (ti_ s)) t.
Definition qkeep (t_ : Z) s s' : Prop := ∀ t, (t ≤ t_)%Z → queue_at s' t = queue_at s t.
#[local] Instance qkeep_preorder t_ : PreOrder (qkeep t_).
Proof. split; [done|]. unfold qkeep. intros s1 s2 s3 H1' H2' t Ht. rewrite H2', H1'; done. Qed.
Lemma SchedBuild_qkeep t_ parent proto t : (0 ≤ t_ < t)%Z → respects (qkeep t_) any_exn (SchedBuild parent proto t).
Proof.
  intros Ht. assert (∀ t v, respects (qkeep t_) any_exn (record (F:=F) (P:=P) t v)) as Hrec by (intros; by apply zoom_any).
  assert (respects (qkeep t_) any_exn (timer_SchedBuild (F:=F) (P:=P) parent proto t)) as Htm.
  { unfold timer_SchedBuild, now. respect. apply respects_modify. intros s t' Ht'. unfold queue_at. cbn.
    rewrite at_insert, decide_False by lia. done. }
  unfold SchedBuild, now, agent_at. replace (t =? -1)%Z with false by lia. respect.
Qed.

Definition ikeep (t_ : Z) i i' : Prop := qkeep t_ (i_sim i) (i_sim i').
#[local] Instance ikeep_preorder t_ : PreOrder (ikeep t_).
Proof. split; [done|]. unfold ikeep. intros i1 i2 i3 ? ?. by etrans. Qed.

(** An agent that was built at the time of a restart is lost.  Its entry is passed
    over, since "the agent is scheduled to be built already"; but the builds that are
    scheduled again are those of later times only, so that no build at the time of the
    restart or before it is ever scheduled. *)
Theorem restart_loses_builds b d t_ :
  (0 < t_)%Z → answers b d →
  (∀ qr u k s, GetVal as_int qr "EnterTime" k = Ret t_ → load_entry ld b t_ qr u k s = (Ret u, s)) ∧
  (∀ i t, (t ≤ t_)%Z → queue_at (i_sim (LoadBuildSched b t_ i).2) t = queue_at (i_sim i) t).
Proof.
  intros Ht Ha. split.
  - intros qr u k s Hk. unfold load_entry.
    assert ((if (0 <? t_)%Z then int_at qr "EnterTime" k else mret (t_ - 1)%Z) s = (Ret t_, s)) as E.
    { replace (0 <? t_)%Z with true by lia. unfold int_at. by rewrite Hk. }
    rewrite (bind_ret _ _ _ _ _ E). by replace ((0 <? t_)%Z && (t_ =? t_)%Z) with true by lia.
  - intros i t Hle. enough (respects (ikeep t_) any_exn (LoadBuildSched b t_)) as Hk by (by apply (Hk i)).
    assert (∀ id, respects (ikeep t_) any_exn (agent_ref (F:=F) (P:=P) id)) as Href by (intros; unfold agent_ref; respect; apply respects_modify; intros ? ? ?; reflexivity).
    unfold LoadBuildSched. set (c := mkCond "BuildTime" ">" GT (DInt t_)).
    destruct (Query b "BuildSchedule" (Some [c])) as [qr|e] eqn:Hq; unfold try_query.
    2: { destruct (caught e); [apply respects_ret_bind; respect|apply respects_throw_bind; [apply _|exact I]]. }
    apply respects_ret_bind, respects_for_each; [apply _|]. intros k.
    destruct (GetVal as_int qr "BuildTime" k) as [bt|e] eqn:Hbt; unfold int_at; rewrite Hbt;
      [|apply respects_throw_bind; [apply _|exact I]].
    assert (t_ < bt)%Z as Hlt.
    { apply GetVal_inv in Hbt as (r & Hr & Hf). destruct (decide (table_rows d "BuildSchedule" = [])) as [Hn|Hn].
      - destruct (an_none b d Ha "BuildSchedule" (Some [c]) Hn) as (e & He & _). congruence.
      - destruct (an_rows b d Ha "BuildSchedule" (Some [c]) Hn) as (qr' & Hq' & Hrows).
        assert (qr' = qr) as -> by congruence. rewrite Hrows in Hr. apply list_elem_of_lookup_2 in Hr.
        apply list_elem_of_filter in Hr as [Hc _]. apply andb_true_iff in Hc as [Hc _].
        exact (cond_gt _ "BuildTime" t_ bt Hf Hc). }
    apply respects_ret_bind. unfold str_at. respect; [unfold lift; case_match; respect..|].
    apply (respects_zoom (ikeep t_) (qkeep t_) _ i_sim set_i_sim); [done|]. apply SchedBuild_qkeep. lia.
Qed.
End agents.

Section composition.
Context {F : Type} `{Num F} `{Limits F} `{Pyne F}.
Implicit Types w : World F.

(** The mass view of a composition. *)
Definition mass_of (c : Composition F) : CompMap F :=
  if Nat.eqb (size (mass_ c)) 0 then map_imap (λ nuc x, Some (x * atomic_mass nuc)%D) (atom_ c) else mass_ c.
Definition frac_row (id : Z) (kv : Z * F) : string * list (string * dval F) :=
  ("Compositions", [("QualId", DInt id); ("NucId", DInt kv.1); ("MassFrac", DDbl kv.2)]).

Lemma record_each (f : Z * F → string * list (string * dval F)) l w :
  ∃ w1, for_each (λ kv, record_datum (f kv).1 (f kv).2) l w = (Ret tt, w1) ∧ recorded w1 = recorded w ++ (f <$> l).
Proof.
  revert w. induction l as [|kv l IH]; intros w; [exists w; by rewrite app_nil_r|].
  set (w0 := set_recorded (recorded w ++ [f kv]) w).
  destruct (IH w0) as (w1 & Hrun & Hrec). exists w1. split.
  - rewrite <-Hrun. apply (for_each_cons _ kv l w w0). unfold record_datum, modify, w0. by destruct (f kv).
  - rewrite Hrec. unfold w0. cbn. by rewrite <-app_assoc.
Qed.

Lemma mass_run w p c :
  comps w !! p = Some c → ∃ w1, mass p w = (Ret (mass_of c), w1) ∧ recorded w1 = recorded w.
Proof.
  intros Hp. unfold mass, get_comp, mass_of. unfold mbind, M_bind, m_bind. cbn. rewrite Hp. cbn.
  destruct (Nat.eqb (size (mass_ c)) 0); by eexists.
Qed.

Lemma RecordComp_rows w p c :
  comps w !! p = Some c → comp_recorded_ c = false →
  ∃ w1, RecordComp p w = (Ret tt, w1) ∧
    recorded w1 = recorded w ++ (frac_row (comp_id c) <$> in_order (compmath.Normalize (mass_of c) (nZ 1))).
Proof.
  intros Hp Hr. unfold RecordComp.
  assert (get_comp p w = (Ret c, w)) as Hg by (unfold get_comp, mbind, M_bind, m_bind; cbn; by rewrite Hp).
  rewrite (bind_ret _ _ _ _ _ Hg), Hr.
  set (c1 := mkComp F (comp_id c) true (atom_ c) (mass_ c) (prev_decay_ c) (decay_line_ c)).
  set (w0 := set_comps (<[p := c1]> (comps w)) w).
  rewrite (bind_ret (put_comp p c1) _ w tt w0 eq_refl).
  destruct (mass_run w0 p c1) as (w1 & Hm & Hrec); [apply lookup_insert_eq|]. rewrite (bind_ret _ _ _ _ _ Hm).
  change (mass_of c1) with (mass_of c).
  destruct (record_each (frac_row (comp_id c)) (in_order (compmath.Normalize (mass_of c) (nZ 1))) w1) as (w2 & Hrun & Hrec2).
  exists w2. split; [exact Hrun|]. by rewrite Hrec2, Hrec.
Qed.

Lemma matching_fracs id l : matching (frac_row id <$> l) "Compositions" [eq_cond "QualId" id] = (frac_row id <$> l).*2.
Proof.
  unfold matching. induction l as [|kv l IH]; [done|]. cbn [fmap list_fmap].
  unfold frac_row at 1. rewrite table_rows_cons, decide_True by done. rewrite filter_cons_True; [f_equal; exact IH|].
  cbn [forallb]. by rewrite cond_eq.
Qed.

Lemma load_fracs_run (qr : QueryResult F) sid id l : ∀ k cm,
  (∀ j kv, l !! j = Some kv → rows_of qr !! (k + j) = Some (("SimId", DInt sid) :: (frac_row id kv).2)) →
  load_fracs qr (seq k (length l)) cm = Ret (foldl (λ m kv, <[kv.1 := kv.2]> m) cm l).
Proof.
  induction l as [|kv l IH]; intros k cm Hl; [done|]. cbn [length seq load_fracs foldl].
  pose proof (Hl 0 kv eq_refl) as H0'. rewrite Nat.add_0_r in H0'.
  rewrite (GetVal_field as_int qr "NucId" k _ (DInt kv.1) H0' eq_refl).
  rewrite (GetVal_field as_dbl qr "MassFrac" k _ (DDbl kv.2) H0' eq_refl). cbn [as_int as_dbl].
  apply IH. intros j kv' Hj. specialize (Hl (S j) kv' Hj). by rewrite Nat.add_succ_r in Hl.
Qed.
Lemma foldl_in_order (n : CompMap F) : foldl (λ m kv, <[kv.1 := kv.2]> m) ∅ (in_order n) = n.
Proof.
  assert (∀ l, foldl (λ (m : CompMap F) kv, <[kv.1 := kv.2]> m) ∅ l = list_to_map (reverse l)) as Hf.
  { induction l as [|[k x] l IH] using rev_ind; [done|]. by rewrite foldl_snoc, IH, reverse_snoc. }
  rewrite Hf. rewrite <-(list_to_map_to_list n) at 2. symmetry.
  apply list_to_map_proper; [apply NoDup_fst_map_to_list|]. by rewrite reverse_Permutation, in_order_perm.
Qed.

Lemma CreateFromMass_run w v :
  compmath.ValidNucs v = true → compmath.AllPositive v = true →
  ∃ p w1 x, CreateFromMass v w = (Ret p, w1) ∧ comps w1 !! p = Some x ∧ mass_ x = v.
Proof.
  intros Hv Hp. unfold CreateFromMass, valid_comp. rewrite Hv, Hp, bind_assoc.
  rewrite !(bind_ret (require true ValueError) _ w tt w eq_refl).
  assert (∃ p w1 x, new_composition w = (Ret p, w1) ∧ comps w1 !! p = Some x) as (p & w1 & x & Hnew & Hx)
    by (eexists _, _, _; split; [reflexivity|apply lookup_insert_eq]).
  rewrite (bind_ret _ _ _ _ _ Hnew).
  assert (get_comp p w1 = (Ret x, w1)) as Hg by (unfold get_comp, mbind, M_bind, m_bind; cbn; by rewrite Hx).
  rewrite (bind_ret _ _ _ _ _ Hg). exists p, (set_comps (<[p := set_mass v x]> (comps w1)) w1), (set_mass v x).
  split_and!; [reflexivity|apply lookup_insert_eq|reflexivity].
Qed.

(** C34.  A composition is read back as it was recorded.  The mass fractions, normalised to
    one, come back nuclide by nuclide under the id of the composition, whatever else the
    database has. *)
Theorem composition_round_trip b0 d sid w w1 later p c w2 :
  let n := compmath.Normalize (mass_of c) (nZ 1) in
  let same_id := [eq_cond "QualId" (comp_id c)] in
  comps w !! p = Some c → comp_recorded_ c = false → RecordComp p w = (Ret tt, w1) →
  answers b0 d → holds_sim d sid (recorded w1 ++ later) →
  matching (recorded w) "Compositions" same_id = [] → matching later "Compositions" same_id = [] →
  n ≠ ∅ → compmath.ValidNucs n = true → compmath.AllPositive n = true →
  ∃ c' w3 x, LoadComposition (CondInjector b0 [sim_cond sid]) (comp_id c) w2 = (Ret c', w3) ∧
    comps w3 !! c' = Some x ∧ mass_ x = n ∧ comp_id x = comp_id c ∧ comp_recorded_ x = true.
Proof.
  intros n same_id Hp Hrec Hrun Ha Hd Hbefore Hafter Hne Hv Hpos.
  destruct (RecordComp_rows w p c Hp Hrec) as (w1' & Hrun' & Hrows). rewrite Hrun in Hrun'. injection Hrun' as <-.
  rewrite Hrows in Hd. fold n in Hd.
  assert (matching ((recorded w ++ (frac_row (comp_id c) <$> in_order n)) ++ later) "Compositions" same_id =
    (frac_row (comp_id c) <$> in_order n).*2) as Hm.
  { rewrite !matching_app, Hbefore, Hafter. unfold same_id. by rewrite matching_fracs, app_nil_r. }
  assert (in_order n ≠ []) as Hin.
  { intros E. apply Hne, map_size_empty_inv. by rewrite <-length_in_order, E. }
  destruct (sim_query b0 d sid _ "Compositions" (Some same_id) Ha Hd) as (qr & Hq & Hr).
  { intros Hnil. unfold matching in Hm. rewrite Hnil in Hm. by destruct (in_order n). }
  { by repeat constructor. }
  assert (rows_of qr = cons ("SimId", DInt sid) <$> (frac_row (comp_id c) <$> in_order n).*2) as Hr' by (rewrite <-Hm; exact Hr).
  unfold LoadComposition. fold same_id. rewrite Hq, (bind_ret (lift (Ret qr)) _ w2 qr w2 eq_refl).
  rewrite <-rows_of_length, Hr', !length_fmap, (load_fracs_run qr sid (comp_id c)), foldl_in_order.
  2: { intros j kv Hj. by rewrite Hr', !list_lookup_fmap, Nat.add_0_l, Hj. }
  rewrite (bind_ret (lift (Ret n)) _ w2 n w2 eq_refl).
  destruct (CreateFromMass_run w2 n Hv Hpos) as (c' & w3 & x & Hc & Hx & Hmass). rewrite (bind_ret _ _ _ _ _ Hc).
  assert (get_comp c' w3 = (Ret x, w3)) as Hg by (unfold get_comp, mbind, M_bind, m_bind; cbn; by rewrite Hx).
  rewrite (bind_ret _ _ _ _ _ Hg). eexists c', _, _. split; [reflexivity|]. split; [apply lookup_insert_eq|]. by split_and!.
Qed.
End composition.

Section state.
Context {F P : Type} `{Num F} `{Limits F} `{Pyne F} `{FloatDistance F}.
Implicit Types s : Sim F P.

Definition state_conds (id t : Z) : list (Cond F) := [eq_cond "AgentId" id; eq_cond "SimTime" t].
Definition state_row (a : Agent) (t : Z) : list (string * dval F) :=
  [("AgentId", DInt (a_id a)); ("SimTime", DInt t); ("Prototype", DStr (prototype_ a)); ("Lifetime", DInt (lifetime_ a))].

(** C35.  The state of an agent is read back as a snapshot recorded it.  Through the
    wrappers that add the prefix of the table, the id of the agent, the time and the
    simulation, [InitFrom] finds the prototype, the id and the lifetime. *)
Theorem agent_state_round_trip b0 d sid s s1 later p a s2 m a0 :
  agents s !! p = Some a → agent_Snapshot p s = (Ret tt, s1) →
  answers b0 d → holds_sim d sid (recorded (sim_world s1) ++ later) →
  matching (recorded (sim_world s)) "AgentStateAgent" (state_conds (a_id a) (time_of s)) = [] →
  matching later "AgentStateAgent" (state_conds (a_id a) (time_of s)) = [] →
  agents s2 !! m = Some a0 →
  let ci := CondInjector (CondInjector b0 [sim_cond sid]) (state_conds (a_id a) (time_of s)) in
  ∃ s3, InitFromDb m (PrefixInjector ci "AgentState") s2 = (Ret tt, s3) ∧
    agents s3 !! m = Some (mkAgent (a_class a0) (a_id a) (a_kind a0) (prototype_ a) (spec_ a0) (lifetime_ a)
      (parent_ a0) (parent_id_ a0) (enter_time_ a0) (children_ a0)).
Proof.
  intros Hp Hs Ha Hd Hbefore Hafter Hm ci.
  assert (recorded (sim_world s1) = recorded (sim_world s) ++ [("AgentStateAgent", state_row a (time_of s))]) as Hrows.
  { unfold agent_Snapshot, db_datum in Hs. rewrite (bind_ret _ _ _ _ _ (agent_at_Some p s a Hp)) in Hs.
    rewrite (bind_ret _ _ _ _ _ (agent_at_Some p s a Hp)) in Hs. by injection Hs as <-. }
  rewrite Hrows in Hd.
  assert (matching ((recorded (sim_world s) ++ [("AgentStateAgent", state_row a (time_of s))]) ++ later) "AgentStateAgent"
    (state_conds (a_id a) (time_of s)) = [state_row a (time_of s)]) as Hmt.
  { rewrite !matching_app, Hbefore, Hafter. unfold matching. rewrite table_rows_cons, decide_True by done.
    rewrite filter_cons_True; [done|]. cbn [forallb state_conds]. by rewrite !cond_eq. }
  destruct (sim_query b0 d sid _ "AgentStateAgent" (Some (state_conds (a_id a) (time_of s))) Ha Hd) as (qr & Hq & Hr).
  { intros Hnil. unfold matching in Hmt. by rewrite Hnil in Hmt. }
  { by repeat constructor. }
  assert (rows_of qr !! 0 = Some (("SimId", DInt sid) :: state_row a (time_of s))) as Hr0.
  { etrans; [apply (f_equal (lookup 0) Hr)|]. rewrite list_lookup_fmap.
    change (default [] (Some (state_conds (a_id a) (time_of s)))) with (state_conds (a_id a) (time_of s)). by rewrite Hmt. }
  unfold InitFromDb, str_at, int_at. change (Query (PrefixInjector ci "AgentState") "Agent" None) with
    (Query (CondInjector b0 [sim_cond sid]) "AgentStateAgent" (Some (state_conds (a_id a) (time_of s)))).
  rewrite Hq. load_step. load_step. rewrite (bind_ret _ _ _ _ _ (modify_agent_at m _ s2 a0 Hm)).
  load_step. erewrite (bind_ret (modify_agent m _)); [|apply modify_agent_at, lookup_insert_eq].
  load_step. rewrite (modify_agent_at m _ _ _ (lookup_insert_eq _ _ _)).
  eexists. split; [reflexivity|]. apply lookup_insert_eq.
Qed.
End state.

Lemma words_irrefl a : words_lt a a = false.
Proof. induction a as [|x a IH]; [done|]. cbn. by rewrite !Z.ltb_irrefl. Qed.
Lemma words_trans a b c : words_lt a b = true → words_lt b c = true → words_lt a c = true.
Proof.
  revert b c. induction a as [|x a IH]; intros [|y b] [|z c]; cbn; try done.
  destruct (Z.ltb_spec x y), (Z.ltb_spec y x), (Z.ltb_spec y z), (Z.ltb_spec z y), (Z.ltb_spec x z), (Z.ltb_spec z x);
    try done; try lia. apply IH.
Qed.
Lemma words_order a b :
  length a = length b →
  (words_eq a b = true ↔ a = b) ∧ words_lt a a = false ∧ (words_lt a b = true → words_lt b a = false) ∧
  (a = b ∨ words_lt a b = true ∨ words_lt b a = true).
Proof.
  intros Hl. split_and!; [|apply words_irrefl| |].
  - revert b Hl. induction a as [|x a IH]; intros [|y b] Hl; cbn; try done.
    destruct (Z.eqb_spec x y) as [->|Hne]; [|split; [done|by intros [= ->]]]. rewrite IH by (cbn in Hl; lia).
    split; [by intros ->|by intros [= ->]].
  - intros Hab. destruct (words_lt b a) eqn:Hba; [|done]. pose proof (words_trans _ _ _ Hab Hba) as Hc.
    by rewrite words_irrefl in Hc.
  - revert b Hl. induction a as [|x a IH]; intros [|y b] Hl; cbn; try done; [by left|].
    destruct (Z.ltb_spec x y), (Z.ltb_spec y x); [by auto..|]. assert (x = y) as -> by lia.
    destruct (IH b) as [->|[|]]; [cbn in Hl; lia|by auto..].
Qed.

(** Digests are totally ordered.  On digests of five words, [<] is the lexicographic
    order: irreflexive, transitive, and total up to [==], which is equality; the other
    four operators agree with it. *)
Theorem digest_order a b c :
  dig_ok a → dig_ok b → dig_ok c →
  (dig_eq a b = true ↔ a = b) ∧ dig_lt a a = false ∧
  (dig_lt a b = true → dig_lt b c = true → dig_lt a c = true) ∧
  (a = b ∨ dig_lt a b = true ∨ dig_lt b a = true) ∧
  dig_gt a b = dig_lt b a ∧ dig_le a b = (dig_lt a b || dig_eq a b) ∧ dig_ge a b = (dig_lt b a || dig_eq a b) ∧
  dig_ne a b = (dig_lt a b || dig_lt b a).
Proof.
  destruct a as [a], b as [b], c as [c]. unfold dig_ok, CYCLUS_SHA1_NINT. cbn [dig_val]. intros Ha Hb Hc.
  destruct (words_order a b) as (Heq & Hirr & Hanti & Htot); [congruence|].
  unfold dig_gt, dig_le, dig_ge, dig_ne, dig_gt, dig_eq, dig_lt. cbn [dig_val].
  assert (words_eq a b = true ↔ mkDigest a = mkDigest b) as Heq' by (rewrite Heq; split; [by intros ->|by intros [= ->]]).
  split_and!; [done|by apply words_irrefl|by apply words_trans|destruct Htot as [->|[|]]; by auto|..];
    destruct (words_lt a b) eqn:H1, (words_lt b a) eqn:H2, (words_eq a b) eqn:H3; try done; exfalso;
    repeat match goal with H : words_eq a b = true |- _ => apply Heq in H as -> end;
    rewrite ?words_irrefl in *; intuition congruence.
Qed.

(** ** Examples: the database of the example simulation *)
Section reference.
Context {F : Type} `{Num F}.
Implicit Types d : list (string * list (string * dval F)).
Definition uniformb d : bool :=
  forallb (λ x, forallb (λ y, negb (bool_decide (x.1 = y.1)) || bool_decide (x.2.*1 = y.2.*1)) d) d.
Lemma uniformb_ok d : uniformb d = true → uniform d.
Proof.
  unfold uniformb, uniform. rewrite forallb_forall. intros Hd t r r' Hr Hr'. rewrite list_elem_of_In in Hr, Hr'.
  specialize (Hd _ Hr). rewrite forallb_forall in Hd. specialize (Hd _ Hr'). cbn in Hd.
  rewrite bool_decide_true in Hd by done. by apply bool_decide_eq_true in Hd.
Qed.
Lemma holds_own sid d : holds_sim (of_sim sid <$> d) sid d.
Proof.
  unfold holds_sim. induction d as [|[t r] d IH]; [done|]. cbn [fmap list_fmap]. rewrite filter_cons_True by (by apply cond_eq).
  by rewrite IH.
Qed.
End reference.

Module RestartExample.
Import SimExample.
#[local] Existing Instance ulp_distance.
#[local] Existing Instance ResExample.pyne.
#[local] Existing Instance default_limits.

Definition loader : Loader xq unit := mkLoader xq unit (λ _, Ret AFacility) (λ _ _, Ret tt) (λ _ _ _, []) [] "".
Definition fresh_init : SimInit xq unit := mkSimInit start si ∅ None.

(** The database of simulation 7. *)
Definition db_of (rows : list (string * list (string * dval xq))) : list (string * list (string * dval xq)) := of_sim 7 <$> rows.
Lemma db_answers rows : uniformb (db_of rows) = true → answers (rows_backend (db_of rows)) (db_of rows).
Proof. intros Hu. by apply rows_backend_answers, uniformb_ok. Qed.

Definition begun : Sim xq unit := (InitSim [] "" si start).2.
Lemma info_round_trip_witness :
  si_eps si = Some cy_eps ∧ si_eps_rsrc si = Some cy_eps_rsrc ∧ InitSim [] "" si start = (Ret tt, begun) ∧
  answers (rows_backend (db_of (recorded (sim_world begun)))) (db_of (recorded (sim_world begun))) ∧
  holds_sim (db_of (recorded (sim_world begun))) 7 (recorded (sim_world begun) ++ []) ∧
  (∀ t, t ∈ info_tables → table_rows (recorded (sim_world start)) t = [] ∧ table_rows (F:=xq) [] t = []) ∧
  i_info (LoadInfo loader (CondInjector (rows_backend (db_of (recorded (sim_world begun)))) [sim_cond 7]) fresh_init).2 = si.
Proof.
  assert (InitSim [] "" si start = (Ret tt, begun)) as Hrun by (vm_compute; reflexivity).
  assert (answers (rows_backend (db_of (recorded (sim_world begun)))) (db_of (recorded (sim_world begun)))) as Ha
    by (apply db_answers; vm_compute; reflexivity).
  assert (holds_sim (db_of (recorded (sim_world begun))) 7 (recorded (sim_world begun) ++ [])) as Hd
    by (rewrite app_nil_r; apply holds_own).
  assert (∀ t, t ∈ info_tables → table_rows (recorded (sim_world start)) t = [] ∧ table_rows (F:=xq) [] t = []) as Hno
    by (intros t _; split; reflexivity).
  split; [reflexivity|]. split; [reflexivity|]. split; [exact Hrun|]. split; [exact Ha|]. split; [exact Hd|]. split; [exact Hno|].
  destruct (info_round_trip loader _ _ 7 si [] "" start begun [] cy_eps cy_eps_rsrc fresh_init eq_refl eq_refl Hrun Ha Hd Hno)
    as (_ & _ & _ & Hsi).
  apply Hsi; [reflexivity|reflexivity|]. vm_compute. split; discriminate.
Defined.

Definition snapped : Sim xq unit := (Snapshot arch start).2.
Lemma next_ids_restored_witness :
  Snapshot arch start = (Ret tt, snapped) ∧
  answers (rows_backend (db_of (recorded (sim_world snapped)))) (db_of (recorded (sim_world snapped))) ∧
  holds_sim (db_of (recorded (sim_world snapped))) 7 (recorded (sim_world snapped) ++ []) ∧
  matching (recorded (sim_world start)) "NextIds" [eq_cond "Time" (time_of start)] = [] ∧
  ∃ s3, LoadNextIds (CondInjector (rows_backend (db_of (recorded (sim_world snapped)))) [sim_cond 7]) (time_of start) begun
    = (Ret tt, s3) ∧ next_id_ s3 = 2%Z.
Proof.
  assert (Snapshot arch start = (Ret tt, snapped)) as Hrun by (vm_compute; reflexivity).
  assert (answers (rows_backend (db_of (recorded (sim_world snapped)))) (db_of (recorded (sim_world snapped)))) as Ha
    by (apply db_answers; vm_compute; reflexivity).
  assert (holds_sim (db_of (recorded (sim_world snapped))) 7 (recorded (sim_world snapped) ++ [])) as Hd
    by (rewrite app_nil_r; apply holds_own).
  split; [exact Hrun|]. split; [exact Ha|]. split; [exact Hd|]. split; [reflexivity|].
  destruct (next_ids_restored arch _ _ 7 start snapped [] begun Hrun Ha Hd eq_refl eq_refl) as (s3 & Hl & Hids).
  exists s3. split; [exact Hl|]. injection Hids as Hid _ _ _ _ _. rewrite Hid. reflexivity.
Defined.


Definition sched_db : list (string * list (string * dval xq)) :=
  [("BuildSchedule", [("ParentId", DInt (-1)); ("Prototype", DStr "fac"); ("SchedTime", DInt 0); ("BuildTime", DInt 1)])].
Lemma restart_loses_builds_witness :
  (0 < 1)%Z ∧ answers (rows_backend sched_db) sched_db ∧
  queue_at (i_sim (LoadBuildSched (rows_backend sched_db) 1 (set_i_sim begun fresh_init)).2) 1 = queue_at begun 1.
Proof.
  assert (answers (rows_backend sched_db) sched_db) as Ha by (apply rows_backend_answers, uniformb_ok; vm_compute; reflexivity).
  split; [reflexivity|]. split; [exact Ha|].
  destruct (restart_loses_builds loader _ sched_db 1 eq_refl Ha) as [_ Hq]. exact (Hq (set_i_sim begun fresh_init) 1%Z ltac:(lia)).
Defined.

Definition comp_world : World xq := (CreateFromMass ResExample.nat_u ResExample.empty_world).2.
Definition comp_ptr : ptr := 2.
Definition comp0 : Composition xq := mkComp xq 1 false ∅ ResExample.nat_u 0 1.
Definition comp_recorded : World xq := (RecordComp comp_ptr comp_world).2.
Lemma composition_round_trip_witness :
  comps comp_world !! comp_ptr = Some comp0 ∧ RecordComp comp_ptr comp_world = (Ret tt, comp_recorded) ∧
  answers (rows_backend (db_of (recorded comp_recorded))) (db_of (recorded comp_recorded)) ∧
  ∃ c' w3 x, LoadComposition (CondInjector (rows_backend (db_of (recorded comp_recorded))) [sim_cond 7]) 1 comp_world = (Ret c', w3) ∧
    comps w3 !! c' = Some x ∧ mass_ x = compmath.Normalize ResExample.nat_u (nZ 1).
Proof.
  assert (comps comp_world !! comp_ptr = Some comp0) as Hc by (vm_compute; reflexivity).
  assert (RecordComp comp_ptr comp_world = (Ret tt, comp_recorded)) as Hrun by (vm_compute; reflexivity).
  assert (answers (rows_backend (db_of (recorded comp_recorded))) (db_of (recorded comp_recorded))) as Ha
    by (apply db_answers; vm_compute; reflexivity).
  assert (holds_sim (db_of (recorded comp_recorded)) 7 (recorded comp_recorded ++ [])) as Hd
    by (rewrite app_nil_r; apply holds_own).
  split; [exact Hc|]. split; [exact Hrun|]. split; [exact Ha|].
  destruct (composition_round_trip _ _ 7 comp_world comp_recorded [] comp_ptr comp0 comp_world Hc eq_refl Hrun Ha Hd)
    as (c' & w3 & x & Hl & Hx & Hm & _);
    [vm_compute; reflexivity|vm_compute; reflexivity|vm_compute; discriminate|vm_compute; reflexivity|vm_compute; reflexivity|].
  exists c', w3, x. split; [exact Hl|]. split; [exact Hx|exact Hm].
Defined.

Definition new_inst : Agent := mkAgent AInstitution 2 "Inst" "inst" ":agents:NullInst" (-1) None (-1) 0 ∅.
Definition inst_snapped : Sim xq unit := (agent_Snapshot 3 inst_in).2.
Lemma agent_state_round_trip_witness :
  agents inst_in !! 3%Z = Some new_inst ∧ agent_Snapshot 3 inst_in = (Ret tt, inst_snapped) ∧
  answers (rows_backend (db_of (recorded (sim_world inst_snapped)))) (db_of (recorded (sim_world inst_snapped))) ∧
  ∃ s3, InitFromDb 1 (PrefixInjector (CondInjector (CondInjector (rows_backend (db_of (recorded (sim_world inst_snapped))))
      [sim_cond 7]) (state_conds 2 (time_of inst_in))) "AgentState") start = (Ret tt, s3) ∧
    (a_id <$> agents s3 !! 1%Z) = Some 2%Z.
Proof.
  assert (agents inst_in !! 3%Z = Some new_inst) as Hp by (vm_compute; reflexivity).
  assert (agent_Snapshot 3 inst_in = (Ret tt, inst_snapped)) as Hrun by (vm_compute; reflexivity).
  assert (answers (rows_backend (db_of (recorded (sim_world inst_snapped)))) (db_of (recorded (sim_world inst_snapped)))) as Ha
    by (apply db_answers; vm_compute; reflexivity).
  assert (holds_sim (db_of (recorded (sim_world inst_snapped))) 7 (recorded (sim_world inst_snapped) ++ [])) as Hd
    by (rewrite app_nil_r; apply holds_own).
  split; [exact Hp|]. split; [exact Hrun|]. split; [exact Ha|].
  destruct (agent_state_round_trip _ _ 7 inst_in inst_snapped [] 3 new_inst start 1 inst Hp Hrun Ha Hd) as (s3 & Hl & Hag);
    [vm_compute; reflexivity|vm_compute; reflexivity|vm_compute; reflexivity|].
  exists s3. split; [exact Hl|]. rewrite Hag. reflexivity.
Defined.

Lemma digest_order_witness :
  dig_ok (mkDigest [1; 2; 3; 4; 5]%Z) ∧ dig_ok (mkDigest [1; 2; 3; 4; 6]%Z) ∧ dig_ok (mkDigest [2; 0; 0; 0; 0]%Z) ∧
  dig_lt (mkDigest [1; 2; 3; 4; 5]%Z) (mkDigest [2; 0; 0; 0; 0]%Z) = true.
Proof.
  split; [reflexivity|]. split; [reflexivity|]. split; [reflexivity|].
  destruct (digest_order (mkDigest [1; 2; 3; 4; 5]%Z) (mkDigest [1; 2; 3; 4; 6]%Z) (mkDigest [2; 0; 0; 0; 0]%Z) eq_refl eq_refl eq_refl)
    as (_ & _ & Htr & _).
  apply Htr; reflexivity.
Defined.
End RestartExample.
